(* ===== verification/_CoqProject ===== *)
-Q . S2P
Prelude.v
IntrusiveList.v
Buddy.v
BuddyInv.v
BuddySpec.v
BuddyInit.v
Log.v
LogSpec.v
Bio.v
BioSpec.v
BioLog.v
Virtio.v
VirtioSpec.v
Fs.v
FsSpec.v
FsFile.v
FsTxn.v
FsAlloc.v
Itable.v
Ring.v
Uart.v
Console.v
Printf.v
Channel.v
Sync.v
OnceCell.v
RwLock.v
Proc.v
ProcSpec.v
Sleeplock.v
SleeplockSpec.v
Clock.v
Condvar.v
Spinlock.v
Sched.v
SchedSpec.v
Trap.v
Vm.v
VmSpec.v
KernelMap.v
Addr.v
VmCopy.v
Machine.v
MachineSpec.v
Harts.v
File.v
FileSpec.v
Devices.v
Syscall.v
SyscallSpec.v
Usys.v
Exec.v
ExecSpec.v
ExecFs.v
Boot.v
BootSpec.v
Mkfs.v
MkfsSpec.v
