(* ===== verification/Prelude.v ===== *)
(** * octox: a verification library

    octox is a small operating system for riscv64 written in Rust, after xv6.
    This library models its kernel by shallow embedding: the functions under
    [src/src/kernel] are Rocq functions, their state is passed explicitly, and
    the theorems are about these functions.

    ** The program and the files of the library

    - Memory.  [list.rs] is an intrusive doubly linked list: [IntrusiveList].
      [buddy.rs] is the buddy allocator, with free lists in the memory it
      manages: [Buddy] translates it, [BuddyInv] has the invariant of its
      bitmaps and lists, [BuddySpec] its theorems, [BuddyInit] those on its
      initialisation.  [vm.rs] has addresses, page tables, the kernel map and
      user address spaces: [Addr] and [Vm], theorems in [VmSpec], the kernel
      map in [KernelMap], the copies between kernel and user in [VmCopy].
    - Storage.  [bio.rs] caches disk blocks: [Bio] and [BioSpec].  [log.rs]
      groups block writes into transactions: [Log] and [LogSpec].  [fs.rs] has
      blocks, inodes, directories and paths: [Fs] on top of [Log], with the
      theorems on inodes, block maps and paths in [FsSpec], on the contents of
      files in [FsFile], on transactions in [FsTxn], on freeing and allocation
      in [FsAlloc]; the table of inodes and their locks, which processes share,
      is [Itable].
      [virtio_disk.rs] drives the disk: [Virtio] and [VirtioSpec].
      [mkfs/main.rs] builds the image: [Mkfs] and [MkfsSpec].
    - Devices.  [uart.rs] is [Uart], [console.rs] is [Console]; both use the
      lemmas on ring buffers of [Ring].  [printf.rs] is [Printf].  [Devices]
      registers the console and lists processes.
    - Synchronisation.  [semaphore.rs], [mpmc.rs] and [pipe.rs] are [Channel],
      and [Condvar] with the condition variables of [condvar.rs];
      [sync.rs] is [Sync] for its threads and [OnceCell] for its operations;
      [rwlock.rs] is [RwLock]; [sleeplock.rs] is [Sleeplock] and
      [SleeplockSpec]; [spinlock.rs] and the nesting of interrupt disabling in
      [proc.rs] are [Spinlock], and on the registers of the harts [Harts].
    - Processes.  The process table of [proc.rs] is [Proc], theorems in
      [ProcSpec]; its scheduler on several harts is [Sched] and [SchedSpec].
      [trap.rs], [trampoline.rs] and the trapframe of [proc.rs] are [Trap]; the
      clock of [trap.rs] with the sleepers of [syscall.rs] is [Clock].
      [main.rs], the first process and its machine code are [Boot] and
      [BootSpec].
    - Machine.  [riscv.rs], [entry.rs], [start.rs], [plic.rs], [kernelvec.rs]
      and [swtch.rs] are [Machine] and [MachineSpec]: control registers, and
      the assembly run instruction by instruction.
    - System calls.  [file.rs], [fcntl.rs] and the ends of pipes are [File] and
      [FileSpec]; [syscall.rs] is [Syscall] and [SyscallSpec], the stubs it
      generates for user programs with [build.rs] are [Usys]; [exec.rs] and
      [elf.rs] are [Exec] and [ExecSpec].

    ** How the code is translated

    - A function returns an [outcome]: [Done] with its value, [Panic], or
      [Fault] when it follows a raw pointer to nothing.  Machine integers are
      in [Z]; the kernel is built with overflow checks, so [+], [-] and [*]
      on [usize] are [checked_add] and the like where they can overflow, and
      [Wrapping<usize>] is [wrapping_add].
    - A Rust loop is a [Fixpoint] on a list or on a number of rounds.  Where
      the number is not the length of a list it is computed by the caller from
      the bounds of the loop ([mappages], [unmap], [read], [balloc]), or it is
      a parameter ([get] of [Bio], [namex_loop], [putc_sync]); running out of
      rounds is a separate result ([Panic "out of fuel"], [None], [Spin]), and
      the theorems show that it does not occur ([mappages_exact],
      [bcache_get], [read_aligned], [namex_terminates]) or that it always does
      ([bcache_release_first_spins]).  Where the rounds are bounded by the data
      the bound is part of the definition: [S NUM] links of a descriptor
      chain, 65536 entries of the used ring, one round per byte in [copyout],
      [copyin], the chunks of a file write and [iappend], one per page in
      [loadseg], ten instructions of [INITCODE] per trap; theorems show that
      the loops end within them.
    - The bytes of a buffer are taken to be aligned, as the compiler decides;
      then [align_to] gives the words and inodes of a block at the multiples of
      their size ([align_to_elements]), which is how [Log] and [Fs] read them.
    - Code that runs on several cpus is a step relation: each step is one
      critical section or one atomic access of one thread, and the theorems
      quantify over all reachable states.  Interleavings are sequentially
      consistent; weak memory orderings are not modelled.
    - What a component needs from another is a class or a parameter:
      [BlockCache] with the laws [BlockCacheLaws] for the log, [UserMemory]
      for the process table, [FileWorld] and [PathWorld] (inodes, paths and
      devices) for files and system calls, [UserAccess] with [UserLaws] and
      [LoadLaws] for the memory of a process, which the page tables of [Vm]
      satisfy ([ExecSpec.VmWorld]), [ExecWorld] for [exec], [FirstProcess] for
      [user_init], [Addr] with [AddrLaws] for the three types of addresses;
      the values of the status register for the uart, [copyout] and [copyin]
      for console and pipe, [avail] for the pages the allocator hands out to
      [Vm], a function for the disk, the alignment of buffers for [mkfs].

    ** What the theorems show

    - List and allocator: the pointer code implements sequences
      ([list_refines]); [alloc] and [dealloc] implement an abstract allocator,
      every client run is safe, blocks are aligned, and clients cannot damage
      the allocator ([buddy_alloc_refines], [buddy_dealloc_refines],
      [buddy_run_safe], [buddy_alloc_aligned], [buddy_client_writes]); [init]
      establishes the invariant on every heap of 4096 bytes or more,
      so runs from boot are safe ([buddy_init_ready], [kmem_boot_safe]).
    - Log: commit is atomic under crashes, recovery can be restarted, and
      admission keeps the log within bounds ([log_commit_crash_safe],
      [log_recover_restartable], [log_protocol_safe]), up to a gap of one
      block ([log_reservation_gap]).
    - Buffer cache: lookup and recycling, release in the middle of the list,
      the elements of a block, and the cycle that release of the first buffer makes.
    - File system: inodes and the block map on disk, path elements and the end
      of path lookup, and the lookups that panic.  Every call records the blocks
      it changes in the log, so groups of calls are atomic under crashes
      ([fs_group_atomic], and [write_fault_unlogged] for the exception);
      [write] at a block boundary and [read] work on files as byte sequences
      ([file_write_read]); [trunc], the last [put] of an unlinked file and
      [ITable::alloc] do what they should ([trunc_frees], [put_frees],
      [ialloc_exact]) on files that are not too large ([trunc_bound]).  Processes share one copy of an inode in memory and lock
      it one at a time ([itable_shared], [inode_exclusive]), except for requests
      that fall into the window of a [put] ([itable_race],
      [put_waits_for_guard]); an entry can be left behind ([itable_leak]).
    - Image: appending to a file gives its bytes followed by the new ones in
      the kernel's view ([mkfs_append]); the image has the kernel's layout
      ([mkfs_image]).
    - Disk driver: requests are chains of three descriptors in the format of
      the device, and freeing a chain gives them back ([virtio_submit],
      [virtio_free_chain], [virtio_intr]); a request never returns to its
      caller ([virtio_rw_never_returns]).
    - Memory: addresses stay words and compute exactly ([addr_exact]);
      [mappages_exact] and [unmap_exact] say which translations change;
      the kernel's page table has the intended regions and no others
      ([kernel_address_space]); the copies by pages are copies by bytes ([copy_flat],
      [copy_roundtrip]); a new address space has no table ([uvm_create_null]).
    - Uart and console refine queues and line editing on byte sequences;
      messages are printed whole ([print_whole_messages]).
    - Channel, once, lazy, sleep and reader-writer lock are safe in every
      interleaving; on the process table no wakeup of a channel is lost
      ([channel_no_lost_wakeup]); a failed [try_write] blocks the lock for good; a
      [OnceLock] is an optional value to its client ([oncelock_refines]); the
      counters of the cpus with the registers of the harts implement the
      nesting of interrupt locks ([intr_lock_refines], [intr_nesting]).
    - Processes: the life cycle of a slot, the handshake of [exit] and [wait],
      [wakeup] and [kill]; allocation that looks at slot 0 only; a process
      runs on one hart at most and a new one gets to run
      ([one_hart_per_process], [first_run]), but one that gave up the hart
      never runs again ([sched_never_resumes]); [sleep] returns in time unless
      the clock ticks on an idle hart ([sleep_on_time],
      [sleep_misses_idle_ticks]).
    - System calls: dispatch, strings from user memory, the counts of open
      files over all processes ([syscall_dispatch], [arg_str_roundtrip],
      [system_file_counts], [file_close_exact]); [exec] changes all or nothing,
      loads segments exactly and passes its arguments ([exec_all_or_nothing],
      [loadseg_image], [exec_args_roundtrip]); the generated stubs
      ([usys_stubs]).
    - Traps and machine: the trampoline restores what it saved, [usertrap]
      returns or exits once; a process runs in user mode between two traps
      with its registers ([user_mode_cycle]); [kernelvec] and [swtch] keep the
      registers; the clock ticks for ever ([boot_clock]).
    - Boot: the calls of [main] respect their dependencies on all harts
      ([boot_order]); the first process calls [exec] and then [exit]
      ([initcode_calls]).

    ** What is not modelled

    Formatting of messages ([core::fmt]), the weak orderings of atomic
    accesses, the translation cache, the user programs (which have no logic
    yet) and the part of [build.rs] that runs the compiler are outside;
    declarations (modules, traits, unsafe marker implementations, the access of
    a guard to its data) have no definition of their own.  Within the modelled
    parts: the calls of [Fs] follow one another, what several processes do at
    the same time to inodes and their locks is in [Itable] and [Sleeplock] and
    to the log in [LogSpec]; allocation of a block behind the end of a file is
    followed as far as the block map ([bmap_stable]) only, because [balloc]
    takes the bit of another block.  The disk below [Bio] and [Log] is a
    function, not the driver of [Virtio], whose requests never return
    ([virtio_rw_never_returns]). *)

From stdpp Require Export base tactics numbers list gmap strings option.
From stdpp Require Export relations.

(** ** Outcomes of kernel code

    A Rust function of the kernel either returns a value, panics, or runs into
    undefined behaviour by dereferencing a raw pointer that does not point to
    an object of the model.  [Done], [Panic] and [Fault] are these three. *)
Inductive outcome (A : Type) : Type :=
  | Done (a : A)
  | Panic (msg : string)
  | Fault (addr : Z).
Arguments Done {_} _.
Arguments Panic {_} _.
Arguments Fault {_} _.

#[export] Instance outcome_ret : MRet outcome := λ A a, Done a.
#[export] Instance outcome_bind : MBind outcome := λ A B f m,
  match m with
  | Done a => f a
  | Panic s => Panic s
  | Fault a => Fault a
  end.

Definition done_or {A} (o : outcome A) (d : A) : A :=
  match o with Done a => a | _ => d end.

(** [core::result::Result]. *)
Inductive result (A E : Type) : Type :=
  | Ok (a : A)
  | Err (e : E).
Arguments Ok {_ _} _.
Arguments Err {_ _} _.

Lemma bind_Done_inv {A B} (m : outcome A) (f : A → outcome B) b :
  m ≫= f = Done b → ∃ a, m = Done a ∧ f a = Done b.
Proof. destruct m; simpl; try discriminate; eauto. Qed.

Lemma bind_Done_eq {A B} (m : outcome A) (f : A → outcome B) a :
  m = Done a → m ≫= f = f a.
Proof. by intros ->. Qed.

Lemma Done_pair_inj {A B} (a c : A) (b d : B) : Done (a, b) = Done (c, d) → a = c ∧ b = d.
Proof. by intros [= -> ->]. Qed.

(** [inv_done] opens every hypothesis that says that a sequence of calls
    returned, naming the intermediate results. *)
Ltac inv_done_step :=
  match goal with
  | H : (_ ≫= _) = Done _ |- _ =>
      let a := fresh "a" in let Ha := fresh "Ha" in
      apply bind_Done_inv in H; destruct H as (a & Ha & H)
  | H : Done _ = Done _ |- _ => injection H as H; subst
  | H : Panic _ = Done _ |- _ => discriminate H
  | H : Fault _ = Done _ |- _ => discriminate H
  | p : (_ * _)%type |- _ => destruct p
  end.
Ltac inv_done := repeat (inv_done_step; simpl in *).

(** [zdm]: linear arithmetic with division and remainder by constants. *)
Ltac zdm := Z.to_euclidean_division_equations; lia.

(** ** Machine integers

    [usize] is 64 bits wide on riscv64.  The kernel is built in the dev
    profile, where an overflowing [+], [-] or [*] panics; [Wrapping<usize>]
    wraps around. *)
Abbreviation usize_mod := 18446744073709551616%Z.
Abbreviation u32_mod := 4294967296%Z.

Definition wrap64 (z : Z) : Z := z `mod` usize_mod.
Definition wrapping_add (a b : Z) : Z := wrap64 (a + b).
Definition wrapping_sub (a b : Z) : Z := wrap64 (a - b).

Definition checked_add (a b : Z) : outcome Z :=
  if decide (a + b < usize_mod)%Z then Done (a + b)%Z
  else Panic "attempt to add with overflow".
Definition checked_sub (a b : Z) : outcome Z :=
  if decide (b ≤ a)%Z then Done (a - b)%Z
  else Panic "attempt to subtract with overflow".
Definition checked_mul (a b : Z) : outcome Z :=
  if decide (a * b < usize_mod)%Z then Done (a * b)%Z
  else Panic "attempt to multiply with overflow".

Definition checked_add32 (a b : Z) : outcome Z :=
  if decide (a + b < u32_mod)%Z then Done (a + b)%Z
  else Panic "attempt to add with overflow".

Definition as_u32 (z : Z) : Z := z `mod` u32_mod.

Lemma checked_sub_ok a b : (b ≤ a)%Z → checked_sub a b = Done (a - b)%Z.
Proof. intros H. unfold checked_sub. by rewrite decide_True. Qed.

Lemma checked_add_ok a b : (a + b < usize_mod)%Z → checked_add a b = Done (a + b)%Z.
Proof. intros H. unfold checked_add. by rewrite decide_True. Qed.

Lemma checked_add32_ok a b : (a + b < u32_mod)%Z → checked_add32 a b = Done (a + b)%Z.
Proof. intros H. unfold checked_add32. by rewrite decide_True. Qed.

Lemma wrap64_small z : (0 ≤ z < usize_mod)%Z → wrap64 z = z.
Proof. intros H. by apply Z.mod_small. Qed.

Lemma wrap64_range z : (0 ≤ wrap64 z < usize_mod)%Z.
Proof. apply Z.mod_pos_bound. lia. Qed.

Lemma wrapping_add_sub a b : (0 ≤ a < usize_mod)%Z → wrapping_sub (wrapping_add a b) b = a.
Proof.
  intros H. unfold wrapping_sub, wrapping_add, wrap64.
  rewrite Zminus_mod_idemp_l. replace (a + b - b)%Z with a by lia.
  by apply Z.mod_small.
Qed.

Lemma wrapping_sub_add a b : (0 ≤ a < usize_mod)%Z → wrapping_add (wrapping_sub a b) b = a.
Proof.
  intros H. unfold wrapping_sub, wrapping_add, wrap64.
  rewrite Zplus_mod_idemp_l. replace (a - b + b)%Z with a by lia.
  by apply Z.mod_small.
Qed.

(** ** Slices: indexing panics out of range *)
Definition index {A} (l : list A) (i : Z) : outcome A :=
  match (if decide (0 ≤ i)%Z then l !! Z.to_nat i else None) with
  | Some x => Done x
  | None => Panic "index out of bounds"
  end.

Definition store {A} (l : list A) (i : Z) (x : A) : outcome (list A) :=
  if decide (0 ≤ i < Z.of_nat (length l))%Z then Done (<[Z.to_nat i := x]> l)
  else Panic "index out of bounds".

Lemma index_ok {A} (l : list A) i x :
  (0 ≤ i)%Z → l !! Z.to_nat i = Some x → index l i = Done x.
Proof. intros Hi Hx. unfold index. rewrite decide_True by done. by rewrite Hx. Qed.

Lemma index_inv {A} (l : list A) i x :
  index l i = Done x → (0 ≤ i)%Z ∧ l !! Z.to_nat i = Some x.
Proof. unfold index. repeat case_match; intros; simplify_eq; done. Qed.

Lemma store_ok {A} (l : list A) i x :
  (0 ≤ i < Z.of_nat (length l))%Z → store l i x = Done (<[Z.to_nat i := x]> l).
Proof. intros H. unfold store. by rewrite decide_True. Qed.

Lemma lookup_upd {A} (l : list A) i x j :
  (i < length l)%nat → <[i := x]> l !! j = if decide (j = i) then Some x else l !! j.
Proof.
  intros Hi. destruct (decide (j = i)) as [->|]; [by apply list_lookup_insert_eq|].
  by apply list_lookup_insert_ne.
Qed.

(** ** Bits of a byte

    [b & (1 << j)], [b |= 1 << i] and [b &= !(1 << i)] on [u8]. *)
Definition u8_not (m : Z) : Z := Z.lxor 255 m.

Lemma land_pow2 x j :
  (0 ≤ j)%Z → Z.land x (Z.shiftl 1 j) = if Z.testbit x j then Z.shiftl 1 j else 0%Z.
Proof.
  intros Hj. apply Z.bits_inj'. intros i Hi.
  rewrite Z.land_spec, (Z.shiftl_spec 1 j i) by done.
  destruct (decide (i = j)) as [->|Hne].
  - replace (j - j)%Z with 0%Z by lia. simpl (Z.testbit 1 0). rewrite andb_true_r.
    destruct (Z.testbit x j); [|by rewrite Z.testbit_0_l].
    rewrite Z.shiftl_spec by done. by replace (j - j)%Z with 0%Z by lia.
  - assert (H1 : Z.testbit 1 (i - j) = false).
    { destruct (decide (i - j < 0)%Z); [by rewrite Z.testbit_neg_r|].
      change 1%Z with (2 ^ 0)%Z. apply Z.pow2_bits_false. lia. }
    rewrite H1, andb_false_r.
    destruct (Z.testbit x j); [by rewrite Z.shiftl_spec|by rewrite Z.testbit_0_l].
Qed.

Lemma land_pow2_testbit x j :
  (0 ≤ j)%Z → (Z.land x (Z.shiftl 1 j) =? Z.shiftl 1 j)%Z = Z.testbit x j.
Proof.
  intros Hj. rewrite land_pow2 by done. destruct (Z.testbit x j); [apply Z.eqb_refl|].
  apply Z.eqb_neq. rewrite Z.shiftl_1_l. pose proof (Z.pow_pos_nonneg 2 j). lia.
Qed.

Lemma land_pow2_nonzero x j :
  (0 ≤ j)%Z → negb (Z.land x (Z.shiftl 1 j) =? 0)%Z = Z.testbit x j.
Proof.
  intros Hj. rewrite land_pow2 by done. destruct (Z.testbit x j); [|done].
  rewrite Z.shiftl_1_l. pose proof (Z.pow_pos_nonneg 2 j). by rewrite (proj2 (Z.eqb_neq _ _)) by lia.
Qed.

Lemma testbit_shiftl_1 i j : (0 ≤ j)%Z → Z.testbit (Z.shiftl 1 i) j = bool_decide (i = j) .
Proof.
  intros Hj. rewrite Z.shiftl_spec by done. case_bool_decide as Hd.
  - subst. by replace (j - j)%Z with 0%Z by lia.
  - destruct (decide (j - i < 0)%Z); [by rewrite Z.testbit_neg_r|].
    change 1%Z with (2 ^ 0)%Z. apply Z.pow2_bits_false. lia.
Qed.

Lemma testbit_lor_set b i j :
  (0 ≤ j)%Z → Z.testbit (Z.lor b (Z.shiftl 1 i)) j = Z.testbit b j || bool_decide (i = j).
Proof. intros Hj. by rewrite Z.lor_spec, testbit_shiftl_1. Qed.

Lemma testbit_land_clear b i j :
  (0 ≤ j < 8)%Z →
  Z.testbit (Z.land b (u8_not (Z.shiftl 1 i))) j = Z.testbit b j && negb (bool_decide (i = j)).
Proof.
  intros Hj. unfold u8_not. rewrite Z.land_spec, Z.lxor_spec, testbit_shiftl_1 by lia.
  change 255%Z with (Z.ones 8). rewrite Z.ones_spec_low by lia. by rewrite xorb_true_l.
Qed.

(** ** Little-endian words

    The kernel reinterprets a block as an array of [u32] or of [#[repr(C)]]
    structures; on riscv64 the words are little endian. *)
Fixpoint le_bytes (n : nat) (z : Z) : list Z :=
  match n with
  | O => []
  | S n => z `mod` 256 :: le_bytes n (z `div` 256)
  end%Z.

Fixpoint le_val (bs : list Z) : Z :=
  match bs with
  | [] => 0
  | b :: bs => b + 256 * le_val bs
  end%Z.

Lemma length_le_bytes n z : length (le_bytes n z) = n.
Proof. revert z. induction n; intros z; simpl; [done|]. by rewrite IHn. Qed.

Lemma le_val_bytes n z :
  (0 ≤ z < 256 ^ Z.of_nat n)%Z → le_val (le_bytes n z) = z.
Proof.
  revert z. induction n as [|n IH]; intros z Hz.
  - simpl in *. lia.
  - simpl le_bytes. simpl le_val.
    rewrite Nat2Z.inj_succ, Z.pow_succ_r in Hz by lia.
    rewrite IH.
    + pose proof (Z.div_mod z 256). lia.
    + split; [apply Z.div_pos; lia|]. apply Z.div_lt_upper_bound; lia.
Qed.

(** ** Counting threads

    A state of concurrent code lists the program counters of its threads;
    [tally f l] sums [f] over them. *)
Definition tally {A} (f : A → Z) (l : list A) : Z := foldr (λ x s, (f x + s)%Z) 0%Z l.

Lemma tally_app {A} (f : A → Z) l1 l2 : tally f (l1 ++ l2) = (tally f l1 + tally f l2)%Z.
Proof. induction l1 as [|x l1 IH]; simpl; [done|]. rewrite IH. lia. Qed.

Lemma tally_insert {A} (f : A → Z) l t x y :
  l !! t = Some x → tally f (<[t := y]> l) = (tally f l - f x + f y)%Z.
Proof.
  revert t. induction l as [|z l IH]; intros t Ht; [done|].
  destruct t as [|t]; simplify_eq/=; [lia|]. rewrite (IH t) by done. lia.
Qed.

Lemma tally_nonneg {A} (f : A → Z) l : (∀ x, (0 ≤ f x)%Z) → (0 ≤ tally f l)%Z.
Proof. intros Hf. induction l as [|x l IH]; simpl; [lia|]. specialize (Hf x). lia. Qed.

Lemma tally_lookup {A} (f : A → Z) l t x :
  (∀ x, (0 ≤ f x)%Z) → l !! t = Some x → (f x ≤ tally f l)%Z.
Proof.
  intros Hf. revert t. induction l as [|z l IH]; intros t Ht; [done|].
  pose proof (tally_nonneg f l Hf). pose proof (Hf z).
  destruct t as [|t]; simplify_eq/=; [lia|]. specialize (IH _ Ht). lia.
Qed.

Lemma tally_lookup2 {A} (f : A → Z) l t u x y :
  (∀ x, (0 ≤ f x)%Z) → t ≠ u → l !! t = Some x → l !! u = Some y → (f x + f y ≤ tally f l)%Z.
Proof.
  intros Hf. revert t u. induction l as [|z l IH]; intros t u Hne Ht Hu; [done|].
  pose proof (Hf z).
  destruct t as [|t], u as [|u]; simplify_eq/=.
  - pose proof (tally_lookup f l u y Hf Hu). lia.
  - pose proof (tally_lookup f l t x Hf Ht). lia.
  - assert (t ≠ u) by lia. specialize (IH t u ltac:(done) Ht Hu). lia.
Qed.

Lemma tally_zero {A} (f : A → Z) l : (∀ x, x ∈ l → f x = 0%Z) → tally f l = 0%Z.
Proof.
  induction l as [|x l IH]; intros H; simpl; [done|]. rewrite (H x) by left. rewrite IH; [done|].
  intros y Hy. apply H. by right.
Qed.
