(* ===== verification/IntrusiveList.v ===== *)
(** * The intrusive, circular, doubly linked list of [list.rs]

    A [List] is a pair of raw pointers.  The head of a list and its elements
    are all [List] objects in memory, found by address; the model is a finite
    map from addresses to nodes, and dereferencing an address outside the map
    is a [Fault].  [dll m h l] is the abstraction: the head [h] links forwards
    and backwards through exactly the elements [l]. *)

From S2P Require Import Prelude.

Open Scope Z_scope.

Record Node := mkNode { next : Z; prev : Z }.

#[export] Instance Node_eq_dec : EqDecision Node.
Proof. solve_decision. Defined.

Abbreviation memory := (gmap Z Node).

Module RawList.

Definition load (m : memory) (a : Z) : outcome Node :=
  match m !! a with Some n => Done n | None => Fault a end.

Definition set_next (m : memory) (a v : Z) : outcome memory :=
  n ← load m a; Done (<[a := mkNode v (prev n)]> m).

Definition set_prev (m : memory) (a v : Z) : outcome memory :=
  n ← load m a; Done (<[a := mkNode (next n) v]> m).

(** [List::init]: [self.prev = self; self.next = self]. *)
Definition init (m : memory) (self : Z) : memory :=
  <[self := mkNode self self]> m.

Definition is_empty (m : memory) (self : Z) : outcome bool :=
  n ← load m self; Done (bool_decide (next n = self)).

(** [List::remove]: [( *( *e).prev).next = ( *e).next;
    ( *( *e).next).prev = ( *e).prev], each right-hand side re-read. *)
Definition remove (m : memory) (e : Z) : outcome memory :=
  n ← load m e;
  m1 ← set_next m (prev n) (next n);
  n1 ← load m1 e;
  set_prev m1 (next n1) (prev n1).

Definition pop (m : memory) (self : Z) : outcome (memory * option Z) :=
  e ← is_empty m self;
  if (e : bool) then Done (m, None)
  else
    n ← load m self;
    let raw_addr := next n in
    m1 ← remove m raw_addr;
    Done (m1, Some raw_addr).

(** [List::push]: writes the node at [raw_addr], then links it in. *)
Definition push (m : memory) (self raw_addr : Z) : outcome memory :=
  n ← load m self;
  let m1 := <[raw_addr := mkNode (next n) self]> m in
  n1 ← load m1 self;
  m2 ← set_prev m1 (next n1) raw_addr;
  set_next m2 self raw_addr.

End RawList.

(** ** Forward and backward links *)
Definition nxt (m : memory) (a : Z) : option Z := next <$> m !! a.
Definition prv (m : memory) (a : Z) : option Z := prev <$> m !! a.

Definition links (m : memory) (x y : Z) : Prop := nxt m x = Some y ∧ prv m y = Some x.

(** [path m x l y]: the links lead from [x] through [l] to [y]. *)
Fixpoint path (m : memory) (x : Z) (l : list Z) (y : Z) : Prop :=
  match l with
  | [] => links m x y
  | a :: l => links m x a ∧ path m a l y
  end.

(** The abstraction relation: the list with head [h] holds [l]. *)
Definition dll (m : memory) (h : Z) (l : list Z) : Prop :=
  path m h l h ∧ NoDup (h :: l).

Fixpoint pathb (m : memory) (x : Z) (l : list Z) (y : Z) : bool :=
  match l with
  | [] => bool_decide (nxt m x = Some y) && bool_decide (prv m y = Some x)
  | a :: l =>
      bool_decide (nxt m x = Some a) && bool_decide (prv m a = Some x) && pathb m a l y
  end.

Definition dllb (m : memory) (h : Z) (l : list Z) : bool :=
  pathb m h l h && bool_decide (NoDup (h :: l)).

Lemma pathb_spec m x l y : pathb m x l y = true → path m x l y.
Proof.
  revert x. induction l as [|a l IH]; intros x; simpl;
    rewrite !andb_true_iff, !bool_decide_eq_true; unfold links; naive_solver.
Qed.

Lemma dllb_spec m h l : dllb m h l = true → dll m h l.
Proof.
  unfold dllb, dll. rewrite andb_true_iff, bool_decide_eq_true.
  intros [?%pathb_spec ?]. done.
Qed.

Section path_lemmas.
Implicit Types (m : memory) (l : list Z).

Lemma path_app m x l1 a l2 y :
  path m x (l1 ++ a :: l2) y ↔ path m x l1 a ∧ path m a l2 y.
Proof. revert x. induction l1 as [|b l1 IH]; intros x; simpl; [done|]. rewrite IH. tauto. Qed.

(** The last and the first node of a path. *)
Lemma path_last m x l y :
  path m x l y → links m (default x (last l)) y.
Proof.
  revert x. induction l as [|a l IH]; intros x; [done|].
  intros [_ H]. specialize (IH _ H). rewrite last_cons. by destruct (last l).
Qed.

Lemma path_first m x l y :
  path m x l y → links m x (default y (head l)).
Proof. destruct l; simpl; [done|]. by intros [? _]. Qed.

(** What decides a path are the forward links of [x :: l] and the backward
    links of [l ++ [y]]. *)
Lemma path_ext m m' x l y :
  (∀ z, z ∈ x :: l → nxt m' z = nxt m z) →
  (∀ z, z ∈ l ++ [y] → prv m' z = prv m z) →
  path m x l y → path m' x l y.
Proof.
  revert x. induction l as [|a l IH]; intros x Hn Hp; simpl.
  - intros [? ?]. split; [rewrite Hn|rewrite Hp]; set_solver.
  - intros [[? ?] Hl]. split.
    + split; [rewrite Hn|rewrite Hp]; set_solver.
    + apply IH; [..|done]; intros z Hz; [apply Hn|apply Hp]; set_solver.
Qed.

Lemma nxt_Some m a v : nxt m a = Some v → ∃ n, m !! a = Some n ∧ next n = v.
Proof. unfold nxt. destruct (m !! a); naive_solver. Qed.
Lemma prv_Some m a v : prv m a = Some v → ∃ n, m !! a = Some n ∧ prev n = v.
Proof. unfold prv. destruct (m !! a); naive_solver. Qed.
End path_lemmas.

Lemma load_ok m a n : m !! a = Some n → RawList.load m a = Done n.
Proof. intros H. unfold RawList.load. by rewrite H. Qed.

(** The two field updates, through [nxt] and [prv]. *)
Lemma set_next_spec m a v :
  is_Some (m !! a) →
  ∃ m', RawList.set_next m a v = Done m' ∧
    (∀ z, nxt m' z = if decide (z = a) then Some v else nxt m z) ∧
    (∀ z, prv m' z = prv m z) ∧ (∀ z, is_Some (m' !! z) ↔ is_Some (m !! z)).
Proof.
  intros [n Hn]. unfold RawList.set_next, RawList.load. rewrite Hn. simpl.
  eexists. split; [done|]. unfold nxt, prv.
  repeat split; intros; repeat case_decide; subst; simplify_map_eq; eauto;
    rewrite lookup_insert in *; repeat case_decide; subst; simplify_map_eq; eauto.
Qed.

Lemma set_prev_spec m a v :
  is_Some (m !! a) →
  ∃ m', RawList.set_prev m a v = Done m' ∧
    (∀ z, prv m' z = if decide (z = a) then Some v else prv m z) ∧
    (∀ z, nxt m' z = nxt m z) ∧ (∀ z, is_Some (m' !! z) ↔ is_Some (m !! z)).
Proof.
  intros [n Hn]. unfold RawList.set_prev, RawList.load. rewrite Hn. simpl.
  eexists. split; [done|]. unfold nxt, prv.
  repeat split; intros; repeat case_decide; subst; simplify_map_eq; eauto;
    rewrite lookup_insert in *; repeat case_decide; subst; simplify_map_eq; eauto.
Qed.

(** Membership goals: only the membership hypotheses are kept. *)
Ltac lset :=
  repeat match goal with
    | H : ∀ z, nxt _ z = _ |- _ => clear H
    | H : ∀ z, prv _ z = _ |- _ => clear H
    | H : ∀ z, is_Some _ ↔ is_Some _ |- _ => clear H
    | H : path _ _ _ _ |- _ => clear H
    | H : links _ _ _ |- _ => clear H
    | H : NoDup _ |- _ => clear H
    | H : nxt _ _ = _ |- _ => clear H
    | H : prv _ _ = _ |- _ => clear H
    | H : _ !! _ = Some _ |- _ => clear H
    | H : dll _ _ _ |- _ => clear H
    end; set_solver.

(** [same_off X m m']: the links of the nodes outside [X] are the same. *)
Definition same_off (X : list Z) (m m' : memory) : Prop :=
  ∀ z, z ∉ X → nxt m' z = nxt m z ∧ prv m' z = prv m z.

(** A list whose nodes are not touched is the same list. *)
Lemma dll_frame X m m' h l :
  same_off X m m' → (∀ z, z ∈ h :: l → z ∉ X) → dll m h l → dll m' h l.
Proof.
  intros Hs Hd [Hp Hn]. split; [|done]. revert Hp.
  apply path_ext; intros z Hz; apply Hs, Hd; lset.
Qed.

Lemma same_off_weaken X Y m m' :
  (∀ z, z ∈ X → z ∈ Y) → same_off X m m' → same_off Y m m'.
Proof. intros HXY Hs z Hz. apply Hs. auto. Qed.

Lemma dll_nodes m h l z : dll m h l → z ∈ h :: l → is_Some (m !! z).
Proof.
  intros [Hp _] Hz. destruct (list_elem_of_split _ _ Hz) as (l1 & l2 & Heq).
  destruct l1 as [|x l1]; simplify_eq/=.
  - apply path_first in Hp as [Hp _]. apply nxt_Some in Hp as (n & -> & _). eauto.
  - apply path_app in Hp as [Hp _]. apply path_last in Hp as [_ Hp].
    apply prv_Some in Hp as (n & -> & _). eauto.
Qed.

Lemma is_empty_spec m h l :
  dll m h l → RawList.is_empty m h = Done (bool_decide (l = [])).
Proof.
  intros [Hp Hnd]. unfold RawList.is_empty.
  apply path_first in Hp as [(n & Hn & Hnx)%nxt_Some _]. rewrite (load_ok _ _ _ Hn). simpl. f_equal.
  apply bool_decide_ext. rewrite Hnx. destruct l as [|a l]; simpl; [done|].
  apply NoDup_cons in Hnd as [Hnd _]. lset.
Qed.

Lemma init_spec m h : dll (RawList.init m h) h [] ∧ same_off [h] m (RawList.init m h).
Proof.
  unfold RawList.init, dll, same_off. split.
  - split; [|apply NoDup_singleton].
    simpl. unfold links, nxt, prv. by rewrite lookup_insert_eq.
  - unfold nxt, prv. intros z Hz. rewrite lookup_insert_ne by lset. done.
Qed.

Lemma push_spec m h l e :
  dll m h l → e ∉ h :: l →
  ∃ m', RawList.push m h e = Done m' ∧ dll m' h (e :: l) ∧ same_off (e :: h :: l) m m'.
Proof.
  intros Hd He. pose proof (dll_nodes _ _ _ h Hd ltac:(left)) as [n Hn].
  destruct Hd as [Hp Hnd].
  pose proof (path_first _ _ _ _ Hp) as [Hf1 Hf2].
  unfold nxt in Hf1. rewrite Hn in Hf1. simplify_eq/=.
  unfold RawList.push. rewrite (load_ok _ _ _ Hn). simpl. rewrite Hf1.
  set (f := default h (head l)) in *.
  set (m1 := <[e:=_]> m).
  assert (Hf : f ∈ h :: l) by (unfold f; destruct l; lset).
  assert (Hef : f ≠ e) by lset.
  assert (Hm1n : ∀ z, nxt m1 z = if decide (z = e) then Some f else nxt m z).
  { intros z. unfold nxt, m1. rewrite lookup_insert. repeat case_decide; naive_solver. }
  assert (Hm1p : ∀ z, prv m1 z = if decide (z = e) then Some h else prv m z).
  { intros z. unfold prv, m1. rewrite lookup_insert. repeat case_decide; naive_solver. }
  rewrite (load_ok m1 h n) by (unfold m1; by rewrite lookup_insert_ne by lset).
  simpl. rewrite Hf1.
  destruct (set_prev_spec m1 f e) as (m2 & -> & Hp2 & Hn2 & Hs2).
  { unfold m1. rewrite lookup_insert_ne by done. apply prv_Some in Hf2 as (? & ? & _). eauto. }
  simpl. destruct (set_next_spec m2 h e) as (m3 & -> & Hn3 & Hp3 & Hs3).
  { apply Hs2. unfold m1. rewrite lookup_insert_ne by lset. eauto. }
  exists m3. split; [done|].
  assert (HN : ∀ z, nxt m3 z = if decide (z = h) then Some e
                               else if decide (z = e) then Some f else nxt m z).
  { intros z. by rewrite Hn3, Hn2, Hm1n. }
  assert (HP : ∀ z, prv m3 z = if decide (z = f) then Some e
                               else if decide (z = e) then Some h else prv m z).
  { intros z. by rewrite Hp3, Hp2, Hm1p. }
  split; [split|].
  - simpl. unfold links at 1. rewrite HN, HP, decide_True by done.
    rewrite decide_False, decide_True by done. split; [done|].
    assert (Hne : e ≠ h) by lset.
    destruct l as [|a l]; simpl in *.
    + unfold links. rewrite HN, HP. subst f. by rewrite decide_False, !decide_True by done.
    + subst f. destruct Hp as [_ Hp]. split.
      * unfold links. rewrite HN, HP. by rewrite decide_False, !decide_True by done.
      * revert Hp. apply NoDup_cons in Hnd as [Hh Hnd]. apply NoDup_cons in Hnd as [Ha Hnd].
        apply path_ext; intros z Hz.
        -- rewrite HN, !decide_False; lset.
        -- rewrite HP, !decide_False; lset.
  - apply NoDup_cons in Hnd as [??]. rewrite !NoDup_cons. split_and!; [lset|lset|done].
  - intros z Hz. assert (z ≠ h ∧ z ≠ e ∧ z ≠ f) as (? & ? & ?).
    { clear -Hz Hf. repeat split; intros ->; apply Hz; [|left|right; done]. right. left. }
    by rewrite HN, HP, !decide_False by done.
Qed.

(** Linking the predecessor of [e] with its successor takes [e] out. *)
Lemma path_relink m m' h l1 e l2 :
  let p := default h (last l1) in let q := default h (head l2) in
  path m h (l1 ++ e :: l2) h → NoDup (h :: l1 ++ e :: l2) →
  (∀ z, nxt m' z = if decide (z = p) then Some q else nxt m z) →
  (∀ z, prv m' z = if decide (z = q) then Some p else prv m z) →
  path m' h (l1 ++ l2) h.
Proof.
  intros p q Hp Hnd HN HP. apply path_app in Hp as [Hp1 Hp2].
  apply NoDup_cons in Hnd as [Hh Hnd]. apply NoDup_app in Hnd as (Hnd1 & Hdis & Hnd2).
  apply NoDup_cons in Hnd2 as [He Hnd2].
  assert (Hlink : links m' p q) by (unfold links; by rewrite HN, HP, !decide_True by done).
  assert (Hpin : p ∈ h :: l1).
  { unfold p. destruct (last l1) eqn:E; simpl; [|left]. apply last_Some in E as [? ->]. lset. }
  assert (Hrest : path m' p l2 h).
  { destruct l2 as [|y l2]; [done|]. split; [done|]. destruct Hp2 as [_ Hp2].
    unfold q in *. simpl in *. apply NoDup_cons in Hnd2 as [Hy Hnd2].
    revert Hp2. apply path_ext; intros z Hz.
    - rewrite HN, decide_False; [done|]. intros ->.
      apply elem_of_cons in Hpin as [->|Hpin]; [apply Hh|apply (Hdis _ Hpin)];
        clear -Hz; set_solver.
    - rewrite HP, decide_False; [done|]. clear -Hz Hy Hh. set_solver. }
  unfold p in *. destruct (last l1) as [x|] eqn:E; simpl in *.
  - apply last_Some in E as [l1' ->]. apply path_app in Hp1 as [Hp1 _].
    rewrite <-(assoc_L (++)). simpl. apply path_app. split; [|done].
    assert (Hqin : q ∈ l2 ++ [h]) by (unfold q; destruct l2; lset).
    apply NoDup_app in Hnd1 as (? & Hx & _). revert Hp1. apply path_ext; intros z Hz.
    + rewrite HN, decide_False; [done|]. intros ->.
      apply elem_of_cons in Hz as [->|Hz]; [apply Hh|apply (Hx _ Hz)]; clear; set_solver.
    + rewrite HP, decide_False; [done|]. intros ->. apply elem_of_app in Hqin as [Hq|Hq].
      * apply (Hdis _ Hz). clear -Hq. set_solver.
      * apply list_elem_of_singleton in Hq. rewrite Hq in Hz. apply Hh. clear -Hz. set_solver.
  - apply last_None in E as ->. done.
Qed.

Lemma remove_spec m h l1 e l2 :
  dll m h (l1 ++ e :: l2) →
  ∃ m', RawList.remove m e = Done m' ∧ dll m' h (l1 ++ l2) ∧
    same_off (h :: l1 ++ e :: l2) m m'.
Proof.
  intros Hd. pose proof (dll_nodes _ _ _ e Hd ltac:(lset)) as [n Hn].
  pose proof Hd as [Hp Hnd]. pose proof Hp as [Hp1 Hp2]%path_app.
  pose proof (path_last _ _ _ _ Hp1) as [Hl1 Hl2].
  pose proof (path_first _ _ _ _ Hp2) as [Hf1 Hf2].
  set (p := default h (last l1)) in *. set (q := default h (head l2)) in *.
  unfold prv in Hl2. unfold nxt in Hf1. rewrite Hn in Hl2, Hf1.
  simpl in Hl2, Hf1. injection Hl2 as Hl2. injection Hf1 as Hf1.
  assert (Hpin : p ∈ h :: l1).
  { unfold p. destruct (last l1) eqn:E; simpl; [|left]. apply last_Some in E as [? ->]. lset. }
  assert (Hqin : q ∈ l2 ++ [h]) by (unfold q; destruct l2; lset).
  pose proof Hnd as [Hh Hnd']%NoDup_cons. apply NoDup_app in Hnd' as (Hnd1 & Hdis & Hnd2).
  apply NoDup_cons in Hnd2 as [He Hnd2].
  assert (Hpe : p ≠ e) by (clear -Hpin Hdis Hh; set_solver).
  assert (Hqe : q ≠ e) by (clear -Hqin He Hh; set_solver).
  unfold RawList.remove. rewrite (load_ok _ _ _ Hn). simpl. rewrite Hl2, Hf1.
  destruct (set_next_spec m p q) as (m1 & -> & Hn1 & Hp1' & Hs1).
  { apply nxt_Some in Hl1 as (? & ? & _). eauto. }
  simpl. assert (Hm1 : ∃ n1, m1 !! e = Some n1 ∧ next n1 = q ∧ prev n1 = p).
  { destruct (proj2 (Hs1 e) ltac:(eauto)) as [n1 Hn1e]. exists n1. split; [done|].
    specialize (Hn1 e). specialize (Hp1' e). rewrite decide_False in Hn1 by done.
    unfold nxt, prv in *. rewrite Hn, Hn1e in *. simpl in *. split; congruence. }
  destruct Hm1 as (n1 & Hn1e & Hq & Hpp). rewrite (load_ok _ _ _ Hn1e). simpl.
  rewrite Hq, Hpp.
  destruct (set_prev_spec m1 q p) as (m2 & -> & Hp2' & Hn2 & Hs2).
  { apply Hs1. apply prv_Some in Hf2 as (? & ? & _). eauto. }
  exists m2. split; [done|].
  assert (HN : ∀ z, nxt m2 z = if decide (z = p) then Some q else nxt m z).
  { intros z. by rewrite Hn2, Hn1. }
  assert (HP : ∀ z, prv m2 z = if decide (z = q) then Some p else prv m z).
  { intros z. by rewrite Hp2', Hp1'. }
  split; [split|].
  - by eapply (path_relink m).
  - apply NoDup_cons; split; [clear -Hh; set_solver|]. apply NoDup_app; repeat split; [done| |done].
    clear -Hdis. set_solver.
  - intros z Hz. assert (z ≠ p ∧ z ≠ q) as [? ?].
    { clear -Hz Hpin Hqin. split; intros ->; apply Hz; lset. }
    by rewrite HN, HP, !decide_False by done.
Qed.

Lemma pop_spec m h l :
  dll m h l →
  match l with
  | [] => RawList.pop m h = Done (m, None)
  | e :: l' => ∃ m', RawList.pop m h = Done (m', Some e) ∧ dll m' h l' ∧ same_off (h :: l) m m'
  end.
Proof.
  intros Hd. unfold RawList.pop. rewrite (is_empty_spec _ _ _ Hd). simpl.
  destruct l as [|e l]; [done|]. rewrite bool_decide_eq_false_2 by done.
  pose proof (path_first _ _ _ _ (proj1 Hd)) as [(n & Hn & Hx)%nxt_Some _].
  rewrite (load_ok _ _ _ Hn). simpl. rewrite Hx. simpl.
  destruct (remove_spec m h [] e l Hd) as (m' & -> & Hd' & Hs). eauto.
Qed.

(** The list operations refine operations on sequences.  On a well-linked
    list holding [l], [is_empty] tells whether [l] is empty, [push] of a node
    outside the list puts it in front, [pop] takes the front element or
    nothing, and [remove] unlinks any element, found by its address alone; no
    operation faults, each leaves a well-linked list, and none touches a node
    outside the list. *)
Theorem list_refines m h l :
  dll m h l →
  RawList.is_empty m h = Done (bool_decide (l = [])) ∧
  (∀ e, e ∉ h :: l → ∃ m', RawList.push m h e = Done m' ∧ dll m' h (e :: l) ∧
     same_off (e :: h :: l) m m') ∧
  match l with
  | [] => RawList.pop m h = Done (m, None)
  | e :: l' => ∃ m', RawList.pop m h = Done (m', Some e) ∧ dll m' h l' ∧ same_off (h :: l) m m'
  end ∧
  (∀ l1 e l2, l = l1 ++ e :: l2 →
     ∃ m', RawList.remove m e = Done m' ∧ dll m' h (l1 ++ l2) ∧ same_off (h :: l) m m').
Proof.
  intros Hd. split_and!; [by apply is_empty_spec| |by apply pop_spec|].
  - intros e He. by apply push_spec.
  - intros l1 e l2 ->. by apply remove_spec.
Qed.

Definition demo_list : memory :=
  match (m ← RawList.push (RawList.init ∅ 1) 1 7; RawList.push m 1 9) with
  | Done m => m
  | _ => ∅
  end.

Lemma list_refines_witness :
  RawList.is_empty demo_list 1 = Done false ∧
  ∃ m', RawList.remove demo_list 7 = Done m' ∧ dll m' 1 [9].
Proof.
  destruct (list_refines demo_list 1 [9; 7]) as (He & _ & _ & Hr); [by apply dllb_spec; vm_compute|].
  split; [exact He|]. destruct (Hr [9] 7 []) as (m' & ? & ? & _); [reflexivity|]. eauto.
Defined.
