(* ===== verification/Buddy.v ===== *)
(** * The buddy allocator of [buddy.rs]

    The allocator keeps, for every size [k], a free list (an intrusive list
    threaded through the free blocks themselves, [IntrusiveList]), a bit array
    [alloc] and a bit array [split].  The state below is the [BuddyAllocator]
    structure together with the memory its list nodes live in.

    The invariant of this state is in [BuddyInv], the theorems in
    [BuddySpec]. *)

From S2P Require Import Prelude IntrusiveList.

Open Scope Z_scope.

Definition round_up (n sz : Z) : outcome Z :=
  m ← checked_sub n 1; Done ((m / sz + 1) * sz).
Definition round_down (n sz : Z) : Z := (n / sz) * sz.

(** [free] is the address of the list head [&sizes[k].free]; the bit arrays
    are byte slices, absent until [init] has carved them out. *)
Record SzInfo := mkSz {
  free : Z;
  alloc : option (list Z);
  split : option (list Z);
}.

Record BuddyAllocator := mkBuddy {
  initialized : bool;
  base : Z;
  end_ : Z;
  nsize : nat;
  sizes : option (list SzInfo);
  heap : memory;   (* the memory the free-list nodes live in *)
}.

Definition set_sizes (b : BuddyAllocator) (s : list SzInfo) (m : memory) : BuddyAllocator :=
  mkBuddy (initialized b) (base b) (end_ b) (nsize b) (Some s) m.

(** ** [trait Array] *)
Definition bit_set (self : option (list Z)) (index : Z) (set_or_clear : bool)
    : outcome (option (list Z)) :=
  match self with
  | None => Done None
  | Some array =>
      let m := Z.shiftl 1 (index `mod` 8) in
      match array !! Z.to_nat (index / 8), set_or_clear with
      | Some b, true => Done (Some (<[Z.to_nat (index / 8) := Z.lor b m]> array))
      | Some b, false => Done (Some (<[Z.to_nat (index / 8) := Z.land b (u8_not m)]> array))
      | None, _ => Panic "internal error: entered unreachable code"
      end
  end.

Definition bit_isset (self : option (list Z)) (index : Z) : bool :=
  match self with
  | None => false
  | Some array =>
      let m := Z.shiftl 1 (index `mod` 8) in
      match array !! Z.to_nat (index / 8) with
      | Some b => Z.land b m =? m
      | None => false
      end
  end.

Definition LEAF_SIZE : Z := 16.
Definition MAX_ALIGN : Z := 4096.

Definition max_size (b : BuddyAllocator) : nat := nsize b - 1.
Definition blk_size (k : nat) : Z := Z.shiftl 1 (Z.of_nat k) * LEAF_SIZE.
Definition nblk (b : BuddyAllocator) (k : nat) : Z :=
  Z.shiftl 1 (Z.of_nat (max_size b - k)).

(** [usize::next_power_of_two] and [usize::trailing_zeros]. *)
Definition next_power_of_two (n : Z) : Z := if decide (n ≤ 1) then 1 else 2 ^ Z.log2_up n.

Fixpoint trailing_zeros_pos (p : positive) : nat :=
  match p with
  | xO p => S (trailing_zeros_pos p)
  | _ => 0
  end.
Definition trailing_zeros (n : Z) : nat :=
  match n with
  | Zpos p => trailing_zeros_pos p
  | _ => 64
  end.

Definition firstk (n : Z) : nat := trailing_zeros (next_power_of_two n / LEAF_SIZE).

Definition blk_index (b : BuddyAllocator) (k : nat) (p : Z) : outcome Z :=
  d ← checked_sub p (base b); Done (d / blk_size k).

Definition addr (b : BuddyAllocator) (k : nat) (bi : Z) : Z := base b + bi * blk_size k.

Definition blk_index_next (b : BuddyAllocator) (k : nat) (p : Z) : outcome Z :=
  d ← checked_sub p (base b);
  let n := d / blk_size k in
  Done (if decide (d `mod` blk_size k = 0) then n else n + 1).

Definition new : BuddyAllocator := mkBuddy false 0 0 0 None ∅.

(** [sizes[k]] as a place: reading, and the three updates the code makes. *)
Definition get_size (s : list SzInfo) (k : nat) : outcome SzInfo := index s (Z.of_nat k).

Definition set_alloc (s : list SzInfo) (k : nat) (bi : Z) (v : bool) : outcome (list SzInfo) :=
  i ← get_size s k;
  a ← bit_set (alloc i) bi v;
  Done (<[k := mkSz (free i) a (split i)]> s).

Definition set_split (s : list SzInfo) (k : nat) (bi : Z) (v : bool) : outcome (list SzInfo) :=
  i ← get_size s k;
  a ← bit_set (split i) bi v;
  Done (<[k := mkSz (free i) (alloc i) a]> s).

Definition push_free (m : memory) (s : list SzInfo) (k : nat) (p : Z) : outcome memory :=
  i ← get_size s k; RawList.push m (free i) p.

(** ** [alloc] *)

(** [for szinfo in sizes[fk..nsize].iter_mut() { if !is_empty {break} k += 1 }] *)
Fixpoint find_free (m : memory) (l : list SzInfo) (k : nat) : outcome nat :=
  match l with
  | [] => Done k
  | i :: l =>
      e ← RawList.is_empty m (free i);
      if (e : bool) then find_free m l (S k) else Done k
  end.

(** [while k > fk { ... k -= 1 }] *)
Fixpoint split_down (b : BuddyAllocator) (fk k : nat) (p : Z) (s : list SzInfo) (m : memory)
    : outcome (list SzInfo * memory) :=
  match k with
  | O => Done (s, m)
  | S k' =>
      if decide (fk < S k')%nat then
        let q := p + blk_size k' in
        bi ← blk_index b (S k') p;
        s1 ← set_split s (S k') bi true;
        bi' ← blk_index b k' p;
        s2 ← set_alloc s1 k' bi' true;
        m1 ← push_free m s2 k' q;
        split_down b fk k' p s2 m1
      else Done (s, m)
  end.

(** [sizes[fk..nsize]]: the range must lie within the slice. *)
Definition slice_from {A} (l : list A) (from to : nat) : outcome (list A) :=
  if decide (from ≤ to ∧ to ≤ length l)%nat then Done (take (to - from) (drop from l))
  else Panic "slice index out of range".

Record Layout := mkLayout { size_ : Z; align : Z }.

Definition alloc_ (b : BuddyAllocator) (layout : Layout) : outcome (BuddyAllocator * option Z) :=
  match sizes b with
  | None => Done (b, None)
  | Some s =>
      if decide (MAX_ALIGN < align layout) then Done (b, None)
      else
        let fk := firstk (size_ layout) in
        l ← slice_from s fk (nsize b);
        k ← find_free (heap b) l fk;
        if decide (nsize b ≤ k)%nat then Done (b, None)
        else
          i ← get_size s k;
          '(m, r) ← RawList.pop (heap b) (free i);
          match r with
          | None => Done (set_sizes b s m, None)
          | Some p =>
              bi ← blk_index b k p;
              s1 ← set_alloc s k bi true;
              '(s2, m2) ← split_down b fk k p s1 m;
              Done (set_sizes b s2 m2, if decide (p = 0) then None else Some p)
          end
  end.

(** ** [size] and [dealloc] *)

(** The loop of [size]: [k] counts the pairs [(sizes[k], sizes[k+1])]. *)
Fixpoint size_loop (b : BuddyAllocator) (l : list SzInfo) (k : nat) (p : Z) : outcome nat :=
  match l with
  | [] => Done 0%nat
  | i1 :: l =>
      bi ← blk_index b (S k) p;
      if bit_isset (split i1) bi then Done k else size_loop b l (S k) p
  end.

Definition size (b : BuddyAllocator) (p : Z) : outcome nat :=
  match sizes b with
  | None => Done 0%nat
  | Some s => size_loop b (drop 1 s) 0 p
  end.

Definition buddy (bi : Z) : Z := if decide (bi `mod` 2 = 0) then bi + 1 else bi - 1.

(** [for k in size(p)..max_size() { ... }]: [n] iterations are left.  The
    result is the final [p], [fk] and the state. *)
Fixpoint merge_up (b : BuddyAllocator) (n : nat) (k fk : nat) (p : Z) (s : list SzInfo) (m : memory)
    : outcome (nat * Z * list SzInfo * memory) :=
  match n with
  | O => Done (fk, p, s, m)
  | S n =>
      bi ← blk_index b k p;
      let bd := buddy bi in
      s1 ← set_alloc s k bi false;
      i ← get_size s1 k;
      if bit_isset (alloc i) bd then Done (fk, p, s1, m)
      else
        let q := addr b k bd in
        m1 ← RawList.remove m q;
        let p1 := if decide (bd `mod` 2 = 0) then q else p in
        bi1 ← blk_index b (S k) p1;
        s2 ← set_split s1 (S k) bi1 false;
        merge_up b n (S k) (S fk) p1 s2 m1
  end.

Definition dealloc (b : BuddyAllocator) (p : Z) (_layout : Layout) : outcome BuddyAllocator :=
  fk ← size b p;
  match sizes b with
  | None => Done b
  | Some s =>
      '(fk', p', s', m') ← merge_up b (max_size b - fk) fk fk p s (heap b);
      m'' ← push_free m' s' fk' p';
      Done (set_sizes b s' m'')
  end.

(** ** Initialisation *)

Fixpoint mark_range (s : list SzInfo) (k : nat) (bi : Z) (n : nat) : outcome (list SzInfo) :=
  match n with
  | O => Done s
  | S n =>
      s1 ← (if decide (0 < k)%nat then set_split s k bi true else Done s);
      s2 ← set_alloc s1 k bi true;
      mark_range s2 k (bi + 1) n
  end.

(** [for (k, szinfo) in sizes.iter_mut().enumerate()], [n] sizes left. *)
Fixpoint mark_loop (b : BuddyAllocator) (start stop : Z) (k n : nat) (s : list SzInfo)
    : outcome (list SzInfo) :=
  match n with
  | O => Done s
  | S n =>
      bi ← blk_index b k start;
      bj ← blk_index_next b k stop;
      s1 ← mark_range s k bi (Z.to_nat (bj - bi));
      mark_loop b start stop (S k) n s1
  end.

Definition mark (b : BuddyAllocator) (start stop : Z) : outcome BuddyAllocator :=
  if decide (start `mod` LEAF_SIZE = 0 ∧ stop `mod` LEAF_SIZE = 0) then
    match sizes b with
    | None => Panic "called `Option::unwrap()` on a `None` value"
    | Some s =>
        s1 ← mark_loop b start stop 0 (length s) s;
        Done (set_sizes b s1 (heap b))
    end
  else Panic "assertion failed".

Definition initfree_pair (b : BuddyAllocator) (k : nat) (bi : Z) : outcome (BuddyAllocator * Z) :=
  let bd := buddy bi in
  match sizes b with
  | None => Done (b, 0)
  | Some s =>
      i ← get_size s k;
      if decide (bit_isset (alloc i) bi ≠ bit_isset (alloc i) bd) then
        m ← push_free (heap b) s k (if bit_isset (alloc i) bi then addr b k bd else addr b k bi);
        Done (set_sizes b s m, blk_size k)
      else Done (b, 0)
  end.

(** [for k in 0..max_size()], [n] sizes left. *)
Fixpoint initfree_loop (b : BuddyAllocator) (bd_left bd_right : Z) (k n : nat) (fr : Z)
    : outcome (BuddyAllocator * Z) :=
  match n with
  | O => Done (b, fr)
  | S n =>
      left ← blk_index_next b k bd_left;
      right ← blk_index b k bd_right;
      '(b1, f1) ← initfree_pair b k left;
      '(b2, f2) ← (if decide (left < right) then initfree_pair b1 k right else Done (b1, 0));
      initfree_loop b2 bd_left bd_right (S k) n (fr + f1 + f2)
  end.

Definition initfree (b : BuddyAllocator) (bd_left : Z) : outcome (BuddyAllocator * Z) :=
  initfree_loop b bd_left (end_ b) 0 (max_size b) 0.

Definition mark_data_structures (b : BuddyAllocator) (p : Z) : outcome (BuddyAllocator * Z) :=
  meta ← checked_sub p (base b);
  b1 ← mark b (base b) p;
  Done (b1, meta).

Definition mark_unavailable (b : BuddyAllocator) : outcome (BuddyAllocator * Z) :=
  used ← checked_sub (end_ b) (base b);
  un ← checked_sub (blk_size (max_size b)) used;
  unavailable ← (if decide (0 < un) then round_up un LEAF_SIZE else Done un);
  b1 ← mark b (end_ b) (base b + blk_size (max_size b));
  Done (b1, unavailable).

(** [log2]: [while n > 1 { k += 1; n >>= 1 }]; 64 rounds suffice for a [usize]. *)
Fixpoint log2_loop (fuel : nat) (n : Z) (k : nat) : nat :=
  match fuel with
  | O => k
  | S fuel => if decide (1 < n) then log2_loop fuel (Z.shiftr n 1) (S k) else k
  end.
Definition log2 (n : Z) : nat := log2_loop 64 n 0.

(** [init_nonnull_slice]: [len] zeroed objects of [sz] bytes at [p], which
    moves past them; the null address is refused by [NonNull::new().unwrap()]. *)
Definition init_nonnull_slice (p : Z) (sz len : Z) : outcome (Z * Z) :=
  if decide (p = 0) then Panic "called `Option::unwrap()` on a `None` value"
  else Done (p, p + sz * len).

Section init.
(** The offset of the field [free] in [SzInfo], a choice of the compiler
    (the structure is not [repr(C)]). *)
Variable free_off : Z.
Definition sizeof_SzInfo : Z := 48.

Fixpoint init_alloc (b : BuddyAllocator) (k : nat) (s : list SzInfo) (p : Z) (m : memory)
    : outcome (list SzInfo * Z * memory) :=
  match s with
  | [] => Done ([], p, m)
  | i :: s =>
      let m1 := RawList.init m (free i) in
      r ← round_up (nblk b k) 8;
      '(_, p1) ← init_nonnull_slice p 1 (r / 8);
      '(s', p2, m2) ← init_alloc b (S k) s p1 m1;
      Done (mkSz (free i) (Some (replicate (Z.to_nat (r / 8)) 0)) (split i) :: s', p2, m2)
  end.

Fixpoint init_split (b : BuddyAllocator) (k : nat) (s : list SzInfo) (p : Z)
    : outcome (list SzInfo * Z) :=
  match s with
  | [] => Done ([], p)
  | i :: s =>
      r ← round_up (nblk b k) 8;
      '(_, p1) ← init_nonnull_slice p 1 (r / 8);
      '(s', p2) ← init_split b (S k) s p1;
      Done (mkSz (free i) (alloc i) (Some (replicate (Z.to_nat (r / 8)) 0)) :: s', p2)
  end.

Definition init (b : BuddyAllocator) (base0 end0 : Z)
    : outcome (BuddyAllocator * result unit string) :=
  if initialized b then Done (b, Err "allocator init called twice")
  else
    p ← round_up base0 (Z.max LEAF_SIZE MAX_ALIGN);
    let e := round_down end0 (Z.max LEAF_SIZE MAX_ALIGN) in
    len ← checked_sub e p;
    let ns := (log2 (len / LEAF_SIZE) + 1)%nat in
    let ns := if decide (blk_size (ns - 1) < len) then S ns else ns in
    '(a, p1) ← init_nonnull_slice p sizeof_SzInfo (Z.of_nat ns);
    let s := (λ k, mkSz (a + sizeof_SzInfo * Z.of_nat k + free_off) None None) <$> seq 0 ns in
    let b0 := mkBuddy false p e ns (Some s) (heap b) in
    '(s1, p2, m1) ← init_alloc b0 0 s p1 (heap b);
    '(s2, p3) ← (match s1 with
                 | [] => Done ([], p2)
                 | i :: r => '(r', q) ← init_split b0 1 r p2; Done (i :: r', q)
                 end);
    p4 ← round_up p3 LEAF_SIZE;
    '(b1, meta) ← mark_data_structures (set_sizes b0 s2 m1) p4;
    '(b2, unavailable) ← mark_unavailable b1;
    let b3 := mkBuddy false (base b2) (base b2 + blk_size (max_size b2) - unavailable)
                (nsize b2) (sizes b2) (heap b2) in
    '(b4, fr) ← initfree b3 p4;
    if decide (fr = blk_size (max_size b4) - meta - unavailable) then
      Done (mkBuddy true (base b4) (end_ b4) (nsize b4) (sizes b4) (heap b4), Ok tt)
    else Done (b4, Err "allocator bug: free != total - meta - unavailable").
End init.

(** ** The global allocator ([kalloc.rs])

    The allocator behind the spin lock [KMEM]; a null pointer is address 0.
    [kend] is the address [end] of the linker script. *)
Definition PHYSTOP : Z := 2147483648 + 128 * 1024 * 1024.

Definition kmem_alloc (b : BuddyAllocator) (layout : Layout) : outcome (BuddyAllocator * Z) :=
  '(b1, r) ← alloc_ b layout; Done (b1, default 0 r).
Definition kmem_dealloc (b : BuddyAllocator) (p : Z) (layout : Layout) : outcome BuddyAllocator :=
  dealloc b p layout.
Definition kmem_init (free_off : Z) (b : BuddyAllocator) (kend : Z) : outcome BuddyAllocator :=
  '(b1, r) ← init free_off b kend PHYSTOP;
  match r with
  | Ok _ => Done b1
  | Err _ => Panic "called `Result::unwrap()` on an `Err` value"
  end.

(** ** A small heap

    [init] on three pages above address [0x80000000]. *)
Definition demo : BuddyAllocator :=
  match init 0 new 2147483649 2147500048 with Done (b, _) => b | _ => new end.
