(* ===== verification/BuddyInv.v ===== *)
(** * Correctness of the buddy allocator

    The bits of the allocator encode a binary tree of blocks: block [c] of
    size [k] is the range of [blk_size k] bytes at [addr b k c]; its children
    are the blocks [2c] and [2c+1] of size [k-1].  A block exists when it is
    the root or its parent is split, it is live when it exists, is allocated
    and is not split.  [Inv] is the representation invariant, and every step
    of [alloc_] and [dealloc] (pop, split, merge, push) is a lemma that moves
    [Inv] and the set of live blocks along. *)

From S2P Require Import Prelude IntrusiveList Buddy.

Open Scope Z_scope.

Definition P (n : nat) : Z := 2 ^ Z.of_nat n.

Lemma P_pos n : 0 < P n.
Proof. apply Z.pow_pos_nonneg; lia. Qed.
Lemma P_add m n : P (m + n) = P m * P n.
Proof. unfold P. rewrite Nat2Z.inj_add, Z.pow_add_r; lia. Qed.
Lemma P_S n : P (S n) = 2 * P n.
Proof. unfold P. rewrite Nat2Z.inj_succ, Z.pow_succ_r; lia. Qed.
Lemma blk_size_P k : blk_size k = P k * 16.
Proof. unfold blk_size, P. rewrite Z.shiftl_1_l. done. Qed.
Lemma blk_size_pos k : 0 < blk_size k.
Proof. rewrite blk_size_P. pose proof (P_pos k). lia. Qed.

Create HintDb buddy.
#[export] Hint Resolve P_pos blk_size_pos : buddy.

(** ** Bit arrays *)
Definition bits_ok (a : option (list Z)) (n : Z) : Prop :=
  ∃ l, a = Some l ∧ n ≤ 8 * Z.of_nat (length l).

Lemma bit_isset_testbit l j :
  0 ≤ j → bit_isset (Some l) j =
  match l !! Z.to_nat (j / 8) with Some x => Z.testbit x (j `mod` 8) | None => false end.
Proof.
  intros Hj. simpl. destruct (l !! _); [|done].
  apply land_pow2_testbit. pose proof (Z.mod_pos_bound j 8). lia.
Qed.

Lemma bit_set_spec a n bi v :
  bits_ok a n → 0 ≤ bi < n →
  ∃ a', bit_set a bi v = Done a' ∧ bits_ok a' n ∧
    ∀ j, 0 ≤ j → bit_isset a' j = if decide (j = bi) then v else bit_isset a j.
Proof.
  intros (l & -> & Hl) Hbi. cbn [bit_set].
  assert (Hlt : (Z.to_nat (bi / 8) < length l)%nat).
  { pose proof (Z.div_lt_upper_bound bi 8 (Z.of_nat (length l))).
    pose proof (Z.div_pos bi 8). lia. }
  destruct (lookup_lt_is_Some_2 _ _ Hlt) as [x Hx]. rewrite Hx.
  set (y := if v then Z.lor x (Z.shiftl 1 (bi `mod` 8))
            else Z.land x (u8_not (Z.shiftl 1 (bi `mod` 8)))).
  exists (Some (<[Z.to_nat (bi / 8) := y]> l)). split; [by destruct v|].
  split; [exists (<[Z.to_nat (bi / 8) := y]> l); split; [done|by rewrite length_insert]|].
  intros j Hj. rewrite !bit_isset_testbit by done.
  pose proof (Z.div_mod j 8). pose proof (Z.div_mod bi 8).
  pose proof (Z.mod_pos_bound j 8). pose proof (Z.mod_pos_bound bi 8).
  pose proof (Z.div_pos j 8). pose proof (Z.div_pos bi 8).
  destruct (decide (j / 8 = bi / 8)) as [He|He].
  - rewrite He, list_lookup_insert_eq, Hx by done. unfold y. destruct v.
    + rewrite testbit_lor_set by lia. case_decide as Hd.
      * subst. by rewrite bool_decide_eq_true_2, orb_true_r.
      * rewrite bool_decide_eq_false_2, orb_false_r by lia. done.
    + rewrite testbit_land_clear by lia. case_decide as Hd.
      * subst. by rewrite bool_decide_eq_true_2, andb_false_r.
      * rewrite bool_decide_eq_false_2, andb_true_r by lia. done.
  - rewrite list_lookup_insert_ne by lia. rewrite decide_False by congruence. done.
Qed.

(** ** The [sizes] array through its bits *)
Definition hd (s : list SzInfo) (k : nat) : option Z := free <$> s !! k.
Definition ab (s : list SzInfo) (k : nat) (c : Z) : bool :=
  match s !! k with Some i => bit_isset (alloc i) c | None => false end.
Definition sb (s : list SzInfo) (k : nat) (c : Z) : bool :=
  match s !! k with Some i => bit_isset (split i) c | None => false end.

Definition sizes_ok (N : nat) (s : list SzInfo) : Prop :=
  length s = S N ∧
  ∀ k i, s !! k = Some i →
    bits_ok (alloc i) (P (N - k)) ∧
    (if decide (k = 0%nat) then split i = None else bits_ok (split i) (P (N - k))).

(** [bit_upd f k c v]: the bit function [f] with bit [(k, c)] set to [v]. *)
Definition upd (f : nat → Z → bool) (k : nat) (c : Z) (v : bool) (j : nat) (d : Z) : bool :=
  if decide (j = k ∧ d = c) then v else f j d.

Lemma upd_eq f k c v : upd f k c v k c = v.
Proof. unfold upd. by rewrite decide_True. Qed.
Lemma upd_ne f k c v j d : ¬ (j = k ∧ d = c) → upd f k c v j d = f j d.
Proof. intros. unfold upd. by rewrite decide_False. Qed.

Lemma sizes_ok_lookup N s k : sizes_ok N s → (k ≤ N)%nat → ∃ i, s !! k = Some i.
Proof. intros [Hl _] Hk. apply lookup_lt_is_Some_2. lia. Qed.

Lemma get_size_ok s k i : s !! k = Some i → get_size s k = Done i.
Proof. intros H. unfold get_size. apply index_ok; [lia|]. by rewrite Nat2Z.id. Qed.

Lemma set_alloc_spec N s k c v :
  sizes_ok N s → (k ≤ N)%nat → 0 ≤ c < P (N - k) →
  ∃ s', set_alloc s k c v = Done s' ∧ sizes_ok N s' ∧ (∀ j, hd s' j = hd s j) ∧
    (∀ j d, 0 ≤ d → ab s' j d = upd (ab s) k c v j d) ∧ (∀ j d, sb s' j d = sb s j d).
Proof.
  intros Hok Hk Hc. destruct (sizes_ok_lookup _ _ _ Hok Hk) as [i Hi].
  destruct (proj2 Hok _ _ Hi) as [Ha Hs].
  destruct (bit_set_spec _ _ c v Ha Hc) as (a' & Hset & Ha' & Hbits).
  unfold set_alloc. rewrite (get_size_ok _ _ _ Hi). simpl. rewrite Hset. simpl.
  eexists. split; [done|]. pose proof (lookup_lt_Some _ _ _ Hi) as Hlt.
  assert (HL : ∀ j, <[k:=mkSz (free i) a' (split i)]> s !! j =
            if decide (j = k) then Some (mkSz (free i) a' (split i)) else s !! j)
    by (intros; by apply lookup_upd).
  split; [split|split_and!].
  - rewrite length_insert. apply Hok.
  - intros j i'. rewrite HL. destruct (decide (j = k)) as [->|]; [|apply Hok].
    by intros [= <-].
  - intros j. unfold hd. rewrite HL. destruct (decide (j = k)) as [->|]; [by rewrite Hi|done].
  - intros j d Hd. unfold ab, upd. rewrite HL. destruct (decide (j = k)) as [->|Hne].
    + simpl. rewrite Hbits by done. rewrite Hi. repeat case_decide; naive_solver.
    + rewrite decide_False; naive_solver.
  - intros j d. unfold sb. rewrite HL. destruct (decide (j = k)) as [->|]; [by rewrite Hi|done].
Qed.

Lemma set_split_spec N s k c v :
  sizes_ok N s → (1 ≤ k ≤ N)%nat → 0 ≤ c < P (N - k) →
  ∃ s', set_split s k c v = Done s' ∧ sizes_ok N s' ∧ (∀ j, hd s' j = hd s j) ∧
    (∀ j d, 0 ≤ d → sb s' j d = upd (sb s) k c v j d) ∧ (∀ j d, ab s' j d = ab s j d).
Proof.
  intros Hok Hk Hc. destruct (sizes_ok_lookup _ _ k Hok ltac:(lia)) as [i Hi].
  destruct (proj2 Hok _ _ Hi) as [Ha Hs]. rewrite decide_False in Hs by lia.
  destruct (bit_set_spec _ _ c v Hs Hc) as (a' & Hset & Ha' & Hbits).
  unfold set_split. rewrite (get_size_ok _ _ _ Hi). simpl. rewrite Hset. simpl.
  eexists. split; [done|]. pose proof (lookup_lt_Some _ _ _ Hi) as Hlt.
  assert (HL : ∀ j, <[k:=mkSz (free i) (alloc i) a']> s !! j =
            if decide (j = k) then Some (mkSz (free i) (alloc i) a') else s !! j)
    by (intros; by apply lookup_upd).
  split; [split|split_and!].
  - rewrite length_insert. apply Hok.
  - intros j i'. rewrite HL. destruct (decide (j = k)) as [->|]; [|apply Hok].
    intros [= <-]. simpl. by rewrite decide_False by lia.
  - intros j. unfold hd. rewrite HL. destruct (decide (j = k)) as [->|]; [by rewrite Hi|done].
  - intros j d Hd. unfold sb, upd. rewrite HL. destruct (decide (j = k)) as [->|Hne].
    + simpl. rewrite Hbits by done. rewrite Hi. repeat case_decide; naive_solver.
    + rewrite decide_False; naive_solver.
  - intros j d. unfold ab. rewrite HL. destruct (decide (j = k)) as [->|]; [by rewrite Hi|done].
Qed.

(** ** The free lists

    All free lists share one memory; [Lists H m fl] says that list [k], with
    its head at [H k], holds [fl k], and that no node is on two lists. *)
Record Lists (H : nat → option Z) (m : memory) (fl : nat → list Z) : Prop := {
  ls_dll : ∀ k h, H k = Some h → dll m h (fl k);
  ls_disj : ∀ j k hj hk, j ≠ k → H j = Some hj → H k = Some hk →
    ∀ z, z ∈ hj :: fl j → z ∉ hk :: fl k;
}.

Definition fupd (fl : nat → list Z) (k : nat) (l : list Z) (j : nat) : list Z :=
  if decide (j = k) then l else fl j.

Lemma Lists_ext H H' m fl : (∀ j, H' j = H j) → Lists H m fl → Lists H' m fl.
Proof.
  intros He HL. split.
  - intros k h. rewrite He. apply HL.
  - intros j k hj hk Hne. rewrite !He. by apply HL.
Qed.

(** Replacing the content of list [k] when the memory changes only at its old
    and new nodes. *)
Lemma Lists_upd H m m' fl k h l' X :
  Lists H m fl → H k = Some h → dll m' h l' → same_off X m m' →
  (∀ z, z ∈ l' ∨ z ∈ X → z ∈ h :: fl k ∨ ∀ j hj, H j = Some hj → z ∉ hj :: fl j) →
  Lists H m' (fupd fl k l').
Proof.
  intros HL Hk Hd Hs HX. unfold fupd. split.
  - intros j hj Hj. destruct (decide (j = k)) as [->|Hne].
    + by rewrite Hk in Hj; injection Hj as <-.
    + eapply dll_frame; [done| |by eapply ls_dll]. intros z Hz HzX.
      destruct (HX z (or_intror HzX)) as [Hz'|Hz']; [|by eapply Hz'].
      eapply (ls_disj _ _ _ HL k j); eauto.
  - assert (Hkey : ∀ j hj, j ≠ k → H j = Some hj → ∀ z, z ∈ h :: l' → z ∉ hj :: fl j).
    { intros j hj Hne Hj z Hz. apply elem_of_cons in Hz as [->|Hz].
      - eapply (ls_disj _ _ _ HL k j); eauto. left.
      - destruct (HX z (or_introl Hz)) as [Hz'|Hz']; [|by eapply Hz'].
        eapply (ls_disj _ _ _ HL k j); eauto. }
    intros j i hj hi Hne Hj Hi z.
    destruct (decide (j = k)) as [->|]; destruct (decide (i = k)) as [->|].
    + done.
    + rewrite Hk in Hj. injection Hj as <-. by eapply Hkey.
    + rewrite Hk in Hi. injection Hi as <-. intros Hz Hz'. by eapply Hkey.
    + by eapply ls_disj.
Qed.

Lemma Lists_push H m fl k h e :
  Lists H m fl → H k = Some h → (∀ j hj, H j = Some hj → e ∉ hj :: fl j) →
  ∃ m', RawList.push m h e = Done m' ∧ Lists H m' (fupd fl k (e :: fl k)).
Proof.
  intros HL Hk He.
  destruct (push_spec m h (fl k) e) as (m' & Hp & Hd & Hs); [by eapply ls_dll|by eapply He|].
  exists m'. split; [done|]. eapply Lists_upd; eauto.
  intros z Hz. assert (z = e ∨ z ∈ h :: fl k) as [->|?]; [|by right|by left].
  clear -Hz. set_solver.
Qed.

Lemma Lists_remove H m fl k h l1 e l2 :
  Lists H m fl → H k = Some h → fl k = l1 ++ e :: l2 →
  ∃ m', RawList.remove m e = Done m' ∧ Lists H m' (fupd fl k (l1 ++ l2)).
Proof.
  intros HL Hk Hf. pose proof (ls_dll _ _ _ HL _ _ Hk) as Hd. rewrite Hf in Hd.
  destruct (remove_spec _ _ _ _ _ Hd) as (m' & Hr & Hd' & Hs).
  exists m'. split; [done|]. eapply Lists_upd; eauto.
  intros z Hz. left. rewrite Hf. clear -Hz. set_solver.
Qed.

Lemma Lists_pop H m fl k h e l :
  Lists H m fl → H k = Some h → fl k = e :: l →
  ∃ m', RawList.pop m h = Done (m', Some e) ∧ Lists H m' (fupd fl k l).
Proof.
  intros HL Hk Hf. pose proof (pop_spec _ _ _ (ls_dll _ _ _ HL _ _ Hk)) as Hp.
  rewrite Hf in Hp. destruct Hp as (m' & Hp & Hd & Hs).
  exists m'. split; [done|]. eapply Lists_upd; eauto.
  intros z Hz. left. rewrite Hf. clear -Hz. set_solver.
Qed.

(** ** The tree of blocks *)
Section tree.
Variable B : Z.      (* the base address *)
Variable N : nat.    (* the largest size *)

Definition ad (k : nat) (c : Z) : Z := B + c * blk_size k.
Definition rng (k : nat) (c : Z) : Prop := (k ≤ N)%nat ∧ 0 ≤ c < P (N - k).

(** A block exists when it is the root or its parent is split. *)
Definition exi (s : list SzInfo) (k : nat) (c : Z) : Prop :=
  k = N ∨ sb s (S k) (c / 2) = true.

Definition live (s : list SzInfo) (k : nat) (c : Z) : Prop :=
  rng k c ∧ ab s k c = true ∧ sb s k c = false.

(** The address [x] lies in block [c] of size [k]. *)
Definition inblk (k : nat) (c x : Z) : Prop := B ≤ x ∧ (x - B) / blk_size k = c.

Record Inv (s : list SzInfo) (m : memory) (fl : nat → list Z) : Prop := {
  inv_ok : sizes_ok N s;
  inv_lists : Lists (hd s) m fl;
  inv_free : ∀ k c, rng k c → ad k c ∈ fl k ↔ exi s k c ∧ ab s k c = false;
  inv_addr : ∀ k z, (k ≤ N)%nat → z ∈ fl k → ∃ c, rng k c ∧ z = ad k c;
  inv_exi : ∀ k c, rng k c → ab s k c = true → exi s k c;
  inv_split : ∀ k c, rng k c → sb s k c = true → ab s k c = true;
  inv_pair : ∀ k c, rng k c → (k < N)%nat → exi s k c →
    ab s k c = true ∨ ab s k (buddy c) = true;
  (* the list heads lie in leaf blocks that are allocated *)
  inv_heads : ∀ k h, hd s k = Some h → ∃ c, rng 0 c ∧ ab s 0 c = true ∧ inblk 0 c h;
}.

Lemma ad_inj k c d : ad k c = ad k d → c = d.
Proof. unfold ad. pose proof (blk_size_pos k). nia. Qed.

Lemma rng_up k c : rng k c → (k < N)%nat → rng (S k) (c / 2).
Proof.
  intros [_ Hc] Hk. split; [lia|]. replace (N - k)%nat with (S (N - S k)) in Hc by lia.
  rewrite P_S in Hc. split; [apply Z.div_pos; lia|]. apply Z.div_lt_upper_bound; lia.
Qed.

Lemma rng_down k c : rng (S k) c → rng k (2 * c) ∧ rng k (2 * c + 1).
Proof.
  intros [Hk Hc]. unfold rng. replace (N - k)%nat with (S (N - S k)) by lia.
  rewrite P_S. lia.
Qed.

Lemma inblk_ad k c x : 0 ≤ c → inblk k c x ↔ ad k c ≤ x < ad k c + blk_size k.
Proof.
  intros Hc. unfold inblk, ad. pose proof (blk_size_pos k) as Hb.
  pose proof (Z.div_mod (x - B) (blk_size k)) as Hdm.
  pose proof (Z.mod_pos_bound (x - B) (blk_size k)) as Hm. split.
  - intros [? <-]. nia.
  - intros ?. split; [nia|]. symmetry. apply (Z.div_unique _ _ _ (x - ad k c));
      unfold ad; nia.
Qed.

Lemma inblk_self k c : 0 ≤ c → inblk k c (ad k c).
Proof. intros Hc. apply inblk_ad; [done|]. pose proof (blk_size_pos k). lia. Qed.

Lemma inblk_up j c x n : inblk j c x → inblk (j + n) (c / P n) x.
Proof.
  intros [? <-]. split; [done|]. pose proof (P_pos n). pose proof (blk_size_pos j).
  rewrite Z.div_div by lia. f_equal. rewrite !blk_size_P, P_add. lia.
Qed.

(** Every ancestor of an existing block is split. *)
Lemma exi_chain s m fl j c n :
  Inv s m fl → rng j c → exi s j c → (j + S n ≤ N)%nat →
  rng (j + S n) (c / P (S n)) ∧ sb s (j + S n) (c / P (S n)) = true.
Proof.
  intros HI Hr He. induction n as [|n IH]; intros Hn.
  - destruct He as [->|He]; [lia|]. replace (j + 1)%nat with (S j) by lia.
    change (P 1) with 2. split; [by apply rng_up; [|lia]|done].
  - destruct IH as [Hr' Hs']; [lia|].
    destruct (inv_exi _ _ _ HI _ _ Hr' (inv_split _ _ _ HI _ _ Hr' Hs')) as [Heq|Hs]; [lia|].
    replace (j + S (S n))%nat with (S (j + S n)) by lia.
    rewrite (P_S (S n)), Z.mul_comm, <-Z.div_div by (pose proof (P_pos (S n)); lia).
    split; [by apply rng_up; [|lia]|done].
Qed.

(** Unsplit existing blocks that share an address are the same block. *)
Lemma leaf_unique_le s m fl j k c d x :
  Inv s m fl → rng j c → exi s j c → rng k d → sb s k d = false →
  inblk j c x → inblk k d x → (j ≤ k)%nat → j = k ∧ c = d.
Proof.
  intros HI Hr He Hr' Hs Hx Hx' Hle.
  destruct (decide (j = k)) as [->|Hne].
  - destruct Hx as [_ <-], Hx' as [_ <-]. done.
  - exfalso. destruct (exi_chain s m fl j c (k - j - 1) HI Hr He) as [_ Hsb].
    { destruct Hr'. lia. }
    apply (inblk_up _ _ _ (S (k - j - 1))) in Hx.
    replace (j + S (k - j - 1))%nat with k in * by lia.
    assert (d = c / P (S (k - j - 1))) as -> by (destruct Hx as [_ <-], Hx' as [_ <-]; done).
    congruence.
Qed.

Lemma leaf_unique s m fl j k c d x :
  Inv s m fl → rng j c → exi s j c → sb s j c = false →
  rng k d → exi s k d → sb s k d = false →
  inblk j c x → inblk k d x → j = k ∧ c = d.
Proof.
  intros HI ?? ? ?? ? Hx Hx'. destruct (decide (j ≤ k)%nat).
  - by eapply leaf_unique_le.
  - assert (k = j ∧ d = c) as [-> ->]; [|done]. eapply leaf_unique_le; eauto. lia.
Qed.

Lemma live_exi s m fl k c : Inv s m fl → live s k c → exi s k c.
Proof. intros HI (? & ? & _). by eapply inv_exi. Qed.

(** The block [(j, d)] lies inside block [(k, c)]. *)
Definition within (j : nat) (d : Z) (k : nat) (c : Z) : Prop := (j ≤ k)%nat ∧ d / P (k - j) = c.

Lemma within_refl k c : within k c k c.
Proof. split; [done|]. rewrite Nat.sub_diag. apply Z.div_1_r. Qed.

Lemma within_up j d k c : within j d k c → within j d (S k) (c / 2).
Proof.
  intros [Hle <-]. split; [lia|]. replace (S k - j)%nat with (S (k - j)) by lia.
  rewrite P_S, (Z.mul_comm 2). symmetry. apply Z.div_div; pose proof (P_pos (k - j)); lia.
Qed.

Lemma within_inblk j d k c x : within j d k c → inblk j d x → inblk k c x.
Proof. intros [Hle <-] Hx. replace k with (j + (k - j))%nat at 1 by lia. by apply inblk_up. Qed.

(** An allocated block has a live block inside: itself, or by [inv_pair] one
    below a half. *)
Lemma alloc_has_live s m fl k c :
  Inv s m fl → rng k c → ab s k c = true → ∃ j d, live s j d ∧ within j d k c.
Proof.
  intros HI. revert c. induction k as [|k IH]; intros c Hr Ha.
  { destruct (sb s 0 c) eqn:Hs; [|by exists 0%nat, c; split; [done|apply within_refl]].
    exfalso. destruct (sizes_ok_lookup _ _ 0 (inv_ok _ _ _ HI)) as [i Hi]; [lia|].
    unfold sb in Hs. rewrite Hi in Hs. destruct (proj2 (inv_ok _ _ _ HI) _ _ Hi) as [_ Hs0]. simpl in Hs0.
    by rewrite Hs0 in Hs. }
  destruct (sb s (S k) c) eqn:Hs; [|by exists (S k), c; split; [done|apply within_refl]].
  destruct (rng_down _ _ Hr) as [Hr0 Hr1].
  assert (He : exi s k (2 * c)) by (right; by replace (2 * c / 2) with c by (rewrite Z.mul_comm, Z.div_mul; lia)).
  destruct (inv_pair _ _ _ HI _ _ Hr0 ltac:(destruct Hr; lia) He) as [H|H].
  - destruct (IH _ Hr0 H) as (j & d & Hl & Hw%within_up). exists j, d. split; [done|].
    by replace (2 * c / 2) with c in Hw by zdm.
  - replace (buddy (2 * c)) with (2 * c + 1) in H.
    2: { unfold buddy. rewrite Z.mul_comm, Z.mod_mul by lia. done. }
    destruct (IH _ Hr1 H) as (j & d & Hl & Hw%within_up). exists j, d. split; [done|].
    by replace ((2 * c + 1) / 2) with c in Hw by zdm.
Qed.

(** When no block of size [k] or more is free, every block of size [k] meets a
    live one. *)
Lemma none_free_full s m fl k c :
  Inv s m fl → (∀ j, (k ≤ j ≤ N)%nat → fl j = []) → rng k c →
  ∃ j d, live s j d ∧ (within j d k c ∨ within k c j d).
Proof.
  intros HI Hnil Hr.
  assert (Hex : ∀ n, (k + n ≤ N)%nat → exi s (N - n) (c / P (N - n - k)) ∨ ∃ j d, live s j d ∧ within k c j d).
  { induction n as [|n IH]; intros Hn; [left; left; lia|].
    destruct IH as [He|]; [lia| |by right].
    set (q := (N - S n)%nat) in *. replace (N - n)%nat with (S q) in He by (unfold q; lia).
    replace (S q - k)%nat with (S (q - k)) in He by (unfold q; lia).
    assert (Hc : rng (S q) (c / P (S (q - k)))).
    { destruct Hr as [_ Hc]. split; [unfold q; lia|]. pose proof (P_pos (S (q - k))). split; [apply Z.div_pos; lia|].
      apply Z.div_lt_upper_bound; [done|]. rewrite <-P_add. replace (S (q - k) + (N - S q))%nat with (N - k)%nat by (unfold q; lia). lia. }
    assert (Ha : ab s (S q) (c / P (S (q - k))) = true).
    { destruct (ab s (S q) _) eqn:E; [done|]. exfalso.
      pose proof (proj2 (inv_free _ _ _ HI _ _ Hc) (conj He E)) as Hin. rewrite Hnil in Hin by (unfold q; lia).
      by apply elem_of_nil in Hin. }
    destruct (sb s (S q) (c / P (S (q - k)))) eqn:Es.
    - left. right. rewrite Z.div_div by (pose proof (P_pos (q - k)); lia). by rewrite Z.mul_comm, <-P_S.
    - right. exists (S q), (c / P (S (q - k))). split; [done|]. split; [unfold q; lia|].
      by replace (S q - k)%nat with (S (q - k)) by (unfold q; lia). }
  destruct (Hex (N - k)%nat) as [He|(j & d & ? & ?)]; [destruct Hr; lia| |by eauto].
  replace (N - (N - k))%nat with k in He by (destruct Hr; lia). rewrite Nat.sub_diag in He.
  change (P 0) with 1 in He. rewrite Z.div_1_r in He.
  destruct (ab s k c) eqn:Ha.
  - destruct (alloc_has_live _ _ _ _ _ HI Hr Ha) as (j & d & ? & ?). eauto.
  - exfalso. pose proof (proj2 (inv_free _ _ _ HI _ _ Hr) (conj He Ha)) as Hin.
    rewrite Hnil in Hin by (destruct Hr; lia). by apply elem_of_nil in Hin.
Qed.

(** A free block is unsplit. *)
Lemma unalloc_unsplit s m fl k c :
  Inv s m fl → rng k c → ab s k c = false → sb s k c = false.
Proof.
  intros HI Hr Ha. destruct (sb s k c) eqn:E; [|done].
  rewrite (inv_split _ _ _ HI _ _ Hr E) in Ha. done.
Qed.

(** The address of a live block is in no free list. *)
Lemma live_not_free s m fl k c x j :
  Inv s m fl → live s k c → inblk k c x → (j ≤ N)%nat → x ∉ fl j.
Proof.
  intros HI Hl Hx Hj Hin. destruct (inv_addr _ _ _ HI _ _ Hj Hin) as (d & Hr & ->).
  apply (inv_free _ _ _ HI _ _ Hr) in Hin as [He Ha].
  pose proof (live_exi _ _ _ _ _ HI Hl) as He'. destruct Hl as (Hr' & Ha' & Hs').
  destruct (leaf_unique s m fl j k d c (ad j d)) as [-> ->]; eauto.
  - by eapply unalloc_unsplit.
  - apply inblk_self. apply Hr.
  - congruence.
Qed.

(** A list head lies in no live block but a leaf. *)
Lemma live_no_head s m fl k c h i :
  Inv s m fl → live s k c → hd s i = Some h → inblk k c h → k = 0%nat.
Proof.
  intros HI Hl Hh Hx. destruct (inv_heads _ _ _ HI _ _ Hh) as (d & Hr & Ha & Hd).
  pose proof (live_exi _ _ _ _ _ HI Hl) as He'. destruct Hl as (Hr' & Ha' & Hs').
  destruct (leaf_unique s m fl 0 k d c h) as [<- _]; eauto using inv_exi.
  destruct (sizes_ok_lookup _ _ 0 (inv_ok _ _ _ HI) ltac:(lia)) as [i0 Hi0].
  unfold sb. rewrite Hi0. destruct (proj2 (inv_ok _ _ _ HI) _ _ Hi0) as [_ Hs0].
  simpl in Hs0. by rewrite Hs0.
Qed.

Lemma rng_hd s m fl k : Inv s m fl → (k ≤ N)%nat → ∃ h, hd s k = Some h.
Proof.
  intros HI Hk. destruct (sizes_ok_lookup _ _ _ (inv_ok _ _ _ HI) Hk) as [i Hi].
  exists (free i). unfold hd. by rewrite Hi.
Qed.

Lemma hd_rng s m fl k h : Inv s m fl → hd s k = Some h → (k ≤ N)%nat.
Proof.
  intros HI Hh. unfold hd in Hh. destruct (s !! k) eqn:E; [|done].
  apply lookup_lt_Some in E. pose proof (proj1 (inv_ok _ _ _ HI)). lia.
Qed.

Lemma exi_ext s s' k c : (∀ j d, sb s' j d = sb s j d) → exi s' k c ↔ exi s k c.
Proof. intros H. unfold exi. by rewrite H. Qed.

Lemma fl_nodup s m fl k : Inv s m fl → (k ≤ N)%nat → NoDup (fl k).
Proof.
  intros HI Hk. destruct (rng_hd _ _ _ _ HI Hk) as [h Hh].
  destruct (ls_dll _ _ _ (inv_lists _ _ _ HI) _ _ Hh) as [_ Hnd].
  by apply NoDup_cons in Hnd as [_ ?].
Qed.

Lemma rng_nonneg k c : rng k c → 0 ≤ c.
Proof. intros [_ ?]. lia. Qed.
Hint Resolve rng_nonneg : buddy.

Lemma buddy_invol c : buddy (buddy c) = c.
Proof. unfold buddy. repeat case_decide; zdm. Qed.
Lemma buddy_half c : buddy c / 2 = c / 2.
Proof. unfold buddy. case_decide; zdm. Qed.
Lemma rng_buddy k c : rng k c → (k < N)%nat → rng k (buddy c).
Proof.
  intros Hr Hk. destruct (rng_down _ _ (rng_up _ _ Hr Hk)) as [H1 H2].
  unfold buddy. case_decide.
  - replace (c + 1) with (2 * (c / 2) + 1) by zdm. done.
  - replace (c - 1) with (2 * (c / 2)) by zdm. done.
Qed.
Lemma half_cases c d : c / 2 = d / 2 → c = d ∨ c = buddy d.
Proof. unfold buddy. case_decide; zdm. Qed.

(** *** Taking the first block of a free list *)
Lemma pop_step s m fl k z l h :
  Inv s m fl → (k ≤ N)%nat → hd s k = Some h → fl k = z :: l →
  ∃ c m' s', rng k c ∧ z = ad k c ∧ exi s k c ∧ ab s k c = false ∧
    RawList.pop m h = Done (m', Some z) ∧ set_alloc s k c true = Done s' ∧
    Inv s' m' (fupd fl k l) ∧
    ∀ j d, live s' j d ↔ live s j d ∨ (j = k ∧ d = c).
Proof.
  intros HI Hk Hh Hfl. pose proof (fl_nodup _ _ _ _ HI Hk) as Hnd. rewrite Hfl in Hnd.
  apply NoDup_cons in Hnd as [Hzl Hnd].
  destruct (inv_addr _ _ _ HI k z Hk) as (c & Hr & ->); [rewrite Hfl; left|].
  destruct (proj1 (inv_free _ _ _ HI _ _ Hr)) as [He Ha]; [rewrite Hfl; left|].
  destruct (Lists_pop _ _ _ _ _ _ _ (inv_lists _ _ _ HI) Hh Hfl) as (m' & Hpop & HL).
  destruct (set_alloc_spec _ _ k c true (inv_ok _ _ _ HI) Hk (proj2 Hr))
    as (s' & Hset & Hok & Hhd & Hab & Hsb).
  exists c, m', s'. split_and!; try done.
  - split.
    + done.
    + by eapply Lists_ext.
    + intros j d Hrj. rewrite (exi_ext _ _ _ _ Hsb), Hab by eauto with buddy.
      pose proof (inv_free _ _ _ HI _ _ Hrj) as HF. unfold fupd, upd.
      destruct (decide (j = k)) as [->|Hne]; [|rewrite decide_False by naive_solver; done].
      destruct (decide (d = c)) as [->|Hne].
      * rewrite decide_True by done. split; [done|by intros [_ ?]].
      * rewrite decide_False by naive_solver. rewrite <-HF, Hfl, elem_of_cons.
        split; [auto|]. intros [?%ad_inj|?]; done.
    + intros j z Hj Hz. eapply inv_addr; [done..|]. unfold fupd in Hz.
      case_decide; [subst; rewrite Hfl; by right|done].
    + intros j d Hrj. rewrite (exi_ext _ _ _ _ Hsb), Hab by eauto with buddy.
      unfold upd. case_decide as Hd; [by destruct Hd as [-> ->]|by eapply inv_exi].
    + intros j d Hrj. rewrite Hsb, Hab by eauto with buddy. intros Hs.
      unfold upd. case_decide; [done|by eapply inv_split].
    + intros j d Hrj Hj. rewrite (exi_ext _ _ _ _ Hsb), !Hab
        by eauto using rng_buddy with buddy.
      intros Hx. destruct (inv_pair _ _ _ HI _ _ Hrj Hj Hx); unfold upd;
        repeat case_decide; auto.
    + intros j h'. rewrite Hhd. intros Hj.
      destruct (inv_heads _ _ _ HI _ _ Hj) as (d & Hrd & Had & Hin).
      exists d. split; [done|]. split; [|done]. rewrite Hab by eauto with buddy.
      unfold upd. by case_decide.
  - intros j d. unfold live. rewrite Hsb. split.
    + intros (Hrj & Haj & Hsj). rewrite Hab in Haj by eauto with buddy. unfold upd in Haj.
      case_decide; auto.
    + intros [(Hrj & Haj & Hsj)|[-> ->]].
      * rewrite Hab by eauto with buddy. unfold upd. case_decide; auto.
      * split; [done|]. rewrite Hab, upd_eq by eauto with buddy. split; [done|].
        by eapply unalloc_unsplit.
Qed.

(** *** Pushing a live block whose buddy is allocated *)
Lemma free_step s m fl k c h :
  Inv s m fl → live s k c → (k < N)%nat → hd s k = Some h →
  (∀ j hj, hd s j = Some hj → ¬ inblk k c hj) →
  ab s k (buddy c) = true →
  ∃ m' s', set_alloc s k c false = Done s' ∧ RawList.push m h (ad k c) = Done m' ∧
    (∀ j, hd s' j = hd s j) ∧ Inv s' m' (fupd fl k (ad k c :: fl k)) ∧
    ∀ j d, live s' j d ↔ live s j d ∧ ¬ (j = k ∧ d = c).
Proof.
  intros HI Hlv Hk Hh Hres Hbd. pose proof Hlv as (Hr & Ha & Hs).
  pose proof (live_exi _ _ _ _ _ HI Hlv) as He.
  assert (Hin : inblk k c (ad k c)) by (apply inblk_self; apply Hr).
  destruct (Lists_push _ _ _ k h (ad k c) (inv_lists _ _ _ HI) Hh) as (m' & Hpush & HL).
  { intros j hj Hj Hin'. apply elem_of_cons in Hin' as [Heq|Hin'].
    - apply (Hres _ _ Hj). by rewrite <-Heq.
    - by eapply (live_not_free s m fl k c); [..|eapply hd_rng|]. }
  destruct (set_alloc_spec _ _ k c false (inv_ok _ _ _ HI) ltac:(lia) (proj2 Hr))
    as (s' & Hset & Hok & Hhd & Hab & Hsb).
  exists m', s'. split_and!; try done.
  - split.
    + done.
    + by eapply Lists_ext.
    + intros j d Hrj. rewrite (exi_ext _ _ _ _ Hsb), Hab by eauto with buddy.
      pose proof (inv_free _ _ _ HI _ _ Hrj) as HF. unfold fupd, upd.
      destruct (decide (j = k)) as [->|Hne]; [|rewrite decide_False by naive_solver; done].
      rewrite elem_of_cons, HF. destruct (decide (d = c)) as [->|Hne].
      * rewrite decide_True by done. naive_solver.
      * rewrite decide_False by naive_solver. split; [|auto]. intros [?%ad_inj|?]; done.
    + intros j z Hj Hz. unfold fupd in Hz. case_decide; [subst|by eapply inv_addr].
      apply elem_of_cons in Hz as [->|Hz]; [eauto|by eapply inv_addr].
    + intros j d Hrj. rewrite (exi_ext _ _ _ _ Hsb), Hab by eauto with buddy.
      unfold upd. case_decide; [done|by eapply inv_exi].
    + intros j d Hrj. rewrite Hsb, Hab by eauto with buddy. intros Hsj.
      unfold upd. case_decide as Hd; [destruct Hd; congruence|by eapply inv_split].
    + intros j d Hrj Hj. rewrite (exi_ext _ _ _ _ Hsb), !Hab
        by eauto using rng_buddy with buddy. intros Hx. unfold upd.
      destruct (decide (j = k)) as [->|]; cycle 1.
      { rewrite !decide_False by naive_solver. by eapply inv_pair. }
      destruct (decide (d = c)) as [->|Hdc].
      * right. rewrite decide_False; [done|]. intros [_ Hbc].
        unfold buddy in Hbc. case_decide; lia.
      * rewrite (decide_False (P := k = k ∧ d = c)) by naive_solver.
        destruct (decide (buddy d = c)) as [<-|Hbc].
        -- left. by rewrite <-(buddy_invol d).
        -- rewrite decide_False by naive_solver. by eapply inv_pair.
    + intros j h'. rewrite Hhd. intros Hj.
      destruct (inv_heads _ _ _ HI _ _ Hj) as (d & Hrd & Had & Hin').
      exists d. split; [done|]. split; [|done]. rewrite Hab by eauto with buddy.
      unfold upd. case_decide as Hd; [|done]. destruct Hd as [<- ->]. by destruct (Hres _ _ Hj).
  - intros j d. unfold live. rewrite Hsb. split.
    + intros (Hrj & Haj & Hsj). rewrite Hab in Haj by eauto with buddy. unfold upd in Haj.
      case_decide; [done|auto].
    + intros [(Hrj & Haj & Hsj) Hne]. rewrite Hab, upd_ne by eauto with buddy. auto.
Qed.

(** [s'] is [s] with the bit arrays [fa] and [fs]. *)
Record changed (s s' : list SzInfo) (fa fs : nat → Z → bool) : Prop := {
  ch_ok : sizes_ok N s';
  ch_hd : ∀ j, hd s' j = hd s j;
  ch_ab : ∀ j d, 0 ≤ d → ab s' j d = fa j d;
  ch_sb : ∀ j d, 0 ≤ d → sb s' j d = fs j d;
}.

(** *** Splitting a live block: the left half stays live, the right half
    goes on the free list of the size below *)
Section split.
Variables (s s2 : list SzInfo) (m : memory) (fl : nat → list Z) (k : nat) (c : Z).
Hypothesis HI : Inv s m fl.
Hypothesis Hlv : live s (S k) c.
Hypothesis Hch : changed s s2 (upd (ab s) k (2 * c) true) (upd (sb s) (S k) c true).

Lemma split_exi j d : rng j d → exi s2 j d ↔ exi s j d ∨ (j = k ∧ d / 2 = c).
Proof.
  intros [_ Hd]. unfold exi. rewrite (ch_sb _ _ _ _ Hch) by (apply Z.div_pos; lia). unfold upd.
  case_decide as Hjd; [destruct Hjd; naive_solver|].
  split; [tauto|]. intros [?|[-> ?]]; [done|naive_solver].
Qed.

(** The two halves did not exist. *)
Lemma split_absent d : d / 2 = c → ¬ exi s k d.
Proof. intros Hd [?|Hx]; [|rewrite Hd in Hx; destruct Hlv as (_ & _ & ?); congruence]. destruct Hlv as [[? _] _]. lia. Qed.

Lemma split_unalloc d : rng k d → d / 2 = c → ab s k d = false.
Proof.
  intros Hrd Hd. destruct (ab s k d) eqn:E; [|done]. destruct (split_absent d Hd). by eapply inv_exi.
Qed.

Lemma split_free j d :
  rng j d → ad j d ∈ fupd fl k (ad k (2 * c + 1) :: fl k) j ↔ exi s2 j d ∧ ab s2 j d = false.
Proof.
  intros Hrj. rewrite (split_exi _ _ Hrj), (ch_ab _ _ _ _ Hch) by eauto with buddy.
  pose proof (inv_free _ _ _ HI _ _ Hrj) as HF. unfold fupd, upd.
  destruct (decide (j = k)) as [->|Hne]; [|rewrite decide_False by naive_solver; naive_solver].
  rewrite elem_of_cons, HF. destruct (decide (d = 2 * c)) as [->|Hne].
  - rewrite decide_True by done. split; [|by intros [_ ?]].
    intros [?%ad_inj|[Hx _]]; [lia|]. destruct (split_absent (2 * c)); [zdm|done].
  - rewrite decide_False by naive_solver. split.
    + intros [->%ad_inj|[? ?]]; [|auto]. split; [right; split; [done|zdm]|].
      apply split_unalloc; [done|zdm].
    + intros [[?|[_ Hd]] ?]; [auto|]. left. f_equal. zdm.
Qed.

Lemma split_inv m' :
  Lists (hd s) m' (fupd fl k (ad k (2 * c + 1) :: fl k)) →
  Inv s2 m' (fupd fl k (ad k (2 * c + 1) :: fl k)).
Proof.
  intros HL. pose proof Hch as [Hok Hhd Hab Hsb]. pose proof Hlv as (Hr & Ha & Hs).
  destruct (rng_down _ _ Hr) as [Hr0 Hr1]. split.
  - done.
  - by eapply Lists_ext.
  - apply split_free.
  - intros j z Hj Hz. unfold fupd in Hz. case_decide; [subst|by eapply inv_addr].
    apply elem_of_cons in Hz as [->|Hz]; [eauto|by eapply inv_addr].
  - intros j d Hrj. rewrite (split_exi _ _ Hrj), Hab by eauto with buddy. unfold upd.
    case_decide as Hd; [destruct Hd as [-> ->]; right; split; [done|zdm]|].
    left. by eapply inv_exi.
  - intros j d Hrj. rewrite Hsb, Hab by eauto with buddy. unfold upd.
    destruct (decide (j = S k ∧ d = c)) as [[-> ->]|]; case_decide; try done.
    by eapply inv_split.
  - intros j d Hrj Hj. rewrite (split_exi _ _ Hrj), !Hab by eauto using rng_buddy with buddy.
    intros [Hx|[-> Hd]].
    + destruct (inv_pair _ _ _ HI _ _ Hrj Hj Hx); unfold upd; repeat case_decide; auto.
    + destruct (half_cases (2 * c) d) as [<-| ->]; [zdm|left; apply upd_eq|right; apply upd_eq].
  - intros j h'. rewrite Hhd. intros Hj.
    destruct (inv_heads _ _ _ HI _ _ Hj) as (d & Hrd & Had & Hin').
    exists d. split; [done|]. split; [|done]. rewrite Hab by eauto with buddy.
    unfold upd. by case_decide.
Qed.

Lemma split_live j d : live s2 j d ↔ (live s j d ∧ ¬ (j = S k ∧ d = c)) ∨ (j = k ∧ d = 2 * c).
Proof.
  pose proof Hch as [Hok Hhd Hab Hsb]. pose proof Hlv as (Hr & Ha & Hs).
  destruct (rng_down _ _ Hr) as [Hr0 Hr1]. unfold live. split.
  - intros (Hrj & Haj & Hsj). rewrite Hab in Haj by eauto with buddy.
    rewrite Hsb in Hsj by eauto with buddy. unfold upd in *.
    repeat case_decide; naive_solver.
  - intros [[(Hrj & Haj & Hsj) Hne]|[-> ->]].
    + rewrite Hab, Hsb, (upd_ne (sb s)) by eauto with buddy. unfold upd. case_decide; auto.
    + split; [done|]. rewrite Hab, upd_eq, Hsb, upd_ne by (eauto with buddy || lia).
      split; [done|]. eapply unalloc_unsplit; [done..|]. apply split_unalloc; [done|zdm].
Qed.
End split.

Lemma split_bits s m fl k c :
  Inv s m fl → rng (S k) c →
  ∃ s1 s2, set_split s (S k) c true = Done s1 ∧ set_alloc s1 k (2 * c) true = Done s2 ∧
    changed s s2 (upd (ab s) k (2 * c) true) (upd (sb s) (S k) c true).
Proof.
  intros HI Hr. destruct (rng_down _ _ Hr) as [Hr0 _]. assert (HkN : (S k ≤ N)%nat) by apply Hr.
  destruct (set_split_spec _ _ (S k) c true (inv_ok _ _ _ HI) ltac:(lia) (proj2 Hr))
    as (s1 & Hset1 & Hok1 & Hhd1 & Hsb1 & Hab1).
  destruct (set_alloc_spec _ _ k (2 * c) true Hok1 ltac:(lia) (proj2 Hr0))
    as (s2 & Hset2 & Hok2 & Hhd2 & Hab2 & Hsb2).
  exists s1, s2. split_and!; [done|done|]. split; [done|intros; by rewrite Hhd2, Hhd1| |].
  - intros j d Hd. rewrite Hab2 by done. unfold upd. by rewrite Hab1.
  - intros j d Hd. by rewrite Hsb2, Hsb1.
Qed.

Lemma split_step s m fl k c h :
  Inv s m fl → live s (S k) c → hd s k = Some h →
  ∃ m' s1 s2, set_split s (S k) c true = Done s1 ∧ set_alloc s1 k (2 * c) true = Done s2 ∧
    RawList.push m h (ad k (2 * c + 1)) = Done m' ∧ (∀ j, hd s2 j = hd s j) ∧
    Inv s2 m' (fupd fl k (ad k (2 * c + 1) :: fl k)) ∧
    ∀ j d, live s2 j d ↔ (live s j d ∧ ¬ (j = S k ∧ d = c)) ∨ (j = k ∧ d = 2 * c).
Proof.
  intros HI Hlv Hh. pose proof (proj1 Hlv) as Hr.
  assert (Hin : inblk (S k) c (ad k (2 * c + 1))).
  { apply inblk_ad; [apply Hr|]. unfold ad. rewrite !blk_size_P, P_S.
    pose proof (P_pos k). lia. }
  destruct (Lists_push _ _ _ k h (ad k (2 * c + 1)) (inv_lists _ _ _ HI) Hh)
    as (m' & Hpush & HL).
  { intros j hj Hj Hin'. apply elem_of_cons in Hin' as [Heq|Hin'].
    - rewrite Heq in Hin. by apply (live_no_head _ _ _ _ _ _ _ HI Hlv Hj) in Hin.
    - by eapply (live_not_free s m fl (S k) c); [..|eapply hd_rng|]. }
  destruct (split_bits s m fl k c HI Hr) as (s1 & s2 & H1 & H2 & Hch).
  exists m', s1, s2. split_and!; [done|done|done|apply Hch|by eapply split_inv|by eapply split_live].
Qed.

(** *** Merging a live block with its free buddy *)
Section merge.
Variables (s s2 : list SzInfo) (m : memory) (fl : nat → list Z) (k : nat) (c : Z) (l1 l2 : list Z).
Hypothesis HI : Inv s m fl.
Hypothesis Hlv : live s k c.
Hypothesis Hk : (k < N)%nat.
Hypothesis Hbd : ab s k (buddy c) = false.
Hypothesis Hfl : fl k = l1 ++ ad k (buddy c) :: l2.
Hypothesis Hch : changed s s2 (upd (ab s) k c false) (upd (sb s) (S k) (c / 2) false).

Lemma merge_exi j d : rng j d → exi s2 j d ↔ exi s j d ∧ ¬ (j = k ∧ d / 2 = c / 2).
Proof.
  intros [_ Hd]. unfold exi. rewrite (ch_sb _ _ _ _ Hch) by (apply Z.div_pos; lia). unfold upd.
  case_decide as Hjd.
  - destruct Hjd as [[= ->] ?]. split; [intros [?|?]; [lia|done]|intros [_ []]; done].
  - split; [|tauto]. intros Hx. split; [done|]. naive_solver.
Qed.

Lemma merge_free j d :
  rng j d → ad j d ∈ fupd fl k (l1 ++ l2) j ↔ exi s2 j d ∧ ab s2 j d = false.
Proof.
  intros Hrj. rewrite (merge_exi _ _ Hrj), (ch_ab _ _ _ _ Hch) by eauto with buddy.
  assert (Hnotin : ad k (buddy c) ∉ l1 ++ l2).
  { pose proof (fl_nodup _ _ _ k HI ltac:(lia)) as Hnd. rewrite Hfl in Hnd.
    apply NoDup_app in Hnd as (_ & Hd1 & Hnd). apply NoDup_cons in Hnd as [Hd2 _].
    clear -Hd1 Hd2. set_solver. }
  pose proof (inv_free _ _ _ HI _ _ Hrj) as HF. unfold fupd, upd.
  destruct (decide (j = k)) as [->|Hne]; [|rewrite decide_False by naive_solver; naive_solver].
  destruct (decide (d = c)) as [->|Hdc].
  { rewrite decide_True by done. split; [|naive_solver]. intros Hx.
    assert (ad k c ∈ fl k) as Hx' by (rewrite Hfl; clear -Hx; set_solver).
    apply HF in Hx' as [_ ?]. destruct Hlv as (_ & ? & _). congruence. }
  rewrite decide_False by naive_solver. destruct (decide (d = buddy c)) as [->|Hdb].
  { split; [done|]. intros [[_ []] _]. split; [done|apply buddy_half]. }
  assert (ad k d ∈ l1 ++ l2 ↔ ad k d ∈ fl k) as ->.
  { rewrite Hfl, !elem_of_app, elem_of_cons. split; [tauto|].
    intros [?|[?%ad_inj|?]]; [tauto|done|tauto]. }
  rewrite HF. split; [|tauto]. intros [? ?]. split; [|done]. split; [done|].
  intros [_ Hd]. by apply half_cases in Hd as [?|?].
Qed.

Lemma merge_inv m' :
  (∀ j hj, hd s j = Some hj → ¬ inblk k c hj) →
  Lists (hd s) m' (fupd fl k (l1 ++ l2)) → Inv s2 m' (fupd fl k (l1 ++ l2)).
Proof.
  intros Hres HL. pose proof Hch as [Hok Hhd Hab Hsb]. destruct Hlv as (Hr & Ha & Hs). split.
  - done.
  - by eapply Lists_ext.
  - apply merge_free.
  - intros j z Hj Hz. eapply inv_addr; [done..|]. unfold fupd in Hz.
    case_decide; [subst; rewrite Hfl; clear -Hz; set_solver|done].
  - intros j d Hrj. rewrite (merge_exi _ _ Hrj), Hab by eauto with buddy. unfold upd.
    case_decide as Hd; [done|]. intros Haj. split; [by eapply inv_exi|].
    intros [-> [->| ->]%half_cases]; [naive_solver|congruence].
  - intros j d Hrj. rewrite Hsb, Hab by eauto with buddy. unfold upd.
    destruct (decide (j = S k ∧ d = c / 2)); [done|]. intros Hsj.
    case_decide as Hd; [destruct Hd; congruence|]. by eapply inv_split.
  - intros j d Hrj Hj. rewrite (merge_exi _ _ Hrj), !Hab by eauto using rng_buddy with buddy.
    intros [Hx Hne]. rewrite !upd_ne; [by eapply inv_pair|..].
    + intros [-> Hd]. apply Hne. split; [done|]. by rewrite <-Hd, buddy_half.
    + intros [-> ->]. by apply Hne.
  - intros j h'. rewrite Hhd. intros Hj.
    destruct (inv_heads _ _ _ HI _ _ Hj) as (d & Hrd & Had & Hin').
    exists d. split; [done|]. split; [|done]. rewrite Hab by eauto with buddy.
    rewrite upd_ne; [done|]. intros [<- ->]. by destruct (Hres _ _ Hj).
Qed.

Lemma merge_live j d : live s2 j d ↔ (live s j d ∧ ¬ (j = k ∧ d = c)) ∨ (j = S k ∧ d = c / 2).
Proof.
  pose proof Hch as [Hok Hhd Hab Hsb]. pose proof Hlv as (Hr & Ha & Hs).
  pose proof (rng_up _ _ Hr Hk) as Hru.
  destruct (live_exi _ _ _ _ _ HI Hlv) as [?|He]; [lia|]. unfold live. split.
  - intros (Hrj & Haj & Hsj). rewrite Hab in Haj by eauto with buddy.
    rewrite Hsb in Hsj by eauto with buddy. unfold upd in *.
    repeat case_decide; naive_solver.
  - intros [[(Hrj & Haj & Hsj) Hne]|[-> ->]].
    + rewrite Hab, Hsb, upd_ne by eauto with buddy. unfold upd. case_decide; auto.
    + split; [done|]. rewrite Hab, upd_ne, Hsb, upd_eq by (eauto with buddy || lia).
      split; [|done]. by eapply inv_split.
Qed.
End merge.

Lemma merge_bits s m fl k c :
  Inv s m fl → rng k c → (k < N)%nat → ab s k (buddy c) = false →
  ∃ s1 s2, set_alloc s k c false = Done s1 ∧ ab s1 k (buddy c) = false ∧
    set_split s1 (S k) (c / 2) false = Done s2 ∧
    changed s s2 (upd (ab s) k c false) (upd (sb s) (S k) (c / 2) false).
Proof.
  intros HI Hr Hk Hbd. pose proof (rng_up _ _ Hr Hk) as Hru. pose proof (rng_buddy _ _ Hr Hk) as Hrb.
  assert (Hbc : buddy c ≠ c) by (unfold buddy; case_decide; lia).
  destruct (set_alloc_spec _ _ k c false (inv_ok _ _ _ HI) ltac:(lia) (proj2 Hr))
    as (s1 & Hset1 & Hok1 & Hhd1 & Hab1 & Hsb1).
  destruct (set_split_spec _ _ (S k) (c / 2) false Hok1 ltac:(lia) (proj2 Hru))
    as (s2 & Hset2 & Hok2 & Hhd2 & Hsb2 & Hab2).
  exists s1, s2. split_and!; [done| |done|].
  - rewrite Hab1, upd_ne by (eauto with buddy || naive_solver). done.
  - split; [done|intros; by rewrite Hhd2, Hhd1| |].
    + intros j d Hd. by rewrite Hab2, Hab1.
    + intros j d Hd. rewrite Hsb2 by done. unfold upd. by rewrite Hsb1.
Qed.

Lemma merge_step s m fl k c :
  Inv s m fl → live s k c → (k < N)%nat →
  (∀ j hj, hd s j = Some hj → ¬ inblk k c hj) →
  ab s k (buddy c) = false →
  ∃ m' s1 s2 fl', set_alloc s k c false = Done s1 ∧ ab s1 k (buddy c) = false ∧
    RawList.remove m (ad k (buddy c)) = Done m' ∧ set_split s1 (S k) (c / 2) false = Done s2 ∧
    (∀ j, hd s2 j = hd s j) ∧ Inv s2 m' fl' ∧
    ∀ j d, live s2 j d ↔ (live s j d ∧ ¬ (j = k ∧ d = c)) ∨ (j = S k ∧ d = c / 2).
Proof.
  intros HI Hlv Hk Hres Hbd. pose proof (proj1 Hlv) as Hr.
  destruct (live_exi _ _ _ _ _ HI Hlv) as [?|He]; [lia|]. pose proof (rng_buddy _ _ Hr Hk) as Hrb.
  assert (Hbin : ad k (buddy c) ∈ fl k).
  { apply (inv_free _ _ _ HI _ _ Hrb). split; [|done]. right. by rewrite buddy_half. }
  destruct (list_elem_of_split _ _ Hbin) as (l1 & l2 & Hfl).
  destruct (rng_hd _ _ _ k HI ltac:(lia)) as [h Hh].
  destruct (Lists_remove _ _ _ k h l1 (ad k (buddy c)) l2 (inv_lists _ _ _ HI) Hh Hfl)
    as (m' & Hrem & HL).
  destruct (merge_bits s m fl k c HI Hr Hk Hbd) as (s1 & s2 & H1 & H2 & H3 & Hch).
  exists m', s1, s2, (fupd fl k (l1 ++ l2)).
  split_and!; [done|done|done|done|apply Hch|by eapply merge_inv|by eapply merge_live].
Qed.
End tree.

(** ** The loops of [alloc_] and [dealloc] *)
Section loops.
Variable b : BuddyAllocator.
Let B := base b.
Let N := max_size b.
Local Abbreviation ad := (ad B).
Local Abbreviation Inv := (Inv B N).
Local Abbreviation live := (live N).

Lemma blk_index_ok k x : B ≤ x → blk_index b k x = Done ((x - B) / blk_size k).
Proof. intros H. unfold blk_index. by rewrite checked_sub_ok. Qed.

Lemma blk_index_ad k c : 0 ≤ c → blk_index b k (ad k c) = Done c.
Proof.
  intros Hc. pose proof (blk_size_pos k). rewrite blk_index_ok by (unfold BuddyInv.ad; nia).
  f_equal. unfold BuddyInv.ad. rewrite Z.add_simpl_l. apply Z.div_mul. lia.
Qed.

Lemma ad_S k c : ad (S k) c = ad k (2 * c).
Proof. unfold BuddyInv.ad. rewrite !blk_size_P, P_S. lia. Qed.

Lemma push_free_ok m s k h x :
  hd s k = Some h → push_free m s k x = RawList.push m h x.
Proof.
  unfold hd, push_free. destruct (s !! k) eqn:E; [|done]. intros [= <-].
  by rewrite (get_size_ok _ _ _ E).
Qed.

(** The live blocks are those of [L] and the block [(k, c)], which is not in [L]. *)
Definition live_is (s : list SzInfo) (L : nat → Z → Prop) (k : nat) (c : Z) : Prop :=
  (∀ j d, live s j d ↔ L j d ∨ (j = k ∧ d = c)) ∧ ¬ L k c.

Lemma live_is_live s L k c : live_is s L k c → live s k c.
Proof. intros [H _]. apply H. auto. Qed.

Lemma split_down_spec L fk k c s m fl :
  Inv s m fl → live_is s L k c → (fk ≤ k)%nat →
  ∃ s' m' fl', split_down b fk k (ad k c) s m = Done (s', m') ∧
    ad fk (c * P (k - fk)) = ad k c ∧ Inv s' m' fl' ∧ live_is s' L fk (c * P (k - fk)).
Proof.
  revert c s m fl. induction k as [|k IH]; intros c s m fl HI HL Hle.
  { assert (fk = 0%nat) as -> by lia. simpl. rewrite Z.mul_1_r. eauto 10. }
  cbn [split_down]. destruct (decide (fk < S k)%nat) as [Hlt|Hge]; cycle 1.
  { assert (fk = S k) as -> by lia. rewrite Nat.sub_diag, Z.mul_1_r. eauto 10. }
  pose proof (live_is_live _ _ _ _ HL) as Hlv. pose proof Hlv as (Hr & _ & Hs).
  pose proof (rng_nonneg _ _ _ Hr) as Hc.
  destruct (rng_hd B N s m fl k HI) as [h Hh]; [destruct Hr; lia|].
  destruct (split_step _ _ _ _ _ _ _ _ HI Hlv Hh)
    as (m' & s1 & s2 & H1 & H2 & H3 & Hhd & HI' & Hlv').
  rewrite blk_index_ad by done. simpl. rewrite H1. simpl.
  rewrite ad_S, blk_index_ad by lia. simpl. rewrite H2. simpl.
  rewrite (push_free_ok _ _ _ h) by (by rewrite Hhd).
  replace (ad k (2 * c) + blk_size k) with (ad k (2 * c + 1)) by (unfold BuddyInv.ad; lia).
  rewrite H3. simpl.
  assert (Hnl : ¬ live s k (2 * c)).
  { intros Hl. destruct (live_exi _ _ _ _ _ _ _ HI Hl) as [Heq|Hx]; [destruct Hr; lia|].
    rewrite (Z.mul_comm 2), Z.div_mul in Hx by lia. congruence. }
  destruct HL as [HL HnL].
  destruct (IH (2 * c) s2 m' _ HI') as (s' & m'' & fl' & Hd & Had & HI'' & HL'').
  { split.
    - intros j d. rewrite Hlv', HL. split; [tauto|]. intros [Hj|Hj]; [left|auto].
      split; [auto|]. intros [-> ->]. done.
    - intros HLk. apply Hnl, HL. auto. }
  { lia. }
  exists s', m'', fl'.
  replace (c * P (S k - fk)) with (2 * c * P (k - fk))
    by (replace (S k - fk)%nat with (S (k - fk)) by lia; rewrite P_S; lia).
  split_and!; [done|by rewrite Had|done..].
Qed.

(** The loop of [dealloc] together with the push after it. *)
Definition free_up (n k : nat) (p : Z) (s : list SzInfo) (m : memory)
    : outcome (list SzInfo * memory) :=
  '(fk', p', s', m') ← merge_up b n k k p s m;
  m'' ← push_free m' s' fk' p';
  Done (s', m'').

Definition no_head (s : list SzInfo) (k : nat) (c : Z) : Prop :=
  ∀ j hj, hd s j = Some hj → ¬ inblk B k c hj.

(** The root is not live while another block is. *)
Lemma root_not_alone s m fl c k2 c2 :
  Inv s m fl → live s N c → live s k2 c2 → k2 = N ∧ c2 = c.
Proof.
  intros HI (Hr & _ & Hs) Hl2. pose proof (live_exi _ _ _ _ _ _ _ HI Hl2) as He.
  pose proof Hl2 as (Hr2 & _ & Hs2). assert (Hx : inblk B k2 c2 (ad k2 c2)).
  { apply inblk_self. apply Hr2. }
  assert (Hx' := Hx). apply (inblk_up _ _ _ _ (N - k2)) in Hx'.
  destruct Hr2 as [Hle Hr2]. replace (k2 + (N - k2))%nat with N in Hx' by lia.
  assert (Hc : c2 / P (N - k2) = c).
  { rewrite Z.div_small by lia. destruct Hr as [_ Hr]. rewrite Nat.sub_diag in Hr.
    change (P 0) with 1 in Hr. lia. }
  rewrite Hc in Hx'. eapply leaf_unique_le; eauto. by split.
Qed.

Lemma free_up_spec L n k c s m fl k2 c2 :
  Inv s m fl → live_is s L k c → n = (N - k)%nat → no_head s k c → L k2 c2 →
  ∃ s' m' fl', free_up n k (ad k c) s m = Done (s', m') ∧ Inv s' m' fl' ∧
    ∀ j d, live s' j d ↔ L j d.
Proof.
  revert k c s m fl. induction n as [|n IH]; intros k c s m fl HI HL Hn Hh HL2.
  - exfalso. pose proof (live_is_live _ _ _ _ HL) as Hlv. destruct HL as [HL HnL].
    assert (k = N) as -> by (destruct Hlv as [[] _]; lia).
    destruct (root_not_alone s m fl c k2 c2) as [-> ->]; [done|done|apply HL; auto|done].
  - pose proof (live_is_live _ _ _ _ HL) as Hlv. pose proof Hlv as (Hr & Ha & Hs).
    pose proof (rng_nonneg _ _ _ Hr) as Hc. assert (HkN : (k < N)%nat) by lia.
    pose proof (rng_buddy _ _ _ Hr HkN) as Hrb.
    destruct (rng_hd B N s m fl k HI ltac:(lia)) as [h Hhk].
    destruct HL as [HL HnL]. unfold free_up. cbn [merge_up].
    rewrite blk_index_ad by done. cbn [mbind outcome_bind].
    destruct (ab s k (buddy c)) eqn:Eb.
    + destruct (free_step _ _ _ _ _ _ _ _ HI Hlv HkN Hhk Hh Eb)
        as (m' & s' & H1 & H2 & Hhd & HI' & Hlv').
      destruct (set_alloc_spec N s k c false (inv_ok _ _ _ _ _ HI) ltac:(lia) (proj2 Hr))
        as (s'' & H1' & Hok & _ & Hab & _). rewrite H1 in H1'. injection H1' as <-.
      rewrite H1. simpl. destruct (sizes_ok_lookup _ _ k Hok ltac:(lia)) as [i Hi].
      rewrite (get_size_ok _ _ _ Hi). simpl.
      assert (Hbit : bit_isset (alloc i) (buddy c) = true).
      { pose proof (Hab k (buddy c) (rng_nonneg _ _ _ Hrb)) as Hb. unfold ab in Hb at 1.
        rewrite Hi, upd_ne in Hb; [by rewrite Hb|]. intros [_ Hbc].
        unfold buddy in Hbc. case_decide; lia. }
      rewrite Hbit. simpl. rewrite (push_free_ok _ _ _ h) by (by rewrite Hhd).
      rewrite H2. simpl. eexists _, _, _. split; [done|]. split; [done|].
      intros j d. rewrite Hlv', HL. split; [tauto|]. intros Hj. split; [auto|].
      intros [-> ->]. done.
    + destruct (merge_step _ _ _ _ _ _ _ HI Hlv HkN Hh Eb)
        as (m' & s1 & s2 & fl' & H1 & Hb1 & H2 & H3 & Hhd & HI' & Hlv').
      rewrite H1. simpl.
      destruct (s1 !! k) as [i|] eqn:Hi; cycle 1.
      { pose proof H1 as H1'. unfold set_alloc in H1'. inv_done.
        apply lookup_ge_None in Hi. rewrite length_insert in Hi.
        destruct (sizes_ok_lookup _ _ k (inv_ok _ _ _ _ _ HI) ltac:(lia)) as [i Hi'].
        apply lookup_lt_Some in Hi'. lia. }
      rewrite (get_size_ok _ _ _ Hi). simpl. unfold ab in Hb1. rewrite Hi in Hb1.
      rewrite Hb1. simpl. change (addr b k (buddy c)) with (ad k (buddy c)).
      rewrite H2. simpl.
      set (p1 := if decide (buddy c `mod` 2 = 0) then ad k (buddy c) else ad k c).
      assert (p1 = ad (S k) (c / 2)) as ->.
      { unfold p1. rewrite ad_S. unfold buddy. repeat case_decide; f_equal; zdm. }
      rewrite blk_index_ad by (apply Z.div_pos; lia). simpl. rewrite H3. simpl.
      apply (IH (S k) (c / 2) s2 m' fl' HI'); [split|lia| |done].
      * intros j d. rewrite Hlv', HL. split; [tauto|]. intros [Hj|Hj]; [left|auto].
        split; [auto|]. intros [-> ->]. done.
      * intros HLk. assert (Hl : live s (S k) (c / 2)) by (apply HL; auto).
        destruct Hl as (_ & _ & Hsp). destruct (live_exi _ _ _ _ _ _ _ HI Hlv) as [?|?]; [lia|].
        congruence.
      * intros j hj Hj Hin. eapply (live_no_head _ _ s2 m' fl' (S k) (c / 2)) in Hin; [lia|done| |done].
        apply Hlv'. auto.
Qed.

(** [size] finds the size of a live block from its address alone. *)
Lemma size_loop_spec s m fl k c j :
  Inv s m fl → live s k c → (j ≤ k < N)%nat →
  size_loop b (drop (S j) s) j (ad k c) = Done k.
Proof.
  intros HI Hlv Hj. pose proof (live_exi _ _ _ _ _ _ _ HI Hlv) as He.
  pose proof Hlv as (Hr & Ha & Hs). pose proof (rng_nonneg _ _ _ Hr) as Hc.
  remember (k - j)%nat as n eqn:Hn. revert j Hj Hn.
  induction n as [|n IH]; intros j Hj Hn;
    destruct (sizes_ok_lookup _ _ (S j) (inv_ok _ _ _ _ _ HI) ltac:(lia)) as [i Hi];
    rewrite (drop_S _ _ _ Hi); cbn [size_loop];
    (rewrite blk_index_ok by (unfold BuddyInv.ad; pose proof (blk_size_pos k); nia)); simpl.
  - assert (j = k) as -> by lia. destruct He as [?|He]; [lia|].
    unfold sb in He. rewrite Hi in He.
    assert (Hup : inblk B (S k) (c / 2) (ad k c)).
    { replace (S k) with (k + 1)%nat by lia. apply (inblk_up _ _ _ _ 1), inblk_self. done. }
    destruct Hup as [_ ->]. by rewrite He.
  - set (d := (ad k c - B) / blk_size (S j)).
    assert (Hx : inblk B (S j) d (ad k c)).
    { split; [unfold BuddyInv.ad; pose proof (blk_size_pos k); nia|done]. }
    assert (Hd : d = c * P (k - S j)).
    { unfold d, BuddyInv.ad. rewrite Z.add_simpl_l. rewrite !blk_size_P.
      replace (P k) with (P (k - S j) * P (S j)) by (rewrite <-P_add; f_equal; lia).
      pose proof (P_pos (S j)).
      replace (c * (P (k - S j) * P (S j) * 16)) with (c * P (k - S j) * (P (S j) * 16)) by lia.
      apply Z.div_mul. lia. }
    assert (Hrd : rng N (S j) d).
    { split; [lia|]. destruct Hr as [_ Hr]. rewrite Hd.
      replace (N - S j)%nat with ((N - k) + (k - S j))%nat by lia. rewrite P_add.
      pose proof (P_pos (k - S j)). nia. }
    destruct (bit_isset (split i) d) eqn:Eb.
    + exfalso. assert (Hsb : sb s (S j) d = true) by (unfold sb; by rewrite Hi).
      pose proof (inv_split _ _ _ _ _ HI _ _ Hrd Hsb) as Hab.
      destruct (leaf_unique_le B N s m fl (S j) k d c (ad k c)) as [Heq ->];
        eauto using inv_exi, inblk_self; [lia|]. subst. congruence.
    + apply IH; lia.
Qed.

(** The scan for the first size with a free block. *)
Lemma find_free_spec m fl l k :
  (∀ n i, l !! n = Some i → dll m (free i) (fl (k + n)%nat)) →
  ∃ k', find_free m l k = Done k' ∧ (k ≤ k' ≤ k + length l)%nat ∧
    (∀ j, (k ≤ j < k')%nat → fl j = []) ∧ ((k' < k + length l)%nat → fl k' ≠ []).
Proof.
  revert k. induction l as [|i l IH]; intros k Hl.
  - exists k. simpl. split_and!; [done|lia|lia|lia|lia].
  - cbn [find_free length]. pose proof (Hl 0%nat i eq_refl) as Hd.
    rewrite Nat.add_0_r in Hd. rewrite (is_empty_spec _ _ _ Hd). simpl.
    case_bool_decide as Hn.
    + destruct (IH (S k)) as (k' & Hf & Hle & Hlo & Hhi).
      { intros n j Hj. replace (S k + n)%nat with (k + S n)%nat by lia. by apply Hl. }
      exists k'. split_and!; [done|lia|lia| |].
      * intros j Hj. destruct (decide (j = k)) as [->|]; [done|]. apply Hlo. lia.
      * intros. apply Hhi. lia.
    + exists k. split_and!; [done|lia|lia|lia|done].
Qed.
End loops.

(** ** The allocator *)
Record wf (b : BuddyAllocator) (fl : nat → list Z) : Prop := {
  wf_nsize : (1 ≤ nsize b)%nat;
  wf_base : 0 < base b;
  wf_aligned : base b `mod` MAX_ALIGN = 0;
  wf_sizes : ∃ s, sizes b = Some s ∧ Inv (base b) (max_size b) s (heap b) fl;
}.

Definition live_blk (b : BuddyAllocator) (k : nat) (c : Z) : Prop :=
  match sizes b with Some s => live (max_size b) s k c | None => False end.

(** Block [(k, c)] holds no list head: it is not part of the allocator's own data. *)
Definition user_blk (b : BuddyAllocator) (k : nat) (c : Z) : Prop :=
  match sizes b with Some s => no_head b s k c | None => False end.

Lemma alloc_spec b fl layout :
  let fk := firstk (size_ layout) in
  wf b fl → (fk ≤ nsize b)%nat → align layout ≤ MAX_ALIGN →
  (alloc_ b layout = Done (b, None) ∧ ∀ k, (fk ≤ k < nsize b)%nat → fl k = []) ∨
  ∃ b' fl' c, alloc_ b layout = Done (b', Some (addr b fk c)) ∧ wf b' fl' ∧
    (base b' = base b ∧ nsize b' = nsize b ∧ end_ b' = end_ b) ∧
    rng (max_size b) fk c ∧ ¬ live_blk b fk c ∧
    ∀ j d, live_blk b' j d ↔ live_blk b j d ∨ (j = fk ∧ d = c).
Proof.
  intros fk [Hns Hbase Hba (s & Hs & HI)] Hfk Hal. unfold alloc_. rewrite Hs.
  rewrite decide_False by lia. fold fk.
  pose proof (proj1 (inv_ok _ _ _ _ _ HI)) as Hlen.
  assert (HlenN : length s = nsize b) by (unfold max_size in Hlen; lia).
  unfold slice_from. rewrite decide_True by lia. simpl.
  destruct (find_free_spec b (heap b) fl (take (nsize b - fk) (drop fk s)) fk)
    as (k & Hf & Hle & Hlo & Hhi).
  { intros n i Hi. apply (ls_dll _ _ _ (inv_lists _ _ _ _ _ HI)).
    apply lookup_take_Some in Hi as [Hi _]. rewrite lookup_drop in Hi. unfold hd. by rewrite Hi. }
  rewrite length_take, length_drop, HlenN in Hle, Hhi.
  rewrite Hf. simpl. destruct (decide (nsize b ≤ k)%nat) as [Hk|Hk].
  { left. split; [done|]. intros j Hj. apply Hlo. lia. }
  right. assert (HkN : (k ≤ max_size b)%nat) by (unfold max_size; lia).
  destruct (rng_hd _ _ _ _ _ k HI HkN) as [h Hh].
  destruct (fl k) as [|z l] eqn:Hfl; [by destruct Hhi; [lia|]|].
  destruct (pop_step _ _ _ _ _ _ _ _ _ HI HkN Hh Hfl)
    as (c & m' & s' & Hr & -> & He & Ha & Hpop & Hset & HI' & Hlv).
  unfold hd in Hh. destruct (s !! k) as [i|] eqn:Hi; [|done]. injection Hh as <-.
  rewrite (get_size_ok _ _ _ Hi). simpl. rewrite Hpop. simpl.
  rewrite blk_index_ad by (by eapply rng_nonneg). simpl. rewrite Hset. simpl.
  assert (Hnl : ¬ live (max_size b) s k c) by (intros (_ & ? & _); congruence).
  destruct (split_down_spec b (live (max_size b) s) fk k c s' m' _ HI')
    as (s'' & m'' & fl'' & Hsd & Had & HI'' & Hlv'' & Hnl''); [by split|lia|].
  rewrite Hsd. simpl. rewrite decide_False.
  2: { unfold ad. pose proof (blk_size_pos k). pose proof (rng_nonneg _ _ _ Hr). nia. }
  exists (set_sizes b s'' m''), fl'', (c * P (k - fk)).
  assert (Hl'' : live (max_size b) s'' fk (c * P (k - fk))) by (apply Hlv''; auto).
  split_and!; try done.
  - by rewrite <-Had.
  - split; [done..|]. exists s''. done.
  - apply Hl''.
  - unfold live_blk. by rewrite Hs.
  - unfold live_blk. rewrite Hs. apply Hlv''.
Qed.

Lemma size_spec b fl k c :
  wf b fl → live_blk b k c → (k < max_size b)%nat → size b (addr b k c) = Done k.
Proof.
  intros [_ _ _ (s & Hs & HI)] Hlv Hk. unfold live_blk in Hlv. rewrite Hs in Hlv.
  unfold size. rewrite Hs. by eapply (size_loop_spec b s (heap b) fl k c 0); [..|lia].
Qed.

(** The memory of the list heads is live, so some block other than a user's is. *)
Lemma head_block b fl :
  wf b fl → ∃ c, live_blk b 0 c ∧ ¬ user_blk b 0 c.
Proof.
  intros [_ _ _ (s & Hs & HI)].
  destruct (rng_hd _ _ _ _ _ 0 HI ltac:(lia)) as [h Hh].
  destruct (inv_heads _ _ _ _ _ HI _ _ Hh) as (c & Hr & Ha & Hin). exists c.
  unfold live_blk, user_blk. rewrite Hs. split; [|intros Hu; by apply (Hu _ _ Hh)].
  split_and!; [done..|]. destruct (sizes_ok_lookup _ _ 0 (inv_ok _ _ _ _ _ HI)) as [i Hi]; [lia|].
  unfold sb. rewrite Hi. destruct (proj2 (inv_ok _ _ _ _ _ HI) _ _ Hi) as [_ Hs0].
  simpl in Hs0. by rewrite Hs0.
Qed.

Lemma dealloc_spec b fl layout k c :
  wf b fl → live_blk b k c → user_blk b k c →
  ∃ b' fl', dealloc b (addr b k c) layout = Done b' ∧ wf b' fl' ∧
    (base b' = base b ∧ nsize b' = nsize b ∧ end_ b' = end_ b) ∧
    ∀ j d, live_blk b' j d ↔ live_blk b j d ∧ ¬ (j = k ∧ d = c).
Proof.
  intros Hwf Hlv Hus. destruct (head_block _ _ Hwf) as (c2 & Hlv2 & Hnu).
  assert (Hne : ¬ (0%nat = k ∧ c2 = c)) by (by intros [<- ->]).
  pose proof Hwf as [Hns Hbase Hba (s & Hs & HI)].
  assert (Hk : (k < max_size b)%nat).
  { unfold live_blk in Hlv, Hlv2. rewrite Hs in Hlv, Hlv2.
    assert ((k ≤ max_size b)%nat) by apply Hlv.
    destruct (decide (k = max_size b)) as [->|]; [|lia].
    destruct Hne. by apply (root_not_alone b s (heap b) fl c 0 c2 HI Hlv Hlv2). }
  unfold dealloc. rewrite (size_spec _ _ _ _ Hwf Hlv Hk). simpl. rewrite Hs.
  unfold live_blk in Hlv, Hlv2. unfold user_blk in Hus. rewrite Hs in Hlv, Hlv2, Hus.
  destruct (free_up_spec b (λ j d, live (max_size b) s j d ∧ ¬ (j = k ∧ d = c))
              (max_size b - k) k c s (heap b) fl 0%nat c2 HI)
    as (s' & m' & fl' & Hup & HI' & Hlv'); [|done|done|done|].
  { split; [|tauto]. intros j d. split; [|by intros [[? _]|[-> ->]]].
    intros Hj. destruct (decide (j = k ∧ d = c)); auto. }
  unfold free_up in Hup. change (ad (base b) k c) with (addr b k c) in Hup.
  destruct (merge_up b (max_size b - k) k k (addr b k c) s (heap b)) as [[[[fk' p'] s1] m1]| |];
    simplify_eq/=.
  destruct (push_free m1 s1 fk' p') as [m2| |] eqn:Hp; simplify_eq/=.
  eexists _, fl'. split_and!; [done| |done..|].
  - split; [done..|]. exists s'. done.
  - unfold live_blk. simpl. by rewrite Hs.
Qed.

(** ** The list heads never move *)
Lemma hd_fmap s k : hd s k = (free <$> s) !! k.
Proof. unfold hd. by rewrite list_lookup_fmap. Qed.

Lemma fmap_free_upd (s : list SzInfo) (k : nat) i j :
  s !! k = Some i → free j = free i → free <$> <[k := j]> s = free <$> s.
Proof.
  intros Hi Hj. rewrite list_fmap_insert, Hj. apply list_insert_id.
  by rewrite list_lookup_fmap, Hi.
Qed.

Lemma set_alloc_free s k bi v s' : set_alloc s k bi v = Done s' → free <$> s' = free <$> s.
Proof.
  unfold set_alloc, get_size. intros H. inv_done. apply index_inv in Ha as [_ Ha].
  rewrite Nat2Z.id in Ha. by eapply fmap_free_upd.
Qed.

Lemma set_split_free s k bi v s' : set_split s k bi v = Done s' → free <$> s' = free <$> s.
Proof.
  unfold set_split, get_size. intros H. inv_done. apply index_inv in Ha as [_ Ha].
  rewrite Nat2Z.id in Ha. by eapply fmap_free_upd.
Qed.

Lemma split_down_free b fk k p s m s' m' :
  split_down b fk k p s m = Done (s', m') → free <$> s' = free <$> s.
Proof.
  revert s m. induction k as [|k IH]; intros s m; simpl; [naive_solver|].
  case_decide; [|naive_solver]. intros H1. inv_done.
  apply IH in H1. apply set_split_free in Ha0. apply set_alloc_free in Ha2. congruence.
Qed.

Lemma merge_up_free b n k fk p s m fk' p' s' m' :
  merge_up b n k fk p s m = Done (fk', p', s', m') → free <$> s' = free <$> s.
Proof.
  revert k fk p s m. induction n as [|n IH]; intros k fk p s m; simpl; [naive_solver|].
  intros H. inv_done. apply set_alloc_free in Ha0. destruct (bit_isset _ _).
  - inv_done. naive_solver.
  - inv_done. apply IH in H. apply set_split_free in Ha4. congruence.
Qed.

Definition heads (b : BuddyAllocator) : option (list Z) := (λ s : list SzInfo, free <$> s) <$> sizes b.

Lemma alloc_heads b layout b' r : alloc_ b layout = Done (b', r) → heads b' = heads b.
Proof.
  unfold alloc_, heads. destruct (sizes b) as [s|] eqn:Hs; [|intros [= <- _]; by rewrite Hs].
  case_decide; [intros [= <- _]; by rewrite Hs|]. intros H1. inv_done.
  case_decide; [inv_done; by rewrite Hs|]. inv_done. case_match; inv_done; [|done].
  repeat match goal with
    | H : set_alloc _ _ _ _ = _ |- _ => apply set_alloc_free in H
    | H : split_down _ _ _ _ _ _ = _ |- _ => apply split_down_free in H
    end. congruence.
Qed.

Lemma dealloc_heads b p layout b' : dealloc b p layout = Done b' → heads b' = heads b.
Proof.
  unfold dealloc, heads. intros H. inv_done. destruct (sizes b) as [s|] eqn:Hs; inv_done; [|by rewrite Hs].
  simpl. apply merge_up_free in Ha0. congruence.
Qed.

Lemma user_blk_heads b b' k c :
  heads b' = heads b → base b' = base b → user_blk b' k c ↔ user_blk b k c.
Proof.
  unfold heads, user_blk, no_head. intros Hh ->.
  destruct (sizes b') as [s'|], (sizes b) as [s|]; simplify_eq/=; [|done].
  setoid_rewrite hd_fmap. by rewrite Hh.
Qed.
