(* ===== verification/BuddySpec.v ===== *)
(** * The contract of the buddy allocator

    [Buddy] translates [buddy.rs] and [BuddyInv] proves its invariant.  This
    file states what a client may rely on: an abstract allocator (a map from
    the addresses of live blocks to their sizes), the simulation that relates
    the code to it, a decidable check of the invariant, and the arithmetic of
    size classes. *)

From S2P Require Import Prelude IntrusiveList Buddy BuddyInv.

Open Scope Z_scope.

(** ** Size classes *)
Lemma trailing_zeros_double z : 0 < z → trailing_zeros (2 * z) = S (trailing_zeros z).
Proof. by destruct z. Qed.

Lemma trailing_zeros_pow2 n : trailing_zeros (2 ^ Z.of_nat n) = n.
Proof.
  induction n as [|n IH]; [done|].
  rewrite Nat2Z.inj_succ, Z.pow_succ_r, trailing_zeros_double by lia. by rewrite IH.
Qed.

Lemma log2_up_ge4 n : 8 < n → 4 ≤ Z.log2_up n.
Proof. intros H. apply (Z.log2_up_le_mono 9 n). lia. Qed.

Lemma firstk_log2 n : 8 < n → Z.of_nat (firstk n) = Z.log2_up n - 4.
Proof.
  intros Hn. pose proof (log2_up_ge4 n Hn) as H4. unfold firstk, next_power_of_two, LEAF_SIZE.
  rewrite decide_False by lia.
  replace (Z.log2_up n) with (Z.of_nat (Z.to_nat (Z.log2_up n - 4)) + 4) at 1 by lia.
  rewrite Z.pow_add_r by lia. change (2 ^ 4) with 16. rewrite Z.div_mul by lia.
  rewrite trailing_zeros_pow2. lia.
Qed.

Lemma blk_size_firstk n : 8 < n → blk_size (firstk n) = 2 ^ Z.log2_up n.
Proof.
  intros Hn. rewrite blk_size_P. unfold P. rewrite firstk_log2 by done.
  change 16 with (2 ^ 4). rewrite <-Z.pow_add_r; [f_equal; lia| |lia].
  pose proof (log2_up_ge4 n Hn). lia.
Qed.

Lemma firstk_fits n : 8 < n → n ≤ blk_size (firstk n).
Proof. intros Hn. rewrite blk_size_firstk by done. apply Z.log2_log2_up_spec. lia. Qed.

Lemma firstk_least n k : 8 < n → n ≤ blk_size k → (firstk n ≤ k)%nat.
Proof.
  intros Hn Hk. rewrite blk_size_P in Hk. unfold P in Hk.
  assert (Z.log2_up n ≤ Z.of_nat k + 4); [|pose proof (firstk_log2 n Hn); lia].
  apply Z.log2_up_le_pow2; [lia|]. rewrite Z.pow_add_r by lia. done.
Qed.

Lemma firstk_zero n : n ≤ 8 → firstk n = 64%nat.
Proof.
  intros Hn. unfold firstk, next_power_of_two, LEAF_SIZE. case_decide; [done|].
  rewrite Z.div_small; [done|]. split; [apply Z.pow_nonneg; lia|].
  apply Z.le_lt_trans with (2 ^ 3); [|lia]. apply Z.pow_le_mono_r; [lia|].
  apply (Z.log2_up_le_pow2 n 3); lia.
Qed.

(** ** Live blocks *)
Definition disjoint_ranges (p sz q szq : Z) : Prop := p + sz ≤ q ∨ q + szq ≤ p.

Lemma live_disjoint b fl k c j d :
  wf b fl → live_blk b k c → live_blk b j d → ¬ (k = j ∧ c = d) →
  disjoint_ranges (addr b k c) (blk_size k) (addr b j d) (blk_size j).
Proof.
  intros [_ _ _ (s & Hs & HI)] Hk Hj Hne. unfold live_blk in *. rewrite Hs in *.
  pose proof (live_exi _ _ _ _ _ _ _ HI Hk) as Hek. pose proof (live_exi _ _ _ _ _ _ _ HI Hj) as Hej.
  destruct Hk as (Hrk & _ & Hsk), Hj as (Hrj & _ & Hsj).
  pose proof (blk_size_pos k). pose proof (blk_size_pos j).
  destruct (decide (disjoint_ranges (addr b k c) (blk_size k) (addr b j d) (blk_size j))) as [|Ho];
    [done|].
  destruct Hne. unfold disjoint_ranges in Ho. set (x := Z.max (addr b k c) (addr b j d)).
  apply (leaf_unique (base b) (max_size b) s (heap b) fl k j c d x); try done;
    apply inblk_ad; [by eapply rng_nonneg| |by eapply rng_nonneg|]; unfold x, addr, ad in *; lia.
Qed.

Lemma live_rng b k c : live_blk b k c → rng (max_size b) k c.
Proof. unfold live_blk. destruct (sizes b); [|done]. by intros [? _]. Qed.

Lemma block_in_heap b k c :
  rng (max_size b) k c →
  base b ≤ addr b k c ∧ addr b k c + blk_size k ≤ base b + blk_size (max_size b).
Proof.
  intros [Hk Hc]. unfold addr. rewrite !blk_size_P. pose proof (P_pos k).
  replace (P (max_size b)) with (P (max_size b - k) * P k) by (rewrite <-P_add; f_equal; lia). nia.
Qed.

Lemma blk_size_inj j k : blk_size j = blk_size k → j = k.
Proof.
  rewrite !blk_size_P. unfold P. intros H. assert (2 ^ Z.of_nat j = 2 ^ Z.of_nat k) as Hp by lia.
  apply Z.pow_inj_r in Hp; lia.
Qed.

(** A block freshly handed out holds no list head. *)
Lemma fresh_user b b' fl fl' k c :
  wf b fl → wf b' fl' → heads b' = heads b → base b' = base b → nsize b' = nsize b →
  live_blk b' k c → ¬ live_blk b k c → user_blk b' k c.
Proof.
  intros [_ _ _ (s & Hs & HI)] [_ _ _ (s' & Hs' & HI')] Hh Hb Hn Hl Hnl.
  unfold live_blk, user_blk, heads in *. rewrite Hs, Hs' in *. simpl in Hh. simplify_eq.
  intros j h Hj Hin. assert (k = 0%nat) as -> by (by eapply live_no_head).
  apply Hnl. rewrite hd_fmap, Hh, <-hd_fmap in Hj.
  destruct (inv_heads _ _ _ _ _ HI _ _ Hj) as (d & Hr & Ha & Hd).
  assert (d = c) as -> by (destruct Hd as [_ <-], Hin as [_ <-]; by rewrite Hb).
  split_and!; [done..|]. destruct (sizes_ok_lookup _ _ 0 (inv_ok _ _ _ _ _ HI)) as [i Hi]; [lia|].
  unfold sb. rewrite Hi. destruct (proj2 (inv_ok _ _ _ _ _ HI) _ _ Hi) as [_ Hs0].
  simpl in Hs0. by rewrite Hs0.
Qed.

(** ** The abstract allocator

    [A] maps the address of every block a client holds to its size; [R] are
    the blocks that were live before the client started (the allocator's own
    data and the memory beyond [end]), which are never handed out. *)
Record sim (R : nat → Z → Prop) (b : BuddyAllocator) (A : gmap Z Z) : Prop := {
  sim_wf : ∃ fl, wf b fl;
  sim_live : ∀ k c, rng (max_size b) k c →
    live_blk b k c ↔ R k c ∨ A !! addr b k c = Some (blk_size k);
  sim_res : ∀ k c, R k c → A !! addr b k c ≠ Some (blk_size k);
  sim_user : ∀ p sz, A !! p = Some sz → ∃ k c, rng (max_size b) k c ∧ user_blk b k c ∧
    p = addr b k c ∧ sz = blk_size k;
}.

Lemma addr_inj_live b fl k c j d :
  wf b fl → live_blk b k c → live_blk b j d → addr b k c = addr b j d → k = j ∧ c = d.
Proof.
  intros Hwf Hk Hj Ha. destruct (decide (k = j ∧ c = d)) as [|Hne]; [done|].
  pose proof (live_disjoint _ _ _ _ _ _ Hwf Hk Hj Hne) as Hd. unfold disjoint_ranges in Hd.
  pose proof (blk_size_pos k). pose proof (blk_size_pos j). lia.
Qed.

Lemma sim_held R b A p sz :
  sim R b A → A !! p = Some sz →
  ∃ k c, live_blk b k c ∧ user_blk b k c ∧ p = addr b k c ∧ sz = blk_size k.
Proof.
  intros HS Hp. destruct (sim_user _ _ _ HS _ _ Hp) as (k & c & Hr & Hu & -> & ->).
  exists k, c. split_and!; try done. apply (sim_live _ _ _ HS); auto.
Qed.

Lemma sim_alloc R b A layout b' fl' c :
  let fk := firstk (size_ layout) in
  sim R b A → alloc_ b layout = Done (b', Some (addr b fk c)) → wf b' fl' →
  base b' = base b → nsize b' = nsize b → rng (max_size b) fk c → ¬ live_blk b fk c →
  (∀ j d, live_blk b' j d ↔ live_blk b j d ∨ (j = fk ∧ d = c)) →
  A !! addr b fk c = None ∧ sim R b' (<[addr b fk c := blk_size fk]> A).
Proof.
  intros fk HS Hal Hwf' Hb Hn Hr Hnl Hlv. pose proof (alloc_heads _ _ _ _ Hal) as Hh.
  assert (Hmax : max_size b' = max_size b) by (unfold max_size; by rewrite Hn).
  assert (Hadr : ∀ j d, addr b' j d = addr b j d) by (intros; unfold addr; by rewrite Hb).
  assert (Hnone : A !! addr b fk c = None).
  { destruct (A !! addr b fk c) as [sz|] eqn:E; [|done].
    destruct (sim_held _ _ _ _ _ HS E) as (k & d & Hl & _ & Ha & _).
    destruct (addr_inj_live b' fl' fk c k d Hwf') as [<- <-];
      [apply Hlv; auto|apply Hlv; auto|by rewrite !Hadr|done]. }
  assert (Hlv' : live_blk b' fk c) by (apply Hlv; auto).
  split; [done|]. split.
  - eauto.
  - intros k d Hrk. rewrite Hmax in Hrk. rewrite Hadr, Hlv, (sim_live _ _ _ HS) by done.
    destruct (decide (addr b k d = addr b fk c)) as [He|He].
    + rewrite He, lookup_insert_eq, Hnone. split; [naive_solver|].
      intros [?|[=Hs]]; [auto|]. apply blk_size_inj in Hs as <-.
      right. split; [done|]. unfold addr in He. pose proof (blk_size_pos fk). nia.
    + rewrite lookup_insert_ne by done. naive_solver.
  - intros k d HR. rewrite Hadr.
    destruct (decide (addr b k d = addr b fk c)) as [He|He];
      [|rewrite lookup_insert_ne by done; by apply (sim_res _ _ _ HS)].
    rewrite He, lookup_insert_eq. intros [=Hs]. apply blk_size_inj in Hs as <-.
    assert (d = c) as -> by (unfold addr in He; pose proof (blk_size_pos fk); nia).
    apply Hnl, (sim_live _ _ _ HS); auto.
  - intros p sz Hp. rewrite Hmax. destruct (decide (p = addr b fk c)) as [->|He].
    + rewrite lookup_insert_eq in Hp. injection Hp as <-. exists fk, c. rewrite Hadr.
      split_and!; try done. destruct (sim_wf _ _ _ HS). by eapply fresh_user.
    + rewrite lookup_insert_ne in Hp by done.
      destruct (sim_user _ _ _ HS _ _ Hp) as (k & d & ? & ? & -> & ->). exists k, d.
      rewrite Hadr, user_blk_heads by done. done.
Qed.

Lemma sim_dealloc R b A p sz layout :
  sim R b A → A !! p = Some sz →
  ∃ b', dealloc b p layout = Done b' ∧ sim R b' (delete p A) ∧
    (base b' = base b ∧ nsize b' = nsize b).
Proof.
  intros HS Hp. destruct (sim_held _ _ _ _ _ HS Hp) as (k & c & Hl & Hu & -> & ->).
  destruct (sim_wf _ _ _ HS) as [fl Hwf].
  destruct (dealloc_spec b fl layout k c Hwf Hl Hu)
    as (b' & fl' & Hde & Hwf' & (Hb & Hn & _) & Hlv).
  pose proof (dealloc_heads _ _ _ _ Hde) as Hh.
  assert (Hmax : max_size b' = max_size b) by (unfold max_size; by rewrite Hn).
  assert (Hadr : ∀ j d, addr b' j d = addr b j d) by (intros; unfold addr; by rewrite Hb).
  exists b'. split_and!; [done| |done..]. split.
  - eauto.
  - intros j d Hr. rewrite Hmax in Hr. rewrite Hadr, Hlv.
    destruct (decide (addr b j d = addr b k c)) as [He|He].
    + rewrite He, lookup_delete_eq. split.
      * intros [Hj []]. by apply (addr_inj_live b fl j d k c).
      * intros [HR|]; [|done]. split; [apply (sim_live _ _ _ HS); auto|]. intros [-> ->].
        by apply (sim_res _ _ _ HS _ _ HR).
    + rewrite lookup_delete_ne by done. rewrite (sim_live _ _ _ HS) by done.
      split; [tauto|]. intros HR. split; [done|]. by intros [-> ->].
  - intros j d HR Hx. rewrite Hadr in Hx.
    apply lookup_delete_Some in Hx as [_ Hx]. by apply (sim_res _ _ _ HS _ _ HR).
  - intros q szq Hq. apply lookup_delete_Some in Hq as [_ Hq]. rewrite Hmax.
    destruct (sim_user _ _ _ HS _ _ Hq) as (j & d & ? & ? & -> & ->). exists j, d.
    rewrite Hadr, user_blk_heads by done. done.
Qed.

(** ** A decidable check of the invariant *)

(** Follows the [next] pointers from [a] back to the head [h]. *)
Fixpoint walk (fuel : nat) (m : memory) (h a : Z) : list Z :=
  match fuel with
  | O => []
  | S fuel =>
      match m !! a with
      | Some n => if decide (next n = h) then [] else next n :: walk fuel m h (next n)
      | None => []
      end
  end.

(** The free lists of an allocator, as lists of addresses. *)
Definition free_lists (b : BuddyAllocator) (k : nat) : list Z :=
  match sizes b with
  | Some s => match s !! k with Some i => walk 64 (heap b) (free i) (free i) | None => [] end
  | None => []
  end.

Section checker.
Variables (B : Z) (N : nat) (s : list SzInfo) (m : memory) (fl : nat → list Z).

Definition bitsb (a : option (list Z)) (n : Z) : bool :=
  match a with Some l => n <=? 8 * Z.of_nat (length l) | None => false end.

Definition sizeb (k : nat) : bool :=
  match s !! k with
  | Some i =>
      bitsb (alloc i) (P (N - k)) &&
      (if decide (k = 0%nat) then match split i with None => true | _ => false end
       else bitsb (split i) (P (N - k))) &&
      dllb m (free i) (fl k) &&
      forallb (λ z, (0 <=? (z - B) / blk_size k) && ((z - B) / blk_size k <? P (N - k)) &&
                    (z =? ad B k ((z - B) / blk_size k))) (fl k) &&
      (B <=? free i) && ((free i - B) / blk_size 0 <? P (N - 0)) && ab s 0 ((free i - B) / blk_size 0)
  | None => false
  end.

Definition sepb (j k : nat) : bool :=
  match hd s j, hd s k with
  | Some hj, Some hk =>
      bool_decide (j = k) || forallb (λ z, negb (bool_decide (z ∈ hk :: fl k))) (hj :: fl j)
  | _, _ => false
  end.

Definition exib (k : nat) (c : Z) : bool := bool_decide (k = N) || sb s (S k) (c / 2).

Definition blockb (k : nat) (c : Z) : bool :=
  Bool.eqb (bool_decide (ad B k c ∈ fl k)) (exib k c && negb (ab s k c)) &&
  (implb (ab s k c) (exib k c)) && (implb (sb s k c) (ab s k c)) &&
  (bool_decide (k = N) || implb (exib k c) (ab s k c || ab s k (buddy c))).

Definition invb : bool :=
  bool_decide (length s = S N) &&
  forallb sizeb (seq 0 (S N)) &&
  forallb (λ j, forallb (sepb j) (seq 0 (S N))) (seq 0 (S N)) &&
  forallb (λ k, forallb (blockb k) (seqZ 0 (P (N - k)))) (seq 0 (S N)).
End checker.

Definition wfb (b : BuddyAllocator) : bool :=
  match sizes b with
  | Some s =>
      bool_decide (1 ≤ nsize b)%nat && bool_decide (0 < base b) &&
      bool_decide (base b `mod` MAX_ALIGN = 0) &&
      invb (base b) (max_size b) s (heap b) (free_lists b)
  | None => false
  end.

Lemma forallb_seq (f : nat → bool) n k : forallb f (seq 0 n) = true → (k < n)%nat → f k = true.
Proof. rewrite forallb_forall. intros H Hk. apply H, in_seq. lia. Qed.

Lemma bitsb_spec a n : bitsb a n = true → bits_ok a n.
Proof. destruct a as [l|]; simpl; [|done]. intros ?%Z.leb_le. by exists l. Qed.

Section checker_sound.
Variables (B : Z) (N : nat) (s : list SzInfo) (m : memory) (fl : nat → list Z).
Hypothesis Hinv : invb B N s m fl = true.

Lemma invb_parts :
  length s = S N ∧ (∀ k, (k ≤ N)%nat → sizeb B N s m fl k = true) ∧
  (∀ j k, (j ≤ N)%nat → (k ≤ N)%nat → sepb s fl j k = true) ∧
  (∀ k c, rng N k c → blockb B N s fl k c = true).
Proof.
  unfold invb in Hinv. rewrite !andb_true_iff, bool_decide_eq_true in Hinv.
  destruct Hinv as [[[Hl Hs] Hp] Hb]. split_and!; [done| | |].
  - intros k Hk. eapply forallb_seq in Hs; [done|lia].
  - intros j k Hj Hk. eapply forallb_seq in Hp; [|apply (le_n_S j N Hj)].
    eapply forallb_seq in Hp; [done|lia].
  - intros k c [Hk Hc]. eapply forallb_seq in Hb; [|apply (le_n_S k N Hk)].
    rewrite forallb_forall in Hb. apply Hb, list_elem_of_In, elem_of_seqZ. lia.
Qed.

Lemma exib_spec k c : exib N s k c = true ↔ exi N s k c.
Proof. unfold exib, exi. by rewrite orb_true_iff, bool_decide_eq_true. Qed.

Lemma blockb_spec k c :
  rng N k c → (ad B k c ∈ fl k ↔ exi N s k c ∧ ab s k c = false) ∧
    (ab s k c = true → exi N s k c) ∧ (sb s k c = true → ab s k c = true) ∧
    ((k < N)%nat → exi N s k c → ab s k c = true ∨ ab s k (buddy c) = true).
Proof.
  intros Hr. destruct invb_parts as (_ & _ & _ & Hb). specialize (Hb _ _ Hr). unfold blockb in Hb.
  rewrite <-exib_spec. revert Hb. case_bool_decide; [|case_bool_decide];
    destruct (exib N s k c), (ab s k c), (sb s k c), (ab s k (buddy c));
    simpl; try case_bool_decide; intros; try discriminate; naive_solver lia.
Qed.

Lemma sizeb_lookup k i :
  s !! k = Some i → (k ≤ N)%nat ∧ sizeb B N s m fl k = true.
Proof.
  intros Hi%lookup_lt_Some. destruct invb_parts as (Hl & Hs & _).
  split; [lia|apply Hs; lia].
Qed.

Lemma invb_lists : Lists (hd s) m fl.
Proof.
  destruct invb_parts as (Hl & _ & Hp & _). split.
  - intros k h Hh. unfold hd in Hh. destruct (s !! k) as [i|] eqn:E; [|done]. injection Hh as <-.
    destruct (sizeb_lookup _ _ E) as [_ Hs]. unfold sizeb in Hs. rewrite E in Hs.
    rewrite !andb_true_iff in Hs. apply dllb_spec. tauto.
  - intros j k hj hk Hne Hj Hk z Hz Hz'.
    assert (Hle : ∀ i h, hd s i = Some h → (i ≤ N)%nat).
    { intros i h Hh. unfold hd in Hh. destruct (s !! i) eqn:E; [|done].
      by apply sizeb_lookup in E as [? _]. }
    specialize (Hp j k (Hle _ _ Hj) (Hle _ _ Hk)). unfold sepb in Hp. rewrite Hj, Hk in Hp.
    apply orb_true_iff in Hp as [?%bool_decide_eq_true|Hp]; [done|].
    rewrite forallb_forall in Hp. apply list_elem_of_In in Hz. apply Hp in Hz.
    by rewrite negb_true_iff, bool_decide_eq_false in Hz.
Qed.

Lemma invb_sound : Inv B N s m fl.
Proof.
  destruct invb_parts as (Hl & Hs & _ & _). split.
  - split; [done|]. intros k i Hi. destruct (sizeb_lookup _ _ Hi) as [_ Hk].
    unfold sizeb in Hk. rewrite Hi, !andb_true_iff in Hk.
    split; [by apply bitsb_spec, Hk|]. destruct Hk as [[[[[[_ Hk] _] _] _] _] _].
    case_decide; [by destruct (split i)|by apply bitsb_spec].
  - apply invb_lists.
  - intros k c Hr. apply (blockb_spec _ _ Hr).
  - intros k z Hk Hz. specialize (Hs k Hk). unfold sizeb in Hs. destruct (s !! k); [|done].
    rewrite !andb_true_iff in Hs. destruct Hs as [[[[_ Hs] _] _] _].
    rewrite forallb_forall in Hs. apply list_elem_of_In, Hs in Hz.
    rewrite !andb_true_iff, Z.leb_le, Z.ltb_lt, Z.eqb_eq in Hz. eexists. split; [|apply Hz].
    split; [done|lia].
  - intros k c Hr. apply (blockb_spec _ _ Hr).
  - intros k c Hr. apply (blockb_spec _ _ Hr).
  - intros k c Hr. apply (blockb_spec _ _ Hr).
  - intros k h Hh. unfold hd in Hh. destruct (s !! k) as [i|] eqn:E; [|done]. injection Hh as <-.
    destruct (sizeb_lookup _ _ E) as [_ Hk]. unfold sizeb in Hk. rewrite E, !andb_true_iff in Hk.
    destruct Hk as [[[_ HB%Z.leb_le] Hlt%Z.ltb_lt] Ha]. eexists.
    split_and!; [|exact Ha|split; [done|reflexivity]]. split; [lia|].
    split; [|done]. apply Z.div_pos; [lia|apply blk_size_pos].
Qed.
End checker_sound.

Lemma wfb_sound b : wfb b = true → wf b (free_lists b).
Proof.
  unfold wfb. destruct (sizes b) as [s|] eqn:Hs; [|done].
  rewrite !andb_true_iff, !bool_decide_eq_true. intros [[[? ?] ?] Hi].
  split; [done..|]. exists s. split; [done|by apply invb_sound].
Qed.

(** ** Clients

    A layout the allocator serves: more than half a leaf, an alignment it
    supports, and a size class that exists. *)
Definition layout_ok (b : BuddyAllocator) (l : Layout) : Prop :=
  8 < size_ l ∧ align l ≤ MAX_ALIGN ∧ size_ l ≤ blk_size (max_size b).

Lemma layout_class b l : (1 ≤ nsize b)%nat → layout_ok b l → (firstk (size_ l) < nsize b)%nat.
Proof.
  intros Hn (H8 & _ & Hmax). apply firstk_least in Hmax; [|done]. unfold max_size in Hmax. lia.
Qed.

(** When no block of size [k] or more is free, every block of size [k] overlaps
    a live one. *)
Lemma full_blocks b fl k c :
  wf b fl → (∀ j, (k ≤ j < nsize b)%nat → fl j = []) → rng (max_size b) k c →
  ∃ j d, live_blk b j d ∧ ¬ disjoint_ranges (addr b k c) (blk_size k) (addr b j d) (blk_size j).
Proof.
  intros [Hns _ _ (s & Hs & HI)] Hnil Hc.
  assert (Hnil' : ∀ j, (k ≤ j ≤ max_size b)%nat → fl j = [])
    by (intros j Hj; apply Hnil; unfold max_size in Hj; lia).
  destruct (none_free_full _ _ _ _ _ _ _ HI Hnil' Hc) as (j & d & Hl & Hw).
  exists j, d. unfold live_blk. rewrite Hs. split; [done|]. destruct Hl as [Hr _].
  pose proof (rng_nonneg _ _ _ Hc) as Hc0. pose proof (rng_nonneg _ _ _ Hr) as Hd0.
  pose proof (blk_size_pos k). pose proof (blk_size_pos j).
  assert (Hx : ∃ x, inblk (base b) k c x ∧ inblk (base b) j d x).
  { destruct Hw as [Hw|Hw]; [exists (ad (base b) j d)|exists (ad (base b) k c)].
    - split; [eapply within_inblk; [exact Hw|]|]; by apply inblk_self.
    - split; [|eapply within_inblk; [exact Hw|]]; by apply inblk_self. }
  destruct Hx as (x & Hx1%inblk_ad & Hx2%inblk_ad); [|done..]. unfold disjoint_ranges, addr, ad in *. lia.
Qed.

Lemma alloc_sim R b A l :
  sim R b A → layout_ok b l →
  ∃ b' r, alloc_ b l = Done (b', r) ∧ (base b' = base b ∧ nsize b' = nsize b) ∧
    match r with
    | None => b' = b ∧ ∀ c, rng (max_size b) (firstk (size_ l)) c →
        ∃ j d, (R j d ∨ A !! addr b j d = Some (blk_size j)) ∧
          ¬ disjoint_ranges (addr b (firstk (size_ l)) c) (blk_size (firstk (size_ l))) (addr b j d) (blk_size j)
    | Some p => ∃ c, rng (max_size b) (firstk (size_ l)) c ∧ p = addr b (firstk (size_ l)) c ∧
        A !! p = None ∧ sim R b' (<[p := blk_size (firstk (size_ l))]> A)
    end.
Proof.
  intros HS Hl. destruct (sim_wf _ _ _ HS) as [fl Hwf].
  pose proof (layout_class _ _ (wf_nsize _ _ Hwf) Hl) as Hk.
  destruct (alloc_spec b fl l Hwf) as [[Hal Hnil]|(b' & fl' & c & Hal & Hwf' & (Hb & Hn & _) & Hr & Hnl & Hlv)];
    [lia|apply Hl| |].
  { exists b, None. split_and!; [done..|]. intros c Hc.
    destruct (full_blocks _ _ _ _ Hwf Hnil Hc) as (j & d & Hlive & Hdis). exists j, d. split; [|done].
    apply (sim_live _ _ _ HS); [by eapply live_rng|done]. }
  exists b', (Some (addr b (firstk (size_ l)) c)). split_and!; [done..|]. exists c.
  split_and!; [done..| |]; by eapply sim_alloc.
Qed.

Inductive client_op := Alloc (l : Layout) | Free (p : Z).

(** A client that frees only blocks it holds; [A] are the blocks it holds. *)
Fixpoint run (b : BuddyAllocator) (A : gmap Z Z) (ops : list client_op)
    : outcome (BuddyAllocator * gmap Z Z) :=
  match ops with
  | [] => Done (b, A)
  | Alloc l :: ops =>
      '(b', r) ← alloc_ b l;
      run b' (match r with Some p => <[p := blk_size (firstk (size_ l))]> A | None => A end) ops
  | Free p :: ops =>
      match A !! p with
      | Some sz => b' ← dealloc b p (mkLayout sz 1); run b' (delete p A) ops
      | None => run b A ops
      end
  end.

Definition op_ok (b : BuddyAllocator) (op : client_op) : Prop :=
  match op with Alloc l => layout_ok b l | Free _ => True end.

Lemma run_sim R b A ops :
  sim R b A → Forall (op_ok b) ops → ∃ b' A', run b A ops = Done (b', A') ∧ sim R b' A' ∧ base b' = base b ∧ nsize b' = nsize b.
Proof.
  revert b A. induction ops as [|[l|p] ops IH]; intros b A HS Hok; [eauto 10| |];
    apply Forall_cons in Hok as [Ho Hok]; cbn [run].
  - destruct (alloc_sim _ _ _ _ HS Ho) as (b' & r & -> & (Hb & Hn) & Hr). cbn [mbind outcome_bind].
    assert (Hok' : Forall (op_ok b') ops).
    { unfold op_ok, layout_ok, max_size. rewrite Hn. exact Hok. }
    destruct r as [p|]; [destruct Hr as (c & _ & _ & _ & HS')|destruct Hr as [-> _]; by apply IH].
    destruct (IH _ _ HS' Hok') as (b'' & A'' & ? & ? & ? & ?). exists b'', A''.
    split_and!; [done..|congruence|congruence].
  - destruct (A !! p) as [sz|] eqn:E; [|by apply IH].
    destruct (sim_dealloc _ _ _ _ _ (mkLayout sz 1) HS E) as (b' & -> & HS' & Hb & Hn).
    assert (Hok' : Forall (op_ok b') ops).
    { unfold op_ok, layout_ok, max_size. rewrite Hn. exact Hok. }
    destruct (IH _ _ HS' Hok') as (b'' & A'' & ? & ? & ? & ?). exists b'', A''.
    split_and!; [done..|congruence|congruence].
Qed.

Lemma sim_disjoint R b A p sz q szq :
  sim R b A → A !! p = Some sz → A !! q = Some szq → p ≠ q → disjoint_ranges p sz q szq.
Proof.
  intros HS Hp Hq Hne. destruct (sim_wf _ _ _ HS) as [fl Hwf].
  destruct (sim_held _ _ _ _ _ HS Hp) as (k & c & Hk & _ & -> & ->).
  destruct (sim_held _ _ _ _ _ HS Hq) as (j & d & Hj & _ & -> & ->).
  eapply live_disjoint; [done..|]. by intros [-> ->].
Qed.

Definition with_heap (b : BuddyAllocator) (m : memory) : BuddyAllocator :=
  mkBuddy (initialized b) (base b) (end_ b) (nsize b) (sizes b) m.

(** The nodes of the free lists lie in no block a client holds. *)
Lemma nodes_outside b fl s k c x j h :
  wf b fl → sizes b = Some s → live_blk b k c → user_blk b k c →
  addr b k c ≤ x < addr b k c + blk_size k → hd s j = Some h → x ∉ h :: fl j.
Proof.
  intros [_ _ _ (s' & Hs' & HI)] Hs Hl Hu Hx Hh. unfold live_blk, user_blk in *.
  rewrite Hs in Hl, Hu. rewrite Hs in Hs'. injection Hs' as <-.
  assert (Hin : inblk (base b) k c x) by (apply inblk_ad; [eapply rng_nonneg, Hl|done]).
  rewrite not_elem_of_cons. split.
  - intros ->. by apply (Hu _ _ Hh).
  - eapply live_not_free; [done..|]. by eapply hd_rng.
Qed.

(** A client that starts with nothing. *)
Lemma sim_start b : wfb b = true → sim (live_blk b) b ∅.
Proof.
  intros Hb%wfb_sound. split; [eauto| | |].
  - intros k c _. rewrite lookup_empty. naive_solver.
  - intros k c _. by rewrite lookup_empty.
  - intros p sz. by rewrite lookup_empty.
Qed.

Lemma wfb_demo : wfb demo = true.
Proof. vm_compute. reflexivity. Qed.

(** ** The properties *)


(** C6. Freeing refines the abstract allocator: [dealloc] of a block the
    client holds never panics or faults, finds the block's size by itself,
    and the new state represents [A] without that block, with the reserved
    blocks unchanged. *)
Theorem buddy_dealloc_refines R b A p sz layout :
  sim R b A → A !! p = Some sz →
  ∃ b', dealloc b p layout = Done b' ∧ sim R b' (delete p A) ∧
    base b' = base b ∧ nsize b' = nsize b.
Proof. apply sim_dealloc. Qed.

(** Every run of a client that asks for served layouts and frees only
    blocks it holds returns, and afterwards any two blocks it holds are
    disjoint. *)
Theorem buddy_run_safe R b A ops :
  sim R b A → Forall (op_ok b) ops →
  ∃ b' A', run b A ops = Done (b', A') ∧ sim R b' A' ∧
    ∀ p sz q szq, A' !! p = Some sz → A' !! q = Some szq → p ≠ q → disjoint_ranges p sz q szq.
Proof.
  intros HS Hok. destruct (run_sim _ _ _ _ HS Hok) as (b' & A' & Hrun & HS' & _).
  exists b', A'. split_and!; [done..|]. intros. by eapply sim_disjoint.
Qed.

(** Alignment: when the size of the layout is a multiple of its
    power-of-two alignment (the note in [alloc]), the address handed out is a
    multiple of the alignment. *)
Theorem buddy_alloc_aligned R b A l b' p a :
  sim R b A → layout_ok b l → align l = 2 ^ a → 0 ≤ a → (align l | size_ l) →
  alloc_ b l = Done (b', Some p) → (align l | p).
Proof.
  intros HS Hl Ha H0 Hd Hal. destruct (sim_wf _ _ _ HS) as [fl Hwf].
  destruct (alloc_sim _ _ _ _ HS Hl) as (b1 & r & Hal' & _ & Hr).
  rewrite Hal in Hal'. injection Hal' as <- <-. destruct Hr as (c & _ & -> & _).
  destruct Hl as (H8 & Hmax & _). unfold addr. rewrite Ha in *. apply Z.divide_add_r.
  - apply Z.divide_trans with MAX_ALIGN;
      [|apply Z.mod_divide; [done|apply (wf_aligned _ _ Hwf)]].
    change MAX_ALIGN with (2 ^ 12) in *. apply Z.pow_le_mono_r_iff in Hmax; [|lia..].
    exists (2 ^ (12 - a)). rewrite <-Z.pow_add_r by lia. f_equal. lia.
  - apply Z.divide_mul_r. rewrite blk_size_firstk by done.
    apply Z.divide_pos_le in Hd; [|lia].
    assert (a ≤ Z.log2_up (size_ l)).
    { rewrite <-(Z.log2_up_pow2 a) by done. by apply Z.log2_up_le_mono. }
    exists (2 ^ (Z.log2_up (size_ l) - a)). rewrite <-Z.pow_add_r by lia. f_equal. lia.
Qed.

(** Isolation: whatever a client writes into the blocks it holds, the
    allocator's state is intact, since no list node and no list head lies in
    such a block. *)
Theorem buddy_client_writes R b A m' :
  sim R b A →
  (∀ x, m' !! x ≠ heap b !! x → ∃ p sz, A !! p = Some sz ∧ p ≤ x < p + sz) →
  sim R (with_heap b m') A.
Proof.
  intros HS Hm. destruct (sim_wf _ _ _ HS) as [fl Hwf].
  pose proof Hwf as [Hn Hb Hal (s & Hs & HI)]. split; [|apply HS..].
  exists fl. split; [done..|]. exists s. split; [done|]. simpl.
  assert (Hsame : ∀ j h z, hd s j = Some h → z ∈ h :: fl j → m' !! z = heap b !! z).
  { intros j h z Hh Hz. destruct (decide (m' !! z = heap b !! z)) as [|Hne]; [done|].
    apply Hm in Hne as (p & sz & Hp & Hx).
    destruct (sim_held _ _ _ _ _ HS Hp) as (k & c & Hl & Hu & -> & ->).
    by destruct (nodes_outside b fl s k c z j h Hwf Hs Hl Hu Hx Hh). }
  destruct HI as [? [Hdll Hdis] ? ? ? ? ? ?]. split; try done. split; [|done].
  intros k h Hh. destruct (Hdll _ _ Hh) as [Hp Hnd]. split; [|done]. revert Hp. apply path_ext.
  - intros z Hz. unfold nxt. by erewrite Hsame.
  - intros z Hz. unfold prv. erewrite Hsame; [done..|]. set_solver.
Qed.

(** Size classes: for a request above half a leaf, [firstk] is the least
    size class whose blocks hold the request. *)
Theorem firstk_spec n k : 8 < n → n ≤ blk_size (firstk n) ∧ (n ≤ blk_size k ↔ (firstk n ≤ k)%nat).
Proof.
  intros Hn. pose proof (firstk_fits n Hn). split; [done|].
  split; [by apply firstk_least|]. intros Hk. etrans; [done|].
  rewrite !blk_size_P. unfold P. apply Z.mul_le_mono_nonneg_r; [lia|].
  apply Z.pow_le_mono_r; lia.
Qed.

(** A request of at most eight bytes panics: [firstk] divides the rounded
    size by the leaf size, which gives zero, and the trailing zeros of zero
    are 64, a size class no heap below [2^67] bytes has. *)
Lemma small_request_panics b l s :
  sizes b = Some s → (nsize b < 64)%nat → size_ l ≤ 8 → align l ≤ MAX_ALIGN →
  alloc_ b l = Panic "slice index out of range".
Proof.
  intros Hs Hn H8 Hal. unfold alloc_. rewrite Hs, decide_False by lia.
  rewrite firstk_zero by done. unfold slice_from. by rewrite decide_False by lia.
Qed.

Theorem buddy_small_request_panics b l s :
  sizes b = Some s → (nsize b < 64)%nat → size_ l ≤ 8 → align l ≤ MAX_ALIGN →
  alloc_ b l = Panic "slice index out of range".
Proof. apply small_request_panics. Qed.

(** *** Witnesses *)
Lemma sim_demo : sim (live_blk demo) demo ∅.
Proof. apply sim_start, wfb_demo. Qed.

Definition demo_layout : Layout := mkLayout 512 256.

Lemma demo_layout_ok : layout_ok demo demo_layout.
Proof. unfold layout_ok. vm_compute. done. Qed.

Definition demo1 : BuddyAllocator :=
  match alloc_ demo demo_layout with Done (b, _) => b | _ => new end.

Lemma demo_alloc : alloc_ demo demo_layout = Done (demo1, Some 2147488768).
Proof. vm_compute. reflexivity. Qed.

Lemma sim_demo1 : sim (live_blk demo) demo1 {[ 2147488768 := 512 ]}.
Proof.
  destruct (alloc_sim _ _ _ _ sim_demo demo_layout_ok) as (b' & r & Hal & _ & Hr).
  rewrite demo_alloc in Hal. apply Done_pair_inj in Hal as [<- <-].
  destruct Hr as (c & _ & _ & _ & HS). exact HS.
Qed.


Lemma buddy_dealloc_refines_witness :
  ∃ b', dealloc demo1 2147488768 demo_layout = Done b' ∧ sim (live_blk demo) b' ∅.
Proof.
  destruct (buddy_dealloc_refines _ _ _ 2147488768 512 demo_layout sim_demo1)
    as (b' & Hd & HS & _); [reflexivity|].
  exists b'. rewrite delete_singleton_eq in HS. auto.
Defined.

Definition demo_ops : list client_op :=
  [Alloc demo_layout; Alloc (mkLayout 16 16); Free 2147488768; Alloc (mkLayout 2048 2048)].

Lemma buddy_run_safe_witness :
  ∃ b' A', run demo ∅ demo_ops = Done (b', A') ∧
    ∀ p sz q szq, A' !! p = Some sz → A' !! q = Some szq → p ≠ q → disjoint_ranges p sz q szq.
Proof.
  destruct (buddy_run_safe _ _ _ demo_ops sim_demo) as (b' & A' & Hrun & _ & Hd).
  - repeat constructor; vm_compute; congruence.
  - exists b', A'. auto.
Defined.

Lemma buddy_alloc_aligned_witness : (256 | 2147488768).
Proof.
  apply (buddy_alloc_aligned _ _ _ demo_layout demo1 2147488768 8 sim_demo demo_layout_ok);
    [reflexivity|lia|exists 2; reflexivity|apply demo_alloc].
Defined.

Lemma buddy_client_writes_witness :
  sim (live_blk demo) (with_heap demo1 (<[2147488768 := mkNode 0 0]> (heap demo1)))
    {[ 2147488768 := 512 ]}.
Proof.
  apply (buddy_client_writes _ _ _ _ sim_demo1). intros x Hx. exists 2147488768, 512.
  split; [reflexivity|]. destruct (decide (x = 2147488768)) as [->|]; [lia|].
  by rewrite lookup_insert_ne in Hx.
Defined.

Lemma firstk_spec_witness : firstk 100 = 3%nat ∧ (100 ≤ blk_size 3 ↔ (firstk 100 ≤ 3)%nat).
Proof. split; [reflexivity|apply (firstk_spec 100 3); lia]. Defined.

Lemma buddy_small_request_panics_witness :
  alloc_ demo (mkLayout 8 8) = Panic "slice index out of range".
Proof.
  destruct (sizes demo) as [s|] eqn:E; [|by vm_compute in E].
  apply (buddy_small_request_panics _ _ s E); vm_compute; [lia|congruence..].
Defined.
