(* ===== verification/BuddyInit.v ===== *)
(** * [init] of the buddy allocator on every heap

    [init] carves its tables out of the start of the heap, marks the blocks
    that meet the tables or lie beyond the end, and puts the largest unmarked
    blocks on the free lists.  With [L] bytes of tables and the end at offset
    [R], block [d] of size [k] is marked when it is not inside [[L, R)]; the
    unmarked blocks of size [k] are those from [lo k] to [hi k - 1]. *)

From S2P Require Import Prelude IntrusiveList Buddy BuddyInv BuddySpec.

Open Scope Z_scope.

(** ** Carving the tables *)
Section carve.
Variable b : BuddyAllocator.
Let N := max_size b.

(** The bytes of a bit array for size [k]. *)
Definition bytes (k : nat) : Z := (nblk b k - 1) / 8 + 1.
Fixpoint carve (k n : nat) : Z := match n with O => 0 | S n => bytes k + carve (S k) n end.

Lemma nblk_P k : nblk b k = P (N - k).
Proof. unfold nblk, P, N. by rewrite Z.shiftl_1_l. Qed.

Lemma bytes_pos k : 1 ≤ bytes k.
Proof. unfold bytes. rewrite nblk_P. pose proof (P_pos (N - k)). zdm. Qed.
Lemma bytes_bits k : P (N - k) ≤ 8 * bytes k ≤ P (N - k) + 7.
Proof. unfold bytes. rewrite nblk_P. zdm. Qed.

Lemma carve_nonneg k n : 0 ≤ carve k n.
Proof. revert k. induction n as [|n IH]; intros k; cbn [carve]; [lia|]. pose proof (bytes_pos k). specialize (IH (S k)). lia. Qed.

(** All sizes from [k] up. *)
Lemma carve_bound k n : (k + n = S N)%nat → 8 * carve k n ≤ P n - 1 + 7 * Z.of_nat n.
Proof.
  revert k. induction n as [|n IH]; intros k Hk; cbn [carve].
  - pose proof (P_pos 0). lia.
  - specialize (IH (S k) ltac:(lia)). pose proof (bytes_bits k) as Hb. replace (N - k)%nat with n in Hb by lia.
    rewrite P_S. lia.
Qed.

Lemma round_bytes k : ∃ r, round_up (nblk b k) 8 = Done r ∧ r / 8 = bytes k.
Proof.
  unfold round_up. rewrite nblk_P. pose proof (P_pos (N - k)). rewrite checked_sub_ok by lia. cbn [mbind outcome_bind].
  eexists. split; [done|]. unfold bytes. rewrite nblk_P. apply Z.div_mul. done.
Qed.

Definition zeros (k : nat) : list Z := replicate (Z.to_nat (bytes k)) 0.

Lemma zeros_ok k : bits_ok (Some (zeros k)) (P (N - k)).
Proof.
  exists (zeros k). split; [done|]. unfold zeros. rewrite length_replicate. pose proof (bytes_bits k). pose proof (bytes_pos k). lia.
Qed.

Lemma zeros_clear k d : bit_isset (Some (zeros k)) d = false.
Proof.
  cbn [bit_isset]. destruct (zeros k !! Z.to_nat (d / 8)) as [x|] eqn:Hx; [|done].
  apply lookup_replicate in Hx as [-> _]. rewrite Z.land_0_l. apply Z.eqb_neq.
  rewrite Z.shiftl_1_l. pose proof (Z.mod_pos_bound d 8 ltac:(lia)). pose proof (Z.pow_pos_nonneg 2 (d `mod` 8)). lia.
Qed.

Lemma init_alloc_spec k s p m :
  0 < p →
  ∃ s' m', init_alloc b k s p m = Done (s', p + carve k (length s), m') ∧ length s' = length s ∧
    (∀ j i, s !! j = Some i → s' !! j = Some (mkSz (free i) (Some (zeros (k + j))) (split i))) ∧
    (∀ h, h ∈ free <$> s ∨ dll m h [] → dll m' h []).
Proof.
  revert k p m. induction s as [|i s IH]; intros k p m Hp; cbn [init_alloc length carve].
  - exists [], m. rewrite Z.add_0_r. split_and!; [done|done|done|]. intros h [Hh|?]; [by apply not_elem_of_nil in Hh|done].
  - destruct (round_bytes k) as (r & -> & Hr). cbn [mbind outcome_bind]. rewrite Hr.
    unfold init_nonnull_slice. rewrite decide_False by lia. cbn [mbind outcome_bind].
    pose proof (bytes_pos k). destruct (init_spec m (free i)) as [Hi Ho].
    destruct (IH (S k) (p + 1 * bytes k) (RawList.init m (free i)) ltac:(lia)) as (s' & m' & -> & Hl & Hs & Hm).
    cbn [mbind outcome_bind]. eexists _, m'. split_and!.
    + rewrite <-Z.add_assoc, Z.mul_1_l. reflexivity.
    + cbn. by rewrite Hl.
    + intros [|j] i' Hj; [injection Hj as <-; by rewrite Nat.add_0_r|].
      replace (k + S j)%nat with (S k + j)%nat by lia. exact (Hs j i' Hj).
    + intros h Hh. apply Hm. destruct (decide (h = free i)) as [->|Hne]; [by right|].
      destruct Hh as [[?|?]%elem_of_cons|Hd]; [done|by left|]. right.
      eapply dll_frame; [exact Ho| |exact Hd]. intros z Hz. apply list_elem_of_singleton in Hz as ->.
      by intros ->%list_elem_of_singleton.
Qed.

Lemma init_split_spec k s p :
  0 < p →
  ∃ s', init_split b k s p = Done (s', p + carve k (length s)) ∧ length s' = length s ∧
    (∀ j i, s !! j = Some i → s' !! j = Some (mkSz (free i) (alloc i) (Some (zeros (k + j))))).
Proof.
  revert k p. induction s as [|i s IH]; intros k p Hp; cbn [init_split length carve].
  - exists []. by rewrite Z.add_0_r.
  - destruct (round_bytes k) as (r & -> & Hr). cbn [mbind outcome_bind]. rewrite Hr.
    unfold init_nonnull_slice. rewrite decide_False by lia. cbn [mbind outcome_bind]. pose proof (bytes_pos k).
    destruct (IH (S k) (p + 1 * bytes k) ltac:(lia)) as (s' & -> & Hl & Hs). cbn [mbind outcome_bind].
    eexists. split_and!.
    + rewrite <-Z.add_assoc, Z.mul_1_l. reflexivity.
    + cbn. by rewrite Hl.
    + intros [|j] i' Hj; [injection Hj as <-; by rewrite Nat.add_0_r|].
      replace (k + S j)%nat with (S k + j)%nat by lia. exact (Hs j i' Hj).
Qed.
End carve.

(** ** Rounding to blocks *)
Definition lo (L : Z) (k : nat) : Z := (L + blk_size k - 1) / blk_size k.
Definition hi (R : Z) (k : nat) : Z := R / blk_size k.

Lemma lo_spec L k d : d < lo L k ↔ d * blk_size k < L.
Proof.
  unfold lo. pose proof (blk_size_pos k) as Hz. pose proof (Z.div_mod (L + blk_size k - 1) (blk_size k) ltac:(lia)).
  pose proof (Z.mod_pos_bound (L + blk_size k - 1) (blk_size k) Hz). nia.
Qed.

Lemma hi_spec R k d : hi R k ≤ d ↔ R < (d + 1) * blk_size k.
Proof.
  unfold hi. pose proof (blk_size_pos k) as Hz. pose proof (Z.div_mod R (blk_size k) ltac:(lia)).
  pose proof (Z.mod_pos_bound R (blk_size k) Hz). nia.
Qed.

Lemma blk_size_S k : blk_size (S k) = 2 * blk_size k.
Proof. rewrite !blk_size_P, P_S. lia. Qed.

Lemma lo_S L k : lo L (S k) = (lo L k + 1) / 2.
Proof.
  pose proof (blk_size_S k) as E. pose proof (blk_size_pos k) as Hz.
  pose proof (lo_spec L k (lo L k - 1)) as H1. pose proof (lo_spec L k (lo L k)) as H2.
  pose proof (lo_spec L (S k) (lo L (S k) - 1)) as H3. pose proof (lo_spec L (S k) (lo L (S k))) as H4.
  rewrite E in H3, H4. apply Z.div_unique with (r := lo L k + 1 - 2 * lo L (S k)); [|lia]. left. nia.
Qed.

Lemma hi_S R k : hi R (S k) = hi R k / 2.
Proof. unfold hi. rewrite blk_size_S, Z.mul_comm. pose proof (blk_size_pos k). by rewrite Z.div_div by lia. Qed.

Lemma next_lo b k x : base b ≤ x → blk_index_next b k x = Done (lo (x - base b) k).
Proof.
  intros Hx. unfold blk_index_next. rewrite checked_sub_ok by done. cbn [mbind outcome_bind]. f_equal. unfold lo.
  pose proof (blk_size_pos k) as Hz. pose proof (Z.div_mod (x - base b) (blk_size k) ltac:(lia)) as Hd.
  pose proof (Z.mod_pos_bound (x - base b) (blk_size k) Hz) as Hm.
  case_decide as H0.
  - apply Z.div_unique with (r := blk_size k - 1); [lia|]. rewrite H0 in Hd. lia.
  - apply Z.div_unique with (r := (x - base b) `mod` blk_size k - 1); lia.
Qed.

(** ** Marking *)
Lemma mark_range_spec N s k bi n :
  sizes_ok N s → (k ≤ N)%nat → 0 ≤ bi → bi + Z.of_nat n ≤ P (N - k) →
  ∃ s', mark_range s k bi n = Done s' ∧ sizes_ok N s' ∧ (∀ j, hd s' j = hd s j) ∧
    (∀ j d, 0 ≤ d → ab s' j d = true ↔ ab s j d = true ∨ (j = k ∧ bi ≤ d < bi + Z.of_nat n)) ∧
    (∀ j d, 0 ≤ d → sb s' j d = true ↔ sb s j d = true ∨ (j = k ∧ (0 < k)%nat ∧ bi ≤ d < bi + Z.of_nat n)).
Proof.
  revert s bi. induction n as [|n IH]; intros s bi Hok Hk Hbi Hn; cbn [mark_range].
  - exists s. split_and!; [done..| |]; intros; split; [auto|intros [?|?]; [done|lia]|auto|intros [?|?]; [done|lia]].
  - assert (Hs : ∃ s1, (if decide (0 < k)%nat then set_split s k bi true else Done s) = Done s1 ∧ sizes_ok N s1 ∧
      (∀ j, hd s1 j = hd s j) ∧ (∀ j d, ab s1 j d = ab s j d) ∧
      ∀ j d, 0 ≤ d → sb s1 j d = true ↔ sb s j d = true ∨ (j = k ∧ (0 < k)%nat ∧ d = bi)).
    { case_decide as H0.
      - destruct (set_split_spec N s k bi true Hok ltac:(lia) ltac:(lia)) as (s1 & -> & Hok1 & Hh & Hb & Ha).
        exists s1. split_and!; [done..|]. intros j d Hd. rewrite Hb by done. unfold upd. case_decide; naive_solver.
      - exists s. split_and!; [done..|]. intros. split; [auto|]. intros [?|?]; [done|lia]. }
    destruct Hs as (s1 & -> & Hok1 & Hh1 & Ha1 & Hb1). cbn [mbind outcome_bind].
    destruct (set_alloc_spec N s1 k bi true Hok1 Hk ltac:(lia)) as (s2 & -> & Hok2 & Hh2 & Ha2 & Hb2).
    cbn [mbind outcome_bind].
    destruct (IH s2 (bi + 1) Hok2 Hk ltac:(lia) ltac:(lia)) as (s3 & -> & Hok3 & Hh3 & Ha3 & Hb3).
    exists s3. split_and!; [done|done| | |].
    + intros j. by rewrite Hh3, Hh2, Hh1.
    + intros j d Hd. rewrite Ha3, Ha2 by done. unfold upd. rewrite Ha1. case_decide as Hc.
      * split; [intros _; right; lia|by left].
      * split; intros [?|?]; [by left|right; lia|by left|right]. assert (d ≠ bi) by tauto. lia.
    + intros j d Hd. rewrite Hb3 by done. rewrite Hb2, Hb1 by done. split.
      * intros [[?|?]|?]; [by left|right; lia|right; lia].
      * intros [?|?]; [by left; left|]. destruct (decide (d = bi)); [left; right; lia|right; lia].
Qed.

(** What [mark] sets: the blocks of every size that meet [[x, y)]. *)
Definition meets (x y : Z) (k : nat) (d : Z) : Prop := x < (d + 1) * blk_size k ∧ d * blk_size k < y.

Lemma mark_loop_spec b N x y k n s :
  sizes_ok N s → (k + n = S N)%nat → 0 ≤ x → x ≤ y → y ≤ blk_size N →
  ∃ s', mark_loop b (base b + x) (base b + y) k n s = Done s' ∧ sizes_ok N s' ∧ (∀ j, hd s' j = hd s j) ∧
    (∀ j d, 0 ≤ d → (j ≤ N)%nat → ab s' j d = true ↔ ab s j d = true ∨ ((k ≤ j)%nat ∧ meets x y j d)) ∧
    (∀ j d, 0 ≤ d → (j ≤ N)%nat → sb s' j d = true ↔ sb s j d = true ∨ ((k ≤ j)%nat ∧ (0 < j)%nat ∧ meets x y j d)).
Proof.
  revert k s. induction n as [|n IH]; intros k s Hok Hk Hx Hxy Hy; cbn [mark_loop].
  - exists s. split_and!; [done..| |]; intros; split; [auto|intros [?|?]; [done|lia]|auto|intros [?|?]; [done|lia]].
  - unfold blk_index. rewrite checked_sub_ok by lia. cbn [mbind outcome_bind]. rewrite next_lo by lia. cbn [mbind outcome_bind].
    rewrite !Z.add_simpl_l. fold (hi x k).
    assert (Hloy : lo y k ≤ P (N - k)).
    { destruct (decide (lo y k ≤ P (N - k))) as [|Hn]; [done|]. exfalso. apply Z.nle_gt, lo_spec in Hn.
      assert (HT : P (N - k) * blk_size k = blk_size N); [|lia].
      rewrite !blk_size_P, Z.mul_assoc, <-P_add. do 2 f_equal. lia. }
    assert (Hhi0 : 0 ≤ hi x k) by (apply Z.div_pos; [lia|apply blk_size_pos]).
    assert (Hm : ∀ d, hi x k ≤ d < lo y k ↔ meets x y k d) by (intros d; unfold meets; by rewrite hi_spec, lo_spec).
    destruct (decide (hi x k ≤ lo y k)) as [Hle|Hgt].
    + destruct (mark_range_spec N s k (hi x k) (Z.to_nat (lo y k - hi x k)) Hok ltac:(lia) Hhi0 ltac:(lia))
        as (s1 & -> & Hok1 & Hh1 & Ha1 & Hb1). cbn [mbind outcome_bind].
      destruct (IH (S k) s1 Hok1 ltac:(lia) Hx Hxy Hy) as (s2 & -> & Hok2 & Hh2 & Ha2 & Hb2).
      rewrite Z2Nat.id in Ha1, Hb1 by lia. replace (hi x k + (lo y k - hi x k)) with (lo y k) in Ha1, Hb1 by lia.
      exists s2. split_and!; [done|done| | |].
      * intros j. by rewrite Hh2, Hh1.
      * intros j d Hd Hj. rewrite Ha2, Ha1, Hm by done. destruct (decide (j = k)) as [->|]; [|split; naive_solver lia].
        split; [intros [[?|[_ ?]]|[? _]]; [by left|by right|lia]|intros [?|[_ ?]]; [by left; left|by left; right]].
      * intros j d Hd Hj. rewrite Hb2, Hb1, Hm by done. destruct (decide (j = k)) as [->|]; [|split; naive_solver lia].
        split; [intros [[?|(_ & ? & ?)]|[? _]]; [by left|by right|lia]|intros [?|(_ & ? & ?)]; [by left; left|by left; right]].
    + replace (Z.to_nat (lo y k - hi x k)) with 0%nat by lia. cbn [mark_range mbind outcome_bind].
      destruct (IH (S k) s Hok ltac:(lia) Hx Hxy Hy) as (s2 & -> & Hok2 & Hh2 & Ha2 & Hb2).
      assert (Hno : ∀ d, ¬ meets x y k d) by (intros d ?%Hm; lia).
      exists s2. split_and!; [done|done|done| |]; intros j d Hd Hj; [rewrite Ha2 by done|rewrite Hb2 by done];
        (destruct (decide (j = k)) as [->|]; [specialize (Hno d)|]; split; naive_solver lia).
Qed.

(** ** The free blocks *)
Section initfree.
Variables (B L R : Z) (N : nat) (s : list SzInfo).
Hypothesis HL : 0 < L.
Hypothesis HR : R ≤ blk_size N.
Hypothesis Hquarter : 4 * L ≤ R.
Hypothesis Hok : sizes_ok N s.
(** The bits after the marks. *)
Hypothesis Hab : ∀ k d, 0 ≤ d → (k ≤ N)%nat → ab s k d = true ↔ meets 0 L k d ∨ meets R (blk_size N) k d.
Hypothesis Hsb : ∀ k d, 0 ≤ d → (k ≤ N)%nat → sb s k d = true ↔ (0 < k)%nat ∧ (meets 0 L k d ∨ meets R (blk_size N) k d).
(** The heads are in the tables. *)
Hypothesis Hheads : ∀ k h, hd s k = Some h → B ≤ h < B + L.

Local Abbreviation lo := (lo L).
Local Abbreviation hi := (hi R).

Lemma top_size k : (k ≤ N)%nat → blk_size N = P (N - k) * blk_size k.
Proof. intros Hk. rewrite !blk_size_P, Z.mul_assoc, <-P_add. do 2 f_equal. lia. Qed.

Lemma lo_pos k : 1 ≤ lo k.
Proof. pose proof (lo_spec L k 0). lia. Qed.
Lemma lo_top k : (k ≤ N)%nat → lo k ≤ P (N - k).
Proof. intros Hk. pose proof (lo_spec L k (P (N - k))) as H. rewrite <-top_size in H by done. lia. Qed.
Lemma hi_top k : (k ≤ N)%nat → hi k ≤ P (N - k).
Proof. intros Hk. rewrite hi_spec. rewrite Z.mul_add_distr_r, <-top_size by done. pose proof (blk_size_pos k). lia. Qed.

(** A block in range is marked when it is not from [lo] to [hi - 1]; a block
    out of range is not. *)
Lemma ab_marked k d : (k ≤ N)%nat → 0 ≤ d → ab s k d = bool_decide (d < P (N - k) ∧ (d < lo k ∨ hi k ≤ d)).
Proof.
  intros Hk Hd. apply eq_bool_prop_intro. rewrite bool_decide_spec. etransitivity; [apply Is_true_true|].
  rewrite Hab by done. unfold meets. pose proof (blk_size_pos k) as Hz. rewrite lo_spec, hi_spec.
  pose proof (lo_top k Hk) as Ht. pose proof (lo_spec L k d) as Hl. pose proof (top_size k Hk) as HT.
  split.
  - intros [[_ ?]|[? ?]]; (split; [nia|lia]).
  - intros [? [?|?]]; [left; nia|right; split; [done|nia]].
Qed.

Lemma sb_marked k d : (1 ≤ k ≤ N)%nat → 0 ≤ d → sb s k d = ab s k d.
Proof.
  intros Hk Hd. apply eq_bool_prop_intro. rewrite !Is_true_true, Hsb, Hab by (done || lia).
  split; [by intros [_ ?]|split; [lia|done]].
Qed.

(** The blocks that belong on the free list of size [k]. *)
Definition free_blk (k : nat) (d : Z) : Prop :=
  lo k ≤ d < hi k ∧ (d / 2 < lo (S k) ∨ hi (S k) ≤ d / 2).

(** They are the ends of the range that have no unmarked buddy. *)
Lemma free_blk_ends k d :
  free_blk k d ↔ lo k < hi k ∧ ((d = lo k ∧ lo k `mod` 2 = 1) ∨ (d = hi k - 1 ∧ hi k `mod` 2 = 1)).
Proof. unfold free_blk. rewrite lo_S, hi_S. zdm. Qed.

(** The tables are small, so a last unmarked block is not the first of its pair. *)
Lemma not_single k : lo k `mod` 2 = 0 → hi k ≠ lo k + 1.
Proof.
  intros He Hs. pose proof (lo_pos k). pose proof (lo_spec L k (lo k - 1)) as H1.
  pose proof (hi_spec R k (hi k)) as H2. pose proof (blk_size_pos k). assert (2 <= lo k) by zdm. nia.
Qed.

(** Bytes in the unmarked blocks of size [k]. *)
Definition left_over (k : nat) : Z := Z.max 0 (hi k - lo k) * blk_size k.

(** One call of [initfree_pair]. *)
Definition state (b : BuddyAllocator) (fl : nat → list Z) : Prop :=
  base b = B ∧ max_size b = N ∧ (1 ≤ nsize b)%nat ∧ sizes b = Some s ∧ Lists (hd s) (heap b) fl.

(** Unmarked blocks are apart from the heads, and from free blocks of
    other sizes. *)
Lemma unmarked_apart fl k d :
  lo k ≤ d < hi k →
  (∀ j z, z ∈ fl j → ∃ e, z = ad B j e ∧ free_blk j e ∧ (j < k ∨ j = k ∧ e ≠ d)%nat) →
  ∀ j h, hd s j = Some h → ad B k d ∉ h :: fl j.
Proof.
  intros Hd Hfl j h Hh. pose proof (lo_spec L k d) as Hlo. pose proof (blk_size_pos k) as Hz.
  intros [He|Hin]%elem_of_cons.
  - pose proof (Hheads j h Hh). unfold ad in He. lia.
  - destruct (Hfl j _ Hin) as (e & He & [Hr Hpar] & [Hj|[-> Hne]]).
    + unfold ad in He. pose proof (hi_spec R k d) as Hhi.
      destruct (Nat.le_exists_sub (S j) k) as (n & -> & _); [lia|].
      rewrite lo_spec, hi_spec in Hpar. rewrite blk_size_S in Hpar.
      assert (Hk : blk_size (n + S j) = P n * (2 * blk_size j)).
      { rewrite !blk_size_P, P_add, P_S. lia. }
      rewrite Hk in *. pose proof (blk_size_pos j). pose proof (P_pos n).
      assert (Heven : e = 2 * (d * P n)) by nia. subst e.
      rewrite (Z.mul_comm 2), Z.div_mul in Hpar by done. nia.
    + apply ad_inj in He. done.
Qed.

Lemma initfree_push b fl k d :
  state b fl → (k < N)%nat → lo k ≤ d < hi k →
  (∀ j z, z ∈ fl j → ∃ e, z = ad B j e ∧ free_blk j e ∧ (j < k ∨ j = k ∧ e ≠ d)%nat) →
  ∃ m, push_free (heap b) s k (addr b k d) = Done m ∧
    state (set_sizes b s m) (fupd fl k (ad B k d :: fl k)).
Proof.
  intros (Hb & Hn & H1 & Hs & Hls) Hk Hd Hfl.
  destruct (sizes_ok_lookup N s k Hok ltac:(lia)) as [i Hi].
  assert (Hh : hd s k = Some (free i)) by (unfold hd; by rewrite Hi).
  destruct (Lists_push (hd s) (heap b) fl k (free i) (ad B k d) Hls Hh) as (m & Hm & Hls').
  { intros j h Hj. by eapply unmarked_apart. }
  exists m. split; [|by split_and!]. rewrite (push_free_ok (heap b) s k (free i)) by done.
  unfold addr. by rewrite Hb.
Qed.

(** What the lists hold before size [k] is done; [part] at size [k] itself. *)
Definition filled (k : nat) (part : Z → Prop) (fl : nat → list Z) : Prop :=
  (∀ j z, (j < k)%nat → z ∈ fl j ↔ ∃ e, z = ad B j e ∧ free_blk j e) ∧
  (∀ z, z ∈ fl k ↔ ∃ e, z = ad B k e ∧ part e) ∧
  (∀ j, (k < j)%nat → fl j = []).

Lemma filled_push k part fl d :
  filled k part fl → filled k (λ e, part e ∨ e = d) (fupd fl k (ad B k d :: fl k)).
Proof.
  intros (H1 & H2 & H3). unfold fupd. split_and!.
  - intros j z Hj. rewrite decide_False by lia. by apply H1.
  - intros z. rewrite decide_True by done. rewrite elem_of_cons, H2. naive_solver.
  - intros j Hj. rewrite decide_False by lia. by apply H3.
Qed.

Lemma filled_ext k (p q : Z → Prop) fl : (∀ e, p e ↔ q e) → filled k p fl → filled k q fl.
Proof. intros Hpq (H1 & H2 & H3). split_and!; [done| |done]. intros z. rewrite H2. naive_solver. Qed.

Lemma filled_apart k part fl d :
  filled k part fl → (∀ e, part e → free_blk k e ∧ e ≠ d) →
  ∀ j z, z ∈ fl j → ∃ e, z = ad B j e ∧ free_blk j e ∧ (j < k ∨ j = k ∧ e ≠ d)%nat.
Proof.
  intros (H1 & H2 & H3) Hp j z Hz. destruct (Nat.lt_trichotomy j k) as [Hj|[->|Hj]].
  - apply H1 in Hz as (e & ? & ?); [|done]. by exists e; split_and!; [| |left].
  - apply H2 in Hz as (e & ? & He). destruct (Hp e He). by exists e; split_and!; [| |right].
  - rewrite H3 in Hz by done. by apply not_elem_of_nil in Hz.
Qed.

(** [initfree_pair] at a pair with equal bits, and at one with different bits,
    whose unmarked block is [d]. *)
Lemma pair_same b fl k bi :
  state b fl → (k < N)%nat → ab s k bi = ab s k (buddy bi) → initfree_pair b k bi = Done (b, 0).
Proof.
  intros (Hb & Hn & H1 & Hs & _) Hk He. destruct (sizes_ok_lookup N s k Hok ltac:(lia)) as [i Hi].
  unfold initfree_pair. rewrite Hs, (get_size_ok _ _ _ Hi). cbn [mbind outcome_bind].
  unfold ab in He. rewrite Hi in He. by rewrite decide_False by (intros Hne; by apply Hne).
Qed.

Lemma pair_differs b fl k bi d part :
  state b fl → (k < N)%nat → filled k part fl → lo k ≤ d < hi k → (∀ e, part e → free_blk k e ∧ e ≠ d) →
  (d = bi ∧ ab s k bi = false ∧ ab s k (buddy bi) = true) ∨ (d = buddy bi ∧ ab s k bi = true ∧ ab s k (buddy bi) = false) →
  ∃ b' fl', initfree_pair b k bi = Done (b', blk_size k) ∧ state b' fl' ∧ filled k (λ e, part e ∨ e = d) fl'.
Proof.
  intros Hst Hk Hfl Hd Hp Hc. pose proof Hst as (Hb & Hn & H1 & Hs & _).
  destruct (sizes_ok_lookup N s k Hok ltac:(lia)) as [i Hi].
  destruct (initfree_push b fl k d Hst Hk Hd (filled_apart _ _ _ _ Hfl Hp)) as (m & Hm & Hst').
  eexists _, _. split; [|split; [exact Hst'|by apply filled_push]].
  unfold initfree_pair. rewrite Hs, (get_size_ok _ _ _ Hi). cbn [mbind outcome_bind].
  unfold ab in Hc. rewrite Hi in Hc. destruct Hc as [(-> & Ha & Hb')|(-> & Ha & Hb')]; rewrite Ha, Hb';
    (rewrite decide_True by done); by rewrite Hm.
Qed.

Lemma P_even k : (k < N)%nat → P (N - k) `mod` 2 = 0.
Proof. intros Hk. replace (N - k)%nat with (S (N - k - 1)) by lia. rewrite P_S, Z.mul_comm. apply Z.mod_mul. done. Qed.

Lemma buddy_even d : d `mod` 2 = 0 → buddy d = d + 1.
Proof. intros Hd. unfold buddy. by rewrite decide_True. Qed.
Lemma buddy_odd d : d `mod` 2 = 1 → buddy d = d - 1.
Proof. intros Hd. unfold buddy. rewrite decide_False; [done|lia]. Qed.

(** The pair at [lo k]. *)
Lemma left_pair b fl k :
  state b fl → (k < N)%nat → filled k (λ _, False) fl →
  ∃ b' fl' f, initfree_pair b k (lo k) = Done (b', f) ∧ state b' fl' ∧
    filled k (λ e, lo k < hi k ∧ lo k `mod` 2 = 1 ∧ e = lo k) fl' ∧
    f = if decide (lo k < hi k ∧ lo k `mod` 2 = 1) then blk_size k else 0.
Proof.
  intros Hst Hk Hfl. pose proof (lo_pos k) as Hp. pose proof (lo_top k ltac:(lia)) as Ht.
  pose proof (hi_top k ltac:(lia)) as Hht. pose proof (P_even k Hk) as He. pose proof (not_single k) as Hns.
  assert (Hpar : lo k `mod` 2 = 0 ∨ lo k `mod` 2 = 1) by zdm.
  destruct (decide (lo k < hi k ∧ lo k `mod` 2 = 1)) as [[Hlt Hodd]|Hno].
  - destruct (pair_differs b fl k (lo k) (lo k) (λ _, False) Hst Hk Hfl) as (b' & fl' & Hr & Hst' & Hfl'); [lia|done| |].
    { left. rewrite buddy_odd by done. rewrite !ab_marked by lia. split_and!; [done| |].
      - apply bool_decide_false. lia.
      - apply bool_decide_true. lia. }
    exists b', fl', (blk_size k). split_and!; [done|done| |done]. eapply filled_ext; [|exact Hfl']. naive_solver.
  - exists b, fl, 0. split_and!; [|done| |done].
    + eapply pair_same; [done|done|]. destruct Hpar as [Hev|Hod].
      * rewrite buddy_even by done. rewrite !ab_marked by lia. apply bool_decide_ext. specialize (Hns Hev). zdm.
      * rewrite buddy_odd by done. rewrite !ab_marked by lia. apply bool_decide_ext. zdm.
    + eapply filled_ext; [|exact Hfl]. naive_solver.
Qed.

(** The pair at [hi k]. *)
Lemma right_pair b fl k :
  state b fl → (k < N)%nat → lo k < hi k → filled k (λ e, lo k < hi k ∧ lo k `mod` 2 = 1 ∧ e = lo k) fl →
  ∃ b' fl' f, initfree_pair b k (hi k) = Done (b', f) ∧ state b' fl' ∧ filled k (free_blk k) fl' ∧
    f = if decide (hi k `mod` 2 = 1) then blk_size k else 0.
Proof.
  intros Hst Hk Hlt Hfl. pose proof (lo_pos k) as Hp.
  pose proof (hi_top k ltac:(lia)) as Hht. pose proof (P_even k Hk) as He. pose proof (not_single k) as Hns.
  case_decide as Hodd.
  - destruct (pair_differs b fl k (hi k) (hi k - 1) _ Hst Hk Hfl) as (b' & fl' & Hr & Hst' & Hfl'); [lia| | |].
    { intros e (_ & Ho & ->). split; [apply free_blk_ends; auto|]. zdm. }
    { right. rewrite buddy_odd by done. rewrite !ab_marked by lia. split_and!; [done| |].
      - apply bool_decide_true. zdm.
      - apply bool_decide_false. lia. }
    exists b', fl', (blk_size k). split_and!; [done|done| |done]. eapply filled_ext; [|exact Hfl'].
    intros e. rewrite free_blk_ends. naive_solver.
  - exists b, fl, 0. split_and!; [|done| |done].
    + eapply pair_same; [done|done|]. rewrite buddy_even by zdm. rewrite !ab_marked by lia. apply bool_decide_ext. zdm.
    + eapply filled_ext; [|exact Hfl]. intros e. rewrite free_blk_ends. naive_solver.
Qed.

(** The bytes put on the lists of size [k]. *)
Lemma left_over_step k :
  left_over k = left_over (S k) +
    (if decide (lo k < hi k ∧ lo k `mod` 2 = 1) then blk_size k else 0) +
    (if decide (lo k < hi k ∧ hi k `mod` 2 = 1) then blk_size k else 0).
Proof.
  unfold left_over. rewrite lo_S, hi_S, blk_size_S. pose proof (not_single k) as Hns.
  destruct (decide (lo k < hi k)) as [Hlt|Hge].
  - assert (Hn : Z.max 0 (hi k - lo k) = 2 * Z.max 0 (hi k / 2 - (lo k + 1) / 2) + lo k `mod` 2 + hi k `mod` 2) by zdm.
    assert (H1 : lo k `mod` 2 = 0 ∨ lo k `mod` 2 = 1) by zdm. assert (H2 : hi k `mod` 2 = 0 ∨ hi k `mod` 2 = 1) by zdm.
    rewrite Hn. destruct H1 as [E1|E1], H2 as [E2|E2]; rewrite E1, E2; repeat case_decide; lia.
  - rewrite !decide_False by lia. assert (hi k / 2 - (lo k + 1) / 2 ≤ 0) by zdm. lia.
Qed.

Lemma filled_next k fl : filled k (free_blk k) fl → filled (S k) (λ _, False) fl.
Proof.
  intros (H1 & H2 & H3). split_and!.
  - intros j z Hj. destruct (decide (j = k)) as [->|]; [apply H2|apply H1; lia].
  - intros z. rewrite H3 by lia. split; [by intros ?%not_elem_of_nil|naive_solver].
  - intros j Hj. apply H3. lia.
Qed.

Lemma initfree_loop_spec n k b fl fr :
  state b fl → (k + n = N)%nat → filled k (λ _, False) fl →
  ∃ b' fl', initfree_loop b (B + L) (B + R) k n fr = Done (b', fr + left_over k - left_over N) ∧
    state b' fl' ∧ filled N (λ _, False) fl' ∧ initialized b' = initialized b ∧ end_ b' = end_ b ∧ nsize b' = nsize b.
Proof.
  revert k b fl fr. induction n as [|n IH]; intros k b fl fr Hst Hk Hfl; cbn [initfree_loop].
  - replace k with N in * by lia. exists b, fl. split_and!; [|done..]. do 2 f_equal. lia.
  - pose proof Hst as (Hb & _). rewrite next_lo by lia. cbn [mbind outcome_bind]. unfold blk_index.
    rewrite checked_sub_ok by lia. cbn [mbind outcome_bind]. rewrite Hb, !Z.add_simpl_l. fold (hi k).
    destruct (left_pair b fl k Hst ltac:(lia) Hfl) as (b1 & fl1 & f1 & Hl & Hst1 & Hfl1 & Hf1).
    rewrite Hl. cbn [mbind outcome_bind].
    assert (Hright : ∃ b2 fl2 f2, (if decide (lo k < hi k) then initfree_pair b1 k (hi k) else Done (b1, 0)) = Done (b2, f2) ∧
      state b2 fl2 ∧ filled k (free_blk k) fl2 ∧ f2 = if decide (lo k < hi k ∧ hi k `mod` 2 = 1) then blk_size k else 0).
    { destruct (decide (lo k < hi k)) as [Hlt|Hge].
      - destruct (right_pair b1 fl1 k Hst1 ltac:(lia) Hlt Hfl1) as (b2 & fl2 & f2 & Hr & Hst2 & Hfl2 & Hf2).
        exists b2, fl2, f2. split_and!; [done..|]. rewrite Hf2. repeat case_decide; tauto.
      - exists b1, fl1, 0. split_and!; [done|done| |by rewrite decide_False by tauto].
        eapply filled_ext; [|exact Hfl1]. intros e. rewrite free_blk_ends. tauto. }
    destruct Hright as (b2 & fl2 & f2 & Hr & Hst2 & Hfl2 & Hf2). rewrite Hr. cbn [mbind outcome_bind].
    destruct (IH (S k) b2 fl2 (fr + f1 + f2) Hst2 ltac:(lia) (filled_next _ _ Hfl2)) as (b' & fl' & Hloop & Hst' & Hfl' & Hi & He & Hns).
    exists b', fl'. rewrite Hloop. pose proof (left_over_step k).
    assert (Hkeep : ∀ x y bi f, initfree_pair x k bi = Done (y, f) → initialized y = initialized x ∧ end_ y = end_ x ∧ nsize y = nsize x).
    { intros x y bi f Hx. unfold initfree_pair in Hx. destruct (sizes x); [|by injection Hx as <- <-].
      apply bind_Done_inv in Hx as (i & _ & Hx). case_decide; [|by injection Hx as <- <-].
      apply bind_Done_inv in Hx as (m & _ & Hx). by injection Hx as <- <-. }
    destruct (Hkeep _ _ _ _ Hl) as (I1 & E1 & N1).
    assert (I2 : initialized b2 = initialized b1 ∧ end_ b2 = end_ b1 ∧ nsize b2 = nsize b1).
    { destruct (decide (lo k < hi k)); [exact (Hkeep _ _ _ _ Hr)|by injection Hr as <- <-]. }
    destruct I2 as (I2 & E2 & N2). split_and!; [|done|done|congruence..]. do 2 f_equal. lia.
Qed.

(** ** The invariant after [init] *)
Lemma init_inv m fl : Lists (hd s) m fl → filled N (λ _, False) fl → Inv B N s m fl.
Proof.
  intros Hls (F1 & F2 & F3).
  assert (HN : lo N = 1 ∧ hi N ≤ 1).
  { pose proof (lo_pos N). pose proof (lo_top N). pose proof (hi_top N). rewrite Nat.sub_diag in *. unfold P in *. cbn in *. lia. }
  assert (HabN : ab s N 0 = true).
  { rewrite ab_marked by lia. apply bool_decide_true. rewrite Nat.sub_diag. unfold P. cbn. lia. }
  assert (Hexi : ∀ k c, rng N k c → (k < N)%nat → exi N s k c ↔ c / 2 < lo (S k) ∨ hi (S k) ≤ c / 2).
  { intros k c Hr Hk. pose proof (rng_up N k c Hr Hk) as [_ Hr']. unfold exi. rewrite sb_marked by lia.
    rewrite ab_marked, bool_decide_eq_true by lia. split; [intros [?|?]; [lia|tauto]|]. intros Hm. right. tauto. }
  assert (Hroot : ∀ c, rng N N c → c = 0).
  { intros c [_ Hc]. rewrite Nat.sub_diag in Hc. unfold P in Hc. cbn in Hc. lia. }
  split.
  - done.
  - done.
  - intros k c Hr. pose proof Hr as [Hk Hc]. destruct (decide (k = N)) as [->|Hne].
    + rewrite (Hroot c Hr), F2. split; [naive_solver|]. rewrite HabN. naive_solver.
    + rewrite F1, Hexi by (done || lia). rewrite ab_marked, bool_decide_eq_false by lia. unfold free_blk. split.
      * intros (e & He%ad_inj & Hf & Hp). subst e. split; [done|lia].
      * intros [Hp Hn]. exists c. split; [done|]. split; [lia|done].
  - intros k z Hk Hz. destruct (decide (k = N)) as [->|Hne]; [apply F2 in Hz; naive_solver|].
    apply F1 in Hz as (e & -> & He & _); [|lia]. exists e. split; [|done]. pose proof (lo_pos k). pose proof (hi_top k Hk).
    split; [done|lia].
  - intros k c Hr Ha. pose proof Hr as [Hk Hc]. destruct (decide (k = N)) as [->|Hne]; [by left|].
    rewrite Hexi by (done || lia). rewrite ab_marked, bool_decide_eq_true in Ha by lia. rewrite lo_S, hi_S. zdm.
  - intros k c [Hk Hc] Hsp. destruct (decide (k = 0%nat)) as [->|Hk0]; [|rewrite <-sb_marked; [done|lia|lia]].
    apply Hsb in Hsp as [? _]; lia.
  - intros k c Hr Hk He. pose proof Hr as [_ Hc]. apply Hexi in He; [|done|done].
    pose proof (rng_buddy N k c Hr Hk) as [_ Hbd]. rewrite lo_S, hi_S in He.
    rewrite !ab_marked, !bool_decide_eq_true by lia. revert Hbd. unfold buddy. case_decide; zdm.
  - intros k h Hh. pose proof (Hheads k h Hh) as Hr. exists ((h - B) / blk_size 0).
    pose proof (blk_size_pos 0) as Hz. pose proof (lo_top 0 ltac:(lia)) as Ht.
    assert (Hlt : (h - B) / blk_size 0 < lo 0) by (apply lo_spec; pose proof (Z.mul_div_le (h - B) (blk_size 0) Hz); lia).
    assert (H0 : 0 ≤ (h - B) / blk_size 0) by (apply Z.div_pos; lia).
    split_and!; [split; [lia|lia]| |split; [lia|done]]. rewrite ab_marked by lia. apply bool_decide_true. lia.
Qed.

(** Every byte between the tables and the end is in a free block, and no other is. *)
Lemma free_cover fl x :
  filled N (λ _, False) fl → (16 | L) → (16 | R) →
  (∃ k z, z ∈ fl k ∧ z ≤ x < z + blk_size k) ↔ B + L ≤ x < B + R.
Proof.
  intros (F1 & F2 & F3) [l Hl] [r Hrr]. split.
  - intros (k & z & Hz & Hx). destruct (Nat.lt_trichotomy k N) as [Hk|[->|Hk]].
    + apply F1 in Hz as (e & -> & He & _); [|done]. unfold ad in Hx.
      pose proof (lo_spec L k e). pose proof (hi_spec R k e). lia.
    + apply F2 in Hz. naive_solver.
    + rewrite F3 in Hz by done. by apply not_elem_of_nil in Hz.
  - intros Hx.
    assert (Hup : ∀ n, (n ≤ N)%nat → (∃ k z, z ∈ fl k ∧ z ≤ x < z + blk_size k) ∨
              lo n ≤ (x - B) / blk_size n < hi n).
    { induction n as [|n IH]; intros Hn.
      - right. unfold BuddyInit.lo, BuddyInit.hi. change (blk_size 0) with 16.
        zdm.
      - destruct (IH ltac:(lia)) as [?|Hin]; [by left|].
        assert (Hdiv : (x - B) / blk_size (S n) = (x - B) / blk_size n / 2).
        { rewrite blk_size_S, Z.mul_comm. pose proof (blk_size_pos n). by rewrite Z.div_div by lia. }
        set (d := (x - B) / blk_size n) in *. rewrite Hdiv.
        destruct (decide (lo (S n) ≤ d / 2 < hi (S n))) as [|Hnot]; [by right|]. left.
        exists n, (ad B n d). split; [apply F1; [lia|]; exists d; split; [done|split; [done|lia]]|].
        unfold ad, d. pose proof (blk_size_pos n). pose proof (Z.div_mod (x - B) (blk_size n) ltac:(lia)).
        pose proof (Z.mod_pos_bound (x - B) (blk_size n) ltac:(lia)). nia. }
    destruct (Hup N ltac:(lia)) as [?|Hin]; [done|]. exfalso.
    pose proof (lo_pos N). pose proof (hi_top N). rewrite Nat.sub_diag in *. unfold P in *. cbn in *. lia.
Qed.

Lemma left_over_ends : (16 | L) → (16 | R) → left_over 0 - left_over N = R - L.
Proof.
  intros [l Hl] [r Hrr]. unfold left_over. pose proof (lo_pos N). pose proof (hi_top N) as Ht.
  rewrite Nat.sub_diag in Ht. unfold P in Ht. cbn in Ht.
  replace (Z.max 0 (hi N - lo N)) with 0 by lia. unfold BuddyInit.lo, BuddyInit.hi. change (blk_size 0) with 16.
  zdm.
Qed.
End initfree.

(** ** The number of sizes *)
Lemma log2_loop_spec fuel n k : 1 ≤ n < 2 ^ Z.of_nat fuel → log2_loop fuel n k = (k + Z.to_nat (Z.log2 n))%nat.
Proof.
  revert n k. induction fuel as [|fuel IH]; intros n k Hn; [cbn in Hn; lia|]. cbn [log2_loop].
  rewrite Nat2Z.inj_succ, Z.pow_succ_r in Hn by lia. case_decide as H1.
  - rewrite Z.shiftr_div_pow2 by lia. change (2 ^ 1) with 2. rewrite IH by zdm.
    pose proof (Z.log2_shiftr n 1 ltac:(lia)) as Hl. rewrite Z.shiftr_div_pow2 in Hl by lia. change (2 ^ 1) with 2 in Hl.
    pose proof (Z.log2_pos n H1). rewrite Hl. lia.
  - replace n with 1 by lia. cbn. lia.
Qed.

(** The size of the largest block, for a heap of [len] bytes. *)
Definition top (len : Z) : nat :=
  let n := (log2 (len / LEAF_SIZE) + 1)%nat in
  if decide (blk_size (n - 1) < len) then n else (n - 1)%nat.

Lemma top_spec len : 4096 ≤ len < 2 ^ 64 → (16 | len) → len ≤ blk_size (top len) < 2 * len.
Proof.
  intros Hl [q ->]. unfold top, log2. change LEAF_SIZE with 16. rewrite Z.div_mul by done.
  rewrite log2_loop_spec by (change (Z.of_nat 64) with 64; lia). cbn [Nat.add].
  pose proof (Z.log2_spec q ltac:(lia)) as Hq. pose proof (Z.log2_nonneg q).
  rewrite Nat.add_sub. rewrite !blk_size_P. unfold P.
  rewrite Z2Nat.id by lia. rewrite Z.pow_succ_r in Hq by lia.
  case_decide.
  - rewrite Nat.add_1_r, Nat2Z.inj_succ, Z2Nat.id, Z.pow_succ_r by lia. lia.
  - rewrite Z2Nat.id by lia. lia.
Qed.

Lemma P_large N : (8 ≤ N)%nat → 32 * Z.of_nat N ≤ P N.
Proof. induction 1 as [|N HN IH]; [done|]. rewrite P_S. lia. Qed.
Lemma P_larger N : (9 ≤ N)%nat → 56 * Z.of_nat N ≤ P N.
Proof. induction 1 as [|N HN IH]; [done|]. rewrite P_S. lia. Qed.
Lemma P_mono m n : (m ≤ n)%nat → P m ≤ P n.
Proof. intros H. apply Z.pow_le_mono_r; lia. Qed.

(** The tables take a quarter of the heap at most. *)
Lemma tables_small N R L :
  4096 ≤ R → R ≤ blk_size N < 2 * R →
  8 * L ≤ 384 * (Z.of_nat N + 1) + 3 * P N + 14 * Z.of_nat N + 125 → 4 * L ≤ R.
Proof.
  intros HR HT HL. rewrite blk_size_P in HT. destruct (decide (R = P N * 16)) as [E|E].
  - destruct (decide (8 ≤ N)%nat) as [HN|HN]; [pose proof (P_large N HN); lia|].
    pose proof (P_mono N 7 ltac:(lia)) as Hm. change (P 7) with 128 in Hm. lia.
  - destruct (decide (9 ≤ N)%nat) as [HN|HN]; [pose proof (P_larger N HN); lia|].
    pose proof (P_mono N 8 ltac:(lia)) as Hm. change (P 8) with 256 in Hm. lia.
Qed.

(** ** [init] *)
Lemma mark_spec b N s x y :
  sizes b = Some s → sizes_ok N s → (16 | base b) → (16 | x) → (16 | y) →
  0 ≤ x → x ≤ y → y ≤ blk_size N →
  ∃ s', mark b (base b + x) (base b + y) = Done (set_sizes b s' (heap b)) ∧ sizes_ok N s' ∧ (∀ j, hd s' j = hd s j) ∧
    (∀ j d, 0 ≤ d → (j ≤ N)%nat → ab s' j d = true ↔ ab s j d = true ∨ meets x y j d) ∧
    (∀ j d, 0 ≤ d → (j ≤ N)%nat → sb s' j d = true ↔ sb s j d = true ∨ ((0 < j)%nat ∧ meets x y j d)).
Proof.
  intros Hs Hok [q Hq] [u Hu] [v Hv] Hx Hxy Hy. unfold mark. change LEAF_SIZE with 16.
  rewrite decide_True by zdm. rewrite Hs.
  destruct (mark_loop_spec b N x y 0 (length s) s Hok) as (s' & -> & Hok' & Hh & Ha & Hb); [|done..|].
  { rewrite (proj1 Hok). lia. }
  cbn [mbind outcome_bind]. exists s'. split_and!; [done|done|done| |].
  - intros j d Hd Hj. rewrite Ha by done. split; (intros [?|?]; [by left|right; naive_solver lia]).
  - intros j d Hd Hj. rewrite Hb by done. split; (intros [?|?]; [by left|right; naive_solver lia]).
Qed.

Definition heap_lo (base0 : Z) : Z := ((base0 - 1) / 4096 + 1) * 4096.
Definition heap_hi (end0 : Z) : Z := end0 / 4096 * 4096.

(** The tables as [init] carves them. *)
Lemma carve_tables free_off b0 B N m :
  max_size b0 = N → 0 < B → 0 ≤ free_off ≤ 32 →
  let s := (λ k, mkSz (B + sizeof_SzInfo * Z.of_nat k + free_off) None None) <$> seq 0 (S N) in
  let p1 := B + sizeof_SzInfo * Z.of_nat (S N) in
  ∃ s1 i r r' m1 p3, init_alloc b0 0 s p1 m = Done (s1, p1 + carve b0 0 (S N), m1) ∧ s1 = i :: r ∧
    init_split b0 1 r (p1 + carve b0 0 (S N)) = Done (r', p3) ∧
    p3 = p1 + carve b0 0 (S N) + carve b0 1 N ∧ sizes_ok N (i :: r') ∧
    Lists (hd (i :: r')) m1 (λ _, []) ∧
    (∀ k h, hd (i :: r') k = Some h → B ≤ h < p1) ∧
    (∀ k d, ab (i :: r') k d = false ∧ sb (i :: r') k d = false).
Proof.
  intros HN HB Hoff s p1.
  assert (Hp1 : 0 < p1) by (unfold p1, sizeof_SzInfo; lia).
  assert (Hls : length s = S N) by (unfold s; by rewrite length_fmap, length_seq).
  assert (Hsl : ∀ k, (k ≤ N)%nat → s !! k = Some (mkSz (B + sizeof_SzInfo * Z.of_nat k + free_off) None None)).
  { intros k Hk. unfold s. rewrite list_lookup_fmap, lookup_seq_lt by lia. done. }
  destruct (init_alloc_spec b0 0 s p1 m Hp1) as (s1 & m1 & Hi & Hl1 & Hs1 & Hm1). rewrite Hls in *.
  destruct s1 as [|i r]; [done|]. cbn [length] in Hl1.
  pose proof (carve_nonneg b0 0 (S N)).
  destruct (init_split_spec b0 1 r (p1 + carve b0 0 (S N)) ltac:(lia)) as (r' & Hsp & Hl2 & Hs2).
  replace (length r) with N in * by lia.
  assert (Hfin : ∀ k, (k ≤ N)%nat → (i :: r') !! k = Some (mkSz (B + 48 * Z.of_nat k + free_off) (Some (zeros b0 k))
            (if decide (k = 0%nat) then None else Some (zeros b0 k)))).
  { intros k Hk. pose proof (Hs1 k _ (Hsl k Hk)) as E. destruct k as [|k].
    - cbn in E |- *. exact E.
    - pose proof (Hs2 k _ E) as E2. rewrite decide_False by done. exact E2. }
  assert (Hhd : ∀ k h, hd (i :: r') k = Some h → (k ≤ N)%nat ∧ h = B + 48 * Z.of_nat k + free_off).
  { intros k h. unfold hd. destruct (decide (k ≤ N)%nat) as [Hk|Hk]; [rewrite Hfin by done; cbn; by intros [= <-]|].
    rewrite lookup_ge_None_2 by (cbn; lia). done. }
  exists (i :: r), i, r, r', m1, (p1 + carve b0 0 (S N) + carve b0 1 N). split_and!; [done|done|done|done| | | |].
  - split; [cbn; lia|]. intros k j Hk. assert (Hle : (k ≤ N)%nat) by (apply lookup_lt_Some in Hk; cbn in Hk; lia).
    rewrite Hfin in Hk by done. injection Hk as <-. cbn [alloc split]. rewrite <-HN. split; [apply zeros_ok|].
    case_decide; [done|apply zeros_ok].
  - split.
    + intros k h Hk. apply Hm1. left. destruct (Hhd k h Hk) as [Hle ->]. apply list_elem_of_fmap.
      eexists. split; [|by eapply list_elem_of_lookup_2, (Hsl k)]. done.
    + intros j k hj hk Hne Hj Hk z [->|Hz]%elem_of_cons; [|by apply not_elem_of_nil in Hz].
      intros [He|Hz]%elem_of_cons; [|by apply not_elem_of_nil in Hz].
      destruct (Hhd _ _ Hj), (Hhd _ _ Hk). lia.
  - intros k h Hk. destruct (Hhd k h Hk). unfold p1, sizeof_SzInfo. lia.
  - intros k d. unfold ab, sb. destruct (decide (k ≤ N)%nat) as [Hk|Hk].
    + rewrite Hfin by done. cbn [alloc split]. rewrite zeros_clear. case_decide; [done|by rewrite zeros_clear].
    + by rewrite lookup_ge_None_2 by (cbn; lia).
Qed.

(** What [init] establishes: the heap runs from [B] to [B + R], its first [L]
    bytes are the allocator's own, the free blocks are the rest. *)
Record ready (b : BuddyAllocator) (B L R : Z) (fl : nat → list Z) : Prop := {
  r_init : initialized b = true;
  r_base : base b = B;
  r_end : end_ b = B + R;
  r_wf : wf b fl;
  r_own : 0 < L ∧ 4 * L ≤ R;
  r_free : ∀ x, (∃ k z, z ∈ fl k ∧ z ≤ x < z + blk_size k) ↔ B + L ≤ x < B + R;
  r_leaf : ∀ d, rng (max_size b) 0 d → d < lo L 0 ∨ hi R 0 ≤ d → live_blk b 0 d;
  r_top : R ≤ blk_size (max_size b) < 2 * R;
}.

(** The fields of an allocator at work on a heap. *)
Definition fields (b : BuddyAllocator) (B R : Z) (N : nat) (s : list SzInfo) (m : memory) : Prop :=
  base b = B ∧ end_ b = B + R ∧ nsize b = S N ∧ sizes b = Some s ∧ heap b = m.

Lemma fields_max b B R N s m : fields b B R N s m → max_size b = N.
Proof. intros (_ & _ & Hn & _). unfold max_size. rewrite Hn. lia. Qed.

(** The bits of [s'] are those of [s] and the blocks that meet [[x, y)]. *)
Definition marks (N : nat) (s s' : list SzInfo) (x y : Z) : Prop :=
  sizes_ok N s' ∧ (∀ j, hd s' j = hd s j) ∧
  (∀ j d, 0 ≤ d → (j ≤ N)%nat → ab s' j d = true ↔ ab s j d = true ∨ meets x y j d) ∧
  (∀ j d, 0 ≤ d → (j ≤ N)%nat → sb s' j d = true ↔ sb s j d = true ∨ ((0 < j)%nat ∧ meets x y j d)).

Lemma mark_fields b B R N s m x y :
  fields b B R N s m → sizes_ok N s → (16 | B) → (16 | x) → (16 | y) → 0 ≤ x → x ≤ y → y ≤ blk_size N →
  ∃ b' s', mark b (B + x) (B + y) = Done b' ∧ fields b' B R N s' m ∧ marks N s s' x y.
Proof.
  intros (Hb & He & Hn & Hs & Hm) Hok HB Hx Hy H0 H1 H2.
  destruct (mark_spec b N s x y) as (s' & Hmk & Hrest); [done|done|by rewrite Hb|done..|].
  rewrite Hb in Hmk. eexists _, s'. split; [exact Hmk|]. split; [by split_and!|done].
Qed.

Lemma mark_data_structures_spec b B R N s m L :
  fields b B R N s m → sizes_ok N s → (16 | B) → (16 | L) → 0 ≤ L → L ≤ blk_size N →
  ∃ b' s', mark_data_structures b (B + L) = Done (b', L) ∧ fields b' B R N s' m ∧ marks N s s' 0 L.
Proof.
  intros Hf Hok HB HL H0 H1. destruct (mark_fields b B R N s m 0 L) as (b' & s' & Hmk & Hrest); [done|done|done|by exists 0|done|lia|lia|lia|].
  exists b', s'. split; [|done]. unfold mark_data_structures. destruct Hf as (-> & _).
  rewrite checked_sub_ok by lia. cbn [mbind outcome_bind]. rewrite Z.add_0_r in Hmk. rewrite Hmk. cbn [mbind outcome_bind].
  do 2 f_equal. lia.
Qed.

Lemma mark_unavailable_spec b B R N s m :
  fields b B R N s m → sizes_ok N s → (16 | B) → (16 | R) → 0 ≤ R ≤ blk_size N →
  ∃ b' s', mark_unavailable b = Done (b', blk_size N - R) ∧ fields b' B R N s' m ∧ marks N s s' R (blk_size N).
Proof.
  intros Hf Hok HB HR HRN.
  assert (HT16 : (16 | blk_size N)) by (rewrite blk_size_P; by exists (P N)).
  destruct (mark_fields b B R N s m R (blk_size N)) as (b' & s' & Hmk & Hrest); [done|done|done|done|done|lia|lia|lia|].
  exists b', s'. split; [|done]. unfold mark_unavailable. rewrite (fields_max _ _ _ _ _ _ Hf). destruct Hf as (-> & -> & _).
  rewrite checked_sub_ok by lia. cbn [mbind outcome_bind]. rewrite Z.add_simpl_l, checked_sub_ok by lia. cbn [mbind outcome_bind].
  assert (Hun : (if decide (0 < blk_size N - R) then round_up (blk_size N - R) LEAF_SIZE else Done (blk_size N - R)) = Done (blk_size N - R)).
  { case_decide as H0; [|done]. unfold round_up. change LEAF_SIZE with 16. rewrite checked_sub_ok by lia.
    cbn [mbind outcome_bind]. f_equal. destruct HT16 as [t Ht], HR as [q Hq']. zdm. }
  rewrite Hun. cbn [mbind outcome_bind]. by rewrite Hmk.
Qed.

(** From the carved tables on. *)
Lemma init_rest b0 B R N s m L :
  fields b0 B R N s m → (4096 | B) → 0 < B → (16 | R) → (16 | L) → R ≤ blk_size N < 2 * R → 0 < L → 4 * L ≤ R →
  sizes_ok N s → Lists (hd s) m (λ _, []) → (∀ k h, hd s k = Some h → B ≤ h < B + L) →
  (∀ k d, ab s k d = false ∧ sb s k d = false) →
  ∃ b fl, ('(b1, meta) ← mark_data_structures b0 (B + L);
    '(b2, unavailable) ← mark_unavailable b1;
    let b3 := mkBuddy false (base b2) (base b2 + blk_size (max_size b2) - unavailable)
                (nsize b2) (sizes b2) (heap b2) in
    '(b4, fr) ← initfree b3 (B + L);
    if decide (fr = blk_size (max_size b4) - meta - unavailable) then
      Done (mkBuddy true (base b4) (end_ b4) (nsize b4) (sizes b4) (heap b4), Ok tt)
    else Done (b4, Err "allocator bug: free != total - meta - unavailable")) = Done (b, Ok tt) ∧ ready b B L R fl.
Proof.
  intros Hf0 HB HB0 HR16 HL16 [HR HR2] HL Hq Hok Hls Hheads Hclear.
  assert (HB16 : (16 | B)) by (apply (Z.divide_trans _ 4096); [by exists 256|done]).
  destruct (mark_data_structures_spec b0 B R N s m L) as (b1 & s1 & -> & Hf1 & Hok1 & Hh1 & Ha1 & Hb1); [done..|lia|lia|].
  destruct (mark_unavailable_spec b1 B R N s1 m) as (b2 & s2 & Hm2 & Hf2 & Hok2 & Hh2 & Ha2 & Hb2); [done..|lia|].
  cbn [mbind outcome_bind]. rewrite Hm2. cbn [mbind outcome_bind]. cbv zeta.
  rewrite (fields_max _ _ _ _ _ _ Hf2). pose proof Hf2 as (-> & _ & -> & -> & ->).
  assert (Hab : ∀ k d, 0 ≤ d → (k ≤ N)%nat → ab s2 k d = true ↔ meets 0 L k d ∨ meets R (blk_size N) k d).
  { intros k d Hd Hk. rewrite Ha2, Ha1 by done. rewrite (proj1 (Hclear k d)). naive_solver. }
  assert (Hsb : ∀ k d, 0 ≤ d → (k ≤ N)%nat → sb s2 k d = true ↔ (0 < k)%nat ∧ (meets 0 L k d ∨ meets R (blk_size N) k d)).
  { intros k d Hd Hk. rewrite Hb2, Hb1 by done. rewrite (proj2 (Hclear k d)). naive_solver. }
  assert (Hhd : ∀ j, hd s2 j = hd s j) by (intros j; by rewrite Hh2, Hh1).
  assert (Hheads2 : ∀ k h, hd s2 k = Some h → B ≤ h < B + L) by (intros k h; rewrite Hhd; apply Hheads).
  replace (B + blk_size N - (blk_size N - R)) with (B + R) by lia.
  destruct (initfree_loop_spec B L R N s2 HL HR Hq Hok2 Hab Hsb Hheads2 N 0 (mkBuddy false B (B + R) (S N) (Some s2) m) (λ _, []) 0)
    as (b4 & fl & Hloop & (B4 & N4 & _ & S4 & L4) & Hfill & _ & E4 & NS4).
  { split_and!; [done|unfold max_size; cbn; lia|cbn; lia|done|]. by eapply Lists_ext. }
  { lia. }
  { split_and!; [lia|intros z; split; [by intros ?%not_elem_of_nil|naive_solver]|done]. }
  unfold initfree. cbn [end_]. replace (max_size _) with N by (unfold max_size; cbn; lia). rewrite Hloop. cbn [mbind outcome_bind].
  rewrite N4. pose proof (left_over_ends L R N HL HR Hq HL16 HR16) as Hsum.
  rewrite decide_True by lia. eexists _, fl. split; [done|]. cbn [end_ nsize] in E4, NS4. split.
  - done.
  - exact B4.
  - exact E4.
  - split; cbn [base nsize sizes heap]; [lia|lia| |].
    + rewrite B4. change MAX_ALIGN with 4096. destruct HB as [q ->]. by apply Z.mod_mul.
    + exists s2. split; [done|]. replace (max_size _) with N by (unfold max_size; cbn; lia). rewrite B4.
      by eapply init_inv.
  - done.
  - intros x. by eapply free_cover.
  - set (bf := mkBuddy true _ _ _ _ _). assert (HNf : max_size bf = N) by (unfold max_size, bf; cbn; lia).
    unfold live_blk. rewrite HNf. unfold bf. cbn [sizes]. rewrite S4.
    intros d Hr Hm. split; [done|]. destruct Hr as [H0 Hd]. split.
    + rewrite (ab_marked L R N s2) by (done || lia). apply bool_decide_true. tauto.
    + destruct (sb s2 0 d) eqn:E; [|done]. apply Hsb in E as [? _]; lia.
  - replace (max_size _) with N by (unfold max_size; cbn; lia). done.
Qed.

Lemma init_sizes len :
  (if decide (blk_size (log2 (len / LEAF_SIZE) + 1 - 1) < len) then S (log2 (len / LEAF_SIZE) + 1)
   else (log2 (len / LEAF_SIZE) + 1)%nat) = S (top len).
Proof. unfold top. case_decide; lia. Qed.

Lemma round_up_ok n sz : 1 ≤ n → round_up n sz = Done (((n - 1) / sz + 1) * sz).
Proof. intros Hn. unfold round_up. by rewrite checked_sub_ok. Qed.

Lemma init_ready free_off b0 base0 end0 :
  initialized b0 = false → 0 < base0 → end0 < 2 ^ 62 → 0 ≤ free_off ≤ 32 → heap_lo base0 + 4096 ≤ heap_hi end0 →
  ∃ b fl L, init free_off b0 base0 end0 = Done (b, Ok tt) ∧
    ready b (heap_lo base0) L (heap_hi end0 - heap_lo base0) fl.
Proof.
  intros Hi Hb0 He0 Hoff Hsz. unfold init. rewrite Hi. change (Z.max LEAF_SIZE MAX_ALIGN) with 4096.
  rewrite round_up_ok by lia. cbn [mbind outcome_bind]. cbv zeta.
  unfold round_down. fold (heap_lo base0) (heap_hi end0). rewrite checked_sub_ok by lia. cbn [mbind outcome_bind].
  rewrite (init_sizes (heap_hi end0 - heap_lo base0)).
  assert (HB : (4096 | heap_lo base0)) by (by eexists). assert (HE : (4096 | heap_hi end0)) by (by eexists).
  assert (HB0 : 0 < heap_lo base0) by (unfold heap_lo; zdm).
  assert (HEb : heap_hi end0 < 2 ^ 62) by (unfold heap_hi; zdm).
  set (B := heap_lo base0) in *. set (E := heap_hi end0) in *. clearbody B E. remember (E - B) as R eqn:HR.
  assert (HR16 : (16 | R)).
  { subst R. destruct HB as [u ->], HE as [v ->]. exists (v * 256 - u * 256). lia. }
  destruct (top_spec R ltac:(lia) HR16) as [HT1 HT2]. set (N := top R) in *. clearbody N.
  unfold init_nonnull_slice. rewrite decide_False by lia. cbn [mbind outcome_bind].
  match goal with |- context [init_alloc ?bb _ _ _ _] => set (bb0 := bb) end.
  assert (Hf : base bb0 = B ∧ end_ bb0 = B + R ∧ nsize bb0 = S N) by (unfold bb0; cbn; split_and!; lia).
  assert (HN : max_size bb0 = N) by (unfold max_size; rewrite (proj2 (proj2 Hf)); lia).
  destruct (carve_tables free_off bb0 B N (heap b0) HN HB0 Hoff)
    as (s1 & i & r & r' & m1 & p3 & Hal & -> & Hsp & Hp3 & Hok & Hls & Hheads & Hclear).
  rewrite Hal. cbn [mbind outcome_bind]. rewrite Hsp. cbn [mbind outcome_bind].
  change sizeof_SzInfo with 48 in Hp3, Hheads. pose proof (carve_nonneg bb0 0 (S N)). pose proof (carve_nonneg bb0 1 N).
  pose proof (carve_bound bb0 0 (S N)) as C0. pose proof (carve_bound bb0 1 N) as C1. rewrite HN in C0, C1.
  specialize (C0 ltac:(lia)). specialize (C1 ltac:(lia)). rewrite P_S in C0.
  change LEAF_SIZE with 16. rewrite round_up_ok by lia. cbn [mbind outcome_bind].
  set (L := ((p3 - 1) / 16 + 1) * 16 - B).
  replace (((p3 - 1) / 16 + 1) * 16) with (B + L) by (unfold L; lia).
  assert (HLr : p3 - B ≤ L ≤ p3 - B + 15) by (unfold L; zdm).
  assert (HL16 : (16 | L)).
  { unfold L. destruct HB as [u ->]. exists ((p3 - 1) / 16 + 1 - u * 256). lia. }
  clearbody L.
  destruct (init_rest (set_sizes bb0 (i :: r') m1) B R N (i :: r') m1 L) as (b & fl & Hrest & Hready);
    try done; try lia.
  - unfold fields. cbn. destruct Hf as (? & ? & ?). by split_and!.
  - apply (tables_small N); lia.
  - intros k h Hh. pose proof (Hheads k h Hh). lia.
  - exists b, fl, L. split; [exact Hrest|exact Hready].
Qed.

(** A client that starts with nothing on a well-formed allocator. *)
Lemma sim_empty b fl : wf b fl → sim (live_blk b) b ∅.
Proof.
  intros Hb. split; [eauto| | |].
  - intros k c _. rewrite lookup_empty. naive_solver.
  - intros k c _. by rewrite lookup_empty.
  - intros p sz. by rewrite lookup_empty.
Qed.

(** C4. [init] sets up the allocator on every heap.  For every range of memory
    that has a whole page, wherever the compiler puts the list heads in their
    structure: [init] succeeds, neither panics nor reports a wrong count of
    free bytes; the state satisfies the invariant of the allocator, so that
    clients can start with it; the tables take at most a quarter of the range,
    and the free blocks cover exactly the rest. *)
Theorem buddy_init_ready free_off b0 base0 end0 :
  initialized b0 = false → 0 < base0 → end0 < 2 ^ 62 → 0 ≤ free_off ≤ 32 → heap_lo base0 + 4096 ≤ heap_hi end0 →
  ∃ b fl L, init free_off b0 base0 end0 = Done (b, Ok tt) ∧
    base b = heap_lo base0 ∧ end_ b = heap_hi end0 ∧ sim (live_blk b) b ∅ ∧
    0 < L ∧ 4 * L ≤ end_ b - base b ∧ wf b fl ∧
    ∀ x, (∃ k z, z ∈ fl k ∧ z ≤ x < z + blk_size k) ↔ base b + L ≤ x < end_ b.
Proof.
  intros Hi H0 H1 H2 H3. destruct (init_ready free_off b0 base0 end0 Hi H0 H1 H2 H3) as (b & fl & L & Hinit & [_ Hb He Hwf [HL Hq] Hfree _ _]).
  exists b, fl, L. rewrite Hb, He. replace (heap_lo base0 + _) with (heap_hi end0) in Hfree |- * by lia.
  split_and!; [done|done|done|by eapply sim_empty|done|lia|done|done].
Qed.

Lemma buddy_init_ready_witness :
  ∃ b fl L, init 0 new 2147483649 2147500048 = Done (b, Ok tt) ∧ base b = 2147487744 ∧ end_ b = 2147500032 ∧
    0 < L ∧ wf b fl.
Proof.
  destruct (buddy_init_ready 0 new 2147483649 2147500048 eq_refl) as (b & fl & L & H1 & H2 & H3 & _ & H4 & _ & H5 & _);
    [lia|lia|lia|by vm_compute|]. exists b, fl, L. split; [exact H1|]. split; [exact H2|]. split; [exact H3|]. split; [exact H4|exact H5].
Defined.

(** ** The kernel's allocator from boot on *)

(** A block that a client holds lies behind the tables and before the end. *)
Lemma held_inside b B L R fl b' A p sz :
  ready b B L R fl → sim (live_blk b) b' A → base b' = base b → nsize b' = nsize b → A !! p = Some sz →
  B + L ≤ p ∧ p + sz ≤ B + R.
Proof.
  intros Hr HS Hb Hn Hp. destruct (sim_wf _ _ _ HS) as [fl' Hwf'].
  destruct (sim_held _ _ _ _ _ HS Hp) as (k & c & Hlive & _ & -> & ->). pose proof (live_rng _ _ _ Hlive) as Hrng.
  destruct (block_in_heap _ _ _ Hrng) as [Hlo Hhi]. pose proof (blk_size_pos k) as Hz.
  assert (HN : max_size b' = max_size b) by (unfold max_size; by rewrite Hn).
  pose proof (r_base _ _ _ _ _ Hr) as HB. rewrite Hb, HB in *.
  assert (Hin : ∀ x, addr b' k c ≤ x < addr b' k c + blk_size k → lo L 0 ≤ (x - B) / 16 < hi R 0).
  { intros x Hx. destruct (decide (lo L 0 ≤ (x - B) / 16 < hi R 0)) as [|Hno]; [done|]. exfalso.
    set (d := (x - B) / 16) in *.
    assert (Hd : rng (max_size b') 0 d).
    { split; [lia|]. rewrite (blk_size_P (max_size b')) in Hhi. rewrite Nat.sub_0_r. unfold d. zdm. }
    assert (HR0 : live_blk b 0 d) by (apply (r_leaf _ _ _ _ _ Hr); [by rewrite <-HN|lia]).
    assert (Hl0 : live_blk b' 0 d) by (apply (sim_live _ _ _ HS); [done|by left]).
    assert (Hne : ¬ (k = 0%nat ∧ c = d)) by (intros [-> ->]; by apply (sim_res _ _ _ HS _ _ HR0)).
    pose proof (live_disjoint _ _ _ _ _ _ Hwf' Hlive Hl0 Hne) as Hdis. unfold disjoint_ranges in Hdis.
    unfold addr in Hdis, Hx. rewrite Hb in Hdis, Hx. change (blk_size 0) with 16 in *. unfold d in Hdis. zdm. }
  pose proof (Hin (addr b' k c) ltac:(lia)) as H1. pose proof (Hin (addr b' k c + blk_size k - 1) ltac:(lia)) as H2.
  pose proof (lo_spec L 0 ((addr b' k c - B) / 16)). pose proof (hi_spec R 0 ((addr b' k c + blk_size k - 1 - B) / 16)).
  change (blk_size 0) with 16 in *. zdm.
Qed.

(** What a client may ask of the allocator of a kernel that ends at [kend]: more
    than eight bytes (eight or less panic in [firstk]), at most the heap, with
    an alignment of at most a page.  Freeing is always served: the client frees
    only what it holds. *)
Definition served (kend : Z) (op : client_op) : Prop :=
  match op with
  | Alloc l => 8 < size_ l ≤ PHYSTOP - heap_lo kend ∧ align l ≤ MAX_ALIGN
  | Free _ => True
  end.

Lemma served_ok b kend L fl op :
  ready b (heap_lo kend) L (heap_hi PHYSTOP - heap_lo kend) fl → served kend op → op_ok b op.
Proof.
  intros Hr. pose proof (r_top _ _ _ _ _ Hr) as Ht. change (heap_hi PHYSTOP) with PHYSTOP in Ht.
  destruct op as [l|p]; [|done]. intros [? ?]. unfold op_ok, layout_ok. lia.
Qed.

(** Fewer than 64 size classes: the heap lies below [PHYSTOP]. *)
Lemma ready_nsize b kend L fl :
  ready b (heap_lo kend) L (heap_hi PHYSTOP - heap_lo kend) fl → (nsize b < 64)%nat.
Proof.
  intros Hr. pose proof (r_top _ _ _ _ _ Hr) as [_ Ht]. pose proof (wf_base _ _ (r_wf _ _ _ _ _ Hr)) as Hb.
  rewrite (r_base _ _ _ _ _ Hr) in Hb. change (heap_hi PHYSTOP) with 2281701376 in Ht.
  destruct (decide (nsize b < 64)%nat) as [|Hge]; [done|]. exfalso.
  rewrite blk_size_P in Ht. unfold P, max_size in Ht.
  assert (2 ^ 63 ≤ 2 ^ Z.of_nat (nsize b - 1)) by (apply Z.pow_le_mono_r; lia). lia.
Qed.

(** C3. The kernel's memory is safe from boot on.  [kalloc::init] on any kernel
    image that leaves a page below [PHYSTOP] returns.  Then every run of a
    client that frees only what it holds, and asks for more than 8 bytes, no
    more than the heap and no alignment above a page, returns; the blocks it
    holds lie behind the kernel and the allocator's tables and below
    [PHYSTOP], and any two of them are disjoint.  A request of at most 8 bytes
    panics in every state of such a run. *)
Theorem kmem_boot_safe free_off kend ops :
  0 < kend → 0 ≤ free_off ≤ 32 → heap_lo kend + 4096 ≤ PHYSTOP → Forall (served kend) ops →
  ∃ b L b' A, kmem_init free_off new kend = Done b ∧ 0 < L ∧ 4 * L ≤ PHYSTOP - heap_lo kend ∧
    run b ∅ ops = Done (b', A) ∧
    (∀ p sz, A !! p = Some sz → heap_lo kend + L ≤ p ∧ p + sz ≤ PHYSTOP) ∧
    (∀ p sz q szq, A !! p = Some sz → A !! q = Some szq → p ≠ q → disjoint_ranges p sz q szq) ∧
    (∀ l, size_ l ≤ 8 → align l ≤ MAX_ALIGN →
       alloc_ b' l = Panic "slice index out of range").
Proof.
  intros H0 Hoff Hsz Hops. change PHYSTOP with (heap_hi PHYSTOP) in Hsz |- *.
  destruct (init_ready free_off new kend PHYSTOP eq_refl H0 ltac:(done) Hoff Hsz) as (b & fl & L & Hinit & Hr).
  pose proof (r_own _ _ _ _ _ Hr) as [HL Hq].
  assert (Hok : Forall (op_ok b) ops) by (eapply Forall_impl; [exact Hops|intros op; by eapply served_ok]).
  destruct (run_sim _ _ _ _ (sim_empty _ _ (r_wf _ _ _ _ _ Hr)) Hok) as (b' & A & Hrun & HS & Hb & Hn).
  pose proof (ready_nsize _ _ _ _ Hr) as H64.
  exists b, L, b', A. unfold kmem_init. rewrite Hinit. cbn [mbind outcome_bind].
  split_and!; [done|done|exact Hq|done| |intros; by eapply sim_disjoint|].
  - intros p sz Hp. pose proof (held_inside _ _ _ _ _ _ _ _ _ Hr HS Hb Hn Hp). lia.
  - intros l Hl Hal. rewrite <-Hn in H64. destruct (sim_wf _ _ _ HS) as [fl' [_ _ _ (s & Hs & _)]]. by eapply small_request_panics.
Qed.

(** A kernel that leaves four pages: two blocks are taken, the first is given
    back, and a whole page is taken. *)
Definition boot_ops : list client_op :=
  [Alloc (mkLayout 100 8); Alloc (mkLayout 512 512); Free 2281686016; Alloc (mkLayout 4096 4096)].

Lemma kmem_boot_safe_witness :
  ∃ b b' A, kmem_init 0 new (PHYSTOP - 16384) = Done b ∧ run b ∅ boot_ops = Done (b', A) ∧
    ∀ p sz q szq, A !! p = Some sz → A !! q = Some szq → p ≠ q → disjoint_ranges p sz q szq.
Proof.
  destruct (kmem_boot_safe 0 (PHYSTOP - 16384) boot_ops) as (b & L & b' & A & H1 & _ & _ & H2 & _ & H3 & _);
    [by vm_compute|lia|by vm_compute|repeat constructor; vm_compute; congruence|].
  exists b, b', A. split; [exact H1|]. split; [exact H2|exact H3].
Defined.
