(* ===== verification/Log.v ===== *)
(** * The redo log of [log.rs]

    The log makes a group of file-system calls atomic: [commit] copies the
    modified blocks from the buffer cache to the log area, writes the header
    (the commit point), installs the blocks at home and clears the header;
    [recover] runs at boot and replays a committed log.

    The buffer cache is used through an interface, the class [BlockCache]: the
    operations of [BCACHE] and [BufGuard] that the log calls, each of which may
    panic or not return.  [BlockCacheLaws] says what a call has done when it
    returns, and that one that does not return leaves the disk alone, apart
    from the block it was told to write.  [BioLog] shows that [bio.rs] as it
    is written keeps these laws. *)

From S2P Require Import Prelude.

Open Scope Z_scope.

Definition BSIZE : nat := 1024.
Definition MAXOPBLOCKS : Z := 10.
Definition LOGSIZE : Z := MAXOPBLOCKS * 3.
Definition ROOTDEV : Z := 1.

Abbreviation block := (list Z).

(** ** Calls that change a store

    A call takes the store of the cache and the disk, and leaves it changed
    whether it returns, panics or does not return ([None]). *)
Definition io (T A : Type) : Type := T → T * option (outcome A).

#[export] Instance io_ret T : MRet (io T) := λ A a s, (s, Some (Done a)).
#[export] Instance io_bind T : MBind (io T) := λ A B f m s,
  match m s with
  | (s1, Some (Done a)) => f a s1
  | (s1, Some (Panic msg)) => (s1, Some (Panic msg))
  | (s1, Some (Fault a)) => (s1, Some (Fault a))
  | (s1, None) => (s1, None)
  end.

Definition lift {T A} (o : outcome A) : io T A := λ s, (s, Some o).
Definition gets {T A} (f : T → A) : io T A := λ s, (s, Some (Done (f s))).
Definition modify {T} (f : T → T) : io T unit := λ s, (f s, Some (Done tt)).

(** ** The buffer cache as the log sees it *)
Class BlockCache (T : Type) := {
  buf_guard : Type;                                 (* [BufGuard] *)
  bread : Z → Z → io T buf_guard;                   (* [BCACHE.read(dev, blockno)] *)
  gdata : T → buf_guard → block;                    (* the bytes of the buffer *)
  gblockno : T → buf_guard → Z;                     (* [blockno()] *)
  gfill : buf_guard → block → T → T;                (* writing the bytes of the buffer *)
  gwrite : buf_guard → io T unit;                   (* [write()] *)
  gpin : buf_guard → T → T;                         (* [pin()] *)
  gunpin : buf_guard → T → T;                       (* [unpin()] *)
  gdrop : buf_guard → io T unit;                    (* [drop] *)
  view : T → Z → block;                             (* what a reader of the block gets *)
  disk : T → Z → block;                             (* what the disk holds *)
  writes : T → list (Z * block);                    (* the block writes so far *)
  held : T → list (buf_guard * Z);                  (* the guards in use and their blocks, last first *)
  pins : T → Z → Z;                                 (* how often a block is pinned *)
  ready : T → Prop;                                 (* the invariant of the cache *)
  reliable : T → Prop;                              (* calls return, see the laws *)
}.

Definition bupd (d : Z → block) (b : Z) (x : block) (c : Z) : block :=
  if decide (c = b) then x else d c.

Definition apply_writes (d : Z → block) (ws : list (Z * block)) : Z → block :=
  foldl (λ d w, bupd d w.1 w.2) d ws.

Section laws.
Context {T : Type} `{BlockCache T}.

(** From [s] the call [m] returns with [Q], or it stops for good with [stop];
    the second never happens in a reliable store. *)
Definition after {A} (m : io T A) (s : T) (Q : A → T → Prop) (stop : T → Prop) : Prop :=
  match m s with
  | (s', Some (Done a)) => Q a s'
  | (s', _) => ¬ reliable s ∧ stop s'
  end.

(** From [s] to [s'] the blocks [ws] have been written to disk. *)
Definition written (s : T) (ws : list (Z * block)) (s' : T) : Prop :=
  (∀ c, disk s' c = apply_writes (disk s) ws c) ∧ writes s' = writes s ++ ws.

(** What a reader sees, the pins and reliability stay. *)
Definition keeps (s s' : T) : Prop :=
  ready s' ∧ (∀ c, view s' c = view s c) ∧ (∀ c, pins s' c = pins s c) ∧ (reliable s → reliable s').
End laws.

(** The contract of the cache.  A process that holds at most one guard may ask
    for one of another block; a guard is dropped when its block is on disk or
    pinned; a call that does not return leaves the disk alone, and [write] may
    have written its block or not. *)
Class BlockCacheLaws (T : Type) `{BlockCache T} := {
  bread_law : ∀ s b, ready s → (∀ g, (g, b) ∉ held s) → (length (held s) ≤ 1)%nat →
    after (bread ROOTDEV b) s
      (λ g s', keeps s s' ∧ written s [] s' ∧ held s' = (g, b) :: held s) (written s []);
  guard_law : ∀ s g b, ready s → (g, b) ∈ held s → gdata s g = view s b;
  gfill_law : ∀ s g b x, ready s → (g, b) ∈ held s → length x = BSIZE →
    let s' := gfill g x s in
    ready s' ∧ (∀ c, view s' c = bupd (view s) b x c) ∧ (∀ c, pins s' c = pins s c) ∧
    (reliable s → reliable s') ∧ written s [] s' ∧ held s' = held s;
  gwrite_law : ∀ s g b, ready s → (g, b) ∈ held s →
    after (gwrite g) s
      (λ _ s', keeps s s' ∧ written s [(b, view s b)] s' ∧ held s' = held s)
      (λ s', written s [] s' ∨ written s [(b, view s b)] s');
  gunpin_law : ∀ s g b, ready s → (g, b) ∈ held s → 1 ≤ pins s b →
    let s' := gunpin g s in
    ready s' ∧ (∀ c, view s' c = view s c) ∧
    (∀ c, pins s' c = if decide (c = b) then pins s b - 1 else pins s c) ∧
    (reliable s → reliable s') ∧ written s [] s' ∧ held s' = held s;
  gdrop_law : ∀ s g b gs, ready s → held s = (g, b) :: gs → (view s b = disk s b ∨ 1 ≤ pins s b) →
    after (gdrop g) s (λ _ s', keeps s s' ∧ written s [] s' ∧ held s' = gs) (written s []);
  view_size : ∀ s b, ready s → length (view s b) = BSIZE;
}.

(** ** The header *)
Record LogHeader := mkHead { n : Z; hblock : list Z }.

Record Log := mkLog {
  start : Z;
  size : Z;
  dev : Z;
  outstanding : Z;
  committing : bool;
  lh : LogHeader;
}.

Definition set_lh (l : Log) (h : LogHeader) : Log :=
  mkLog (start l) (size l) (dev l) (outstanding l) (committing l) h.
Definition set_n (l : Log) (v : Z) : Log := set_lh l (mkHead v (hblock (lh l))).

Definition sizeof_LogHeader : nat := 4 + 4 * 30.

(** The words of the [repr(C)] structure, little endian. *)
Fixpoint decode_words (k : nat) (bs : list Z) : list Z :=
  match k with
  | O => []
  | S k => le_val (take 4 bs) :: decode_words k (drop 4 bs)
  end.

Definition encode_words (ws : list Z) : list Z := ws ≫= le_bytes 4.

Definition decode_head (x : block) : LogHeader :=
  mkHead (le_val (take 4 x)) (decode_words 30 (drop 4 x)).

(** [*hb = self.lh]: the rest of the block keeps its contents. *)
Definition encode_head (h : LogHeader) (x : block) : block :=
  encode_words (n h :: hblock h) ++ drop sizeof_LogHeader x.

Section ops.
Context {T : Type} `{BlockCache T}.

Definition read_head (l : Log) : io T Log :=
  buf ← bread (dev l) (start l);
  x ← gets (λ s, gdata s buf);
  gdrop buf;;
  mret (set_lh l (decode_head x)).

(** [for tail in 0..self.lh.n], [k] rounds left. *)
Fixpoint install_loop (l : Log) (recovering : bool) (tail : Z) (k : nat) : io T unit :=
  match k with
  | O => mret tt
  | S k =>
      a ← lift (checked_add32 (start l) tail);
      a ← lift (checked_add32 a 1);
      lbuf ← bread (dev l) a;
      b ← lift (index (hblock (lh l)) tail);
      dbuf ← bread (dev l) b;
      x ← gets (λ s, gdata s lbuf);
      modify (gfill dbuf x);;
      gwrite dbuf;;
      (if recovering then mret tt else modify (gunpin dbuf));;
      gdrop dbuf;;
      gdrop lbuf;;
      install_loop l recovering (tail + 1) k
  end.

Definition install_trans (l : Log) (recovering : bool) : io T unit :=
  install_loop l recovering 0 (Z.to_nat (n (lh l))).

Definition write_head (l : Log) : io T unit :=
  buf ← bread (dev l) (start l);
  x ← gets (λ s, gdata s buf);
  modify (gfill buf (encode_head (lh l) x));;
  gwrite buf;;
  gdrop buf.

Definition recover (l : Log) : io T Log :=
  l1 ← read_head l;
  install_trans l1 true;;
  let l2 := set_n l1 0 in
  write_head l2;;
  mret l2.

Definition new (logstart nlog dev : Z) : io T Log :=
  recover (mkLog logstart nlog dev 0 false (mkHead 0 (replicate 30 0))).

Fixpoint write_log_loop (l : Log) (tail : Z) (k : nat) : io T unit :=
  match k with
  | O => mret tt
  | S k =>
      a ← lift (checked_add32 (start l) tail);
      a ← lift (checked_add32 a 1);
      to ← bread (dev l) a;
      b ← lift (index (hblock (lh l)) tail);
      from ← bread (dev l) b;
      x ← gets (λ s, gdata s from);
      modify (gfill to x);;
      gwrite to;;
      gdrop from;;
      gdrop to;;
      write_log_loop l (tail + 1) k
  end.

Definition write_log (l : Log) : io T unit :=
  write_log_loop l 0 (Z.to_nat (n (lh l))).

Definition commit (l : Log) : io T Log :=
  if decide (0 < n (lh l)) then
    write_log l;;
    write_head l;;
    install_trans l false;;
    let l1 := set_n l 0 in
    write_head l1;;
    mret l1
  else mret l.

(** ** The operations under the lock *)

(** [Mutex<Log>::init]: the assertion on the header size. *)
Definition init : outcome unit :=
  if decide (BSIZE ≤ sizeof_LogHeader)%nat then Done tt
  else Panic "initlog: too big log header".

(** One round of the loop of [begin_op]: [None] when the caller sleeps on
    the log and tries again. *)
Definition begin_op (l : Log) : option Log :=
  if committing l then None
  else if decide (LOGSIZE < n (lh l) + (outstanding l + 1) * MAXOPBLOCKS) then None
  else Some (mkLog (start l) (size l) (dev l) (outstanding l + 1) (committing l) (lh l)).

(** The first critical section of [end_op]: whether the caller commits
    ([true]) or wakes the waiters ([false]). *)
Definition end_op_enter (l : Log) : outcome (Log * bool) :=
  o ← checked_sub (outstanding l) 1;
  if committing l then Panic "log.commiting"
  else if decide (o = 0) then
    Done (mkLog (start l) (size l) (dev l) o true (lh l), true)
  else Done (mkLog (start l) (size l) (dev l) o false (lh l), false).

(** The second critical section, after [commit]. *)
Definition end_op_leave (l : Log) : Log :=
  mkLog (start l) (size l) (dev l) (outstanding l) false (lh l).

Definition end_op (l : Log) : io T Log :=
  '(l1, c) ← lift (end_op_enter l);
  if (c : bool) then
    l2 ← commit l1;
    mret (end_op_leave l2)
  else mret l1.

(** [write]: the caller has modified the buffer of block [blockno]; [take_slot]
    is what happens to the log itself, and tells whether a slot was taken
    ([false]: the block was absorbed). *)
Definition take_slot (l : Log) (blockno : Z) : outcome (Log * bool) :=
  big ← (if decide (LOGSIZE ≤ n (lh l)) then Done true
         else m ← checked_sub (size l) 1; Done (bool_decide (m ≤ n (lh l))));
  if (big : bool) then Panic "too big a transaction"
  else if decide (outstanding l < 1) then Panic "LOG.write outside of trans"
  else if decide (blockno ∈ take (Z.to_nat (n (lh l))) (hblock (lh l))) then Done (l, false)
  else
    bs ← store (hblock (lh l)) (n (lh l)) blockno;
    Done (set_lh l (mkHead (n (lh l) + 1) bs), true).

Definition write (l : Log) (b : buf_guard) : io T Log :=
  blockno ← gets (λ s, gblockno s b);
  '(l1, taken) ← lift (take_slot l blockno);
  (if (taken : bool) then modify (gpin b) else mret tt);;
  gdrop b;;
  mret l1.
End ops.
