(* ===== verification/LogSpec.v ===== *)
(** * Crash safety of the log

    [Log] translates [log.rs]; here are its properties: the header survives
    its encoding, [commit] performs a known sequence of block writes, and a
    crash after any prefix of that sequence, followed by [recover], leaves
    every home block old or every one new.  The second half is the admission
    protocol of [begin_op], [write] and [end_op]. *)

From S2P Require Import Prelude Log.

Open Scope Z_scope.

(** ** The header *)
Definition word_ok (z : Z) : Prop := 0 ≤ z < u32_mod.

Definition head_ok (h : LogHeader) : Prop :=
  word_ok (n h) ∧ length (hblock h) = 30%nat ∧ Forall word_ok (hblock h).

Lemma length_encode_words ws : length (encode_words ws) = (4 * length ws)%nat.
Proof.
  induction ws as [|w ws IH]; [done|].
  change (encode_words (w :: ws)) with (le_bytes 4 w ++ encode_words ws).
  rewrite length_app, length_le_bytes, IH. simpl. lia.
Qed.

Lemma decode_encode_words ws r :
  Forall word_ok ws → decode_words (length ws) (encode_words ws ++ r) = ws.
Proof.
  induction 1 as [|w ws Hw _ IH]; [done|].
  change (encode_words (w :: ws)) with (le_bytes 4 w ++ encode_words ws). cbn [length decode_words].
  rewrite <-app_assoc. rewrite (take_app_length' (le_bytes 4 w)), (drop_app_length' (le_bytes 4 w))
    by (by rewrite length_le_bytes).
  rewrite le_val_bytes by (unfold word_ok in Hw; simpl; lia). by rewrite IH.
Qed.

Lemma decode_encode_head h x : head_ok h → decode_head (encode_head h x) = h.
Proof.
  intros (Hn & Hl & Hb). unfold decode_head, encode_head. destruct h as [m bs]; cbn [n hblock] in *.
  change (encode_words (m :: bs)) with (le_bytes 4 m ++ encode_words bs). rewrite <-app_assoc.
  rewrite (take_app_length' (le_bytes 4 m)), (drop_app_length' (le_bytes 4 m))
    by (by rewrite length_le_bytes).
  rewrite le_val_bytes by (unfold word_ok in Hn; simpl; lia). f_equal.
  rewrite <-Hl. by apply decode_encode_words.
Qed.

Lemma length_encode_head h x :
  length (hblock h) = 30%nat → length x = BSIZE → length (encode_head h x) = BSIZE.
Proof.
  intros Hl Hx. unfold encode_head. rewrite length_app, length_encode_words, length_drop, Hx.
  simpl length. rewrite Hl. done.
Qed.

(** ** Sequences of block writes *)
Lemma apply_writes_app d ws ws' :
  apply_writes d (ws ++ ws') = apply_writes (apply_writes d ws) ws'.
Proof. apply foldl_app. Qed.

Lemma apply_writes_ext d d' ws c : (∀ c, d c = d' c) → apply_writes d ws c = apply_writes d' ws c.
Proof.
  revert d d'. induction ws as [|w ws IH]; intros d d' Hd; [apply Hd|].
  cbn. apply IH. intros b. unfold bupd. by case_decide.
Qed.

Lemma apply_writes_out d ws c : c ∉ ws.*1 → apply_writes d ws c = d c.
Proof.
  revert d. induction ws as [|w ws IH]; intros d Hc; [done|]. cbn in *.
  apply not_elem_of_cons in Hc as [Hne Hc]. rewrite IH by done. unfold bupd. by rewrite decide_False.
Qed.

Lemma apply_writes_in d ws c x :
  NoDup ws.*1 → (c, x) ∈ ws → apply_writes d ws c = x.
Proof.
  revert d. induction ws as [|w ws IH]; intros d Hnd Hc; [by apply not_elem_of_nil in Hc|].
  cbn in *. apply NoDup_cons in Hnd as [Hni Hnd].
  apply elem_of_cons in Hc as [<-|Hc]; [|by apply IH].
  rewrite apply_writes_out by done. unfold bupd. by rewrite decide_True.
Qed.

Lemma apply_writes_last d ws b x : apply_writes d (ws ++ [(b, x)]) b = x.
Proof. rewrite apply_writes_app. cbn. unfold bupd. by rewrite decide_True. Qed.

(** The writes of [write_log] and of [install_trans] for the home blocks [bs],
    when readers see [v]. *)
Fixpoint log_writes (st tail : Z) (v : Z → block) (bs : list Z) : list (Z * block) :=
  match bs with
  | [] => []
  | b :: bs => (st + tail + 1, v b) :: log_writes st (tail + 1) v bs
  end.

Fixpoint install_writes (st tail : Z) (v : Z → block) (bs : list Z) : list (Z * block) :=
  match bs with
  | [] => []
  | b :: bs => (b, v (st + tail + 1)) :: install_writes st (tail + 1) v bs
  end.

(** A home block lies outside the log area of [st], which the image builder
    makes [LOGSIZE] blocks long: the header and up to [LOGSIZE - 1] copies. *)
Definition outside (st b : Z) : Prop := b < st ∨ st + LOGSIZE ≤ b.

Lemma log_writes_dom st tail v bs c :
  c ∈ (log_writes st tail v bs).*1 → st + tail + 1 ≤ c ≤ st + tail + Z.of_nat (length bs).
Proof.
  revert tail. induction bs as [|b bs IH]; intros tail Hc; cbn in *; [by apply not_elem_of_nil in Hc|].
  apply elem_of_cons in Hc as [->|Hc]; [lia|]. apply IH in Hc. lia.
Qed.

Lemma length_log_writes st tail v bs : length (log_writes st tail v bs) = length bs.
Proof. revert tail. induction bs as [|b bs IH]; intros tail; cbn; [done|by rewrite IH]. Qed.

Lemma log_writes_nodup st tail v bs : NoDup (log_writes st tail v bs).*1.
Proof.
  revert tail. induction bs as [|b bs IH]; intros tail; cbn; constructor; [|apply IH].
  intros Hc%log_writes_dom. lia.
Qed.

Lemma log_writes_elem st tail v bs i b :
  bs !! i = Some b → (st + tail + Z.of_nat i + 1, v b) ∈ log_writes st tail v bs.
Proof.
  revert tail i. induction bs as [|b' bs IH]; intros tail i Hi; [done|]. destruct i as [|i]; simplify_eq/=.
  - replace (st + tail + Z.of_nat 0 + 1) with (st + tail + 1) by lia. left.
  - right. replace (st + tail + Z.of_nat (S i) + 1) with (st + (tail + 1) + Z.of_nat i + 1) by lia.
    by apply IH.
Qed.

Lemma install_writes_dom st tail v bs : (install_writes st tail v bs).*1 = bs.
Proof. revert tail. induction bs as [|b bs IH]; intros tail; cbn; [done|]. by rewrite IH. Qed.

Lemma install_writes_ext st tail v v' bs :
  (∀ i, (i < length bs)%nat → v' (st + tail + Z.of_nat i + 1) = v (st + tail + Z.of_nat i + 1)) →
  install_writes st tail v' bs = install_writes st tail v bs.
Proof.
  revert tail. induction bs as [|b bs IH]; intros tail Hv; cbn; [done|]. f_equal.
  - specialize (Hv 0%nat). replace (st + tail + Z.of_nat 0 + 1) with (st + tail + 1) in Hv by lia.
    rewrite Hv; [done|cbn; lia].
  - apply IH. intros i Hi. specialize (Hv (S i)).
    replace (st + tail + Z.of_nat (S i) + 1) with (st + (tail + 1) + Z.of_nat i + 1) in Hv by lia.
    apply Hv. cbn. lia.
Qed.

Lemma log_writes_ext st tail v v' bs :
  (∀ b, b ∈ bs → v' b = v b) → log_writes st tail v' bs = log_writes st tail v bs.
Proof.
  revert tail. induction bs as [|b bs IH]; intros tail Hv; cbn; [done|]. f_equal.
  - rewrite Hv; [done|left].
  - apply IH. intros. apply Hv. by right.
Qed.

(** Installing after logging moves every home block to what readers saw. *)
Lemma install_after_log st v w bs :
  (∀ i b, bs !! i = Some b → w (st + 0 + Z.of_nat i + 1) = v b) →
  install_writes st 0 w bs = (λ b, (b, v b)) <$> bs.
Proof.
  generalize 0. revert w. induction bs as [|b bs IH]; intros w tail Hw; cbn; [done|]. f_equal.
  - specialize (Hw 0%nat b eq_refl). replace (st + tail + Z.of_nat 0 + 1) with (st + tail + 1) in Hw by lia.
    by rewrite Hw.
  - apply IH. intros i c Hi. rewrite <-(Hw (S i) c Hi). f_equal. lia.
Qed.

Section spec.
Context {T : Type} `{BlockCacheLaws T}.
Implicit Types (s : T) (l : Log).

(** [evol s ws s']: by calls that returned, the cache went from [s] to [s']
    with the writes [ws]. *)
Record evol (s : T) (ws : list (Z * block)) (s' : T) : Prop := {
  ev_ready : ready s';
  ev_view : ∀ c, view s' c = apply_writes (view s) ws c;
  ev_written : written s ws s';
  ev_rel : reliable s → reliable s';
}.

Lemma ev_disk s ws s' : evol s ws s' → ∀ c, disk s' c = apply_writes (disk s) ws c.
Proof. intros V. apply (ev_written _ _ _ V). Qed.

Lemma written_trans s ws s' ws' s'' :
  written s ws s' → written s' ws' s'' → written s (ws ++ ws') s''.
Proof.
  intros [D W] [D' W']. split.
  - intros c. rewrite D', apply_writes_app. by apply apply_writes_ext.
  - by rewrite W', W, app_assoc.
Qed.

Lemma evol_trans s ws s' ws' s'' :
  evol s ws s' → evol s' ws' s'' → evol s (ws ++ ws') s''.
Proof.
  intros [R V D L] [R' V' D' L']. split; [done| | |auto].
  - intros c. rewrite V', apply_writes_app. by apply apply_writes_ext.
  - by eapply written_trans.
Qed.

Lemma written_nil s : written s [] s.
Proof. split; [done|]. by rewrite app_nil_r. Qed.

Lemma evol_refl s : ready s → evol s [] s.
Proof. intros R. split; [done..|apply written_nil|done]. Qed.

(** [goes m s ws Q]: run from [s], the code [m] makes the writes [ws] and
    returns with [Q]; or it stops for good after some of them, in order, which
    does not happen in a reliable store. *)
Definition goes {A} (m : io T A) (s : T) (ws : list (Z * block)) (Q : A → T → Prop) : Prop :=
  after m s (λ a s', evol s ws s' ∧ Q a s') (λ s', ∃ ws', ws' `prefix_of` ws ∧ written s ws' s').

Lemma goes_ret {A} (a : A) s (Q : A → T → Prop) : ready s → Q a s → goes (mret a) s [] Q.
Proof. intros R HQ. split; [by apply evol_refl|done]. Qed.

Lemma goes_bind {A B} (m : io T A) (f : A → io T B) s ws ws' Q R :
  goes m s ws Q → (∀ a s', evol s ws s' → Q a s' → goes (f a) s' ws' R) →
  goes (m ≫= f) s (ws ++ ws') R.
Proof.
  unfold goes, after, mbind, io_bind. intros Hm Hf.
  destruct (m s) as [s1 [[a|msg|x]|]].
  2-4: destruct Hm as (Hr & w & Hw & HW); split; [done|]; exists w; split; [by apply prefix_app_r|done].
  destruct Hm as [V HQ]. specialize (Hf a s1 V HQ). destruct (f a s1) as [s2 [[b|msg|x]|]].
  { destruct Hf as [V' HR]. split; [by eapply evol_trans|done]. }
  all: destruct Hf as (Hr & w & Hw & HW); split; [by intros ?%(ev_rel _ _ _ V)|]; exists (ws ++ w);
    (split; [by apply prefix_app|]); (eapply written_trans; [apply V|done]).
Qed.

(** The first call makes no writes. *)
Lemma goes_read {A B} (m : io T A) (f : A → io T B) s ws Q R :
  goes m s [] Q → (∀ a s', evol s [] s' → Q a s' → goes (f a) s' ws R) → goes (m ≫= f) s ws R.
Proof. apply (goes_bind m f s [] ws). Qed.

Lemma goes_lift {A B} (o : outcome A) (a : A) (f : A → io T B) s ws R :
  o = Done a → goes (f a) s ws R → goes (lift o ≫= f) s ws R.
Proof. by intros ->. Qed.

Lemma goes_gets {A B} (h : T → A) (f : A → io T B) s ws R :
  goes (f (h s)) s ws R → goes (gets h ≫= f) s ws R.
Proof. done. Qed.

Lemma goes_post {A} (m : io T A) s ws (Q Q' : A → T → Prop) :
  goes m s ws Q → (∀ a s', Q a s' → Q' a s') → goes m s ws Q'.
Proof.
  unfold goes, after. destruct (m s) as [s1 [[a|msg|x]|]]; [|done..]. intros [V HQ] Himp. auto.
Qed.

Lemma goes_eq {A} (m : io T A) s ws ws' Q : goes m s ws Q → ws' = ws → goes m s ws' Q.
Proof. by intros ? ->. Qed.

(** The rest makes no writes. *)
Lemma goes_tail {A B} (m : io T A) (f : A → io T B) s ws Q R :
  goes m s ws Q → (∀ a s', evol s ws s' → Q a s' → goes (f a) s' [] R) → goes (m ≫= f) s ws R.
Proof. intros Hm Hf. rewrite <-(app_nil_r ws). by eapply goes_bind. Qed.

(** *** The calls of the cache *)
Lemma keeps_evol s s' : keeps s s' → written s [] s' → evol s [] s'.
Proof. intros (R & V & _ & L) W. by split. Qed.

Lemma goes_stop {A} (m : io T A) s ws (Q Q' : A → T → Prop) :
  after m s Q (written s []) → (∀ a s', Q a s' → evol s ws s' ∧ Q' a s') → goes m s ws Q'.
Proof.
  unfold goes, after. destruct (m s) as [s1 [[a|msg|x]|]]; [by intros HQ Himp; apply Himp| | |].
  all: intros [Hr HW] _; split; [done|]; exists []; split; [apply prefix_nil|done].
Qed.

Lemma bread_goes s b :
  ready s → (∀ g, (g, b) ∉ held s) → (length (held s) ≤ 1)%nat →
  goes (bread ROOTDEV b) s [] (λ g s', held s' = (g, b) :: held s ∧ ∀ c, pins s' c = pins s c).
Proof.
  intros R Hh Hl. eapply goes_stop; [by apply bread_law|]. intros g s' (K & W & Hg).
  split; [by apply keeps_evol|]. split; [done|apply K].
Qed.

Lemma gdrop_goes s g b gs :
  ready s → held s = (g, b) :: gs → (view s b = disk s b ∨ 1 ≤ pins s b) →
  goes (gdrop g) s [] (λ _ s', held s' = gs ∧ ∀ c, pins s' c = pins s c).
Proof.
  intros R Hh Hc. eapply goes_stop; [by eapply gdrop_law|]. intros u s' (K & W & Hg).
  split; [by apply keeps_evol|]. split; [done|apply K].
Qed.

Lemma gunpin_goes s g b :
  ready s → (g, b) ∈ held s → 1 ≤ pins s b →
  goes (modify (gunpin g)) s []
    (λ _ s', held s' = held s ∧ ∀ c, pins s' c = if decide (c = b) then pins s b - 1 else pins s c).
Proof.
  intros R Hh Hp. destruct (gunpin_law s g b R Hh Hp) as (R' & V & P & L & W & G). by split.
Qed.

(** Filling a buffer and writing it is one write of the block. *)
Lemma put_goes s g b x {A} (f : unit → io T A) ws Q :
  ready s → (g, b) ∈ held s → length x = BSIZE →
  (∀ s', evol s [(b, x)] s' → held s' = held s → (∀ c, pins s' c = pins s c) → goes (f tt) s' ws Q) →
  goes (modify (gfill g x);; gwrite g ≫= f) s ((b, x) :: ws) Q.
Proof.
  intros R Hh Hx Hf. destruct (gfill_law s g b x R Hh Hx) as (R1 & V1 & P1 & L1 & W1 & G1).
  change ((b, x) :: ws) with ([(b, x)] ++ ws).
  eapply (goes_bind (λ s, gwrite g (gfill g x s)) f s [(b, x)] ws
    (λ _ s', held s' = held s ∧ ∀ c, pins s' c = pins s c)).
  2: { intros [] s' V [? ?]. by apply Hf. }
  set (s1 := gfill g x s) in *. pose proof (gwrite_law s1 g b R1 ltac:(by rewrite G1)) as Hw.
  assert (Hv : view s1 b = x) by (rewrite V1; unfold bupd; by rewrite decide_True).
  rewrite Hv in Hw. unfold goes, after in *. cbn. fold s1. destruct (gwrite g s1) as [s2 [[u|msg|y]|]].
  { destruct Hw as ((R2 & V2 & P2 & L2) & W2 & G2). split; [split|].
    - done.
    - intros c. rewrite V2, V1. done.
    - apply (written_trans _ _ _ _ _ W1 W2).
    - auto.
    - split; [congruence|]. intros c. by rewrite P2. }
  all: destruct Hw as [Hr Hw]; split; [by intros ?%L1|]; destruct Hw as [Hw|Hw];
    [exists []; split; [apply prefix_nil|exact (written_trans _ _ _ _ _ W1 Hw)]
    |exists [(b, x)]; split; [done|exact (written_trans _ _ _ _ _ W1 Hw)]].
Qed.

Definition idle (s : T) : Prop := ready s ∧ held s = [].

Lemma idle_read s b :
  idle s → goes (bread ROOTDEV b) s [] (λ g s', held s' = [(g, b)] ∧ ∀ c, pins s' c = pins s c).
Proof.
  intros [R Hh]. rewrite <-Hh. apply bread_goes; [done| |]; rewrite Hh; [|cbn; lia].
  intros g. apply not_elem_of_nil.
Qed.

Lemma second_read s g b c :
  ready s → held s = [(g, b)] → c ≠ b →
  goes (bread ROOTDEV c) s [] (λ h s', held s' = [(h, c); (g, b)] ∧ ∀ d, pins s' d = pins s d).
Proof.
  intros R Hh Hne. rewrite <-Hh. apply bread_goes; [done| |]; rewrite Hh; [|cbn; lia].
  intros k [= _ ->]%list_elem_of_singleton. done.
Qed.

Lemma write_head_goes s l :
  idle s → dev l = ROOTDEV → length (hblock (lh l)) = 30%nat →
  goes (write_head l) s [(start l, encode_head (lh l) (view s (start l)))]
    (λ _ s', held s' = [] ∧ ∀ c, pins s' c = pins s c).
Proof.
  intros I Hdv Hl. unfold write_head. rewrite Hdv. eapply goes_read; [by apply idle_read|].
  intros g s1 V1 [G1 P1]. apply goes_gets.
  rewrite (guard_law s1 g (start l)); [|apply V1|rewrite G1; left]. rewrite (ev_view _ _ _ V1). cbn [apply_writes foldl].
  eapply put_goes; [apply V1|rewrite G1; left|apply length_encode_head; [done|apply view_size, I]|].
  intros s2 V2 G2 P2. rewrite G1 in G2. eapply goes_stop; [eapply gdrop_law; [apply V2|done|]|].
  - left. rewrite (ev_view _ _ _ V2), (ev_disk _ _ _ V2). cbn. unfold bupd. by rewrite !decide_True.
  - intros u s3 (K & W & G3). split; [by apply keeps_evol|]. split; [done|]. intros c.
    destruct K as (_ & _ & P3 & _). by rewrite P3, P2, P1.
Qed.

(** The log area is addressable and the entries of the header lie outside it. *)
Definition area_ok (l : Log) : Prop := 0 ≤ start l ∧ start l + LOGSIZE + 1 < u32_mod.

Definition entries (h : LogHeader) : list Z := take (Z.to_nat (n h)) (hblock h).

Lemma log_addr st tail :
  0 ≤ st → st + LOGSIZE + 1 < u32_mod → 0 ≤ tail < LOGSIZE →
  (a ← checked_add32 st tail; checked_add32 a 1) = Done (st + tail + 1).
Proof.
  intros ? Ha Ht. unfold LOGSIZE, MAXOPBLOCKS in *. rewrite checked_add32_ok by lia. simpl.
  by rewrite checked_add32_ok by lia.
Qed.

Lemma drop_cons_index (bs : list Z) (tail : Z) b r :
  0 ≤ tail → drop (Z.to_nat tail) bs = b :: r →
  index bs tail = Done b ∧ drop (Z.to_nat (tail + 1)) bs = r.
Proof.
  intros Ht Hd. split.
  - apply index_ok; [done|]. rewrite <-(Nat.add_0_r (Z.to_nat tail)), <-lookup_drop. by rewrite Hd.
  - replace (Z.to_nat (tail + 1)) with (Z.to_nat tail + 1)%nat by lia.
    rewrite <-drop_drop, Hd. done.
Qed.

(** The blocks of the log area are on disk as readers see them. *)
Definition area_clean (st : Z) (s : T) : Prop := ∀ c, ¬ outside st c → view s c = disk s c.

Lemma area_clean_evol st s ws s' : area_clean st s → evol s ws s' → area_clean st s'.
Proof.
  intros Hc V c Ho. rewrite (ev_view _ _ _ V), (ev_disk _ _ _ V). clear V.
  revert Ho. generalize (Hc c). clear Hc. generalize (view s) (disk s).
  induction ws as [|w ws IH]; intros v d Hvd Ho; cbn; [by apply Hvd|]. apply IH; [|done].
  intros _. unfold bupd. case_decide; [done|by apply Hvd].
Qed.

Lemma log_addr_steps {A} st tail (f : Z → io T A) s ws Q :
  0 ≤ st → st + LOGSIZE + 1 < u32_mod → 0 ≤ tail < LOGSIZE →
  goes (f (st + tail + 1)) s ws Q →
  goes (a ← lift (checked_add32 st tail); a ← lift (checked_add32 a 1); f a) s ws Q.
Proof.
  intros ? Ha Ht Hf. pose proof (log_addr st tail ltac:(done) Ha Ht) as Hla.
  destruct (checked_add32 st tail) as [a0| |] eqn:E; [|done..].
  eapply goes_lift; [done|]. eapply goes_lift; [exact Hla|done].
Qed.

Lemma log_block_inside st tail : 0 ≤ tail < LOGSIZE - 1 → ¬ outside st (st + tail + 1).
Proof. unfold outside. lia. Qed.

(** One round of [write_log]. *)
Lemma write_log_goes l bs rest tail s :
  area_ok l → dev l = ROOTDEV → idle s → 0 ≤ tail → tail + Z.of_nat (length bs) < LOGSIZE →
  drop (Z.to_nat tail) (hblock (lh l)) = bs ++ rest → Forall (outside (start l)) bs →
  Forall (λ b, 1 ≤ pins s b) bs →
  goes (write_log_loop l tail (length bs)) s (log_writes (start l) tail (view s) bs)
    (λ _ s', held s' = [] ∧ ∀ c, pins s' c = pins s c).
Proof.
  intros [Hst Ha] Hdv. revert tail s. induction bs as [|b bs IH]; intros tail s I Ht Hlen Hd Ho Hp.
  { by apply goes_ret; [apply I|split; [apply I|]]. }
  apply Forall_cons in Ho as [Hb Ho]. apply Forall_cons in Hp as [Hpb Hp]. cbn [length] in *. cbn [write_log_loop].
  destruct (drop_cons_index _ _ _ _ Ht Hd) as [Hi Hd'].
  assert (Hne : b ≠ start l + tail + 1) by (unfold outside, LOGSIZE, MAXOPBLOCKS in *; lia).
  apply log_addr_steps; [done|done|lia|]. rewrite Hdv.
  eapply goes_read; [by apply idle_read|]. intros g1 s1 V1 [G1 P1]. eapply goes_lift; [exact Hi|].
  eapply goes_read; [by apply (second_read s1 g1 (start l + tail + 1)); [apply V1|..]|].
  intros g2 s2 V2 [G2 P2]. apply goes_gets.
  rewrite (guard_law s2 g2 b); [|apply V2|rewrite G2; left].
  pose proof (evol_trans _ _ _ _ _ V1 V2) as V12. rewrite (ev_view _ _ _ V12). cbn [apply_writes foldl log_writes].
  eapply put_goes; [apply V2|rewrite G2; right; left|apply view_size, I|].
  intros s3 V3 G3 P3. rewrite G2 in G3. pose proof (evol_trans _ _ _ _ _ V12 V3) as V13.
  eapply goes_read; [eapply gdrop_goes; [apply V3|exact G3|right; rewrite P3, P2, P1; lia]|].
  intros [] s4 V4 [G4 P4]. pose proof (evol_trans _ _ _ _ _ V13 V4) as V14.
  eapply goes_read; [eapply gdrop_goes; [apply V4|exact G4|left]|].
  { rewrite (ev_view _ _ _ V4), (ev_disk _ _ _ V4). cbn.
    rewrite (ev_view _ _ _ V3), (ev_disk _ _ _ V3). cbn. unfold bupd. by rewrite !decide_True. }
  intros [] s5 V5 [G5 P5]. pose proof (evol_trans _ _ _ _ _ V14 V5) as V15.
  assert (Hpins : ∀ c, pins s5 c = pins s c) by (intros; by rewrite P5, P4, P3, P2, P1).
  rewrite <-(log_writes_ext _ _ (view s) (view s5)).
  - eapply goes_post; [apply IH; [by split; [apply V5|]|lia|lia|done|done|]|].
    + eapply Forall_impl; [exact Hp|]. intros c. cbn. by rewrite Hpins.
    + intros u s6 [? P6]. split; [done|]. intros c. by rewrite P6.
  - intros c Hc. rewrite (ev_view _ _ _ V15). cbn. unfold bupd. rewrite decide_False; [done|].
    rewrite Forall_forall in Ho. apply Ho in Hc. unfold outside, LOGSIZE, MAXOPBLOCKS in *. lia.
Qed.

Lemma unpin_if s (rec : bool) g b :
  ready s → (g, b) ∈ held s → (rec = false → 1 ≤ pins s b) →
  goes (if rec then mret tt else modify (gunpin g)) s []
    (λ _ s', held s' = held s ∧ ∀ c, c ≠ b → pins s' c = pins s c).
Proof.
  intros R Hg Hp. destruct rec; [by apply goes_ret|].
  eapply goes_post; [by apply gunpin_goes; auto|]. intros u s' [? P]. split; [done|].
  intros c Hc. rewrite P. by rewrite decide_False.
Qed.

Lemma install_goes l rec bs rest tail s :
  area_ok l → dev l = ROOTDEV → idle s → area_clean (start l) s →
  0 ≤ tail → tail + Z.of_nat (length bs) < LOGSIZE →
  drop (Z.to_nat tail) (hblock (lh l)) = bs ++ rest → Forall (outside (start l)) bs →
  (rec = false → NoDup bs ∧ Forall (λ b, 1 ≤ pins s b) bs) →
  goes (install_loop l rec tail (length bs)) s (install_writes (start l) tail (view s) bs)
    (λ _ s', held s' = []).
Proof.
  intros [Hst Ha] Hdv. revert tail s. induction bs as [|b bs IH]; intros tail s I Hcl Ht Hlen Hd Ho Hp.
  { by apply goes_ret; apply I. }
  apply Forall_cons in Ho as [Hb Ho]. cbn [length] in *. cbn [install_loop].
  destruct (drop_cons_index _ _ _ _ Ht Hd) as [Hi Hd'].
  assert (Hne : b ≠ start l + tail + 1) by (unfold outside, LOGSIZE, MAXOPBLOCKS in *; lia).
  apply log_addr_steps; [done|done|lia|]. rewrite Hdv.
  eapply goes_read; [by apply idle_read|]. intros g1 s1 V1 [G1 P1]. eapply goes_lift; [exact Hi|].
  eapply goes_read; [by apply (second_read s1 g1 (start l + tail + 1)); [apply V1|..]|].
  intros g2 s2 V2 [G2 P2]. apply goes_gets.
  rewrite (guard_law s2 g1 (start l + tail + 1)); [|apply V2|rewrite G2; right; left].
  pose proof (evol_trans _ _ _ _ _ V1 V2) as V12. rewrite (ev_view _ _ _ V12). cbn [apply_writes foldl install_writes].
  eapply put_goes; [apply V2|rewrite G2; left|apply view_size, I|].
  intros s3 V3 G3 P3. rewrite G2 in G3. pose proof (evol_trans _ _ _ _ _ V12 V3) as V13.
  assert (Hps : ∀ c, pins s3 c = pins s c) by (intros; by rewrite P3, P2, P1).
  eapply goes_read.
  { apply (unpin_if s3 rec g2 b); [apply V3|rewrite G3; left|]. intros Hr. rewrite Hps.
    destruct (Hp Hr) as [_ Hf]. by apply Forall_cons in Hf as [? _]. }
  intros [] s4 V4 [G4 P4]. rewrite G3 in G4. pose proof (evol_trans _ _ _ _ _ V13 V4) as V14.
  eapply goes_read; [eapply gdrop_goes; [apply V4|exact G4|left]|].
  { rewrite (ev_view _ _ _ V14), (ev_disk _ _ _ V14). cbn. unfold bupd. by rewrite !decide_True. }
  intros [] s5 V5 [G5 P5]. pose proof (evol_trans _ _ _ _ _ V14 V5) as V15.
  eapply goes_read; [eapply gdrop_goes; [apply V5|exact G5|left]|].
  { apply (area_clean_evol _ _ _ _ Hcl V15). apply log_block_inside. lia. }
  intros [] s6 V6 [G6 P6]. pose proof (evol_trans _ _ _ _ _ V15 V6) as V16. cbn [app] in V16.
  rewrite <-(install_writes_ext _ _ (view s) (view s6)).
  - apply IH; [by split; [apply V6|]|by eapply area_clean_evol|lia|lia|done|done|]. intros Hr.
    destruct (Hp Hr) as [Hnd Hf]. apply NoDup_cons in Hnd as [Hni Hnd]. apply Forall_cons in Hf as [_ Hf].
    split; [done|]. rewrite Forall_forall in *. intros c Hc. rewrite P6, P5, P4 by (by intros ->).
    rewrite Hps. by apply Hf.
  - intros i Hl. rewrite (ev_view _ _ _ V16). cbn. unfold bupd. rewrite decide_False; [done|].
    unfold outside, LOGSIZE, MAXOPBLOCKS in *. lia.
Qed.

(** A log whose header names distinct home blocks outside the log area. *)
Record log_ok (l : Log) : Prop := {
  lo_area : area_ok l;
  lo_dev : dev l = ROOTDEV;
  lo_head : head_ok (lh l);
  lo_n : n (lh l) < LOGSIZE;
  lo_nodup : NoDup (entries (lh l));
  lo_out : Forall (outside (start l)) (entries (lh l));
}.

Lemma entries_length l : log_ok l → Z.of_nat (length (entries (lh l))) = n (lh l).
Proof.
  intros [_ _ ((Hn & _) & Hl & _) Hle _ _]. unfold entries. rewrite length_take, Hl.
  unfold LOGSIZE, MAXOPBLOCKS in *. lia.
Qed.

Lemma entries_app h : hblock h = entries h ++ drop (Z.to_nat (n h)) (hblock h).
Proof. unfold entries. by rewrite take_drop. Qed.

Definition cleared (h : LogHeader) : LogHeader := mkHead 0 (hblock h).

(** The writes of a commit when readers see [v]. *)
Definition commit_writes (st : Z) (h : LogHeader) (v : Z → block) : list (Z * block) :=
  log_writes st 0 v (entries h) ++
  [(st, encode_head h (v st))] ++
  ((λ b, (b, v b)) <$> entries h) ++
  [(st, encode_head (cleared h) (encode_head h (v st)))].

Lemma log_area_after st h v w i b :
  Forall (outside st) (entries h) → (length (entries h) < 30)%nat → entries h !! i = Some b →
  apply_writes w (log_writes st 0 v (entries h) ++ [(st, encode_head h (v st))])
    (st + 0 + Z.of_nat i + 1) = v b.
Proof.
  intros Ho Hl Hi. rewrite apply_writes_app, apply_writes_out.
  - apply apply_writes_in; [apply log_writes_nodup|by apply log_writes_elem].
  - cbn. rewrite list_elem_of_singleton. lia.
Qed.

Lemma log_writes_miss st h v c :
  (length (entries h) < 30)%nat → outside st c → c ∉ (log_writes st 0 v (entries h)).*1.
Proof. intros Hl Ho Hc%log_writes_dom. unfold outside, LOGSIZE, MAXOPBLOCKS in *. lia. Qed.

Lemma log_writes_miss_head st h v : st ∉ (log_writes st 0 v (entries h)).*1.
Proof. intros Hc%log_writes_dom. lia. Qed.

(** The blocks of a transaction are pinned in the cache. *)
Definition pinned (h : LogHeader) (s : T) : Prop := Forall (λ b, 1 ≤ pins s b) (entries h).

Lemma commit_goes s l :
  idle s → log_ok l → area_clean (start l) s → pinned (lh l) s → 0 < n (lh l) →
  goes (commit l) s (commit_writes (start l) (lh l) (view s)) (λ l' s', l' = set_n l 0 ∧ held s' = []).
Proof.
  intros I Hok Hcl Hpin Hn. pose proof (entries_length l Hok) as He.
  destruct Hok as [Ha Hdv Hh Hle Hnd Ho]. unfold commit. rewrite decide_True by done.
  unfold write_log, install_trans, commit_writes. replace (Z.to_nat (n (lh l))) with (length (entries (lh l))) by lia.
  assert (Hlen : (length (entries (lh l)) < 30)%nat) by (unfold LOGSIZE, MAXOPBLOCKS in *; lia).
  eapply goes_bind; [eapply (write_log_goes l _ _ 0 s Ha Hdv I); [lia|lia|apply entries_app|done|done]|].
  intros [] s1 V1 [G1 P1].
  eapply goes_bind.
  { eapply goes_eq; [apply (write_head_goes s1 l); [by split; [apply V1|]|done|apply Hh]|].
    by rewrite (ev_view _ _ _ V1), apply_writes_out by apply log_writes_miss_head. }
  intros [] s2 V2 [G2 P2]. pose proof (evol_trans _ _ _ _ _ V1 V2) as V12.
  eapply goes_bind.
  { eapply goes_eq.
    - eapply (install_goes l false _ _ 0 s2 Ha Hdv); [by split; [apply V2|]|by eapply area_clean_evol|lia|lia|
        apply entries_app|done|]. intros _. split; [done|]. eapply Forall_impl; [exact Hpin|].
      intros c. cbn. by rewrite P2, P1.
    - symmetry. apply install_after_log. intros i b Hi. rewrite (ev_view _ _ _ V12). by apply log_area_after. }
  intros [] s3 V3 G3. pose proof (evol_trans _ _ _ _ _ V12 V3) as V13.
  eapply goes_tail.
  { eapply goes_eq; [apply (write_head_goes s3 (set_n l 0)); [by split; [apply V3|]|done|apply Hh]|].
    cbn [start lh set_n set_lh]. do 3 f_equal.
    rewrite (ev_view _ _ _ V13), apply_writes_app, apply_writes_out, apply_writes_app.
    - cbn. unfold bupd. by rewrite decide_True.
    - rewrite <-list_fmap_compose. cbn. rewrite list_fmap_id. rewrite Forall_forall in Ho.
      intros Hc%Ho. unfold outside in Hc. unfold LOGSIZE, MAXOPBLOCKS in Hc. lia. }
  intros [] s4 V4 [G4 _]. by apply goes_ret; [apply V4|].
Qed.

(** A header that recovery can replay. *)
Definition replayable (l : Log) (h : LogHeader) : Prop :=
  area_ok l ∧ dev l = ROOTDEV ∧ head_ok h ∧ n h < LOGSIZE ∧ Forall (outside (start l)) (entries h).

Lemma replayable_len l h : replayable l h → n h = Z.of_nat (length (entries h)).
Proof.
  intros (_ & _ & (Hw & Hl & _) & Hle & _). unfold entries. rewrite length_take, Hl.
  unfold word_ok, LOGSIZE, MAXOPBLOCKS in *. lia.
Qed.

(** The writes of a recovery that finds the disk [d]. *)
Definition recover_writes (st : Z) (d : Z → block) : list (Z * block) :=
  install_writes st 0 d (entries (decode_head (d st))) ++ [(st, encode_head (cleared (decode_head (d st))) (d st))].

Lemma recover_goes s l :
  idle s → area_clean (start l) s → replayable l (decode_head (view s (start l))) →
  goes (recover l) s (recover_writes (start l) (view s))
    (λ l' s', l' = set_n (set_lh l (decode_head (view s (start l)))) 0 ∧ held s' = []).
Proof.
  intros I Hcl Hrep. pose proof (replayable_len _ _ Hrep) as Hn. destruct Hrep as (Ha & Hdv & Hh & Hle & Ho).
  unfold recover_writes. set (h := decode_head (view s (start l))) in *. unfold recover.
  eapply (goes_read _ _ _ _ (λ l1 s', l1 = set_lh l h ∧ held s' = [])).
  { unfold read_head. rewrite Hdv. eapply goes_read; [by apply idle_read|]. intros g s1 V1 [G1 _].
    apply goes_gets. rewrite (guard_law s1 g (start l)); [|apply V1|rewrite G1; left].
    rewrite (ev_view _ _ _ V1). cbn [apply_writes foldl].
    eapply goes_read; [eapply gdrop_goes; [apply V1|exact G1|left]|].
    - apply (area_clean_evol _ _ _ _ Hcl V1). unfold outside, LOGSIZE, MAXOPBLOCKS. lia.
    - intros [] s2 V2 [G2 _]. by apply goes_ret; [apply V2|]. }
  intros l1 s1 V1 [-> G1]. unfold install_trans. cbn [lh set_lh].
  replace (Z.to_nat (n h)) with (length (entries h)) by lia.
  eapply goes_bind.
  { eapply goes_eq; [eapply (install_goes (set_lh l h) true (entries h) _ 0 s1 Ha Hdv);
      [by split; [apply V1|]|by eapply area_clean_evol|lia|lia|apply entries_app|done|done]|].
    apply install_writes_ext. intros. by rewrite (ev_view _ _ _ V1). }
  intros [] s2 V2 G2. pose proof (evol_trans _ _ _ _ _ V1 V2) as V12. cbn [app] in V12.
  eapply goes_tail.
  { eapply goes_eq; [apply (write_head_goes s2 (set_n (set_lh l h) 0)); [by split; [apply V2|]|done|apply Hh]|].
    cbn [start lh set_n set_lh]. do 3 f_equal.
    rewrite (ev_view _ _ _ V12), apply_writes_out; [done|]. rewrite install_writes_dom.
    rewrite Forall_forall in Ho. intros Hc%Ho. unfold outside, LOGSIZE, MAXOPBLOCKS in Hc. lia. }
  intros [] s3 V3 [G3 _]. by apply goes_ret; [apply V3|].
Qed.
End spec.

(** ** What a disk means

    The contents that a disk with a log area at [st] stands for: the home
    blocks, with the copies of the log that its header names on top. *)
Definition contents (st : Z) (d : Z → block) : Z → block :=
  apply_writes d (install_writes st 0 d (entries (decode_head (d st)))).

Lemma contents_empty st d : n (decode_head (d st)) = 0 → contents st d = d.
Proof. intros Hn. unfold contents, entries. by rewrite Hn. Qed.

Lemma outside_head st c : outside st c → c ≠ st.
Proof. unfold outside, LOGSIZE, MAXOPBLOCKS. lia. Qed.

(** The disk after a commit that did not crash, home blocks only. *)
Definition committed (h : LogHeader) (v d : Z → block) (c : Z) : block :=
  if decide (c ∈ entries h) then v c else d c.

Lemma home_writes h v d c :
  NoDup (entries h) → apply_writes d ((λ b, (b, v b)) <$> entries h) c = committed h v d c.
Proof.
  intros Hnd. assert (Hd : ((λ b, (b, v b)) <$> entries h).*1 = entries h)
    by (rewrite <-list_fmap_compose; apply list_fmap_id).
  unfold committed. case_decide as Hc.
  - apply apply_writes_in; [by rewrite Hd|]. apply list_elem_of_fmap. eauto.
  - apply apply_writes_out. by rewrite Hd.
Qed.

Lemma length_decode_words k bs : length (decode_words k bs) = k.
Proof. revert bs. induction k as [|k IH]; intros bs; simpl; [done|]. by rewrite IH. Qed.

(** The disk after a prefix of the writes of a commit, by the position of the
    crash: before the header, between the two header writes, after them. *)
Lemma crash_cases st h v i :
  let lw := log_writes st 0 v (entries h) in
  let hw := (λ b, (b, v b)) <$> entries h in
  let W := commit_writes st h v in
  ((i ≤ length lw)%nat ∧ ∃ j, take i W = take j lw) ∨
  ((length lw < i)%nat ∧ ∃ j, take i W = lw ++ [(st, encode_head h (v st))] ++ take j hw) ∨
  ((length lw < i)%nat ∧ take i W = W).
Proof.
  cbn zeta. unfold commit_writes. set (lw := log_writes _ _ _ _).
  set (hw := (λ b, (b, v b)) <$> entries h). set (e := [(st, encode_head (cleared h) _)]).
  destruct (decide (i ≤ length lw)%nat) as [Hi|Hi].
  { left. split; [done|]. exists i. by rewrite take_app_le. }
  right. rewrite take_app_ge by lia.
  destruct (i - length lw)%nat as [|k] eqn:Ek; [lia|]. cbn [app take].
  destruct (decide (k ≤ length hw)%nat) as [Hk|Hk].
  - left. split; [lia|]. exists k. by rewrite take_app_le.
  - right. split; [lia|]. do 2 f_equal. apply take_ge. rewrite length_app. cbn. lia.
Qed.

Lemma fst_take (i : nat) (ws : list (Z * block)) c : c ∈ (take i ws).*1 → c ∈ ws.*1.
Proof. rewrite fmap_take. apply subseteq_take. Qed.

Lemma fst_home h v c : c ∈ (((λ b, (b, v b)) <$> entries h) : list (Z * block)).*1 ↔ c ∈ entries h.
Proof. rewrite <-list_fmap_compose. unfold compose. cbn. by rewrite list_fmap_id. Qed.

Lemma committed_absorb h v d j c :
  NoDup (entries h) →
  committed h v (apply_writes d (take j ((λ b, (b, v b)) <$> entries h))) c = committed h v d c.
Proof.
  intros Hnd. unfold committed. case_decide as Hc; [done|].
  apply apply_writes_out. by intros Hx%fst_take%fst_home.
Qed.

(** The state of the disk after the writes of a whole commit. *)
Lemma commit_disk st h v d c :
  head_ok h → (length (entries h) < 30)%nat → NoDup (entries h) → outside st c →
  apply_writes d (commit_writes st h v) c = committed h v d c.
Proof.
  intros Hh Hl Hnd Ho.
  assert (Hne : c ≠ st) by (unfold outside, LOGSIZE, MAXOPBLOCKS in Ho; lia).
  unfold commit_writes. rewrite !apply_writes_app, apply_writes_out.
  2: { cbn. by rewrite list_elem_of_singleton. }
  rewrite home_writes by done. unfold committed. case_decide; [done|].
  cbn. unfold bupd. rewrite decide_False by done. apply apply_writes_out. by apply log_writes_miss.
Qed.

Lemma commit_head st h v d :
  apply_writes d (commit_writes st h v) st = encode_head (cleared h) (encode_head h (v st)).
Proof.
  unfold commit_writes. rewrite !app_assoc, apply_writes_app. cbn. unfold bupd. by rewrite decide_True.
Qed.

Lemma apply_writes_in_any d d' (ws : list (Z * block)) c :
  c ∈ ws.*1 → apply_writes d ws c = apply_writes d' ws c.
Proof.
  revert d d'. induction ws as [|w ws IH]; intros d d' Hc; [by apply not_elem_of_nil in Hc|].
  cbn in *. destruct (decide (c ∈ ws.*1)) as [Hin|Hin]; [by apply IH|].
  apply elem_of_cons in Hc as [->|]; [|done]. rewrite !apply_writes_out by done.
  unfold bupd. by rewrite !decide_True.
Qed.

Lemma apply_writes_redo d (ws : list (Z * block)) j c :
  apply_writes (apply_writes d (take j ws)) ws c = apply_writes d ws c.
Proof.
  destruct (decide (c ∈ ws.*1)) as [Hin|Hin]; [by apply apply_writes_in_any|].
  rewrite !(apply_writes_out _ ws) by done. apply apply_writes_out. by intros ?%fst_take.
Qed.

(** A commit moves from the old contents to the new ones with one write, the
    one of the header. *)
Lemma commit_prefix st h v d i :
  head_ok h → (length (entries h) < 30)%nat → NoDup (entries h) → Forall (outside st) (entries h) →
  n (decode_head (d st)) = 0 →
  let d' := apply_writes d (take i (commit_writes st h v)) in
  (decode_head (d' st) = decode_head (d st) ∨ decode_head (d' st) = h ∨ decode_head (d' st) = cleared h) ∧
  ∀ c, outside st c → contents st d' c = if decide (i ≤ length (entries h))%nat then d c else committed h v d c.
Proof.
  intros Hh Hl Hnd Ho Hz. cbn zeta.
  assert (Hlw : length (log_writes st 0 v (entries h)) = length (entries h)) by apply length_log_writes.
  destruct (crash_cases st h v i) as [(Hi & j & Hj)|[(Hi & j & Hj)|(Hi & Hj)]]; rewrite Hj; clear Hj; rewrite Hlw in Hi.
  - (* before the commit point *)
    assert (Hst : apply_writes d (take j (log_writes st 0 v (entries h))) st = d st).
    { apply apply_writes_out. intros Hc%fst_take. by apply log_writes_miss_head in Hc. }
    split; [left; by rewrite Hst|]. intros c Hc. rewrite contents_empty by (by rewrite Hst).
    rewrite decide_True by done. apply apply_writes_out. intros Hx%fst_take. by apply log_writes_miss in Hx.
  - (* committed, not cleared *)
    set (hw := take j _). set (d' := apply_writes d _).
    assert (Hin : ∀ w c, ¬ outside st c → apply_writes w hw c = w c).
    { intros w c Hc. apply apply_writes_out. intros Hx%fst_take%fst_home. rewrite Forall_forall in Ho. by apply Ho in Hx. }
    assert (Hst : d' st = encode_head h (v st)).
    { unfold d'. rewrite app_assoc, apply_writes_app, Hin, apply_writes_last by (intros Hx%outside_head; done). done. }
    assert (Hcopy : install_writes st 0 d' (entries h) = (λ b, (b, v b)) <$> entries h).
    { apply install_after_log. intros k b Hk. pose proof (lookup_lt_Some _ _ _ Hk). unfold d'.
      rewrite app_assoc, apply_writes_app, Hin by (unfold outside, LOGSIZE, MAXOPBLOCKS; lia). by apply log_area_after. }
    split; [right; left; by rewrite Hst, decode_encode_head|]. intros c Hc.
    unfold contents. rewrite Hst, decode_encode_head, Hcopy, home_writes, decide_False by (done || lia).
    unfold committed. case_decide as Hin'; [done|]. unfold d'.
    rewrite app_assoc, apply_writes_app, apply_writes_out by (by intros Hx%fst_take%fst_home).
    rewrite apply_writes_app, apply_writes_out.
    2: { cbn. rewrite list_elem_of_singleton. by apply outside_head. }
    apply apply_writes_out. by apply log_writes_miss.
  - (* cleared *)
    assert (Hd : decode_head (apply_writes d (commit_writes st h v) st) = cleared h).
    { rewrite commit_head. apply decode_encode_head. split; [done|apply Hh]. }
    split; [by right; right|]. intros c Hc. rewrite contents_empty by (by rewrite Hd).
    rewrite decide_False by lia. by apply commit_disk.
Qed.

(** No write of a recovery changes the contents, and the last one leaves them
    at home. *)
Lemma recover_prefix st d i :
  head_ok (decode_head (d st)) → Forall (outside st) (entries (decode_head (d st))) →
  (length (entries (decode_head (d st))) < 30)%nat →
  let d' := apply_writes d (take i (recover_writes st d)) in
  (decode_head (d' st) = decode_head (d st) ∨ decode_head (d' st) = cleared (decode_head (d st))) ∧
  (∀ c, outside st c → contents st d' c = contents st d c) ∧
  ((length (recover_writes st d) ≤ i)%nat → n (decode_head (d' st)) = 0).
Proof.
  intros Hh Ho Hl. cbn zeta. unfold recover_writes, contents at 2. set (h := decode_head (d st)) in *.
  set (iw := install_writes st 0 d (entries h)). set (e := encode_head (cleared h) (d st)).
  assert (Hdom : iw.*1 = entries h) by apply install_writes_dom.
  destruct (decide (i ≤ length iw)%nat) as [Hi|Hi].
  - rewrite take_app_le by done. set (d' := apply_writes d (take i iw)).
    assert (Hin : ∀ c, ¬ outside st c → d' c = d c).
    { intros c Hc. apply apply_writes_out. intros Hx%fst_take. rewrite Hdom in Hx.
      rewrite Forall_forall in Ho. by apply Ho in Hx. }
    assert (Hst : d' st = d st) by (apply Hin; intros Hx%outside_head; done). rewrite Hst.
    split_and!; [by left| |rewrite length_app; cbn; lia]. intros c _. unfold contents. rewrite Hst. fold h.
    rewrite (install_writes_ext _ _ d).
    2: { intros k Hk. apply Hin. unfold outside, LOGSIZE, MAXOPBLOCKS. lia. }
    fold iw. apply apply_writes_redo.
  - rewrite take_ge by (rewrite length_app; cbn; lia).
    assert (Hd : decode_head (apply_writes d (iw ++ [(st, e)]) st) = cleared h).
    { rewrite apply_writes_last. apply decode_encode_head. split; [done|apply Hh]. }
    split_and!; [by right| |by rewrite Hd]. intros c Hc. rewrite contents_empty by (by rewrite Hd).
    rewrite apply_writes_app, apply_writes_out; [done|]. cbn. rewrite list_elem_of_singleton. by apply outside_head.
Qed.

Lemma replayable_cleared l h : replayable l h → replayable l (cleared h).
Proof. intros (Ha & Hdv & Hh & _ & _). split; [done|]. split; [done|]. split; [split; [done|apply Hh]|]. split; [done|constructor]. Qed.

(** How a run of the log ends: the writes it made, up to where it stopped. *)
Lemma goes_run {T : Type} `{BlockCacheLaws T} {A} (m : io T A) (s : T) ws Q :
  goes m s ws Q → ∃ s' r W, m s = (s', r) ∧ W `prefix_of` ws ∧ written s W s' ∧
    (∀ a, r = Some (Done a) → W = ws ∧ Q a s') ∧ (reliable s → ∃ a, r = Some (Done a)).
Proof.
  unfold goes, after. destruct (m s) as [s1 [[a|msg|x]|]].
  { intros [V HQ]. exists s1, (Some (Done a)), ws. split_and!; [done|done|apply V| |eauto].
    by intros ? [= <-]. }
  all: intros (Hr & W & Hp & HW); eexists s1, _, W; split_and!; [done|done|done|done|done].
Qed.

Lemma prefix_take {A} (W ws : list A) i : W `prefix_of` ws → take i W = take (i `min` length W) ws.
Proof. intros [k ->]. rewrite take_app_le by lia. by rewrite <-take_take, firstn_all. Qed.

Lemma commit_crash {T : Type} `{BlockCacheLaws T} (s : T) (l : Log) :
  idle s → log_ok l → area_clean (start l) s → pinned (lh l) s → 0 < n (lh l) →
  replayable l (decode_head (disk s (start l))) → n (decode_head (disk s (start l))) = 0 →
  ∃ s' r W, commit l s = (s', r) ∧ written s W s' ∧
    (∀ i, (i ≤ length W)%nat →
       let d := apply_writes (disk s) (take i W) in
       replayable l (decode_head (d (start l))) ∧
       ∀ c, outside (start l) c → contents (start l) d c =
         if decide (i ≤ length (entries (lh l)))%nat then disk s c
         else committed (lh l) (view s) (disk s) c) ∧
    (∀ l', r = Some (Done l') → l' = set_n l 0 ∧ n (decode_head (disk s' (start l))) = 0 ∧
       ∀ c, outside (start l) c → disk s' c = committed (lh l) (view s) (disk s) c) ∧
    (reliable s → r = Some (Done (set_n l 0))).
Proof.
  intros I Hok Hcl Hpin Hn Hrep Hz. pose proof (entries_length l Hok) as He.
  destruct (goes_run _ _ _ _ (commit_goes s l I Hok Hcl Hpin Hn)) as (s' & r & W & Hr & Hp & HW & Hret & Hrel).
  destruct Hok as [Ha Hdv Hh Hle Hnd Ho].
  assert (Hlen : (length (entries (lh l)) < 30)%nat) by (unfold LOGSIZE, MAXOPBLOCKS in *; lia).
  exists s', r, W. split_and!; [done|done| | |].
  - intros i Hi. cbn zeta. rewrite (prefix_take _ _ _ Hp), Nat.min_l by done.
    destruct (commit_prefix (start l) (lh l) (view s) (disk s) i) as [Hd Hc]; [done..|]. split; [|exact Hc].
    assert (Hl : replayable l (lh l)) by (unfold replayable; done).
    destruct Hd as [-> |[-> | ->]]; [done|done|by apply replayable_cleared].
  - intros l' Hl'. destruct (Hret l' Hl') as (-> & -> & _). split; [done|]. destruct HW as [HD _].
    rewrite HD, commit_head, decode_encode_head by (split; [done|apply Hh]). split; [done|].
    intros c Hc. rewrite HD. by apply commit_disk.
  - intros R. destruct (Hrel R) as (l' & Hl'). by destruct (Hret l' Hl') as (_ & -> & _).
Qed.

(** ** Admission

    A run of the log is a sequence of the critical sections of [begin_op],
    [write] and [end_op].  [act] lists, for the operations in progress, how
    many log slots each has used.  Nothing in [log.rs] limits that number:
    [begin_op] counts on [MAXOPBLOCKS], and in the steps of [kept] no
    operation exceeds it. *)
Record proto := mkProto { plog : Log; act : list Z }.

(** [l] after the whole [commit] of its transaction. *)
Definition emptied (l : Log) : Log := end_op_leave (set_n l 0).

Inductive step : proto → proto → Prop :=
  | step_begin l l' us :
      begin_op l = Some l' → step (mkProto l us) (mkProto l' (0 :: us))
  | step_write l l' us1 u us2 b (taken : bool) :
      take_slot l b = Done (l', taken) → word_ok b →
      step (mkProto l (us1 ++ u :: us2)) (mkProto l' (us1 ++ (u + (if taken then 1 else 0)) :: us2))
  | step_end l l' us1 u us2 :
      end_op_enter l = Done (l', false) →
      step (mkProto l (us1 ++ u :: us2)) (mkProto l' (us1 ++ us2))
  | step_end_last l l' us1 u us2 :
      end_op_enter l = Done (l', true) →
      step (mkProto l (us1 ++ u :: us2)) (mkProto l' (us1 ++ us2))
  | step_commit l us :
      committing l = true → step (mkProto l us) (mkProto (emptied l) us).

Definition kept (p p' : proto) : Prop := step p p' ∧ Forall (λ u, u ≤ MAXOPBLOCKS) (act p').

(** The slots the operations in progress may still take. *)
Definition reserve (us : list Z) : Z :=
  Z.of_nat (sum_list_with (λ u, Z.to_nat (MAXOPBLOCKS - u)) us).

Record pinv (p : proto) : Prop := {
  pi_out : outstanding (plog p) = Z.of_nat (length (act p));
  pi_used : Forall (λ u, 0 ≤ u) (act p);
  pi_head : head_ok (lh (plog p));
  pi_nodup : NoDup (entries (lh (plog p)));
  pi_full : n (lh (plog p)) ≤ LOGSIZE ∧ (0 < n (lh (plog p)) → n (lh (plog p)) < size (plog p));
  pi_commit : committing (plog p) = true → act p = [];
}.

Definition room (p : proto) : Prop :=
  Forall (λ u, u ≤ MAXOPBLOCKS) (act p) ∧ n (lh (plog p)) + reserve (act p) ≤ LOGSIZE.

Lemma reserve_app us1 us2 : reserve (us1 ++ us2) = reserve us1 + reserve us2.
Proof. unfold reserve. rewrite sum_list_with_app. lia. Qed.

Lemma reserve_cons u us : u ≤ MAXOPBLOCKS → reserve (u :: us) = MAXOPBLOCKS - u + reserve us.
Proof. intros Hu. unfold reserve. cbn. lia. Qed.

Lemma reserve_bound us : Forall (λ u, 0 ≤ u ≤ MAXOPBLOCKS) us →
  0 ≤ reserve us ≤ Z.of_nat (length us) * MAXOPBLOCKS.
Proof.
  induction 1 as [|u us Hu _ IH]; [done|]. rewrite reserve_cons by lia. cbn [length].
  unfold MAXOPBLOCKS in *. lia.
Qed.

Lemma entries_snoc h b :
  0 ≤ n h < Z.of_nat (length (hblock h)) →
  entries (mkHead (n h + 1) (<[Z.to_nat (n h) := b]> (hblock h))) = entries h ++ [b].
Proof.
  intros Hn. unfold entries. cbn [n hblock].
  replace (Z.to_nat (n h + 1)) with (S (Z.to_nat (n h))) by lia.
  rewrite (take_S_r _ _ b); [|apply list_lookup_insert_eq; lia].
  by rewrite take_insert_ge by lia.
Qed.

(** What taking a slot does to the header. *)
Lemma take_slot_inv l b l' taken :
  head_ok (lh l) → NoDup (entries (lh l)) → word_ok b → take_slot l b = Done (l', taken) →
  outstanding l' = outstanding l ∧ committing l' = committing l ∧
  n (lh l') = n (lh l) + (if taken then 1 else 0) ∧ head_ok (lh l') ∧ NoDup (entries (lh l')) ∧
  (∀ c, c ∈ entries (lh l') ↔ c = b ∨ c ∈ entries (lh l)).
Proof.
  intros Hh Hnd Hb. pose proof Hh as (Hn & Hl & Hw). unfold take_slot. intros Had. inv_done.
  destruct a; [done|]. case_decide; [done|]. case_decide as Hin.
  - inv_done. split_and!; try done; [lia|]. intros c. split; [auto|].
    intros [->|]; done.
  - inv_done. cbn [outstanding committing lh set_lh].
    unfold store in Ha0. case_decide as Hlt; [|done]. injection Ha0 as <-.
    assert (Hnlt : n (lh l) + 1 < u32_mod) by (rewrite Hl in Hlt; lia).
    assert (He : entries (mkHead (n (lh l) + 1) (<[Z.to_nat (n (lh l)):=b]> (hblock (lh l)))) =
                 entries (lh l) ++ [b]) by (apply entries_snoc; lia).
    split_and!; try done.
    + split_and!; cbn; [unfold word_ok in *; lia|by rewrite length_insert|by apply Forall_insert].
    + rewrite He. apply NoDup_app. split_and!; [done| |apply NoDup_singleton].
      intros c Hc ->%list_elem_of_singleton. done.
    + intros c. rewrite He, elem_of_app, list_elem_of_singleton. tauto.
Qed.

Lemma Forall_mid {A} (Q : A → Prop) us1 u us2 :
  Forall Q (us1 ++ u :: us2) ↔ Forall Q us1 ∧ Q u ∧ Forall Q us2.
Proof. by rewrite Forall_app, Forall_cons. Qed.

Lemma end_enter_inv l l' c us1 (u : Z) us2 :
  outstanding l = Z.of_nat (length (us1 ++ u :: us2)) → end_op_enter l = Done (l', c) →
  outstanding l' = Z.of_nat (length (us1 ++ us2)) ∧ lh l' = lh l ∧ size l' = size l ∧
  committing l' = c ∧ (c = true → us1 ++ us2 = []).
Proof.
  rewrite !length_app. cbn [length]. intros Ho. unfold end_op_enter. rewrite checked_sub_ok by lia.
  cbn [mbind outcome_bind]. intros He.
  destruct (committing l); [done|]. case_decide as Hz; inv_done; split_and!; try done; try lia.
  - intros _. apply length_zero_iff_nil. rewrite length_app. lia.
Qed.

Lemma take_slot_room l b l' : take_slot l b = Done (l', true) → n (lh l) < LOGSIZE ∧ n (lh l) < size l - 1.
Proof.
  unfold take_slot, checked_sub. intros Had. inv_done. destruct a; [done|].
  repeat (case_decide; try done); inv_done; simplify_eq; case_bool_decide; simplify_eq; lia.
Qed.

Lemma size_step p p' : step p p' → size (plog p') = size (plog p).
Proof.
  intros Hs. destruct Hs as [l l' us Hb|l l' us1 u us2 b t Hw Hb|l l' us1 u us2 He|l l' us1 u us2 He|];
    cbn; [| | | |done].
  - unfold begin_op in Hb. repeat case_match; by simplify_eq.
  - unfold take_slot in Hw. inv_done. destruct a; [done|]. repeat case_decide; inv_done; done.
  - unfold end_op_enter in He. inv_done. repeat case_match; by simplify_eq.
  - unfold end_op_enter in He. inv_done. repeat case_match; by simplify_eq.
Qed.

Lemma pinv_step p p' : pinv p → step p p' → pinv p'.
Proof.
  intros [Ho Hu Hh Hnd Hf Hc] Hs. pose proof (size_step _ _ Hs) as Hsz. destruct Hs as
    [l l' us Hb|l l' us1 u us2 b t Hw Hb|l l' us1 u us2 He|l l' us1 u us2 He|l us Hcm]; cbn in *.
  - unfold begin_op in Hb. destruct (committing l) eqn:Ec; [done|].
    case_decide as Hd; [done|]. injection Hb as <-. split; cbn [plog act outstanding lh committing]; try done.
    + cbn [length]. lia.
    + by constructor.
  - apply Forall_mid in Hu as (Hu1 & Hu & Hu2). pose proof Hw as Hw'.
    apply take_slot_inv in Hw as (Hout & Hcm & Hn & Hh' & Hnd' & _); try done.
    split; cbn [plog act]; try done.
    + rewrite Hout, Ho, !length_app. done.
    + apply Forall_mid. split_and!; try done. destruct t; lia.
    + rewrite Hn, Hsz. destruct t; [|by rewrite Z.add_0_r]. apply take_slot_room in Hw'. lia.
    + rewrite Hcm. intros Ht'%Hc. by destruct us1.
  - apply Forall_mid in Hu as (Hu1 & Hu & Hu2).
    apply end_enter_inv with (1 := Ho) in He as (Ho' & Hl & _ & Hcm & _).
    split; cbn [plog act]; rewrite ?Hl, ?Hsz; try done; [by apply Forall_app|by rewrite Hcm].
  - apply Forall_mid in Hu as (Hu1 & Hu & Hu2).
    apply end_enter_inv with (1 := Ho) in He as (Ho' & Hl & _ & Hcm & Hnil).
    split; cbn [plog act]; rewrite ?Hl, ?Hsz; try done; [by apply Forall_app|auto].
  - destruct Hh as (Hw & Hl & Hf'). split; cbn; try done. unfold entries. cbn. apply NoDup_nil_2.
Qed.

(** As long as no operation exceeds its share, the slots taken and those
    still reserved fit in [LOGSIZE]. *)
Lemma room_step p p' : pinv p → room p → kept p p' → room p'.
Proof.
  intros [Ho Hu Hh Hnd _ _] [Hm Hr] [Hs Hk]. split; [done|]. destruct Hs as
    [l l' us Hb|l l' us1 u us2 b t Hw Hb|l l' us1 u us2 He|l l' us1 u us2 He|l us Hcm]; cbn in *.
  - unfold begin_op in Hb. destruct (committing l) eqn:Ec; [done|]. case_decide as Hd; [done|]. injection Hb as <-.
    cbn [lh]. rewrite reserve_cons by (unfold MAXOPBLOCKS; lia).
    pose proof (reserve_bound us ltac:(by apply Forall_and)). unfold MAXOPBLOCKS in *. lia.
  - apply take_slot_inv in Hw as (_ & _ & Hn & _); try done.
    apply Forall_mid in Hm as (_ & Hm & _). apply Forall_mid in Hk as (_ & Hk & _).
    rewrite reserve_app, reserve_cons in * by lia. lia.
  - apply Forall_mid in Hm as (_ & Hm & _). apply end_enter_inv with (1 := Ho) in He as (_ & -> & _).
    rewrite !reserve_app, reserve_cons in * by lia. lia.
  - apply Forall_mid in Hm as (_ & Hm & _). apply end_enter_inv with (1 := Ho) in He as (_ & -> & _).
    rewrite !reserve_app, reserve_cons in * by lia. lia.
  - destruct Hh as (Hw & _). unfold word_ok in Hw. lia.
Qed.

(** A log just after boot. *)
Definition booted (l : Log) : Prop :=
  outstanding l = 0 ∧ committing l = false ∧ n (lh l) = 0 ∧ head_ok (lh l).

Lemma pinv_boot l : booted l → pinv (mkProto l []) ∧ room (mkProto l []).
Proof.
  intros (Ho & Hc & Hn & Hh). split; [split|split]; cbn; try done; rewrite ?Hn; try done.
  unfold entries. rewrite Hn. apply NoDup_nil_2.
Qed.

Lemma pinv_reach l p : booted l → rtc step (mkProto l []) p → pinv p ∧ size (plog p) = size l.
Proof.
  intros Hb Hr. change (size l) with (size (plog (mkProto l []))). pose proof (proj1 (pinv_boot l Hb)) as H0.
  revert H0. induction Hr as [p|p p' p'' Hs _ IH]; [done|]. intros Hp.
  rewrite <-(size_step _ _ Hs). apply IH. by eapply pinv_step.
Qed.

Lemma room_reach l p : booted l → rtc kept (mkProto l []) p → room p.
Proof.
  intros Hb Hr. destruct (pinv_boot l Hb) as [Hp Hm]. revert Hp Hm.
  induction Hr as [p|p p' p'' Hs _ IH]; [done|]. intros Hp Hm.
  apply IH; [eapply pinv_step; [done|apply Hs]|by eapply room_step].
Qed.

(** Runs of the protocol, executable. *)
Inductive pop := OBegin | OWrite (i : nat) (b : Z) | OEnd (i : nat) | OCommit.

Definition run_step (p : proto) (o : pop) : option proto :=
  let '(mkProto l us) := p in
  match o with
  | OBegin => match begin_op l with Some l' => Some (mkProto l' (0 :: us)) | None => None end
  | OWrite i b =>
      match us !! i, take_slot l b with
      | Some u, Done (l', t) =>
          if decide (0 ≤ b < u32_mod) then
            Some (mkProto l' (take i us ++ (u + (if t then 1 else 0)) :: drop (S i) us))
          else None
      | _, _ => None
      end
  | OEnd i =>
      match us !! i, end_op_enter l with
      | Some u, Done (l', _) => Some (mkProto l' (take i us ++ drop (S i) us))
      | _, _ => None
      end
  | OCommit => if committing l then Some (mkProto (emptied l) us) else None
  end.

(** Only runs in which no operation exceeds its share. *)
Definition kept_step (r : option proto) (o : pop) : option proto :=
  p ← r; p' ← run_step p o; guard (Forall (λ u, u ≤ MAXOPBLOCKS) (act p'));; Some p'.
Definition run_all (p : proto) (os : list pop) : option proto := foldl kept_step (Some p) os.

Lemma run_step_sound p o p' : run_step p o = Some p' → step p p'.
Proof.
  destruct p as [l us]. destruct o as [|i b|i|]; cbn.
  - destruct (begin_op l) eqn:E; [|done]. intros [= <-]. by constructor.
  - destruct (us !! i) as [u|] eqn:Hi; [|done]. destruct (take_slot l b) as [[l' t]| |] eqn:E; [|done..].
    case_decide as Hd; [|done]. intros [= <-].
    rewrite <-(take_drop_middle us i u Hi) at 1. by eapply step_write.
  - destruct (us !! i) as [u|] eqn:Hi; [|done]. destruct (end_op_enter l) as [[l' t]| |] eqn:E; [|done..].
    intros [= <-]. rewrite <-(take_drop_middle us i u Hi) at 1.
    destruct t; [by eapply step_end_last|by eapply step_end].
  - destruct (committing l) eqn:E; [|done]. intros [= <-]. by constructor.
Qed.

Lemma run_all_None os : foldl kept_step None os = None.
Proof. by induction os. Qed.

Lemma run_all_sound p os p' : run_all p os = Some p' → rtc kept p p'.
Proof.
  unfold run_all. revert p. induction os as [|o os IH]; intros p; cbn.
  - intros [= <-]. apply rtc_refl.
  - destruct (run_step p o) as [q|] eqn:E; cbn; [|by rewrite run_all_None].
    case_guard as Hg; cbn; [|by rewrite run_all_None].
    intros Hr. eapply rtc_l; [split; [by eapply run_step_sound|exact Hg]|by apply IH].
Qed.

Lemma kept_steps p p' : rtc kept p p' → rtc step p p'.
Proof. apply rtc_subrel. by intros x y [Hs _]. Qed.

(** ** A block cache

    The plainest cache that keeps the contract and never fails: every buffer
    stays in memory, and a guard is the number of its block. *)
Record plain := mkPlain {
  p_view : gmap Z block;
  p_disk : gmap Z block;
  p_writes : list (Z * block);
  p_held : list (Z * Z);
  p_pins : gmap Z Z;
}.

Definition zero_block : block := replicate BSIZE 0.

Definition sized (x : option block) : block :=
  match x with
  | Some x => if decide (length x = BSIZE) then x else zero_block
  | None => zero_block
  end.

Definition p_pinned (s : plain) (b : Z) : Z := default 0 (p_pins s !! b).

#[export] Instance plain_cache : BlockCache plain := {
  buf_guard := Z;
  bread _ b s := (mkPlain (p_view s) (p_disk s) (p_writes s) ((b, b) :: p_held s) (p_pins s), Some (Done b));
  gdata s g := sized (p_view s !! g);
  gblockno _ g := g;
  gfill g x s := mkPlain (<[g := x]> (p_view s)) (p_disk s) (p_writes s) (p_held s) (p_pins s);
  gwrite g s := let x := sized (p_view s !! g) in
    (mkPlain (p_view s) (<[g := x]> (p_disk s)) (p_writes s ++ [(g, x)]) (p_held s) (p_pins s), Some (Done tt));
  gpin g s := mkPlain (p_view s) (p_disk s) (p_writes s) (p_held s) (<[g := p_pinned s g + 1]> (p_pins s));
  gunpin g s := mkPlain (p_view s) (p_disk s) (p_writes s) (p_held s) (<[g := p_pinned s g - 1]> (p_pins s));
  gdrop g s := (mkPlain (p_view s) (p_disk s) (p_writes s) (list.tail (p_held s)) (p_pins s), Some (Done tt));
  view s b := sized (p_view s !! b);
  disk s b := sized (p_disk s !! b);
  writes := p_writes;
  held := p_held;
  pins := p_pinned;
  ready s := Forall (λ p, p.1 = p.2) (p_held s);
  reliable _ := True;
}.

Lemma sized_length x : length (sized x) = BSIZE.
Proof. unfold sized. destruct x; [case_decide; [done|]|]; apply length_replicate. Qed.

Lemma sized_insert (m : gmap Z block) b x c :
  length x = BSIZE → sized (<[b := x]> m !! c) = bupd (λ c, sized (m !! c)) b x c.
Proof.
  intros Hx. unfold bupd. destruct (decide (c = b)) as [->|Hne].
  - rewrite lookup_insert_eq. cbn. by rewrite decide_True.
  - by rewrite lookup_insert_ne.
Qed.

#[export] Instance plain_laws : BlockCacheLaws plain.
Proof.
  assert (Hg : ∀ (s : plain) g b, ready s → (g, b) ∈ held s → g = b).
  { cbn. intros s g b R Hin. rewrite Forall_forall in R. exact (R _ Hin). }
  assert (Hn : ∀ s s' : plain, p_disk s' = p_disk s → p_writes s' = p_writes s → written s [] s').
  { intros s s' Hd Hw. split; cbn; [intros c; by rewrite Hd|by rewrite Hw, app_nil_r]. }
  split.
  - intros s b R _ _. cbn. split_and!; [|by apply Hn|done]. split_and!; try done. by constructor.
  - intros s g b R Hin. by rewrite (Hg s g b R Hin).
  - intros s g b x R Hin Hx. rewrite (Hg s g b R Hin). cbn. split_and!; try done.
    + intros c. by apply sized_insert.
    + by apply Hn.
  - intros s g b R Hin. rewrite (Hg s g b R Hin). cbn. split_and!; try done.
    split; cbn; [intros c; by apply sized_insert, sized_length|done].
  - intros s g b R Hin Hp. rewrite (Hg s g b R Hin). cbn. split_and!; try done.
    + intros c. unfold p_pinned. cbn. case_decide as Hc; [subst; by rewrite lookup_insert_eq|by rewrite lookup_insert_ne].
    + by apply Hn.
  - intros s g b gs R Hh _. cbn in *. rewrite Hh in R |- *. apply Forall_cons in R as [_ R].
    split_and!; [by split_and!|by apply Hn|done].
  - intros s b _. apply sized_length.
Qed.

Definition demo_log : Log := mkLog 2 30 1 0 true (mkHead 1 (100 :: replicate 29 0)).
Definition demo_store : plain := mkPlain {[ 100 := replicate BSIZE 7 ]} ∅ [] [] {[ 100 := 1 ]}.

Lemma demo_log_ok : log_ok demo_log.
Proof.
  split.
  - vm_compute. intuition congruence.
  - done.
  - split_and!; [vm_compute; intuition congruence|reflexivity|].
    unfold demo_log. cbn [lh hblock]. constructor; [vm_compute; intuition congruence|].
    apply Forall_replicate. vm_compute. intuition congruence.
  - vm_compute. congruence.
  - cbn. apply NoDup_singleton.
  - cbn. constructor; [|constructor]. right. vm_compute. congruence.
Qed.

Definition empty_head : LogHeader := mkHead 0 (replicate 30 0).

Lemma empty_replayable : replayable demo_log empty_head.
Proof.
  split; [apply demo_log_ok|]. split; [done|]. split; [|by split; [|constructor]].
  split; [vm_compute; intuition congruence|]. split; [reflexivity|].
  apply Forall_replicate. vm_compute. intuition congruence.
Qed.

(** ** The properties *)

(** C1. Crash safety.  [commit] of a transaction, with the log on disk empty,
    over any buffer cache that keeps the laws, which [bio.rs] as it is written
    does.  Wherever it stops, because it returns, because the machine stops or
    because a call of the cache panics or does not return: if it has made at
    most as many block writes as there are blocks in the transaction, the disk
    stands for the old contents, and otherwise for the new ones, outside the
    log area, and its header can be replayed.  When it returns, every home
    block is on disk with its new contents and the log is empty; when the
    cache does not fail it, it returns. *)
Theorem log_commit_crash_safe {T : Type} `{BlockCacheLaws T} (s : T) (l : Log) :
  idle s → log_ok l → area_clean (start l) s → pinned (lh l) s → 0 < n (lh l) →
  replayable l (decode_head (disk s (start l))) → n (decode_head (disk s (start l))) = 0 →
  ∃ s' r W, commit l s = (s', r) ∧ written s W s' ∧
    (∀ i, (i ≤ length W)%nat →
       let d := apply_writes (disk s) (take i W) in
       replayable l (decode_head (d (start l))) ∧
       ∀ c, outside (start l) c → contents (start l) d c =
         if decide (i ≤ length (entries (lh l)))%nat then disk s c
         else committed (lh l) (view s) (disk s) c) ∧
    (∀ l', r = Some (Done l') → l' = set_n l 0 ∧ n (decode_head (disk s' (start l))) = 0 ∧
       ∀ c, outside (start l) c → disk s' c = committed (lh l) (view s) (disk s) c) ∧
    (reliable s → r = Some (Done (set_n l 0))).
Proof. apply commit_crash. Qed.

(** C8. Recovery can be restarted.  [recover] at boot, on a disk whose header
    names blocks outside the log area, over any buffer cache that keeps the
    laws.  No block write of it changes the contents that the disk stands for,
    and after each the header can be replayed: wherever [recover] stops, it
    can run again and again.  When it returns, the contents are in the home
    blocks and the log is empty; when the cache does not fail it, it returns. *)
Theorem log_recover_restartable {T : Type} `{BlockCacheLaws T} (s : T) l :
  idle s → (∀ c, view s c = disk s c) → replayable l (decode_head (disk s (start l))) →
  ∃ s' r W, recover l s = (s', r) ∧ written s W s' ∧
    (∀ i, let d := apply_writes (disk s) (take i W) in
       replayable l (decode_head (d (start l))) ∧
       ∀ c, outside (start l) c → contents (start l) d c = contents (start l) (disk s) c) ∧
    (∀ l', r = Some (Done l') → n (lh l') = 0 ∧ n (decode_head (disk s' (start l))) = 0 ∧
       ∀ c, outside (start l) c → disk s' c = contents (start l) (disk s) c) ∧
    (reliable s → ∃ l', r = Some (Done l')).
Proof.
  intros I Hvd Hrep. pose proof (replayable_len _ _ Hrep) as Hlen.
  pose proof Hrep as (Ha & Hdv & Hh & Hle & Ho).
  assert (Hst : view s (start l) = disk s (start l)) by apply Hvd.
  assert (Hw : recover_writes (start l) (view s) = recover_writes (start l) (disk s)).
  { unfold recover_writes. rewrite Hst. f_equal. apply install_writes_ext. intros. apply Hvd. }
  pose proof (recover_goes s l I) as Hgo. rewrite Hst, Hw in Hgo.
  destruct (goes_run _ _ _ _ (Hgo ltac:(by intros ? _) Hrep)) as (s' & r & W & Hr & Hp & HW & Hret & Hrel).
  exists s', r, W. split_and!; [done|done| | |done].
  - intros i. cbn zeta. rewrite (prefix_take _ _ _ Hp).
    destruct (recover_prefix (start l) (disk s) (i `min` length W)) as (Hd & Hc & _); [done|done| |].
    { unfold LOGSIZE, MAXOPBLOCKS in *. lia. }
    split; [|exact Hc]. destruct Hd as [-> | ->]; [done|by apply replayable_cleared].
  - intros l' Hl'. destruct (Hret l' Hl') as (-> & -> & _). split; [done|]. destruct HW as [HD _].
    destruct (recover_prefix (start l) (disk s) (length (recover_writes (start l) (disk s)))) as (_ & Hc & Hz); [done|done| |].
    { unfold LOGSIZE, MAXOPBLOCKS in *. lia. }
    rewrite firstn_all in Hc, Hz. specialize (Hz ltac:(done)). split; [by rewrite HD|]. intros c Ho'.
    rewrite HD, <-Hc by done. by rewrite contents_empty.
Qed.

(** The header survives the disk: decoding the header block that
    [write_head] wrote gives the header, for every header whose words fit in
    32 bits. *)
Theorem log_head_roundtrip h x :
  head_ok h → length x = BSIZE → decode_head (encode_head h x) = h ∧ length (encode_head h x) = BSIZE.
Proof. intros Hh Hx. split; [by apply decode_encode_head|]. apply length_encode_head; [apply Hh|done]. Qed.

(** C9. Admission.  In every reachable state of the log, whatever the
    operations write: the header names distinct blocks, the count of
    operations in progress is right, a commit runs only when there is none, and
    [end_op] does not panic.  [write] by an operation in progress panics exactly
    when the header names as many blocks as the log takes, the smaller of
    [LOGSIZE] and one less than the size of the log area, so [LOGSIZE - 1] in the
    area that the image has.  If no operation of the run has taken more than
    [MAXOPBLOCKS] slots, the slots taken and those that the operations in
    progress may still take are at most [LOGSIZE], one more than that area
    holds. *)
Theorem log_protocol_safe l p :
  booted l → 0 < size l → rtc step (mkProto l []) p →
  let full := Z.min LOGSIZE (size l - 1) in
  NoDup (entries (lh (plog p))) ∧ n (lh (plog p)) ≤ full ∧
  outstanding (plog p) = Z.of_nat (length (act p)) ∧
  (committing (plog p) = true → act p = []) ∧
  (∀ u b, u ∈ act p → (∃ r, end_op_enter (plog p) = Done r) ∧
     (n (lh (plog p)) = full → take_slot (plog p) b = Panic "too big a transaction") ∧
     (n (lh (plog p)) < full → ∃ r, take_slot (plog p) b = Done r)) ∧
  (rtc kept (mkProto l []) p → n (lh (plog p)) + reserve (act p) ≤ LOGSIZE).
Proof.
  intros Hb Hpos Hr full. destruct (pinv_reach _ _ Hb Hr) as [[Ho Hu Hh Hnd [Hf1 Hf2] Hc] Hsz].
  rewrite Hsz in Hf2. destruct Hh as (Hw & Hl & _). unfold word_ok in Hw.
  assert (Hfull : n (lh (plog p)) ≤ full) by (unfold full, LOGSIZE, MAXOPBLOCKS in *; lia).
  split_and!; [done|done|done|done| |intros Hk; by apply (room_reach l p)].
  intros u b Hin. apply list_elem_of_split in Hin as (us1 & us2 & Hus).
  assert (Hone : 1 ≤ outstanding (plog p)) by (rewrite Ho, Hus, length_app; cbn; lia).
  split_and!.
  - unfold end_op_enter. rewrite checked_sub_ok by lia. cbn [mbind outcome_bind].
    destruct (committing (plog p)); [rewrite Hus in Hc; by destruct us1; specialize (Hc eq_refl)|]. case_decide; eauto.
  - intros Hn. unfold take_slot. destruct (decide (LOGSIZE ≤ n (lh (plog p)))); [done|].
    rewrite Hsz, checked_sub_ok by lia. cbn [mbind outcome_bind].
    rewrite bool_decide_eq_true_2 by (unfold full in Hn; lia). done.
  - intros Hn. unfold take_slot. rewrite (decide_False (P := LOGSIZE ≤ n (lh (plog p)))) by (unfold full in Hn; lia).
    rewrite Hsz, checked_sub_ok by lia. cbn [mbind outcome_bind].
    rewrite bool_decide_eq_false_2 by (unfold full in Hn; lia). rewrite decide_False by lia.
    case_decide; [by eauto|]. rewrite store_ok; [by cbn; eauto|]. rewrite Hl. unfold full, LOGSIZE, MAXOPBLOCKS in *. lia.
Qed.

Definition fresh_log (sz : Z) : Log := mkLog 2 sz 1 0 false (mkHead 0 (replicate 30 0)).

Lemma fresh_booted sz : booted (fresh_log sz).
Proof.
  split_and!; [done..|]. split_and!; [vm_compute; intuition congruence|reflexivity|].
  apply Forall_replicate. vm_compute. intuition congruence.
Qed.

(** Three operations; the first two write ten blocks each, the third nine. *)
Definition full_run : list pop :=
  [OBegin; OBegin; OBegin] ++ ((λ i, OWrite (i `div` 10)%nat (Z.of_nat (100 + i))) <$> seq 0 29).

(** The log area that the file-system builder lays out has [LOGSIZE]
    blocks, of which [write] uses one less, while [begin_op] reserves all of
    them: three admitted operations within their limit of [MAXOPBLOCKS] reach
    a state where an operation with a slot left makes [write] panic. *)
Theorem log_reservation_gap :
  ∃ p u, rtc kept (mkProto (fresh_log LOGSIZE) []) p ∧ u ∈ act p ∧ u < MAXOPBLOCKS ∧
    take_slot (plog p) 500 = Panic "too big a transaction".
Proof.
  destruct (run_all (mkProto (fresh_log LOGSIZE) []) full_run) as [p|] eqn:E;
    [|vm_compute in E; discriminate E].
  exists p, 9. split; [by eapply run_all_sound|]. vm_compute in E. injection E as <-.
  split_and!; [|done|by vm_compute]. cbn. right. right. left.
Qed.

(** [LOG.init] always panics: its assertion demands that the header is at
    least as large as a block, where the message says it must not be larger. *)
Theorem log_init_panics : init = Panic "initlog: too big log header".
Proof. reflexivity. Qed.

(** *** Witnesses *)
Lemma log_commit_crash_safe_witness :
  ∃ s' W, commit demo_log demo_store = (s', Some (Done (set_n demo_log 0))) ∧ written demo_store W s' ∧
    disk s' 100 = replicate BSIZE 7.
Proof.
  assert (Hz : decode_head (disk demo_store 2) = empty_head) by (vm_compute; reflexivity).
  destruct (log_commit_crash_safe demo_store demo_log) as (s' & r & W & Hc & Hw & _ & Hd & Hr).
  - split; [constructor|reflexivity].
  - exact demo_log_ok.
  - intros c Hc. cbn. rewrite lookup_singleton_ne; [reflexivity|]. intros <-. apply Hc. right. vm_compute. congruence.
  - constructor; [vm_compute; congruence|constructor].
  - reflexivity.
  - change (start demo_log) with 2. rewrite Hz. exact empty_replayable.
  - change (start demo_log) with 2. by rewrite Hz.
  - specialize (Hr I). rewrite Hr in Hc. exists s', W. split_and!; [exact Hc|exact Hw|].
    destruct (Hd _ Hr) as (_ & _ & H). rewrite H by (right; vm_compute; congruence). reflexivity.
Defined.

(** A disk with a committed log of one block. *)
Definition demo_boot : plain :=
  let d := {[ 2 := encode_head (lh demo_log) zero_block; 3 := replicate BSIZE 9 ]} in mkPlain d d [] [] ∅.

Lemma log_recover_restartable_witness :
  ∃ s' l', recover demo_log demo_boot = (s', Some (Done l')) ∧ disk s' 100 = replicate BSIZE 9.
Proof.
  assert (Hh : decode_head (disk demo_boot 2) = lh demo_log)
    by (apply decode_encode_head, demo_log_ok).
  destruct (log_recover_restartable demo_boot demo_log) as (s' & r & W & Hr & _ & _ & Hd & Hrel).
  - split; [constructor|reflexivity].
  - reflexivity.
  - destruct demo_log_ok as [? ? ? ? ? ?]. cbn [start demo_log]. rewrite Hh. unfold replayable. auto.
  - destruct (Hrel I) as (l' & ->). exists s', l'. split; [exact Hr|].
    destruct (Hd l' eq_refl) as (_ & _ & H). rewrite H by (right; vm_compute; congruence). vm_compute. reflexivity.
Defined.

Lemma log_head_roundtrip_witness :
  decode_head (encode_head (lh demo_log) zero_block) = lh demo_log.
Proof. apply (log_head_roundtrip (lh demo_log) zero_block); [apply demo_log_ok|reflexivity]. Defined.

Lemma log_protocol_safe_witness :
  ∃ p, rtc step (mkProto (fresh_log LOGSIZE) []) p ∧ n (lh (plog p)) + reserve (act p) ≤ LOGSIZE ∧
    n (lh (plog p)) = 29 ∧ take_slot (plog p) 500 = Panic "too big a transaction".
Proof.
  destruct (run_all (mkProto (fresh_log LOGSIZE) []) full_run) as [p|] eqn:E;
    [|vm_compute in E; discriminate E].
  assert (Hr : rtc kept (mkProto (fresh_log LOGSIZE) []) p) by exact (run_all_sound _ _ _ E).
  assert (Hp : n (lh (plog p)) = 29 ∧ 9 ∈ act p).
  { vm_compute in E. injection E as <-. split; [reflexivity|]. cbn. right. right. left. }
  destruct Hp as [Hn Hin].
  destruct (log_protocol_safe (fresh_log LOGSIZE) p) as (_ & _ & _ & _ & Hw & Hk);
    [apply fresh_booted|reflexivity|by apply kept_steps|].
  exists p. split; [by apply kept_steps|]. split; [by apply Hk|]. split; [exact Hn|].
  destruct (Hw 9 500 Hin) as (_ & H & _). apply H. rewrite Hn. reflexivity.
Defined.
