(* ===== verification/Bio.v ===== *)
(** * The buffer cache ([bio.rs]) and sleep locks ([sleeplock.rs])

    A [Buf] is found by its position in the array [BCACHE.buf].  It holds the
    fields of [Meta] (device, block number, the two links), the number of
    strong pointers to its data, and the data with its sleep lock.  [BCache]
    holds the two ends of the list.  A buffer that no strong pointer of the
    list reaches any more keeps its entry here; its links are not followed.

    The disk is a function [disk : Z → block], what [DISK.rw] reads. *)

From S2P Require Import Prelude.

Open Scope Z_scope.

Definition NBUF : nat := 30.
Definition BSIZE : nat := 1024.

(** ** Sleep locks: the process that holds the lock *)
Abbreviation sleeplock := (option Z).

(** [SleepLock::lock]: [None] when the caller sleeps. *)
Definition sl_lock (l : sleeplock) (pid : Z) : option sleeplock :=
  match l with Some _ => None | None => Some (Some pid) end.
Definition sl_holding (l : sleeplock) (pid : Z) : bool := bool_decide (l = Some pid).
Definition sl_drop (l : sleeplock) (pid : Z) : outcome sleeplock :=
  if sl_holding l pid then Done None else Panic "release".

(** ** Buffers *)
Record Data := mkData { data : list Z; disk_owned : bool; d_blockno : Z; d_dev : Z; valid : bool }.

Definition data_new : Data := mkData (replicate BSIZE 0) false 0 0 false.

Record Buf := mkBuf {
  dev : Z; blockno : Z; next : option nat; prev : option nat;
  strong : Z;
  lk : sleeplock;
  dat : Data;
}.

Definition buf_new : Buf := mkBuf 0 0 None None 1 None data_new.

Definition set_next (x : option nat) (b : Buf) : Buf := mkBuf (dev b) (blockno b) x (prev b) (strong b) (lk b) (dat b).
Definition set_prev (x : option nat) (b : Buf) : Buf := mkBuf (dev b) (blockno b) (next b) x (strong b) (lk b) (dat b).
Definition set_strong (x : Z) (b : Buf) : Buf := mkBuf (dev b) (blockno b) (next b) (prev b) x (lk b) (dat b).
Definition set_lk (x : sleeplock) (b : Buf) : Buf := mkBuf (dev b) (blockno b) (next b) (prev b) (strong b) x (dat b).
Definition set_dat (x : Data) (b : Buf) : Buf := mkBuf (dev b) (blockno b) (next b) (prev b) (strong b) (lk b) x.
Definition set_id (dv bn : Z) (b : Buf) : Buf := mkBuf dv bn (next b) (prev b) (strong b) (lk b) (dat b).

Record BCache := mkCache { head : option nat; tail : option nat; n : nat; bufs : gmap nat Buf }.

Definition upd (f : Buf → Buf) (b : nat) (s : BCache) : BCache :=
  mkCache (head s) (tail s) (n s) (alter f b (bufs s)).

(** ** [Lru] *)
Definition lru_new : BCache := mkCache None None 0 ∅.

Definition add (b : nat) (s : BCache) : BCache :=
  let s1 := mkCache (head s) None (n s) (<[b := buf_new]> (bufs s)) in
  let s2 := match tail s with
            | Some old_tail => upd (set_prev (Some old_tail)) b (upd (set_next (Some b)) old_tail s1)
            | None => mkCache (Some b) (tail s1) (n s1) (bufs s1)
            end in
  mkCache (head s2) (Some b) (n s2 + 1) (bufs s2).

Definition init : BCache := foldl (λ s b, add b s) lru_new (seq 0 NBUF).

(** The two loops of [get].  [Spin] is a loop that did not end in [fuel]
    rounds. *)
Inductive search := Hit (b : nat) | Miss | Spin.

Fixpoint find_cached (fuel : nat) (s : BCache) (cur : option nat) (dv bn : Z) : search :=
  match cur with
  | None => Miss
  | Some b =>
      match fuel with
      | O => Spin
      | S fuel =>
          match bufs s !! b with
          | None => Miss
          | Some x =>
              if decide (dev x = dv ∧ blockno x = bn) then Hit b
              else find_cached fuel s (next x) dv bn
          end
      end
  end.

Fixpoint find_unused (fuel : nat) (s : BCache) (cur : option nat) : search :=
  match cur with
  | None => Miss
  | Some b =>
      match fuel with
      | O => Spin
      | S fuel =>
          match bufs s !! b with
          | None => Miss
          | Some x => if decide (strong x = 1) then Hit b else find_unused fuel s (prev x)
          end
      end
  end.

(** [b.data.lock()] while the lock of the list is held: a caller that would
    sleep holds two spin locks, and [sched] asserts that it holds one. *)
Definition lock_data (s : BCache) (pid : Z) (b : nat) : outcome BCache :=
  match bufs s !! b with
  | None => Fault (Z.of_nat b)
  | Some x =>
      match sl_lock (lk x) pid with
      | Some l => Done (upd (set_lk l) b s)
      | None => Panic "sched multiple locks"
      end
  end.

Definition get (fuel : nat) (s : BCache) (pid dv bn : Z) : option (outcome (BCache * nat)) :=
  match find_cached fuel s (head s) dv bn with
  | Spin => None
  | Hit b => Some (
      s1 ← lock_data s pid b;
      Done (upd (λ x, set_strong (strong x + 1) x) b s1, b))
  | Miss =>
      match find_unused fuel s (tail s) with
      | Spin => None
      | Miss => Some (Panic "no buffers")
      | Hit b => Some (
          s1 ← lock_data (upd (set_id dv bn) b s) pid b;
          let s2 := upd (λ x, set_dat (mkData (data (dat x)) (disk_owned (dat x)) bn dv false) x) b s1 in
          Done (upd (λ x, set_strong (strong x + 1) x) b s2, b))
      end
  end.

(** [relse]: [b] has lost its guard; its strong count is 1 when the list alone
    points to it. *)
Definition relse (s : BCache) (b : nat) : outcome BCache :=
  match bufs s !! b with
  | None => Fault (Z.of_nat b)
  | Some x =>
      if decide (strong x = 1) then
        let nx := next x in
        let pv := prev x in
        let s1 := upd (λ x, set_prev None (set_next None x)) b s in
        let s2 := match nx with Some n => upd (set_prev pv) n s1 | None => s1 end in
        let s3 := match pv with Some p => upd (set_next nx) p s2 | None => s2 end in
        let s4 := match head s3 with
                  | Some old_head =>
                      upd (set_next (Some old_head)) b (upd (set_prev (Some b)) old_head s3)
                  | None => mkCache (head s3) (Some b) (n s3) (bufs s3)
                  end in
        Done (mkCache (Some b) (tail s4) (n s4) (bufs s4))
      else Done s
  end.

(** ** [BufGuard] and [BCache] *)

(** [BufGuard::drop] by process [pid]. *)
Definition brelse (s : BCache) (pid : Z) (b : nat) : outcome BCache :=
  match bufs s !! b with
  | None => Fault (Z.of_nat b)
  | Some x =>
      if sl_holding (lk x) pid then
        l ← sl_drop (lk x) pid;
        relse (upd (λ x, set_strong (strong x - 1) (set_lk l x)) b s) b
      else Panic "drop - brelse"
  end.

(** [BufGuard::write]; [wr] is what [DISK.rw] does with the data. *)
Definition bwrite (s : BCache) (pid : Z) (b : nat) (wr : Data → Data) : outcome BCache :=
  match bufs s !! b with
  | None => Fault (Z.of_nat b)
  | Some x =>
      if sl_holding (lk x) pid then Panic "bwrite"
      else Done (upd (λ x, set_dat (wr (dat x)) x) b s)
  end.

Definition pin (s : BCache) (b : nat) : BCache := upd (λ x, set_strong (strong x + 1) x) b s.
Definition unpin (s : BCache) (b : nat) : BCache := upd (λ x, set_strong (strong x - 1) x) b s.

(** [align_to] and [align_to_mut] for elements of [sz] bytes with alignment
    [al], when the bytes of the buffer are at address [base]. *)
Fixpoint chunks (k sz : nat) (l : list Z) : list (list Z) :=
  match k with O => [] | S k => take sz l :: chunks k sz (drop sz l) end.
Definition align_to (base al : Z) (sz : nat) (l : list Z) : outcome (list (list Z)) :=
  let head := Z.to_nat ((- base) `mod` al) in
  let body := drop head l in
  if decide (head = 0%nat) then Done (chunks (length body / sz) sz body) else Panic "Data was not aligned".

Section read.
Variable disk : Z → list Z.

(** [BCache::read]. *)
Definition bread (fuel : nat) (s : BCache) (pid dv bn : Z) : option (outcome (BCache * nat)) :=
  match get fuel s pid dv bn with
  | None => None
  | Some r => Some (
      '(s1, b) ← r;
      match bufs s1 !! b with
      | None => Fault (Z.of_nat b)
      | Some x =>
          if valid (dat x) then Done (s1, b)
          else Done (upd (λ x, set_dat (mkData (disk (d_blockno (dat x))) false
                                          (d_blockno (dat x)) (d_dev (dat x)) true) x) b s1, b)
      end)
  end.
End read.
