(* ===== verification/BioSpec.v ===== *)
(** * Properties of the buffer cache

    The list of [bio.rs] against sequences: [get] looks a block up in the
    sequence of buffers and recycles the last unused one, and [relse] moves a
    buffer to the front when it is neither the first nor the last.  Releasing
    the first buffer makes the list a cycle. *)

From S2P Require Import Prelude Bio.

Open Scope Z_scope.

(** ** The list *)

(** [seg B p l q]: the buffers [l] are linked in both directions, the first has
    [p] before it and the last has [q] after it. *)
Definition hd_or (q : option nat) (l : list nat) : option nat := match l with [] => q | b :: _ => Some b end.
Definition last_or (p : option nat) (l : list nat) : option nat := match last l with Some b => Some b | None => p end.

Fixpoint seg (B : gmap nat Buf) (p : option nat) (l : list nat) (q : option nat) : Prop :=
  match l with
  | [] => True
  | b :: r => (∃ x, B !! b = Some x ∧ prev x = p ∧ next x = hd_or q r) ∧ seg B (Some b) r q
  end.

Record lru_list (s : BCache) (l : list nat) : Prop := {
  l_seg : seg (bufs s) None l None;
  l_head : head s = hd_or None l;
  l_tail : tail s = last_or None l;
  l_nodup : NoDup l;
}.

Lemma seg_app B p l1 l2 q :
  seg B p (l1 ++ l2) q ↔ seg B p l1 (hd_or q l2) ∧ seg B (last_or p l1) l2 q.
Proof.
  revert p. induction l1 as [|b l1 IH]; intros p; simpl; [tauto|]. rewrite IH.
  replace (hd_or q (l1 ++ l2)) with (hd_or (hd_or q l2) l1) by (by destruct l1).
  replace (last_or (Some b) l1) with (last_or p (b :: l1)); [tauto|].
  unfold last_or. destruct l1 as [|c l1]; [done|]. rewrite last_cons_cons.
  destruct (last (c :: l1)) eqn:E; [done|]. by apply last_None in E.
Qed.

Lemma seg_elem B p l q b : seg B p l q → b ∈ l → ∃ x, B !! b = Some x.
Proof.
  revert p. induction l as [|c l IH]; intros p; simpl; [by intros _ ?%elem_of_nil|].
  intros [(x & Hx & _) Hs] [->|Hb]%elem_of_cons; eauto.
Qed.

(** Changes outside the links, and to other buffers, keep a segment. *)
Lemma seg_ext B B' p l q :
  (∀ b x, b ∈ l → B !! b = Some x → ∃ x', B' !! b = Some x' ∧ prev x' = prev x ∧ next x' = next x) →
  seg B p l q → seg B' p l q.
Proof.
  revert p. induction l as [|b l IH]; intros p Hf; simpl; [done|].
  intros [(x & Hx & Hp & Hn) Hs]. destruct (Hf b x) as (x' & Hx' & Hp' & Hn'); [by left|done|].
  split; [exists x'; by rewrite Hp', Hn'|]. apply IH; [|done]. intros c y Hc. apply Hf. by right.
Qed.

Lemma seg_alter_ne B f c p l q : c ∉ l → seg B p l q → seg (alter f c B) p l q.
Proof.
  intros Hc. apply seg_ext. intros b x Hb Hx. exists x. rewrite lookup_alter_ne by (intros ->; done). done.
Qed.

Lemma seg_set_prev B p b l q v :
  b ∉ l → seg B p (b :: l) q → seg (alter (set_prev v) b B) v (b :: l) q.
Proof.
  intros Hb [(x & Hx & Hp & Hn) Hs]. split; [|by apply seg_alter_ne].
  exists (set_prev v x). by rewrite lookup_alter_eq, Hx.
Qed.

Lemma seg_set_next B p l b q v :
  b ∉ l → seg B p (l ++ [b]) q → seg (alter (set_next v) b B) p (l ++ [b]) v.
Proof.
  intros Hb. rewrite !seg_app. intros [H1 [(x & Hx & Hp & Hn) _]]. split; [by apply seg_alter_ne|].
  split; [|done]. exists (set_next v x). by rewrite lookup_alter_eq, Hx.
Qed.

(** ** [get] *)

(** On a sequence of buffers: the first that holds the block, and the last that
    is unused. *)
Definition holds (s : BCache) (dv bn : Z) (b : nat) : Prop :=
  ∃ x, bufs s !! b = Some x ∧ dev x = dv ∧ blockno x = bn.
Definition unused (s : BCache) (b : nat) : Prop := ∃ x, bufs s !! b = Some x ∧ strong x = 1.

#[export] Instance holds_dec s dv bn b : Decision (holds s dv bn b).
Proof.
  unfold holds. destruct (bufs s !! b) as [x|] eqn:E; [|right; naive_solver].
  destruct (decide (dev x = dv ∧ blockno x = bn)) as [[]|]; [left; eauto|right; naive_solver].
Defined.

#[export] Instance unused_dec s b : Decision (unused s b).
Proof.
  unfold unused. destruct (bufs s !! b) as [x|] eqn:E; [|right; naive_solver].
  destruct (decide (strong x = 1)); [left; eauto|right; naive_solver].
Defined.

Definition as_search (o : option (nat * nat)) : search := match o with Some (_, b) => Hit b | None => Miss end.

Lemma find_cached_spec s dv bn p l fuel :
  seg (bufs s) p l None → (length l ≤ fuel)%nat →
  find_cached fuel s (hd_or None l) dv bn = as_search (list_find (holds s dv bn) l).
Proof.
  revert p fuel. induction l as [|b l IH]; intros p fuel Hs Hf; [by destruct fuel|].
  destruct fuel as [|fuel]; simpl in Hf; [lia|]. destruct Hs as [(x & Hx & Hp & Hn) Hs]. cbn. rewrite Hx.
  destruct (decide (dev x = dv ∧ blockno x = bn)) as [Hd|Hd].
  - rewrite decide_True; [done|]. exists x. naive_solver.
  - rewrite decide_False by (intros (y & Hy & ?); naive_solver).
    rewrite Hn, (IH _ _ Hs) by lia. by destruct (list_find (holds s dv bn) l) as [[]|].
Qed.

Lemma find_unused_spec s l q fuel :
  seg (bufs s) None l q → (length l ≤ fuel)%nat →
  find_unused fuel s (last_or None l) = as_search (list_find (unused s) (reverse l)).
Proof.
  revert q fuel. induction l as [|b l IH] using rev_ind; intros q fuel Hs Hf; [by destruct fuel|].
  rewrite length_app in Hf. simpl in Hf. destruct fuel as [|fuel]; [lia|].
  apply seg_app in Hs as [Hs [(x & Hx & Hp & Hn) _]].
  unfold last_or. rewrite last_snoc, reverse_snoc. cbn. rewrite Hx.
  destruct (decide (strong x = 1)) as [Hd|Hd].
  - rewrite decide_True; [done|]. exists x. done.
  - rewrite decide_False by (intros (y & Hy & ?); naive_solver).
    rewrite Hp, (IH _ _ Hs) by lia. by destruct (list_find (unused s) (reverse l)) as [[]|].
Qed.

(** One buffer per block: no two buffers of the list hold the same block of a
    real device (the buffers start with device 0). *)
Definition unique (s : BCache) (l : list nat) : Prop :=
  ∀ b c dv bn, b ∈ l → c ∈ l → dv ≠ 0 → holds s dv bn b → holds s dv bn c → b = c.

(** What [get] changes: buffer [b] is locked by [pid], has one more strong
    pointer, and keeps its links. *)
Record got (s s' : BCache) (pid : Z) (b : nat) (x x' : Buf) : Prop := {
  got_old : bufs s !! b = Some x;
  got_new : bufs s' !! b = Some x';
  got_free : lk x = None;
  got_lk : lk x' = Some pid;
  got_strong : strong x' = strong x + 1;
  got_links : next x' = next x ∧ prev x' = prev x;
  got_others : ∀ c, c ≠ b → bufs s' !! c = bufs s !! c;
  got_ends : head s' = head s ∧ tail s' = tail s;
}.

Lemma got_list s s' pid b x x' l : got s s' pid b x x' → lru_list s l → lru_list s' l.
Proof.
  intros [H1 H2 _ _ _ [H3 H4] H5 [H6 H7]] [A1 A2 A3 A4]. split; [|congruence|congruence|done].
  eapply seg_ext; [|exact A1]. intros c y Hc Hy. destruct (decide (c = b)) as [->|Hne].
  - exists x'. naive_solver.
  - exists y. by rewrite H5.
Qed.

Lemma got_insert s pid b x y :
  bufs s !! b = Some x → lk x = None → lk y = Some pid → strong y = strong x + 1 →
  next y = next x → prev y = prev x →
  got s (mkCache (head s) (tail s) (n s) (<[b := y]> (bufs s))) pid b x y.
Proof.
  intros. split; cbn [bufs]; try done; [by rewrite lookup_insert_eq|]. intros c Hne. by rewrite lookup_insert_ne.
Qed.

(** A buffer that is found: nothing but the lock and the count changes. *)
Lemma get_hit fuel s pid dv bn b x :
  find_cached fuel s (head s) dv bn = Hit b → bufs s !! b = Some x →
  get fuel s pid dv bn =
    match lk x with
    | Some _ => Some (Panic "sched multiple locks")
    | None => Some (Done (mkCache (head s) (tail s) (n s)
                (<[b := set_strong (strong x + 1) (set_lk (Some pid) x)]> (bufs s)), b))
    end.
Proof.
  intros Hf Hx. unfold get. rewrite Hf. unfold lock_data. rewrite Hx. unfold sl_lock.
  destruct (lk x); [done|]. cbn. unfold upd. cbn. do 4 f_equal. apply map_eq. intros c.
  destruct (decide (c = b)) as [->|]; [by rewrite !lookup_alter_eq, Hx, lookup_insert_eq|].
  by rewrite !lookup_alter_ne, lookup_insert_ne.
Qed.

Lemma get_miss fuel s pid dv bn b x :
  find_cached fuel s (head s) dv bn = Miss → find_unused fuel s (tail s) = Hit b → bufs s !! b = Some x →
  get fuel s pid dv bn =
    match lk x with
    | Some _ => Some (Panic "sched multiple locks")
    | None => Some (Done (mkCache (head s) (tail s) (n s)
                (<[b := mkBuf dv bn (next x) (prev x) (strong x + 1) (Some pid)
                          (mkData (data (dat x)) (disk_owned (dat x)) bn dv false)]> (bufs s)), b))
    end.
Proof.
  intros Hf Hu Hx. unfold get. rewrite Hf, Hu. unfold lock_data, upd. cbn. rewrite lookup_alter_eq, Hx. cbn.
  unfold sl_lock. destruct (lk x); [done|]. cbn. do 4 f_equal. apply map_eq. intros c.
  destruct (decide (c = b)) as [->|]; [by rewrite !lookup_alter_eq, Hx, lookup_insert_eq|].
  by rewrite !lookup_alter_ne, lookup_insert_ne.
Qed.

Lemma unique_keep s s' pid b x x' l :
  got s s' pid b x x' → dev x' = dev x → blockno x' = blockno x → unique s l → unique s' l.
Proof.
  intros Hg Hd Hb Hu c d dv bn Hc Hdl Hdv H1 H2.
  assert (Hk : ∀ e, holds s' dv bn e → holds s dv bn e).
  { intros e (y & Hy & Hy1 & Hy2). destruct (decide (e = b)) as [->|Hne].
    - exists x. rewrite (got_new _ _ _ _ _ _ Hg) in Hy. split; [apply Hg|]. naive_solver.
    - exists y. by rewrite <-(got_others _ _ _ _ _ _ Hg) by done. }
  eapply Hu; eauto.
Qed.

Lemma unique_recycle s s' pid b x x' l dv bn :
  got s s' pid b x x' → dev x' = dv → blockno x' = bn → b ∈ l →
  (∀ c, c ∈ l → ¬ holds s dv bn c) → unique s l → unique s' l.
Proof.
  intros Hg Hd Hb Hbl Hno Hu c d dv' bn' Hc Hdl Hdv H1 H2.
  assert (Hk : ∀ e, e ≠ b → holds s' dv' bn' e → holds s dv' bn' e).
  { intros e Hne (y & Hy & Hy1). exists y. by rewrite <-(got_others _ _ _ _ _ _ Hg) by done. }
  assert (Hb' : holds s' dv' bn' b → dv' = dv ∧ bn' = bn).
  { intros (y & Hy & Hy1 & Hy2). rewrite (got_new _ _ _ _ _ _ Hg) in Hy. naive_solver. }
  destruct (decide (c = b)) as [->|Hcb], (decide (d = b)) as [->|Hdb]; [done|..].
  - destruct (Hb' H1) as [-> ->]. destruct (Hno d Hdl). by apply Hk.
  - destruct (Hb' H2) as [-> ->]. destruct (Hno c Hc). by apply Hk.
  - eapply Hu; eauto.
Qed.

(** Lookup in the buffer cache.  On a well-linked list [l] of buffers, with
    as many rounds as buffers, [get] returns a buffer of the list that stands
    for the block, locked by the caller and with one more reference, every
    other buffer and the order being unchanged: the first buffer that holds
    the block, with its data; or, when none does, the least recently used one
    with no references, marked not valid.  It panics only when the chosen
    buffer is locked or no buffer can be recycled.  At most one buffer holds a
    block, before and after. *)
Theorem bcache_get fuel s l pid dv bn
  (Hl : lru_list s l) (Hfuel : (length l ≤ fuel)%nat) (Hu : unique s l) :
  ∃ r, get fuel s pid dv bn = Some r ∧
    match r with
    | Done (s', b) => ∃ x x', got s s' pid b x x' ∧ b ∈ l ∧ dev x' = dv ∧ blockno x' = bn ∧
        lru_list s' l ∧ unique s' l ∧
        ((holds s dv bn b ∧ dat x' = dat x) ∨
         ((∀ c, c ∈ l → ¬ holds s dv bn c) ∧ valid (dat x') = false ∧
          ∃ l1 l2, l = l1 ++ b :: l2 ∧ unused s b ∧ ∀ c, c ∈ l2 → ¬ unused s c))
    | Panic _ =>
        (∃ b x, b ∈ l ∧ bufs s !! b = Some x ∧ lk x ≠ None ∧ (holds s dv bn b ∨ unused s b)) ∨
        (∀ c, c ∈ l → ¬ holds s dv bn c ∧ ¬ unused s c)
    | Fault _ => False
    end.
Proof.
  pose proof Hl as [Hs Hh Ht Hnd].
  pose proof (find_cached_spec s dv bn None l fuel Hs Hfuel) as Hc. rewrite <-Hh in Hc.
  pose proof (find_unused_spec s l None fuel Hs Hfuel) as Hun. rewrite <-Ht in Hun.
  destruct (list_find (holds s dv bn) l) as [[i b]|] eqn:Ef.
  - apply list_find_Some in Ef as (Hi & Hb & _). pose proof Hb as (x & Hx & Hd & Hn).
    pose proof (list_elem_of_lookup_2 _ _ _ Hi) as Hin.
    pose proof (get_hit fuel s pid dv bn b x Hc Hx) as Hget. destruct (lk x) eqn:El.
    { eexists. split; [exact Hget|]. left. exists b, x. rewrite El. split_and!; auto; congruence. }
    set (y := set_strong _ _) in Hget. eexists. split; [exact Hget|]. exists x, y.
    pose proof (got_insert s pid b x y Hx El eq_refl eq_refl eq_refl eq_refl) as Hg. split; [exact Hg|]. split_and!; [done|done|done|by eapply got_list|by eapply unique_keep|by left].
  - apply list_find_None in Ef. rewrite Forall_forall in Ef.
    destruct (list_find (unused s) (reverse l)) as [[i b]|] eqn:Eu.
    2: { apply list_find_None in Eu. rewrite Forall_forall in Eu. eexists. unfold get. rewrite Hc, Hun.
         split; [done|]. right. intros c Hcl. split; [by apply Ef|]. apply Eu. by apply elem_of_reverse. }
    apply list_find_Some in Eu as (Hi & Hb & Hmin). pose proof Hb as (x & Hx & Hst).
    pose proof (list_elem_of_lookup_2 _ _ _ Hi) as Hin. rewrite elem_of_reverse in Hin.
    pose proof (get_miss fuel s pid dv bn b x Hc Hun Hx) as Hget. destruct (lk x) eqn:El.
    { eexists. split; [exact Hget|]. left. exists b, x. rewrite El. split_and!; [done|done|done|by right]. }
    set (y := mkBuf dv bn _ _ _ _ _) in Hget. eexists. split; [exact Hget|]. exists x, y.
    pose proof (got_insert s pid b x y Hx El eq_refl eq_refl eq_refl eq_refl) as Hg. split; [exact Hg|]. split_and!; [done|done|done|by eapply got_list|by eapply unique_recycle|].
    right. split_and!; [done|done|]. apply take_drop_middle in Hi.
    exists (reverse (drop (S i) (reverse l))), (reverse (take i (reverse l))). split_and!; [|done|].
    + rewrite <-(reverse_involutive l) at 1. rewrite <-Hi at 1. rewrite reverse_app, reverse_cons, <-app_assoc. done.
    + intros c Hcl. rewrite elem_of_reverse in Hcl. apply list_elem_of_lookup in Hcl as (j & Hj).
      apply lookup_take_Some in Hj as [Hj ?]. by eapply Hmin.
Qed.

(** ** [init] builds the list of all buffers *)
Lemma last_or_snoc p l b : last_or p (l ++ [b]) = Some b.
Proof. unfold last_or. by rewrite last_snoc. Qed.

Lemma add_list s l b : lru_list s l → b ∉ l → lru_list (add b s) (l ++ [b]).
Proof.
  intros [Hs Hh Ht Hnd] Hb.
  assert (Hnd' : NoDup (l ++ [b])) by (apply NoDup_app; split_and!; [done|set_solver|apply NoDup_singleton]).
  assert (Hs1 : seg (<[b := buf_new]> (bufs s)) None l None).
  { eapply seg_ext; [|exact Hs]. intros c x Hc Hx. exists x. rewrite lookup_insert_ne; [done|]. by intros ->. }
  destruct l as [|l0 t] using rev_ind.
  { unfold add. rewrite Ht. cbn. split; [|done|done|done]. cbn. split; [|done]. exists buf_new.
    by rewrite lookup_insert_eq. }
  clear IHt. unfold add. rewrite Ht, last_or_snoc. cbn.
  assert (Hlb : l0 ≠ b ∧ l0 ∉ t).
  { split; [set_solver|]. apply NoDup_app in Hnd as (_ & Hd & _). intros Hin. apply (Hd l0); set_solver. }
  split; [| |by rewrite last_or_snoc|done].
  - apply seg_app. split.
    + cbn. apply seg_alter_ne; [done|]. eapply seg_set_next; [apply Hlb|exact Hs1].
    + rewrite last_or_snoc. cbn. split; [|done]. exists (set_prev (Some l0) buf_new).
      by rewrite lookup_alter_eq, lookup_alter_ne, lookup_insert_eq by naive_solver.
  - rewrite Hh. by destruct t.
Qed.

Lemma init_list : lru_list init (seq 0 NBUF).
Proof.
  unfold init. assert (H : ∀ m k s l, lru_list s l → (∀ b, b ∈ l → (b < k)%nat) →
    lru_list (foldl (λ s b, add b s) s (seq k m)) (l ++ seq k m)).
  { induction m as [|m IH]; intros k s l Hl Hlt; cbn; [by rewrite app_nil_r|].
    rewrite cons_middle, app_assoc. apply IH.
    - apply add_list; [done|]. intros Hk%Hlt. lia.
    - intros b [Hb%Hlt|Hb%list_elem_of_singleton]%elem_of_app; lia. }
  apply (H NBUF 0%nat lru_new []); [by split; [..|apply NoDup_nil]|by intros b ?%elem_of_nil].
Qed.

Lemma init_unique : unique init (seq 0 NBUF).
Proof.
  assert (H : ∀ b x, bufs init !! b = Some x → dev x = 0).
  { apply (map_Forall_to_list (λ _ x, dev x = 0)). vm_compute. repeat constructor. }
  intros b c dv bn _ _ Hdv (x & Hx & Hd & _) _. by rewrite (H _ _ Hx) in Hd.
Qed.

Lemma bcache_get_witness :
  ∃ r, get 30 init 5 1 7 = Some r ∧
    match r with
    | Done (s', b) => ∃ x x', got init s' 5 b x x' ∧ b ∈ seq 0 NBUF ∧ dev x' = 1 ∧ blockno x' = 7 ∧
        lru_list s' (seq 0 NBUF) ∧ unique s' (seq 0 NBUF) ∧
        ((holds init 1 7 b ∧ dat x' = dat x) ∨
         ((∀ c, c ∈ seq 0 NBUF → ¬ holds init 1 7 c) ∧ valid (dat x') = false ∧
          ∃ l1 l2, seq 0 NBUF = l1 ++ b :: l2 ∧ unused init b ∧ ∀ c, c ∈ l2 → ¬ unused init c))
    | Panic _ =>
        (∃ b x, b ∈ seq 0 NBUF ∧ bufs init !! b = Some x ∧ lk x ≠ None ∧ (holds init 1 7 b ∨ unused init b)) ∨
        (∀ c, c ∈ seq 0 NBUF → ¬ holds init 1 7 c ∧ ¬ unused init c)
    | Fault _ => False
    end.
Proof. apply (bcache_get 30 init (seq 0 NBUF) 5 1 7 init_list); [vm_compute; lia|exact init_unique]. Defined.

(** ** [relse] *)

Definition unlink (x : Buf) : Buf := set_prev None (set_next None x).

Lemma seg_move_front B l1 p b nx l2 x h t :
  h :: t = l1 ++ [p] ++ nx :: l2 → NoDup (b :: h :: t) →
  seg B None (l1 ++ [p]) (Some b) → B !! b = Some x → seg B (Some b) (nx :: l2) None →
  seg (alter (set_next (Some h)) b (alter (set_prev (Some b)) h
        (alter (set_next (Some nx)) p (alter (set_prev (Some p)) nx (alter unlink b B)))))
    None (b :: h :: t) None.
Proof.
  intros He [Hb Hnd]%NoDup_cons Hs1 Hx Hs2.
  assert (Hd : (b ∉ l1 ++ [p]) ∧ (b ∉ nx :: l2) ∧ (nx ∉ l1 ++ [p]) ∧ (nx ∉ l2) ∧ (p ∉ l1) ∧ (p ∉ nx :: l2)).
  { rewrite He in Hb, Hnd. rewrite app_assoc in Hb, Hnd. apply NoDup_app in Hnd as (N1 & N2 & N3).
    apply NoDup_app in N1 as (_ & N4 & _). apply NoDup_cons in N3 as [N3 _].
    apply not_elem_of_app in Hb as [? ?]. split_and!; [done|done| |done| |].
    - intros Hn. apply (N2 nx); [done|by left].
    - intros Hp. apply (N4 p); [done|by left].
    - apply N2. set_solver. }
  destruct Hd as (D1 & D2 & D3 & D4 & D5 & D6). pose proof Hnd as [Hh _]%NoDup_cons.
  assert (b ≠ nx) by set_solver. assert (b ≠ p) by set_solver. assert (b ≠ h) by set_solver.
  split.
  - exists (set_next (Some h) (unlink x)). split_and!; [|done|done].
    by rewrite lookup_alter_eq, !lookup_alter_ne, lookup_alter_eq, Hx by done.
  - apply seg_alter_ne; [done|]. eapply seg_set_prev; [done|]. rewrite He, app_assoc. apply seg_app. split.
    + cbn. eapply seg_set_next; [done|]. apply seg_alter_ne; [done|]. apply seg_alter_ne; [done|exact Hs1].
    + rewrite last_or_snoc. apply seg_alter_ne; [done|]. eapply seg_set_prev; [done|].
      apply seg_alter_ne; [done|exact Hs2].
Qed.

(** Nothing but links changes. *)
Definition same_content (y y' : Buf) : Prop :=
  dev y' = dev y ∧ blockno y' = blockno y ∧ strong y' = strong y ∧ lk y' = lk y ∧ dat y' = dat y.

Lemma content_alter (f : Buf → Buf) b (B B' : gmap nat Buf) :
  (∀ y, same_content y (f y)) →
  (∀ c y, B !! c = Some y → ∃ y', B' !! c = Some y' ∧ same_content y y') →
  ∀ c y, B !! c = Some y → ∃ y', alter f b B' !! c = Some y' ∧ same_content y y'.
Proof.
  intros Hf HB c y Hy. destruct (HB c y Hy) as (y' & Hy' & Hs). destruct (decide (c = b)) as [->|].
  - exists (f y'). rewrite lookup_alter_eq, Hy'. split; [done|]. specialize (Hf y').
    unfold same_content. destruct Hf as (-> & -> & -> & -> & ->). exact Hs.
  - exists y'. by rewrite lookup_alter_ne.
Qed.

(** Releasing a buffer that is neither first nor last in the list, with
    no references left, moves it to the front and keeps the order of the
    others; it changes only links, so every buffer keeps its block, data,
    lock and count.  With references left, nothing changes. *)
Theorem bcache_relse_middle s l1 l2 b x
  (Hl : lru_list s (l1 ++ b :: l2)) (H1 : l1 ≠ []) (H2 : l2 ≠ []) (Hx : bufs s !! b = Some x) :
  ∃ s', relse s b = Done s' ∧
    lru_list s' (if decide (strong x = 1) then b :: l1 ++ l2 else l1 ++ b :: l2) ∧
    ∀ c y, bufs s !! c = Some y → ∃ y', bufs s' !! c = Some y' ∧ same_content y y'.
Proof.
  unfold relse. rewrite Hx. destruct (decide (strong x = 1)) as [_|_].
  2: { exists s. split_and!; [done|done|]. intros c y Hy. exists y. done. }
  destruct Hl as [Hs Hh Ht Hnd]. destruct l2 as [|nx l2]; [done|].
  destruct l1 as [|p l1 _] using rev_ind; [done|].
  apply seg_app in Hs as [Hs1 Hs2]. cbn in Hs1. rewrite last_or_snoc in Hs2.
  destruct Hs2 as [(x' & Hx' & Hp & Hn) Hs2]. rewrite Hx in Hx'. injection Hx' as <-. cbn in Hn.
  rewrite Hp, Hn. cbn zeta.
  destruct ((l1 ++ [p]) ++ nx :: l2) as [|h t] eqn:E; [by destruct l1|].
  assert (Hhd : head s = Some h) by (rewrite Hh; destruct l1; cbn in *; congruence).
  cbn [upd head bufs n tail]. rewrite Hhd. eexists. split; [reflexivity|]. split.
  - assert (Hnd' : NoDup (b :: h :: t)) by (rewrite <-E; by rewrite Permutation_middle).
    split; [|done| |done].
    + cbn [bufs]. eapply seg_move_front; try done. by rewrite app_assoc.
    + cbn [tail upd]. rewrite Ht. change (b :: h :: t) with ([b] ++ (h :: t)). rewrite <-E.
      unfold last_or. rewrite (app_assoc [b]), !last_app. cbn. by destruct (last (nx :: l2)).
  - cbn [bufs]. repeat (apply content_alter; [done|]). intros c y Hy. by exists y.
Qed.

Lemma bcache_relse_middle_witness :
  ∃ s', relse init 3 = Done s' ∧
    lru_list s' (if decide (strong buf_new = 1) then 3%nat :: [0; 1; 2]%nat ++ seq 4 26 else [0; 1; 2]%nat ++ 3%nat :: seq 4 26) ∧
    ∀ c y, bufs init !! c = Some y → ∃ y', bufs s' !! c = Some y' ∧ same_content y y'.
Proof.
  destruct (bufs init !! 3%nat) as [x|] eqn:E; [|by vm_compute in E].
  assert (Hst : strong x = strong buf_new) by (vm_compute in E; by injection E as <-).
  rewrite <-Hst. apply (bcache_relse_middle init [0; 1; 2]%nat (seq 4 26) 3 x); [exact init_list|done|done|exact E].
Defined.

(** ** Releasing the first buffer *)

(** The list becomes a cycle when its first buffer is released: [relse]
    then links the buffer to itself.  Afterwards [get] of any block that this
    buffer does not hold never returns, for any number of rounds of its first
    loop. *)
Theorem bcache_release_first_spins s b x s'
  (Hh : head s = Some b) (Hx : bufs s !! b = Some x) (Hst : strong x = 1)
  (Hp : prev x = None) (Hn : next x ≠ Some b) (Hr : relse s b = Done s') :
  ∀ fuel pid dv bn, ¬ (dev x = dv ∧ blockno x = bn) → get fuel s' pid dv bn = None.
Proof.
  assert (Hc : head s' = Some b ∧ ∃ y, bufs s' !! b = Some y ∧ next y = Some b ∧ same_content x y).
  { unfold relse in Hr. rewrite Hx, decide_True, Hp in Hr by done. cbn zeta in Hr.
    set (s2 := match next x with Some n => _ | None => _ end) in Hr.
    assert (H2 : head s2 = Some b ∧ bufs s2 !! b = Some (unlink x)).
    { unfold s2. destruct (next x) as [c|]; cbn; rewrite Hh; (split; [done|]).
      - rewrite lookup_alter_ne by congruence. by rewrite lookup_alter_eq, Hx.
      - by rewrite lookup_alter_eq, Hx. }
    destruct H2 as [Hh2 Hb2]. rewrite Hh2 in Hr. injection Hr as <-. cbn. split; [done|].
    exists (set_next (Some b) (set_prev (Some b) (unlink x))). by rewrite !lookup_alter_eq, Hb2. }
  destruct Hc as (Hh' & y & Hy & Hny & Hd & Hb & _). intros fuel pid dv bn Hne.
  assert (Hspin : ∀ fuel, find_cached fuel s' (Some b) dv bn = Spin).
  { induction fuel0 as [|k IH]; [done|]. cbn. rewrite Hy, decide_False by (rewrite Hd, Hb; done). by rewrite Hny. }
  unfold get. by rewrite Hh', Hspin.
Qed.

(** After boot: block 7 is read and released, block 8 is read, and its buffer
    is unlocked and about to be released. *)
Definition use_block (s : BCache) (bn : Z) : BCache :=
  match get 30 s 5 1 bn with
  | Some (Done (s1, b)) => upd (λ x, set_strong (strong x - 1) (set_lk None x)) b s1
  | _ => s
  end.
Definition demo_release : BCache := use_block (done_or (relse (use_block init 7) 29) init) 8.

Lemma bcache_release_first_spins_witness :
  ∃ s', relse demo_release 29 = Done s' ∧
    ∀ fuel pid dv bn, ¬ (1 = dv ∧ 8 = bn) → get fuel s' pid dv bn = None.
Proof.
  destruct (bufs demo_release !! 29%nat) as [x|] eqn:E; [|by vm_compute in E].
  assert (Hx : strong x = 1 ∧ prev x = None ∧ next x = Some 0%nat ∧ dev x = 1 ∧ blockno x = 8)
    by (vm_compute in E; injection E as <-; done).
  destruct Hx as (H1 & H2 & H3 & <- & <-).
  destruct (relse demo_release 29) as [s'|m|a] eqn:Er; [|by vm_compute in Er|by vm_compute in Er].
  exists s'. split; [done|].
  apply (bcache_release_first_spins demo_release 29 x s'); [by vm_compute|done|done|done|by rewrite H3|done].
Defined.

(** ** Elements of a block *)
Lemma chunks_lookup k sz l i : (i < k)%nat → chunks k sz l !! i = Some (take sz (drop (i * sz) l)).
Proof.
  revert l i. induction k as [|k IH]; intros l i Hi; [lia|]. cbn [chunks]. destruct i as [|i]; [done|].
  change (chunks k sz (drop sz l) !! i = Some (take sz (drop (S i * sz) l))). rewrite IH by lia. by rewrite drop_drop.
Qed.

Lemma length_chunks k sz l : length (chunks k sz l) = k.
Proof. revert l. induction k as [|k IH]; intros l; cbn; [done|by rewrite IH]. Qed.

(** [align_to] splits an aligned block into its elements: 256 words of 4 bytes,
    or 16 inodes of 64 bytes, each at its multiple of the size; a block that is
    not aligned is a panic. *)
Theorem align_to_elements base al sz l :
  0 < al →
  (base `mod` al = 0 → ∃ body, align_to base al sz l = Done body ∧ length body = (length l / sz)%nat ∧
     ∀ i, (i < length body)%nat → body !! i = Some (take sz (drop (i * sz) l))) ∧
  (base `mod` al ≠ 0 → align_to base al sz l = Panic "Data was not aligned").
Proof.
  intros Hal. unfold align_to. split; intros Hb.
  - rewrite Z.mod_opp_l_z by lia. cbn [Z.to_nat]. rewrite decide_True, drop_0 by done. eexists. split; [done|].
    rewrite length_chunks. split; [done|]. intros i Hi. by apply chunks_lookup.
  - rewrite decide_False; [done|]. rewrite Z.mod_opp_l_nz by lia. pose proof (Z.mod_pos_bound base al Hal). lia.
Qed.
