(* ===== verification/BioLog.v ===== *)
(** * The log on the buffer cache

    [Log] uses the buffer cache through the class [BlockCache].  Here [bio.rs]
    as it is written is an instance of the class: its list in any state that
    calls of the log can leave it in, cyclic ones included, and its guards.
    The laws hold ([bio_laws]), so that the theorems on the log are about this
    cache too.  But [BufGuard::write] panics when its caller holds the buffer,
    which the log does: on this cache no commit and no recovery returns. *)

From S2P Require Import Prelude Log LogSpec Bio BioSpec.

Open Scope Z_scope.

(** ** The list in any state

    As long as no buffer is released while it is the first one, the list holds
    all buffers.  Then it is a cycle for good: every buffer that can be reached
    from the head is in [cyc] and has a next one there, and the buffers that
    were lost are still linked among themselves. *)
Record cycle (B : gmap nat Buf) (h : nat) (cyc l : list nat) : Prop := {
  c_head : h ∈ cyc;
  c_cyc : ∀ i, i ∈ cyc → ∃ x, B !! i = Some x ∧ (∃ j, next x = Some j ∧ j ∈ cyc) ∧ (∀ j, prev x = Some j → j ∈ cyc);
  c_seg : seg B None l None;
  c_nodup : NoDup l;
  c_disj : ∀ i, i ∈ cyc → i ∉ l;
  c_all : ∀ i, is_Some (B !! i) → i ∈ cyc ∨ i ∈ l;
}.

Record whole (B : gmap nat Buf) (h : nat) (l : list nat) : Prop := {
  w_seg : seg B None l None;
  w_head : hd_or None l = Some h;
  w_nodup : NoDup l;
  w_all : ∀ i, is_Some (B !! i) → i ∈ l;
}.

Definition linked (B : gmap nat Buf) (hd : option nat) : Prop :=
  ∃ h, hd = Some h ∧ ((∃ l, whole B h l) ∨ ∃ cyc l, cycle B h cyc l).

(** Links and the set of buffers are all that counts. *)
Definition same_links (B B' : gmap nat Buf) : Prop :=
  ∀ i, (λ x, (prev x, next x)) <$> B' !! i = (λ x, (prev x, next x)) <$> B !! i.

Lemma same_links_lookup B B' i x :
  same_links B B' → B !! i = Some x → ∃ x', B' !! i = Some x' ∧ prev x' = prev x ∧ next x' = next x.
Proof.
  intros Hs Hx. specialize (Hs i). rewrite Hx in Hs. destruct (B' !! i) as [x'|]; [|done].
  injection Hs as ? ?. eauto.
Qed.

Lemma same_links_some B B' i : same_links B B' → is_Some (B' !! i) → is_Some (B !! i).
Proof. intros Hs [x Hx]. specialize (Hs i). rewrite Hx in Hs. destruct (B !! i); [eauto|done]. Qed.

Lemma same_links_seg B B' p l q : same_links B B' → seg B p l q → seg B' p l q.
Proof. intros Hs. apply seg_ext. intros b x _. by apply same_links_lookup. Qed.

Lemma linked_same B B' hd : same_links B B' → linked B hd → linked B' hd.
Proof.
  intros Hs (h & -> & Hc). exists h. split; [done|]. destruct Hc as [(l & [W1 W2 W3 W4])|(cyc & l & [C1 C2 C3 C4 C5 C6])].
  - left. exists l. split; [by eapply same_links_seg|done|done|]. intros i Hi. by eapply W4, same_links_some.
  - right. exists cyc, l. split; [done| |by eapply same_links_seg|done|done|].
    + intros i (x & Hx & Hn & Hp)%C2. destruct (same_links_lookup _ _ _ _ Hs Hx) as (x' & Hx' & Ep & En).
      exists x'. rewrite Ep, En. eauto.
    + intros i Hi. by eapply C6, same_links_some.
Qed.

(** *** Taking a buffer out of a sequence *)
Definition detach (B : gmap nat Buf) (b : nat) (nx pv : option nat) : gmap nat Buf :=
  let B1 := alter unlink b B in
  let B2 := match nx with Some n => alter (set_prev pv) n B1 | None => B1 end in
  match pv with Some p => alter (set_next nx) p B2 | None => B2 end.

Lemma seg_prev_None B l : seg B None l None → ∀ b r, l = b :: r → ∃ x, B !! b = Some x ∧ prev x = None.
Proof. intros Hs b r ->. destruct Hs as [(x & Hx & Hp & _) _]. eauto. Qed.

Lemma detach_seg B l1 b l2 x :
  seg B None (l1 ++ b :: l2) None → NoDup (l1 ++ b :: l2) → B !! b = Some x →
  seg (detach B b (next x) (prev x)) None (l1 ++ l2) None ∧
  detach B b (next x) (prev x) !! b = Some (unlink x) ∧
  next x = hd_or None l2 ∧ prev x = last_or None l1.
Proof.
  intros Hs Hnd Hx. apply seg_app in Hs as [Hs1 Hs2]. cbn in Hs1.
  destruct Hs2 as [(x' & Hx' & Hp & Hn) Hs2]. rewrite Hx in Hx'. injection Hx' as <-.
  assert (Hd : (b ∉ l1) ∧ (b ∉ l2) ∧ NoDup l1 ∧ NoDup l2 ∧ (∀ c, c ∈ l1 → c ∉ l2)).
  { apply NoDup_app in Hnd as (N1 & N2 & N3). apply NoDup_cons in N3 as [N3 N4]. split_and!; [|done|done|done|].
    - intros Hb. apply (N2 b Hb). by left.
    - intros c Hc Hc'. apply (N2 c Hc). by right. }
  destruct Hd as (D1 & D2 & D3 & D4 & D5). rewrite Hp, Hn.
  assert (H2 : seg (match hd_or None l2 with Some n => alter (set_prev (last_or None l1)) n (alter unlink b B)
                    | None => alter unlink b B end) (last_or None l1) l2 None ∧
               seg (match hd_or None l2 with Some n => alter (set_prev (last_or None l1)) n (alter unlink b B)
                    | None => alter unlink b B end) None l1 (Some b) ∧
               (match hd_or None l2 with Some n => alter (set_prev (last_or None l1)) n (alter unlink b B)
                    | None => alter unlink b B end) !! b = Some (unlink x)).
  { destruct l2 as [|nx l2]; cbn [hd_or].
    - split_and!; [done|by apply seg_alter_ne|by rewrite lookup_alter_eq, Hx].
    - split_and!.
      + eapply seg_set_prev; [by apply NoDup_cons in D4 as [? _]|]. by apply seg_alter_ne.
      + apply seg_alter_ne; [intros Hc; apply (D5 nx Hc); left|by apply seg_alter_ne].
      + rewrite lookup_alter_ne by (intros ->; apply D2; left). by rewrite lookup_alter_eq, Hx. }
  unfold detach. set (B2 := match hd_or None l2 with Some n => _ | None => _ end) in *.
  destruct H2 as (H2 & H1 & Hb). split_and!; [| |done|done].
  - destruct l1 as [|p l1 _] using rev_ind; [by destruct l2|]. rewrite last_or_snoc in *. apply seg_app. split.
    + cbn. eapply seg_set_next; [|exact H1]. apply NoDup_app in D3 as (_ & D3 & _).
      intros Hc. apply (D3 p Hc). left.
    + rewrite last_or_snoc. apply seg_alter_ne; [apply D5; set_solver|exact H2].
  - destruct l1 as [|p l1 _] using rev_ind; [done|]. rewrite last_or_snoc.
    rewrite lookup_alter_ne by (intros ->; set_solver). done.
Qed.

(** [relse] of a buffer without other references. *)
Definition attach (B : gmap nat Buf) (b h : nat) : gmap nat Buf :=
  alter (set_next (Some h)) b (alter (set_prev (Some b)) h B).

Lemma relse_eq s b x h :
  bufs s !! b = Some x → strong x = 1 → head s = Some h →
  ∃ s', relse s b = Done s' ∧ head s' = Some b ∧ bufs s' = attach (detach (bufs s) b (next x) (prev x)) b h.
Proof.
  intros Hx Hst Hh. unfold relse. rewrite Hx, decide_True by done. cbn zeta.
  destruct (next x), (prev x); cbn; rewrite Hh; eexists; (split; [done|]); done.
Qed.

(** The attached buffer comes first; [h] was first before. *)
Lemma attach_seg B b h x l :
  seg B None (h :: l) None → NoDup (b :: h :: l) → B !! b = Some (unlink x) →
  seg (attach B b h) None (b :: h :: l) None.
Proof.
  intros Hs [Hb Hnd]%NoDup_cons Hx. apply NoDup_cons in Hnd as [Hh _]. unfold attach.
  assert (b ≠ h) by (intros ->; apply Hb; left). split.
  - exists (set_next (Some h) (unlink x)). by rewrite lookup_alter_eq, lookup_alter_ne, Hx.
  - apply seg_alter_ne; [done|]. by eapply seg_set_prev.
Qed.

Lemma attach_some B b h i : is_Some (attach B b h !! i) → is_Some (B !! i).
Proof. unfold attach. by rewrite !lookup_alter_is_Some. Qed.

Lemma detach_some B b nx pv i : is_Some (detach B b nx pv !! i) → is_Some (B !! i).
Proof. unfold detach. destruct nx, pv; by rewrite !lookup_alter_is_Some. Qed.

Lemma detach_ne B b nx pv i :
  i ≠ b → nx ≠ Some i → pv ≠ Some i → detach B b nx pv !! i = B !! i.
Proof. intros Hb Hn Hp. unfold detach. destruct nx, pv; by rewrite !lookup_alter_ne by congruence. Qed.

(** A buffer joins the cycle. *)
Lemma attach_cycle B b h x cyc l :
  b ∉ cyc → (∀ i, i ∈ cyc → ∃ x, B !! i = Some x ∧ (∃ j, next x = Some j ∧ j ∈ cyc) ∧ (∀ j, prev x = Some j → j ∈ cyc)) →
  h ∈ cyc → B !! b = Some (unlink x) → seg B None l None → NoDup l → b ∉ l → (∀ i, i ∈ cyc → i ∉ l) →
  (∀ i, is_Some (B !! i) → i ∈ b :: cyc ∨ i ∈ l) → cycle (attach B b h) b (b :: cyc) l.
Proof.
  intros Hb Hc Hh Hx Hs Hnd Hbl Hd Hall. assert (b ≠ h) by (by intros ->). unfold attach.
  split; [by left| | |done| |].
  - intros i [->|Hi]%elem_of_cons.
    + exists (set_next (Some h) (unlink x)). rewrite lookup_alter_eq, lookup_alter_ne, Hx by done.
      split_and!; [done|exists h; split; [done|by right]|done].
    + rewrite lookup_alter_ne by (by intros <-). destruct (Hc i Hi) as (y & Hy & (j & Hn & Hj) & Hp).
      destruct (decide (i = h)) as [->|Hne].
      * exists (set_prev (Some b) y). rewrite lookup_alter_eq, Hy. split_and!; [done|exists j; split; [done|by right]|].
        intros k [= <-]. by left.
      * exists y. rewrite lookup_alter_ne by done. split_and!; [done|exists j; split; [done|by right]|].
        intros k Hk. right. by apply Hp.
  - apply seg_alter_ne; [done|]. apply seg_alter_ne; [by apply Hd|done].
  - intros i [->|Hi]%elem_of_cons; [done|by apply Hd].
  - intros i Hi. apply Hall. by apply attach_some in Hi.
Qed.

(** Within the cycle every pointer that [relse] writes stays there. *)
Definition in_cyc (cyc : list nat) (b : nat) (B : gmap nat Buf) : Prop :=
  ∀ i, i ∈ cyc → ∃ x, B !! i = Some x ∧ (i ≠ b → ∃ j, next x = Some j ∧ j ∈ cyc) ∧ (∀ j, prev x = Some j → j ∈ cyc).

Lemma in_cyc_alter cyc b B f c :
  (∀ x, (c = b ∨ next (f x) = next x ∨ ∃ j, next (f x) = Some j ∧ j ∈ cyc) ∧
        (prev (f x) = prev x ∨ ∀ j, prev (f x) = Some j → j ∈ cyc)) →
  in_cyc cyc b B → in_cyc cyc b (alter f c B).
Proof.
  intros Hf HB i Hi. destruct (HB i Hi) as (x & Hx & Hn & Hp). destruct (decide (c = i)) as [<-|].
  - exists (f x). rewrite lookup_alter_eq, Hx. split; [done|]. destruct (Hf x) as [Hf1 Hf2]. split.
    + intros Hne. destruct Hf1 as [?|[->|?]]; [done|by apply Hn|done].
    + destruct Hf2 as [->|?]; done.
  - exists x. by rewrite lookup_alter_ne.
Qed.

Lemma release_in_cyc B b h x cyc :
  in_cyc cyc b B → B !! b = Some x → h ∈ cyc → b ∈ cyc →
  (∃ j, next x = Some j ∧ j ∈ cyc) → (∀ j, prev x = Some j → j ∈ cyc) →
  ∀ i, i ∈ cyc → ∃ y, attach (detach B b (next x) (prev x)) b h !! i = Some y ∧
    (∃ j, next y = Some j ∧ j ∈ cyc) ∧ (∀ j, prev y = Some j → j ∈ cyc).
Proof.
  intros HB Hx Hh Hb (j & Hn & Hj) Hp i Hi.
  assert (Hin : in_cyc cyc b (alter (set_prev (Some b)) h (detach B b (next x) (prev x)))).
  { apply in_cyc_alter; [intros y; split; [by right; left|right; by intros k [= <-]]|].
    unfold detach. rewrite Hn. destruct (prev x) as [p|] eqn:Ep.
    - apply in_cyc_alter; [intros y; split; [right; right; eauto|by left]|].
      apply in_cyc_alter; [intros y; split; [by right; left|right; by intros k [= <-]; apply Hp]|].
      apply in_cyc_alter; [intros y; split; [by left|by right]|done].
    - apply in_cyc_alter; [intros y; split; [by right; left|by right]|].
      apply in_cyc_alter; [intros y; split; [by left|by right]|done]. }
  unfold attach. destruct (Hin i Hi) as (y & Hy & Hny & Hpy). destruct (decide (i = b)) as [->|Hne].
  - exists (set_next (Some h) y). rewrite lookup_alter_eq, Hy. split_and!; [done|by exists h|done].
  - exists y. rewrite lookup_alter_ne by done. split_and!; [done|by apply Hny|done].
Qed.

Lemma seg_attach_ne B b h l q p : b ∉ l → h ∉ l → seg B p l q → seg (attach B b h) p l q.
Proof. intros Hb Hh Hs. unfold attach. by do 2 (apply seg_alter_ne; [done|]). Qed.

Lemma seg_detach_ne B b nx pv l q p :
  b ∉ l → (∀ j, nx = Some j → j ∉ l) → (∀ j, pv = Some j → j ∉ l) → seg B p l q → seg (detach B b nx pv) p l q.
Proof.
  intros Hb Hn Hp Hs. unfold detach. destruct nx, pv; repeat (apply seg_alter_ne; [by auto|]); done.
Qed.

Lemma hd_or_elem l j : hd_or None l = Some j → j ∈ l.
Proof. destruct l; [done|]. intros [= ->]. left. Qed.

Lemma last_or_elem l j : last_or None l = Some j → j ∈ l.
Proof. unfold last_or. destruct (last l) eqn:E; [|done]. intros [= ->]. by apply last_Some_elem_of. Qed.

Lemma whole_release B b h x l :
  whole B h l → B !! b = Some x → linked (attach (detach B b (next x) (prev x)) b h) (Some b).
Proof.
  intros [Ws Wh Wn Wa] Hx. destruct (list_elem_of_split l b) as (l1 & l2 & ->); [by apply Wa|].
  destruct (detach_seg B l1 b l2 x Ws Wn Hx) as (Hd & Hdb & Hnx & Hpv).
  assert (Hnd : NoDup (b :: l1 ++ l2)) by (by rewrite Permutation_middle).
  assert (Hall : ∀ i, is_Some (attach (detach B b (next x) (prev x)) b h !! i) → i ∈ b :: l1 ++ l2).
  { intros i Hi%attach_some%detach_some%Wa. by rewrite Permutation_middle. }
  exists b. split; [done|]. destruct l1 as [|h' l1].
  - (* the first buffer *)
    injection Wh as ->. right. exists [h], l2. cbn [app] in *. apply NoDup_cons in Hnd as [Hh Hnd].
    split; [by left| |by apply seg_attach_ne|done|by intros i ->%list_elem_of_singleton|].
    + intros i ->%list_elem_of_singleton. unfold attach. exists (set_next (Some h) (set_prev (Some h) (unlink x))).
      rewrite !lookup_alter_eq, Hdb. split_and!; [done|by exists h; split; [|left]|intros j [= <-]; by left].
    + intros i [->|?]%Hall%elem_of_cons; [left; left|by right].
  - injection Wh as ->. left. exists (b :: (h :: l1) ++ l2). split; [by eapply attach_seg|done|done|done].
Qed.

Lemma cycle_release B b h x cyc l :
  cycle B h cyc l → B !! b = Some x → linked (attach (detach B b (next x) (prev x)) b h) (Some b).
Proof.
  intros [Ch Cc Cs Cn Cd Ca] Hx. exists b. split; [done|]. right. destruct (Ca b) as [Hb|Hb]; [by eauto| |].
  - exists cyc, l. destruct (Cc b Hb) as (x' & Hx' & Hn & Hp). rewrite Hx in Hx'. injection Hx' as <-.
    split; [done| | |done|done|by intros i ?%attach_some%detach_some%Ca].
    + eapply release_in_cyc; try done. intros i Hi. destruct (Cc i Hi) as (y & ? & ? & ?). eauto.
    + apply seg_attach_ne; [by apply Cd|by apply Cd|]. destruct Hn as (j & Hn & Hj).
      apply seg_detach_ne; [by apply Cd| | |done]; intros k Hk; apply Cd; [congruence|by apply Hp].
  - apply list_elem_of_split in Hb as (l1 & l2 & ->).
    destruct (detach_seg B l1 b l2 x Cs Cn Hx) as (Hd & Hdb & Hnx & Hpv).
    assert (Hnd : NoDup (b :: l1 ++ l2)) by (by rewrite Permutation_middle). apply NoDup_cons in Hnd as [Hb Hnd].
    assert (Hbc : b ∉ cyc) by (intros Hc; apply (Cd b Hc); set_solver).
    exists (b :: cyc), (l1 ++ l2). eapply attach_cycle; try done.
    + intros i Hi. destruct (Cc i Hi) as (y & Hy & Hny & Hpy). exists y. split; [|done].
      rewrite detach_ne; [done|by intros ->| |]; intros Hj; apply (Cd i Hi).
      * rewrite Hj in Hnx. symmetry in Hnx. apply hd_or_elem in Hnx. set_solver.
      * rewrite Hj in Hpv. symmetry in Hpv. apply last_or_elem in Hpv. set_solver.
    + intros i Hi. pose proof (Cd i Hi). set_solver.
    + intros i Hi%detach_some%Ca. set_solver.
Qed.

Lemma relse_linked s b s' :
  linked (bufs s) (head s) → relse s b = Done s' → linked (bufs s') (head s').
Proof.
  intros (h & Hh & Hl) Hr. destruct (bufs s !! b) as [x|] eqn:Hx; [|unfold relse in Hr; by rewrite Hx in Hr].
  destruct (decide (strong x = 1)) as [Hst|Hst].
  - destruct (relse_eq s b x h Hx Hst Hh) as (s1 & Hr1 & Hh1 & HB). rewrite Hr in Hr1. injection Hr1 as <-.
    rewrite Hh1, HB. destruct Hl as [[l Hw]|(cyc & l & Hc)]; [by eapply whole_release|by eapply cycle_release].
  - unfold relse in Hr. rewrite Hx, decide_False in Hr by done. injection Hr as <-. by exists h.
Qed.

(** ** Looking up a block *)
Lemma find_hit fuel s cur dv bn b :
  find_cached fuel s cur dv bn = Hit b → ∃ x, bufs s !! b = Some x ∧ dev x = dv ∧ blockno x = bn.
Proof.
  revert cur. induction fuel as [|fuel IH]; intros [c|]; cbn; try done.
  destruct (bufs s !! c) as [x|] eqn:Hx; [|done]. case_decide as Hd; [|apply IH].
  intros [= <-]. naive_solver.
Qed.

Lemma find_miss_seg fuel s p l dv bn :
  seg (bufs s) p l None → find_cached fuel s (hd_or None l) dv bn = Miss → ∀ i, i ∈ l → ¬ holds s dv bn i.
Proof.
  revert p fuel. induction l as [|b l IH]; intros p fuel Hs Hf i Hi; [by apply not_elem_of_nil in Hi|].
  destruct fuel as [|fuel]; [done|]. destruct Hs as [(x & Hx & _ & Hn) Hs]. cbn in Hf. rewrite Hx in Hf.
  case_decide as Hd; [done|]. rewrite Hn in Hf.
  apply elem_of_cons in Hi as [->|Hi]; [intros (y & Hy & ?); naive_solver|by eapply IH].
Qed.

Lemma find_miss_cycle fuel s h cyc l dv bn :
  cycle (bufs s) h cyc l → ∀ i, i ∈ cyc → find_cached fuel s (Some i) dv bn ≠ Miss.
Proof.
  intros [_ Cc _ _ _ _]. induction fuel as [|fuel IH]; intros i Hi; cbn; [done|].
  destruct (Cc i Hi) as (x & -> & (j & -> & Hj) & _). case_decide; [done|]. by apply IH.
Qed.

Lemma find_miss fuel s dv bn :
  linked (bufs s) (head s) → find_cached fuel s (head s) dv bn = Miss → ∀ i, ¬ holds s dv bn i.
Proof.
  intros (h & Hh & Hl) Hf i (x & Hx & Hid). rewrite Hh in Hf. destruct Hl as [[l [Ws Wh Wn Wa]]|(cyc & l & Hc)].
  - rewrite <-Wh in Hf. eapply find_miss_seg; [done|done|by apply Wa|]. exists x. naive_solver.
  - eapply find_miss_cycle; [done| |done]. apply Hc.
Qed.

Lemma find_unused_hit fuel s cur b :
  find_unused fuel s cur = Hit b → ∃ x, bufs s !! b = Some x ∧ strong x = 1.
Proof.
  revert cur. induction fuel as [|fuel IH]; intros [c|]; cbn; try done.
  destruct (bufs s !! c) as [x|] eqn:Hx; [|done]. case_decide as Hd; [|apply IH].
  intros [= <-]. naive_solver.
Qed.

(** What a read that returns has done: buffer [b] is locked and valid, and was
    either found or recycled. *)
Lemma bread_done dk fuel s pid dv bn s' b :
  Bio.bread dk fuel s pid dv bn = Some (Done (s', b)) →
  ∃ x y, bufs s !! b = Some x ∧ lk x = None ∧ head s' = head s ∧
    (∀ i, bufs s' !! i = if decide (i = b) then Some y else bufs s !! i) ∧ prev y = prev x ∧ next y = next x ∧
    dev y = dv ∧ blockno y = bn ∧ lk y = Some pid ∧ strong y = strong x + 1 ∧ valid (dat y) = true ∧
    ((dev x = dv ∧ blockno x = bn ∧ d_blockno (dat y) = d_blockno (dat x) ∧
      data (dat y) = if valid (dat x) then data (dat x) else dk (d_blockno (dat x))) ∨
     (find_cached fuel s (head s) dv bn = Miss ∧ strong x = 1 ∧ d_blockno (dat y) = bn ∧ data (dat y) = dk bn)).
Proof.
  assert (Hins : ∀ (B : gmap nat Buf) z i, <[b := z]> B !! i = if decide (i = b) then Some z else B !! i).
  { intros B z i. case_decide; [subst; by rewrite lookup_insert_eq|by rewrite lookup_insert_ne]. }
  assert (Hset : ∀ (B : gmap nat Buf) F z i, alter F b (<[b := z]> B) !! i = if decide (i = b) then Some (F z) else B !! i).
  { intros B F z i. case_decide; [subst; by rewrite lookup_alter_eq, lookup_insert_eq|by rewrite lookup_alter_ne, lookup_insert_ne]. }
  unfold Bio.bread. destruct (find_cached fuel s (head s) dv bn) as [c| |] eqn:Ef.
  - destruct (find_hit _ _ _ _ _ _ Ef) as (x & Hx & Hd & Hb). rewrite (get_hit _ _ pid _ _ _ _ Ef Hx).
    destruct (lk x) eqn:El; [done|]. cbn. rewrite lookup_insert_eq. cbn.
    destruct (valid (dat x)) eqn:Ev; intros [= <- <-]; eexists x, _;
      (split; [done|]); (split; [done|]); (split; [done|]); (split; [intros i; (apply Hset || apply Hins)|]);
      cbn; split_and!; try done; left; by rewrite Ev.
  - destruct (find_unused fuel s (tail s)) as [c| |] eqn:Eu; [|unfold get; by rewrite Ef, Eu|unfold get; by rewrite Ef, Eu].
    destruct (find_unused_hit _ _ _ _ Eu) as (x & Hx & Hst). rewrite (get_miss _ _ pid _ _ _ _ Ef Eu Hx).
    destruct (lk x) eqn:El; [done|]. cbn. rewrite lookup_insert_eq. cbn. intros [= <- <-]. eexists x, _.
    (split; [done|]); (split; [done|]); (split; [done|]); (split; [intros i; apply Hset|]).
    cbn. split_and!; try done. right. done.
  - unfold get. by rewrite Ef.
Qed.

(** ** The store

    The cache, the disk, and what the laws speak of: the block writes, what
    readers of a block get, the guards in use and the pins.  No operation reads
    the latter. *)
Record store := mkStore {
  cache : BCache;
  s_disk : Z → block;
  s_writes : list (Z * block);
  s_view : Z → block;
  s_held : list (nat * Z);
  s_pins : Z → Z;
}.

Definition set_cache (s : store) (c : BCache) : store :=
  mkStore c (s_disk s) (s_writes s) (s_view s) (s_held s) (s_pins s).

Section instance.
(** The process, and the rounds after which a walk along the list is taken not
    to end. *)
Variables (pid : Z) (fuel : nat).

Definition buf_data (s : store) (g : nat) : Data :=
  match bufs (cache s) !! g with Some x => dat x | None => data_new end.

Definition blk (s : store) (g : nat) : Z := d_blockno (buf_data s g).

(** A panic or a walk without end leaves the disk as it is. *)
Definition step_cache {A B} (s : store) (r : option (outcome A)) (k : A → store * B) : store * option (outcome B) :=
  match r with
  | Some (Done a) => let '(s', b) := k a in (s', Some (Done b))
  | Some (Panic m) => (s, Some (Panic m))
  | Some (Fault a) => (s, Some (Fault a))
  | None => (s, None)
  end.

Definition s_read (dv bn : Z) : io store nat := λ s,
  step_cache s (Bio.bread (s_disk s) fuel (cache s) pid dv bn)
    (λ '(c, g), (mkStore c (s_disk s) (s_writes s) (s_view s) ((g, bn) :: s_held s) (s_pins s), g)).

Definition s_fill (g : nat) (x : block) (s : store) : store :=
  mkStore (upd (λ b, set_dat (mkData x (disk_owned (dat b)) (d_blockno (dat b)) (d_dev (dat b)) (valid (dat b))) b) g (cache s))
    (s_disk s) (s_writes s) (bupd (s_view s) (blk s g) x) (s_held s) (s_pins s).

Definition s_write (g : nat) : io store unit := λ s,
  step_cache s (Some (bwrite (cache s) pid g (λ d, d)))
    (λ c, (mkStore c (bupd (s_disk s) (blk s g) (data (buf_data s g))) (s_writes s ++ [(blk s g, data (buf_data s g))])
             (s_view s) (s_held s) (s_pins s), tt)).

Definition s_pin (k : Z) (g : nat) (s : store) : store :=
  mkStore (if decide (0 < k) then pin (cache s) g else unpin (cache s) g) (s_disk s) (s_writes s) (s_view s) (s_held s)
    (λ c, if decide (c = blk s g) then s_pins s c + k else s_pins s c).

Definition s_drop (g : nat) : io store unit := λ s,
  step_cache s (Some (brelse (cache s) pid g))
    (λ c, (mkStore c (s_disk s) (s_writes s) (s_view s) (filter (λ p, p.1 ≠ g) (s_held s)) (s_pins s), tt)).

(** ** The invariant *)
Definition guarded (x : Buf) : Z := match lk x with Some _ => 1 | None => 0 end.

(** [f] gives the buffers without their links. *)
Record content (f : nat → option Buf) (vw dk : Z → block) (hd : list (nat * Z)) (pn : Z → Z) : Prop := {
  ct_buf : ∀ i x, f i = Some x → dev x = ROOTDEV →
    d_blockno (dat x) = blockno x ∧
    (if valid (dat x) then data (dat x) = vw (blockno x) else vw (blockno x) = dk (blockno x)) ∧
    strong x = 1 + guarded x + pn (blockno x) ∧ 0 ≤ pn (blockno x) ∧
    (lk x = None → pn (blockno x) = 0 → vw (blockno x) = dk (blockno x));
  ct_none : ∀ c, (∀ i x, f i = Some x → ¬ (dev x = ROOTDEV ∧ blockno x = c)) → vw c = dk c ∧ pn c = 0;
  ct_unique : ∀ i j x y, f i = Some x → f j = Some y → dev x = ROOTDEV → dev y = ROOTDEV → blockno x = blockno y → i = j;
  ct_held : ∀ i c, (i, c) ∈ hd →
    ∃ x, f i = Some x ∧ lk x = Some pid ∧ dev x = ROOTDEV ∧ blockno x = c ∧ valid (dat x) = true;
  ct_nodup : NoDup hd.*1;
  ct_size : ∀ c, length (vw c) = Log.BSIZE ∧ length (dk c) = Log.BSIZE;
}.

Definition bare (B : gmap nat Buf) (i : nat) : option Buf := unlink <$> B !! i.

Definition s_ready (s : store) : Prop :=
  linked (bufs (cache s)) (head (cache s)) ∧
  content (bare (bufs (cache s))) (s_view s) (s_disk s) (s_held s) (s_pins s).

#[export] Instance bio_cache : BlockCache store := {
  buf_guard := nat;
  Log.bread := s_read;
  gdata s g := data (buf_data s g);
  gblockno := blk;
  gfill := s_fill;
  gwrite := s_write;
  gpin := s_pin 1;
  gunpin := s_pin (-1);
  gdrop := s_drop;
  view := s_view;
  disk := s_disk;
  writes := s_writes;
  held := s_held;
  pins := s_pins;
  ready := s_ready;
  reliable _ := False;
}.

(** One buffer changes, the others keep what they hold. *)
Definition fupd (f : nat → option Buf) (g : nat) (y : Buf) (i : nat) : option Buf :=
  if decide (i = g) then Some y else f i.

Lemma content_ext f f' vw vw' dk hd pn pn' :
  (∀ i, f' i = f i) → (∀ c, vw' c = vw c) → (∀ c, pn' c = pn c) → content f vw dk hd pn → content f' vw' dk hd pn'.
Proof.
  intros Hf Hv Hp [C1 C2 C3 C4 C5 C6]. split; try done.
  - intros i x. rewrite Hf, !Hv, !Hp. apply C1.
  - intros c Hc. rewrite Hv, Hp. apply C2. intros i x. rewrite <-Hf. apply Hc.
  - intros i j x y. rewrite !Hf. apply C3.
  - intros i c Hi. rewrite Hf. by apply C4.
  - intros c. rewrite Hv. apply C6.
Qed.

Section content.
Context (f : nat → option Buf) (vw dk : Z → block) (hd : list (nat * Z)) (pn : Z → Z).
Hypothesis Hf : content f vw dk hd pn.

Lemma held_unique g b c : (g, b) ∈ hd → (g, c) ∈ hd → b = c.
Proof. intros (x & Hx & _ & _ & <- & _)%(ct_held _ _ _ _ _ Hf) (y & Hy & _ & _ & <- & _)%(ct_held _ _ _ _ _ Hf). congruence. Qed.

Lemma free_not_held g x : f g = Some x → lk x = None → g ∉ hd.*1.
Proof.
  intros Hx Hl ((g' & b) & -> & (y & Hy & Hly & _)%(ct_held _ _ _ _ _ Hf))%list_elem_of_fmap. cbn in *. congruence.
Qed.

Lemma content_got g x y bn :
  f g = Some x → lk x = None → dev y = ROOTDEV → blockno y = bn → d_blockno (dat y) = bn →
  valid (dat y) = true → data (dat y) = vw bn → lk y = Some pid → strong y = 2 + pn bn → 0 ≤ pn bn →
  (dev x = ROOTDEV → blockno x ≠ bn → vw (blockno x) = dk (blockno x) ∧ pn (blockno x) = 0) →
  (∀ i z, f i = Some z → dev z = ROOTDEV → blockno z = bn → i = g) →
  content (fupd f g y) vw dk ((g, bn) :: hd) pn.
Proof.
  intros Hx Hl Hd Hb Hdb Hv Hda Hly Hst Hp Hev Hun. pose proof (free_not_held g x Hx Hl) as Hni.
  destruct Hf as [C1 C2 C3 C4 C5 C6]. split; [| | | | |done].
  - intros i z. unfold fupd. case_decide; [|by apply C1]. intros [= <-] _. unfold guarded.
    rewrite Hb, Hv, Hly. split_and!; (done || lia).
  - intros c Hc. destruct (decide (dev x = ROOTDEV ∧ blockno x = c)) as [[Hxd Hxc]|Hxc].
    + rewrite <-Hxc. apply Hev; [done|]. intros Hbn. apply (Hc g y); [unfold fupd; by rewrite decide_True|].
      split; [done|]. congruence.
    + apply C2. intros i z Hz Hid. destruct (decide (i = g)) as [->|Hne]; [naive_solver|].
      apply (Hc i z); [|done]. unfold fupd. by rewrite decide_False.
  - intros i j z w. unfold fupd. do 2 case_decide; subst; intros Hz Hw Hdz Hdw Heq; simplify_eq; try done.
    + symmetry. by eapply Hun.
    + by eapply Hun.
    + by eapply C3.
  - intros i c [[= -> ->]|Hi]%elem_of_cons.
    + exists y. unfold fupd. by rewrite decide_True.
    + destruct (C4 i c Hi) as (z & Hz & ?). exists z. unfold fupd. rewrite decide_False; [done|].
      intros ->. apply Hni. apply list_elem_of_fmap. by exists (g, c).
  - cbn. by constructor.
Qed.

(** A guarded buffer changes. *)
Lemma content_held g b x y vw' pn' hd' :
  (g, b) ∈ hd → f g = Some x → dev y = dev x → blockno y = blockno x →
  d_blockno (dat y) = d_blockno (dat x) → valid (dat y) = valid (dat x) →
  data (dat y) = vw' b → strong y = 1 + guarded y + pn' b → 0 ≤ pn' b →
  (lk y = None → pn' b = 0 → vw' b = dk b) →
  (∀ c, c ≠ b → vw' c = vw c ∧ pn' c = pn c) → length (vw' b) = Log.BSIZE →
  (∀ i c, (i, c) ∈ hd' → (i, c) ∈ hd ∧ (i = g → lk y = Some pid)) → NoDup hd'.*1 →
  content (fupd f g y) vw' dk hd' pn'.
Proof.
  intros Hh Hx Hd Hb Hdb Hv Hda Hst Hp Hcl Hoth Hsz Hhd Hnd.
  destruct (ct_held _ _ _ _ _ Hf g b Hh) as (x' & Hx' & Hl & Hdx & Hbx & Hvx). rewrite Hx in Hx'. injection Hx' as <-.
  destruct Hf as [C1 C2 C3 C4 C5 C6].
  assert (Hne : ∀ i z, i ≠ g → f i = Some z → dev z = ROOTDEV → blockno z ≠ b).
  { intros i z Hi Hz Hdz Hbz. apply Hi. eapply C3; try done. congruence. }
  split; [| | | |done|].
  - intros i z. unfold fupd. case_decide as Hi; [intros [= <-] _|intros Hz Hdz].
    + destruct (C1 g x Hx Hdx) as (? & _). rewrite Hb, Hv, Hvx, Hbx, Hdb. split_and!; (done || congruence).
    + destruct (Hoth (blockno z) (Hne i z Hi Hz Hdz)) as [-> ->]. by apply (C1 i).
  - intros c Hc. assert (Hcb : c ≠ b).
    { intros ->. apply (Hc g y); [unfold fupd; by rewrite decide_True|]. split; congruence. }
    destruct (Hoth c Hcb) as [-> ->]. apply C2. intros i z Hz [Hdz Hbz]. destruct (decide (i = g)) as [->|Hi]; [congruence|].
    apply (Hc i z); [unfold fupd; by rewrite decide_False|done].
  - intros i j z w. unfold fupd. do 2 case_decide; subst; intros Hz Hw Hdz Hdw Heq; simplify_eq; try done.
    + exfalso. apply (Hne j w); try done. congruence.
    + exfalso. apply (Hne i z); try done. congruence.
    + by eapply C3.
  - intros i c [Hi Hl']%Hhd. destruct (C4 i c Hi) as (z & Hz & ?). unfold fupd. case_decide; [|by eauto].
    subst. exists y. split_and!; naive_solver congruence.
  - intros c. destruct (decide (c = b)) as [->|Hcb]; [split; [done|apply C6]|]. destruct (Hoth c Hcb) as [-> _]. apply C6.
Qed.
End content.

(** ** The laws *)
Lemma bare_ext B B' g x y :
  (∀ i, B' !! i = if decide (i = g) then Some y else B !! i) → B !! g = Some x →
  prev y = prev x → next y = next x →
  (∀ i, bare B' i = fupd (bare B) g (unlink y) i) ∧ same_links B B'.
Proof.
  intros HB Hx Hp Hn. split; intros i; [unfold bare, fupd|]; rewrite HB; case_decide; try done.
  subst. rewrite Hx. cbn. by rewrite Hp, Hn.
Qed.

Lemma alter_lookup (B : gmap nat Buf) F g x i :
  B !! g = Some x → alter F g B !! i = if decide (i = g) then Some (F x) else B !! i.
Proof. intros Hx. case_decide; [subst; by rewrite lookup_alter_eq, Hx|by rewrite lookup_alter_ne]. Qed.

Lemma bare_alter B F g x i :
  B !! g = Some x → prev (F x) = prev x → next (F x) = next x → bare (alter F g B) i = fupd (bare B) g (unlink (F x)) i.
Proof. intros Hx Hp Hn. by apply (bare_ext _ _ g x _ (λ i, alter_lookup _ F _ _ i Hx)). Qed.

Lemma links_alter B F g x :
  B !! g = Some x → prev (F x) = prev x → next (F x) = next x → same_links B (alter F g B).
Proof. intros Hx Hp Hn. by apply (bare_ext _ _ g x _ (λ i, alter_lookup _ F _ _ i Hx)). Qed.

Lemma bare_relse s g s' : relse s g = Done s' → ∀ i, bare (bufs s') i = bare (bufs s) i.
Proof.
  assert (Ha : ∀ (B : gmap nat Buf) F c i, (∀ y, unlink (F y) = unlink y) → bare (alter F c B) i = bare B i).
  { intros B F c i HF. unfold bare. destruct (decide (c = i)) as [->|]; [|by rewrite lookup_alter_ne].
    rewrite lookup_alter_eq. destruct (B !! i); [cbn; by rewrite HF|done]. }
  unfold relse. destruct (bufs s !! g) as [x|]; [|done]. case_decide; [|by intros [= <-]]. cbn zeta.
  intros [= <-] i. destruct (next x), (prev x); cbn; case_match; cbn; by rewrite !Ha.
Qed.

Lemma filter_all (gs : list (nat * Z)) g : g ∉ gs.*1 → filter (λ p, p.1 ≠ g) gs = gs.
Proof.
  induction gs as [|p gs IH]; [done|]. rewrite fmap_cons. intros [Hp Hg]%not_elem_of_cons.
  rewrite filter_cons_True by congruence. by rewrite IH.
Qed.

Lemma written_same (s s' : store) : s_disk s' = s_disk s → s_writes s' = s_writes s → written s [] s'.
Proof. intros Hd Hw. split; cbn; [by rewrite Hd|by rewrite Hw, app_nil_r]. Qed.

Lemma held_buffer s g b :
  s_ready s → (g, b) ∈ s_held s →
  ∃ x, bufs (cache s) !! g = Some x ∧ bare (bufs (cache s)) g = Some (unlink x) ∧ lk x = Some pid ∧ dev x = ROOTDEV ∧
    blockno x = b ∧ valid (dat x) = true ∧ buf_data s g = dat x ∧ blk s g = b ∧ data (dat x) = s_view s b ∧
    strong x = 2 + s_pins s b ∧ 0 ≤ s_pins s b.
Proof.
  intros [_ C] Hg. destruct (ct_held _ _ _ _ _ C g b Hg) as (y & Hy & Hl & Hd & Hb & Hv).
  unfold bare in Hy. destruct (bufs (cache s) !! g) as [x|] eqn:Hx; [|done]. injection Hy as <-. cbn in *.
  destruct (ct_buf _ _ _ _ _ C g (unlink x)) as (H1 & H2 & H3 & H4 & _); [unfold bare; by rewrite Hx|done|]. cbn in *.
  unfold guarded in H3. cbn in H3. rewrite Hl in H3. rewrite Hv in H2. rewrite Hb in *.
  exists x. unfold blk, buf_data, bare. rewrite Hx. split_and!; (done || lia).
Qed.

Lemma read_law s b : s_ready s → after (s_read ROOTDEV b) s
  (λ g s', keeps s s' ∧ written s [] s' ∧ held s' = (g, b) :: held s) (written s []).
Proof.
  intros [L C]. unfold after, s_read, step_cache.
  destruct (Bio.bread (s_disk s) fuel (cache s) pid ROOTDEV b) as [[[c g]|m|a]|] eqn:E.
  2-4: split; [by intros []|by apply written_same].
  apply bread_done in E as (x & y & Hx & Hlx & Hh & HB & Hp & Hn & Hdy & Hby & Hly & Hst & Hv & Hor).
  destruct (bare_ext _ _ _ _ _ HB Hx Hp Hn) as [Hbare Hlinks].
  assert (Hbx : bare (bufs (cache s)) g = Some (unlink x)) by (unfold bare; by rewrite Hx).
  split_and!; [|by apply written_same|done]. split_and!; try done. split; cbn [cache s_disk s_view s_held s_pins].
  { rewrite Hh. by eapply linked_same. }
  eapply content_ext; [exact Hbare|done|done|].
  destruct Hor as [(Hdx & Hbb & Hdb & Hda)|(Hmiss & Hone & Hdb & Hda)].
  - destruct (ct_buf _ _ _ _ _ C g _ Hbx Hdx) as (H1 & H2 & H3 & H4 & H5). unfold guarded in H3. cbn in *.
    rewrite Hbb, Hlx in *. eapply content_got; cbn; try done; try congruence; try lia.
    + rewrite Hda. destruct (valid (dat x)); [done|]. by rewrite H1.
    + intros i z Hz Hdz Hbz. eapply (ct_unique _ _ _ _ _ C); try done. cbn. congruence.
  - pose proof (find_miss _ _ _ _ L Hmiss) as Hno.
    assert (Hnone : ∀ i z, bare (bufs (cache s)) i = Some z → ¬ (dev z = ROOTDEV ∧ blockno z = b)).
    { intros i z Hz Hid. unfold bare in Hz. destruct (bufs (cache s) !! i) as [w|] eqn:Hw; [|done]. injection Hz as <-.
      apply (Hno i). by exists w. }
    destruct (ct_none _ _ _ _ _ C b Hnone) as [Hvb Hpb].
    eapply content_got; cbn; try done; try congruence; try lia.
    + intros Hdx Hne. destruct (ct_buf _ _ _ _ _ C g _ Hbx Hdx) as (_ & _ & H3 & H4 & H5). unfold guarded in H3. cbn in *.
      rewrite Hlx in *. assert (Hz : s_pins s (blockno x) = 0) by lia. auto.
    + intros i z Hz Hdz Hbz. by destruct (Hnone i z Hz).
Qed.

Lemma fill_law s g b x : s_ready s → (g, b) ∈ s_held s → length x = Log.BSIZE → s_ready (s_fill g x s).
Proof.
  intros R Hg Hx. destruct (held_buffer s g b R Hg) as (y & Hy & Hby & Hl & Hd & Hb & Hv & Hbd & Hblk & Hda & Hst & Hp).
  destruct R as [L C]. unfold s_fill. rewrite Hblk. split; cbn.
  - eapply linked_same; [by eapply links_alter|done].
  - eapply content_ext; [intros i; by apply (bare_alter _ _ _ y)|done|done|]. eapply content_held; cbn; try done; unfold guarded; cbn; rewrite ?Hl, ?Hb; try done; try lia.
    + unfold bupd. by rewrite decide_True.
    + intros c Hc. unfold bupd. by rewrite decide_False.
    + unfold bupd. by rewrite decide_True.
    + apply C.
Qed.

Lemma unpin_law s g b : s_ready s → (g, b) ∈ s_held s → 1 ≤ s_pins s b → s_ready (s_pin (-1) g s).
Proof.
  intros R Hg Hge. destruct (held_buffer s g b R Hg) as (y & Hy & Hby & Hl & Hd & Hb & Hv & Hbd & Hblk & Hda & Hst & Hp).
  destruct R as [L C]. unfold s_pin. rewrite Hblk, decide_False by lia. split; cbn.
  - eapply linked_same; [by eapply links_alter|done].
  - eapply content_ext; [intros i; by apply (bare_alter _ _ _ y)|done|done|]. eapply (content_held _ (s_view s)); cbn; try done; unfold guarded; cbn; rewrite ?Hl, ?decide_True by done; try done; try lia.
    + intros c Hc. by rewrite decide_False.
    + apply C.
    + apply C.
Qed.

Lemma drop_law s g b gs : s_ready s → s_held s = (g, b) :: gs → (s_view s b = s_disk s b ∨ 1 ≤ s_pins s b) →
  after (s_drop g) s (λ _ s', keeps s s' ∧ written s [] s' ∧ held s' = gs) (written s []).
Proof.
  intros R Hh Hcl. assert (Hg : (g, b) ∈ s_held s) by (rewrite Hh; left).
  destruct (held_buffer s g b R Hg) as (y & Hy & Hby & Hl & Hd & Hb & Hv & Hbd & Hblk & Hda & Hst & Hp).
  destruct R as [L C]. unfold after, s_drop, step_cache.
  assert (Hgs : filter (λ p, p.1 ≠ g) (s_held s) = gs).
  { pose proof (ct_nodup _ _ _ _ _ C) as Hnd. rewrite Hh in Hnd |- *. cbn in Hnd. apply NoDup_cons in Hnd as [Hni _].
    rewrite filter_cons_False by naive_solver. by apply filter_all. }
  destruct (brelse (cache s) pid g) as [c|m|a] eqn:E.
  2-3: split; [by intros []|by apply written_same].
  unfold brelse in E. rewrite Hy in E. unfold sl_drop, sl_holding in E. rewrite Hl, bool_decide_true in E by done.
  cbn [mbind outcome_bind] in E. set (c1 := upd _ g (cache s)) in E.
  assert (L1 : linked (bufs c1) (head c1)) by (eapply linked_same; [by eapply links_alter|done]).
  split_and!; [|by apply written_same|done]. split_and!; try done. rewrite Hgs. split; cbn [cache s_disk s_view s_held s_pins].
  { by eapply relse_linked. }
  eapply content_ext; [intros i; rewrite (bare_relse _ _ _ E); by apply (bare_alter _ _ _ y)|done|done|].
  eapply (content_held _ (s_view s)); cbn; try done; unfold guarded; cbn; try lia.
  - intros _ Hz. destruct Hcl; [done|lia].
  - apply C.
  - intros i k Hi. split; [rewrite Hh; by right|]. intros ->. exfalso.
    pose proof (ct_nodup _ _ _ _ _ C) as Hnd. rewrite Hh in Hnd. cbn in Hnd. apply NoDup_cons in Hnd as [Hni _].
    apply Hni. apply list_elem_of_fmap. by exists (g, k).
  - pose proof (ct_nodup _ _ _ _ _ C) as Hnd. rewrite Hh in Hnd. by apply NoDup_cons in Hnd as [_ ?].
Qed.

#[export] Instance bio_laws : BlockCacheLaws store.
Proof.
  split.
  - intros s b R _ _. by apply read_law.
  - intros s g b R Hg. destruct (held_buffer s g b R Hg) as (y & _ & _ & _ & _ & _ & _ & Hbd & _ & Hda & _).
    cbn. by rewrite Hbd.
  - intros s g b x R Hg Hx. cbn. destruct (held_buffer s g b R Hg) as (y & _ & _ & _ & _ & _ & _ & _ & Hblk & _).
    split_and!; [by eapply fill_law| |done|done|by apply written_same|done]. intros c. cbn. by rewrite Hblk.
  - intros s g b R Hg. destruct (held_buffer s g b R Hg) as (y & Hy & _ & Hl & _). cbn. unfold after, s_write, step_cache, bwrite.
    rewrite Hy. unfold sl_holding. rewrite Hl, bool_decide_true by done. split; [by intros []|]. left. by apply written_same.
  - intros s g b R Hg Hge. cbn. destruct (held_buffer s g b R Hg) as (y & _ & _ & _ & _ & _ & _ & _ & Hblk & _).
    split_and!; [by eapply unpin_law|done| |done|by apply written_same|done]. intros c. cbn. rewrite Hblk.
    case_decide; [subst; lia|done].
  - intros s g b gs R Hh Hcl. by eapply drop_law.
  - intros s b [_ C]. apply C.
Qed.

(** ** The log on this cache

    [stuck m]: from every store, [m] stops without returning and without a
    block write. *)
Definition quiet (s s' : store) : Prop := s_disk s' = s_disk s ∧ s_writes s' = s_writes s.

Definition stuck {A} (m : io store A) : Prop :=
  ∀ s, quiet s (m s).1 ∧ ∀ a, (m s).2 ≠ Some (Done a).

(** A call without block writes: it returns with [Q], or the run is stuck. *)
Definition calm {A} (m : io store A) (s : store) (Q : A → store → Prop) : Prop :=
  match m s with
  | (s', Some (Done a)) => quiet s s' ∧ Q a s'
  | (s', _) => quiet s s'
  end.

Lemma stuck_bind {A B} (m : io store A) (f : A → io store B) s Q :
  calm m s Q →
  (∀ a s', Q a s' → quiet s' (f a s').1 ∧ ∀ b, (f a s').2 ≠ Some (Done b)) →
  quiet s ((m ≫= f) s).1 ∧ ∀ b, ((m ≫= f) s).2 ≠ Some (Done b).
Proof.
  unfold calm, mbind, io_bind. intros Hm Hf. destruct (m s) as [s1 [[a|msg|x]|]]; [|done..].
  destruct Hm as [[Hd Hw] HQ]. destruct (Hf a s1 HQ) as [[Hd' Hw'] Hr]. split; [|exact Hr]. unfold quiet. split; congruence.
Qed.

Lemma stuck_first {A B} (m : io store A) (f : A → io store B) s :
  (quiet s (m s).1 ∧ ∀ a, (m s).2 ≠ Some (Done a)) →
  quiet s ((m ≫= f) s).1 ∧ ∀ b, ((m ≫= f) s).2 ≠ Some (Done b).
Proof.
  unfold mbind, io_bind. intros [Hq Hr]. destruct (m s) as [s1 [[a|msg|x]|]]; [by destruct (Hr a)|by split..].
Qed.

Lemma calm_bind {A B} (m : io store A) (f : A → io store B) s Q R :
  calm m s Q → (∀ a s', Q a s' → calm (f a) s' R) → calm (m ≫= f) s R.
Proof.
  unfold calm, mbind, io_bind. intros Hm Hf. destruct (m s) as [s1 [[a|msg|x]|]]; [|done..].
  destruct Hm as [[Hd Hw] HQ]. specialize (Hf a s1 HQ). unfold quiet in *.
  destruct (f a s1) as [s2 [[b|msg|x]|]]; [destruct Hf as [[? ?] ?]|destruct Hf as [? ?]..]; split_and!; congruence.
Qed.

(** Buffer [g] is locked by the process. *)
Definition mine (g : nat) (s : store) : Prop := ∃ x, bufs (cache s) !! g = Some x ∧ lk x = Some pid.

Lemma calm_read dv b s : calm (Log.bread dv b) s (λ g s', mine g s' ∧ ∀ h, mine h s → mine h s').
Proof.
  cbn. unfold calm, s_read, step_cache.
  destruct (Bio.bread (s_disk s) fuel (cache s) pid dv b) as [[[c g]|m|a]|] eqn:E; [|done..].
  apply bread_done in E as (x & y & Hx & Hlx & _ & HB & _ & _ & _ & _ & Hly & _).
  split; [done|]. unfold mine. cbn. split.
  - exists y. by rewrite HB, decide_True.
  - intros h (z & Hz & Hlz). rewrite HB. case_decide; [subst; congruence|eauto].
Qed.

Lemma calm_lift {A} (o : outcome A) s : calm (lift o) s (λ _ s', s' = s).
Proof. unfold calm, lift. by destruct o. Qed.

Lemma calm_gets {A} (h : store → A) s : calm (gets h) s (λ _ s', s' = s).
Proof. by unfold calm. Qed.

Lemma calm_fill g x s : calm (modify (gfill g x)) s (λ _ s', ∀ h, mine h s → mine h s').
Proof.
  split; [done|]. intros h (y & Hy & Hl). unfold mine. cbn. destruct (decide (g = h)) as [->|].
  - rewrite lookup_alter_eq, Hy. cbn. eauto.
  - rewrite lookup_alter_ne by done. eauto.
Qed.

Lemma calm_drop g s : calm (gdrop g) s (λ _ _, True).
Proof. unfold calm. cbn. unfold s_drop, step_cache. by destruct (brelse (cache s) pid g). Qed.

(** [write] panics whenever its caller holds the buffer. *)
Lemma stuck_write {B} g s (f : unit → io store B) :
  mine g s → quiet s ((gwrite g ≫= f) s).1 ∧ ∀ b, ((gwrite g ≫= f) s).2 ≠ Some (Done b).
Proof.
  intros (x & Hx & Hl). unfold mbind, io_bind. cbn. unfold s_write, step_cache, bwrite. rewrite Hx.
  unfold sl_holding. by rewrite Hl, bool_decide_true.
Qed.

Ltac stuck_step :=
  match goal with
  | |- context [(Log.bread _ _ ≫= _) ?s] => eapply stuck_bind; [apply calm_read|]; intros ? ? [? ?]
  | |- context [(lift _ ≫= _) ?s] => eapply stuck_bind; [apply calm_lift|]; intros ? ? ->
  | |- context [(gets _ ≫= _) ?s] => eapply stuck_bind; [apply calm_gets|]; intros ? ? ->
  | |- context [(modify (gfill _ _) ≫= _) ?s] => eapply stuck_bind; [apply calm_fill|]; intros [] ? ?
  | |- context [(gwrite _ ≫= _) ?s] => apply stuck_write; auto
  end.

Lemma stuck_write_head l : stuck (write_head l).
Proof. intros s. unfold write_head. repeat stuck_step. Qed.

Lemma stuck_install l rec tail k : stuck (install_loop l rec tail (S k)).
Proof. intros s. cbn [install_loop]. repeat stuck_step. Qed.

Lemma stuck_write_log l tail k : stuck (write_log_loop l tail (S k)).
Proof. intros s. cbn [write_log_loop]. repeat stuck_step. Qed.

Lemma stuck_recover l : stuck (recover l).
Proof.
  intros s. unfold recover. eapply (stuck_bind _ _ _ (λ _ _, True)).
  { unfold read_head. eapply calm_bind; [apply calm_read|]. intros g s1 _. eapply calm_bind; [apply calm_gets|].
    intros x s2 ->. eapply calm_bind; [apply calm_drop|]. by intros [] s3 _. }
  intros l1 s1 _. unfold install_trans. destruct (Z.to_nat (Log.n (lh l1))) as [|k].
  - eapply (stuck_bind _ _ _ (λ _ _, True)); [done|]. intros [] s2 _. cbn zeta.
    apply stuck_first, stuck_write_head.
  - apply stuck_first, stuck_install.
Qed.

Lemma stuck_commit l : 0 < Log.n (lh l) → stuck (commit l).
Proof.
  intros Hn s. unfold commit. rewrite decide_True by done. unfold write_log.
  destruct (Z.to_nat (Log.n (lh l))) as [|k] eqn:E; [lia|].
  apply stuck_first, stuck_write_log.
Qed.

(** *** At boot *)
Definition boot_store (d : Z → block) : store := mkStore Bio.init d [] d [] (λ _, 0).

Lemma init_bufs i x : bufs Bio.init !! i = Some x → (i < 30)%nat ∧ dev x = 0.
Proof.
  assert (H : map_Forall (λ i x, (i < 30)%nat ∧ dev x = 0) (bufs Bio.init)).
  { apply map_Forall_to_list. vm_compute. repeat (constructor; [split; [lia|reflexivity]|]). constructor. }
  intros Hx. exact (H i x Hx).
Qed.

Lemma boot_ready d : (∀ c, length (d c) = Log.BSIZE) → idle (boot_store d).
Proof.
  intros Hd. split; [|done]. destruct init_list as [Hs Hh _ Hn].
  assert (Hdev : ∀ i x, bare (bufs Bio.init) i = Some x → dev x ≠ ROOTDEV).
  { intros i x Hx. unfold bare in Hx. destruct (bufs Bio.init !! i) as [y|] eqn:E; [|done]. injection Hx as <-.
    apply init_bufs in E as [_ E]. cbn. by rewrite E. }
  split; cbn.
  - exists 0%nat. split; [done|]. left. exists (seq 0 NBUF). split; [done|done|done|].
    intros i [x Hx]. apply init_bufs in Hx as [Hi _]. apply elem_of_seq. unfold NBUF. lia.
  - split; try done.
    + intros i x Hx Hr. by apply Hdev in Hx.
    + intros i j x y Hx _ Hr. by apply Hdev in Hx.
    + by intros i c Hi%not_elem_of_nil.
    + apply NoDup_nil_2.
Qed.

(** ** The property *)

(** The log on [bio.rs] as it is written.  The cache that [init] makes keeps
    the invariant of the laws, for every disk.  But on no state of the cache
    does [recover] return, nor [commit] of a log with a block: each stops
    before it has written any block, because [BufGuard::write] panics when its
    caller holds the buffer, or earlier in the cache. *)
Theorem log_stops_on_bio (d : Z → block) (l : Log) :
  ((∀ c, length (d c) = Log.BSIZE) → idle (boot_store d)) ∧
  stuck (recover l) ∧ (0 < Log.n (lh l) → stuck (commit l)).
Proof. split_and!; [apply boot_ready|apply stuck_recover|apply stuck_commit]. Qed.
End instance.

(** So the initialisation of the log panics, here on a disk of zeros. *)
Theorem log_new_panics :
  (@new store (bio_cache 1 31) 2 30 1 (boot_store (λ _, zero_block))).2 = Some (Panic "bwrite").
Proof. vm_compute. reflexivity. Qed.

Lemma log_stops_on_bio_witness : @stuck Log (@commit store (bio_cache 1 31) demo_log).
Proof. apply (log_stops_on_bio 1 31 (λ _, zero_block) demo_log). reflexivity. Defined.
