(* ===== verification/Virtio.v ===== *)
(** * The virtio disk driver of [virtio_disk.rs]

    [Disk] is the structure shared with the device: the table of descriptors,
    the ring of available chains, the ring of used chains, and the driver's own
    book-keeping.  The device is not modelled: what it reads is [regs], the
    value each register returns, and what it writes (the used ring and the
    status bytes) is an arbitrary step of the environment.

    Addresses are parameters: [lay] gives the places of the fields of the
    static [DISK] that the driver hands to the device. *)

From S2P Require Import Prelude Bio.

Open Scope Z_scope.

(** ** Registers *)
Inductive VirtioMMIO :=
  | MagicValue | Version | DeviceId | VenderId | DeviceFeatures | DriverFeatures
  | QueueSel | QueueNumMax | QueueNum | QueueReady | QueueNotify
  | InterruptStatus | InterruptAck | Status
  | QueueDescLow | QueueDescHigh | DriverDescLow | DriverDescHigh
  | DeviceDescLow | DeviceDescHigh.

#[export] Instance VirtioMMIO_eq_dec : EqDecision VirtioMMIO.
Proof. solve_decision. Defined.

(** The discriminants.  [0008] is decimal in Rust. *)
Definition offset (r : VirtioMMIO) : Z :=
  match r with
  | MagicValue => 0x00
  | Version => 0x004
  | DeviceId => 0008
  | VenderId => 0x00c
  | DeviceFeatures => 0x010
  | DriverFeatures => 0x020
  | QueueSel => 0x030
  | QueueNumMax => 0x034
  | QueueNum => 0x038
  | QueueReady => 0x044
  | QueueNotify => 0x050
  | InterruptStatus => 0x060
  | InterruptAck => 0x064
  | Status => 0x070
  | QueueDescLow => 0x080
  | QueueDescHigh => 0x084
  | DriverDescLow => 0x090
  | DriverDescHigh => 0x094
  | DeviceDescLow => 0x0a0
  | DeviceDescHigh => 0x0a4
  end.

Definition VIRTIO0 : Z := 0x10001000.

(** What the driver does to the outside. *)
Inductive channel := ChanFree | ChanLocal.
Inductive event :=
  | EWrite (a v : Z)
  | EWakeup (c : channel).

Definition write_reg (r : VirtioMMIO) (v : Z) : event := EWrite (VIRTIO0 + offset r) v.

Definition ACKNOWLEDGE : Z := 1.
Definition DRIVER : Z := 2.
Definition DRIVER_OK : Z := 4.
Definition FEATURES_OK : Z := 8.

Definition BLK_F_RO : Z := Z.shiftl 1 5.
Definition BLK_F_SCSI : Z := Z.shiftl 1 7.
Definition BLK_F_CONFIG_WCE : Z := Z.shiftl 1 11.
Definition BLK_F_MQ : Z := Z.shiftl 1 12.
Definition F_ANY_LAYOUT : Z := Z.shiftl 1 27.
Definition RING_F_INDIRECT_DESC : Z := Z.shiftl 1 28.
Definition RING_F_EVENT_IDX : Z := Z.shiftl 1 29.

Definition u32_not (m : Z) : Z := Z.lxor (u32_mod - 1) m.

(** ** Structures *)
Definition NUM : nat := 8.

Definition FREED : Z := 0.
Definition NEXT : Z := 1.
Definition WRITE : Z := 2.

Record VirtqDesc := mkDesc { addr : Z; len : Z; flags : Z; next : Z }.
Definition desc_new : VirtqDesc := mkDesc 0 0 FREED 0.

Record VirtqAvail := mkAvail { a_flags : Z; a_idx : Z; a_ring : list Z; a_unused : Z }.
Definition avail_new : VirtqAvail := mkAvail 0 0 (replicate NUM 0) 0.

Record VirtqUsedElem := mkElem { id : Z; ulen : Z }.
Definition elem_new : VirtqUsedElem := mkElem 0 0.

Record VirtqUsed := mkUsed { u_flags : Z; u_idx : Z; u_ring : list VirtqUsedElem }.
Definition used_new : VirtqUsed := mkUsed 0 0 (replicate NUM elem_new).

(** A locked buffer: the place of its bytes, and the buffer of the cache. *)
Record Guard := mkGuard { data_at : Z; gdata : Data }.

Definition set_disk (x : bool) (g : Guard) : Guard :=
  let b := gdata g in
  mkGuard (data_at g) (mkData (data b) x (d_blockno b) (d_dev b) (valid b)).

Record Info := mkInfo { buf : option Guard; status : Z }.
Definition info_new : Info := mkInfo None 0.

Definition VIRTIO_BLK_T_IN : Z := 0.
Definition VIRTIO_BLK_T_OUT : Z := 1.

Record VirtioBlkReq := mkReq { type_ : Z; reserved : Z; sector : Z }.
Definition req_new : VirtioBlkReq := mkReq 0 0 0.
Definition sizeof_VirtioBlkReq : Z := 4 + 4 + 8.

Record Disk := mkDisk {
  desc : list VirtqDesc;
  avail : VirtqAvail;
  used : VirtqUsed;
  free : list bool;
  used_idx : Z;
  info : list Info;
  ops : list VirtioBlkReq;
}.

Definition new : Disk :=
  mkDisk (replicate NUM desc_new) avail_new used_new (replicate NUM false) 0
    (replicate NUM info_new) (replicate NUM req_new).

Definition set_desc (x : list VirtqDesc) (d : Disk) : Disk :=
  mkDisk x (avail d) (used d) (free d) (used_idx d) (info d) (ops d).
Definition set_avail (x : VirtqAvail) (d : Disk) : Disk :=
  mkDisk (desc d) x (used d) (free d) (used_idx d) (info d) (ops d).
Definition set_free (x : list bool) (d : Disk) : Disk :=
  mkDisk (desc d) (avail d) (used d) x (used_idx d) (info d) (ops d).
Definition set_used_idx (x : Z) (d : Disk) : Disk :=
  mkDisk (desc d) (avail d) (used d) (free d) x (info d) (ops d).
Definition set_info (x : list Info) (d : Disk) : Disk :=
  mkDisk (desc d) (avail d) (used d) (free d) (used_idx d) x (ops d).
Definition set_ops (x : list VirtioBlkReq) (d : Disk) : Disk :=
  mkDisk (desc d) (avail d) (used d) (free d) (used_idx d) (info d) x.

(** Where the fields of [DISK] are. *)
Record layout := mkLayout {
  desc_at : Z; avail_at : Z; used_at : Z;
  ops_at : nat → Z;       (* [&ops[i]] *)
  status_at : nat → Z;    (* [&info[i].status] *)
}.

(** ** [init] *)
Definition negotiate (features : Z) : Z :=
  foldl (λ f m, Z.land f (u32_not m)) features
    [BLK_F_RO; BLK_F_SCSI; BLK_F_CONFIG_WCE; BLK_F_MQ; F_ANY_LAYOUT; RING_F_EVENT_IDX;
     RING_F_INDIRECT_DESC].

Definition write_addr (low high : VirtioMMIO) (a : Z) : list event :=
  [write_reg low (as_u32 a); write_reg high (as_u32 (Z.shiftr a 32))].

Definition disk_init (regs : VirtioMMIO → Z) (l : layout) (d : Disk) : outcome (Disk * list event) :=
  if negb (regs MagicValue =? 0x74726976) || negb (regs Version =? 2)
     || negb (regs DeviceId =? 2) || negb (regs VenderId =? 0x554d4551)
  then Panic "could not find virtio disk"
  else
    let status := 0 in
    let w1 := [write_reg Status status] in
    let status := Z.lor status ACKNOWLEDGE in
    let w2 := [write_reg Status status] in
    let status := Z.lor status DRIVER in
    let w3 := [write_reg Status status] in
    let features := negotiate (regs DeviceFeatures) in
    let w4 := [write_reg DriverFeatures features] in
    let status := Z.lor status FEATURES_OK in
    let w5 := [write_reg Status status] in
    let status := regs Status in
    if Z.land status FEATURES_OK =? 0 then Panic "virtio disk FEATURES_OK unset"
    else
      let w6 := [write_reg QueueSel 0] in
      if negb (regs QueueReady =? 0) then Panic "virtio disk shoud not be ready"
      else
        let max := regs QueueNumMax in
        if max =? 0 then Panic "virtio disk has no queue 0"
        else if decide (max < Z.of_nat NUM) then Panic "virtio disk max queue too short"
        else
          let w7 := [write_reg QueueNum (Z.of_nat NUM)]
                    ++ write_addr QueueDescLow QueueDescHigh (desc_at l)
                    ++ write_addr DriverDescLow DriverDescHigh (avail_at l)
                    ++ write_addr DeviceDescLow DeviceDescHigh (used_at l)
                    ++ [write_reg QueueReady 1] in
          let d := set_free (replicate (length (free d)) true) d in
          let status := Z.lor status DRIVER_OK in
          let w8 := [write_reg Status status] in
          Done (d, w1 ++ w2 ++ w3 ++ w4 ++ w5 ++ w6 ++ w7 ++ w8).

(** ** Descriptors *)

(** The first free descriptor, from position [i] on. *)
Fixpoint first_free (i : nat) (fs : list bool) : option nat :=
  match fs with
  | [] => None
  | f :: fs => if f then Some i else first_free (S i) fs
  end.

Definition alloc_desc (d : Disk) : option nat * Disk :=
  match first_free 0 (free d) with
  | Some i => (Some i, set_free (<[i := false]> (free d)) d)
  | None => (None, d)
  end.

Definition free_desc (d : Disk) (i : nat) : outcome (Disk * list event) :=
  if decide (i < NUM)%nat then
    f ← index (free d) (Z.of_nat i);
    if (f : bool) then Panic "free_desc 2"
    else
      ds ← store (desc d) (Z.of_nat i) (mkDesc 0 0 0 0);
      fs ← store (free d) (Z.of_nat i) true;
      Done (set_free fs (set_desc ds d), [EWakeup ChanFree])
  else Panic "free_dec 1".

(** A chain that ends has at most [NUM] descriptors: the loop frees each of
    them once, and freeing one twice panics. *)
Fixpoint free_chain_loop (fuel : nat) (d : Disk) (i : nat) : outcome (Disk * list event) :=
  match fuel with
  | O => Panic "out of fuel"
  | S fuel =>
      match desc d !! i with
      | None => Panic "called `Option::unwrap()` on a `None` value"
      | Some de =>
          let flag := flags de in
          let nxt := next de in
          '(d1, e1) ← free_desc d i;
          if Z.land flag NEXT =? 0 then Done (d1, e1)
          else '(d2, e2) ← free_chain_loop fuel d1 (Z.to_nat nxt); Done (d2, e1 ++ e2)
      end
  end.

Definition free_chain (d : Disk) (i : nat) : outcome (Disk * list event) :=
  free_chain_loop (S NUM) d i.

(** [for j in 0..i { self.free_desc(j) }] *)
Fixpoint free_upto (d : Disk) (js : list nat) : outcome (Disk * list event) :=
  match js with
  | [] => Done (d, [])
  | j :: js =>
      '(d1, e1) ← free_desc d j;
      '(d2, e2) ← free_upto d1 js;
      Done (d2, e1 ++ e2)
  end.

(** [alloc3_desc]: [idx] is written in place, also when it fails. *)
Fixpoint alloc_descs (d : Disk) (idx : list nat) (ks : list nat)
    : outcome (bool * Disk * list nat * list event) :=
  match ks with
  | [] => Done (true, d, idx, [])
  | i :: ks =>
      match alloc_desc d with
      | (Some ix, d1) => alloc_descs d1 (<[i := ix]> idx) ks
      | (None, d1) =>
          '(d2, es) ← free_upto d1 (seq 0 i);
          Done (false, d2, idx, es)
      end
  end.

Definition alloc3_desc (d : Disk) (idx : list nat) : outcome (bool * Disk * list nat * list event) :=
  alloc_descs d idx [0; 1; 2]%nat.

(** ** [rw] *)
Definition try_u16 (z : Z) : outcome Z :=
  if decide (z < 65536) then Done z else Panic "called `Result::unwrap()` on an `Err` value".

(** [x += 1] on [u16]. *)
Definition incr_u16 (z : Z) : outcome Z :=
  if decide (z + 1 < 65536) then Done (z + 1) else Panic "attempt to add with overflow".

(** The request is formatted in the three descriptors [i0], [i1], [i2], the
    buffer is handed over, and the head of the chain is put in the ring. *)
Definition format (l : layout) (d : Disk) (b : Guard) (write : bool) (i0 i1 i2 : nat)
    : outcome Disk :=
  let sector := d_blockno (gdata b) * (Z.of_nat BSIZE `div` 512) in
  ops1 ← store (ops d) (Z.of_nat i0)
           (mkReq (if write then VIRTIO_BLK_T_OUT else VIRTIO_BLK_T_IN) 0 sector);
  n1 ← try_u16 (Z.of_nat i1);
  ds0 ← store (desc d) (Z.of_nat i0) (mkDesc (ops_at l i0) sizeof_VirtioBlkReq NEXT n1);
  n2 ← try_u16 (Z.of_nat i2);
  ds1 ← store ds0 (Z.of_nat i1)
          (mkDesc (data_at b) (Z.of_nat BSIZE) (Z.lor (if write then 0 else WRITE) NEXT) n2);
  ds2 ← store ds1 (Z.of_nat i2) (mkDesc (status_at l i0) 1 WRITE 0);
  info1 ← store (info d) (Z.of_nat i0) (mkInfo (Some (set_disk true b)) 0xff);
  head ← try_u16 (Z.of_nat i0);
  ring1 ← store (a_ring (avail d)) (a_idx (avail d) `mod` Z.of_nat NUM) head;
  idx1 ← incr_u16 (a_idx (avail d));
  Done (mkDisk ds2 (mkAvail (a_flags (avail d)) idx1 ring1 (a_unused (avail d)))
          (used d) (free d) (used_idx d) info1 ops1).

(** What happens under the lock of [DISK], up to the first sleep: a round of
    the allocation loop, and after a successful one the submission.  [None]
    for the head: the caller sleeps on [&free[0]]. *)
Definition rw_start (l : layout) (d : Disk) (b : Guard) (write : bool)
    : outcome (option nat * Disk * list event) :=
  '(ok, d1, idx, es) ← alloc3_desc d [0; 0; 0]%nat;
  match (ok : bool), (idx : list nat) with
  | true, [i0; i1; i2] =>
      d2 ← format l d1 b write i0 i1 i2;
      Done (Some i0, d2, es ++ [write_reg QueueNotify 0])
  | _, _ => Done (None, d1, es)
  end.

(** A round of the loop that waits for [intr], and what follows it.  [None]:
    the caller sleeps on the buffer. *)
Definition rw_finish (d : Disk) (i0 : nat) : outcome (option (option Guard * Disk * list event)) :=
  inf ← index (info d) (Z.of_nat i0);
  match buf inf with
  | Some _ => Done None
  | None =>
      '(d1, es) ← free_chain d i0;
      inf1 ← index (info d1) (Z.of_nat i0);
      infs ← store (info d1) (Z.of_nat i0) (mkInfo None (status inf1));
      Done (Some (buf inf1, set_info infs d1, es))
  end.

(** ** [intr] *)

(** A round of the loop.  The channel of [wakeup] is the address of the local
    variable [b], not of the buffer. *)
Definition intr_one (d : Disk) : outcome (Disk * list event) :=
  e ← index (u_ring (used d)) (used_idx d `mod` Z.of_nat NUM);
  inf ← index (info d) (id e);
  if negb (status inf =? 0) then Panic "disk intr status"
  else match buf inf with
       | None => Panic "called `Option::unwrap()` on a `None` value"
       | Some b =>
           infs ← store (info d) (id e) (mkInfo (Some (set_disk false b)) (status inf));
           k ← incr_u16 (used_idx d);
           Done (set_used_idx k (set_info infs d), [EWakeup ChanLocal])
       end.

Fixpoint intr_loop (fuel : nat) (d : Disk) : outcome (Disk * list event) :=
  if decide (used_idx d = u_idx (used d)) then Done (d, [])
  else match fuel with
       | O => Panic "out of fuel"
       | S fuel =>
           '(d1, e1) ← intr_one d;
           '(d2, e2) ← intr_loop fuel d1;
           Done (d2, e1 ++ e2)
       end.

(** Every round increments a [u16]. *)
Definition intr (regs : VirtioMMIO → Z) (d : Disk) : outcome (Disk * list event) :=
  let w := [write_reg InterruptAck (Z.land (regs InterruptStatus) 3)] in
  '(d1, es) ← intr_loop (Z.to_nat 65536) d;
  Done (d1, w ++ es).
#[global] Arguments intr : simpl never.
