(* ===== verification/VirtioSpec.v ===== *)
(** * Properties of the virtio disk driver

    The descriptors are owned by chains of three, one per request in flight
    ([dinv]); [request] is what a device reads from the rings, after the
    virtio specification.  The last part is a step relation for any number of
    processes in [rw], interrupts, and a device that writes what it likes. *)

From Stdlib Require Import ZifyBool.
From S2P Require Import Prelude Bio Virtio.

Open Scope Z_scope.

Abbreviation triple := (nat * nat * nat)%type.

Definition members (c : triple) : list nat := let '(i0, i1, i2) := c in [i0; i1; i2].
Definition owned (cs : list triple) : list nat := mjoin (members <$> cs).

(** The chain that starts at [i], as a device follows it. *)
Fixpoint chain (fuel : nat) (ds : list VirtqDesc) (i : nat) : option (list VirtqDesc) :=
  match fuel with
  | O => None
  | S fuel =>
      de ← ds !! i;
      if Z.land (flags de) NEXT =? 0 then Some [de]
      else (de ::.) <$> chain fuel ds (Z.to_nat (next de))
  end.

(** A block request: its header, the buffer and whether the device writes it,
    and the place of the status byte. *)
Record blk_request := mkBlk {
  rq_head : VirtioBlkReq; rq_data : Z; rq_len : Z; rq_dev_writes : bool; rq_status : Z }.

Definition request (l : layout) (d : Disk) (i : nat) : option blk_request :=
  match chain 3 (desc d) i, ops d !! i with
  | Some [d0; d1; d2], Some rq =>
      if decide (addr d0 = ops_at l i ∧ len d0 = sizeof_VirtioBlkReq ∧ Z.land (flags d0) WRITE = 0
                 ∧ len d2 = 1 ∧ Z.land (flags d2) WRITE ≠ 0)
      then Some (mkBlk rq (addr d1) (len d1) (negb (Z.land (flags d1) WRITE =? 0)) (addr d2))
      else None
  | _, _ => None
  end.

(** The links of a chain. *)
Definition linked (ds : list VirtqDesc) (c : triple) : Prop :=
  let '(i0, i1, i2) := c in
  ∃ d0 d1 d2, ds !! i0 = Some d0 ∧ ds !! i1 = Some d1 ∧ ds !! i2 = Some d2 ∧
    Z.land (flags d0) NEXT ≠ 0 ∧ next d0 = Z.of_nat i1 ∧
    Z.land (flags d1) NEXT ≠ 0 ∧ next d1 = Z.of_nat i2 ∧ Z.land (flags d2) NEXT = 0.

Record dinv (d : Disk) (cs : list triple) : Prop := {
  di_desc : length (desc d) = NUM;
  di_free : length (free d) = NUM;
  di_info : length (info d) = NUM;
  di_ops : length (ops d) = NUM;
  di_ring : length (a_ring (avail d)) = NUM;
  di_idx : 0 ≤ a_idx (avail d) < 65536;
  di_nodup : NoDup (owned cs);
  di_bound : ∀ i, i ∈ owned cs → (i < NUM)%nat;
  di_map : ∀ i, (i < NUM)%nat → free d !! i = Some (bool_decide (i ∉ owned cs));
  di_linked : ∀ c, c ∈ cs → linked (desc d) c;
}.

(** ** Counting free descriptors *)
Definition bit (b : bool) : Z := if b then 1 else 0.

Lemma bit_nonneg b : 0 ≤ bit b. Proof. by destruct b. Qed.

Lemma tally_all_true fs :
  (∀ i, (i < length fs)%nat → fs !! i = Some true) → tally bit fs = Z.of_nat (length fs).
Proof.
  induction fs as [|f fs IH]; intros H; [done|]. simpl.
  pose proof (H O ltac:(simpl; lia)) as H0. simplify_eq/=. rewrite IH; [lia|].
  intros i Hi. apply (H (S i)). simpl. lia.
Qed.

Lemma tally_free fs L :
  NoDup L → (∀ i, i ∈ L → (i < length fs)%nat) →
  (∀ i, (i < length fs)%nat → fs !! i = Some (bool_decide (i ∉ L))) →
  tally bit fs = Z.of_nat (length fs) - Z.of_nat (length L).
Proof.
  revert fs. induction L as [|x L IH]; intros fs Hnd Hb Hm.
  - simpl. rewrite Z.sub_0_r. apply tally_all_true. intros i Hi. by rewrite Hm by done.
  - apply NoDup_cons in Hnd as [Hx Hnd].
    assert (Hlx : (x < length fs)%nat) by (apply Hb; left).
    specialize (Hm x Hlx) as Hfx. rewrite bool_decide_eq_false_2 in Hfx by set_solver.
    pose proof (tally_insert bit fs x false true Hfx) as Ht. simpl in Ht.
    rewrite (IH (<[x := true]> fs)) in Ht; [rewrite length_insert in Ht; simpl; lia|done| |].
    + intros i Hi. rewrite length_insert. apply Hb. by right.
    + intros i. rewrite length_insert. intros Hi. rewrite lookup_upd by done.
      destruct (decide (i = x)) as [->|Hne].
      * by rewrite bool_decide_eq_true_2.
      * rewrite Hm by done. f_equal. apply bool_decide_ext. set_solver.
Qed.

Lemma first_free_spec k fs :
  match first_free k fs with
  | Some i => (k ≤ i)%nat ∧ fs !! (i - k)%nat = Some true ∧
              ∀ j, (j < i - k)%nat → fs !! j = Some false
  | None => tally bit fs = 0
  end.
Proof.
  revert k. induction fs as [|f fs IH]; intros k; simpl; [done|].
  destruct f; simpl.
  - rewrite Nat.sub_diag. repeat split; [done|]. intros j Hj. lia.
  - specialize (IH (S k)). destruct (first_free (S k) fs) as [i|].
    + destruct IH as (Hk & Hi & Hj). replace (i - k)%nat with (S (i - S k)) by lia.
      split; [lia|]. split; [done|]. intros [|j] Hj'; [done|]. simpl. apply Hj. lia.
    + done.
Qed.

Lemma alloc_desc_some d :
  0 < tally bit (free d) →
  ∃ i, alloc_desc d = (Some i, set_free (<[i := false]> (free d)) d) ∧
       free d !! i = Some true ∧ tally bit (<[i := false]> (free d)) = tally bit (free d) - 1.
Proof.
  intros Ht. unfold alloc_desc. pose proof (first_free_spec 0 (free d)) as Hf.
  destruct (first_free 0 (free d)) as [i|]; [|lia].
  destruct Hf as (_ & Hi & _). rewrite Nat.sub_0_r in Hi. exists i. split_and!; [done|done|].
  rewrite (tally_insert _ _ _ _ _ Hi). simpl. lia.
Qed.

Lemma alloc_desc_none d : tally bit (free d) = 0 → alloc_desc d = (None, d).
Proof.
  intros Ht. unfold alloc_desc. pose proof (first_free_spec 0 (free d)) as Hf.
  destruct (first_free 0 (free d)) as [i|]; [|done].
  destruct Hf as (_ & Hi & _).
  pose proof (tally_lookup bit (free d) _ _ bit_nonneg Hi). simpl in *. lia.
Qed.

Lemma owned_cons c cs : owned (c :: cs) = members c ++ owned cs.
Proof. done. Qed.

Lemma owned_in c cs i : c ∈ cs → i ∈ members c → i ∈ owned cs.
Proof.
  intros Hc Hi. unfold owned. apply list_elem_of_join. exists (members c).
  split; [done|]. by apply list_elem_of_fmap_2.
Qed.

Lemma owned_length cs : length (owned cs) = (3 * length cs)%nat.
Proof.
  induction cs as [|[[i0 i1] i2] cs IH]; [done|]. rewrite owned_cons, length_app, IH. simpl. lia.
Qed.

Lemma dinv_tally d cs : dinv d cs → tally bit (free d) = 8 - 3 * Z.of_nat (length cs).
Proof.
  intros Hd. rewrite (tally_free (free d) (owned cs)).
  - rewrite (di_free _ _ Hd), owned_length. unfold NUM. lia.
  - apply Hd.
  - rewrite (di_free _ _ Hd). apply Hd.
  - rewrite (di_free _ _ Hd). apply Hd.
Qed.

(** ** Allocation of three descriptors *)
Definition mark (c : triple) (fs : list bool) : list bool :=
  let '(i0, i1, i2) := c in <[i2 := false]> (<[i1 := false]> (<[i0 := false]> fs)).

Lemma alloc3_ok d a b c :
  3 ≤ tally bit (free d) →
  ∃ i0 i1 i2, alloc3_desc d [a; b; c] = Done (true, set_free (mark (i0, i1, i2) (free d)) d, [i0; i1; i2], []) ∧
    NoDup [i0; i1; i2] ∧ ∀ i, i ∈ [i0; i1; i2] → free d !! i = Some true.
Proof.
  intros Ht. unfold alloc3_desc. simpl.
  destruct (alloc_desc_some d ltac:(lia)) as (i0 & -> & Hf0 & Ht0).
  set (d1 := set_free _ d). assert (H1 : 0 < tally bit (free d1)) by (simpl; lia).
  destruct (alloc_desc_some d1 H1) as (i1 & -> & Hf1 & Ht1).
  set (d2 := set_free _ d1). assert (H2 : 0 < tally bit (free d2)) by (simpl in *; lia).
  destruct (alloc_desc_some d2 H2) as (i2 & Ha & Hf2 & Ht2). subst d1 d2.
  unfold set_free in *. simpl in *. rewrite Ha. simpl in *.
  pose proof (lookup_lt_Some _ _ _ Hf0) as Hl0.
  pose proof (lookup_lt_Some _ _ _ Hf1) as Hl1. rewrite length_insert in Hl1.
  rewrite lookup_upd in Hf1 by done. destruct (decide (i1 = i0)); [done|].
  rewrite lookup_upd in Hf2 by (rewrite length_insert; lia). destruct (decide (i2 = i1)); [done|].
  rewrite lookup_upd in Hf2 by done. destruct (decide (i2 = i0)); [done|].
  exists i0, i1, i2. split; [done|]. split.
  - repeat constructor; set_solver.
  - intros i Hi. set_solver.
Qed.

(** ** The request in the rings *)
Lemma chain_linked ds i0 i1 i2 d0 d1 d2 :
  ds !! i0 = Some d0 → ds !! i1 = Some d1 → ds !! i2 = Some d2 →
  Z.land (flags d0) NEXT ≠ 0 → next d0 = Z.of_nat i1 →
  Z.land (flags d1) NEXT ≠ 0 → next d1 = Z.of_nat i2 → Z.land (flags d2) NEXT = 0 →
  chain 3 ds i0 = Some [d0; d1; d2].
Proof.
  intros H0 H1 H2 F0 N0 F1 N1 F2. simpl.
  rewrite H0. simpl. rewrite (proj2 (Z.eqb_neq _ _) F0), N0, Nat2Z.id, H1. simpl.
  rewrite (proj2 (Z.eqb_neq _ _) F1), N1, Nat2Z.id, H2. simpl.
  by rewrite F2.
Qed.

Definition head_of (c : triple) : nat := c.1.1.

Lemma request_frame l d d' c :
  linked (desc d) c → (∀ i, i ∈ members c → desc d' !! i = desc d !! i) →
  ops d' !! head_of c = ops d !! head_of c →
  request l d' (head_of c) = request l d (head_of c).
Proof.
  destruct c as [[i0 i1] i2]. unfold head_of, linked. simpl.
  intros (d0 & d1 & d2 & H0 & H1 & H2 & F0 & N0 & F1 & N1 & F2) Hds Hops.
  unfold request. rewrite Hops.
  rewrite (chain_linked (desc d) i0 i1 i2 d0 d1 d2) by done.
  by rewrite (chain_linked (desc d') i0 i1 i2 d0 d1 d2) by (rewrite ?Hds by set_solver; done).
Qed.

Lemma linked_frame ds ds' c :
  linked ds c → (∀ i, i ∈ members c → ds' !! i = ds !! i) → linked ds' c.
Proof.
  destruct c as [[i0 i1] i2]. intros (d0 & d1 & d2 & H) Hf. exists d0, d1, d2. simpl in Hf.
  rewrite !Hf by set_solver. done.
Qed.

Definition header (b : Guard) (write : bool) : VirtioBlkReq :=
  mkReq (if write then VIRTIO_BLK_T_OUT else VIRTIO_BLK_T_IN) 0 (2 * d_blockno (gdata b)).

(** What [format] leaves behind. *)
Definition req_descs (l : layout) (b : Guard) (write : bool) (c : triple) (ds : list VirtqDesc)
    : list VirtqDesc :=
  let '(i0, i1, i2) := c in
  <[i2 := mkDesc (status_at l i0) 1 WRITE 0]>
    (<[i1 := mkDesc (data_at b) 1024 (Z.lor (if write then 0 else WRITE) NEXT) (Z.of_nat i2)]>
      (<[i0 := mkDesc (ops_at l i0) 16 NEXT (Z.of_nat i1)]> ds)).

Lemma format_ok l d b write i0 i1 i2 :
  length (desc d) = NUM → length (info d) = NUM → length (ops d) = NUM →
  length (a_ring (avail d)) = NUM → 0 ≤ a_idx (avail d) → a_idx (avail d) + 1 < 65536 →
  (i0 < NUM)%nat → (i1 < NUM)%nat → (i2 < NUM)%nat →
  format l d b write i0 i1 i2 =
    Done (mkDisk (req_descs l b write (i0, i1, i2) (desc d))
      (mkAvail (a_flags (avail d)) (a_idx (avail d) + 1)
        (<[Z.to_nat (a_idx (avail d) `mod` 8) := Z.of_nat i0]> (a_ring (avail d)))
        (a_unused (avail d)))
      (used d) (free d) (used_idx d)
      (<[i0 := mkInfo (Some (set_disk true b)) 255]> (info d))
      (<[i0 := header b write]> (ops d))).
Proof.
  intros Hds Hinf Hops Hring Hp Hidx H0 H1 H2. unfold NUM in *. unfold format, try_u16, incr_u16.
  pose proof (Z.mod_pos_bound (a_idx (avail d)) 8 ltac:(lia)).
  change (Z.of_nat NUM) with 8.
  repeat ((rewrite store_ok by (rewrite ?length_insert; lia)) || (rewrite decide_True by lia);
          simpl); rewrite !Nat2Z.id.
  unfold header. by rewrite (Z.mul_comm 2).
Qed.

Lemma mark_lookup c fs i :
  (∀ j, j ∈ members c → (j < length fs)%nat) →
  mark c fs !! i = if decide (i ∈ members c) then Some false else fs !! i.
Proof.
  destruct c as [[i0 i1] i2]. intros Hc. simpl in *.
  rewrite !lookup_upd by (rewrite ?length_insert; apply Hc; set_solver).
  repeat case_decide; set_solver.
Qed.

Lemma dinv_submit d cs c ds inf op av ui :
  dinv d cs → NoDup (members c) → (∀ i, i ∈ members c → free d !! i = Some true) →
  length ds = NUM → length inf = NUM → length op = NUM → length (a_ring av) = NUM →
  0 ≤ a_idx av < 65536 → linked ds c →
  (∀ i, i ∉ members c → ds !! i = desc d !! i) →
  dinv (mkDisk ds av (used d) (mark c (free d)) ui inf op) (c :: cs).
Proof.
  intros Hd Hnd Hfree L1 L2 L3 L4 L5 Hlk Hfr.
  assert (Hlt : ∀ i, i ∈ members c → (i < NUM)%nat).
  { intros i Hi. rewrite <- (di_free _ _ Hd). eapply lookup_lt_Some. by apply Hfree. }
  assert (Hdisj : ∀ i, i ∈ members c → i ∉ owned cs).
  { intros i Hi. pose proof (di_map _ _ Hd i (Hlt i Hi)) as Hm. rewrite (Hfree i Hi) in Hm.
    injection Hm as Hm. symmetry in Hm. by apply bool_decide_eq_true in Hm. }
  split; simpl; try done; rewrite ?owned_cons.
  - destruct c as [[??]?]. simpl. rewrite !length_insert. apply Hd.
  - apply NoDup_app. split_and!; [done|done|apply Hd].
  - intros i Hi. apply elem_of_app in Hi as [Hi|Hi]; [by apply Hlt|by eapply di_bound].
  - intros i Hi. rewrite mark_lookup by (rewrite (di_free _ _ Hd); done).
    destruct (decide (i ∈ members c)) as [Hc|Hc].
    + rewrite bool_decide_eq_false_2; [done|]. set_solver.
    + rewrite (di_map _ _ Hd) by done. f_equal. apply bool_decide_ext. set_solver.
  - intros c' Hc'. apply elem_of_cons in Hc' as [->|Hc']; [done|].
    eapply linked_frame; [by apply (di_linked _ _ Hd)|]. intros i Hi. apply Hfr.
    intros Hi'. apply (Hdisj i Hi'). by eapply owned_in.
Qed.

Lemma length_req_descs l b write c ds : length (req_descs l b write c ds) = length ds.
Proof. destruct c as [[??]?]. simpl. by rewrite !length_insert. Qed.

Lemma req_descs_frame l b write c ds i : i ∉ members c → req_descs l b write c ds !! i = ds !! i.
Proof.
  destruct c as [[i0 i1] i2]. intros Hi. simpl in *.
  rewrite !list_lookup_insert_ne by (intros ->; apply Hi; set_solver). done.
Qed.

Lemma req_descs_lookup l b write i0 i1 i2 ds :
  NoDup [i0; i1; i2] → (∀ i, i ∈ [i0; i1; i2] → (i < length ds)%nat) →
  let ds' := req_descs l b write (i0, i1, i2) ds in
  ds' !! i0 = Some (mkDesc (ops_at l i0) 16 NEXT (Z.of_nat i1)) ∧
  ds' !! i1 = Some (mkDesc (data_at b) 1024 (Z.lor (if write then 0 else WRITE) NEXT) (Z.of_nat i2)) ∧
  ds' !! i2 = Some (mkDesc (status_at l i0) 1 WRITE 0).
Proof.
  intros Hnd Hlt. apply NoDup_cons in Hnd as [Hx Hnd]. apply NoDup_cons in Hnd as [Hy _].
  pose proof (Hlt i0 ltac:(set_solver)). pose proof (Hlt i1 ltac:(set_solver)).
  pose proof (Hlt i2 ltac:(set_solver)). simpl.
  rewrite !lookup_upd by (rewrite ?length_insert; done).
  split_and!; repeat case_decide; set_solver.
Qed.

Lemma req_descs_linked l b write c ds :
  NoDup (members c) → (∀ i, i ∈ members c → (i < length ds)%nat) →
  linked (req_descs l b write c ds) c.
Proof.
  destruct c as [[i0 i1] i2]. intros Hnd Hlt.
  destruct (req_descs_lookup l b write i0 i1 i2 ds Hnd Hlt) as (E0 & E1 & E2).
  eexists _, _, _. split_and!; [exact E0|exact E1|exact E2|done..| |done|done]. by destruct write.
Qed.

(** The device reads the request back. *)
Lemma request_formatted l b write c ds d :
  NoDup (members c) → (∀ i, i ∈ members c → (i < length ds)%nat) →
  desc d = req_descs l b write c ds → ops d !! head_of c = Some (header b write) →
  request l d (head_of c) =
    Some (mkBlk (header b write) (data_at b) 1024 (negb write) (status_at l (head_of c))).
Proof.
  destruct c as [[i0 i1] i2]. intros Hnd Hlt Hds Hop.
  destruct (req_descs_lookup l b write i0 i1 i2 ds Hnd Hlt) as (E0 & E1 & E2).
  unfold request, head_of in *. simpl fst in *. rewrite Hds, Hop.
  rewrite (chain_linked _ _ _ _ _ _ _ E0 E1 E2) by (done || by destruct write).
  simpl. rewrite decide_True by done. by destruct write.
Qed.

(** A request is submitted: with at most one request in flight, [rw] takes
    three free descriptors, and what a device reads through the new entry of
    the available ring is the request: header with type and first sector of the
    block, the buffer of 1024 bytes, written by the device exactly for a read,
    and the status byte of this request, preset to 255.  The request in flight
    reads as before, and every descriptor is still owned once. *)
Theorem virtio_submit l d cs b write :
  dinv d cs → (length cs ≤ 1)%nat → a_idx (avail d) + 1 < 65536 →
  ∃ c d', rw_start l d b write = Done (Some (head_of c), d', [write_reg QueueNotify 0]) ∧
    dinv d' (c :: cs) ∧
    request l d' (head_of c) =
      Some (mkBlk (header b write) (data_at b) 1024 (negb write) (status_at l (head_of c))) ∧
    (∀ c', c' ∈ cs → request l d' (head_of c') = request l d (head_of c')) ∧
    a_ring (avail d') !! Z.to_nat (a_idx (avail d) `mod` 8) = Some (Z.of_nat (head_of c)) ∧
    a_idx (avail d') = a_idx (avail d) + 1 ∧
    info d' !! head_of c = Some (mkInfo (Some (set_disk true b)) 255).
Proof.
  intros Hd Hcs Hidx. pose proof (dinv_tally _ _ Hd) as Ht.
  destruct (alloc3_ok d 0 0 0 ltac:(lia)) as (i0 & i1 & i2 & Ha & Hnd & Hf).
  assert (Hlt : ∀ i, i ∈ members (i0, i1, i2) → (i < NUM)%nat).
  { intros i Hi. rewrite <- (di_free _ _ Hd). eapply lookup_lt_Some. by apply Hf. }
  pose proof (Hlt i0 ltac:(set_solver)) as H0. pose proof (Hlt i1 ltac:(set_solver)) as H1.
  pose proof (Hlt i2 ltac:(set_solver)) as H2.
  pose proof Hd as [L1 L2 L3 L4 L5 [L6 L7] L8 L9 L10 L11].
  pose proof (Z.mod_pos_bound (a_idx (avail d)) 8 ltac:(lia)).
  exists (i0, i1, i2). unfold rw_start. rewrite Ha. simpl mbind. unfold outcome_bind.
  rewrite format_ok by (try done; simpl; lia).
  eexists. split; [done|]. change (set_free _ d) with (set_free (mark (i0, i1, i2) (free d)) d).
  set (c := (i0, i1, i2)) in *.
  assert (Hnew : dinv (mkDisk (req_descs l b write c (desc d)) (mkAvail (a_flags (avail d)) (a_idx (avail d) + 1)
     (<[Z.to_nat (a_idx (avail d) `mod` 8):=Z.of_nat i0]> (a_ring (avail d))) (a_unused (avail d)))
     (used d) (mark c (free d)) (used_idx d)
     (<[i0:=mkInfo (Some (set_disk true b)) 255]> (info d)) (<[i0:=header b write]> (ops d))) (c :: cs)).
  { apply dinv_submit; cbn [avail a_ring a_idx]; rewrite ?length_insert, ?length_req_descs; try done; try lia.
    - apply req_descs_linked; [done|]. by rewrite L1.
    - intros i Hi. by apply req_descs_frame. }
  split; [exact Hnew|].
  split_and!; try done; cbn [desc ops info avail a_ring a_idx].
  - apply (request_formatted _ _ _ c (desc d)); [done|by rewrite L1|done|].
    apply (list_lookup_insert_eq (ops d)). by rewrite L4.
  - intros c' Hc'. pose proof (di_nodup _ _ Hnew) as Hnd'. rewrite owned_cons in Hnd'.
    apply NoDup_app in Hnd' as (_ & Hdj & _).
    assert (Hdj' : ∀ i, i ∈ members c' → i ∉ members c)
      by (intros i Hi Hi'; apply (Hdj i Hi'); by eapply owned_in).
    apply request_frame; [by apply L11|..]; cbn [desc ops].
    + intros i Hi. apply req_descs_frame. by apply Hdj'.
    + rewrite list_lookup_insert_ne; [done|]. intros ->. apply (Hdj' (head_of c')); [|set_solver].
      destruct c' as [[??]?]. set_solver.
  - apply (list_lookup_insert_eq (a_ring (avail d))). rewrite L5. unfold NUM. simpl. lia.
  - apply (list_lookup_insert_eq (info d)). by rewrite L3.
Qed.

(** ** The end of a request *)
Lemma dinv_perm d cs cs' : cs ≡ₚ cs' → dinv d cs → dinv d cs'.
Proof.
  intros Hp [L1 L2 L3 L4 L5 L6 L7 L8 L9 L10].
  assert (Ho : owned cs ≡ₚ owned cs') by (unfold owned; by rewrite Hp).
  split; try done.
  - by rewrite <- Ho.
  - intros i. rewrite <- Ho. apply L8.
  - intros i Hi. rewrite L9 by done. f_equal. apply bool_decide_ext. by rewrite Ho.
  - intros c. rewrite <- Hp. apply L10.
Qed.

Lemma free_desc_ok d i :
  length (desc d) = NUM → length (free d) = NUM → (i < NUM)%nat → free d !! i = Some false →
  free_desc d i =
    Done (set_free (<[i := true]> (free d)) (set_desc (<[i := desc_new]> (desc d)) d), [EWakeup ChanFree]).
Proof.
  intros L1 L2 Hi Hf. unfold free_desc. rewrite decide_True by done.
  rewrite (index_ok _ _ false) by (rewrite ?Nat2Z.id; done || lia). simpl.
  unfold NUM in *. rewrite !store_ok by lia. simpl. rewrite !Nat2Z.id. done.
Qed.

(** The loop on the three descriptors of a chain. *)
Lemma free_chain_ok d c :
  length (desc d) = NUM → length (free d) = NUM → NoDup (members c) →
  (∀ i, i ∈ members c → (i < NUM)%nat ∧ free d !! i = Some false) → linked (desc d) c →
  ∃ d', free_chain d (head_of c) = Done (d', replicate 3 (EWakeup ChanFree)) ∧
    d' = set_free (free d') (set_desc (desc d') d) ∧
    length (desc d') = NUM ∧ length (free d') = NUM ∧
    (∀ i, desc d' !! i = if decide (i ∈ members c) then Some desc_new else desc d !! i) ∧
    (∀ i, free d' !! i = if decide (i ∈ members c) then Some true else free d !! i).
Proof.
  destruct c as [[i0 i1] i2]. intros L1 L2 Hnd Hc (d0 & d1 & d2 & E0 & E1 & E2 & F0 & N0 & F1 & N1 & F2).
  unfold head_of. simpl in Hc |- *.
  destruct (Hc i0 ltac:(set_solver)) as [I0 B0]. destruct (Hc i1 ltac:(set_solver)) as [I1 B1].
  destruct (Hc i2 ltac:(set_solver)) as [I2 B2].
  apply NoDup_cons in Hnd as [Hx Hnd]. apply NoDup_cons in Hnd as [Hy _].
  assert (i0 ≠ i1 ∧ i0 ≠ i2 ∧ i1 ≠ i2) as (N01 & N02 & N12) by set_solver.
  unfold free_chain. cbn [free_chain_loop].
  rewrite E0. rewrite (free_desc_ok d i0) by done. simpl.
  rewrite (proj2 (Z.eqb_neq _ _) F0), N0, Nat2Z.id.
  rewrite list_lookup_insert_ne, E1 by done.
  rewrite free_desc_ok by (simpl; rewrite ?length_insert, ?list_lookup_insert_ne; done). simpl.
  rewrite (proj2 (Z.eqb_neq _ _) F1), N1, Nat2Z.id.
  rewrite !list_lookup_insert_ne, E2 by done.
  rewrite free_desc_ok by (simpl; rewrite ?length_insert, ?list_lookup_insert_ne; done). simpl.
  rewrite F2. simpl. eexists. split; [done|]. simpl. rewrite !length_insert.
  split_and!; try done; intros i; rewrite !lookup_upd by (rewrite ?length_insert; congruence).
  all: repeat case_decide; set_solver.
Qed.

(** C28. [free_chain] undoes the allocation: called with the head of a request
    in flight, it frees the three descriptors of this request and no other,
    clears them, and keeps the other requests as the device reads them. *)
Theorem virtio_free_chain l d c cs :
  dinv d (c :: cs) →
  ∃ d' es, free_chain d (head_of c) = Done (d', es) ∧ dinv d' cs ∧
    (∀ i, free d' !! i = if decide (i ∈ members c) then Some true else free d !! i) ∧
    (∀ i, i ∈ members c → desc d' !! i = Some desc_new) ∧
    (∀ c', c' ∈ cs → request l d' (head_of c') = request l d (head_of c')).
Proof.
  intros Hd. pose proof Hd as [L1 L2 L3 L4 L5 L6 L7 L8 L9 L10].
  rewrite owned_cons in L7. apply NoDup_app in L7 as (Hnc & Hdj & Hncs).
  assert (Hin : ∀ i, i ∈ members c → i ∈ owned (c :: cs)) by (intros i Hi; eapply owned_in; [left|done]).
  destruct (free_chain_ok d c) as (d' & Hf & Hd' & M1 & M2 & Hds & Hfs); try done.
  { intros i Hi. split; [by apply L8, Hin|]. rewrite L9 by (by apply L8, Hin).
    f_equal. apply bool_decide_eq_false_2. set_solver. }
  { apply L10. left. }
  assert (Hfr : ∀ c', c' ∈ cs → ∀ i, i ∈ members c' → desc d' !! i = desc d !! i).
  { intros c' Hc' i Hi. rewrite Hds. rewrite decide_False; [done|]. intros Hi'.
    apply (Hdj i Hi'). by eapply owned_in. }
  exists d', (replicate 3 (EWakeup ChanFree)). split; [done|]. split_and!.
  - split; try done; try (rewrite Hd'; done).
    + intros i Hi. apply L8. rewrite owned_cons. set_solver.
    + intros i Hi. rewrite Hfs, L9 by done. rewrite owned_cons.
      case_decide; [rewrite bool_decide_eq_true_2 by set_solver; done|].
      f_equal. apply bool_decide_ext. set_solver.
    + intros c' Hc'. eapply linked_frame; [apply L10; by right|]. by apply Hfr.
  - done.
  - intros i Hi. rewrite Hds. by rewrite decide_True.
  - intros c' Hc'. apply request_frame; [apply L10; by right|by apply Hfr|]. by rewrite Hd'.
Qed.

(** ** A third request *)
Lemma free_01 d :
  length (desc d) = NUM → length (free d) = NUM → free d !! 0%nat = Some false → free d !! 1%nat = Some false →
  free_upto d [0; 1]%nat =
    Done (set_free (<[1%nat := true]> (<[0%nat := true]> (free d)))
            (set_desc (<[1%nat := desc_new]> (<[0%nat := desc_new]> (desc d))) d),
          [EWakeup ChanFree; EWakeup ChanFree]).
Proof.
  intros L1 L2 F0 F1. cbn [free_upto]. rewrite free_desc_ok by (unfold NUM in *; done || lia). simpl.
  rewrite free_desc_ok; [done|..]; simpl; rewrite ?length_insert; try done.
  - unfold NUM. lia.
  - by rewrite list_lookup_insert_ne.
Qed.

Lemma tally_zero_lookup fs i : tally bit fs = 0 → (i < length fs)%nat → fs !! i = Some false.
Proof.
  intros Ht Hi. destruct (lookup_lt_is_Some_2 fs i Hi) as [[] Hb]; [|done].
  pose proof (tally_lookup bit fs i true bit_nonneg Hb). simpl in *. lia.
Qed.

(** With two descriptors left, they are taken, and descriptors 0 and 1 are
    freed in their place. *)
Lemma alloc3_fails d idx :
  length (desc d) = NUM → length (free d) = NUM → tally bit (free d) = 2 →
  ∃ d' idx', alloc3_desc d idx = Done (false, d', idx', [EWakeup ChanFree; EWakeup ChanFree]) ∧
    ∀ i, (i < NUM)%nat → free d' !! i = Some (bool_decide (i < 2)%nat).
Proof.
  intros L1 L2 Ht. unfold alloc3_desc. cbn [alloc_descs].
  destruct (alloc_desc_some d ltac:(lia)) as (i0 & -> & Hf0 & Ht0).
  set (d1 := set_free _ d). assert (H1 : 0 < tally bit (free d1)) by (simpl; lia).
  destruct (alloc_desc_some d1 H1) as (i1 & -> & Hf1 & Ht1).
  set (d2 := set_free _ d1). assert (H2 : tally bit (free d2) = 0) by (simpl in *; lia).
  rewrite (alloc_desc_none d2 H2).
  assert (L2' : length (free d2) = NUM) by (simpl; by rewrite !length_insert).
  assert (Hall : ∀ i, (i < NUM)%nat → free d2 !! i = Some false)
    by (intros i Hi; apply tally_zero_lookup; [done|by rewrite L2']).
  change (seq 0 2) with [0; 1]%nat. rewrite (free_01 d2) by (try done; apply Hall; unfold NUM; lia).
  eexists _, _. split; [done|]. intros i Hi. unfold NUM in *. cbn [set_free free].
  rewrite !lookup_upd by (rewrite ?length_insert, L2'; lia).
  destruct (decide (i = 1%nat)) as [->|]; [done|]. destruct (decide (i = 0%nat)) as [->|]; [done|].
  rewrite Hall by done. f_equal. symmetry. apply bool_decide_eq_false_2. lia.
Qed.

(** A third request breaks the book-keeping: with two requests in flight
    it finds two descriptors, and gives back descriptors 0 and 1 instead of
    them.  When one of these belongs to a request in flight, it is free while
    the device still owns it, and the invariant is lost. *)
Theorem virtio_third_request l d cs b write :
  dinv d cs → length cs = 2%nat →
  ∃ d' es, rw_start l d b write = Done (None, d', es) ∧
    (∀ i, (i < NUM)%nat → free d' !! i = Some (bool_decide (i < 2)%nat)) ∧
    (0%nat ∈ owned cs ∨ 1%nat ∈ owned cs → ¬ dinv d' cs).
Proof.
  intros Hd Hcs. pose proof (dinv_tally _ _ Hd) as Ht. rewrite Hcs in Ht.
  destruct (alloc3_fails d [0; 0; 0]%nat) as (d' & idx & Ha & Hf); [apply Hd..|done|].
  exists d', [EWakeup ChanFree; EWakeup ChanFree]. unfold rw_start. rewrite Ha.
  split; [done|]. split; [done|].
  intros Ho Hd'. unfold NUM in *.
  destruct Ho as [Ho|Ho]; pose proof (di_map _ _ Hd' _ (di_bound _ _ Hd _ Ho)) as Hm;
    rewrite Hf in Hm by (unfold NUM; lia); rewrite (bool_decide_eq_false_2 (_ ∉ _)) in Hm by tauto; done.
Qed.

(** The index of the available ring is never reduced, and [u16] is full after
    65535 requests. *)
Theorem virtio_index_overflow l d cs b write :
  dinv d cs → (length cs ≤ 1)%nat → a_idx (avail d) = 65535 →
  rw_start l d b write = Panic "attempt to add with overflow".
Proof.
  intros Hd Hcs Hidx. pose proof (dinv_tally _ _ Hd) as Ht.
  destruct (alloc3_ok d 0 0 0 ltac:(lia)) as (i0 & i1 & i2 & Ha & Hnd & Hf).
  assert (Hlt : ∀ i, i ∈ [i0; i1; i2] → (i < 8)%nat).
  { intros i Hi. change 8%nat with NUM. rewrite <- (di_free _ _ Hd). eapply lookup_lt_Some. by apply Hf. }
  pose proof (Hlt i0 ltac:(set_solver)). pose proof (Hlt i1 ltac:(set_solver)).
  pose proof (Hlt i2 ltac:(set_solver)).
  pose proof Hd as [L1 L2 L3 L4 L5 L6 L7 L8 L9 L10]. unfold NUM in *.
  unfold rw_start. rewrite Ha. simpl. unfold format, try_u16, incr_u16. simpl. rewrite Hidx.
  change (65535 `mod` Z.of_nat NUM) with 7.
  repeat ((rewrite store_ok by (rewrite ?length_insert; lia)) || (rewrite decide_True by lia); simpl).
  done.
Qed.

(** ** Completions *)
Definition finish_info (i : Info) : Info := mkInfo (set_disk false <$> buf i) (status i).

#[export] Instance elem_inhabited : Inhabited VirtqUsedElem := populate elem_new.

(** The chains the device has returned since the last interrupt. *)
Definition returned (d : Disk) (n : nat) : list Z :=
  (λ k, id (u_ring (used d) !!! Z.to_nat ((used_idx d + Z.of_nat k) `mod` 8))) <$> seq 0 n.

Definition completed (d : Disk) (i : Z) : Prop :=
  ∃ inf b, 0 ≤ i ∧ info d !! Z.to_nat i = Some inf ∧ buf inf = Some b ∧ status inf = 0.

Lemma returned_S d n :
  returned d (S n) =
    id (u_ring (used d) !!! Z.to_nat (used_idx d `mod` 8)) ::
    returned (set_used_idx (used_idx d + 1) d) n.
Proof.
  unfold returned. simpl. rewrite Z.add_0_r. f_equal.
  rewrite <- (fmap_S_seq 0 n), <- list_fmap_compose. apply list_fmap_ext. intros i x _. simpl.
  by replace (used_idx d + Z.of_nat (S x)) with (used_idx d + 1 + Z.of_nat x) by lia.
Qed.

Lemma intr_one_ok d :
  length (u_ring (used d)) = NUM → 0 ≤ used_idx d → used_idx d + 1 < 65536 →
  let i := id (u_ring (used d) !!! Z.to_nat (used_idx d `mod` 8)) in
  completed d i →
  intr_one d = Done (set_used_idx (used_idx d + 1) (set_info (alter finish_info (Z.to_nat i) (info d)) d),
                     [EWakeup ChanLocal]).
Proof.
  intros L1 Hu Hlt i (inf & b & Hi & Hinf & Hb & Hs). unfold intr_one.
  pose proof (Z.mod_pos_bound (used_idx d) 8 ltac:(lia)) as Hm.
  change (Z.of_nat NUM) with 8. unfold NUM in *.
  assert (He : u_ring (used d) !! Z.to_nat (used_idx d `mod` 8)
               = Some (u_ring (used d) !!! Z.to_nat (used_idx d `mod` 8)))
    by (apply list_lookup_lookup_total_lt; lia).
  rewrite (index_ok _ _ _ (proj1 Hm) He). simpl. fold i.
  rewrite (index_ok _ _ _ Hi Hinf). simpl. rewrite Hs, Hb. simpl.
  pose proof (lookup_lt_Some _ _ _ Hinf).
  rewrite store_ok by lia. simpl. unfold incr_u16. rewrite decide_True by lia. simpl.
  do 3 f_equal. unfold set_info. simpl. f_equal. symmetry.
  apply list_eq. intros k. destruct (decide (k = Z.to_nat i)) as [->|Hk].
  - rewrite list_lookup_alter_eq, list_lookup_insert_eq, Hinf by done. simpl.
    unfold finish_info. by rewrite Hb, Hs.
  - by rewrite list_lookup_alter_ne, list_lookup_insert_ne by done.
Qed.

Lemma finish_info_idemp i : finish_info (finish_info i) = finish_info i.
Proof. unfold finish_info, set_disk. destruct i as [[b|] s]; done. Qed.

Lemma completed_finish d d' i j :
  info d' = alter finish_info (Z.to_nat i) (info d) → completed d j → completed d' j.
Proof.
  intros Hi (inf & b & Hj & Hinf & Hb & Hs). unfold completed. rewrite Hi.
  destruct (decide (Z.to_nat j = Z.to_nat i)) as [He|Hne].
  - exists (finish_info inf), (set_disk false b). rewrite He, list_lookup_alter_eq, <- He, Hinf.
    simpl. by rewrite Hb.
  - rewrite list_lookup_alter_ne by done. by exists inf, b.
Qed.

Lemma intr_loop_ok n : ∀ fuel d,
  (n ≤ fuel)%nat → length (u_ring (used d)) = NUM → 0 ≤ used_idx d →
  u_idx (used d) = used_idx d + Z.of_nat n → u_idx (used d) < 65536 →
  Forall (completed d) (returned d n) →
  ∃ inf, intr_loop fuel d = Done (set_used_idx (u_idx (used d)) (set_info inf d), replicate n (EWakeup ChanLocal)) ∧
    ∀ k, inf !! k = if decide (Z.of_nat k ∈ returned d n) then finish_info <$> info d !! k else info d !! k.
Proof.
  induction n as [|n IH]; intros fuel d Hf L1 Hu Hn Hlt Hall.
  - exists (info d). assert (Hz : used_idx d = u_idx (used d)) by lia. split.
    + destruct fuel; simpl; rewrite decide_True by done; rewrite <- Hz; by destruct d.
    + intros k. by rewrite decide_False by set_solver.
  - destruct fuel as [|fuel]; [lia|]. cbn [intr_loop]. rewrite decide_False by lia.
    rewrite returned_S in Hall |- *. apply Forall_cons in Hall as [Hi Hall].
    rewrite intr_one_ok by (done || lia). simpl.
    set (i := id _) in *. set (d1 := set_used_idx _ _).
    destruct (IH fuel d1) as (inf & Hl & Hk); try done; try (simpl; lia).
    { eapply Forall_impl; [exact Hall|]. intros j Hj. eapply completed_finish; [|exact Hj]. done. }
    exists inf. rewrite Hl. simpl. split; [done|].
    change (returned d1 n) with (returned (set_used_idx (used_idx d + 1) d) n) in Hk.
    intros k. rewrite Hk. simpl. destruct Hi as (x & b & Hi0 & _).
    destruct (decide (k = Z.to_nat i)) as [->|Hne].
    + rewrite list_lookup_alter_eq, Z2Nat.id by done. rewrite (decide_True (P := i ∈ _ :: _)) by set_solver.
      case_decide; [|done]. destruct (info d !! Z.to_nat i); [|done]. simpl. by rewrite finish_info_idemp.
    + rewrite list_lookup_alter_ne by done.
      destruct (decide (Z.of_nat k ∈ returned _ n)) as [Hr|Hr].
      * by rewrite (decide_True (P := _ ∈ _ :: _)) by set_solver.
      * rewrite decide_False; [done|]. intros [?|?]%elem_of_cons; [lia|done].
Qed.

(** The interrupt handler ends and takes every completion: it acknowledges
    the interrupt, marks exactly the buffers of the chains that the device has
    put into the used ring since the last interrupt as no longer owned by the
    disk, and has then looked as far as the device has written. *)
Theorem virtio_intr regs d n :
  length (u_ring (used d)) = NUM → 0 ≤ used_idx d →
  u_idx (used d) = used_idx d + Z.of_nat n → u_idx (used d) < 65536 →
  Forall (completed d) (returned d n) →
  ∃ inf, intr regs d = Done (set_used_idx (u_idx (used d)) (set_info inf d),
      write_reg InterruptAck (Z.land (regs InterruptStatus) 3) :: replicate n (EWakeup ChanLocal)) ∧
    ∀ k, inf !! k = if decide (Z.of_nat k ∈ returned d n) then finish_info <$> info d !! k else info d !! k.
Proof.
  intros L1 Hu Hn Hlt Hall.
  destruct (intr_loop_ok n (Z.to_nat 65536) d) as (inf & Hl & Hk); try done; [lia|].
  exists inf. unfold intr. rewrite Hl. done.
Qed.

(** ** Processes in [rw]

    [rw] gives up the lock of [DISK] only when it sleeps.  [Start] is a process
    before its first or after a failed round of allocation, [Wait i] one that
    waits for the request with head [i], [Return] one that has its buffer
    back.  A sleeping process may be woken at any time.  The device writes the
    used ring and the status bytes as it likes. *)
Inductive pc :=
  | Start (b : Guard) (write : bool)
  | Wait (i : nat)
  | Return (b : option Guard).

Record sys := mkSys { dk : Disk; procs : list pc }.

Definition device_writes (u : VirtqUsed) (i : nat) (s : Z) (d : Disk) : Disk :=
  mkDisk (desc d) (avail d) u (free d) (used_idx d)
    (alter (λ x, mkInfo (buf x) s) i (info d)) (ops d).

Inductive step (l : layout) (regs : VirtioMMIO → Z) : sys → sys → Prop :=
  | s_submit s t b w i d es :
      procs s !! t = Some (Start b w) → rw_start l (dk s) b w = Done (Some i, d, es) →
      step l regs s (mkSys d (<[t := Wait i]> (procs s)))
  | s_retry s t b w d es :
      procs s !! t = Some (Start b w) → rw_start l (dk s) b w = Done (None, d, es) →
      step l regs s (mkSys d (procs s))
  | s_wait s t i :
      procs s !! t = Some (Wait i) → rw_finish (dk s) i = Done None → step l regs s s
  | s_finish s t i b d es :
      procs s !! t = Some (Wait i) → rw_finish (dk s) i = Done (Some (b, d, es)) →
      step l regs s (mkSys d (<[t := Return b]> (procs s)))
  | s_again s t b b' w :
      procs s !! t = Some (Return b) → step l regs s (mkSys (dk s) (<[t := Start b' w]> (procs s)))
  | s_intr s d es : intr regs (dk s) = Done (d, es) → step l regs s (mkSys d (procs s))
  | s_device s u i st : step l regs s (mkSys (device_writes u i st (dk s)) (procs s)).

(** [inv_run]: [inv_run] also through results that are tuples. *)
Ltac inv_run :=
  repeat first [progress inv_done | progress simplify_eq/=].

(** A buffer handed to the driver. *)
Definition held (d : Disk) (i : nat) : Prop := ∃ inf b, info d !! i = Some inf ∧ buf inf = Some b.

Lemma store_inv {A} (xs : list A) i x ys :
  store xs i x = Done ys → 0 ≤ i < Z.of_nat (length xs) ∧ ys = <[Z.to_nat i := x]> xs.
Proof. unfold store. case_decide; intros; by simplify_eq. Qed.

Lemma held_store d d' k x b xs :
  store (info d) k x = Done xs → info d' = xs → buf x = Some b →
  held d' (Z.to_nat k) ∧ ∀ i, held d i → held d' i.
Proof.
  intros [Hk ->]%store_inv Hi Hb. unfold held. rewrite Hi. split.
  - exists x, b. split; [|done]. apply list_lookup_insert_eq. lia.
  - intros i (y & c & Hy & Hc). rewrite lookup_upd by lia.
    case_decide; [by exists x, b|by exists y, c].
Qed.

Lemma free_desc_info d i d' es : free_desc d i = Done (d', es) → info d' = info d.
Proof.
  unfold free_desc. destruct (decide _); [|done]. intros H. inv_run. case_match; [done|]. by inv_run.
Qed.

Lemma free_upto_info js : ∀ d d' es, free_upto d js = Done (d', es) → info d' = info d.
Proof.
  induction js as [|j js IH]; intros d d' es H; simpl in H; [by inv_done|].
  inv_run. etrans; [by eapply IH|by eapply free_desc_info].
Qed.

Lemma alloc_descs_info ks : ∀ d idx ok d' idx' es,
  alloc_descs d idx ks = Done (ok, d', idx', es) → info d' = info d.
Proof.
  induction ks as [|k ks IH]; intros d idx ok d' idx' es H; simpl in H; [by inv_done|].
  unfold alloc_desc in H. destruct (first_free 0 (free d)).
  - apply IH in H. done.
  - inv_run. by eapply free_upto_info.
Qed.

Lemma format_held l d b w i0 i1 i2 d' :
  format l d b w i0 i1 i2 = Done d' → held d' i0 ∧ ∀ i, held d i → held d' i.
Proof.
  unfold format. intros H. inv_run. rewrite <- (Nat2Z.id i0) at 1.
  eapply held_store; [eassumption|done|done].
Qed.

Lemma rw_start_held l d b w r d' es :
  rw_start l d b w = Done (r, d', es) →
  (∀ i, held d i → held d' i) ∧ ∀ i, r = Some i → held d' i.
Proof.
  unfold rw_start. intros H. apply bind_Done_inv in H as ([[[ok d0] idx] es0] & Ha & H).
  apply alloc_descs_info in Ha as Hi.
  assert (Hk : ∀ i, held d i → held d0 i) by (intros i; unfold held; by rewrite Hi).
  destruct ok; [|by inv_run]. destruct idx as [|i0 [|i1 [|i2 [|]]]]; try (by inv_run).
  apply bind_Done_inv in H as (d2 & Hf & H). inv_run.
  apply format_held in Hf as [Hh Hk']. split; [by auto|]. by intros i [= <-].
Qed.

Lemma intr_loop_held fuel : ∀ d d' es,
  intr_loop fuel d = Done (d', es) → ∀ i, held d i → held d' i.
Proof.
  induction fuel as [|fuel IH]; intros d d' es H i Hi; simpl in H;
    case_decide; try (by inv_run).
  inv_run. eapply IH; [eassumption|]. unfold intr_one in Ha. inv_run.
  case_match; [done|]. case_match; [|done]. inv_run.
  eapply held_store; [eassumption|done|done|done].
Qed.

Lemma intr_held regs d d' es : intr regs d = Done (d', es) → ∀ i, held d i → held d' i.
Proof.
  unfold intr. generalize (Z.to_nat 65536). intros fuel H.
  apply bind_Done_inv in H as ([d1 e1] & Hl & H). simplify_eq. by eapply intr_loop_held.
Qed.

Definition stuck (s : sys) : Prop :=
  ∀ t p, procs s !! t = Some p →
    match p with Start _ _ => True | Wait i => held (dk s) i | Return _ => False end.

Lemma stuck_keep d d' ps :
  (∀ i, held d i → held d' i) → stuck (mkSys d ps) → stuck (mkSys d' ps).
Proof. intros Hk Hs t p Hp. specialize (Hs t p Hp). destruct p; simpl in *; auto. Qed.

Lemma step_stuck l regs s s' : step l regs s s' → stuck s → stuck s'.
Proof.
  intros Hst Hs. destruct s as [d ps]. inversion Hst; subst; simpl in *.
  - destruct (rw_start_held _ _ _ _ _ _ _ H0) as [Hk Hn]. intros u p Hp. simpl in Hp.
    rewrite lookup_upd in Hp by (by eapply lookup_lt_Some).
    case_decide; [simplify_eq; by apply Hn|]. by apply (stuck_keep d d0 ps Hk Hs u p).
  - destruct (rw_start_held _ _ _ _ _ _ _ H0) as [Hk _]. by eapply stuck_keep.
  - done.
  - specialize (Hs t _ H). destruct Hs as (inf & x & Hi & Hb). unfold rw_finish in H0.
    rewrite (index_ok _ _ inf) in H0 by (rewrite ?Nat2Z.id; done || lia). simpl in H0.
    by rewrite Hb in H0.
  - by specialize (Hs t _ H).
  - eapply stuck_keep; [|done]. by eapply intr_held.
  - eapply stuck_keep; [|done]. intros k (inf & x & Hi & Hb). unfold held. simpl.
    destruct (decide (k = i)) as [->|Hne].
    + rewrite list_lookup_alter_eq, Hi. by eexists _, x.
    + rewrite list_lookup_alter_ne by done. by exists inf, x.
Qed.

(** [rw] never returns: whatever the device and the interrupts do, no
    process that asked for a block ever gets its buffer back, since the loop
    waits until the buffer is gone from [info] and nothing takes it out. *)
Theorem virtio_rw_never_returns l regs d reqs s :
  rtc (step l regs) (mkSys d ((λ r, Start r.1 r.2) <$> reqs)) s →
  ∀ t b, procs s !! t ≠ Some (Return b).
Proof.
  intros Hr t b Hp.
  assert (Hs : stuck s); [|by apply (Hs _ _ Hp)].
  revert Hr. generalize (eq_refl (mkSys d ((λ r, Start r.1 r.2) <$> reqs))).
  generalize (mkSys d ((λ r : Guard * bool, Start r.1 r.2) <$> reqs)) at 1 3.
  intros s0 He Hr.
  assert (H0 : stuck s0).
  { rewrite He. intros u p Hu. simpl in Hu. rewrite list_lookup_fmap in Hu.
    destruct (reqs !! u); by simplify_eq/=. }
  clear He Hp. induction Hr; [done|]. apply IHHr. by eapply step_stuck.
Qed.

(** ** [init] *)

Lemma testbit_u32_not f k i :
  0 ≤ k < 32 → 0 ≤ i → (∀ j, 32 ≤ j → Z.testbit f j = false) →
  Z.testbit (Z.land f (u32_not (Z.shiftl 1 k))) i = Z.testbit f i && negb (bool_decide (k = i)).
Proof.
  intros Hk Hi Hf. unfold u32_not. rewrite Z.land_spec, Z.lxor_spec, testbit_shiftl_1 by lia.
  change (u32_mod - 1) with (Z.ones 32).
  destruct (decide (i < 32)).
  - rewrite Z.ones_spec_low by lia. by rewrite xorb_true_l.
  - rewrite Hf by lia. done.
Qed.

Lemma testbit_negotiate f i :
  0 ≤ f < u32_mod → 0 ≤ i →
  Z.testbit (negotiate f) i = Z.testbit f i && negb (bool_decide (i ∈ [5; 7; 11; 12; 27; 28; 29])).
Proof.
  intros Hf Hi.
  assert (Hh : ∀ j, 32 ≤ j → Z.testbit f j = false).
  { intros j Hj. destruct (decide (f = 0)) as [->|]; [by rewrite Z.testbit_0_l|].
    apply Z.bits_above_log2; [lia|]. apply Z.log2_lt_pow2; [lia|].
    eapply Z.lt_le_trans; [apply Hf|]. change u32_mod with (2 ^ 32). apply Z.pow_le_mono_r; lia. }
  unfold negotiate. cbn [foldl]. unfold BLK_F_RO, BLK_F_SCSI, BLK_F_CONFIG_WCE, BLK_F_MQ, F_ANY_LAYOUT,
    RING_F_EVENT_IDX, RING_F_INDIRECT_DESC.
  repeat (rewrite testbit_u32_not; [|lia|done|
    intros; repeat (rewrite Z.land_spec; apply andb_false_iff; left); by apply Hh]).
  rewrite <- !andb_assoc. f_equal.
  repeat case_bool_decide; subst; set_solver.
Qed.

(** [init] negotiates features bit by bit: it panics unless the device
    identifies itself as a version 2 block device, accepts the features and has
    an unused queue that is large enough; otherwise every descriptor is free,
    the features written are the offered ones without the seven the driver
    refuses, and the last two writes make the queue ready and set DRIVER_OK. *)
Theorem virtio_init_features regs l d :
  0 ≤ regs DeviceFeatures < u32_mod →
  match disk_init regs l d with
  | Done (d', es) =>
      d' = set_free (replicate (length (free d)) true) d ∧
      (∃ pre suf f, es = pre ++ write_reg DriverFeatures f :: suf ∧
        ∀ i, 0 ≤ i → Z.testbit f i =
          Z.testbit (regs DeviceFeatures) i && negb (bool_decide (i ∈ [5; 7; 11; 12; 27; 28; 29]))) ∧
      ∃ pre, es = pre ++ [write_reg QueueReady 1; write_reg Status (Z.lor (regs Status) DRIVER_OK)]
  | Panic _ =>
      regs MagicValue ≠ 0x74726976 ∨ regs Version ≠ 2 ∨ regs DeviceId ≠ 2 ∨
      regs VenderId ≠ 0x554d4551 ∨ Z.land (regs Status) FEATURES_OK = 0 ∨
      regs QueueReady ≠ 0 ∨ regs QueueNumMax < 8
  | Fault _ => False
  end.
Proof.
  intros Hf. unfold disk_init.
  destruct (_ || _ || _ || _) eqn:Hid; [lia|].
  destruct (Z.land (regs Status) FEATURES_OK =? 0) eqn:Hs; [lia|].
  destruct (regs QueueReady =? 0) eqn:Hr; simpl negb; cbv iota; [|lia]. destruct (regs QueueNumMax =? 0) eqn:Hm; [lia|].
  case_decide as Hn; [change (Z.of_nat NUM) with 8 in Hn; lia|]. split; [done|]. split.
  - eexists [_; _; _], _, _. split; [done|]. intros i Hi. by apply testbit_negotiate.
  - eexists (_ :: _ :: _ :: _ :: _ :: _ :: _ :: _ :: _ :: _ :: _ :: _ :: [_]). done.
Qed.

(** ** Runs *)
Definition lay0 : layout := mkLayout 4096 4224 4248 (λ i, 5000 + 16 * Z.of_nat i) (λ i, 6000 + Z.of_nat i).
Definition regs0 (r : VirtioMMIO) : Z :=
  match r with
  | MagicValue => 0x74726976 | Version => 2 | DeviceId => 2 | VenderId => 0x554d4551
  | DeviceFeatures => 0x30006ed4 | Status => 11 | QueueNumMax => 1024 | _ => 0
  end.
Definition disk0 : Disk := set_free (replicate NUM true) new.
Definition guard0 : Guard := mkGuard 0x80001000 (mkData (replicate BSIZE 0) false 7 1 false).

Definition run1 : Disk := (done_or (rw_start lay0 disk0 guard0 false) (None, disk0, [])).1.2.
Definition run2 : Disk := (done_or (rw_start lay0 run1 guard0 true) (None, disk0, [])).1.2.

Lemma dinv_disk0 : dinv disk0 [].
Proof.
  split; try done.
  - apply NoDup_nil_2.
  - intros i Hi. set_solver.
  - intros i Hi. by do 8 (destruct i as [|i]; [done|]); unfold NUM in Hi; lia.
  - intros c Hc. set_solver.
Qed.

(** The invariant of a concrete disk, by evaluation. *)
Ltac dinv_concrete :=
  split; [vm_compute; reflexivity..|vm_compute; split; congruence|
    apply (bool_decide_unpack _); vm_compute; exact I| | |];
  [ intros i Hi; apply (Forall_forall (λ i, (i < NUM)%nat) (owned _)) in Hi; [done|];
    apply (bool_decide_unpack _); vm_compute; exact I
  | intros i Hi; do 8 (destruct i as [|i]; [vm_compute; reflexivity|]); unfold NUM in Hi; lia
  | intros c Hc; revert c Hc; apply Forall_forall;
    repeat (apply Forall_cons; split); try apply Forall_nil_2;
    eexists _, _, _; (split; [reflexivity|]); (split; [reflexivity|]); (split; [reflexivity|]);
    vm_compute; split_and!; congruence ].

Lemma dinv_run1 : dinv run1 [(0, 1, 2)%nat].
Proof. dinv_concrete. Qed.
Lemma dinv_run2 : dinv run2 [(3, 4, 5); (0, 1, 2)]%nat.
Proof. dinv_concrete. Qed.

Lemma virtio_submit_witness :
  ∃ c d', rw_start lay0 run1 guard0 true = Done (Some (head_of c), d', [write_reg QueueNotify 0]) ∧
          dinv d' [c; (0, 1, 2)%nat].
Proof.
  destruct (virtio_submit lay0 run1 [(0, 1, 2)%nat] guard0 true dinv_run1) as (c & d' & H & Hd & _).
  - simpl. lia.
  - vm_compute. reflexivity.
  - by exists c, d'.
Defined.

Lemma virtio_free_chain_witness :
  ∃ d' es, free_chain run2 3 = Done (d', es) ∧ dinv d' [(0, 1, 2)%nat].
Proof.
  destruct (virtio_free_chain lay0 run2 (3, 4, 5)%nat [(0, 1, 2)%nat] dinv_run2) as (d' & es & H & Hd & _).
  by exists d', es.
Defined.

Lemma virtio_third_request_witness :
  ∃ d' es, rw_start lay0 run2 guard0 true = Done (None, d', es) ∧ ¬ dinv d' [(3, 4, 5); (0, 1, 2)]%nat.
Proof.
  destruct (virtio_third_request lay0 run2 _ guard0 true dinv_run2 eq_refl) as (d' & es & H & _ & Hn).
  exists d', es. split; [done|]. apply Hn. left. vm_compute. set_solver.
Defined.

Definition served1 : Disk :=
  device_writes (mkUsed 0 1 (<[0%nat := mkElem 0 1]> (u_ring (used run1)))) 0 0 run1.

Lemma virtio_intr_witness :
  ∃ inf, intr regs0 served1 =
    Done (set_used_idx 1 (set_info inf served1),
          [write_reg InterruptAck 0; EWakeup ChanLocal]) ∧
    (buf <$> inf !! 0%nat) = Some (Some guard0).
Proof.
  destruct (virtio_intr regs0 served1 1) as (inf & H & Hk).
  - reflexivity.
  - vm_compute. congruence.
  - reflexivity.
  - reflexivity.
  - apply Forall_singleton. eexists _, _. split; [vm_compute; congruence|].
    split; [vm_compute; reflexivity|]. split; reflexivity.
  - exists inf. split; [exact H|]. rewrite Hk. vm_compute. reflexivity.
Defined.

Lemma virtio_rw_never_returns_witness :
  ∃ s, rtc (step lay0 regs0) (mkSys disk0 [Start guard0 false]) s ∧
       procs s = [Wait 0] ∧ ∀ t b, procs s !! t ≠ Some (Return b).
Proof.
  assert (Hr : rtc (step lay0 regs0) (mkSys disk0 [Start guard0 false])
                 (mkSys (device_writes (used served1) 0 0 run1) [Wait 0])).
  { eapply rtc_l; [|apply rtc_once; apply (s_device lay0 regs0 (mkSys run1 [Wait 0]))].
    apply (s_submit lay0 regs0 (mkSys disk0 [Start guard0 false]) 0%nat guard0 false 0%nat run1
             [write_reg QueueNotify 0]); [reflexivity|vm_compute; reflexivity]. }
  eexists. split; [exact Hr|]. split; [reflexivity|].
  exact (virtio_rw_never_returns lay0 regs0 disk0 [(guard0, false)] _ Hr).
Defined.

Lemma virtio_init_features_witness :
  ∃ d' es, disk_init regs0 lay0 new = Done (d', es) ∧ d' = disk0.
Proof.
  assert (Hf : 0 ≤ regs0 DeviceFeatures < u32_mod) by (vm_compute; split; congruence).
  pose proof (virtio_init_features regs0 lay0 new Hf) as H.
  destruct (disk_init regs0 lay0 new) as [[d' es]| |] eqn:E.
  - exists d', es. split; [reflexivity|]. apply (proj1 H).
  - discriminate E.
  - discriminate E.
Defined.
