(* ===== verification/Fs.v ===== *)
(** * The file system ([fs.rs])

    Blocks, inodes, directories, paths and the table of inodes in memory.  The
    state [fs] has the contents of the blocks as the buffer cache shows them,
    the log, and the table [ITABLE].  [BCACHE.read] is a look at [blocks];
    [LOG.write] goes through [take_slot] of the log, with its panics.  The
    sleep locks of inodes and buffers are not part of the state: every
    operation here is the work of one process. *)

From S2P Require Import Prelude Log.

Open Scope Z_scope.

(** ** Constants and records *)
Definition ROOTINO : Z := 1.
Definition FSMAGIC : Z := 270544960.
Definition NDIRECT : Z := 12.
Definition NINDIRECT : Z := 1024 / 4.
Definition MAXFILE : Z := NDIRECT + NINDIRECT.
Definition SIZEOF_DINODE : Z := 64.
Definition IPB : Z := 1024 / SIZEOF_DINODE.
Definition BPB : Z := 1024 * 8.
Definition DIRSIZ : nat := 14.
Definition SIZEOF_DIRENT : Z := 16.
Definition NINODE : nat := 50.

Record SuperBlock := mkSB {
  magic : Z; sb_size : Z; nblocks : Z; ninodes : Z; nlog : Z; logstart : Z; inodestart : Z; bmapstart : Z;
}.

Inductive IType := TNone | TDir | TFile | TDevice.
Inductive Major := MNull | MConsole | MInvalid.

#[export] Instance IType_eq_dec : EqDecision IType.
Proof. solve_decision. Defined.
#[export] Instance Major_eq_dec : EqDecision Major.
Proof. solve_decision. Defined.

Record IData := mkI {
  idev : Z; inum : Z; ivalid : bool;
  itype : IType; major : Major; minor : Z; nlink : Z; isize : Z; addrs : list Z;
}.

Definition idata_new (dev num : Z) : IData :=
  mkI dev num false TNone MNull 0 0 0 (replicate 13 0).

Definition set_addrs (x : list Z) (i : IData) : IData :=
  mkI (idev i) (inum i) (ivalid i) (itype i) (major i) (minor i) (nlink i) (isize i) x.
Definition set_isize (x : Z) (i : IData) : IData :=
  mkI (idev i) (inum i) (ivalid i) (itype i) (major i) (minor i) (nlink i) x (addrs i).
Definition set_nlink (x : Z) (i : IData) : IData :=
  mkI (idev i) (inum i) (ivalid i) (itype i) (major i) (minor i) x (isize i) (addrs i).

(** An entry of [ITABLE]: the [MInode] and the number of strong pointers. *)
Record MInode := mkM { m_dev : Z; m_inum : Z; m_strong : Z; m_data : IData }.

Record fs := mkFs { blocks : Z → list Z; lg : Log; itable : list (option MInode) }.

Definition set_block (s : fs) (b : Z) (x : list Z) : fs := mkFs (bupd (blocks s) b x) (lg s) (itable s).
Definition set_table (s : fs) (t : list (option MInode)) : fs := mkFs (blocks s) (lg s) t.

(** [LOG.write(bp)] for the buffer of block [b]. *)
Definition log_write (s : fs) (b : Z) : outcome fs :=
  '(l, _) ← take_slot (lg s) b;
  Done (mkFs (blocks s) l (itable s)).

(** Parts of a block. *)
Definition splice (l : list Z) (off : nat) (x : list Z) : list Z :=
  take off l ++ x ++ drop (off + length x) l.
Definition get_byte (l : list Z) (i : Z) : outcome Z :=
  match l !! Z.to_nat i with
  | Some x => Done x
  | None => Panic "called `Option::unwrap()` on a `None` value"
  end.
Definition get_word (l : list Z) (i : Z) : Z := le_val (take 4 (drop (Z.to_nat (4 * i)) l)).
Definition set_word (l : list Z) (i v : Z) : list Z := splice l (Z.to_nat (4 * i)) (le_bytes 4 v).
Definition slice (l : list Z) (a b : Z) : outcome (list Z) :=
  if decide (a ≤ b) then
    if decide (b ≤ Z.of_nat (length l)) then Done (take (Z.to_nat (b - a)) (drop (Z.to_nat a) l))
    else Panic "range end index out of range"
  else Panic "slice index starts after its end".

(** ** Blocks *)
Section super.
Variable sb : SuperBlock.

Definition iblock (i : Z) : outcome Z := checked_add32 (i / IPB) (inodestart sb).
Definition bblock (b : Z) : outcome Z := x ← checked_add32 b BPB; checked_add32 x (bmapstart sb).

Definition bzero (s : fs) (bno : Z) : outcome fs := log_write (set_block s bno (replicate 1024 0)) bno.

(** [while bi < BPB && b + bi < sb.size], [k] rounds at most. *)
Fixpoint balloc_scan (k : nat) (s : fs) (bb b bi : Z) : outcome (fs * option Z) :=
  if decide (bi < BPB ∧ b + bi < sb_size sb) then
    match k with
    | O => Panic "out of fuel"
    | S k =>
        let bi := bi + 1 in
        let m := Z.shiftl 1 (bi `mod` 8) in
        x ← get_byte (blocks s bb) (bi / 8);
        if Z.land x m =? 0 then
          s1 ← log_write (set_block s bb (<[Z.to_nat (bi / 8) := Z.lor x m]> (blocks s bb))) bb;
          s2 ← bzero s1 (b + bi);
          Done (s2, Some (b + bi))
        else balloc_scan k s bb b bi
    end
  else Done (s, None).

(** [for b in (0..sb.size).step_by(BPB)], [k] rounds. *)
Fixpoint balloc_loop (k : nat) (s : fs) (b : Z) : outcome (fs * Z) :=
  match k with
  | O => Panic "balloc: out of blocks"
  | S k =>
      bb ← bblock b;
      '(s1, r) ← balloc_scan (Z.to_nat BPB) s bb b 0;
      match r with Some a => Done (s1, a) | None => balloc_loop k s1 (b + BPB) end
  end.
Definition balloc (s : fs) : outcome (fs * Z) :=
  balloc_loop (Z.to_nat ((sb_size sb + BPB - 1) / BPB)) s 0.

Definition bfree (s : fs) (b : Z) : outcome fs :=
  bb ← bblock b;
  let bi := b `mod` BPB in
  let m := Z.shiftl 1 (bi `mod` 8) in
  x ← get_byte (blocks s bb) (bi / 8);
  if Z.land x m =? 0 then Panic "freeing free block"
  else log_write (set_block s bb (<[Z.to_nat (bi / 8) := Z.land x (u8_not m)]> (blocks s bb))) bb.

(** ** Inodes *)
Definition itype_code (t : IType) : Z := match t with TNone => 0 | TDir => 1 | TFile => 2 | TDevice => 3 end.
Definition itype_of (z : Z) : IType :=
  if decide (z = 1) then TDir else if decide (z = 2) then TFile else if decide (z = 3) then TDevice else TNone.
Definition major_code (m : Major) : Z := match m with MNull => 0 | MConsole => 1 | MInvalid => 2 end.
Definition major_of (z : Z) : Major :=
  if decide (z = 0) then MNull else if decide (z = 1) then MConsole else MInvalid.

Definition encode_dinode (i : IData) : list Z :=
  le_bytes 2 (itype_code (itype i)) ++ le_bytes 2 (major_code (major i)) ++ le_bytes 2 (minor i) ++
  le_bytes 2 (nlink i) ++ le_bytes 4 (isize i) ++ encode_words (addrs i).

Definition decode_dinode (dev num : Z) (x : list Z) : IData :=
  mkI dev num true (itype_of (le_val (take 2 x))) (major_of (le_val (take 2 (drop 2 x))))
    (le_val (take 2 (drop 4 x))) (le_val (take 2 (drop 6 x))) (le_val (take 4 (drop 8 x)))
    (decode_words 13 (drop 12 x)).

Definition dinode_off (num : Z) : nat := Z.to_nat (num `mod` IPB * SIZEOF_DINODE).

Definition update (s : fs) (i : IData) : outcome fs :=
  bb ← iblock (inum i);
  log_write (set_block s bb (splice (blocks s bb) (dinode_off (inum i)) (encode_dinode i))) bb.

(** [MInode::lock]: the inode is read from disk unless it is valid. *)
Definition ilock (s : fs) (dev num : Z) (i : IData) : outcome IData :=
  if ivalid i then Done i
  else
    bb ← iblock num;
    let i1 := decode_dinode dev num (take (Z.to_nat SIZEOF_DINODE) (drop (dinode_off num) (blocks s bb))) in
    if decide (itype i1 = TNone) then Panic "ilock: no type" else Done i1.

Fixpoint free_list (s : fs) (l : list Z) : outcome fs :=
  match l with
  | [] => Done s
  | a :: l => if decide (0 < a) then s1 ← bfree s a; free_list s1 l else free_list s l
  end.

Definition trunc (s : fs) (i : IData) : outcome (fs * IData) :=
  s1 ← free_list s (take (Z.to_nat NDIRECT) (addrs i));
  naddr ← get_byte (addrs i) NDIRECT;
  s2 ← (if decide (0 < naddr) then
          s2 ← free_list s1 (decode_words (Z.to_nat NINDIRECT) (blocks s1 naddr));
          bfree s2 naddr
        else Done s1);
  let i1 := set_isize 0 (set_addrs (replicate 13 0) i) in
  s3 ← update s2 i1;
  Done (s3, i1).

Definition bmap (s : fs) (i : IData) (bn : Z) : outcome (fs * IData * result Z string) :=
  if decide (bn < NDIRECT) then
    addr ← index (addrs i) bn;
    if decide (addr = 0) then
      '(s1, a) ← balloc s;
      Done (s1, set_addrs (<[Z.to_nat bn := a]> (addrs i)) i, Ok a)
    else Done (s, i, Ok addr)
  else
    let bn := bn - NDIRECT in
    if decide (bn < NINDIRECT) then
      addr ← index (addrs i) NDIRECT;
      '(s1, i1, addr) ← (if decide (addr = 0) then
          '(s1, a) ← balloc s;
          Done (s1, set_addrs (<[Z.to_nat NDIRECT := a]> (addrs i)) i, a)
        else Done (s, i, addr));
      let w := get_word (blocks s1 addr) bn in
      if decide (w = 0) then
        '(s2, a) ← balloc s1;
        s3 ← log_write (set_block s2 addr (set_word (blocks s2 addr) bn a)) addr;
        Done (s3, i1, Ok a)
      else Done (s1, i1, Ok w)
    else Done (s, i, Err "bmap: out of range").

(** [stat]: device, number, type, links and size. *)
Definition stat (i : IData) : Z * Z * IType * Z * Z := (idev i, inum i, itype i, nlink i, isize i).

(** [read]: the pieces copied out, with their destinations.  [copyout] tells
    whether [either_copyout] succeeds. *)
Fixpoint read_loop (copyout : Z → list Z → bool) (k : nat) (s : fs) (i : IData) (dst off n tot : Z)
    (out : list (Z * list Z)) : outcome (fs * IData * list (Z * list Z) * result Z string) :=
  if decide (tot < n) then
    match k with
    | O => Panic "out of fuel"
    | S k =>
        '(s1, i1, r) ← bmap s i (as_u32 (off / 1024));
        match r with
        | Err e => Done (s1, i1, out, Err e)
        | Ok bno =>
            let m := Z.min (n - tot) (1024 - off `mod` 1024) in
            chunk ← slice (blocks s1 bno) (off `mod` 1024) m;
            if copyout dst chunk then
              dst' ← checked_add dst m;
              read_loop copyout k s1 i1 dst' (off + m) n (tot + m) (out ++ [(dst, chunk)])
            else Done (s1, i1, out, Err "inode read: Failed to copyout")
        end
    end
  else Done (s, i, out, Ok tot).

Definition read (copyout : Z → list Z → bool) (s : fs) (i : IData) (dst off n : Z) :
    outcome (fs * IData * list (Z * list Z) * result Z string) :=
  if decide (isize i < off) then Done (s, i, [], Err "start point beyond the end of the file")
  else
    e ← checked_add off n;
    let n := if decide (isize i < e) then isize i - off else n in
    read_loop copyout (Z.to_nat n) s i dst off n 0 [].

(** [write]: [copyin src len] is what [either_copyin] stores, and whether it
    succeeds. *)
Fixpoint write_loop (copyin : Z → nat → list Z * bool) (k : nat) (s : fs) (i : IData) (src off n tot : Z) :
    outcome (fs * IData * Z * result Z string) :=
  if decide (tot < n) then
    match k with
    | O => Panic "out of fuel"
    | S k =>
        '(s1, i1, r) ← bmap s i (as_u32 (off / 1024));
        match r with
        | Err e => Done (s1, i1, off, Err e)
        | Ok bno =>
            let m := Z.min (n - tot) (1024 - off `mod` 1024) in
            old ← slice (blocks s1 bno) (off `mod` 1024) m;
            let '(x, ok) := copyin src (length old) in
            let s2 := set_block s1 bno (splice (blocks s1 bno) (Z.to_nat (off `mod` 1024)) x) in
            if (ok : bool) then
              src' ← checked_add src m;
              s3 ← log_write s2 bno;
              write_loop copyin k s3 i1 src' (off + m) n (tot + m)
            else Done (s2, i1, off, Err "inode write: Failed to copyin")
        end
    end
  else Done (s, i, off, Ok tot).

Definition write (copyin : Z → nat → list Z * bool) (s : fs) (i : IData) (src off n : Z) :
    outcome (fs * IData * result Z string) :=
  if decide (isize i < off) then Done (s, i, Err "inode write: off is more than inode size")
  else
    e ← checked_add off n;
    if decide (MAXFILE * 1024 < e) then Done (s, i, Err "inode write")
    else
      '(s1, i1, off1, r) ← write_loop copyin (Z.to_nat n) s i src off n 0;
      match r with
      | Err e => Done (s1, i1, Err e)
      | Ok tot =>
          let i2 := if decide (isize i1 < off1) then set_isize (as_u32 off1) i1 else i1 in
          s2 ← update s1 i2;
          Done (s2, i2, Ok tot)
      end.

(** ** Directories *)

(** A [DirEnt] is kept as its 16 bytes: the loops of the directory code read
    every entry into the same variable. *)
Definition de_new : list Z := replicate 16 0.
Definition de_inum (de : list Z) : Z := le_val (take 2 de).
Definition de_name (de : list Z) : list Z := drop 2 de.
Definition kernel_copyout (_ : Z) (_ : list Z) : bool := true.
Definition kernel_copyin (de : list Z) (a : Z) (len : nat) : list Z * bool := (take len (drop (Z.to_nat a) de), true).
Definition store_pieces (de : list Z) (out : list (Z * list Z)) : list Z :=
  foldl (λ de p, splice de (Z.to_nat p.1) p.2) de out.

(** [core::str::from_utf8] accepts the byte sequence. *)
Definition cont (b : Z) : bool := bool_decide (128 ≤ b ≤ 191).
Fixpoint utf8 (l : list Z) : bool :=
  match l with
  | [] => true
  | a :: r =>
      if decide (a ≤ 127) then utf8 r
      else if decide (194 ≤ a ≤ 223) then match r with b :: r => cont b && utf8 r | _ => false end
      else if decide (224 ≤ a ≤ 239) then
        match r with
        | b :: c :: r => cont b && cont c && utf8 r &&
            (if decide (a = 224) then bool_decide (160 ≤ b) else true) &&
            (if decide (a = 237) then bool_decide (b ≤ 159) else true)
        | _ => false
        end
      else if decide (240 ≤ a ≤ 244) then
        match r with
        | b :: c :: d :: r => cont b && cont c && cont d && utf8 r &&
            (if decide (a = 240) then bool_decide (144 ≤ b) else true) &&
            (if decide (a = 244) then bool_decide (b ≤ 143) else true)
        | _ => false
        end
      else false
  end.

(** [trim_matches] for one character. *)
Fixpoint trim_start (c : Z) (l : list Z) : list Z :=
  match l with [] => [] | x :: r => if decide (x = c) then trim_start c r else l end.
Definition trim_matches (c : Z) (l : list Z) : list Z := reverse (trim_start c (reverse (trim_start c l))).

(** The entry at [off], into the variable [de]. *)
Definition read_de (s : fs) (i : IData) (de : list Z) (off : Z) : outcome (fs * IData * list Z * result Z string) :=
  '(s1, i1, out, r) ← read kernel_copyout s i 0 off SIZEOF_DIRENT;
  Done (s1, i1, store_pieces de out, r).

(** The loop of [dirlookup], [k] entries left: offset and inode number. *)
Fixpoint dirlookup_loop (k : nat) (s : fs) (i : IData) (name de : list Z) (off : Z) :
    outcome (fs * IData * option (Z * Z)) :=
  match k with
  | O => Done (s, i, None)
  | S k =>
      '(s1, i1, de1, r) ← read_de s i de off;
      match r with
      | Err _ => Panic "dirlookup read"
      | Ok _ =>
          if decide (de_inum de1 = 0) then dirlookup_loop k s1 i1 name de1 (off + SIZEOF_DIRENT)
          else if utf8 (de_name de1) then
            if decide (name = trim_matches 0 (de_name de1)) then Done (s1, i1, Some (off, de_inum de1))
            else dirlookup_loop k s1 i1 name de1 (off + SIZEOF_DIRENT)
          else Panic "called `Result::unwrap()` on an `Err` value"
      end
  end.

Definition entries (from size : Z) : nat := Z.to_nat ((size - from + SIZEOF_DIRENT - 1) / SIZEOF_DIRENT).

Definition dirlookup (s : fs) (i : IData) (name : list Z) : outcome (fs * IData * option (Z * Z)) :=
  if decide (itype i = TDir) then dirlookup_loop (entries 0 (isize i)) s i name de_new 0
  else Panic "dirlookup not DIR".

(** The search of [dirlink] for an empty entry. *)
Fixpoint dirlink_loop (k : nat) (s : fs) (i : IData) (de : list Z) (off offset : Z) :
    outcome (fs * IData * list Z * Z) :=
  match k with
  | O => Done (s, i, de, offset)
  | S k =>
      '(s1, i1, de1, r) ← read_de s i de off;
      match r with
      | Err _ => Panic "called `Result::unwrap()` on an `Err` value"
      | Ok _ =>
          if decide (de_inum de1 = 0) then Done (s1, i1, de1, offset + SIZEOF_DIRENT)
          else dirlink_loop k s1 i1 de1 (off + SIZEOF_DIRENT) (offset + SIZEOF_DIRENT)
      end
  end.

Fixpoint dir_empty_loop (k : nat) (s : fs) (i : IData) (de : list Z) (off : Z) : outcome (fs * IData * bool) :=
  match k with
  | O => Done (s, i, true)
  | S k =>
      '(s1, i1, de1, r) ← read_de s i de off;
      match r with
      | Err _ => Panic "isdirempty: inode read"
      | Ok _ => if decide (de_inum de1 = 0) then dir_empty_loop k s1 i1 de1 (off + SIZEOF_DIRENT) else Done (s1, i1, false)
      end
  end.
Definition is_dir_empty (s : fs) (i : IData) : outcome (fs * IData * bool) :=
  dir_empty_loop (entries (2 * SIZEOF_DIRENT) (isize i)) s i de_new (2 * SIZEOF_DIRENT).

(** ** The table of inodes in memory: positions in [itable] *)
Definition is_inode (dev num : Z) (e : option MInode) : Prop :=
  match e with Some m => m_dev m = dev ∧ m_inum m = num | None => False end.
#[export] Instance is_inode_dec dev num e : Decision (is_inode dev num e).
Proof. destruct e; simpl; apply _. Defined.

Definition set_entry (s : fs) (k : nat) (e : option MInode) : fs := set_table s (<[k := e]> (itable s)).

Definition get (s : fs) (dev num : Z) : outcome (fs * nat) :=
  match list_find (is_inode dev num) (itable s) with
  | Some (k, e) =>
      Done (set_entry s k ((λ m, mkM (m_dev m) (m_inum m) (m_strong m + 1) (m_data m)) <$> e), k)
  | None =>
      match list_find (λ e, e = None) (itable s) with
      | Some (k, _) => Done (set_entry s k (Some (mkM dev num 2 (idata_new dev num))), k)
      | None => Panic "iget: no inodes"
      end
  end.

Definition minode (s : fs) (k : nat) : outcome MInode :=
  match itable s !! k with Some (Some m) => Done m | _ => Fault (Z.of_nat k) end.
Definition set_data (s : fs) (k : nat) (i : IData) : outcome fs :=
  m ← minode s k;
  Done (set_entry s k (Some (mkM (m_dev m) (m_inum m) (m_strong m) i))).

Definition put (s : fs) (k : nat) : outcome fs :=
  m ← minode s k;
  if decide (m_strong m = 2) then
    let i := m_data m in
    s1 ← (if ivalid i && bool_decide (nlink i = 0) then
            '(s1, i1) ← trunc s i;
            update s1 (mkI (idev i1) (inum i1) (ivalid i1) TNone (major i1) (minor i1) (nlink i1) (isize i1) (addrs i1))
          else Done s);
    Done (set_entry s1 k None)
  else Done (set_entry s k (Some (mkM (m_dev m) (m_inum m) (m_strong m - 1) (m_data m)))).

(** [dirlink]: an inode that [dirlookup] finds is taken from the table and put
    back. *)
Definition dirlink (s : fs) (i : IData) (name : list Z) (num : Z) : outcome (fs * IData * result unit string) :=
  '(s1, i1, found) ← dirlookup s i name;
  match found with
  | Some (_, num') =>
      '(s2, k) ← get s1 (idev i1) num';
      s3 ← put s2 k;
      Done (s3, i1, Err "dirlink: the name already exists")
  | None =>
      '(s2, i2, _, offset) ← dirlink_loop (entries 0 (isize i1)) s1 i1 de_new 0 0;
      nm ← slice name 0 (Z.of_nat DIRSIZ);
      let de := le_bytes 2 num ++ nm in
      '(s3, i3, r) ← write (kernel_copyin de) s2 i2 0 offset SIZEOF_DIRENT;
      match r with
      | Err _ => Panic "called `Result::unwrap()` on an `Err` value"
      | Ok _ => Done (s3, i3, Ok tt)
      end
  end.

(** [ITable::alloc], [j] inode numbers left. *)
Fixpoint alloc_loop (j : nat) (s : fs) (dev num : Z) (t : IType) : outcome (fs * option nat) :=
  match j with
  | O => Done (s, None)
  | S j =>
      bb ← iblock num;
      let dip := decode_dinode dev num (take (Z.to_nat SIZEOF_DINODE) (drop (dinode_off num) (blocks s bb))) in
      if decide (itype dip = TNone) then
        let d := mkI dev num true t MNull 0 0 0 (replicate 13 0) in
        s1 ← log_write (set_block s bb (splice (blocks s bb) (dinode_off num) (encode_dinode d))) bb;
        '(s2, k) ← get s1 dev num;
        Done (s2, Some k)
      else alloc_loop j s dev (num + 1) t
  end.
Definition alloc (s : fs) (dev : Z) (t : IType) : outcome (fs * option nat) :=
  alloc_loop (Z.to_nat (ninodes sb - 1)) s dev 1 t.

(** [ip.lock()] for the inode at position [k] of the table. *)
Definition lock (s : fs) (k : nat) : outcome (fs * IData) :=
  m ← minode s k;
  i ← ilock s (m_dev m) (m_inum m) (m_data m);
  s1 ← set_data s k i;
  Done (s1, i).
End super.

(** ** Paths *)
Definition SLASH : Z := 47.

Fixpoint split_once (c : Z) (l : list Z) : option (list Z * list Z) :=
  match l with
  | [] => None
  | x :: r => if decide (x = c) then Some ([], r)
              else match split_once c r with Some (a, b) => Some (x :: a, b) | None => None end
  end.

Definition skip_elem (p : list Z) : option (list Z) * option (list Z) :=
  match split_once SLASH (trim_matches SLASH p) with
  | Some (name, path) => if decide (length name ≤ DIRSIZ)%nat then (Some name, Some path) else (None, None)
  | None => if decide (0 < length p < DIRSIZ)%nat then (Some p, None) else (None, None)
  end.

(** [ends_with("..")] and [rsplit_once('/')]. *)
Definition file_name (p : list Z) : option (list Z) :=
  match reverse p with
  | 46 :: 46 :: _ => None
  | r => match split_once SLASH r with Some (f, _) => Some (reverse f) | None => Some p end
  end.

Section names.
Variable sb : SuperBlock.
Variable cwd : nat.   (* position of the current directory of the process *)

(** [dup] of the inode at position [k]. *)
Definition dup (s : fs) (k : nat) : outcome fs :=
  m ← minode s k;
  Done (set_entry s k (Some (mkM (m_dev m) (m_inum m) (m_strong m + 1) (m_data m)))).

(** A lookup in the locked directory at position [k], whose new in-memory copy
    goes back to the table; the inode found is taken from the table. *)
Definition lookup_at (s : fs) (k : nat) (i : IData) (name : list Z) : outcome (fs * option (Z * nat)) :=
  '(s1, i1, r) ← dirlookup sb s i name;
  s2 ← set_data s1 k i1;
  match r with
  | Some (off, num) => '(s3, j) ← get s2 (idev i1) num; Done (s3, Some (off, j))
  | None => Done (s2, None)
  end.

(** The loop of [namex]; [fuel] bounds the number of path elements. *)
Fixpoint namex_loop (fuel : nat) (s : fs) (k : nat) (path : list Z) (parent : bool) :
    outcome (fs * option (list Z * nat)) :=
  match fuel with
  | O => Panic "out of fuel"
  | S fuel =>
      '(s1, i) ← lock sb s k;
      if decide (itype i = TDir) then
        match skip_elem path with
        | (Some name, Some npath) =>
            '(s2, r) ← lookup_at s1 k i name;
            match r with
            | Some (_, j) => s3 ← put sb s2 k; namex_loop fuel s3 j npath parent
            | None => s3 ← put sb s2 k; Done (s3, None)
            end
        | (Some name, None) =>
            if parent then Done (s1, Some (name, k))
            else
              '(s2, r) ← lookup_at s1 k i name;
              s3 ← put sb s2 k;
              Done (s3, match r with Some (_, j) => Some (name, j) | None => None end)
        | _ => s2 ← put sb s1 k; Done (s2, None)
        end
      else s2 ← put sb s1 k; Done (s2, None)
  end.

Definition namex (s : fs) (path : list Z) (parent : bool) : outcome (fs * option (list Z * nat)) :=
  '(s1, k) ← match path with
             | 47 :: _ => get s ROOTDEV ROOTINO
             | _ => s1 ← dup s cwd; Done (s1, cwd)
             end;
  namex_loop (S (length path)) s1 k path parent.
Definition namei (s : fs) (path : list Z) := namex s path false.
Definition nameiparent (s : fs) (path : list Z) := namex s path true.

Definition checked_add16 (a b : Z) : outcome Z :=
  if decide (a + b < 65536) then Done (a + b) else Panic "attempt to add with overflow".

(** [link]. *)
Definition link (s : fs) (old new : list Z) : outcome (fs * result unit unit) :=
  '(s1, r) ← namei s old;
  match r with
  | None => Done (s1, Err tt)
  | Some (_, k) =>
      '(s2, i) ← lock sb s1 k;
      if decide (itype i = TDir) then s3 ← put sb s2 k; Done (s3, Err tt)
      else
        '(s3, r) ← nameiparent s2 new;
        match r with
        | None => s4 ← put sb s3 k; Done (s4, Err tt)
        | Some (name, d) =>
            '(s4, di) ← lock sb s3 d;
            md ← minode s4 d;
            mk ← minode s4 k;
            if decide (m_dev md ≠ m_dev mk) then s5 ← put sb s4 d; s6 ← put sb s5 k; Done (s6, Err tt)
            else
              '(s5, di1, r) ← dirlink sb s4 di name (m_inum mk);
              s6 ← set_data s5 d di1;
              match r with
              | Err _ => s7 ← put sb s6 d; s8 ← put sb s7 k; Done (s8, Err tt)
              | Ok _ =>
                  '(s7, i) ← lock sb s6 k;
                  nl ← checked_add16 (nlink i) 1;
                  let i1 := set_nlink nl i in
                  s8 ← set_data s7 k i1;
                  s9 ← update sb s8 i1;
                  s10 ← put sb s9 d;
                  s11 ← put sb s10 k;
                  Done (s11, Ok tt)
              end
        end
  end.

Definition DOT : list Z := [46].
Definition DOTDOT : list Z := [46; 46].

(** The tail of [unlink]: the entry at [off] of directory [d] is erased and the
    counts go down. *)
Definition unlink_entry (s : fs) (d k : nat) (di i : IData) (off : Z) : outcome fs :=
  '(s1, di1, r) ← write sb (kernel_copyin de_new) s di 0 off SIZEOF_DIRENT;
  match r with
  | Err _ => Panic "called `Result::unwrap()` on an `Err` value"
  | Ok _ =>
      '(s2, di2) ← (if decide (itype i = TDir) then
                      nl ← checked_sub (nlink di1) 1;
                      let di2 := set_nlink nl di1 in
                      s2 ← update sb s1 di2; Done (s2, di2)
                    else Done (s1, di1));
      nl ← checked_sub (nlink i) 1;
      let i1 := set_nlink nl i in
      s3 ← update sb s2 i1;
      s4 ← set_data s3 d di2;
      s5 ← set_data s4 k i1;
      s6 ← put sb s5 k;
      put sb s6 d
  end.

Definition unlink (s : fs) (path : list Z) : outcome (fs * result unit unit) :=
  '(s1, r) ← nameiparent s path;
  match r with
  | None => Done (s1, Err tt)
  | Some (name, d) =>
      '(s2, di) ← lock sb s1 d;
      if decide (name = DOT ∨ name = DOTDOT) then s3 ← put sb s2 d; Done (s3, Err tt)
      else
        '(s3, r) ← lookup_at s2 d di name;
        match r with
        | None => s4 ← put sb s3 d; Done (s4, Err tt)
        | Some (off, k) =>
            md ← minode s3 d;
            '(s4, i) ← lock sb s3 k;
            if decide (nlink i < 1) then Panic "unlink: nlink < 1"
            else
              '(s5, i1, e) ← (if decide (itype i = TDir) then is_dir_empty sb s4 i else Done (s4, i, true));
              s6 ← set_data s5 k i1;
              if (e : bool) then s7 ← unlink_entry s6 d k (m_data md) i1 off; Done (s7, Ok tt)
              else s7 ← put sb s6 k; s8 ← put sb s7 d; Done (s8, Err tt)
        end
  end.

Definition from_u16 (m : Z) : Major :=
  if decide (m = 0) then MNull else if decide (m = 1) then MConsole else MInvalid.

(** [create] when the name is there already, at position [k]. *)
Definition create_found (s : fs) (d k : nat) (t : IType) : outcome (fs * option nat) :=
  '(s1, i) ← lock sb s k;
  if decide (t = TFile ∧ (itype i = TFile ∨ itype i = TDevice)) then
    s2 ← put sb s1 d; Done (s2, Some k)
  else s2 ← put sb s1 k; s3 ← put sb s2 d; Done (s3, None).

(** The two entries of a new directory. *)
Definition create_dots (s : fs) (i : IData) (num dnum : Z) : outcome (fs * IData * result unit string) :=
  '(s1, i1, r) ← dirlink sb s i DOT num;
  match r with
  | Err e => Done (s1, i1, Err e)
  | Ok _ => dirlink sb s1 i1 DOTDOT dnum
  end.

Definition create (s : fs) (path : list Z) (t : IType) (mj mn : Z) : outcome (fs * option nat) :=
  '(s1, r) ← nameiparent s path;
  match r with
  | None => Done (s1, None)
  | Some (name, d) =>
      '(s2, di) ← lock sb s1 d;
      '(s3, found) ← lookup_at s2 d di name;
      match found with
      | Some (_, k) => create_found s3 d k t
      | None =>
          md ← minode s3 d;
          '(s4, r) ← alloc sb s3 (m_dev md) t;
          match r with
          | None => s5 ← put sb s4 d; Done (s5, None)
          | Some k =>
              '(s5, i) ← lock sb s4 k;
              mk ← minode s5 k;
              let i1 := mkI (idev i) (inum i) (ivalid i) (itype i) (from_u16 mj) mn (nlink i) (isize i) (addrs i) in
              s6 ← update sb s5 i1;
              '(s7, i2, r) ← (if decide (t = TDir) then create_dots s6 i1 (m_inum mk) (m_inum md)
                              else Done (s6, i1, Ok tt));
              match r with
              | Err _ => s8 ← set_data s7 k i2; s9 ← put sb s8 k; s10 ← put sb s9 d; Done (s10, None)
              | Ok _ =>
                  '(s8, di1, r) ← dirlink sb s7 (m_data md) name (m_inum mk);
                  s9 ← set_data s8 d di1;
                  match r with
                  | Err _ => s10 ← set_data s9 k i2; s11 ← put sb s10 k; s12 ← put sb s11 d; Done (s12, None)
                  | Ok _ =>
                      '(s10, di2) ← (if decide (t = TDir) then
                                       nl ← checked_add16 (nlink di1) 1;
                                       let di2 := set_nlink nl di1 in
                                       s10 ← update sb s9 di2; Done (s10, di2)
                                     else Done (s9, di1));
                      s11 ← set_data s10 d di2;
                      let i3 := set_nlink 1 i2 in
                      s12 ← update sb s11 i3;
                      s13 ← set_data s12 k i3;
                      s14 ← put sb s13 d;
                      Done (s14, Some k)
                  end
              end
          end
      end
  end.
End names.

(** [fs::init]: the superblock is block 1. *)
Definition decode_super (x : list Z) : SuperBlock :=
  let w i := get_word x i in mkSB (w 0) (w 1) (w 2) (w 3) (w 4) (w 5) (w 6) (w 7).
Definition fs_init (s : fs) : outcome SuperBlock :=
  let sb := decode_super (blocks s 1) in
  if decide (magic sb ≠ FSMAGIC) then _ ← Log.init; Done sb
  else Panic "invalid file system".
