(* ===== verification/FsSpec.v ===== *)
(** * Properties of the file system

    Inodes survive the disk, the block map is stable, reads of aligned ranges
    return the bytes of the file, lookups that go past the second entry of a
    directory panic, and paths are taken apart into their elements. *)

From S2P Require Import Prelude Log LogSpec Fs.

Open Scope Z_scope.

(** ** Parts of a block *)
Lemma length_splice l off x : (off + length x ≤ length l)%nat → length (splice l off x) = length l.
Proof. intros H. unfold splice. rewrite !length_app, length_take, length_drop. lia. Qed.

Lemma splice_same l off x n :
  (off + length x ≤ length l)%nat → n = length x → take n (drop off (splice l off x)) = x.
Proof.
  intros H ->. unfold splice. rewrite drop_app_length' by (rewrite length_take; lia).
  by rewrite take_app_length.
Qed.

Lemma splice_other l off x off' n :
  (off + length x ≤ length l)%nat → (off' + n ≤ off ∨ off + length x ≤ off')%nat →
  take n (drop off' (splice l off x)) = take n (drop off' l).
Proof.
  intros H Hd. apply list_eq. intros j. destruct (decide (j < n)%nat).
  2: { rewrite !lookup_take_ge by lia. done. }
  rewrite !lookup_take_lt, !lookup_drop by lia. unfold splice. destruct Hd.
  - rewrite lookup_app_l by (rewrite length_take; lia). rewrite lookup_take_lt by lia. done.
  - rewrite lookup_app_r, length_take, lookup_app_r by (rewrite ?length_take; lia).
    rewrite lookup_drop. f_equal. lia.
Qed.

Lemma get_set_word l i v :
  0 ≤ i → 4 * i + 4 ≤ Z.of_nat (length l) → 0 ≤ v < 4294967296 → get_word (set_word l i v) i = v.
Proof.
  intros Hi Hl Hv. unfold get_word, set_word.
  rewrite splice_same by (rewrite ?length_le_bytes; lia). by rewrite le_val_bytes.
Qed.

(** ** Inodes on disk *)
Record dinode_ok (i : IData) : Prop := {
  k_minor : 0 ≤ minor i < 65536;
  k_nlink : 0 ≤ nlink i < 65536;
  k_size : 0 ≤ isize i < 4294967296;
  k_len : length (addrs i) = 13%nat;
  k_addrs : Forall word_ok (addrs i);
}.

Lemma length_encode_dinode i : length (addrs i) = 13%nat → length (encode_dinode i) = 64%nat.
Proof. intros H. unfold encode_dinode. by rewrite !length_app, !length_le_bytes, length_encode_words, H. Qed.

Lemma itype_code_of t : itype_of (itype_code t) = t.
Proof. by destruct t. Qed.
Lemma major_code_of m : major_of (major_code m) = m.
Proof. by destruct m. Qed.

(** Reading a little-endian field off the front of a byte sequence. *)
Lemma take_le k v r : 0 ≤ v < 256 ^ Z.of_nat k → le_val (take k (le_bytes k v ++ r)) = v.
Proof. intros Hv. rewrite take_app_length' by (by rewrite length_le_bytes). by apply le_val_bytes. Qed.
Lemma drop_le k j v r : drop (k + j) (le_bytes k v ++ r) = drop j r.
Proof. rewrite <-drop_drop. by rewrite drop_app_length' by (by rewrite length_le_bytes). Qed.

(** Skips to the fields of an inode at offsets 2, 4, 6, 8 and 12. *)
Ltac drop_fields :=
  change 12%nat with (2 + (2 + (2 + (2 + (4 + 0)))))%nat; change 8%nat with (2 + (2 + (2 + (2 + 0))))%nat;
  change 6%nat with (2 + (2 + (2 + 0)))%nat; rewrite !drop_le, !drop_0;
  change (drop 4) with (@drop Z (2 + (2 + 0))); rewrite !drop_le, !drop_0;
  change (drop 2) with (@drop Z (2 + 0)); rewrite !drop_le, !drop_0.

Lemma decode_encode_dinode i :
  dinode_ok i →
  decode_dinode (idev i) (inum i) (encode_dinode i) =
    mkI (idev i) (inum i) true (itype i) (major i) (minor i) (nlink i) (isize i) (addrs i).
Proof.
  intros [H1 H2 H3 H4 H5]. unfold decode_dinode, encode_dinode. rewrite <-H4.
  drop_fields.
  rewrite !take_le by (cbn; lia || destruct (itype i); cbn; lia || destruct (major i); cbn; lia).
  rewrite itype_code_of, major_code_of. f_equal. rewrite <-(app_nil_r (encode_words (addrs i))).
  by apply decode_encode_words.
Qed.

(** The log does not change what the blocks hold. *)
Lemma log_write_blocks s b s' : log_write s b = Done s' → blocks s' = blocks s ∧ itable s' = itable s.
Proof. unfold log_write. intros H. apply bind_Done_inv in H as ([l k] & _ & [= <-]). done. Qed.

Lemma bupd_eq d b x : bupd d b x b = x.
Proof. unfold bupd. by rewrite decide_True. Qed.
Lemma bupd_ne d b x c : c ≠ b → bupd d b x c = d c.
Proof. intros H. unfold bupd. by rewrite decide_False. Qed.

Lemma update_blocks sb s i s' :
  update sb s i = Done s' →
  ∃ bb, iblock sb (inum i) = Done bb ∧
    blocks s' = bupd (blocks s) bb (splice (blocks s bb) (dinode_off (inum i)) (encode_dinode i)).
Proof.
  unfold update. intros H. apply bind_Done_inv in H as (bb & Hbb & H).
  apply log_write_blocks in H as [H _]. by exists bb.
Qed.

Lemma dinode_off_range num : 0 ≤ num → (dinode_off num + 64 ≤ 1024)%nat.
Proof.
  intros H. unfold dinode_off, IPB, SIZEOF_DINODE. change (1024 / 64) with 16.
  pose proof (Z.mod_pos_bound num 16). lia.
Qed.

Lemma dinode_off_apart num num' :
  0 ≤ num → 0 ≤ num' → num / IPB = num' / IPB → num ≠ num' →
  (dinode_off num + 64 ≤ dinode_off num' ∨ dinode_off num' + 64 ≤ dinode_off num)%nat.
Proof.
  intros H H' Hd Hne. unfold dinode_off, IPB, SIZEOF_DINODE in *. change (1024 / 64) with 16 in *.
  assert (num `mod` 16 ≠ num' `mod` 16) by zdm.
  pose proof (Z.mod_pos_bound num 16). pose proof (Z.mod_pos_bound num' 16). lia.
Qed.

(** C33. Inodes survive the disk.  After [update] of an inode, reading it back
    with [MInode::lock] gives the same type, device numbers, links, size and
    block addresses, and every other inode, in the same block or elsewhere,
    reads as before. *)
Theorem inode_update_lock sb s s' i
  (Hi : dinode_ok i) (Hnum : 0 ≤ inum i) (Htype : itype i ≠ TNone)
  (Hlen : ∀ b, length (blocks s b) = 1024%nat) (Hu : update sb s i = Done s') :
  (∀ c, ivalid c = false → ilock sb s' (idev i) (inum i) c =
     Done (mkI (idev i) (inum i) true (itype i) (major i) (minor i) (nlink i) (isize i) (addrs i))) ∧
  (∀ dev num c, 0 ≤ num → num ≠ inum i → ilock sb s' dev num c = ilock sb s dev num c) ∧
  (∀ b, length (blocks s' b) = 1024%nat).
Proof.
  apply update_blocks in Hu as (bb & Hbb & Hbl).
  pose proof (length_encode_dinode i (k_len _ Hi)) as He. pose proof (dinode_off_range _ Hnum) as Ho.
  split_and!.
  - intros c Hc. unfold ilock. rewrite Hc, Hbb. cbn [mbind outcome_bind]. rewrite Hbl, bupd_eq.
    rewrite splice_same by (rewrite ?He, ?Hlen; done). rewrite decode_encode_dinode by done.
    cbn [itype]. by rewrite decide_False.
  - intros dev num c Hn Hne. unfold ilock. destruct (ivalid c); [done|].
    destruct (iblock sb num) as [b| |] eqn:Eb; [|done|done]. cbn [mbind outcome_bind].
    destruct (decide (b = bb)) as [->|Hb]; [|by rewrite Hbl, bupd_ne].
    rewrite Hbl, bupd_eq, splice_other; [done|rewrite He, Hlen; done|]. rewrite He.
    assert (Hd : num / IPB = inum i / IPB).
    { unfold iblock, checked_add32 in Eb, Hbb. repeat case_decide; simplify_eq. lia. }
    pose proof (dinode_off_apart num (inum i) Hn Hnum Hd Hne). change (Z.to_nat SIZEOF_DINODE) with 64%nat. lia.
  - intros b. rewrite Hbl. destruct (decide (b = bb)) as [->|Hb]; [|by rewrite bupd_ne].
    rewrite bupd_eq, length_splice; [done|]. by rewrite He, Hlen.
Qed.

(** A disk of zeros, an idle log with an operation in progress, and an inode. *)
Definition demo_log : Log := mkLog 2 30 1 1 false (mkHead 0 (replicate 30 0)).
Definition demo_sb : SuperBlock := mkSB FSMAGIC 1000 900 200 30 2 32 45.
Definition demo_fs : fs := mkFs (λ _, replicate 1024 0) demo_log (replicate NINODE None).
Definition demo_inode : IData := mkI 1 5 true TFile MNull 0 1 2048 ([100; 101] ++ replicate 11 0).

Lemma demo_inode_ok : dinode_ok demo_inode.
Proof. split; try (cbn; lia). cbn. repeat (constructor; [unfold word_ok; lia|]). constructor. Qed.

Lemma inode_update_lock_witness :
  ∃ s', update demo_sb demo_fs demo_inode = Done s' ∧
  (∀ c, ivalid c = false → ilock demo_sb s' 1 5 c = Done demo_inode) ∧
  (∀ dev num c, 0 ≤ num → num ≠ 5 → ilock demo_sb s' dev num c = ilock demo_sb demo_fs dev num c) ∧
  (∀ b, length (blocks s' b) = 1024%nat).
Proof.
  destruct (update demo_sb demo_fs demo_inode) as [s'|m|a] eqn:E; [|by vm_compute in E|by vm_compute in E].
  exists s'. split; [done|].
  apply (inode_update_lock demo_sb demo_fs s' demo_inode demo_inode_ok);
    [cbn; lia|done|intros b; apply length_replicate|exact E].
Defined.

(** ** The block map *)
Definition full_blocks (s : fs) : Prop := ∀ b, length (blocks s b) = 1024%nat.

Lemma full_set s b x : full_blocks s → length x = 1024%nat → full_blocks (set_block s b x).
Proof.
  intros Hs Hx c. cbn. destruct (decide (c = b)) as [->|]; [by rewrite bupd_eq|by rewrite bupd_ne].
Qed.

Lemma full_log s b s' : full_blocks s → log_write s b = Done s' → full_blocks s'.
Proof. intros Hs [H _]%log_write_blocks c. rewrite H. apply Hs. Qed.

Lemma balloc_scan_ok sb k s bb b bi s' r :
  full_blocks s → 0 ≤ b + bi → balloc_scan sb k s bb b bi = Done (s', r) →
  full_blocks s' ∧ ∀ a, r = Some a → 0 < a ≤ sb_size sb.
Proof.
  intros Hs. revert bi. induction k as [|k IH]; intros bi Hb; cbn [balloc_scan];
    (destruct (decide (bi < BPB ∧ b + bi < sb_size sb)) as [Hd|]; [|by intros [= <- <-]]); [done|].
  cbn zeta. intros H. apply bind_Done_inv in H as (x & _ & H).
  destruct (Z.land x _ =? 0); [|eapply IH; [|exact H]; lia].
  apply bind_Done_inv in H as (s1 & H1 & H). apply bind_Done_inv in H as (s2 & H2 & H).
  injection H as <- <-. split; [|intros a [= <-]; lia].
  eapply full_log; [|exact H2]. apply full_set; [|apply length_replicate].
  eapply full_log; [|exact H1]. apply full_set; [done|]. by rewrite length_insert.
Qed.

Lemma balloc_ok sb s s' a :
  full_blocks s → balloc sb s = Done (s', a) → full_blocks s' ∧ 0 < a ≤ sb_size sb.
Proof.
  unfold balloc. generalize (Z.to_nat ((sb_size sb + BPB - 1) / BPB)) as k.
  assert (H : ∀ k b s, full_blocks s → 0 ≤ b → balloc_loop sb k s b = Done (s', a) →
    full_blocks s' ∧ 0 < a ≤ sb_size sb).
  { induction k as [|k IH]; intros b s0 Hs Hb; cbn [balloc_loop]; [done|]. intros H.
    apply bind_Done_inv in H as (bb & _ & H). apply bind_Done_inv in H as ([s1 r] & H1 & H).
    destruct (balloc_scan_ok sb _ s0 bb b 0 s1 r Hs ltac:(lia) H1) as [Hs1 Ha].
    destruct r as [a1|]; [injection H as <- <-; auto|]. eapply IH; [exact Hs1| |exact H]. unfold BPB. lia. }
  intros k Hs. apply (H k 0 s Hs). lia.
Qed.

(** The address of block [bn] of a file, if it has one. *)
Definition block_of (s : fs) (i : IData) (bn : Z) : option Z :=
  if decide (bn < NDIRECT) then
    match addrs i !! Z.to_nat bn with Some a => if decide (a = 0) then None else Some a | None => None end
  else if decide (bn < MAXFILE) then
    match addrs i !! Z.to_nat NDIRECT with
    | Some ind => if decide (ind = 0) then None else
        let w := get_word (blocks s ind) (bn - NDIRECT) in if decide (w = 0) then None else Some w
    | None => None
    end
  else None.

Lemma bmap_hit sb s i bn a : 0 ≤ bn → block_of s i bn = Some a → bmap sb s i bn = Done (s, i, Ok a).
Proof.
  intros Hbn. unfold block_of, bmap. destruct (decide (bn < NDIRECT)).
  - destruct (addrs i !! Z.to_nat bn) as [v|] eqn:E; [|done]. destruct (decide (v = 0)) eqn:Ev; [done|].
    intros [= <-]. rewrite (index_ok _ _ v) by done. cbn [mbind outcome_bind]. by rewrite Ev.
  - destruct (decide (bn < MAXFILE)) as [H|]; [|done].
    destruct (addrs i !! Z.to_nat NDIRECT) as [v|] eqn:E; [|done]. destruct (decide (v = 0)) eqn:Ev; [done|].
    cbn zeta. destruct (decide (get_word (blocks s v) (bn - NDIRECT) = 0)) eqn:Ew; [done|]. intros [= <-].
    rewrite decide_True by (change MAXFILE with 268 in H; change NDIRECT with 12; change NINDIRECT with 256; lia).
    rewrite (index_ok _ _ v) by done. cbn [mbind outcome_bind]. rewrite Ev. cbn [mbind outcome_bind]. by rewrite Ew.
Qed.

(** Filling an empty address of the inode. *)
Definition keeps (i i' : IData) : Prop :=
  length (addrs i') = 13%nat ∧ ∀ j v, addrs i !! j = Some v → v ≠ 0 → addrs i' !! j = Some v.

Lemma keeps_fill i (k : nat) a :
  length (addrs i) = 13%nat → addrs i !! k = Some 0 →
  keeps i (set_addrs (<[k := a]> (addrs i)) i) ∧ (<[k := a]> (addrs i)) !! k = Some a.
Proof.
  intros Hl Hk. pose proof (lookup_lt_Some _ _ _ Hk). split; [|by apply list_lookup_insert_eq].
  split; cbn; [by rewrite length_insert|]. intros j w Hj Hw. rewrite lookup_upd by done.
  destruct (decide (j = k)) as [->|]; [congruence|done].
Qed.

Lemma bmap_direct sb s i bn s' i' r :
  full_blocks s → 0 ≤ bn < NDIRECT → length (addrs i) = 13%nat → bmap sb s i bn = Done (s', i', r) →
  ∃ a, r = Ok a ∧ block_of s' i' bn = Some a ∧ full_blocks s' ∧ keeps i i'.
Proof.
  intros Hs Hbn Hl. unfold bmap, block_of. rewrite !decide_True by lia. intros Hb.
  apply bind_Done_inv in Hb as (v & Hv & Hb). apply index_inv in Hv as [_ Hv].
  destruct (decide (v = 0)) as [->|Hv0].
  - apply bind_Done_inv in Hb as ([s1 a] & Ha & Hb). injection Hb as <- <- <-.
    destruct (balloc_ok _ _ _ _ Hs Ha) as [Hs1 Hap].
    destruct (keeps_fill i (Z.to_nat bn) a Hl Hv) as [Hk He]. exists a. cbn [addrs set_addrs]. rewrite He.
    rewrite decide_False by lia. done.
  - injection Hb as <- <- <-. exists v. rewrite Hv, decide_False by done. split_and!; [done|done|done|by split].
Qed.

Lemma bmap_indirect sb s i bn s' i' r :
  full_blocks s → sb_size sb < u32_mod → NDIRECT ≤ bn < MAXFILE → length (addrs i) = 13%nat →
  bmap sb s i bn = Done (s', i', r) →
  ∃ a, r = Ok a ∧ block_of s' i' bn = Some a ∧ full_blocks s' ∧ keeps i i'.
Proof.
  intros Hs Hsz Hbn Hl. unfold bmap, block_of. rewrite !(decide_False (P := bn < NDIRECT)) by lia.
  rewrite (decide_True (P := bn < MAXFILE)) by lia. cbn zeta.
  assert (Hn : 0 ≤ bn - NDIRECT < NINDIRECT)
    by (change MAXFILE with 268 in *; change NDIRECT with 12 in *; change NINDIRECT with 256; lia).
  rewrite decide_True by lia. intros Hb.
  apply bind_Done_inv in Hb as (v & Hv & Hb). apply index_inv in Hv as [_ Hv].
  apply bind_Done_inv in Hb as ([[s1 i1] ind] & Hind & Hb).
  assert (H1 : full_blocks s1 ∧ ind ≠ 0 ∧ addrs i1 !! Z.to_nat NDIRECT = Some ind ∧ keeps i i1).
  { destruct (decide (v = 0)) as [->|Hv0]; [|by injection Hind as <- <- <-].
    apply bind_Done_inv in Hind as ([s2 a] & Ha & Hind). injection Hind as <- <- <-.
    destruct (balloc_ok _ _ _ _ Hs Ha) as [Hs1 Hap]. destruct (keeps_fill i _ a Hl Hv) as [Hk He].
    split_and!; [done|lia|done|done]. }
  destruct H1 as (Hs1 & Hind0 & Hi1 & Hk).
  destruct (decide (get_word (blocks s1 ind) (bn - NDIRECT) = 0)) as [Hw|Hw].
  - apply bind_Done_inv in Hb as ([s2 a] & Ha & Hb). apply bind_Done_inv in Hb as (s3 & H3 & Hb).
    injection Hb as <- <- <-. destruct (balloc_ok _ _ _ _ Hs1 Ha) as [Hs2 Hap]. exists a.
    assert (Hlw : length (set_word (blocks s2 ind) (bn - NDIRECT) a) = 1024%nat).
    { unfold set_word. rewrite length_splice; [apply Hs2|].
      rewrite length_le_bytes, Hs2. change NINDIRECT with 256 in Hn. lia. }
    rewrite Hi1, decide_False by done. destruct (log_write_blocks _ _ _ H3) as [-> _]. cbn [blocks set_block].
    rewrite bupd_eq, get_set_word by (try rewrite Hs2; change NINDIRECT with 256 in Hn; lia).
    rewrite decide_False by lia. split_and!; [done|done| |done].
    eapply full_log; [|exact H3]. by apply full_set.
  - injection Hb as <- <- <-. eexists. split; [done|]. rewrite Hi1, decide_False by done.
    rewrite decide_False by done. done.
Qed.

(** The block map of an inode is stable.  Beyond [MAXFILE] blocks [bmap]
    reports an error.  When it returns an address, allocating the data block
    and the indirect block where they were missing, a second call returns the
    same address and allocates nothing, and no address the inode had is
    changed. *)
Theorem bmap_stable sb s i bn s' i' r
  (Hs : full_blocks s) (Hsize : sb_size sb < u32_mod) (Hbn : 0 ≤ bn)
  (Haddr : length (addrs i) = 13%nat) (Hb : bmap sb s i bn = Done (s', i', r)) :
  match r with
  | Err _ => MAXFILE ≤ bn ∧ s' = s ∧ i' = i
  | Ok a => bn < MAXFILE ∧ block_of s' i' bn = Some a ∧ bmap sb s' i' bn = Done (s', i', Ok a) ∧
      full_blocks s' ∧ keeps i i'
  end.
Proof.
  destruct (decide (bn < MAXFILE)) as [HM|HM].
  - assert (H : ∃ a, r = Ok a ∧ block_of s' i' bn = Some a ∧ full_blocks s' ∧ keeps i i').
    { destruct (decide (bn < NDIRECT)); [by eapply bmap_direct|]. eapply bmap_indirect; eauto. lia. }
    destruct H as (a & -> & Ha & Hs' & Hk). split_and!; [done|done|by apply bmap_hit|done|exact Hk].
  - unfold bmap in Hb. rewrite !decide_False in Hb
      by (change MAXFILE with 268 in *; change NDIRECT with 12; change NINDIRECT with 256; lia).
    injection Hb as <- <- <-. split_and!; [lia|done|done].
Qed.

Lemma bmap_stable_witness :
  match bmap demo_sb demo_fs demo_inode 20 with
  | Done (s', i', Ok a) => 20 < MAXFILE ∧ block_of s' i' 20 = Some a ∧ bmap demo_sb s' i' 20 = Done (s', i', Ok a) ∧
      full_blocks s' ∧ keeps demo_inode i'
  | _ => False
  end.
Proof.
  assert (Hs : full_blocks demo_fs) by (intros b; apply length_replicate).
  destruct (bmap demo_sb demo_fs demo_inode 20) as [[[s' i'] r]|m|a] eqn:E; [|by vm_compute in E|by vm_compute in E].
  destruct r as [a|e]; [|by vm_compute in E].
  apply (bmap_stable demo_sb demo_fs demo_inode 20 s' i' (Ok a) Hs); [done|lia|reflexivity|exact E].
Defined.

(** ** Reading *)
Definition file_byte (s : fs) (i : IData) (p : Z) : option Z :=
  match block_of s i (p / 1024) with Some a => blocks s a !! Z.to_nat (p `mod` 1024) | None => None end.

(** The byte that the pieces of a read put at address [a]. *)
Fixpoint out_byte (out : list (Z * list Z)) (a : Z) : option Z :=
  match out with
  | [] => None
  | (d, c) :: r => if decide (d ≤ a < d + Z.of_nat (length c)) then c !! Z.to_nat (a - d) else out_byte r a
  end.

(** The pieces follow each other from [a] to [e]. *)
Fixpoint contig (a e : Z) (out : list (Z * list Z)) : Prop :=
  match out with
  | [] => a = e
  | (d, c) :: r => d = a ∧ contig (a + Z.of_nat (length c)) e r
  end.

Lemma read_round copyout sb k s i dst off n tot out a :
  full_blocks s → tot < n → 0 ≤ off → off / 1024 < u32_mod → off `mod` 1024 = 0 →
  block_of s i (off / 1024) = Some a → (∀ d c, copyout d c = true) →
  let m := Z.min (n - tot) 1024 in dst + m < usize_mod →
  read_loop sb copyout (S k) s i dst off n tot out =
    read_loop sb copyout k s i (dst + m) (off + m) n (tot + m) (out ++ [(dst, take (Z.to_nat m) (blocks s a))]).
Proof.
  intros Hs Ht Ho Hu Hal Ha Hc m Hm. cbn [read_loop]. rewrite decide_True by done.
  assert (Hd : 0 ≤ off / 1024) by zdm. unfold as_u32. rewrite (Z.mod_small (off / 1024)) by lia.
  rewrite (bmap_hit sb s i _ a) by done. cbn [mbind outcome_bind].
  rewrite Hal, Z.sub_0_r. fold m. unfold slice. rewrite decide_True by (unfold m; lia).
  rewrite decide_True by (rewrite Hs; unfold m; lia). cbn [mbind outcome_bind]. rewrite Hc.
  rewrite checked_add_ok by done. cbn [mbind outcome_bind]. by rewrite Z.sub_0_r, drop_0.
Qed.

Lemma read_loop_aligned copyout sb s i dst off n k tot out :
  full_blocks s → (∀ d c, copyout d c = true) → 0 ≤ off → off + n < 4294967296 → dst + n < usize_mod →
  (∀ p, off ≤ p < off + n → block_of s i (p / 1024) ≠ None) →
  0 ≤ tot ≤ n → ((off + tot) `mod` 1024 = 0 ∨ tot = n) → (Z.to_nat (n - tot) ≤ k)%nat →
  ∃ out', read_loop sb copyout k s i (dst + tot) (off + tot) n tot out = Done (s, i, out ++ out', Ok n) ∧
    contig (dst + tot) (dst + n) out' ∧ ∀ j, tot ≤ j < n → out_byte out' (dst + j) = file_byte s i (off + j).
Proof.
  intros Hs Hc Ho Hmax Hdst Hmap. revert tot out. induction k as [|k IH]; intros tot out Ht Hal Hk.
  { exists []. rewrite app_nil_r. assert (tot = n) as -> by lia. cbn [read_loop].
    rewrite decide_False by lia. split_and!; [done|done|lia]. }
  destruct (decide (tot < n)) as [Hlt|Hge].
  2: { exists []. rewrite app_nil_r. assert (tot = n) as -> by lia. cbn [read_loop].
       rewrite decide_False by lia. split_and!; [done|done|lia]. }
  destruct Hal as [Hal|]; [|lia].
  destruct (block_of s i ((off + tot) / 1024)) as [a|] eqn:Ea; [|by destruct (Hmap (off + tot) ltac:(lia))].
  rewrite (read_round copyout sb k s i _ _ n tot out a) by (done || lia || zdm).
  set (m := Z.min (n - tot) 1024). rewrite <-!Z.add_assoc.
  destruct (IH (tot + m) (out ++ [(dst + tot, take (Z.to_nat m) (blocks s a))])) as (out' & -> & Hcon & Hout');
    [lia|unfold m; zdm|unfold m; lia|].
  exists ((dst + tot, take (Z.to_nat m) (blocks s a)) :: out'). split_and!; [by rewrite <-app_assoc|..].
  { cbn [contig]. split; [done|]. rewrite length_take, Hs.
    replace (dst + tot + Z.of_nat (Z.to_nat m `min` 1024)) with (dst + (tot + m)) by (unfold m in *; lia). done. }
  intros j Hj. cbn [out_byte]. rewrite length_take, Hs.
  destruct (decide (j < tot + m)) as [Hjm|Hjm].
  - rewrite decide_True by (unfold m in *; lia). unfold file_byte.
    replace ((off + j) / 1024) with ((off + tot) / 1024) by (unfold m in *; zdm). rewrite Ea.
    rewrite lookup_take_lt by lia. f_equal. unfold m in *. zdm.
  - rewrite decide_False by (unfold m in *; lia). apply Hout'. lia.
Qed.

Lemma read_pieces sb copyout s i dst off n
  (Hs : full_blocks s) (Hc : ∀ d c, copyout d c = true) (Hoff : 0 ≤ off ≤ isize i) (Hal : off `mod` 1024 = 0)
  (Hn : 0 ≤ n) (Hov : off + n < usize_mod) (Hdst : dst + n < usize_mod) (Hsize : isize i < 4294967296)
  (Hmap : ∀ p, off ≤ p < isize i → block_of s i (p / 1024) ≠ None) :
  let k := Z.min n (isize i - off) in
  ∃ out, read sb copyout s i dst off n = Done (s, i, out, Ok k) ∧ contig dst (dst + k) out ∧
    ∀ j, 0 ≤ j < k → out_byte out (dst + j) = file_byte s i (off + j).
Proof.
  intros k. unfold read. rewrite decide_False by lia. rewrite checked_add_ok by done. cbn [mbind outcome_bind].
  replace (if decide (isize i < off + n) then isize i - off else n) with k
    by (unfold k; destruct (decide (isize i < off + n)); lia).
  destruct (read_loop_aligned copyout sb s i dst off k (Z.to_nat k) 0 []) as (out & Hrun & Hcon & Hout);
    [done|done|lia|unfold k; lia|unfold k; lia|intros p Hp; apply Hmap; unfold k in *; lia|unfold k; lia|
     left; by rewrite Z.add_0_r|lia|].
  rewrite !Z.add_0_r in *. exists out. split_and!; [exact Hrun|exact Hcon|done].
Qed.

(** Reading from a block boundary is exact: with every block of the range
    present, [read] returns the number of bytes asked for, cut off at the end
    of the file, leaves inode and disk alone, and puts at [dst + j] the byte
    [off + j] of the file, for each [j] below that number. *)
Theorem read_aligned sb copyout s i dst off n
  (Hs : full_blocks s) (Hc : ∀ d c, copyout d c = true) (Hoff : 0 ≤ off ≤ isize i) (Hal : off `mod` 1024 = 0)
  (Hn : 0 ≤ n) (Hov : off + n < usize_mod) (Hdst : dst + n < usize_mod) (Hsize : isize i < 4294967296)
  (Hmap : ∀ p, off ≤ p < isize i → block_of s i (p / 1024) ≠ None) :
  ∃ out, read sb copyout s i dst off n = Done (s, i, out, Ok (Z.min n (isize i - off))) ∧
    ∀ j, 0 ≤ j < Z.min n (isize i - off) → out_byte out (dst + j) = file_byte s i (off + j).
Proof.
  destruct (read_pieces sb copyout s i dst off n) as (out & Hrun & _ & Hout); [done..|]. eauto.
Qed.

Lemma read_aligned_witness :
  ∃ out, read demo_sb kernel_copyout demo_fs demo_inode 0 1024 5000 = Done (demo_fs, demo_inode, out, Ok (Z.min 5000 (2048 - 1024))) ∧
    ∀ j, 0 ≤ j < Z.min 5000 (2048 - 1024) → out_byte out (0 + j) = file_byte demo_fs demo_inode (1024 + j).
Proof.
  apply (read_aligned demo_sb kernel_copyout demo_fs demo_inode 0 1024 5000);
    [intros b; apply length_replicate|done|cbn; lia|done|lia|lia|lia|cbn; lia|].
  intros p Hp. change (isize demo_inode) with 2048 in Hp.
  assert (p / 1024 = 1) as -> by zdm. vm_compute. congruence.
Defined.

(** ** Directories *)

Lemma read_loop_end copyout sb k s i dst off n tot out :
  n ≤ tot → read_loop sb copyout k s i dst off n tot out = Done (s, i, out, Ok tot).
Proof. intros H. destruct k; cbn [read_loop]; by rewrite decide_False by lia. Qed.

(** Reading entry [off / 16] of the first block into [de].  The slice that
    [read] copies ends at the length of the entry, not at its end in the
    block: the second entry is read as nothing, the later ones panic. *)
Lemma read_entry sb s i de off a :
  full_blocks s → 0 ≤ off → off + 16 ≤ 1024 → off + 16 ≤ isize i → block_of s i 0 = Some a →
  read_de sb s i de off =
    if decide (off ≤ 16) then
      Done (s, i, splice de 0 (take (Z.to_nat (16 - off)) (drop (Z.to_nat off) (blocks s a))), Ok 16)
    else Panic "slice index starts after its end".
Proof.
  intros Hs H0 H1 H2 Ha. unfold read_de, read. rewrite decide_False by lia.
  change SIZEOF_DIRENT with 16. rewrite checked_add_ok by lia. cbn [mbind outcome_bind].
  rewrite decide_False by lia. change (Z.to_nat 16) with (S 15) at 1. generalize 15%nat as k. intros k. cbn [read_loop].
  rewrite decide_True by lia. assert (Hd : off / 1024 = 0) by zdm. rewrite Hd.
  change (as_u32 0) with 0. rewrite (bmap_hit sb s i 0 a) by done. cbn [mbind outcome_bind].
  assert (Hm : off `mod` 1024 = off) by zdm. rewrite Hm.
  replace (Z.min (16 - 0) (1024 - off)) with 16 by lia.
  unfold slice. destruct (decide (off ≤ 16)) as [Hle|]; [|done].
  rewrite decide_True by (rewrite Hs; lia). cbn [mbind outcome_bind kernel_copyout].
  rewrite checked_add_ok by lia. cbn [mbind outcome_bind]. by rewrite read_loop_end by lia.
Qed.

(** Whether the bytes [de] of an entry stop a lookup of [name]. *)
Definition passes (name de : list Z) : Prop :=
  de_inum de = 0 ∨ (utf8 (de_name de) = true ∧ name ≠ trim_matches 0 (de_name de)).

Lemma dirlookup_pass sb k s i name de off de1 :
  read_de sb s i de off = Done (s, i, de1, Ok 16) → passes name de1 →
  dirlookup_loop sb (S k) s i name de off = dirlookup_loop sb k s i name de1 (off + SIZEOF_DIRENT).
Proof.
  intros Hr Hp. cbn [dirlookup_loop]. rewrite Hr. cbn [mbind outcome_bind].
  destruct (decide (de_inum de1 = 0)); [done|]. destruct Hp as [|[-> Hn]]; [done|]. by rewrite decide_False.
Qed.

(** A lookup reaches two entries of a directory at most.  In a directory
    of three entries or more whose first entry does not match the name,
    [dirlookup] panics, whatever the other entries are: the range it slices
    out of the block is empty for the second entry and ill-formed for the
    third. *)
Theorem dirlookup_third_entry_panics sb s i name a
  (Hs : full_blocks s) (Hdir : itype i = TDir) (Hsize : 48 ≤ isize i) (Ha : block_of s i 0 = Some a)
  (Hfirst : passes name (take 16 (blocks s a))) :
  dirlookup sb s i name = Panic "slice index starts after its end".
Proof.
  unfold dirlookup. rewrite decide_True by done.
  assert (He : ∃ k, entries 0 (isize i) = S (S (S k))).
  { exists (entries 0 (isize i) - 3)%nat. unfold entries, SIZEOF_DIRENT.
    assert (3 ≤ (isize i - 0 + 16 - 1) / 16) by zdm. lia. }
  destruct He as [k ->].
  set (d := take 16 (blocks s a)) in *. assert (Hd : length d = 16%nat) by (unfold d; rewrite length_take, Hs; done).
  rewrite (dirlookup_pass sb _ s i name de_new 0 d); [|rewrite (read_entry sb s i _ 0 a) by (done || lia)|done].
  2: { rewrite decide_True by lia. change (Z.to_nat (16 - 0)) with 16%nat. change (Z.to_nat 0) with 0%nat.
       rewrite drop_0. fold d. unfold splice. rewrite Hd. cbn. by rewrite app_nil_r. }
  change (0 + SIZEOF_DIRENT) with 16.
  rewrite (dirlookup_pass sb _ s i name d 16 d); [|rewrite (read_entry sb s i _ 16 a) by (done || lia)|done].
  2: { by rewrite decide_True by lia. }
  change (16 + SIZEOF_DIRENT) with 32. cbn [dirlookup_loop].
  rewrite (read_entry sb s i _ 32 a) by (done || lia). by rewrite decide_False by lia.
Qed.

Definition demo_dir : IData := mkI 1 1 true TDir MNull 0 1 48 (100 :: replicate 12 0).

Lemma dirlookup_third_entry_panics_witness :
  dirlookup demo_sb demo_fs demo_dir [105; 110; 105; 116] = Panic "slice index starts after its end".
Proof.
  apply (dirlookup_third_entry_panics demo_sb demo_fs demo_dir [105; 110; 105; 116] 100);
    [intros b; apply length_replicate|done|cbn; lia|reflexivity|left; reflexivity].
Defined.

(** ** Paths *)
Fixpoint join (cs : list (list Z)) : list Z :=
  match cs with
  | [] => []
  | c :: [] => c
  | c :: r => c ++ SLASH :: join r
  end.

(** An element of a path. *)
Definition elem_ok (c : list Z) : Prop := c ≠ [] ∧ (SLASH ∉ c) ∧ (length c < DIRSIZ)%nat.

(** The names that [namex] looks up one after the other; [None] when it gives
    up on the path. *)
Fixpoint elems (fuel : nat) (p : list Z) : option (list (list Z)) :=
  match fuel with
  | O => None
  | S fuel =>
      match skip_elem p with
      | (Some name, Some q) => match elems fuel q with Some r => Some (name :: r) | None => None end
      | (Some name, None) => Some [name]
      | _ => None
      end
  end.

Lemma split_once_mid c a b : c ∉ a → split_once c (a ++ c :: b) = Some (a, b).
Proof.
  induction a as [|x a IH]; intros Ha; cbn; [by rewrite decide_True|].
  apply not_elem_of_cons in Ha as [Hx Ha]. rewrite decide_False by done. by rewrite IH.
Qed.

Lemma split_once_none c l : c ∉ l → split_once c l = None.
Proof.
  induction l as [|x l IH]; intros Hl; cbn; [done|]. apply not_elem_of_cons in Hl as [Hx Hl].
  rewrite decide_False by done. by rewrite IH.
Qed.

Lemma split_once_length c l a b : split_once c l = Some (a, b) → (length b < length l)%nat.
Proof.
  revert a b. induction l as [|x l IH]; intros a b; cbn; [done|]. case_decide; [intros [= <- <-]; lia|].
  destruct (split_once c l) as [[a' b']|]; [|done]. intros [= <- <-]. specialize (IH _ _ eq_refl). lia.
Qed.

Lemma trim_start_length c l : (length (trim_start c l) ≤ length l)%nat.
Proof. induction l as [|x l IH]; cbn; [done|]. case_decide; cbn; lia. Qed.

Lemma trim_matches_length c l : (length (trim_matches c l) ≤ length l)%nat.
Proof.
  unfold trim_matches. rewrite length_reverse. etrans; [apply trim_start_length|].
  rewrite length_reverse. apply trim_start_length.
Qed.

Lemma trim_start_ne c x l : x ≠ c → trim_start c (x :: l) = x :: l.
Proof. intros H. cbn. by rewrite decide_False. Qed.

(** A path that starts and ends with an element has nothing to trim. *)
Lemma trim_matches_id c x l y l' : x :: l = l' ++ [y] → x ≠ c → y ≠ c → trim_matches c (x :: l) = x :: l.
Proof.
  intros He Hx Hy. unfold trim_matches. rewrite trim_start_ne by done. rewrite He, reverse_snoc.
  rewrite trim_start_ne by done. by rewrite reverse_cons, reverse_involutive.
Qed.

Lemma elem_ok_ends c : elem_ok c → ∃ x l y l', c = x :: l ∧ c = l' ++ [y] ∧ x ≠ SLASH ∧ y ≠ SLASH.
Proof.
  intros (Hc & Hs & _). destruct c as [|x l]; [done|]. exists x, l.
  destruct (exists_last (l := x :: l) ltac:(done)) as (l' & y & Hy). exists y, l'.
  split_and!; [done|done|set_solver|]. rewrite Hy in Hs. set_solver.
Qed.

Lemma join_ends cs : cs ≠ [] → Forall elem_ok cs →
  ∃ x l y l', join cs = x :: l ∧ join cs = l' ++ [y] ∧ x ≠ SLASH ∧ y ≠ SLASH.
Proof.
  intros Hne Hall. induction Hall as [|c r Hc Hr IH]; [done|]. destruct r as [|c2 r]; [by apply elem_ok_ends|].
  destruct (elem_ok_ends c Hc) as (x & l & _ & _ & -> & _ & Hx & _).
  destruct IH as (_ & _ & y & l' & _ & Hy & _ & Hys); [done|].
  exists x, (l ++ SLASH :: join (c2 :: r)), y, ((x :: l) ++ SLASH :: l').
  split_and!; [done| |done|done]. cbn [join]. cbn [join] in Hy. rewrite Hy. by rewrite <-app_assoc.
Qed.

Lemma join_trim cs : cs ≠ [] → Forall elem_ok cs → trim_matches SLASH (join cs) = join cs.
Proof.
  intros Hne Hall. destruct (join_ends cs Hne Hall) as (x & l & y & l' & Hx & Hy & Hxs & Hys).
  rewrite Hx. eapply trim_matches_id; [|done|exact Hys]. by rewrite <-Hx, Hy.
Qed.

Lemma slash_trim cs : cs ≠ [] → Forall elem_ok cs → trim_matches SLASH (SLASH :: join cs) = join cs.
Proof.
  intros Hne Hall. rewrite <-(join_trim cs Hne Hall) at 2. unfold trim_matches. cbn [trim_start].
  by rewrite decide_True.
Qed.

Lemma skip_elem_split p c c2 r :
  elem_ok c → trim_matches SLASH p = join (c :: c2 :: r) → skip_elem p = (Some c, Some (join (c2 :: r))).
Proof.
  intros (_ & Hs & Hl) Ht. unfold skip_elem. rewrite Ht.
  change (join (c :: c2 :: r)) with (c ++ SLASH :: join (c2 :: r)). rewrite split_once_mid by done.
  by rewrite decide_True by lia.
Qed.

Lemma skip_elem_last p c :
  elem_ok c → trim_matches SLASH p = c → (0 < length p < DIRSIZ)%nat → skip_elem p = (Some p, None).
Proof.
  intros (_ & Hs & _) Ht Hl. unfold skip_elem. rewrite Ht, split_once_none by done. by rewrite decide_True.
Qed.

Lemma elems_cons k p c q r :
  skip_elem p = (Some c, Some q) → elems k q = Some r → elems (S k) p = Some (c :: r).
Proof. intros H1 H2. cbn [elems]. by rewrite H1, H2. Qed.

Lemma elems_join cs fuel :
  cs ≠ [] → Forall elem_ok cs → (length cs ≤ fuel)%nat → elems fuel (join cs) = Some cs.
Proof.
  intros Hne Hall. revert fuel. induction Hall as [|c r Hc Hr IH]; intros fuel Hf; [done|].
  destruct fuel as [|fuel]; [cbn in Hf; lia|]. cbn [elems].
  assert (Ht : trim_matches SLASH (join (c :: r)) = join (c :: r)) by (apply join_trim; [done|by constructor]).
  destruct r as [|c2 r].
  - rewrite (skip_elem_last _ c Hc Ht); [done|]. destruct Hc as (? & _ & ?). cbn [join]. destruct c; cbn in *; [done|lia].
  - rewrite (skip_elem_split _ c c2 r Hc Ht). by rewrite IH by (done || cbn in *; lia).
Qed.

(** Paths are taken apart into their elements.  For a relative path of
    elements that are not empty, have no slash and are shorter than a
    directory name, [skip_elem] yields exactly these elements in order; so it
    does for an absolute path of at least two elements.  For an absolute path
    of one element it yields the path with its slash as the name. *)
Theorem path_elements c cs (Hall : Forall elem_ok (c :: cs)) :
  let p := join (c :: cs) in
  elems (S (length p)) p = Some (c :: cs) ∧
  (cs ≠ [] → elems (S (length (SLASH :: p))) (SLASH :: p) = Some (c :: cs)) ∧
  (cs = [] → (length c < 13)%nat → elems (S (length (SLASH :: p))) (SLASH :: p) = Some [SLASH :: c]).
Proof.
  assert (Hlen : ∀ l, Forall elem_ok l → (length l ≤ length (join l))%nat).
  { induction 1 as [|d r (Hd & _) _ IH]; [done|]. destruct d; [done|]. destruct r; cbn in *; [lia|].
    rewrite length_app. cbn. lia. }
  specialize (Hlen _ Hall). cbn zeta. split_and!.
  - apply elems_join; [done|done|lia].
  - intros Hcs. destruct cs as [|c2 r]; [done|]. inversion Hall as [|? ? Hc Hr]; subst.
    eapply elems_cons; [apply skip_elem_split; [done|by apply slash_trim]|].
    apply elems_join; [done|done|]. cbn [length] in *. lia.
  - intros -> Hc. cbn [elems length join]. rewrite (skip_elem_last _ c); [done|by inversion Hall| |].
    + change (SLASH :: c) with (SLASH :: join [c]). by apply slash_trim.
    + unfold DIRSIZ. cbn. lia.
Qed.

Lemma path_elements_witness :
  let p := [97; 47; 98; 98] in
  elems (S (length p)) p = Some [[97]; [98; 98]] ∧
  ([[98; 98]] ≠ [] → elems (S (length (SLASH :: p))) (SLASH :: p) = Some [[97]; [98; 98]]) ∧
  ([[98; 98]] = [] → (length [97] < 13)%nat → elems (S (length (SLASH :: p))) (SLASH :: p) = Some [SLASH :: [97]]).
Proof.
  apply (path_elements [97] [[98; 98]]).
  repeat (constructor; [split_and!; [done|apply (bool_decide_unpack _); vm_compute; done|cbn; unfold DIRSIZ; lia]|]). constructor.
Defined.

Lemma skip_elem_shorter p c q : skip_elem p = (Some c, Some q) → (length q < length p)%nat.
Proof.
  unfold skip_elem. destruct (split_once SLASH (trim_matches SLASH p)) as [[a b]|] eqn:E.
  - case_decide; [|done]. intros [= <- <-]. apply split_once_length in E.
    pose proof (trim_matches_length SLASH p). lia.
  - by case_decide.
Qed.

(** ** Calls end

    The loops of [Fs] whose number of rounds is not the length of a list are
    given a number of rounds and stop with a message when it is used up.  [ends]
    says that this does not happen. *)
Definition ends {A} (m : outcome A) : Prop := m ≠ Panic "out of fuel".

Lemma ends_bind {A B} (m : outcome A) (f : A → outcome B) : ends m → (∀ a, ends (f a)) → ends (m ≫= f).
Proof. intros Hm Hf. destruct m as [a|x|x]; [by apply Hf| |done]. intros [= Hx]. apply Hm. by rewrite Hx. Qed.
Lemma ends_done {A} (a : A) : ends (Done a).
Proof. done. Qed.
Lemma ends_fault {A} x : ends (Fault (A := A) x).
Proof. done. Qed.
Lemma ends_index {A} (l : list A) i : ends (index l i).
Proof. unfold index. by repeat case_match. Qed.
Lemma ends_store {A} (l : list A) i x : ends (store l i x).
Proof. unfold store. by repeat case_match. Qed.
Lemma ends_add a b : ends (checked_add a b).
Proof. unfold checked_add. by case_decide. Qed.
Lemma ends_add32 a b : ends (checked_add32 a b).
Proof. unfold checked_add32. by case_decide. Qed.
Lemma ends_add16 a b : ends (checked_add16 a b).
Proof. unfold checked_add16. by case_decide. Qed.
Lemma ends_sub a b : ends (checked_sub a b).
Proof. unfold checked_sub. by case_decide. Qed.

Create HintDb ends.
#[export] Hint Resolve ends_done ends_fault ends_index ends_store ends_add ends_add32 ends_add16 ends_sub : ends.

(** [ends_go] follows the text of a call; the hints know the calls it makes. *)
Ltac ends_go :=
  first
    [ solve [auto with ends nocore]
    | discriminate
    | match goal with
      | |- ∀ _ : _ * _, _ => let a := fresh "a" in intros a; destruct a; ends_go
      | |- ∀ _, _ => intro; ends_go
      | |- ends (match ?x with _ => _ end) => destruct x; ends_go
      | |- ends (let '_ := ?x in _) => destruct x; ends_go
      | |- ends (_ ≫= _) => apply ends_bind; [solve [ends_go]|ends_go]
      end
    | idtac ].

Section calls_end.
Variable sb : SuperBlock.

Lemma log_write_ends s b : ends (log_write s b).
Proof. unfold log_write, take_slot. ends_go. Qed.
Lemma get_byte_ends l i : ends (get_byte l i).
Proof. unfold get_byte. ends_go. Qed.
Lemma slice_ends l a b : ends (slice l a b).
Proof. unfold slice. ends_go. Qed.
Hint Resolve log_write_ends get_byte_ends slice_ends : ends.

Lemma bblock_ends b : ends (bblock sb b).
Proof. unfold bblock. ends_go. Qed.
Lemma iblock_ends i : ends (iblock sb i).
Proof. unfold iblock. ends_go. Qed.
Lemma bzero_ends s b : ends (bzero s b).
Proof. unfold bzero. ends_go. Qed.
Hint Resolve bblock_ends iblock_ends bzero_ends : ends.

(** The scan of a bitmap block has a round per bit. *)
Lemma balloc_scan_ends k s bb b bi : BPB - bi ≤ Z.of_nat k → ends (balloc_scan sb k s bb b bi).
Proof.
  revert bi. induction k as [|k IH]; intros bi Hk; cbn [balloc_scan].
  - rewrite decide_False by lia. ends_go.
  - case_decide; [|ends_go]. apply ends_bind; [ends_go|]. intros x. case_match; [ends_go|]. apply IH. lia.
Qed.

Lemma balloc_loop_ends k s b : ends (balloc_loop sb k s b).
Proof.
  revert s b. induction k as [|k IH]; intros s b; cbn [balloc_loop]; [discriminate|].
  apply ends_bind; [ends_go|]. intros bb. apply ends_bind; [apply balloc_scan_ends; by vm_compute|]. ends_go.
Qed.
Lemma balloc_ends s : ends (balloc sb s).
Proof. apply balloc_loop_ends. Qed.
Hint Resolve balloc_ends : ends.

Lemma bfree_ends s b : ends (bfree sb s b).
Proof. unfold bfree. ends_go. Qed.
Hint Resolve bfree_ends : ends.
Lemma update_ends s i : ends (update sb s i).
Proof. unfold update. ends_go. Qed.
Hint Resolve update_ends : ends.
Lemma free_list_ends s l : ends (free_list sb s l).
Proof. revert s. induction l; intros s; cbn [free_list]; ends_go. Qed.
Hint Resolve free_list_ends : ends.
Lemma trunc_ends s i : ends (trunc sb s i).
Proof. unfold trunc. ends_go. Qed.
Lemma bmap_ends s i bn : ends (bmap sb s i bn).
Proof. unfold bmap. ends_go. Qed.
Hint Resolve trunc_ends bmap_ends : ends.

(** A round of [read] or [write] copies at least a byte. *)
Lemma read_loop_ends copyout k s i dst off n tot out :
  n - tot ≤ Z.of_nat k → ends (read_loop sb copyout k s i dst off n tot out).
Proof.
  revert s i dst off tot out. induction k as [|k IH]; intros s i dst off tot out Hk; cbn [read_loop].
  - rewrite decide_False by lia. ends_go.
  - case_decide; [|ends_go]. apply ends_bind; [ends_go|]. intros [[s1 i1] [bno|e]]; [|ends_go].
    apply ends_bind; [ends_go|]. intros chunk. case_match; [|ends_go]. apply ends_bind; [ends_go|].
    intros dst'. apply IH. pose proof (Z.mod_pos_bound off 1024 ltac:(lia)). lia.
Qed.
Lemma read_ends copyout s i dst off n : ends (read sb copyout s i dst off n).
Proof.
  unfold read. case_decide; [ends_go|]. apply ends_bind; [ends_go|]. intros e. apply read_loop_ends. lia.
Qed.
Lemma write_loop_ends copyin k s i src off n tot :
  n - tot ≤ Z.of_nat k → ends (write_loop sb copyin k s i src off n tot).
Proof.
  revert s i src off tot. induction k as [|k IH]; intros s i src off tot Hk; cbn [write_loop].
  - rewrite decide_False by lia. ends_go.
  - case_decide; [|ends_go]. apply ends_bind; [ends_go|]. intros [[s1 i1] [bno|e]]; [|ends_go].
    apply ends_bind; [ends_go|]. intros old. destruct (copyin src (length old)) as [x [|]]; [|ends_go].
    apply ends_bind; [ends_go|]. intros src'. apply ends_bind; [ends_go|].
    intros s3. apply IH. pose proof (Z.mod_pos_bound off 1024 ltac:(lia)). lia.
Qed.
Lemma write_ends copyin s i src off n : ends (write sb copyin s i src off n).
Proof.
  unfold write. case_decide; [ends_go|]. apply ends_bind; [ends_go|]. intros e. case_decide; [ends_go|].
  apply ends_bind; [apply write_loop_ends; lia|]. ends_go.
Qed.
Hint Resolve read_ends write_ends : ends.

Lemma read_de_ends s i de off : ends (read_de sb s i de off).
Proof. unfold read_de. ends_go. Qed.
Hint Resolve read_de_ends : ends.
Lemma dirlookup_loop_ends k s i name de off : ends (dirlookup_loop sb k s i name de off).
Proof. revert s i de off. induction k; intros; cbn [dirlookup_loop]; ends_go. Qed.
Hint Resolve dirlookup_loop_ends : ends.
Lemma dirlookup_ends s i name : ends (dirlookup sb s i name).
Proof. unfold dirlookup. ends_go. Qed.
Lemma dirlink_loop_ends k s i de off offset : ends (dirlink_loop sb k s i de off offset).
Proof. revert s i de off offset. induction k; intros; cbn [dirlink_loop]; ends_go. Qed.
Lemma dir_empty_loop_ends k s i de off : ends (dir_empty_loop sb k s i de off).
Proof. revert s i de off. induction k; intros; cbn [dir_empty_loop]; ends_go. Qed.
Lemma is_dir_empty_ends s i : ends (is_dir_empty sb s i).
Proof. apply dir_empty_loop_ends. Qed.
Hint Resolve dirlookup_ends dirlink_loop_ends is_dir_empty_ends : ends.

Lemma get_ends s dev num : ends (get s dev num).
Proof. unfold get. ends_go. Qed.
Lemma minode_ends s k : ends (minode s k).
Proof. unfold minode. ends_go. Qed.
Hint Resolve get_ends minode_ends : ends.
Lemma set_data_ends s k i : ends (set_data s k i).
Proof. unfold set_data. ends_go. Qed.
Lemma put_ends s k : ends (put sb s k).
Proof. unfold put. ends_go. Qed.
Hint Resolve set_data_ends put_ends : ends.
Lemma dirlink_ends s i name num : ends (dirlink sb s i name num).
Proof. unfold dirlink. ends_go. Qed.
Lemma alloc_loop_ends j s dev num t : ends (alloc_loop sb j s dev num t).
Proof. revert num. induction j; intros; cbn [alloc_loop]; ends_go. Qed.
Lemma alloc_ends s dev t : ends (alloc sb s dev t).
Proof. apply alloc_loop_ends. Qed.
Lemma lock_ends s k : ends (lock sb s k).
Proof. unfold lock, ilock. ends_go. Qed.
Lemma dup_ends s k : ends (dup s k).
Proof. unfold dup. ends_go. Qed.
Hint Resolve dirlink_ends alloc_ends lock_ends dup_ends : ends.
Lemma lookup_at_ends s k i name : ends (lookup_at sb s k i name).
Proof. unfold lookup_at. ends_go. Qed.
Hint Resolve lookup_at_ends : ends.

(** Each round of [namex] leaves a shorter path. *)
Lemma namex_loop_ends fuel s k path parent : (length path < fuel)%nat → ends (namex_loop sb fuel s k path parent).
Proof.
  revert s k path. induction fuel as [|fuel IH]; intros s k path Hf; [lia|]. cbn [namex_loop].
  apply ends_bind; [ends_go|]. intros [s1 i]. case_decide; [|ends_go].
  destruct (skip_elem path) as [[name|] [q|]] eqn:Es; [|ends_go..].
  apply ends_bind; [ends_go|]. intros [s2 [[o j]|]]; [|ends_go].
  apply ends_bind; [ends_go|]. intros s3. apply skip_elem_shorter in Es. apply IH. lia.
Qed.
Lemma namex_ends cwd s path parent : ends (namex sb cwd s path parent).
Proof. unfold namex. apply ends_bind; [ends_go|]. intros [s1 k]. apply namex_loop_ends. lia. Qed.
Lemma namei_ends cwd s path : ends (namei sb cwd s path).
Proof. apply namex_ends. Qed.
Lemma nameiparent_ends cwd s path : ends (nameiparent sb cwd s path).
Proof. apply namex_ends. Qed.
Hint Resolve namei_ends nameiparent_ends : ends.

Lemma link_ends cwd s old new : ends (link sb cwd s old new).
Proof. unfold link. ends_go. Qed.
Lemma unlink_ends cwd s path : ends (unlink sb cwd s path).
Proof. unfold unlink, unlink_entry. ends_go. Qed.
Lemma create_ends cwd s path t mj mn : ends (create sb cwd s path t mj mn).
Proof. unfold create, create_found, create_dots. ends_go. Qed.
End calls_end.

(** C34. Calls on paths end.  On every state of the file system and every path,
    [namex] never uses up its rounds, one more than the path has characters,
    nor do the loops below it (the search of a directory, the reads and writes
    of blocks, the scan of the bitmap, the freeing of a file) use up theirs;
    and so for [link], [unlink] and [create].  They return, or stop with a
    panic or a fault that the code itself has. *)
Theorem namex_terminates sb cwd s path :
  (∀ parent, ends (namex sb cwd s path parent)) ∧
  (∀ new, ends (link sb cwd s path new)) ∧ ends (unlink sb cwd s path) ∧
  (∀ t mj mn, ends (create sb cwd s path t mj mn)).
Proof.
  split_and!; intros *; [apply namex_ends|apply link_ends|apply unlink_ends|apply create_ends].
Qed.

(** The path "a/b" through a directory of one entry, "a", to another of one
    entry, "b". *)
Definition walk_dir (num blk : Z) : IData := mkI 1 num true TDir MNull 0 1 16 (blk :: replicate 12 0).
Definition walk_entry (num c : Z) : list Z := le_bytes 2 num ++ c :: replicate 13 0 ++ replicate 1008 0.
Definition walk_fs : fs :=
  mkFs (bupd (bupd (λ _, replicate 1024 0) 100 (walk_entry 7 97)) 101 (walk_entry 9 98)) (lg demo_fs)
    [Some (mkM 1 5 2 (walk_dir 5 100)); Some (mkM 1 7 2 (walk_dir 7 101)); None].

Lemma namex_terminates_witness :
  ∃ s', namex demo_sb 0 walk_fs [97; 47; 98] false = Done (s', Some ([98], 2%nat)) ∧
    ends (unlink demo_sb 0 walk_fs [97; 47; 98]).
Proof.
  eexists. split; [by vm_compute|]. apply (namex_terminates demo_sb 0 walk_fs [97; 47; 98]).
Defined.
