(* ===== verification/FsFile.v ===== *)
(** * Files as sequences of bytes

    [IData::write] at a block boundary of a file whose blocks are there changes
    exactly the bytes it is given, and [IData::read] gives them back.  The log
    needs room for one slot per block and one for the inode, which is shown to
    be enough. *)

From S2P Require Import Prelude Log LogSpec Fs FsSpec.

Open Scope Z_scope.

(** ** Room in the log *)

(** An operation is under way and [k] slots are left. *)
Definition room (s : fs) (k : nat) : Prop :=
  length (hblock (lh (lg s))) = 30%nat ∧ 0 ≤ n (lh (lg s)) ∧ 1 ≤ outstanding (lg s) ∧
  n (lh (lg s)) + Z.of_nat k ≤ LOGSIZE ∧ n (lh (lg s)) + Z.of_nat k < size (lg s).

Lemma room_le s j k : (j ≤ k)%nat → room s k → room s j.
Proof. unfold room. intros Hj (? & ? & ? & ? & ?). split_and!; (done || lia). Qed.

Lemma room_set s b x k : room s k → room (set_block s b x) k.
Proof. done. Qed.

(** With room for a slot [LOG.write] returns. *)
Lemma log_write_room s b k :
  room s (S k) → ∃ s', log_write s b = Done s' ∧ room s' k ∧ blocks s' = blocks s ∧ itable s' = itable s.
Proof.
  intros (Hl & Hn & Ho & Hm & Hs). unfold log_write, take_slot.
  rewrite (decide_False (P := LOGSIZE ≤ n (lh (lg s)))) by lia. rewrite checked_sub_ok by lia. cbn [mbind outcome_bind]. rewrite bool_decide_eq_false_2 by lia.
  rewrite (decide_False (P := outstanding (lg s) < 1)) by lia. case_decide; cbn [mbind outcome_bind].
  - eexists. split; [done|]. split_and!; [|done|done]. unfold room. cbn [lg]. split_and!; (done || lia).
  - rewrite store_ok by (rewrite Hl; unfold LOGSIZE, MAXOPBLOCKS in *; lia). cbn [mbind outcome_bind].
    eexists. split; [done|]. split_and!; [|done|done]. unfold room. cbn. rewrite length_insert. split_and!; (done || lia).
Qed.

Lemma splice_0 (l x : list Z) : splice l 0 x = x ++ drop (length x) l.
Proof. done. Qed.

(** ** Files whose blocks are apart *)
Section file.
Variable sb : SuperBlock.

(** No block of the file is used twice, as its block of addresses, or as the
    block [ib] of its inode. *)
Record layout (s : fs) (i : IData) (ib : Z) : Prop := {
  ly_apart bn bn' a : 0 ≤ bn → 0 ≤ bn' → block_of s i bn = Some a → block_of s i bn' = Some a → bn = bn';
  ly_ind bn a : 0 ≤ bn → block_of s i bn = Some a → addrs i !! Z.to_nat NDIRECT ≠ Some a;
  ly_inode bn : 0 ≤ bn → block_of s i bn ≠ Some ib;
  ly_ind_inode : addrs i !! Z.to_nat NDIRECT ≠ Some ib;
}.

(** The addresses of a file depend on its block of addresses only. *)
Lemma block_of_ext s s' i i' bn :
  addrs i' = addrs i → (∀ a, addrs i !! Z.to_nat NDIRECT = Some a → blocks s' a = blocks s a) →
  block_of s' i' bn = block_of s i bn.
Proof.
  intros Ha Hb. unfold block_of. rewrite Ha. case_decide; [done|]. case_decide; [|done].
  destruct (addrs i !! Z.to_nat NDIRECT) as [a|]; [|done]. case_decide; [done|]. by rewrite (Hb a).
Qed.

Lemma layout_ext s s' i i' ib :
  addrs i' = addrs i → (∀ bn, block_of s' i' bn = block_of s i bn) → layout s i ib → layout s' i' ib.
Proof. intros Ha Hb [L1 L2 L3 L4]. split; intros *; rewrite ?Hb, ?Ha; eauto. Qed.

(** What a step of [write] does: [x] at the front of block [bn] of the file. *)
Lemma set_front s s' i ib bn a x :
  layout s i ib → full_blocks s → 0 ≤ bn → block_of s i bn = Some a → (length x ≤ 1024)%nat →
  blocks s' = bupd (blocks s) a (splice (blocks s a) 0 x) →
  full_blocks s' ∧ (∀ b, block_of s' i b = block_of s i b) ∧
  ∀ p, 0 ≤ p → file_byte s' i p =
    if decide (bn * 1024 ≤ p < bn * 1024 + Z.of_nat (length x)) then x !! Z.to_nat (p - bn * 1024) else file_byte s i p.
Proof.
  intros Hl Hs Hbn Ha Hx Hb.
  assert (Hmap : ∀ b, block_of s' i b = block_of s i b).
  { intros b. apply block_of_ext; [done|]. intros c Hc. rewrite Hb. apply bupd_ne.
    intros ->. by apply (ly_ind _ _ _ Hl bn a). }
  split_and!; [|done|].
  { intros b. rewrite Hb. unfold bupd. case_decide; [|by apply Hs]. rewrite length_splice; rewrite ?Hs; lia. }
  intros p Hp. unfold file_byte. rewrite Hmap. case_decide as Hr.
  - replace (p / 1024) with bn by zdm. rewrite Ha, Hb, bupd_eq. rewrite splice_0.
    assert (Hm : p `mod` 1024 = p - bn * 1024) by zdm. rewrite Hm. by rewrite lookup_app_l by lia.
  - destruct (block_of s i (p / 1024)) as [c|] eqn:Hc; [|done]. rewrite Hb. unfold bupd. case_decide as He; [|done]. subst c.
    pose proof (ly_apart _ _ _ Hl (p / 1024) bn a ltac:(zdm) Hbn Hc Ha) as Hpb. rewrite splice_0.
    assert (Hm : p `mod` 1024 = p - bn * 1024) by zdm. rewrite Hm.
    rewrite lookup_app_r by zdm. rewrite lookup_drop. f_equal. zdm.
Qed.

(** ** [write] at a block boundary *)

(** [copyin] copies from the memory [M]. *)
Definition copies (M : Z → Z) (copyin : Z → nat → list Z * bool) : Prop :=
  ∀ a k, copyin a k = ((λ j, M (a + Z.of_nat j)) <$> seq 0 k, true).

Lemma lookup_copied (M : Z → Z) (a : Z) (k j : nat) : (j < k)%nat → ((λ j, M (a + Z.of_nat j)) <$> seq 0 k) !! j = Some (M (a + Z.of_nat j)).
Proof. intros Hj. by rewrite list_lookup_fmap, lookup_seq_lt. Qed.

(** What [write] has done after it has copied the bytes from [lo] to [hi] of the
    file, which are at [src] in memory. *)
Record wrote (M : Z → Z) (i : IData) (src lo hi : Z) (s s' : fs) : Prop := {
  wr_full : full_blocks s';
  wr_map bn : block_of s' i bn = block_of s i bn;
  wr_byte p : 0 ≤ p → file_byte s' i p = if decide (lo ≤ p < hi) then Some (M (src + (p - lo))) else file_byte s i p;
  wr_else b : (∀ p, lo ≤ p < hi → block_of s i (p / 1024) ≠ Some b) → blocks s' b = blocks s b;
}.

Lemma wrote_nil M i src lo s : full_blocks s → wrote M i src lo lo s s.
Proof. intros Hs. split; try done. intros p _. by rewrite decide_False by lia. Qed.

Lemma wrote_app M i src lo mid hi s s1 s2 :
  lo ≤ mid ≤ hi → wrote M i src lo mid s s1 → wrote M i (src + (mid - lo)) mid hi s1 s2 → wrote M i src lo hi s s2.
Proof.
  intros Hm [F1 M1 B1 E1] [F2 M2 B2 E2]. split; [done| | |].
  - intros bn. by rewrite M2.
  - intros p Hp. rewrite B2 by done. repeat case_decide; try lia.
    + do 2 f_equal. lia.
    + rewrite B1 by done. by rewrite decide_True by lia.
    + rewrite B1 by done. by rewrite decide_False by lia.
  - intros b Hb. rewrite E2; [apply E1; intros p Hp; apply Hb; lia|].
    intros p Hp. rewrite M1. apply Hb. lia.
Qed.

(** One round: up to a block. *)
Lemma write_round M copyin k r s i ib src off n tot a :
  layout s i ib → full_blocks s → copies M copyin → room s (S r) →
  tot < n → 0 ≤ off → off / 1024 < u32_mod → off `mod` 1024 = 0 → block_of s i (off / 1024) = Some a →
  let m := Z.min (n - tot) 1024 in src + m < usize_mod →
  ∃ s', write_loop sb copyin (S k) s i src off n tot = write_loop sb copyin k s' i (src + m) (off + m) n (tot + m) ∧
    room s' r ∧ wrote M i src off (off + m) s s'.
Proof.
  intros Hl Hs Hc Hr Ht Ho Hu Hal Ha m Hm. cbn [write_loop]. rewrite decide_True by done.
  assert (Hd : 0 ≤ off / 1024) by zdm. unfold as_u32. rewrite (Z.mod_small (off / 1024)) by lia.
  rewrite (bmap_hit sb s i _ a) by done. cbn [mbind outcome_bind].
  rewrite Hal, Z.sub_0_r. fold m. unfold slice. rewrite decide_True by (unfold m; lia).
  rewrite decide_True by (rewrite Hs; unfold m; lia). cbn [mbind outcome_bind].
  rewrite Z.sub_0_r, drop_0, length_take, Hs. replace (Z.to_nat m `min` 1024)%nat with (Z.to_nat m) by (unfold m; lia).
  rewrite Hc. change (Z.to_nat 0) with 0%nat. set (x := (λ j, M (src + Z.of_nat j)) <$> seq 0 (Z.to_nat m)).
  assert (Hx : length x = Z.to_nat m) by (unfold x; by rewrite length_fmap, length_seq).
  rewrite checked_add_ok by done. cbn [mbind outcome_bind].
  destruct (log_write_room (set_block s a (splice (blocks s a) 0 x)) a r Hr) as (s' & -> & Hr' & Hb & _).
  cbn [mbind outcome_bind]. exists s'. split_and!; [done|done|].
  destruct (set_front s s' i ib (off / 1024) a x Hl Hs Hd Ha ltac:(unfold m in *; lia) Hb) as (F & Mp & B).
  assert (Hoff : off / 1024 * 1024 = off) by zdm. rewrite Hoff, Hx in B. split; [done|done| |].
  - intros p Hp. rewrite B by done. rewrite Z2Nat.id by (unfold m; lia). case_decide; [|done].
    unfold x. rewrite lookup_copied by lia. do 2 f_equal. lia.
  - intros b Hne. rewrite Hb. apply bupd_ne. intros ->. apply (Hne off); [unfold m; lia|done].
Qed.

Lemma write_loop_aligned M copyin s i ib src off n k tot r :
  layout s i ib → full_blocks s → copies M copyin → 0 ≤ off → off + n < 4294967296 → src + n < usize_mod →
  (∀ p, off ≤ p < off + n → block_of s i (p / 1024) ≠ None) →
  0 ≤ tot ≤ n → ((off + tot) `mod` 1024 = 0 ∨ tot = n) → (Z.to_nat (n - tot) ≤ k)%nat →
  room s (Z.to_nat ((n - tot + 1023) / 1024) + r) →
  ∃ s', write_loop sb copyin k s i (src + tot) (off + tot) n tot = Done (s', i, off + n, Ok n) ∧
    room s' r ∧ wrote M i (src + tot) (off + tot) (off + n) s s'.
Proof.
  intros Hl Hs Hc Ho Hmax Hsrc Hmap. revert s tot Hl Hs Hmap. induction k as [|k IH]; intros s tot Hl Hs Hmap Ht Hal Hk Hr.
  { exists s. assert (tot = n) as -> by lia. cbn [write_loop]. rewrite decide_False by lia.
    split_and!; [done|eapply room_le; [|exact Hr]; lia|by apply wrote_nil]. }
  destruct (decide (tot < n)) as [Hlt|Hge].
  2: { exists s. assert (tot = n) as -> by lia. cbn [write_loop]. rewrite decide_False by lia.
       split_and!; [done|eapply room_le; [|exact Hr]; lia|by apply wrote_nil]. }
  destruct Hal as [Hal|]; [|lia]. set (m := Z.min (n - tot) 1024).
  destruct (block_of s i ((off + tot) / 1024)) as [a|] eqn:Ea; [|by destruct (Hmap (off + tot) ltac:(lia))].
  destruct (write_round M copyin k (Z.to_nat ((n - (tot + m) + 1023) / 1024) + r) s i ib (src + tot) (off + tot) n tot a)
    as (s1 & -> & Hr1 & W1); try done; [|lia|zdm|lia|].
  { eapply room_le; [|exact Hr]. unfold m. zdm. }
  fold m in W1 |- *. rewrite <-!Z.add_assoc in *. pose proof W1 as [F1 M1 B1 _].
  destruct (IH s1 (tot + m)) as (s2 & -> & Hr2 & W2); [|done| |unfold m; lia|unfold m; zdm|unfold m; lia|done|].
  { by eapply layout_ext. }
  { intros p Hp. rewrite M1. by apply Hmap. }
  exists s2. split_and!; [done|done|]. eapply wrote_app; [|exact W1|]; [unfold m; lia|].
  replace (src + tot + (off + (tot + m) - (off + tot))) with (src + (tot + m)) by lia. exact W2.
Qed.
End file.

(** Writing the inode back leaves the contents of its file alone. *)
Lemma update_wrote sb M s s1 i i' ib src lo hi k :
  layout s i ib → iblock sb (inum i) = Done ib → 0 ≤ inum i → length (addrs i) = 13%nat →
  addrs i' = addrs i → inum i' = inum i → room s1 (S k) → wrote M i src lo hi s s1 →
  ∃ s2, update sb s1 i' = Done s2 ∧ full_blocks s2 ∧ (∀ bn, block_of s2 i' bn = block_of s i bn) ∧
    (∀ p, 0 ≤ p → file_byte s2 i' p = if decide (lo ≤ p < hi) then Some (M (src + (p - lo))) else file_byte s i p) ∧
    ∀ b, b ≠ ib → (∀ p, lo ≤ p < hi → block_of s i (p / 1024) ≠ Some b) → blocks s2 b = blocks s b.
Proof.
  intros Hl Hib Hnum Hlen Ha Hn Hr [F1 M1 B1 E1]. unfold update. rewrite Hn, Hib. cbn [mbind outcome_bind].
  set (x := splice (blocks s1 ib) _ _).
  destruct (log_write_room (set_block s1 ib x) ib k Hr) as (s3 & -> & _ & Hb & _). exists s3.
  assert (Hx : length x = 1024%nat).
  { unfold x. rewrite length_splice; rewrite ?F1; [done|]. rewrite length_encode_dinode by (by rewrite Ha).
    by apply dinode_off_range. }
  assert (Hmap : ∀ bn, block_of s3 i' bn = block_of s i bn).
  { intros bn. rewrite <-M1. apply block_of_ext; [done|]. intros a Hi. rewrite Hb. apply bupd_ne.
    intros ->. by apply (ly_ind_inode _ _ _ Hl). }
  split_and!; [done| |done| |].
  - intros b. rewrite Hb. by apply full_set.
  - intros p Hp. rewrite <-B1 by done. unfold file_byte. rewrite Hmap, M1.
    destruct (block_of s i (p / 1024)) as [a|] eqn:Ea; [|done]. rewrite Hb. cbn [blocks set_block]. rewrite bupd_ne; [done|].
    intros ->. apply (ly_inode _ _ _ Hl (p / 1024)); [zdm|done].
  - intros b Hne Hb'. rewrite Hb. cbn [blocks set_block]. rewrite bupd_ne by done. by apply E1.
Qed.

(** C20. What is written is read back.  On a file whose blocks are there and
    apart, with room in the log for one slot per block and one for the inode,
    [write] at a block boundary returns the number of bytes; the file then has
    the new bytes in their range and the old ones elsewhere, its size has grown
    to the end of the range if that is behind its end, no other block than
    those of the range and of the inode has changed, and [read] of the range
    returns the bytes written. *)
Theorem file_write_read sb M copyin copyout s i ib src dst off n
    (Hl : layout s i ib) (Hib : iblock sb (inum i) = Done ib) (Hnum : 0 ≤ inum i) (Hlen : length (addrs i) = 13%nat)
    (Hs : full_blocks s) (Hin : copies M copyin) (Hout : ∀ d c, copyout d c = true)
    (Hoff : 0 ≤ off ≤ isize i) (Hal : off `mod` 1024 = 0) (Hn : 0 ≤ n)
    (Hsrc : src + n < usize_mod) (Hdst : dst + n < usize_mod)
    (Hmax : off + n ≤ MAXFILE * 1024) (Hsize : isize i ≤ MAXFILE * 1024)
    (Hmap : ∀ p, off ≤ p < Z.max (isize i) (off + n) → block_of s i (p / 1024) ≠ None)
    (Hroom : room s (Z.to_nat ((n + 1023) / 1024) + 1)) :
  ∃ s' i', write sb copyin s i src off n = Done (s', i', Ok n) ∧ isize i' = Z.max (isize i) (off + n) ∧
    (∀ p, 0 ≤ p → file_byte s' i' p = if decide (off ≤ p < off + n) then Some (M (src + (p - off))) else file_byte s i p) ∧
    (∀ b, b ≠ ib → (∀ p, off ≤ p < off + n → block_of s i (p / 1024) ≠ Some b) → blocks s' b = blocks s b) ∧
    ∃ out, read sb copyout s' i' dst off n = Done (s', i', out, Ok n) ∧
      ∀ j, 0 ≤ j < n → out_byte out (dst + j) = Some (M (src + j)).
Proof.
  change (MAXFILE * 1024) with 274432 in *. unfold write. rewrite decide_False by lia.
  rewrite checked_add_ok by lia. cbn [mbind outcome_bind]. change (MAXFILE * 1024) with 274432. rewrite decide_False by lia.
  destruct (write_loop_aligned sb M copyin s i ib src off n (Z.to_nat n) 0 1) as (s1 & Hrun & Hr & W);
    [done|done|done|lia|lia|lia|intros p Hp; apply Hmap; lia|lia|left; by rewrite Z.add_0_r|lia|by rewrite Z.sub_0_r|].
  rewrite !Z.add_0_r in Hrun, W. rewrite Hrun. cbn [mbind outcome_bind].
  set (i' := if decide (isize i < off + n) then set_isize (as_u32 (off + n)) i else i).
  assert (Hi : isize i' = Z.max (isize i) (off + n) ∧ addrs i' = addrs i ∧ inum i' = inum i).
  { unfold i'. case_decide; cbn; split_and!; try done; [|lia]. unfold as_u32. rewrite Z.mod_small; lia. }
  destruct Hi as (Hi1 & Hi2 & Hi3).
  destruct (update_wrote sb M s s1 i i' ib src off (off + n) 0 Hl Hib Hnum Hlen Hi2 Hi3 Hr W)
    as (s2 & -> & F2 & M2 & B2 & E2). cbn [mbind outcome_bind].
  exists s2, i'. split_and!; [done|done|done|done|].
  destruct (read_aligned sb copyout s2 i' dst off n F2 Hout) as (out & Hrd & Hby); [lia|done|lia|lia|lia|lia| |].
  { intros p Hp. rewrite M2. apply Hmap. lia. }
  replace (Z.min n (isize i' - off)) with n in * by lia. exists out. split; [exact Hrd|].
  intros j Hj. rewrite Hby, B2 by lia. rewrite decide_True by lia. do 2 f_equal. lia.
Qed.

(** 2000 bytes at block 1 of a file of two blocks, which gets a third. *)
Definition grow_inode : IData := mkI 1 5 true TFile MNull 0 1 2048 ([100; 101; 102] ++ replicate 10 0).

Lemma grow_blocks s bn a : 0 ≤ bn → block_of s grow_inode bn = Some a → bn < 3 ∧ a = 100 + bn.
Proof.
  intros Hbn. unfold block_of. change NDIRECT with 12. change MAXFILE with 268. case_decide as Hd.
  - assert (Hc : bn = 0 ∨ bn = 1 ∨ bn = 2 ∨ 3 ≤ bn) by lia. destruct Hc as [->|[->|[->|Hc]]]; [cbn; intros [= <-]; lia..|].
    change (addrs grow_inode) with ([100; 101; 102] ++ replicate 10 0). rewrite lookup_app_r by (cbn; lia).
    rewrite lookup_replicate_2 by (cbn; lia). by rewrite decide_True.
  - by case_decide.
Qed.

Definition pattern (a : Z) : Z := a `mod` 256.
Definition pattern_in (a : Z) (k : nat) : list Z * bool := ((λ j, pattern (a + Z.of_nat j)) <$> seq 0 k, true).

Lemma file_write_read_witness :
  ∃ s' i' out, write demo_sb pattern_in demo_fs grow_inode 0 1024 2000 = Done (s', i', Ok 2000) ∧ isize i' = 3024 ∧
    read demo_sb kernel_copyout s' i' 0 1024 2000 = Done (s', i', out, Ok 2000) ∧ out_byte out 1999 = Some (1999 `mod` 256).
Proof.
  destruct (file_write_read demo_sb pattern pattern_in kernel_copyout demo_fs grow_inode 32 0 0 1024 2000)
    as (s' & i' & H1 & H2 & _ & _ & out & H3 & H4); try done.
  - split.
    + intros bn bn' a H1 H2 E1%grow_blocks E2%grow_blocks; lia.
    + intros bn a H1 E1%grow_blocks; [|done]. cbn. intros [= ?]. lia.
    + intros bn H1 E1%grow_blocks; lia.
    + done.
  - change (isize grow_inode) with 2048. intros p Hp.
    assert (Hb : p / 1024 = 1 ∨ p / 1024 = 2) by zdm. destruct Hb as [-> | ->]; done.
  - exists s', i', out. split_and!; [done|done|done|]. apply (H4 1999). lia.
Defined.
