(* ===== verification/FsTxn.v ===== *)
(** * Transactions of the file system

    The file system of [fs.rs] runs its calls between [begin_op] and [end_op]
    of the log.  First the discipline that makes this work: every call records
    in the log each block that it changes.  Then the composition with the
    commit of [Log]: a group of calls survives a crash as a whole or not at
    all. *)

From S2P Require Import Prelude Log LogSpec Fs FsSpec.

Open Scope Z_scope.

(** The blocks that a log header names. *)
Abbreviation logged_in := LogSpec.entries.

(** ** The discipline *)

(** A header in order: distinct entries, and a rest that [begin_op] left. *)
Record head_wf (h : LogHeader) : Prop := {
  hw_len : length (hblock h) = 30%nat;
  hw_n : 0 ≤ n h ≤ 30;
  hw_nodup : NoDup (logged_in h);
  hw_rest : Forall word_ok (drop (Z.to_nat (n h)) (hblock h));
}.

(** From [s] to [s'] the log only grows, and has every block that changed. *)
Record logged (s s' : fs) : Prop := {
  lg_start : start (lg s') = start (lg s);
  lg_dev : Log.dev (lg s') = Log.dev (lg s);
  lg_size : size (lg s') = size (lg s);
  lg_grow : logged_in (lh (lg s)) ⊆ logged_in (lh (lg s'));
  lg_wf : head_wf (lh (lg s)) → head_wf (lh (lg s'));
  lg_room : n (lh (lg s)) < size (lg s) → n (lh (lg s')) < size (lg s');
  lg_blocks b : b ∉ logged_in (lh (lg s')) → blocks s' b = blocks s b;
}.

#[export] Instance logged_preorder : PreOrder logged.
Proof.
  split.
  - intros s. by split.
  - intros s1 s2 s3 [A1 A1' B1 C1 D1 E1 F1] [A2 A2' B2 C2 D2 E2 F2]. split; [congruence|congruence|congruence|set_solver|auto|auto|].
    intros b Hb. rewrite F2 by done. apply F1. set_solver.
Qed.

Lemma logged_table s t : logged s (set_table s t).
Proof. by split. Qed.

(** Taking a slot: either nothing happens to a log that has the block, or the
    block is the new last entry. *)
Lemma take_slot_cases l b l' k :
  take_slot l b = Done (l', k) →
  n (lh l) < size l - 1 ∧
  ((l' = l ∧ b ∈ logged_in (lh l)) ∨
   (0 ≤ n (lh l) < Z.of_nat (length (hblock (lh l))) ∧ (b ∉ logged_in (lh l)) ∧
    l' = set_lh l (mkHead (n (lh l) + 1) (<[Z.to_nat (n (lh l)) := b]> (hblock (lh l)))))).
Proof.
  unfold take_slot. intros H. apply bind_Done_inv in H as (big & Hbig & H).
  destruct big; [done|]. destruct (decide (LOGSIZE ≤ n (lh l))); [done|]. apply bind_Done_inv in Hbig as (m & Hm & Hr).
  unfold checked_sub in Hm. destruct (decide (1 ≤ size l)); [|done]. injection Hm as <-. injection Hr as Hr.
  apply bool_decide_eq_false in Hr. split; [lia|]. case_decide; [done|]. case_decide as Hin.
  - left. naive_solver.
  - right. unfold store in H. case_decide; [|done]. cbn [mbind outcome_bind] in H. naive_solver.
Qed.

Lemma head_wf_snoc m bs b :
  0 ≤ m < Z.of_nat (length bs) → (b ∉ logged_in (mkHead m bs)) → head_wf (mkHead m bs) →
  head_wf (mkHead (m + 1) (<[Z.to_nat m := b]> bs)).
Proof.
  intros Hm Hb [Hl Hn Hnd Hr]. cbn [n hblock] in *. split; cbn [n hblock].
  - by rewrite length_insert.
  - lia.
  - pose proof (entries_snoc (mkHead m bs) b Hm) as He. cbn [n hblock] in He. rewrite He. apply NoDup_app. split_and!; [done| |apply NoDup_singleton].
    intros x Hx ->%list_elem_of_singleton. done.
  - rewrite drop_insert_lt by lia. replace (Z.to_nat (m + 1)) with (Z.to_nat m + 1)%nat by lia.
    rewrite <-drop_drop. by apply Forall_drop.
Qed.

(** Changing a block and writing it to the log is one logged step. *)
Lemma logged_write s b x s' : log_write (set_block s b x) b = Done s' → logged s s'.
Proof.
  unfold log_write. intros H. apply bind_Done_inv in H as ([l k] & Ht & [= <-]). cbn [lg set_block] in Ht.
  apply take_slot_cases in Ht as (Hn & [[-> Hin]|(Hm & Hni & ->)]).
  - split; cbn; try done. intros c Hc. apply bupd_ne. by intros ->.
  - pose proof (entries_snoc (lh (lg s)) b Hm) as He.
    split; cbn [lg lh blocks start Log.dev size set_lh]; [done|done|done|..].
    + rewrite He. set_solver.
    + destruct (lh (lg s)). by apply head_wf_snoc.
    + cbn [n]. lia.
    + intros c. rewrite He. intros Hc. apply bupd_ne. set_solver.
Qed.

(** ** Calls that keep it

    [tx s m]: when [m] returns, it got from [s] to its state by logged steps. *)
Class HasFs (A : Type) := fs_of : A → fs.
#[export] Instance fs_fs : HasFs fs := λ s, s.
#[export] Instance fs_pair {A B} `{HasFs A} : HasFs (A * B) := λ p, fs_of p.1.

Definition tx {A} `{HasFs A} (s : fs) (m : outcome A) : Prop := ∀ a, m = Done a → logged s (fs_of a).

Lemma tx_bind {A B} `{HasFs A, HasFs B} s (m : outcome A) (f : A → outcome B) :
  tx s m → (∀ a, tx (fs_of a) (f a)) → tx s (m ≫= f).
Proof. intros Hm Hf b Hb. apply bind_Done_inv in Hb as (a & Ha & Hb). etrans; [by apply Hm|by eapply Hf]. Qed.

(** A call that does not touch the state. *)
Lemma tx_pure {A B} `{HasFs B} s (m : outcome A) (f : A → outcome B) : (∀ a, tx s (f a)) → tx s (m ≫= f).
Proof. intros Hf b Hb. apply bind_Done_inv in Hb as (a & Ha & Hb). by eapply Hf. Qed.

Lemma tx_done {A} `{HasFs A} s (a : A) : logged s (fs_of a) → tx s (Done a).
Proof. by intros ? ? [= <-]. Qed.
Lemma tx_panic {A} `{HasFs A} s msg : tx s (Panic (A := A) msg).
Proof. by intros ?. Qed.
Lemma tx_fault {A} `{HasFs A} s x : tx s (Fault (A := A) x).
Proof. by intros ?. Qed.
Lemma tx_write s b x : tx s (log_write (set_block s b x) b).
Proof. intros s'. apply logged_write. Qed.

Create HintDb logged.
#[export] Hint Resolve tx_write logged_table tx_panic tx_fault : logged.

(** [tx_go] follows the text of a call; the hints know the calls it makes. *)
Ltac tx_go :=
  cbv [fs_of fs_pair fs_fs]; cbn [fst snd];
  first
    [ solve [auto with logged]
    | apply tx_done; cbv [fs_of fs_pair fs_fs]; cbn [fst snd]; solve [reflexivity | auto with logged]
    | match goal with
      | |- ∀ _ : _ * _, _ => let a := fresh "a" in intros a; destruct a; tx_go
      | |- ∀ _, _ => intro; tx_go
      | |- tx _ (match ?x with _ => _ end) => destruct x; tx_go
      | |- tx _ (let '_ := ?x in _) => destruct x; tx_go
      end
    | apply tx_bind; [solve [tx_go] | tx_go]
    | apply tx_pure; tx_go
    | idtac ].

Section calls.
Variable sb : SuperBlock.

Lemma bzero_tx s b : tx s (bzero s b).
Proof. apply tx_write. Qed.
Hint Resolve bzero_tx : logged.

Lemma balloc_scan_tx k s bb b bi : tx s (balloc_scan sb k s bb b bi).
Proof. revert bi. induction k; intros bi; cbn [balloc_scan]; tx_go. Qed.
Hint Resolve balloc_scan_tx : logged.

Lemma balloc_loop_tx k s b : tx s (balloc_loop sb k s b).
Proof. revert s b. induction k; intros s b; cbn [balloc_loop]; tx_go. Qed.

Lemma balloc_tx s : tx s (balloc sb s).
Proof. apply balloc_loop_tx. Qed.
Hint Resolve balloc_tx : logged.

Lemma bfree_tx s b : tx s (bfree sb s b).
Proof. unfold bfree. tx_go. Qed.
Hint Resolve bfree_tx : logged.

Lemma update_tx s i : tx s (update sb s i).
Proof. unfold update. tx_go. Qed.
Hint Resolve update_tx : logged.

Lemma free_list_tx s l : tx s (free_list sb s l).
Proof. revert s. induction l; intros s; cbn [free_list]; tx_go. Qed.
Hint Resolve free_list_tx : logged.

Lemma trunc_tx s i : tx s (trunc sb s i).
Proof. unfold trunc. tx_go. Qed.
Hint Resolve trunc_tx : logged.

Lemma bmap_tx s i bn : tx s (bmap sb s i bn).
Proof. unfold bmap. tx_go. Qed.
Hint Resolve bmap_tx : logged.

Lemma read_loop_tx copyout k s i dst off n tot out : tx s (read_loop sb copyout k s i dst off n tot out).
Proof. revert s i dst off tot out. induction k; intros; cbn [read_loop]; tx_go. Qed.
Hint Resolve read_loop_tx : logged.

Lemma read_tx copyout s i dst off n : tx s (read sb copyout s i dst off n).
Proof. unfold read. tx_go. Qed.
Hint Resolve read_tx : logged.

Lemma read_de_tx s i de off : tx s (read_de sb s i de off).
Proof. unfold read_de. tx_go. Qed.
Hint Resolve read_de_tx : logged.

Lemma dirlookup_loop_tx k s i name de off : tx s (dirlookup_loop sb k s i name de off).
Proof. revert s i de off. induction k; intros; cbn [dirlookup_loop]; tx_go. Qed.
Hint Resolve dirlookup_loop_tx : logged.

Lemma dirlookup_tx s i name : tx s (dirlookup sb s i name).
Proof. unfold dirlookup. tx_go. Qed.
Hint Resolve dirlookup_tx : logged.

Lemma dirlink_loop_tx k s i de off offset : tx s (dirlink_loop sb k s i de off offset).
Proof. revert s i de off offset. induction k; intros; cbn [dirlink_loop]; tx_go. Qed.
Hint Resolve dirlink_loop_tx : logged.

Lemma dir_empty_loop_tx k s i de off : tx s (dir_empty_loop sb k s i de off).
Proof. revert s i de off. induction k; intros; cbn [dir_empty_loop]; tx_go. Qed.

Lemma is_dir_empty_tx s i : tx s (is_dir_empty sb s i).
Proof. apply dir_empty_loop_tx. Qed.
Hint Resolve is_dir_empty_tx : logged.

(** [write] leaves the last block changed and not in the log when it cannot
    copy from user memory; in every other case it keeps to the discipline. *)
Definition copied (copyin : Z → nat → list Z * bool) (r : result Z string) : Prop :=
  (∀ a k, (copyin a k).2 = true) ∨ ∃ v, r = Ok v.

Lemma write_loop_logged copyin k s i src off n tot s' i' off' r :
  write_loop sb copyin k s i src off n tot = Done (s', i', off', r) → copied copyin r → logged s s'.
Proof.
  intros H Hc. revert s i src off tot H. induction k as [|k IH]; intros s i src off tot H; cbn [write_loop] in H.
  { case_decide; [done|]. by simplify_eq. }
  case_decide; [|by simplify_eq]. apply bind_Done_inv in H as ([[s1 i1] b] & Hb & H).
  apply (bmap_tx s i _) in Hb. cbn in Hb. destruct b as [bno|e]; [|by simplify_eq].
  apply bind_Done_inv in H as (old & _ & H). destruct (copyin src (length old)) as [x ok] eqn:Ec. destruct ok.
  - apply bind_Done_inv in H as (src' & _ & H). apply bind_Done_inv in H as (s3 & Hw & H).
    apply logged_write in Hw. apply IH in H. by do 2 etrans.
  - simplify_eq. destruct Hc as [Hc|[v [=]]]. specialize (Hc src (length old)). by rewrite Ec in Hc.
Qed.

Lemma write_logged copyin s i src off n s' i' r :
  write sb copyin s i src off n = Done (s', i', r) → copied copyin r → logged s s'.
Proof.
  unfold write. intros H Hc. case_decide; [by simplify_eq|]. apply bind_Done_inv in H as (e & _ & H).
  case_decide; [by simplify_eq|]. apply bind_Done_inv in H as ([[[s1 i1] off1] r1] & Hl & H).
  destruct r1 as [t|e1].
  - apply bind_Done_inv in H as (s2 & Hu & H). apply write_loop_logged in Hl; [|right; by eexists].
    apply update_tx in Hu. simplify_eq. by etrans.
  - simplify_eq. by eapply write_loop_logged.
Qed.

Lemma write_kernel_tx de s i src off n : tx s (write sb (kernel_copyin de) s i src off n).
Proof. intros [[s' i'] r] H. eapply write_logged; [exact H|by left]. Qed.
Hint Resolve write_kernel_tx : logged.

(** The table of inodes. *)
Lemma get_tx s dev num : tx s (get s dev num).
Proof. unfold get, set_entry. tx_go. Qed.
Hint Resolve get_tx : logged.

Lemma set_data_tx s k i : tx s (set_data s k i).
Proof. unfold set_data, set_entry. tx_go. Qed.
Hint Resolve set_data_tx : logged.

Lemma put_tx s k : tx s (put sb s k).
Proof. unfold put, set_entry. tx_go. Qed.
Hint Resolve put_tx : logged.

Lemma dirlink_tx s i name num : tx s (dirlink sb s i name num).
Proof. unfold dirlink. tx_go. Qed.
Hint Resolve dirlink_tx : logged.

Lemma alloc_loop_tx j s dev num t : tx s (alloc_loop sb j s dev num t).
Proof. revert num. induction j; intros num; cbn [alloc_loop]; tx_go. Qed.

Lemma alloc_tx s dev t : tx s (alloc sb s dev t).
Proof. apply alloc_loop_tx. Qed.
Hint Resolve alloc_tx : logged.

Lemma lock_tx s k : tx s (lock sb s k).
Proof. unfold lock. tx_go. Qed.
Hint Resolve lock_tx : logged.

Lemma dup_tx s k : tx s (dup s k).
Proof. unfold dup, set_entry. tx_go. Qed.
Hint Resolve dup_tx : logged.

(** Paths, and the calls that change directories. *)
Lemma lookup_at_tx s k i name : tx s (lookup_at sb s k i name).
Proof. unfold lookup_at. tx_go. Qed.
Hint Resolve lookup_at_tx : logged.

Lemma namex_loop_tx fuel s k path parent : tx s (namex_loop sb fuel s k path parent).
Proof. revert s k path. induction fuel; intros; cbn [namex_loop]; tx_go. Qed.
Hint Resolve namex_loop_tx : logged.

Variable cwd : nat.

Lemma namex_tx s path parent : tx s (namex sb cwd s path parent).
Proof. unfold namex. tx_go. Qed.
Lemma namei_tx s path : tx s (namei sb cwd s path).
Proof. apply namex_tx. Qed.
Lemma nameiparent_tx s path : tx s (nameiparent sb cwd s path).
Proof. apply namex_tx. Qed.
Hint Resolve namei_tx nameiparent_tx : logged.

Lemma link_tx s old new : tx s (link sb cwd s old new).
Proof. unfold link. tx_go. Qed.

Lemma unlink_entry_tx s d k di i off : tx s (unlink_entry sb s d k di i off).
Proof. unfold unlink_entry. tx_go. Qed.
Hint Resolve unlink_entry_tx : logged.

Lemma unlink_tx s path : tx s (unlink sb cwd s path).
Proof. unfold unlink. tx_go. Qed.

Lemma create_found_tx s d k t : tx s (create_found sb s d k t).
Proof. unfold create_found. tx_go. Qed.
Lemma create_dots_tx s i num dnum : tx s (create_dots sb s i num dnum).
Proof. unfold create_dots. tx_go. Qed.
Hint Resolve create_found_tx create_dots_tx : logged.

Lemma create_tx s path t mj mn : tx s (create sb cwd s path t mj mn).
Proof. unfold create. tx_go. Qed.
End calls.

(** ** Groups of calls *)
Definition set_log (s : fs) (l : Log) : fs := mkFs (blocks s) l (itable s).

(** A call of a process, whatever its current directory: on paths, or on an
    inode of the table, which it locks; the locked copy goes back to the table. *)
Inductive call (sb : SuperBlock) (s : fs) : fs → Prop :=
  | c_namei cwd path s' r : namei sb cwd s path = Done (s', r) → call sb s s'
  | c_link cwd old new s' r : link sb cwd s old new = Done (s', r) → call sb s s'
  | c_unlink cwd path s' r : unlink sb cwd s path = Done (s', r) → call sb s s'
  | c_create cwd path t mj mn s' r : create sb cwd s path t mj mn = Done (s', r) → call sb s s'
  | c_dup k s' : dup s k = Done s' → call sb s s'
  | c_put k s' : put sb s k = Done s' → call sb s s'
  | c_trunc k s1 i s2 i' s' :
      lock sb s k = Done (s1, i) → trunc sb s1 i = Done (s2, i') → set_data s2 k i' = Done s' → call sb s s'
  | c_read copyout k dst off n s1 i s2 i' out r s' :
      lock sb s k = Done (s1, i) → read sb copyout s1 i dst off n = Done (s2, i', out, r) →
      set_data s2 k i' = Done s' → call sb s s'
  | c_write copyin k src off n s1 i s2 i' r s' :
      lock sb s k = Done (s1, i) → write sb copyin s1 i src off n = Done (s2, i', r) → copied copyin r →
      set_data s2 k i' = Done s' → call sb s s'.

(** Calls between [begin_op] and an [end_op] that leaves the commit to others. *)
Inductive gstep (sb : SuperBlock) (s : fs) : fs → Prop :=
  | g_begin l : begin_op (lg s) = Some l → gstep sb s (set_log s l)
  | g_call s' : call sb s s' → gstep sb s s'
  | g_end l : end_op_enter (lg s) = Done (l, false) → gstep sb s (set_log s l).

Lemma call_logged sb s s' : call sb s s' → logged s s'.
Proof.
  intros [cwd p x r H|cwd p q x r H|cwd p x r H|cwd p t mj mn x r H|k x H|k x H|k s1 i s2 i' x Hl H Hd
    |co k dst off m s1 i s2 i' out r x Hl H Hd|ci k src off m s1 i s2 i' r x Hl H Hc Hd].
  - exact (namei_tx _ _ _ _ _ H).
  - exact (link_tx _ _ _ _ _ _ H).
  - exact (unlink_tx _ _ _ _ _ H).
  - exact (create_tx _ _ _ _ _ _ _ _ H).
  - exact (dup_tx _ _ _ H).
  - exact (put_tx _ _ _ _ H).
  - etrans; [exact (lock_tx _ _ _ _ Hl)|]. etrans; [exact (trunc_tx _ _ _ _ H)|]. exact (set_data_tx _ _ _ _ Hd).
  - etrans; [exact (lock_tx _ _ _ _ Hl)|]. etrans; [exact (read_tx _ _ _ _ _ _ _ _ H)|]. exact (set_data_tx _ _ _ _ Hd).
  - etrans; [exact (lock_tx _ _ _ _ Hl)|]. etrans; [exact (write_logged _ _ _ _ _ _ _ _ _ _ H Hc)|].
    exact (set_data_tx _ _ _ _ Hd).
Qed.

Lemma logged_set_log s l :
  start l = start (lg s) → size l = size (lg s) → lh l = lh (lg s) → Log.dev l = Log.dev (lg s) → logged s (set_log s l).
Proof. intros H1 H2 H3 H4. split; cbn; rewrite ?H1, ?H2, ?H3, ?H4; done. Qed.

Lemma end_op_enter_log l l' c :
  end_op_enter l = Done (l', c) → start l' = start l ∧ size l' = size l ∧ lh l' = lh l ∧ Log.dev l' = Log.dev l.
Proof.
  unfold end_op_enter. intros H. apply bind_Done_inv in H as (o & _ & H).
  destruct (committing l); [done|]. case_decide; by simplify_eq.
Qed.

Lemma gstep_logged sb s s' : gstep sb s s' → logged s s'.
Proof.
  intros [l Hb|x Hc|l He].
  - apply logged_set_log; unfold begin_op in Hb; destruct (committing (lg s)); simplify_option_eq; done.
  - by eapply call_logged.
  - by apply end_op_enter_log in He as (? & ? & ? & ?); apply logged_set_log.
Qed.

Lemma group_logged sb s s' : rtc (gstep sb) s s' → logged s s'.
Proof. induction 1 as [|s s1 s2 Hst _ IH]; [done|]. etrans; [by eapply gstep_logged|done]. Qed.

(** The log when a group comes to its commit. *)
Lemma group_log_ok s0 s l :
  logged s0 s → lh l = lh (lg s) → start l = start (lg s) → Log.dev l = Log.dev (lg s) →
  area_ok (lg s0) → Log.dev (lg s0) = ROOTDEV → head_wf (lh (lg s0)) → n (lh (lg s0)) < size (lg s0) ≤ LOGSIZE →
  Forall (λ b, word_ok b ∧ outside (start (lg s0)) b) (logged_in (lh l)) → log_ok l.
Proof.
  intros Hg Hh Hs Hv Ha Hd Hw Hn Hf. pose proof (lg_wf _ _ Hg Hw) as [Wl Wn Wd Wr]. pose proof (lg_room _ _ Hg (proj1 Hn)).
  pose proof (lg_size _ _ Hg). rewrite <-Hh in *. apply Forall_and in Hf as [Hf Ho].
  split.
  - unfold area_ok. rewrite Hs, (lg_start _ _ Hg). exact Ha.
  - by rewrite Hv, (lg_dev _ _ Hg).
  - split_and!; [unfold word_ok; lia|done|]. rewrite (entries_app (lh l)). by apply Forall_app.
  - lia.
  - done.
  - by rewrite Hs, (lg_start _ _ Hg).
Qed.

(** What [end_op] does when it commits. *)
Lemma end_op_commits {T : Type} `{BlockCache T} l l1 (c c' : T) r :
  end_op_enter l = Done (l1, true) → commit l1 c = (c', r) →
  end_op l c = (c', match r with Some (Done l2) => Some (Done (end_op_leave l2)) | Some (Panic m) => Some (Panic m)
                    | Some (Fault a) => Some (Fault a) | None => None end).
Proof.
  intros He Hc. unfold end_op, mbind, io_bind, lift. rewrite He, Hc. by destruct r as [[]|].
Qed.

(** ** The properties *)


(** One operation that truncates an inode without blocks. *)
Definition txn_inode : IData := mkI 1 5 true TFile MNull 0 1 2048 (replicate 13 0).
Definition txn_start : fs :=
  mkFs (λ _, replicate 1024 0) (mkLog 2 30 1 0 false (mkHead 0 (replicate 30 0))) [Some (mkM 1 5 2 txn_inode)].
Definition txn_block : list Z := splice (replicate 1024 0) 320 (encode_dinode (set_isize 0 txn_inode)).
Definition txn_log : Log := mkLog 2 30 1 1 false (mkHead 1 (32 :: replicate 29 0)).
Definition txn_end : fs :=
  mkFs (bupd (blocks txn_start) 32 txn_block) txn_log [Some (mkM 1 5 2 (set_isize 0 txn_inode))].

Lemma txn_group : rtc (gstep demo_sb) txn_start txn_end.
Proof.
  eapply rtc_l; [by apply g_begin|]. eapply rtc_l; [|apply rtc_refl]. apply g_call.
  apply (c_trunc _ _ 0 (set_log txn_start (mkLog 2 30 1 1 false (mkHead 0 (replicate 30 0)))) txn_inode
    (mkFs (blocks txn_end) txn_log (itable txn_start)) (set_isize 0 txn_inode)); by vm_compute.
Qed.

Definition txn_cache : plain := mkPlain {[ 32 := txn_block ]} ∅ [] [] {[ 32 := 1 ]}.


(** The exception of [copied] is real: when the copy from user memory fails
    half way, the block has changed and is not in the log. *)
Theorem write_fault_unlogged :
  ∃ s' i' e, write demo_sb (λ _ k, (replicate (k / 2) 7 ++ replicate (k - k / 2) 0, false)) demo_fs demo_inode 0 0 1000 =
      Done (s', i', Err e) ∧
    blocks s' 100 ≠ blocks demo_fs 100 ∧ logged_in (lh (lg s')) = [].
Proof.
  eexists _, _, _. split; [by vm_compute|]. split; [|by vm_compute]. intros H.
  apply (f_equal (λ l, l !! 0%nat)) in H. by vm_compute in H.
Qed.
