(* ===== verification/FsAlloc.v ===== *)
(** * Blocks and inodes given back and handed out

    [trunc] frees the blocks of a file, which takes one slot of the log per
    block; the last [put] of an unlinked file frees its inode as well;
    [ITable::alloc] hands out the first free inode. *)

From S2P Require Import Prelude Log LogSpec Fs FsSpec FsFile FsTxn.

Open Scope Z_scope.

Section super.
Variable sb : SuperBlock.
Hypothesis Hbmap : 0 ≤ bmapstart sb.

(** ** The bitmap *)

(** The block that [bblock] computes for the bit of block [b], and that bit.
    [balloc] and [bfree] look there; it is not where the image builder puts the
    bitmap ([bblock] adds [BPB] where it should divide by it), so [used] says
    what the kernel takes for the state of a block. *)
Definition bitmap_of (b : Z) : Z := b + BPB + bmapstart sb.
Definition used (s : fs) (b : Z) : bool :=
  match blocks s (bitmap_of b) !! Z.to_nat ((b `mod` BPB) / 8) with
  | Some x => Z.testbit x ((b `mod` BPB) `mod` 8)
  | None => false
  end.

Lemma used_ext s s' b : blocks s' (bitmap_of b) = blocks s (bitmap_of b) → used s' b = used s b.
Proof. unfold used. by intros ->. Qed.

Lemma bblock_ok b : 0 ≤ b → bitmap_of b < u32_mod → bblock sb b = Done (bitmap_of b).
Proof.
  unfold bblock, bitmap_of. change BPB with 8192. intros Hb Hlt. rewrite checked_add32_ok by lia. cbn [mbind outcome_bind].
  by rewrite checked_add32_ok by lia.
Qed.

Lemma bblock_inv b bb : bblock sb b = Done bb → bb = bitmap_of b.
Proof. unfold bblock, checked_add32, bitmap_of. intros H. inv_done. repeat case_decide; by simplify_eq. Qed.

(** [bfree] of a used block with room in the log. *)
Lemma bfree_ok s b k :
  full_blocks s → 0 ≤ b → bitmap_of b < u32_mod → used s b = true → room s (S k) →
  ∃ s', bfree sb s b = Done s' ∧ room s' k ∧ full_blocks s' ∧ used s' b = false ∧
    ∀ c, c ≠ bitmap_of b → blocks s' c = blocks s c.
Proof.
  intros Hs Hb Hlt Hu Hr. unfold bfree. rewrite bblock_ok by done. cbn [mbind outcome_bind].
  unfold used, get_byte in *. destruct (blocks s (bitmap_of b) !! Z.to_nat ((b `mod` BPB) / 8)) as [x|] eqn:Ex; [|done].
  assert (Hbit : 0 ≤ (b `mod` BPB) `mod` 8 < 8) by (apply Z.mod_pos_bound; lia). cbn [mbind outcome_bind].
  pose proof (land_pow2_nonzero x ((b `mod` BPB) `mod` 8) ltac:(lia)) as Hnz. rewrite Hu in Hnz.
  destruct (Z.land x _ =? 0); [done|].
  match goal with |- context [log_write ?s0 ?b0] => destruct (log_write_room s0 b0 k Hr) as (s' & -> & Hr' & Hb' & _) end.
  exists s'. split_and!; [done|done| | |].
  - intros c. rewrite Hb'. apply full_set; [done|]. by rewrite length_insert.
  - rewrite Hb'. cbn [blocks set_block]. rewrite bupd_eq, list_lookup_insert_eq by (by eapply lookup_lt_Some).
    rewrite testbit_land_clear by done. by rewrite bool_decide_eq_true_2, andb_false_r.
  - intros c Hc. rewrite Hb'. by apply bupd_ne.
Qed.

(** ** Lists of addresses; address 0 stands for no block *)
Definition some_blocks (l : list Z) : list Z := filter (λ a, 0 < a) l.

Lemma some_blocks_id l : Forall (λ a, 0 < a) l → some_blocks l = l.
Proof. induction 1 as [|a l Ha _ IH]; [done|]. unfold some_blocks in *. by rewrite filter_cons_True, IH. Qed.

Lemma free_list_ok l s r :
  full_blocks s → NoDup (some_blocks l) → Forall (λ b, bitmap_of b < u32_mod ∧ used s b = true) (some_blocks l) →
  room s (length (some_blocks l) + r) →
  ∃ s', free_list sb s l = Done s' ∧ room s' r ∧ full_blocks s' ∧
    (∀ b, b ∈ some_blocks l → used s' b = false) ∧
    ∀ c, c ∉ bitmap_of <$> some_blocks l → blocks s' c = blocks s c.
Proof.
  revert s. induction l as [|a l IH]; intros s Hs Hnd Hall Hr; cbn [free_list].
  { exists s. split_and!; try done. intros b Hb. by apply not_elem_of_nil in Hb. }
  unfold some_blocks in *. rewrite filter_cons in *. destruct (decide (0 < a)) as [Ha|Ha]; [|by apply IH].
  apply NoDup_cons in Hnd as [Hni Hnd]. apply Forall_cons in Hall as [[Hlt Hu] Hall]. cbn [length] in Hr.
  destruct (bfree_ok s a _ Hs ltac:(lia) Hlt Hu Hr) as (s1 & -> & Hr1 & Hs1 & Hf1 & Hb1). cbn [mbind outcome_bind].
  assert (Hne : ∀ b, b ≠ a → bitmap_of b ≠ bitmap_of a) by (unfold bitmap_of; lia).
  destruct (IH s1 Hs1 Hnd) as (s2 & -> & Hr2 & Hs2 & Hf2 & Hb2); [|done|].
  { rewrite Forall_forall in Hall |- *. intros b Hb. destruct (Hall b Hb) as [Hb0 Hb3]. split; [done|]. rewrite <-Hb3. apply used_ext, Hb1, Hne.
    by intros ->. }
  exists s2. split_and!; [done|done|done| |].
  - intros b [->|Hb]%elem_of_cons; [|by apply Hf2]. rewrite <-Hf1. apply used_ext, Hb2.
    intros [b [He Hb]]%list_elem_of_fmap. apply (Hne b); [by intros ->|done].
  - intros c. rewrite fmap_cons, not_elem_of_cons. intros [Hc1 Hc2]. by rewrite Hb2, Hb1.
Qed.

(** ** [trunc] *)

(** The blocks of a file: the direct ones, and those of its block of addresses. *)
Definition indirect (s : fs) (i : IData) : list Z :=
  match addrs i !! Z.to_nat NDIRECT with
  | Some a => if decide (0 < a) then some_blocks (decode_words (Z.to_nat NINDIRECT) (blocks s a)) ++ [a] else []
  | None => []
  end.
Definition file_blocks (s : fs) (i : IData) : list Z := some_blocks (take (Z.to_nat NDIRECT) (addrs i)) ++ indirect s i.

(** The bits of its blocks are apart from its inode and its block of addresses. *)
Definition bits_apart (s : fs) (i : IData) (ib : Z) : Prop :=
  (ib ∉ bitmap_of <$> file_blocks s i) ∧
  ∀ a, addrs i !! Z.to_nat NDIRECT = Some a → a ∉ bitmap_of <$> file_blocks s i.

Lemma free_list_app l k s : free_list sb s (l ++ k) = (s1 ← free_list sb s l; free_list sb s1 k).
Proof.
  revert s. induction l as [|x l IH]; intros s; [done|]. cbn [free_list app]. case_decide; [|by rewrite IH].
  destruct (bfree sb s x); cbn [mbind outcome_bind]; [by rewrite IH|done|done].
Qed.

Lemma free_list_some l s : free_list sb s (some_blocks l) = free_list sb s l.
Proof.
  revert s. unfold some_blocks. induction l as [|x l IH]; intros s; [done|]. rewrite filter_cons. cbn [free_list].
  destruct (decide (0 < x)) as [Hx|Hx]; [|done]. cbn [free_list]. rewrite decide_True by done.
  destruct (bfree sb s x); [|done|done]. cbn [mbind outcome_bind]. by rewrite IH.
Qed.

(** The inode that [trunc] leaves. *)
Definition emptied (i : IData) : IData := set_isize 0 (set_addrs (replicate 13 0) i).

(** [trunc] frees two lists and writes the inode. *)
Lemma trunc_lists s i :
  length (addrs i) = 13%nat →
  trunc sb s i = (s1 ← free_list sb s (take (Z.to_nat NDIRECT) (addrs i)); s2 ← free_list sb s1 (indirect s1 i);
                  s3 ← update sb s2 (emptied i); Done (s3, emptied i)).
Proof.
  intros Hl. unfold trunc. destruct (free_list sb s _) as [s1| |]; [|done|done]. cbn [mbind outcome_bind].
  unfold get_byte, indirect. destruct (addrs i !! Z.to_nat NDIRECT) as [a|] eqn:Ea.
  2: { apply lookup_ge_None in Ea. rewrite Hl in Ea. change (Z.to_nat NDIRECT) with 12%nat in Ea. lia. }
  cbn [mbind outcome_bind]. destruct (decide (0 < a)) as [Hp|]; [|done].
  rewrite free_list_app, free_list_some. destruct (free_list sb s1 _) as [s2| |]; [|done|done].
  cbn [mbind outcome_bind free_list]. rewrite decide_True by done. by destruct (bfree sb s2 a).
Qed.

(** Freeing the direct blocks leaves the block of addresses. *)
Lemma indirect_ext s s1 i :
  (∀ a, addrs i !! Z.to_nat NDIRECT = Some a → blocks s1 a = blocks s a) → indirect s1 i = indirect s i.
Proof.
  intros H. unfold indirect. destruct (addrs i !! Z.to_nat NDIRECT) as [a|]; [|done]. by rewrite (H a).
Qed.

Lemma some_blocks_indirect s i : some_blocks (indirect s i) = indirect s i.
Proof.
  apply some_blocks_id. unfold indirect. destruct (addrs i !! _) as [a|]; [|constructor].
  case_decide; [|constructor]. apply Forall_app. split; [|by constructor]. apply Forall_forall.
  by intros x [Hx _]%list_elem_of_filter.
Qed.

(** Both lists, one after the other. *)
Lemma free_both_ok s i ib r :
  full_blocks s → NoDup (file_blocks s i) → bits_apart s i ib →
  Forall (λ b, bitmap_of b < u32_mod ∧ used s b = true) (file_blocks s i) →
  room s (length (file_blocks s i) + r) →
  ∃ s1 s2, free_list sb s (take (Z.to_nat NDIRECT) (addrs i)) = Done s1 ∧ free_list sb s1 (indirect s1 i) = Done s2 ∧
    room s2 r ∧ full_blocks s2 ∧ (∀ b, b ∈ file_blocks s i → used s2 b = false) ∧
    ∀ c, c ∉ bitmap_of <$> file_blocks s i → blocks s2 c = blocks s c.
Proof.
  intros Hs Hnd [_ Hap] Hall Hr. unfold file_blocks in *. rewrite length_app, <-Nat.add_assoc in Hr.
  pose proof Hnd as (Hnd1 & Hx & Hnd2)%NoDup_app. apply Forall_app in Hall as [Hall1 Hall2]. rewrite fmap_app in *.
  destruct (free_list_ok _ s _ Hs Hnd1 Hall1 Hr) as (s1 & Hf1 & Hr1 & Hs1 & Hu1 & Hb1).
  assert (Hi : indirect s1 i = indirect s i).
  { apply indirect_ext. intros a Ha. apply Hb1. intros Hin. apply (Hap a Ha). apply elem_of_app. by left. }
  pose proof (some_blocks_indirect s i) as Hpos.
  assert (Hinj : ∀ b, b ∈ indirect s i → bitmap_of b ∉ bitmap_of <$> some_blocks (take (Z.to_nat NDIRECT) (addrs i))).
  { intros b Hb [b' [He Hb']]%list_elem_of_fmap. assert (b' = b) as -> by (unfold bitmap_of in He; lia). by apply (Hx b). }
  destruct (free_list_ok (indirect s i) s1 r Hs1) as (s2 & Hf2 & Hr2 & Hs2 & Hu2 & Hb2); rewrite ?Hpos in *.
  - done.
  - rewrite Forall_forall in Hall2 |- *. intros b Hb. destruct (Hall2 b Hb) as [H1 H2]. split; [done|].
    rewrite <-H2. by apply used_ext, Hb1, Hinj.
  - done.
  - exists s1, s2. rewrite Hi. split_and!; [done|done|done|done| |].
    + intros b [Hb|Hb]%elem_of_app; [|by apply Hu2]. rewrite <-(Hu1 b Hb). apply used_ext, Hb2.
      intros [b' [He Hb']]%list_elem_of_fmap. assert (b' = b) as -> by (unfold bitmap_of in He; lia). by apply (Hx b).
    + intros c [Hc1 Hc2]%not_elem_of_app. rewrite Hb2 by done. by apply Hb1.
Qed.

(** ** The slots that it takes *)
Lemma log_write_entry s b s' : log_write s b = Done s' → b ∈ logged_in (lh (lg s')).
Proof.
  unfold log_write. intros H. apply bind_Done_inv in H as ([l k] & Ht & [= <-]). cbn [lg].
  apply take_slot_cases in Ht as (_ & [[-> Hin]|(Hm & _ & ->)]); [done|]. cbn [lh set_lh].
  rewrite (entries_snoc (lh (lg s)) b Hm). apply elem_of_app. right. by apply list_elem_of_singleton.
Qed.

Lemma bfree_entry s b s' : bfree sb s b = Done s' → bitmap_of b ∈ logged_in (lh (lg s')).
Proof.
  unfold bfree. intros H. apply bind_Done_inv in H as (bb & Hbb & H). apply bind_Done_inv in H as (x & _ & H).
  destruct (Z.land x _ =? 0); [done|]. apply log_write_entry in H.
  by apply bblock_inv in Hbb as ->.
Qed.

Lemma free_list_entries l s s' :
  free_list sb s l = Done s' → ∀ b, b ∈ some_blocks l → bitmap_of b ∈ logged_in (lh (lg s')).
Proof.
  revert s. unfold some_blocks. induction l as [|a l IH]; intros s H b; [by intros ?%not_elem_of_nil|].
  cbn [free_list] in H. rewrite filter_cons. destruct (decide (0 < a)); [|by eapply IH].
  apply bind_Done_inv in H as (s1 & H1 & H2). intros [->|Hb]%elem_of_cons; [|by eapply IH].
  apply bfree_entry in H1. by apply (lg_grow _ _ (free_list_tx _ _ _ _ H2)).
Qed.

Lemma free_list_else l s s' c :
  free_list sb s l = Done s' → (c ∉ bitmap_of <$> some_blocks l) → blocks s' c = blocks s c.
Proof.
  revert s. unfold some_blocks. induction l as [|a l IH]; intros s H; cbn [free_list] in H; [by simplify_eq|].
  rewrite filter_cons. destruct (decide (0 < a)); [|by apply IH].
  apply bind_Done_inv in H as (s1 & H1 & H2). rewrite fmap_cons, not_elem_of_cons. intros [Hc Hl].
  rewrite (IH s1 H2 Hl). unfold bfree in H1. apply bind_Done_inv in H1 as (bb & Hbb & H1).
  apply bblock_inv in Hbb as ->. apply bind_Done_inv in H1 as (x & _ & H1).
  destruct (Z.land x _ =? 0); [done|]. apply log_write_blocks in H1 as [-> _]. by apply bupd_ne.
Qed.

Lemma bfree_table s b s' : bfree sb s b = Done s' → itable s' = itable s.
Proof.
  unfold bfree. intros H. apply bind_Done_inv in H as (bb & _ & H). apply bind_Done_inv in H as (x & _ & H).
  destruct (Z.land x _ =? 0); [done|]. by apply log_write_blocks in H as [_ H].
Qed.

Lemma free_list_table l s s' : free_list sb s l = Done s' → itable s' = itable s.
Proof.
  revert s. induction l as [|a l IH]; intros s H; cbn [free_list] in H; [by simplify_eq|]. case_decide; [|by apply IH].
  apply bind_Done_inv in H as (s1 & H1 & H2). apply bfree_table in H1. rewrite <-H1. by apply IH.
Qed.

(** A run of [trunc] has the bitmap block of every block of the file in the log. *)
Lemma trunc_entries s i s' i' :
  length (addrs i) = 13%nat → (∀ a, addrs i !! Z.to_nat NDIRECT = Some a → a ∉ bitmap_of <$> file_blocks s i) →
  trunc sb s i = Done (s', i') → bitmap_of <$> file_blocks s i ⊆ logged_in (lh (lg s')).
Proof.
  intros Hlen Hap H. rewrite trunc_lists in H by done. apply bind_Done_inv in H as (s1 & H1 & H).
  apply bind_Done_inv in H as (s2 & H2 & H). apply bind_Done_inv in H as (s3 & H3 & H). injection H as <- _.
  unfold file_blocks in *. rewrite fmap_app in *.
  assert (Hi : indirect s1 i = indirect s i).
  { apply indirect_ext. intros a Ha. eapply free_list_else; [exact H1|]. intros Hin. apply (Hap a Ha), elem_of_app. by left. }
  rewrite Hi in H2. pose proof (lg_grow _ _ (update_tx _ _ _ _ H3)) as G3. pose proof (lg_grow _ _ (free_list_tx _ _ _ _ H2)) as G2.
  intros x [Hx|Hx]%elem_of_app; apply list_elem_of_fmap in Hx as (b & -> & Hb); apply G3.
  - apply G2. by eapply free_list_entries.
  - eapply free_list_entries; [exact H2|]. by rewrite some_blocks_indirect.
Qed.
End super.

(** ** Inodes *)

(** Inode [num] as the disk has it. *)
Definition dinode (sb : SuperBlock) (s : fs) (dev num : Z) : IData :=
  decode_dinode dev num (take (Z.to_nat SIZEOF_DINODE) (drop (dinode_off num) (blocks s (num / IPB + inodestart sb)))).

Definition fresh_inode (dev num : Z) (t : IType) : IData := mkI dev num true t MNull 0 0 0 (replicate 13 0).

Lemma fresh_inode_ok dev num t : dinode_ok (fresh_inode dev num t).
Proof. split; cbn; try lia. repeat (constructor; [unfold word_ok; lia|]). constructor. Qed.

Lemma iblock_inv sb num bb : iblock sb num = Done bb → bb = num / IPB + inodestart sb.
Proof. unfold iblock, checked_add32. case_decide; by intros [= <-]. Qed.

(** Writing an inode changes it and no other. *)
Lemma dinode_splice sb s s' dev num i :
  full_blocks s → 0 ≤ num → dinode_ok i → idev i = dev → inum i = num → ivalid i = true →
  blocks s' = bupd (blocks s) (num / IPB + inodestart sb)
                (splice (blocks s (num / IPB + inodestart sb)) (dinode_off num) (encode_dinode i)) →
  dinode sb s' dev num = i ∧ ∀ dev' m, 0 ≤ m → m ≠ num → dinode sb s' dev' m = dinode sb s dev' m.
Proof.
  intros Hs Hn Hi Hd Hm Hv Hb. pose proof (length_encode_dinode i (k_len _ Hi)) as He. pose proof (dinode_off_range _ Hn) as Ho.
  unfold dinode. rewrite Hb. split.
  - rewrite bupd_eq, splice_same by (rewrite ?He, ?Hs; done). rewrite <-Hd, <-Hm, decode_encode_dinode by done.
    destruct i. cbn in *. by subst.
  - intros dev' m Hm0 Hne. f_equal. destruct (decide (m / IPB = num / IPB)) as [Hq|Hq].
    + rewrite Hq, bupd_eq. apply splice_other; [by rewrite He, Hs|]. rewrite He.
      pose proof (dinode_off_apart m num Hm0 Hn Hq Hne). change (Z.to_nat SIZEOF_DINODE) with 64%nat. lia.
    + rewrite bupd_ne by lia. done.
Qed.

Lemma get_entry s dev num s' k :
  get s dev num = Done (s', k) →
  blocks s' = blocks s ∧ ∃ e, itable s' !! k = Some (Some e) ∧ m_dev e = dev ∧ m_inum e = num.
Proof.
  unfold get. destruct (list_find (is_inode dev num) (itable s)) as [[j e]|] eqn:Hf.
  - apply list_find_Some in Hf as (Hj & He & _). destruct e as [e|]; [|done]. intros [= <- <-]. split; [done|].
    eexists. cbn [itable set_entry set_table]. rewrite list_lookup_insert_eq by (by eapply lookup_lt_Some). split; [done|exact He].
  - destruct (list_find (λ e, e = None) (itable s)) as [[j e]|] eqn:Hg; [|done]. apply list_find_Some in Hg as (Hj & -> & _).
    intros [= <- <-]. split; [done|]. eexists. cbn [itable set_entry set_table].
    by rewrite list_lookup_insert_eq by (by eapply lookup_lt_Some).
Qed.

Lemma alloc_loop_exact sb j s dev num t s' r :
  full_blocks s → 1 ≤ num → alloc_loop sb j s dev num t = Done (s', r) →
  match r with
  | Some k => ∃ m, num ≤ m < num + Z.of_nat j ∧ itype (dinode sb s dev m) = TNone ∧
      (∀ p, num ≤ p < m → itype (dinode sb s dev p) ≠ TNone) ∧ dinode sb s' dev m = fresh_inode dev m t ∧
      (∀ dev' p, 0 ≤ p → p ≠ m → dinode sb s' dev' p = dinode sb s dev' p) ∧
      ∃ e, itable s' !! k = Some (Some e) ∧ m_dev e = dev ∧ m_inum e = m
  | None => s' = s ∧ ∀ p, num ≤ p < num + Z.of_nat j → itype (dinode sb s dev p) ≠ TNone
  end.
Proof.
  intros Hs. revert num. induction j as [|j IH]; intros num Hnum H; cbn [alloc_loop] in H.
  { simplify_eq. split; [done|lia]. }
  apply bind_Done_inv in H as (bb & Hbb & H). apply iblock_inv in Hbb as ->.
  change (decode_dinode dev num _) with (dinode sb s dev num) in H.
  destruct (decide (itype (dinode sb s dev num) = TNone)) as [Hf|Hf].
  - apply bind_Done_inv in H as (s1 & H1 & H). apply bind_Done_inv in H as ([s2 k] & H2 & H). injection H as <- <-.
    apply log_write_blocks in H1 as [H1 _]. apply get_entry in H2 as [H2 He].
    destruct (dinode_splice sb s s2 dev num (fresh_inode dev num t)) as [D1 D2];
      [done|lia|apply fresh_inode_ok|done|done|done|by rewrite H2, H1|].
    exists num. split_and!; [lia|lia|done|lia|done|done|done].
  - apply IH in H; [|lia]. destruct r as [k|].
    + destruct H as (m & Hm & Ht & Hu & Hrest). exists m. split_and!; [lia|lia|done| |apply Hrest..].
      intros p Hp. destruct (decide (p = num)) as [->|]; [done|]. apply Hu. lia.
    + destruct H as [-> Hu]. split; [done|]. intros p Hp. destruct (decide (p = num)) as [->|]; [done|]. apply Hu. lia.
Qed.

(** What [trunc] does: from [s] the bits are cleared, giving [s2], then the
    inode is written. *)
Lemma trunc_ok sb s i ib k :
  0 ≤ bmapstart sb → full_blocks s → length (addrs i) = 13%nat → iblock sb (inum i) = Done ib → 0 ≤ inum i →
  NoDup (file_blocks s i) → bits_apart sb s i ib →
  Forall (λ b, bitmap_of sb b < u32_mod ∧ used sb s b = true) (file_blocks s i) →
  room s (length (file_blocks s i) + S k) →
  ∃ s2 s', trunc sb s i = Done (s', emptied i) ∧ room s' k ∧ full_blocks s2 ∧ full_blocks s' ∧ itable s' = itable s ∧
    (∀ b, b ∈ file_blocks s i → used sb s2 b = false) ∧
    (∀ c, c ∉ bitmap_of sb <$> file_blocks s i → blocks s2 c = blocks s c) ∧
    blocks s' = bupd (blocks s2) ib (splice (blocks s2 ib) (dinode_off (inum i)) (encode_dinode (emptied i))).
Proof.
  intros Hbmap Hs Hlen Hib Hnum Hnd Hap Hall Hroom. rewrite trunc_lists by done.
  destruct (free_both_ok sb Hbmap s i ib (S k) Hs Hnd Hap Hall Hroom) as (s1 & s2 & Hf1 & Hf & Hr & Hs2 & Hu & Hb).
  rewrite Hf1. cbn [mbind outcome_bind]. rewrite Hf. cbn [mbind outcome_bind]. unfold update. change (inum (emptied i)) with (inum i).
  rewrite Hib. cbn [mbind outcome_bind]. set (x := splice (blocks s2 ib) _ _).
  destruct (log_write_room (set_block s2 ib x) ib k Hr) as (s3 & -> & Hr3 & Hb3 & Ht3). cbn [mbind outcome_bind].
  assert (Hx : length x = 1024%nat).
  { unfold x. rewrite length_splice; rewrite ?Hs2; [done|]. rewrite length_encode_dinode by done. by apply dinode_off_range. }
  exists s2, s3. split_and!; [done|done|done| | |done|done|done].
  - intros b. rewrite Hb3. by apply full_set.
  - rewrite Ht3. cbn [itable set_block]. rewrite (free_list_table _ _ _ _ Hf). by apply free_list_table in Hf1.
Qed.

(** With room in the log and in the table it returns. *)
Lemma get_total s dev num : None ∈ itable s → ∃ r, get s dev num = Done r.
Proof.
  intros Hin. unfold get. destruct (list_find (is_inode dev num) (itable s)) as [[j e]|]; [by eexists|].
  destruct (list_find_elem_of (λ e, e = None) (itable s) None Hin eq_refl) as [[k e] ->]. by eexists.
Qed.

Lemma alloc_loop_total sb j s dev num t :
  room s 1 → None ∈ itable s → (num + Z.of_nat j) / IPB + inodestart sb < u32_mod →
  ∃ r, alloc_loop sb j s dev num t = Done r.
Proof.
  intros Hr Hin. revert num. induction j as [|j IH]; intros num Hw; cbn [alloc_loop]; [by eexists|].
  assert (Hle : num / IPB ≤ (num + Z.of_nat (S j)) / IPB) by (apply Z.div_le_mono; [done|lia]).
  unfold iblock. rewrite checked_add32_ok by lia. cbn [mbind outcome_bind]. case_decide.
  - match goal with |- context [log_write ?s0 ?b0] => destruct (log_write_room s0 b0 0 Hr) as (s1 & -> & _ & _ & Ht) end.
    cbn [mbind outcome_bind]. destruct (get_total s1 dev num) as [[s2 k] ->]; [by rewrite Ht|]. by eexists.
  - apply IH. by replace (num + 1 + Z.of_nat j) with (num + Z.of_nat (S j)) by lia.
Qed.

(** ** The properties *)

(** [trunc] frees a file.  When its blocks are distinct and in use, their
    bits apart from the inode and the block of addresses, and the log has room
    for a slot per block and one for the inode, [trunc] returns: the inode has
    size 0 and no blocks, each of its blocks is free in the bitmap, and no other
    block than the bitmap blocks of these and the block of the inode changed. *)
Theorem trunc_frees sb s i ib
    (Hbmap : 0 ≤ bmapstart sb) (Hs : full_blocks s) (Hlen : length (addrs i) = 13%nat)
    (Hib : iblock sb (inum i) = Done ib) (Hnum : 0 ≤ inum i)
    (Hnd : NoDup (file_blocks s i)) (Hap : bits_apart sb s i ib)
    (Hall : Forall (λ b, bitmap_of sb b < u32_mod ∧ used sb s b = true) (file_blocks s i))
    (Hroom : room s (length (file_blocks s i) + 1)) :
  ∃ s', trunc sb s i = Done (s', emptied i) ∧ full_blocks s' ∧
    (∀ b, b ∈ file_blocks s i → used sb s' b = false) ∧
    ∀ c, c ≠ ib → (c ∉ bitmap_of sb <$> file_blocks s i) → blocks s' c = blocks s c.
Proof.
  destruct (trunc_ok sb s i ib 0 Hbmap Hs Hlen Hib Hnum Hnd Hap Hall Hroom)
    as (s2 & s3 & -> & _ & _ & Hs3 & _ & Hu & Hb & Hb3).
  exists s3. split_and!; [done|done| |].
  - intros b Hin. rewrite <-(Hu b Hin). apply used_ext. rewrite Hb3. apply bupd_ne. intros He.
    apply (proj1 Hap). rewrite <-He. by apply list_elem_of_fmap_2.
  - intros c Hne Hc. rewrite Hb3, bupd_ne by done. by apply Hb.
Qed.

(** C40. Large files cannot be truncated.  When [trunc] returns, the file has
    fewer blocks than the log area, because each block that it frees has a
    bitmap block of its own and takes a slot.  So with the log of [LOGSIZE]
    blocks that the image builder lays out, [trunc] of a file of [LOGSIZE]
    blocks or more never returns. *)
Theorem trunc_bound sb s i s' i'
    (Hlen : length (addrs i) = 13%nat) (Hnd : NoDup (file_blocks s i))
    (Hap : ∀ a, addrs i !! Z.to_nat NDIRECT = Some a → a ∉ bitmap_of sb <$> file_blocks s i)
    (Hhead : head_wf (lh (lg s))) (Hlog : n (lh (lg s)) < size (lg s))
    (Hrun : trunc sb s i = Done (s', i')) :
  Z.of_nat (length (file_blocks s i)) < size (lg s).
Proof.
  pose proof (trunc_entries _ _ _ _ _ Hlen Hap Hrun) as Hsub. pose proof (trunc_tx _ _ _ _ Hrun) as Hg. cbn in Hg.
  pose proof (lg_room _ _ Hg Hlog) as Hn. rewrite (lg_size _ _ Hg) in Hn. pose proof (hw_n _ (lg_wf _ _ Hg Hhead)) as Hn0.
  assert (Hle : (length (bitmap_of sb <$> file_blocks s i) ≤ length (logged_in (lh (lg s'))))%nat).
  { apply submseteq_length, NoDup_submseteq; [|done]. apply NoDup_fmap_2; [|done]. intros x y. unfold bitmap_of. lia. }
  rewrite length_fmap in Hle. unfold LogSpec.entries in Hle. rewrite length_take in Hle. lia.
Qed.

(** A file of two blocks on a disk where every block behind 8000 is full of
    ones. *)
Definition ones_fs : fs :=
  mkFs (λ b, if decide (8000 ≤ b) then replicate 1024 255 else replicate 1024 0) demo_log (replicate NINODE None).

Lemma ones_full : full_blocks ones_fs.
Proof. intros b. cbn [blocks ones_fs]. case_decide; apply length_replicate. Qed.

Lemma ones_blocks : file_blocks ones_fs demo_inode = [100; 101].
Proof. by vm_compute. Qed.

Lemma trunc_frees_witness :
  ∃ s', trunc demo_sb ones_fs demo_inode = Done (s', emptied demo_inode) ∧ used demo_sb s' 100 = false ∧ used demo_sb s' 101 = false.
Proof.
  destruct (trunc_frees demo_sb ones_fs demo_inode 32) as (s' & H1 & _ & H2 & _); rewrite ?ones_blocks in *;
    [done|exact ones_full|done|done|done| | | |by vm_compute|].
  - repeat constructor; set_solver.
  - unfold bits_apart. rewrite ones_blocks. split; [by vm_compute; set_solver|]. intros a [= <-]. by vm_compute; set_solver.
  - repeat constructor.
  - exists s'. split_and!; [done|apply H2; set_solver|apply H2; set_solver].
Defined.

Lemma trunc_bound_witness : Z.of_nat (length (file_blocks ones_fs demo_inode)) < size (lg ones_fs).
Proof.
  destruct (trunc demo_sb ones_fs demo_inode) as [[s' i']|m|a] eqn:E; [|by vm_compute in E|by vm_compute in E].
  apply (trunc_bound demo_sb ones_fs demo_inode s' i'); rewrite ?ones_blocks; [done| | | |done|exact E].
  - repeat constructor; set_solver.
  - intros a [= <-]. by vm_compute; set_solver.
  - split; [done|by vm_compute|apply NoDup_nil_2|]. apply Forall_drop, Forall_replicate. by vm_compute.
Defined.

(** C22. [ITable::alloc] hands out the first free inode.  With a slot left in
    the log and in the table it returns, and gives an entry of the table for the
    smallest number from 1 on whose inode has no type on disk; that inode is
    then empty and of the type asked for, and every other inode is as before.
    When all numbers below [ninodes] are taken it finds none and changes
    nothing. *)
Theorem ialloc_exact sb s dev t
    (Hs : full_blocks s) (Hroom : room s 1) (Htable : None ∈ itable s)
    (Hsb : 1 ≤ ninodes sb ∧ ninodes sb / IPB + inodestart sb < u32_mod) :
  ∃ s' r, alloc sb s dev t = Done (s', r) ∧
    match r with
    | Some k => ∃ num, 1 ≤ num < ninodes sb ∧ itype (dinode sb s dev num) = TNone ∧
        (∀ p, 1 ≤ p < num → itype (dinode sb s dev p) ≠ TNone) ∧ dinode sb s' dev num = fresh_inode dev num t ∧
        (∀ dev' p, 0 ≤ p → p ≠ num → dinode sb s' dev' p = dinode sb s dev' p) ∧
        ∃ e, itable s' !! k = Some (Some e) ∧ m_dev e = dev ∧ m_inum e = num
    | None => s' = s ∧ ∀ p, 1 ≤ p < ninodes sb → itype (dinode sb s dev p) ≠ TNone
    end.
Proof.
  unfold alloc. destruct (alloc_loop_total sb (Z.to_nat (ninodes sb - 1)) s dev 1 t Hroom Htable) as [[s' r] Hrun].
  { replace (1 + Z.of_nat (Z.to_nat (ninodes sb - 1))) with (ninodes sb) by lia. apply Hsb. }
  exists s', r. split; [done|]. apply alloc_loop_exact in Hrun; [|done|lia]. destruct r as [k|].
  - destruct Hrun as (m & Hm & Hrest). exists m. split; [lia|exact Hrest].
  - destruct Hrun as [-> Hu]. split; [done|]. intros p Hp. apply Hu. lia.
Qed.

Lemma ialloc_exact_witness :
  ∃ s' r, alloc demo_sb demo_fs 1 TFile = Done (s', r) ∧ (∃ k, r = Some k) ∧ dinode demo_sb s' 1 1 = fresh_inode 1 1 TFile.
Proof.
  destruct (ialloc_exact demo_sb demo_fs 1 TFile) as (s' & r & E & H);
    [intros b; apply length_replicate|vm_compute; intuition congruence|apply list_elem_of_here|vm_compute; intuition congruence|].
  destruct r as [k|]; [|destruct H as [_ H]; by destruct (H 1)]. exists s', (Some k). split_and!; [done|by exists k|].
  destruct H as (num & H1 & _ & H3 & H2 & _). destruct (decide (num = 1)) as [->|Hne]; [done|]. by destruct (H3 1 ltac:(lia)).
Defined.

(** The inode that [put] writes to disk last. *)
Definition freed (i : IData) : IData :=
  mkI (idev i) (inum i) (ivalid i) TNone (major i) (minor i) (nlink i) 0 (replicate 13 0).

(** C21. The last [put] of an unlinked file frees it.  With a log slot for each
    block of the file and two more, and the blocks of the file distinct and in
    use, with their bits apart from each other and from the inode, [put] of the
    last reference to a valid inode without links returns: its entry in the
    table is empty, the bit that [bblock] gives for each block of the file is
    clear, so that the kernel takes the block for free, the inode has no type
    on disk, so [alloc] can hand it out again, no block has changed but that of
    the inode and those in which [bblock] puts the bits, and so every other
    inode that is not in one of the latter is as before. *)
Theorem put_frees sb s k m ib
    (Hm : itable s !! k = Some (Some m)) (Hlast : m_strong m = 2) (Hvalid : ivalid (m_data m) = true) (Hlink : nlink (m_data m) = 0)
    (Hok : dinode_ok (m_data m)) (Hnum : 0 ≤ inum (m_data m)) (Hib : iblock sb (inum (m_data m)) = Done ib)
    (Hbmap : 0 ≤ bmapstart sb) (Hs : full_blocks s)
    (Hnd : NoDup (file_blocks s (m_data m))) (Hap : bits_apart sb s (m_data m) ib)
    (Hall : Forall (λ b, bitmap_of sb b < u32_mod ∧ used sb s b = true) (file_blocks s (m_data m)))
    (Hroom : room s (length (file_blocks s (m_data m)) + 2)) :
  ∃ s', put sb s k = Done s' ∧ itable s' = <[k := None]> (itable s) ∧
    (∀ b, b ∈ file_blocks s (m_data m) → used sb s' b = false) ∧
    dinode sb s' (idev (m_data m)) (inum (m_data m)) = freed (m_data m) ∧
    (∀ c, c ≠ ib → c ∉ bitmap_of sb <$> file_blocks s (m_data m) → blocks s' c = blocks s c) ∧
    ∀ dev num, 0 ≤ num → num ≠ inum (m_data m) →
      (num / IPB + inodestart sb ∉ bitmap_of sb <$> file_blocks s (m_data m)) → dinode sb s' dev num = dinode sb s dev num.
Proof.
  unfold put, minode. rewrite Hm. cbn [mbind outcome_bind]. rewrite decide_True by done. rewrite Hvalid, bool_decide_eq_true_2 by done.
  cbn [andb]. set (i := m_data m) in *.
  destruct (trunc_ok sb s i ib 1 Hbmap Hs (k_len _ Hok) Hib Hnum Hnd Hap Hall Hroom)
    as (s2 & s3 & -> & Hr & Hs2 & Hs3 & Ht & Hu & Hb & Hb3). cbn [mbind outcome_bind].
  change (mkI _ _ _ TNone _ _ _ _ _) with (freed i). unfold update. change (inum (freed i)) with (inum i). rewrite Hib. cbn [mbind outcome_bind].
  destruct (log_write_room (set_block s3 ib (splice (blocks s3 ib) (dinode_off (inum i)) (encode_dinode (freed i)))) ib 0 Hr)
    as (s4 & -> & _ & Hb4 & Ht4). cbn [mbind outcome_bind blocks set_block] in *.
  assert (Hfree : dinode_ok (freed i)).
  { destruct Hok. split; [done|done|cbn; lia|done|]. apply Forall_replicate. unfold word_ok. lia. }
  assert (Hempty : dinode_ok (emptied i)) by (pose proof (k_addrs _ Hfree) as Ha0; destruct Hok; split; [done|done|cbn; lia|done|exact Ha0]).
  pose proof (iblock_inv _ _ _ Hib) as Hib'. subst ib.
  destruct (dinode_splice sb s2 s3 (idev i) (inum i) (emptied i) Hs2 Hnum Hempty eq_refl eq_refl Hvalid Hb3) as [_ D3].
  destruct (dinode_splice sb s3 s4 (idev i) (inum i) (freed i) Hs3 Hnum Hfree eq_refl eq_refl Hvalid Hb4) as [E4 D4].
  eexists. split; [done|]. cbn [itable set_entry set_table]. rewrite Ht4. cbn [itable set_block]. rewrite Ht. split_and!; [done| |exact E4| |].
  - intros b Hin. rewrite <-(Hu b Hin). apply used_ext. cbn [blocks set_entry set_table]. rewrite Hb4.
    assert (Hne : bitmap_of sb b ≠ inum i / IPB + inodestart sb).
    { intros He. apply (proj1 Hap). rewrite <-He. by apply list_elem_of_fmap_2. }
    by rewrite bupd_ne, Hb3, bupd_ne.
  - intros c Hc Hno. cbn [blocks set_entry set_table]. rewrite Hb4, bupd_ne by done. rewrite Hb3, bupd_ne by done. by apply Hb.
  - intros dev num H0 Hne Hno. change (dinode sb s4 dev num = dinode sb s dev num). rewrite D4, D3 by done.
    unfold dinode. by rewrite Hb.
Qed.

(** The file of two blocks, unlinked, with one reference left. *)
Definition dead_inode : IData := set_nlink 0 demo_inode.
Definition dead_fs : fs := set_table ones_fs [Some (mkM 1 5 2 dead_inode)].

Lemma put_frees_witness : ∃ s', put demo_sb dead_fs 0 = Done s' ∧ itable s' = [None] ∧ used demo_sb s' 100 = false.
Proof.
  assert (Hfb : file_blocks dead_fs (m_data (mkM 1 5 2 dead_inode)) = [100; 101]) by (by vm_compute).
  destruct (put_frees demo_sb dead_fs 0 (mkM 1 5 2 dead_inode) 32) as (s' & H1 & H2 & H3 & _); rewrite ?Hfb in *;
    [done|done|done|done| |done|done|done|exact ones_full| | | |by vm_compute|].
  - destruct demo_inode_ok as [? ? ? ? ?]. split; (done || cbn; lia).
  - repeat constructor; set_solver.
  - unfold bits_apart. rewrite Hfb. split; [by vm_compute; set_solver|]. intros a [= <-]. by vm_compute; set_solver.
  - repeat constructor.
  - exists s'. split_and!; [done|done|apply H3; set_solver].
Defined.
