(* ===== verification/Itable.v ===== *)
(** * The table of inodes under concurrency ([fs.rs])

    [Fs] runs the table as one process does.  Here are the threads: [get]
    holds the lock of the table from its first line to its last and is one
    step; [put] lets go of the lock between its test of the count and the
    removal of the entry, to write the inode to disk, and drops its [Arc] after
    the lock: it is three steps.  An [MInode] is a number, its place in the
    order of creation; [Arc]s to it are the entries of the table, the handles
    of the threads and the ones of [put] under way.  The sleep lock of an inode
    is held by a guard that borrows from a handle, or by a [put]; a thread that
    waits for it takes no step ([Sleeplock] has the waiting).  What [put] writes
    to disk is in [Fs]. *)

From S2P Require Import Prelude.

Record ITable := mkTable {
  minodes : list (Z * Z);        (** device and number of every [MInode] made so far *)
  slots : list (option nat);
  handles : list (nat * nat);    (** a thread and an [Inode] of its *)
  puts : list (nat * nat);       (** a thread between the two sections of [put], with the sleep lock *)
  drops : list (nat * nat);      (** a thread at the end of [put], about to drop its [Arc] *)
  guards : list (nat * nat);     (** a thread and an inode it has locked *)
}.
Definition NINODE : nat := 50.
Definition itable_new : ITable := mkTable [] (replicate NINODE None) [] [] [] [].

Definition is_node (s : ITable) (key : Z * Z) (e : option nat) : bool :=
  match e with Some o => bool_decide (minodes s !! o = Some key) | None => false end.

(** [Arc::strong_count] *)
Definition strong_count (s : ITable) (o : nat) : nat :=
  (length (filter (λ e, e = Some o) (slots s)) + length (filter (λ h, h.2 = o) (handles s)) +
   length (filter (λ h, h.2 = o) (puts s)) + length (filter (λ h, h.2 = o) (drops s)))%nat.

(** Who has the sleep lock of which inode. *)
Definition holders (s : ITable) : list (nat * nat) := guards s ++ puts s.

(** A thread inside [put] does nothing else. *)
Definition idle (s : ITable) (t : nat) : Prop := t ∉ (puts s ++ drops s).*1.

Definition get (s : ITable) (t : nat) (key : Z * Z) : outcome ITable :=
  match list_find (λ e, is_node s key e = true) (slots s) with
  | Some (_, Some o) => Done (mkTable (minodes s) (slots s) ((t, o) :: handles s) (puts s) (drops s) (guards s))
  | _ =>
      match list_find (λ e, e = None) (slots s) with
      | Some (i, _) =>
          let o := length (minodes s) in
          Done (mkTable (minodes s ++ [key]) (<[i := Some o]> (slots s)) ((t, o) :: handles s)
                  (puts s) (drops s) (guards s))
      | None => Panic "iget: no inodes"
      end
  end.

(** [Inode::dup] *)
Definition dup (s : ITable) (t o : nat) : ITable :=
  mkTable (minodes s) (slots s) ((t, o) :: handles s) (puts s) (drops s) (guards s).

(** [MInode::lock] by thread [t], whose wait ends when nobody holds the lock,
    and the drop of the guard at position [j]. *)
Definition lock (s : ITable) (t o : nat) : option ITable :=
  if decide (o ∈ (holders s).*2) then None
  else Some (mkTable (minodes s) (slots s) (handles s) (puts s) (drops s) ((t, o) :: guards s)).
Definition unlock (s : ITable) (j : nat) : ITable :=
  mkTable (minodes s) (slots s) (handles s) (puts s) (drops s) (delete j (guards s)).

(** [put] of the handle at position [i], up to the unlock of the table.  A
    thread that had to wait for the sleep lock would do so with the lock of
    the table, which [sched] refuses. *)
Definition put_enter (s : ITable) (i : nat) : outcome ITable :=
  match handles s !! i with
  | None => Fault (Z.of_nat i)
  | Some h =>
      let rest := delete i (handles s) in
      if decide (strong_count s h.2 = 2%nat) then
        if decide (h.2 ∈ (holders s).*2) then Panic "sched multiple locks"
        else Done (mkTable (minodes s) (slots s) rest (h :: puts s) (drops s) (guards s))
      else Done (mkTable (minodes s) (slots s) rest (puts s) (h :: drops s) (guards s))
  end.

(** The second section: every entry that points to this inode is emptied, and
    the sleep lock is released. *)
Definition put_leave (s : ITable) (i : nat) : option ITable :=
  h ← puts s !! i;
  Some (mkTable (minodes s) ((λ e, if decide (e = Some h.2) then None else e) <$> slots s)
          (handles s) (delete i (puts s)) (h :: drops s) (guards s)).

(** The [Arc] that [put] was given goes after the lock of the table. *)
Definition put_drop (s : ITable) (i : nat) : ITable :=
  mkTable (minodes s) (slots s) (handles s) (puts s) (delete i (drops s)) (guards s).

(** The steps of the threads; [allow] restricts the requests.  A guard borrows
    from a handle of its thread, so the last such handle outlives it. *)
Inductive tstep (allow : ITable → Z * Z → Prop) (s : ITable) : ITable → Prop :=
  | t_get t key s' : idle s t → allow s key → get s t key = Done s' → tstep allow s s'
  | t_dup t o : idle s t → (t, o) ∈ handles s → tstep allow s (dup s t o)
  | t_lock t o s' : idle s t → (t, o) ∈ handles s → lock s t o = Some s' → tstep allow s s'
  | t_unlock j : tstep allow s (unlock s j)
  | t_enter t o i s' : idle s t → handles s !! i = Some (t, o) → ((t, o) ∈ guards s → (t, o) ∈ delete i (handles s)) →
      put_enter s i = Done s' → tstep allow s s'
  | t_leave i s' : put_leave s i = Some s' → tstep allow s s'
  | t_drop i : tstep allow s (put_drop s i).

(** Any request; requests of inodes that no [put] is writing back. *)
Definition any (s : ITable) (key : Z * Z) : Prop := True.
Definition quiet (s : ITable) (key : Z * Z) : Prop := Forall (λ h, minodes s !! h.2 ≠ Some key) (puts s).

(** ** One entry per inode, whatever the threads do *)
Record table_ok (s : ITable) : Prop := {
  t_valid o : Some o ∈ slots s → is_Some (minodes s !! o);
  t_handle h : h ∈ handles s → is_Some (minodes s !! h.2);
  t_unique i j o p key : slots s !! i = Some (Some o) → slots s !! j = Some (Some p) →
    minodes s !! o = Some key → minodes s !! p = Some key → i = j;
}.

Lemma get_cases s t key s' :
  get s t key = Done s' →
  (∃ i o, slots s !! i = Some (Some o) ∧ minodes s !! o = Some key ∧
          s' = mkTable (minodes s) (slots s) ((t, o) :: handles s) (puts s) (drops s) (guards s)) ∨
  (∃ i, slots s !! i = Some None ∧ (∀ o, Some o ∈ slots s → minodes s !! o ≠ Some key) ∧
        s' = mkTable (minodes s ++ [key]) (<[i := Some (length (minodes s))]> (slots s))
               ((t, length (minodes s)) :: handles s) (puts s) (drops s) (guards s)).
Proof.
  unfold get. destruct (list_find _ _) as [[i e]|] eqn:Hf.
  - apply list_find_Some in Hf as (Hi & He & _). destruct e as [o|]; [|done]. intros [= <-].
    left. exists i, o. split_and!; [done| |done]. by apply bool_decide_eq_true in He.
  - apply list_find_None in Hf. destruct (list_find (λ e, e = None) (slots s)) as [[i e]|] eqn:Hg; [|done].
    apply list_find_Some in Hg as (Hi & -> & _). intros [= <-]. right. exists i. split_and!; [done| |done].
    intros o Ho Hk. rewrite Forall_forall in Hf. apply (Hf _ Ho). by apply bool_decide_eq_true.
Qed.

Lemma put_enter_cases s i s' :
  put_enter s i = Done s' →
  ∃ h, handles s !! i = Some h ∧
    ((strong_count s h.2 = 2%nat ∧ (h.2 ∉ (holders s).*2) ∧
      s' = mkTable (minodes s) (slots s) (delete i (handles s)) (h :: puts s) (drops s) (guards s)) ∨
     s' = mkTable (minodes s) (slots s) (delete i (handles s)) (puts s) (h :: drops s) (guards s)).
Proof.
  unfold put_enter. destruct (handles s !! i) as [h|]; [|done]. intros Hp. exists h. split; [done|].
  repeat case_decide; naive_solver.
Qed.

Lemma lock_cases s t o s' :
  lock s t o = Some s' → (o ∉ (holders s).*2) ∧
  s' = mkTable (minodes s) (slots s) (handles s) (puts s) (drops s) ((t, o) :: guards s).
Proof. unfold lock. case_decide; naive_solver. Qed.

Lemma put_leave_cases s i s' :
  put_leave s i = Some s' →
  ∃ h, puts s !! i = Some h ∧
    s' = mkTable (minodes s) ((λ e, if decide (e = Some h.2) then None else e) <$> slots s)
           (handles s) (delete i (puts s)) (h :: drops s) (guards s).
Proof. unfold put_leave. intros Hp. simplify_option_eq. by eexists. Qed.

Lemma cleared_lookup (l : list (option nat)) o i p :
  ((λ e, if decide (e = Some o) then None else e) <$> l) !! i = Some (Some p) ↔ l !! i = Some (Some p) ∧ p ≠ o.
Proof.
  rewrite list_lookup_fmap. destruct (l !! i) as [[q|]|]; cbn; try (case_decide; naive_solver). naive_solver.
Qed.

Lemma elem_of_cleared (l : list (option nat)) o p :
  Some p ∈ ((λ e, if decide (e = Some o) then None else e) <$> l) ↔ Some p ∈ l ∧ p ≠ o.
Proof.
  rewrite !list_elem_of_lookup. setoid_rewrite cleared_lookup. naive_solver.
Qed.

Lemma elem_of_delete {A} (l : list A) i x : x ∈ delete i l → x ∈ l.
Proof. intros Hx. by apply (sublist_subseteq _ _ (sublist_delete l i)). Qed.

Lemma table_ok_new : table_ok itable_new.
Proof.
  split; cbn [itable_new slots handles minodes].
  - intros o Ho. apply elem_of_replicate in Ho as [[=] _].
  - intros h Hh. by apply not_elem_of_nil in Hh.
  - intros i j o p key Hi. apply lookup_replicate in Hi as [[=] _].
Qed.

(** A new [MInode] in an empty slot. *)
Lemma table_ok_fresh s i t key :
  table_ok s → slots s !! i = Some None → (∀ o, Some o ∈ slots s → minodes s !! o ≠ Some key) →
  table_ok (mkTable (minodes s ++ [key]) (<[i := Some (length (minodes s))]> (slots s))
              ((t, length (minodes s)) :: handles s) (puts s) (drops s) (guards s)).
Proof.
  intros [Hv Hh Hu] Hi Hk.
  assert (Hnew : ∀ o, Some o ∈ slots s → o < length (minodes s)) by (intros o Ho; by apply lookup_lt_is_Some, Hv).
  assert (Hfr : (minodes s ++ [key]) !! length (minodes s) = Some key) by (by apply list_lookup_middle).
  assert (Hin : i < length (slots s)) by (by eapply lookup_lt_Some).
  assert (Hold : ∀ j o, <[i := Some (length (minodes s))]> (slots s) !! j = Some (Some o) →
            (j = i ∧ o = length (minodes s)) ∨ (j ≠ i ∧ slots s !! j = Some (Some o) ∧ o < length (minodes s))).
  { intros j o Hj. destruct (decide (j = i)) as [->|Hji].
    - rewrite list_lookup_insert_eq in Hj by done. left. naive_solver.
    - rewrite list_lookup_insert_ne in Hj by done. right. split_and!; [done|done|]. apply Hnew. by eapply list_elem_of_lookup_2. }
  split; cbn [slots handles minodes].
  - intros o Ho. apply list_elem_of_lookup_1 in Ho as [j Hj]. destruct (Hold _ _ Hj) as [[_ ->]|(_ & _ & Hlt)].
    + rewrite Hfr. by eexists.
    + rewrite lookup_app_l by done. by apply lookup_lt_is_Some.
  - intros h [->|Hin']%elem_of_cons; cbn [snd].
    + rewrite Hfr. by eexists.
    + destruct (Hh _ Hin') as [k Hk']. rewrite lookup_app_l by (by eapply lookup_lt_Some). by eexists.
  - intros j1 j2 o p k H1 H2 Ho Hp.
    destruct (Hold _ _ H1) as [[-> ->]|(N1 & S1 & L1)], (Hold _ _ H2) as [[-> ->]|(N2 & S2 & L2)]; [done| | |].
    + exfalso. rewrite Hfr in Ho. simplify_eq. rewrite lookup_app_l in Hp by done.
      by apply (Hk p (list_elem_of_lookup_2 _ _ _ S2)).
    + exfalso. rewrite Hfr in Hp. simplify_eq. rewrite lookup_app_l in Ho by done.
      by apply (Hk o (list_elem_of_lookup_2 _ _ _ S1)).
    + rewrite lookup_app_l in Ho by done. rewrite lookup_app_l in Hp by done. by eapply Hu.
Qed.

Lemma tstep_ok allow s s' : table_ok s → tstep allow s s' → table_ok s'.
Proof.
  intros Hs. pose proof Hs as [Hv Hh Hu].
  intros [t key s1 _ _ Hg|t o _ Hin|t o s1 _ _ Hl|j|t o i s1 _ _ _ Hp|i s1 Hp|i].
  - destruct (get_cases _ _ _ _ Hg) as [(i & o & Hi & Ho & ->)|(i & Hi & Hk & ->)]; [|by apply table_ok_fresh].
    split; cbn [slots handles minodes]; [done| |done]. intros h [->|?]%elem_of_cons; [by eexists|by apply Hh].
  - split; cbn [dup slots handles minodes]; [done| |done]. intros h [->|?]%elem_of_cons; [apply (Hh _ Hin)|by apply Hh].
  - by destruct (lock_cases _ _ _ _ Hl) as [_ ->].
  - done.
  - destruct (put_enter_cases _ _ _ Hp) as (h & Hi & [(_ & _ & ->)| ->]); split; cbn [slots handles minodes];
      [done| |done|done| |done]; intros h' Hh'%elem_of_delete; by apply Hh.
  - destruct (put_leave_cases _ _ _ Hp) as (h & Hi & ->). split; cbn [slots handles minodes].
    + intros o [Ho _]%elem_of_cleared. by apply Hv.
    + done.
    + intros i1 i2 o p key [H1 _]%cleared_lookup [H2 _]%cleared_lookup. by apply Hu.
  - done.
Qed.

(** ** The sleep locks *)

(** A lock has one holder, and a guard has a handle to borrow from. *)
Record locks_ok (s : ITable) : Prop := {
  l_borrow h : h ∈ guards s → h ∈ handles s;
  l_one : NoDup (holders s).*2;
}.

Lemma locks_ok_new : locks_ok itable_new.
Proof. split; [intros h Hh; by apply not_elem_of_nil in Hh|constructor]. Qed.

(** A new writer, and one less. *)
Lemma holders_enter s h : holders s ++ [h] ≡ₚ guards s ++ h :: puts s.
Proof. unfold holders. rewrite <-app_assoc. apply Permutation_app_head. by rewrite Permutation_app_comm. Qed.
Lemma holders_delete (g p : list (nat * nat)) i h :
  p !! i = Some h → (g ++ p).*2 ≡ₚ h.2 :: (g ++ delete i p).*2.
Proof.
  intros Hi. rewrite (delete_Permutation _ _ _ Hi) at 1. by rewrite <-Permutation_middle, fmap_cons.
Qed.

Lemma NoDup_delete {A B} (f : A → B) (l : list A) j : NoDup (f <$> l) → NoDup (f <$> delete j l).
Proof. intros H. eapply sublist_NoDup; [exact H|]. apply fmap_sublist, sublist_delete. Qed.

Lemma tstep_locks allow s s' : locks_ok s → tstep allow s s' → locks_ok s'.
Proof.
  intros [Hb Hn].
  intros [t key s1 _ _ Hg|t o _ Hin|t o s1 _ Hin Hl|j|t o i s1 _ Hi Hlast Hp|i s1 Hp|i].
  - destruct (get_cases _ _ _ _ Hg) as [(i & o & _ & _ & ->)|(i & _ & _ & ->)]; (split; [|done]); cbn [guards handles];
      intros h Hh; apply list_elem_of_further; auto.
  - split; [|done]. intros h Hh. apply list_elem_of_further. auto.
  - destruct (lock_cases _ _ _ _ Hl) as [Hno ->]. split; cbn [guards handles].
    + intros h [->|?]%elem_of_cons; auto.
    + change (NoDup ((t, o) :: holders s).*2). rewrite fmap_cons. by constructor.
  - split; cbn [unlock guards handles]; [intros h Hh%elem_of_delete; auto|].
    unfold holders in *. cbn [unlock guards puts]. rewrite fmap_app in *. apply NoDup_app in Hn as (H1 & H2 & H3).
    apply NoDup_app. split_and!; [by apply NoDup_delete| |done]. intros x Hx. apply H2.
    apply list_elem_of_fmap in Hx as (y & -> & Hy%elem_of_delete). by apply list_elem_of_fmap_2.
  - destruct (put_enter_cases _ _ _ Hp) as (h & Hi' & Hor). rewrite Hi in Hi'. injection Hi' as <-.
    assert (Hg : ∀ h, h ∈ guards s → h ∈ delete i (handles s)).
    { intros h Hh. destruct (decide (h = (t, o))) as [->|Hne]; [by apply Hlast|]. pose proof (Hb _ Hh) as Hin.
      rewrite (delete_Permutation _ _ _ Hi) in Hin. by apply elem_of_cons in Hin as [?|?]. }
    destruct Hor as [(_ & Hno & ->)| ->]; (split; [exact Hg|]); [|done]. unfold holders. cbn [guards puts].
    rewrite <-holders_enter, fmap_app. apply NoDup_app. split_and!; [done| |apply NoDup_singleton].
    intros x Hx ->%list_elem_of_singleton. done.
  - destruct (put_leave_cases _ _ _ Hp) as (h & Hi & ->). split; [done|].
    unfold holders in *. cbn [guards puts]. rewrite (holders_delete _ _ _ _ Hi) in Hn. by apply NoDup_cons in Hn as [_ ?].
  - by split.
Qed.

(** ** Requests that keep clear of [put] share one copy *)

(** Every handle has its entry, and is not being written back; an inode that
    is written back has its entry still, and one writer. *)
Record shared (s : ITable) : Prop := {
  s_ok : table_ok s;
  s_handle h : h ∈ handles s → Some h.2 ∈ slots s ∧ (h.2 ∉ (puts s).*2);
  s_put h : h ∈ puts s → Some h.2 ∈ slots s ∧ h.2 < length (minodes s);
  s_writer : NoDup (puts s).*2;
}.

Lemma elem_filter_pos {A} (P : A → Prop) `{∀ x, Decision (P x)} l x :
  x ∈ l → P x → 0 < length (filter P l).
Proof.
  intros Hx HP. destruct (filter P l) as [|y r] eqn:Hf; cbn; [|lia].
  assert (Hin : x ∈ filter P l) by (by apply list_elem_of_filter). rewrite Hf in Hin. by apply not_elem_of_nil in Hin.
Qed.

(** A count of two leaves no other handle and no other writer. *)
Lemma last_reference s i h :
  Some h.2 ∈ slots s → handles s !! i = Some h → strong_count s h.2 = 2%nat →
  (h.2 ∉ (delete i (handles s)).*2) ∧ (h.2 ∉ (puts s).*2).
Proof.
  unfold strong_count. intros Hs Hi Hc.
  pose proof (elem_filter_pos (λ e, e = Some h.2) _ _ Hs eq_refl) as H1.
  pose proof (delete_Permutation _ _ _ Hi) as Hperm. rewrite Hperm in Hc.
  rewrite filter_cons_True in Hc by done. cbn [length] in Hc.
  split; intros [h' [Hh' Hin]]%list_elem_of_fmap.
  - pose proof (elem_filter_pos (λ x : nat * nat, x.2 = h.2) _ _ Hin (eq_sym Hh')). lia.
  - pose proof (elem_filter_pos (λ x : nat * nat, x.2 = h.2) _ _ Hin (eq_sym Hh')). lia.
Qed.

Lemma shared_new : shared itable_new.
Proof.
  split; [apply table_ok_new|..]; cbn [itable_new handles puts].
  - intros h Hh. by apply not_elem_of_nil in Hh.
  - intros h Hh. by apply not_elem_of_nil in Hh.
  - constructor.
Qed.

Lemma get_shared s t key s' : shared s → quiet s key → get s t key = Done s' → table_ok s' → shared s'.
Proof.
  intros [[Hv _ _] Hh Hp Hw] Hq Hg Hok'.
  destruct (get_cases _ _ _ _ Hg) as [(i & o & Hi & Ho & ->)|(i & Hi & Hk & ->)].
  - split; cbn [slots handles puts]; [done| |done|done]. intros h [->|?]%elem_of_cons; cbn [snd]; [|by apply Hh].
    split; [by eapply list_elem_of_lookup_2|]. intros [h' [Hh' Hin]]%list_elem_of_fmap.
    unfold quiet in Hq. rewrite Forall_forall in Hq. apply (Hq _ Hin). by rewrite <-Hh'.
  - assert (Hkeep : ∀ p, Some p ∈ slots s → Some p ∈ <[i := Some (length (minodes s))]> (slots s)).
    { intros p [j Hj]%list_elem_of_lookup_1. apply (list_elem_of_lookup_2 _ j).
      rewrite list_lookup_insert_ne; [done|]. intros ->. congruence. }
    split; cbn [slots handles puts minodes]; [done| | |done].
    + intros h [->|Hin]%elem_of_cons; cbn [snd].
      * split; [apply (list_elem_of_lookup_2 _ i), list_lookup_insert_eq; by eapply lookup_lt_Some|].
        intros [h' [Hh' Hin]]%list_elem_of_fmap. pose proof (Hp _ Hin) as [_ Hlt]. lia.
      * destruct (Hh _ Hin). split; [by apply Hkeep|done].
    + intros h Hin. destruct (Hp _ Hin). split; [by apply Hkeep|]. rewrite length_app. cbn [length]. lia.
Qed.

(** The first section of [put] takes the last handle. *)
Lemma enter_shared s i h :
  shared s → handles s !! i = Some h → strong_count s h.2 = 2%nat →
  table_ok (mkTable (minodes s) (slots s) (delete i (handles s)) (h :: puts s) (drops s) (guards s)) →
  shared (mkTable (minodes s) (slots s) (delete i (handles s)) (h :: puts s) (drops s) (guards s)).
Proof.
  intros [Hok Hh Hp Hw] Hi Hc Hok'. pose proof (Hh _ (list_elem_of_lookup_2 _ _ _ Hi)) as [Hsl Hnp].
  destruct (last_reference s i h Hsl Hi Hc) as [Hno _].
  split; cbn [slots handles puts minodes]; [done| | |].
  - intros h' Hin. pose proof (elem_of_delete _ _ _ Hin) as Hin'. destruct (Hh _ Hin') as [? Hnp'].
    split; [done|]. rewrite fmap_cons. intros [He|?]%elem_of_cons; [|done].
    apply Hno. rewrite <-He. by apply list_elem_of_fmap_2.
  - intros h' [->|?]%elem_of_cons; [|by apply Hp]. split; [done|]. by apply lookup_lt_is_Some, (t_valid _ Hok).
  - rewrite fmap_cons. by constructor.
Qed.

(** The second section empties an entry that nobody else uses. *)
Lemma leave_shared s i s' : shared s → put_leave s i = Some s' → table_ok s' → shared s'.
Proof.
  intros [Hok Hh Hp Hw] Hpl Hok'. destruct (put_leave_cases _ _ _ Hpl) as (h & Hi & ->).
  pose proof (delete_Permutation _ _ _ Hi) as Hperm.
  assert (Hw' : NoDup (h.2 :: (delete i (puts s)).*2)) by (by rewrite <-fmap_cons, <-Hperm).
  apply NoDup_cons in Hw' as [Hni Hw'].
  split; cbn [slots handles puts minodes]; [done| | |done].
  - intros h' Hin. destruct (Hh _ Hin) as [Hsl Hnp]. rewrite elem_of_cleared.
    assert (Hne : h'.2 ≠ h.2).
    { intros He. apply Hnp. rewrite He. by apply list_elem_of_fmap_2, (list_elem_of_lookup_2 _ i). }
    split_and!; [done|done|]. intros [x [Hx Hin']]%list_elem_of_fmap. apply Hnp, list_elem_of_fmap.
    exists x. split; [done|]. by eapply elem_of_delete.
  - intros h' Hin. destruct (Hp _ (elem_of_delete _ _ _ Hin)) as [Hsl Hlt]. rewrite elem_of_cleared.
    split_and!; [done| |done]. intros He. apply Hni. rewrite <-He. by apply list_elem_of_fmap_2.
Qed.

Lemma qstep_shared s s' : shared s → tstep quiet s s' → shared s'.
Proof.
  intros Hs Hst. pose proof (tstep_ok _ _ _ (s_ok _ Hs) Hst) as Hok'. pose proof Hs as [Hok Hh Hp Hw].
  destruct Hst as [t key s1 _ Hq Hg|t o _ Hin|t o s1 _ _ Hl|j|t o i s1 _ _ _ Hpe|i s1 Hpl|i].
  - by eapply get_shared.
  - split; cbn [dup slots handles puts]; [done| |done|done]. intros h [->|?]%elem_of_cons; [apply (Hh _ Hin)|by apply Hh].
  - destruct (lock_cases _ _ _ _ Hl) as [_ ->]. by split.
  - by split.
  - destruct (put_enter_cases _ _ _ Hpe) as (h & Hi & [(Hc & _ & ->)| ->]); [by apply enter_shared|].
    split; cbn [slots handles puts minodes]; [done| |done|done]. intros h' Hin%elem_of_delete. by apply Hh.
  - by eapply leave_shared.
  - by split.
Qed.

Lemma tsteps_ok allow s s' : rtc (tstep allow) s s' → table_ok s → table_ok s'.
Proof. induction 1 as [|s s1 s2 Hst _ IH]; intros Hs; [done|]. by eapply IH, tstep_ok. Qed.

Lemma tsteps_locks allow s s' : rtc (tstep allow) s s' → locks_ok s → locks_ok s'.
Proof. induction 1 as [|s s1 s2 Hst _ IH]; intros Hs; [done|]. by eapply IH, tstep_locks. Qed.

Lemma qsteps_shared s s' : rtc (tstep quiet) s s' → shared s → shared s'.
Proof. induction 1 as [|s s1 s2 Hst _ IH]; intros Hs; [done|]. by eapply IH, qstep_shared. Qed.

(** Two nodes of the table with one key are one. *)
Lemma shared_unique s o p key :
  shared s → Some o ∈ slots s → Some p ∈ slots s → minodes s !! o = Some key → minodes s !! p = Some key → o = p.
Proof.
  intros Hs [i Hi]%list_elem_of_lookup_1 [j Hj]%list_elem_of_lookup_1 Ho Hp.
  pose proof (t_unique _ (s_ok _ Hs) i j o p key Hi Hj Ho Hp) as ->. congruence.
Qed.

(** The table has one entry for an inode, in every interleaving of the steps. *)
Theorem itable_one_entry (s : ITable) (i j o p : nat) (key : Z * Z)
    (Hr : rtc (tstep any) itable_new s)
    (Hi : slots s !! i = Some (Some o)) (Hj : slots s !! j = Some (Some p))
    (Ho : minodes s !! o = Some key) (Hp : minodes s !! p = Some key) :
  i = j ∧ o = p.
Proof.
  pose proof (t_unique _ (tsteps_ok _ _ _ Hr table_ok_new) i j o p key Hi Hj Ho Hp) as ->.
  split; [done|congruence].
Qed.

(** Processes that hold the same inode share one copy of it in memory:
    after any interleaving of [get], [dup], [lock] and [put] in which nobody
    asks for an inode while a [put] of it has let go of the lock of the table,
    two handles of the same device and number are of the same [MInode], and it
    is in the table, so that the next [get] finds it. *)
Theorem itable_shared (s : ITable) (t u o p : nat) (key : Z * Z)
    (Hr : rtc (tstep quiet) itable_new s)
    (Ht : (t, o) ∈ handles s) (Hu : (u, p) ∈ handles s)
    (Ho : minodes s !! o = Some key) (Hp : minodes s !! p = Some key) :
  o = p ∧ Some o ∈ slots s.
Proof.
  pose proof (qsteps_shared _ _ Hr shared_new) as Hs.
  destruct (s_handle _ Hs _ Ht) as [Hto _], (s_handle _ Hs _ Hu) as [Hup _]. split; [|done]. by eapply shared_unique.
Qed.

(** C19. One process at a time works on an inode.  In these interleavings two
    holders of sleep locks of the same device and number, in guards or in
    [put], are the same one; and a [put] that finds itself the last reference
    has the sleep lock without waiting, as its comment says. *)
Theorem inode_exclusive (s : ITable) (Hr : rtc (tstep quiet) itable_new s) :
  (∀ j k t o u p key, holders s !! j = Some (t, o) → holders s !! k = Some (u, p) →
     minodes s !! o = Some key → minodes s !! p = Some key → j = k) ∧
  (∀ t o i, handles s !! i = Some (t, o) → ((t, o) ∈ guards s → (t, o) ∈ delete i (handles s)) →
     ∃ s', put_enter s i = Done s').
Proof.
  pose proof (qsteps_shared _ _ Hr shared_new) as Hs. pose proof (tsteps_locks _ _ _ Hr locks_ok_new) as [Hb Hn].
  split.
  - assert (Hin : ∀ h, h ∈ holders s → Some h.2 ∈ slots s).
    { intros h [Hg|Hp]%elem_of_app; [by apply (s_handle _ Hs), Hb|by apply (s_put _ Hs)]. }
    intros j k t o u p key Hj Hk Ho Hp.
    pose proof (Hin _ (list_elem_of_lookup_2 _ _ _ Hj)). pose proof (Hin _ (list_elem_of_lookup_2 _ _ _ Hk)).
    assert (o = p) as -> by (by eapply shared_unique).
    apply (NoDup_lookup (holders s).*2 j k p Hn); by rewrite list_lookup_fmap, ?Hj, ?Hk.
  - intros t o i Hi Hlast. unfold put_enter. rewrite Hi. case_decide as Hc; [|by eexists].
    destruct (s_handle _ Hs _ (list_elem_of_lookup_2 _ _ _ Hi)) as [Hsl _]. cbn [snd] in *.
    destruct (last_reference s i (t, o) Hsl Hi Hc) as [Hno Hnp]. rewrite decide_False; [by eexists|].
    unfold holders. rewrite fmap_app. intros [Hin|?]%elem_of_app; [|done].
    apply list_elem_of_fmap in Hin as ([u p] & Hp & Hg). cbn [snd] in *. subst p. apply Hno.
    assert (Hd : (u, o) ∈ delete i (handles s)).
    { pose proof (Hb _ Hg) as Hin. rewrite (delete_Permutation _ _ _ Hi) in Hin.
      apply elem_of_cons in Hin as [[= ->]|?]; [by apply Hlast|done]. }
    by apply (list_elem_of_fmap_2 snd) in Hd.
Qed.

(** Steps of a concrete run on the root directory. *)
Ltac step_idle := vm_compute; repeat (apply not_elem_of_cons; split; [congruence|]); apply not_elem_of_nil.
Ltac step_get t := eapply rtc_l; [apply (t_get _ _ t (1, 1)%Z); [step_idle|by repeat constructor|reflexivity]|].
Ltac step_enter t o i :=
  eapply rtc_l; [apply (t_enter _ _ t o i); [step_idle|done|intros Hg; by apply not_elem_of_nil in Hg|reflexivity]|].
Ltac step_leave i := eapply rtc_l; [apply (t_leave _ _ i); reflexivity|].

(** Two processes with the root directory, one of them with a second handle. *)
Definition two_handles : ITable :=
  mkTable [(1, 1)%Z] (<[0%nat := Some 0%nat]> (replicate NINODE None)) [(1, 0); (0, 0)]%nat [] [] [].

Lemma two_handles_reachable : rtc (tstep quiet) itable_new two_handles.
Proof. step_get 0. step_get 1. apply rtc_refl. Qed.

Lemma itable_shared_witness :
  handles two_handles = [(1, 0); (0, 0)]%nat ∧ (0%nat = 0%nat ∧ Some 0%nat ∈ slots two_handles).
Proof.
  split; [done|]. apply (itable_shared two_handles 1 0 0 0 (1, 1)%Z); [apply two_handles_reachable| | |done|done].
  - apply list_elem_of_here.
  - apply list_elem_of_further, list_elem_of_here.
Defined.

(** One of the two has locked the directory. *)
Definition one_guard : ITable :=
  mkTable [(1, 1)%Z] (<[0%nat := Some 0%nat]> (replicate NINODE None)) [(1, 0); (0, 0)]%nat [] [] [(0, 0)%nat].

Lemma inode_exclusive_witness : ∃ s', put_enter one_guard 0 = Done s'.
Proof.
  destruct (inode_exclusive one_guard) as [_ H].
  - etrans; [apply two_handles_reachable|]. apply rtc_once.
    apply (t_lock _ _ 0 0); [apply not_elem_of_nil|apply list_elem_of_further, list_elem_of_here|reflexivity].
  - apply (H 1 0 0)%nat; [done|]. intros Hin%list_elem_of_singleton. done.
Defined.

(** Without that restriction the copies part: a process that gets the inode
    while [put] writes it back keeps an [MInode] whose entry [put] then removes,
    and the next [get] makes another. *)
Theorem itable_race :
  ∃ s, rtc (tstep any) itable_new s ∧
    (1, 0)%nat ∈ handles s ∧ (2, 1)%nat ∈ handles s ∧
    minodes s !! 0%nat = Some (1, 1)%Z ∧ minodes s !! 1%nat = Some (1, 1)%Z.
Proof.
  eexists. split.
  { step_get 0. step_enter 0 0 0. step_get 1. step_leave 0. step_get 2. apply rtc_refl. }
  split_and!; [|apply list_elem_of_here|done|done]. apply list_elem_of_further, list_elem_of_here.
Qed.

(** And then the comment of [put] is wrong: of two processes that have such an
    [MInode] without entry one has it locked, and the [put] of the other, which
    counts two references, waits for it with the lock of the table. *)
Theorem put_waits_for_guard :
  ∃ s, rtc (tstep any) itable_new s ∧ guards s = [(1, 0)]%nat ∧ handles s !! 0%nat = Some (2, 0)%nat ∧
    put_enter s 0 = Panic "sched multiple locks".
Proof.
  eexists. split.
  { step_get 0. step_enter 0 0 0. step_get 1. step_get 2. step_leave 0.
    eapply rtc_l; [apply (t_drop _ _ 0)|].
    eapply rtc_l; [apply (t_lock _ _ 1 0); [apply not_elem_of_nil|apply list_elem_of_further, list_elem_of_here|reflexivity]|].
    apply rtc_refl. }
  split_and!; done.
Qed.

(** Two [put]s of the same inode can miss each other: each drops its [Arc]
    after it let go of the lock of the table, so both count three references,
    and the entry stays with nobody to put it. *)
Theorem itable_leak :
  ∃ s, rtc (tstep quiet) itable_new s ∧ handles s = [] ∧ puts s = [] ∧ drops s = [] ∧
    slots s !! 0%nat = Some (Some 0%nat) ∧ strong_count s 0 = 1%nat.
Proof.
  eexists. split.
  { etrans; [apply two_handles_reachable|]. step_enter 1 0 0. step_enter 0 0 0.
    eapply rtc_l; [apply (t_drop _ _ 0)|]. eapply rtc_l; [apply (t_drop _ _ 0)|]. apply rtc_refl. }
  split_and!; done.
Qed.
