(* ===== verification/Ring.v ===== *)
(** * Ring buffers with wrapping indices

    The console and the UART keep bytes in a fixed array addressed by
    [Wrapping<usize>] counters that are reduced modulo the array's size.  The
    sizes divide [2^64], so the wrap-around of a counter is invisible.
    [ring buf r k] is the sequence of the [k] bytes from counter [r] on. *)

From S2P Require Import Prelude.

Open Scope Z_scope.

Definition slot (cap : nat) (i : Z) : nat := Z.to_nat (i `mod` Z.of_nat cap).

Definition ring (cap : nat) (buf : list Z) (r : Z) (k : nat) : list Z :=
  (λ i, buf !!! slot cap (r + Z.of_nat i)) <$> seq 0 k.

Section ring.
Variable cap : nat.
Implicit Types (buf : list Z) (r : Z) (k : nat).

Lemma ring_length buf r k : length (ring cap buf r k) = k.
Proof. unfold ring. by rewrite length_fmap, length_seq. Qed.

Lemma ring_0 buf r : ring cap buf r 0 = [].
Proof. done. Qed.

(** The front element. *)
Lemma ring_cons buf r k : ring cap buf r (S k) = buf !!! slot cap r :: ring cap buf (r + 1) k.
Proof.
  unfold ring. rewrite <-cons_seq, fmap_cons, Z.add_0_r. f_equal.
  rewrite <-fmap_S_seq, <-list_fmap_compose. apply list_fmap_ext. intros i x _. cbn.
  do 2 f_equal. lia.
Qed.

(** The back element. *)
Lemma ring_snoc buf r k :
  ring cap buf r (S k) = ring cap buf r k ++ [buf !!! slot cap (r + Z.of_nat k)].
Proof. unfold ring. by rewrite seq_S, fmap_app. Qed.

Lemma ring_app buf r j k :
  ring cap buf r (j + k) = ring cap buf r j ++ ring cap buf (r + Z.of_nat j) k.
Proof.
  revert r. induction j as [|j IH]; intros r; [by rewrite Z.add_0_r|].
  cbn [Nat.add]. rewrite !ring_cons, IH. cbn. do 3 f_equal. lia.
Qed.

Hypothesis cap_pos : (0 < cap)%nat.

Lemma slot_lt i : (slot cap i < cap)%nat.
Proof. unfold slot. pose proof (Z.mod_pos_bound i (Z.of_nat cap)). lia. Qed.

(** Storing behind the back leaves the elements alone. *)
Lemma ring_store buf r k c :
  (k < cap)%nat → length buf = cap →
  ring cap (<[slot cap (r + Z.of_nat k) := c]> buf) r k = ring cap buf r k.
Proof.
  intros Hk Hl. unfold ring. apply list_fmap_ext. intros i j Hj.
  apply lookup_seq in Hj as [-> Hi]. cbn. apply list_lookup_total_insert_ne.
  unfold slot. intros Heq.
  pose proof (Z.mod_pos_bound (r + Z.of_nat k) (Z.of_nat cap)) as B1.
  pose proof (Z.mod_pos_bound (r + Z.of_nat i) (Z.of_nat cap)) as B2.
  assert (H : (r + Z.of_nat k) `mod` Z.of_nat cap = (r + Z.of_nat i) `mod` Z.of_nat cap) by lia.
  assert (Hz : (Z.of_nat (k - i)) `mod` Z.of_nat cap = 0).
  { replace (Z.of_nat (k - i)) with ((r + Z.of_nat k) - (r + Z.of_nat i)) by lia.
    rewrite Zminus_mod, H, Z.sub_diag. apply Z.mod_0_l. lia. }
  rewrite Z.mod_small in Hz by lia. lia.
Qed.

Lemma ring_push buf r k c :
  (k < cap)%nat → length buf = cap →
  ring cap (<[slot cap (r + Z.of_nat k) := c]> buf) r (S k) = ring cap buf r k ++ [c].
Proof.
  intros Hk Hl. rewrite ring_snoc, ring_store by done. do 2 f_equal.
  apply list_lookup_total_insert_eq. rewrite Hl. apply slot_lt.
Qed.

Hypothesis cap_div : (Z.of_nat cap | usize_mod).

Lemma slot_wrap i : slot cap (wrap64 i) = slot cap i.
Proof.
  unfold slot, wrap64. f_equal. by apply Z.mod_mod_divide.
Qed.

Lemma ring_wrap buf r k : ring cap buf (wrap64 r) k = ring cap buf r k.
Proof.
  revert r. induction k as [|k IH]; intros r; [done|].
  rewrite !ring_cons, slot_wrap. f_equal. rewrite <-(IH (r + 1)), <-(IH (wrap64 r + 1)).
  f_equal. unfold wrap64. by rewrite Zplus_mod_idemp_l.
Qed.
End ring.

(** The distance between two counters. *)
Definition dist (a b : Z) : nat := Z.to_nat (wrapping_sub b a).

Lemma dist_self a : dist a a = 0%nat.
Proof. unfold dist, wrapping_sub, wrap64. by rewrite Z.sub_diag. Qed.

Lemma dist_eq a b :
  0 ≤ a < usize_mod → 0 ≤ b < usize_mod → b = wrapping_add a (Z.of_nat (dist a b)).
Proof.
  intros Ha Hb. unfold dist, wrapping_add, wrapping_sub, wrap64.
  pose proof (Z.mod_pos_bound (b - a) usize_mod). rewrite Z2Nat.id by lia.
  rewrite Zplus_mod_idemp_r. replace (a + (b - a)) with b by lia. by rewrite Z.mod_small.
Qed.

Lemma dist_0 a b : 0 ≤ a < usize_mod → 0 ≤ b < usize_mod → dist a b = 0%nat ↔ a = b.
Proof.
  intros Ha Hb. split; [|intros ->; apply dist_self].
  intros Hd. rewrite (dist_eq a b Ha Hb), Hd. unfold wrapping_add. by rewrite Z.add_0_r, wrap64_small.
Qed.

Lemma dist_add a k : Z.of_nat k < usize_mod → dist a (wrapping_add a (Z.of_nat k)) = k.
Proof.
  intros Hk. unfold dist, wrapping_add, wrapping_sub, wrap64. rewrite Zminus_mod_idemp_l.
  replace (a + Z.of_nat k - a) with (Z.of_nat k) by lia. rewrite Z.mod_small; lia.
Qed.

Lemma wrapping_add_add a i j : wrapping_add (wrapping_add a i) j = wrapping_add a (i + j).
Proof. unfold wrapping_add, wrap64. rewrite Zplus_mod_idemp_l. f_equal. lia. Qed.

Lemma dist_next a k :
  Z.of_nat (S k) < usize_mod → dist (wrapping_add a 1) (wrapping_add a (Z.of_nat (S k))) = k.
Proof.
  intros Hk. replace (wrapping_add a (Z.of_nat (S k)))
    with (wrapping_add (wrapping_add a 1) (Z.of_nat k)) by (rewrite wrapping_add_add; f_equal; lia).
  apply dist_add. lia.
Qed.
