(* ===== verification/Uart.v ===== *)
(** * The UART driver of [uart.rs]

    The device is seen through its registers: [lsr k] is the value the [k]-th
    read of the line status register returns, and the driver's writes are
    recorded in order.  The transmit buffer is a ring of 32 bytes; the
    abstraction is the queue of bytes waiting to be sent. *)

From S2P Require Import Prelude Ring.

Open Scope Z_scope.

Definition IER_RX_ENABLE : Z := Z.shiftl 1 0.
Definition IER_TX_ENABLE : Z := Z.shiftl 1 1.
Definition FCR_FIFO_ENABLE : Z := Z.shiftl 1 0.
Definition FCR_FIFO_CLEAR : Z := Z.shiftl 3 1.
Definition LCR_EIGHT_BITS : Z := Z.shiftl 3 0.
Definition LCR_BAUD_LATCH : Z := Z.shiftl 1 7.
Definition LSR_TX_IDLE : Z := Z.shiftl 1 5.

Definition UART_TX_BUF_SIZE : nat := 32.

Record Uart := mkUart {
  base_address : Z;
  tx_buf : list Z;
  tx_w : Z;
  tx_r : Z;
}.

Inductive Register := RBR | THR | IER | IIR | FCR | LCR | LSR.

Definition addr (r : Register) (base_addr : Z) : Z :=
  match r with
  | RBR | THR => base_addr + 0
  | IER => base_addr + 1
  | IIR | FCR => base_addr + 2
  | LCR => base_addr + 3
  | LSR => base_addr + 5
  end.

(** What the driver does to the outside: register writes and wake-ups of the
    writers that sleep on [tx_r]. *)
Inductive event :=
  | EWrite (a v : Z)
  | EWakeup.

Definition new (base_address : Z) : Uart :=
  mkUart base_address (replicate UART_TX_BUF_SIZE 0) 0 0.

Definition write (u : Uart) (r : Register) (v : Z) : event := EWrite (addr r (base_address u)) v.

Definition init (u : Uart) : list event :=
  [ write u IER 0;
    write u LCR LCR_BAUD_LATCH;
    write u RBR 3;
    write u IER 0;
    write u LCR LCR_EIGHT_BITS;
    write u FCR (Z.lor FCR_FIFO_ENABLE FCR_FIFO_CLEAR);
    write u IER (Z.lor IER_TX_ENABLE IER_RX_ENABLE) ].

Section device.
Variable lsr : nat → Z.   (* the values read from the line status register *)

Definition tx_idle (k : nat) : bool := negb (Z.land (lsr k) LSR_TX_IDLE =? 0).

(** [start]: [k] counts the reads of the status register. *)
Fixpoint start_loop (fuel : nat) (u : Uart) (k : nat) : Uart * list event * nat :=
  match fuel with
  | O => (u, [], k)
  | S fuel =>
      if decide (tx_w u = tx_r u) then (u, [], k)
      else if tx_idle k then
        let c := tx_buf u !!! slot UART_TX_BUF_SIZE (tx_r u) in
        let u1 := mkUart (base_address u) (tx_buf u) (tx_w u) (wrapping_add (tx_r u) 1) in
        let '(u2, es, k2) := start_loop fuel u1 (S k) in
        (u2, EWakeup :: write u1 THR c :: es, k2)
      else (u, [], S k)
  end.

(** Every round takes a byte, so one more round than the buffer has bytes is enough. *)
Definition start (u : Uart) (k : nat) : Uart * list event * nat :=
  start_loop (S UART_TX_BUF_SIZE) u k.

(** One round of the loop of [putc]: [None] when the caller sleeps. *)
Definition putc (u : Uart) (c : Z) (k : nat) : option (Uart * list event * nat) :=
  if decide (tx_w u = wrapping_add (tx_r u) (Z.of_nat UART_TX_BUF_SIZE)) then None
  else
    let u1 := mkUart (base_address u)
                (<[slot UART_TX_BUF_SIZE (tx_w u) := c]> (tx_buf u))
                (wrapping_add (tx_w u) 1) (tx_r u) in
    Some (start u1 k).

(** [getc]: [rbr] is what a read of the receive buffer returns. *)
Definition getc (rbr : Z) (k : nat) : option Z * nat :=
  if Z.land (lsr k) 1 =? 0 then (None, S k) else (Some rbr, S k).

(** [putc_sync] spins on the status register; [None] when [fuel] reads were
    not enough. *)
Fixpoint putc_sync (fuel : nat) (u : Uart) (c : Z) (k : nat) : option (event * nat) :=
  match fuel with
  | O => None
  | S fuel => if tx_idle k then Some (write u THR c, S k) else putc_sync fuel u c (S k)
  end.
End device.

(** ** The queue *)
Record uinv (u : Uart) : Prop := {
  ui_buf : length (tx_buf u) = UART_TX_BUF_SIZE;
  ui_w : 0 ≤ tx_w u < usize_mod;
  ui_r : 0 ≤ tx_r u < usize_mod;
  ui_cap : (dist (tx_r u) (tx_w u) ≤ UART_TX_BUF_SIZE)%nat;
}.

Definition queue (u : Uart) : list Z :=
  ring UART_TX_BUF_SIZE (tx_buf u) (tx_r u) (dist (tx_r u) (tx_w u)).

(** The bytes handed to the transmit register. *)
Fixpoint sent (base : Z) (es : list event) : list Z :=
  match es with
  | [] => []
  | EWrite a v :: es => if decide (a = addr THR base) then v :: sent base es else sent base es
  | EWakeup :: es => sent base es
  end.

Lemma cap_divides : (Z.of_nat UART_TX_BUF_SIZE | usize_mod).
Proof. exists 576460752303423488. reflexivity. Qed.

Lemma uinv_new b : uinv (new b).
Proof. split; cbn; [done|lia|lia|]. unfold dist. vm_compute. lia. Qed.

(** One byte leaves the queue. *)
Lemma take_byte u :
  uinv u → tx_w u ≠ tx_r u →
  let u1 := mkUart (base_address u) (tx_buf u) (tx_w u) (wrapping_add (tx_r u) 1) in
  uinv u1 ∧ queue u = tx_buf u !!! slot UART_TX_BUF_SIZE (tx_r u) :: queue u1.
Proof.
  intros [Hb Hw Hr Hc] Hne u1.
  pose proof (dist_eq _ _ Hr Hw) as Heq.
  destruct (dist (tx_r u) (tx_w u)) as [|k] eqn:Hd; [by apply (dist_0 _ _ Hr Hw) in Hd|].
  assert (Hd1 : dist (tx_r u1) (tx_w u1) = k).
  { unfold u1. cbn [tx_r tx_w]. rewrite Heq. apply dist_next. unfold UART_TX_BUF_SIZE in Hc. lia. }
  split.
  - split; cbn [tx_buf tx_w tx_r u1]; [done|done|apply wrap64_range|]. fold u1. cbn in Hd1. lia.
  - unfold queue. rewrite Hd, Hd1, ring_cons. f_equal. symmetry. unfold u1. cbn [tx_buf tx_r].
    unfold wrapping_add. apply ring_wrap, cap_divides.
Qed.

(** One byte enters it. *)
Lemma put_byte u c :
  uinv u → tx_w u ≠ wrapping_add (tx_r u) (Z.of_nat UART_TX_BUF_SIZE) →
  let u1 := mkUart (base_address u) (<[slot UART_TX_BUF_SIZE (tx_w u) := c]> (tx_buf u))
              (wrapping_add (tx_w u) 1) (tx_r u) in
  uinv u1 ∧ queue u1 = queue u ++ [c].
Proof.
  intros [Hb Hw Hr Hc] Hne u1.
  pose proof (dist_eq _ _ Hr Hw) as Heq. set (k := dist (tx_r u) (tx_w u)) in *.
  assert (Hk : (k < UART_TX_BUF_SIZE)%nat).
  { destruct (decide (k = UART_TX_BUF_SIZE)) as [E|]; [by rewrite E in Heq|lia]. }
  assert (Hd1 : dist (tx_r u1) (tx_w u1) = S k).
  { unfold u1. cbn [tx_r tx_w]. rewrite Heq, wrapping_add_add.
    replace (Z.of_nat k + 1) with (Z.of_nat (S k)) by lia. apply dist_add.
    unfold UART_TX_BUF_SIZE in Hk. lia. }
  split.
  - split; cbn [tx_buf tx_w tx_r u1]; [by rewrite length_insert|apply wrap64_range|done|].
    cbn [tx_r tx_w u1] in Hd1. lia.
  - unfold queue. rewrite Hd1. fold k. unfold u1. cbn [tx_buf tx_r].
    rewrite Heq. unfold wrapping_add. rewrite slot_wrap by apply cap_divides.
    apply ring_push; [unfold UART_TX_BUF_SIZE; lia|done|done].
Qed.

Lemma start_loop_spec lsr fuel u k u' es k' :
  uinv u → (dist (tx_r u) (tx_w u) < fuel)%nat → start_loop lsr fuel u k = (u', es, k') →
  uinv u' ∧ base_address u' = base_address u ∧ queue u = sent (base_address u) es ++ queue u' ∧
  (queue u' = [] ∨ tx_idle lsr (pred k') = false ∧ (k < k')%nat).
Proof.
  revert u k u' es k'. induction fuel as [|fuel IH]; intros u k u' es k' Hu Hf; [lia|].
  cbn [start_loop]. case_decide as Hd.
  { intros [= <- <- <-]. split_and!; [done..|]. left. unfold queue. by rewrite Hd, dist_self. }
  destruct (tx_idle lsr k) eqn:Hidle.
  2: { intros [= <- <- <-]. split_and!; [done..|]. right. cbn. split; [done|lia]. }
  destruct (take_byte u Hu Hd) as [Hu1 Hq].
  set (u1 := mkUart (base_address u) (tx_buf u) (tx_w u) (wrapping_add (tx_r u) 1)) in *.
  destruct (start_loop lsr fuel u1 (S k)) as [[u2 es2] k2] eqn:E. intros [= <- <- <-].
  assert (Hf1 : (dist (tx_r u1) (tx_w u1) < fuel)%nat).
  { assert (Hl : length (queue u) = S (length (queue u1))) by (by rewrite Hq).
    unfold queue in Hl. rewrite !ring_length in Hl. lia. }
  destruct (IH _ _ _ _ _ Hu1 Hf1 E) as (Hu2 & Hb & Hq2 & Hend).
  split_and!; [done|done| |].
  - rewrite Hq, Hq2. cbn [sent write]. by rewrite decide_True.
  - destruct Hend as [|[? ?]]; [auto|]. right. split; [done|lia].
Qed.

(** The transmit buffer is a bounded queue.  From a state where the
    invariant holds, [putc] sleeps exactly when 32 bytes wait; otherwise the
    bytes waiting before, followed by the new byte, are those [start] hands
    to the transmit register, in order, followed by those that wait
    afterwards; and bytes are left waiting only when the device was last seen
    busy.  The invariant is kept. *)
Theorem uart_putc_fifo lsr u c k :
  uinv u →
  match putc lsr u c k with
  | None => length (queue u) = UART_TX_BUF_SIZE
  | Some (u', es, k') =>
      (length (queue u) < UART_TX_BUF_SIZE)%nat ∧ uinv u' ∧
      queue u ++ [c] = sent (base_address u) es ++ queue u' ∧
      (queue u' = [] ∨ tx_idle lsr (pred k') = false)
  end.
Proof.
  intros Hu. unfold putc. case_decide as Hf.
  - unfold queue. rewrite ring_length, Hf. apply dist_add. unfold UART_TX_BUF_SIZE. lia.
  - destruct (put_byte u c Hu Hf) as [Hu1 Hq1].
    set (u1 := mkUart _ _ _ _) in *. destruct (start lsr u1 k) as [[u' es] k'] eqn:E.
    pose proof (ui_cap _ Hu1) as Hc1.
    destruct (start_loop_spec lsr (S UART_TX_BUF_SIZE) u1 k u' es k' Hu1 ltac:(lia) E) as (Hu' & _ & Hq & Hend).
    rewrite <-Hq1. split_and!; [|done|done|tauto].
    assert (Hl : length (queue u1) = S (length (queue u))) by (rewrite Hq1, length_app; cbn; lia).
    unfold queue in *. rewrite !ring_length in *. lia.
Qed.

(** The interrupt path sends what waits: [start] hands a prefix of the
    queue to the device, in order, and stops early only when the device is
    busy; the fuel of the model's loop is never used up. *)
Theorem uart_start_drains lsr u k u' es k' :
  uinv u → start lsr u k = (u', es, k') →
  uinv u' ∧ queue u = sent (base_address u) es ++ queue u' ∧
  (queue u' = [] ∨ tx_idle lsr (pred k') = false).
Proof.
  intros Hu E. pose proof (ui_cap _ Hu).
  destruct (start_loop_spec lsr (S UART_TX_BUF_SIZE) u k u' es k' Hu ltac:(lia) E) as (? & _ & ? & ?). tauto.
Qed.

(** Two bytes fit in a device that is busy; the third status read shows it idle. *)
Definition demo_lsr (k : nat) : Z := if (k <? 2)%nat then 0 else 32.

Definition demo_uart : Uart :=
  match putc demo_lsr (new 268435456) 65 0 with Some (u, _, _) => u | None => new 0 end.

Lemma demo_uart_inv : uinv demo_uart.
Proof. split; vm_compute; intuition (congruence || lia). Qed.

Lemma uart_putc_fifo_witness :
  uinv demo_uart ∧ queue demo_uart = [65] ∧
  match putc demo_lsr demo_uart 66 2 with
  | Some (u', es, k') => [65; 66] = sent 268435456 es ++ queue u'
  | None => False
  end.
Proof.
  split; [apply demo_uart_inv|]. split; [reflexivity|].
  pose proof (uart_putc_fifo demo_lsr demo_uart 66 2 demo_uart_inv) as H.
  destruct (putc demo_lsr demo_uart 66 2) as [[[u' es] k']|] eqn:E; [|vm_compute in E; discriminate].
  destruct H as (_ & _ & H & _). exact H.
Defined.

Lemma uart_start_drains_witness :
  let '(u', es, _) := start demo_lsr demo_uart 2 in [65] = sent 268435456 es ++ queue u'.
Proof.
  destruct (start demo_lsr demo_uart 2) as [[u' es] k'] eqn:E.
  destruct (uart_start_drains _ _ _ _ _ _ demo_uart_inv E) as (_ & H & _). exact H.
Defined.
