(* ===== verification/Console.v ===== *)
(** * The console of [console.rs]

    Input arrives a character at a time from the UART interrupt and is edited
    in a ring of 128 bytes with three wrapping counters: [r] (the reader), [w]
    (the end of the committed input) and [e] (the end of the line being
    edited).  The abstraction is a pair of sequences: the committed bytes and
    the line being edited. *)

From S2P Require Import Prelude Ring Uart.

Open Scope Z_scope.

Definition BS : Z := 8.
Definition ctrl (x : Z) : Z := x - 64.

Definition INPUT_BUF_SIZE : nat := 128.

Record Cons := mkCons { buf : list Z; r : Z; w : Z; e : Z }.

Definition cons_new : Cons := mkCons (replicate INPUT_BUF_SIZE 0) 0 0 0.

(** [putc]: the bytes it hands to [uart::putc_sync]. *)
Definition cons_putc (c : Z) : list Z :=
  if decide (c = ctrl 72) then [BS; 32; BS] else [c].

Definition at_index (c : Cons) (i : Z) : Z := buf c !!! slot INPUT_BUF_SIZE i.

Definition set_e (c : Cons) (v : Z) : Cons := mkCons (buf c) (r c) (w c) v.
Definition set_r (c : Cons) (v : Z) : Cons := mkCons (buf c) v (w c) (e c).

(** Kill line: [while e != w && buf[(e - 1) % SIZE] != b'\n']. *)
Fixpoint kill_loop (fuel : nat) (c : Cons) (out : list Z) : Cons * list Z :=
  match fuel with
  | O => (c, out)
  | S fuel =>
      if decide (e c ≠ w c ∧ at_index c (wrapping_sub (e c) 1) ≠ 10) then
        kill_loop fuel (set_e c (wrapping_sub (e c) 1)) (out ++ cons_putc (ctrl 72))
      else (c, out)
  end.

(** What an input character asks for besides the change of the buffer. *)
Inductive request := RNone | RProcdump | RWakeup.

(** [intr]: the new state, the bytes echoed, the request.  The third arm
    compares with [ctrl(b'H') | b'\x7f'], which is [0x7f]. *)
Definition intr (cs : Cons) (c : Z) : Cons * list Z * request :=
  if decide (c = ctrl 80) then (cs, [], RProcdump)
  else if decide (c = ctrl 85) then
    let '(cs', out) := kill_loop (S INPUT_BUF_SIZE) cs [] in (cs', out, RNone)
  else if decide (c = Z.lor (ctrl 72) 127) then
    if decide (e cs ≠ w cs) then
      (set_e cs (wrapping_sub (e cs) 1), cons_putc (ctrl 72), RNone)
    else (cs, [], RNone)
  else if decide (c ≠ 0 ∧ wrapping_sub (e cs) (r cs) < Z.of_nat INPUT_BUF_SIZE) then
    let c := if decide (c = 13) then 10 else c in
    let cs1 := mkCons (<[slot INPUT_BUF_SIZE (e cs) := c]> (buf cs)) (r cs) (w cs)
                 (wrapping_add (e cs) 1) in
    if decide (c = 10 ∨ c = ctrl 68 ∨ wrapping_sub (e cs1) (r cs1) = Z.of_nat INPUT_BUF_SIZE) then
      (mkCons (buf cs1) (r cs1) (e cs1) (e cs1), cons_putc c, RWakeup)
    else (cs1, cons_putc c, RNone)
  else (cs, [], RNone).

(** [read]: how it ends.  [Blocked] is where the caller sleeps on [r], with
    the destination and the count it will go on with. *)
Inductive read_end := ReadOk (k : nat) | ReadErr | Blocked (dst : Z) (n : nat).

Section read.
Variable killed : bool.
Variable copyout : Z → Z → bool.   (* whether [either_copyout(dst, &c)] succeeds *)

(** The loop of [read]: the state, the bytes copied with their addresses,
    and the end. *)
Fixpoint read_loop (target : nat) (cs : Cons) (dst : Z) (n : nat)
    : Cons * list (Z * Z) * read_end :=
  match n with
  | O => (cs, [], ReadOk (target - 0))
  | S n' =>
      if decide (r cs = w cs) then
        (cs, [], if killed then ReadErr else Blocked dst n)
      else
        let c := at_index cs (r cs) in
        let cs1 := set_r cs (wrapping_add (r cs) 1) in
        if decide (c = ctrl 68) then
          ((if decide (n < target)%nat then set_r cs1 (wrapping_sub (r cs1) 1) else cs1),
           [], ReadOk (target - n))
        else if copyout dst c then
          if decide (c = 10) then (cs1, [(dst, c)], ReadOk (target - n'))
          else
            let '(cs2, out, res) := read_loop target cs1 (dst + 1) n' in
            (cs2, (dst, c) :: out, res)
        else (cs1, [], ReadOk (target - n))
  end.

Definition read (cs : Cons) (dst : Z) (n : nat) : Cons * list (Z * Z) * read_end :=
  read_loop n cs dst n.
End read.

(** [write]: [copyin a] is the byte [either_copyin] reads at [a]; the address
    [src] is the same in every round. *)
Fixpoint cons_write_loop (copyin : Z → option Z) (src : Z) (i k : nat) : list Z * nat :=
  match k with
  | O => ([], i)
  | S k =>
      match copyin src with
      | None => ([], i)
      | Some c =>
          let '(out, m) := cons_write_loop copyin src (S i) k in (cons_putc c ++ out, m)
      end
  end.

Definition cons_write (copyin : Z → option Z) (src : Z) (n : nat) : list Z * nat :=
  cons_write_loop copyin src 0 n.

(** [UART.intr]: at most one character is read from the device, then the
    transmit buffer is drained. *)
Definition uart_intr (lsr : nat → Z) (rbr : Z) (u : Uart) (cs : Cons) (k : nat)
    : Uart * Cons * list Z * request * list event * nat :=
  let '(oc, k1) := getc lsr rbr k in
  let '(cs', out, q) := match oc with Some c => intr cs c | None => (cs, [], RNone) end in
  let '(u', es, k2) := start lsr u k1 in
  (u', cs', out, q, es, k2).

(** ** The abstraction *)
Definition committed (c : Cons) : list Z := ring INPUT_BUF_SIZE (buf c) (r c) (dist (r c) (w c)).
Definition editing (c : Cons) : list Z := ring INPUT_BUF_SIZE (buf c) (w c) (dist (w c) (e c)).

Record cinv (c : Cons) : Prop := {
  ci_buf : length (buf c) = INPUT_BUF_SIZE;
  ci_r : 0 ≤ r c < usize_mod;
  ci_w : 0 ≤ w c < usize_mod;
  ci_e : 0 ≤ e c < usize_mod;
  ci_cap : (dist (r c) (w c) + dist (w c) (e c) ≤ INPUT_BUF_SIZE)%nat;
  ci_line : 10 ∉ editing c;
}.

(** The line discipline on sequences, as the head of [console.rs] describes it:
    control-P asks for the process list, control-U kills the line, control-H and
    delete erase its last byte, any other byte is accepted.  Each answer has the
    new sequences, the bytes shown to the user, and the request. *)
Definition erase : list Z := [8; 32; 8].

Definition accept (cm ed : list Z) (c : Z) : list Z * list Z * list Z * request :=
  if decide (c ≠ 0 ∧ (length cm + length ed < INPUT_BUF_SIZE)%nat) then
    let c := if decide (c = 13) then 10 else c in
    let echo := if decide (c = 8) then erase else [c] in
    if decide (c = 10 ∨ c = 4 ∨ S (length cm + length ed) = INPUT_BUF_SIZE) then
      (cm ++ ed ++ [c], [], echo, RWakeup)
    else (cm, ed ++ [c], echo, RNone)
  else (cm, ed, [], RNone).

Definition cook (cm ed : list Z) (c : Z) : list Z * list Z * list Z * request :=
  if decide (c = 16) then (cm, ed, [], RProcdump)
  else if decide (c = 21) then (cm, [], mjoin (replicate (length ed) erase), RNone)
  else if decide (c = 8 ∨ c = 127) then
    (cm, take (pred (length ed)) ed, match ed with [] => [] | _ => erase end, RNone)
  else accept cm ed c.

(** The bytes a read takes from the committed input: the bytes delivered, the
    rest, and how it ends. *)
Fixpoint deliver (killed : bool) (copyout : Z → Z → bool) (target : nat) (cm : list Z) (dst : Z) (n : nat)
    {struct n} : list Z * list (Z * Z) * read_end :=
  match n, cm with
  | O, _ => (cm, [], ReadOk target)
  | S _, [] => ([], [], if killed then ReadErr else Blocked dst n)
  | S n', c :: cm' =>
      if decide (c = 4) then (if decide (n < target)%nat then cm else cm', [], ReadOk (target - n))
      else if copyout dst c then
        if decide (c = 10) then (cm', [(dst, c)], ReadOk (target - n'))
        else let '(rest, out, res) := deliver killed copyout target cm' (dst + 1) n' in
             (rest, (dst, c) :: out, res)
      else (cm', [], ReadOk (target - n))
  end.

Lemma cap_divides_in : (Z.of_nat INPUT_BUF_SIZE | usize_mod).
Proof. exists 144115188075855872. reflexivity. Qed.

Lemma cap_pos_in : (0 < INPUT_BUF_SIZE)%nat.
Proof. unfold INPUT_BUF_SIZE. lia. Qed.

Lemma small_in (k : nat) : (k ≤ INPUT_BUF_SIZE)%nat → Z.of_nat k < usize_mod.
Proof. unfold INPUT_BUF_SIZE. lia. Qed.

(** A state given by the counter [r] and the two lengths. *)
Definition at_lengths (b : list Z) (r0 : Z) (k1 k2 : nat) : Cons :=
  mkCons b r0 (wrapping_add r0 (Z.of_nat k1)) (wrapping_add r0 (Z.of_nat (k1 + k2))).

Lemma cinv_lengths c : cinv c → c = at_lengths (buf c) (r c) (dist (r c) (w c)) (dist (w c) (e c)).
Proof.
  intros [_ Hr Hw He _ _]. destruct c as [b r0 w0 e0]; cbn in *. unfold at_lengths.
  pose proof (dist_eq _ _ Hr Hw) as Hw'. pose proof (dist_eq _ _ Hw He) as He'.
  rewrite <-Hw'. f_equal. rewrite He', Hw' at 1. rewrite wrapping_add_add. f_equal. lia.
Qed.

Section lengths.
Variables (b : list Z) (r0 : Z) (k1 k2 : nat).
Hypothesis Hb : length b = INPUT_BUF_SIZE.
Hypothesis Hr : 0 ≤ r0 < usize_mod.
Hypothesis Hk : (k1 + k2 ≤ INPUT_BUF_SIZE)%nat.

Lemma al_dist_w : dist (r (at_lengths b r0 k1 k2)) (w (at_lengths b r0 k1 k2)) = k1.
Proof. apply dist_add, small_in. lia. Qed.

Lemma al_dist_e : dist (w (at_lengths b r0 k1 k2)) (e (at_lengths b r0 k1 k2)) = k2.
Proof.
  cbn. replace (wrapping_add r0 (Z.of_nat (k1 + k2)))
    with (wrapping_add (wrapping_add r0 (Z.of_nat k1)) (Z.of_nat k2))
    by (rewrite wrapping_add_add; f_equal; lia).
  apply dist_add, small_in. lia.
Qed.

Lemma al_count : wrapping_sub (e (at_lengths b r0 k1 k2)) (r (at_lengths b r0 k1 k2)) =
  Z.of_nat (k1 + k2).
Proof.
  cbn. pose proof (dist_add r0 (k1 + k2) (small_in _ Hk)) as Hd. unfold dist in Hd.
  unfold wrapping_sub in *. pose proof (wrap64_range (wrapping_add r0 (Z.of_nat (k1 + k2)) - r0)). lia.
Qed.

Lemma al_committed : committed (at_lengths b r0 k1 k2) = ring INPUT_BUF_SIZE b r0 k1.
Proof. unfold committed. by rewrite al_dist_w. Qed.

Lemma al_editing :
  editing (at_lengths b r0 k1 k2) = ring INPUT_BUF_SIZE b (r0 + Z.of_nat k1) k2.
Proof.
  unfold editing. rewrite al_dist_e. cbn. unfold wrapping_add. by apply ring_wrap, cap_divides_in.
Qed.

Lemma al_cinv : 10 ∉ ring INPUT_BUF_SIZE b (r0 + Z.of_nat k1) k2 → cinv (at_lengths b r0 k1 k2).
Proof.
  intros Hl. split; [done|done|apply wrap64_range|apply wrap64_range| |by rewrite al_editing].
  by rewrite al_dist_w, al_dist_e.
Qed.

(** The byte before the edit position. *)
Lemma al_last k : k2 = S k →
  at_index (at_lengths b r0 k1 k2) (wrapping_sub (e (at_lengths b r0 k1 k2)) 1) =
    b !!! slot INPUT_BUF_SIZE (r0 + Z.of_nat k1 + Z.of_nat k) ∧
  set_e (at_lengths b r0 k1 k2) (wrapping_sub (e (at_lengths b r0 k1 k2)) 1) = at_lengths b r0 k1 k.
Proof.
  intros ->. assert (He : wrapping_sub (wrapping_add r0 (Z.of_nat (k1 + S k))) 1 =
    wrapping_add r0 (Z.of_nat (k1 + k))).
  { unfold wrapping_sub, wrapping_add, wrap64. rewrite Zminus_mod_idemp_l. f_equal. lia. }
  unfold at_index, set_e. cbn [e buf r w at_lengths]. rewrite He. split; [|done].
  unfold wrapping_add. rewrite slot_wrap by apply cap_divides_in. do 2 f_equal. lia.
Qed.

Lemma al_empty : e (at_lengths b r0 k1 k2) = w (at_lengths b r0 k1 k2) ↔ k2 = 0%nat.
Proof.
  rewrite <-al_dist_e at 3. symmetry. etrans; [apply dist_0; apply wrap64_range|]. cbn. naive_solver.
Qed.
End lengths.

Lemma kill_loop_spec b r0 k1 k2 fuel out :
  length b = INPUT_BUF_SIZE → 0 ≤ r0 < usize_mod → (k1 + k2 ≤ INPUT_BUF_SIZE)%nat →
  10 ∉ ring INPUT_BUF_SIZE b (r0 + Z.of_nat k1) k2 → (k2 < fuel)%nat →
  kill_loop fuel (at_lengths b r0 k1 k2) out =
    (at_lengths b r0 k1 0, out ++ mjoin (replicate k2 (cons_putc (ctrl 72)))).
Proof.
  intros Hb Hr. revert k2 out. induction fuel as [|fuel IH]; intros k2 out Hk Hl Hf; [lia|].
  cbn [kill_loop]. destruct k2 as [|k].
  - rewrite decide_False; [by rewrite app_nil_r|]. intros [Hne _]. by apply Hne, (al_empty b r0 k1 0 Hb Hr Hk).
  - destruct (al_last b r0 k1 (S k) Hb Hk k eq_refl) as [Ha He].
    rewrite ring_snoc in Hl. apply not_elem_of_app in Hl as [Hl Hx].
    rewrite decide_True.
    + rewrite He, IH by (done || lia). cbn. by rewrite <-app_assoc.
    + split; [by rewrite al_empty by done|]. rewrite Ha. intros Hn. apply Hx. rewrite Hn. left.
Qed.

(** Storing the next byte of the line. *)
Lemma al_store b r0 k1 k2 c :
  length b = INPUT_BUF_SIZE → (k1 + k2 < INPUT_BUF_SIZE)%nat →
  let b' := <[slot INPUT_BUF_SIZE (wrapping_add r0 (Z.of_nat (k1 + k2))) := c]> b in
  length b' = INPUT_BUF_SIZE ∧ ring INPUT_BUF_SIZE b' r0 k1 = ring INPUT_BUF_SIZE b r0 k1 ∧
  ring INPUT_BUF_SIZE b' (r0 + Z.of_nat k1) (S k2) =
    ring INPUT_BUF_SIZE b (r0 + Z.of_nat k1) k2 ++ [c].
Proof.
  intros Hb Hk b'. split; [by unfold b'; rewrite length_insert|].
  assert (Hp : ring INPUT_BUF_SIZE b' r0 (S (k1 + k2)) = ring INPUT_BUF_SIZE b r0 (k1 + k2) ++ [c]).
  { unfold b', wrapping_add. rewrite slot_wrap by apply cap_divides_in. apply ring_push; [apply cap_pos_in|done|done]. }
  replace (S (k1 + k2)) with (k1 + S k2)%nat in Hp by lia.
  rewrite !ring_app, <-app_assoc in Hp. apply app_inj_1 in Hp; [done|by rewrite !ring_length].
Qed.

Lemma al_commit b r0 k1 k2 :
  mkCons b r0 (e (at_lengths b r0 k1 k2)) (e (at_lengths b r0 k1 k2)) = at_lengths b r0 (k1 + k2) 0.
Proof. unfold at_lengths. cbn. by rewrite Nat.add_0_r. Qed.

Definition represents (c : Cons) (cm ed : list Z) : Prop :=
  cinv c ∧ committed c = cm ∧ editing c = ed.

Lemma al_represents b r0 k1 k2 :
  length b = INPUT_BUF_SIZE → 0 ≤ r0 < usize_mod → (k1 + k2 ≤ INPUT_BUF_SIZE)%nat →
  10 ∉ ring INPUT_BUF_SIZE b (r0 + Z.of_nat k1) k2 →
  represents (at_lengths b r0 k1 k2) (ring INPUT_BUF_SIZE b r0 k1)
    (ring INPUT_BUF_SIZE b (r0 + Z.of_nat k1) k2).
Proof. intros. split; [by apply al_cinv|]. by rewrite al_committed, al_editing. Qed.

Lemma insert_refines b r0 k1 k2 c :
  length b = INPUT_BUF_SIZE → 0 ≤ r0 < usize_mod → (k1 + k2 < INPUT_BUF_SIZE)%nat →
  10 ∉ ring INPUT_BUF_SIZE b (r0 + Z.of_nat k1) k2 →
  let cs := at_lengths b r0 k1 k2 in
  let cs1 := mkCons (<[slot INPUT_BUF_SIZE (e cs) := c]> (buf cs)) (r cs) (w cs) (wrapping_add (e cs) 1) in
  wrapping_sub (e cs1) (r cs1) = Z.of_nat (S (k1 + k2)) ∧
  (c ≠ 10 → represents cs1 (ring INPUT_BUF_SIZE b r0 k1) (ring INPUT_BUF_SIZE b (r0 + Z.of_nat k1) k2 ++ [c])) ∧
  represents (mkCons (buf cs1) (r cs1) (e cs1) (e cs1))
    (ring INPUT_BUF_SIZE b r0 k1 ++ ring INPUT_BUF_SIZE b (r0 + Z.of_nat k1) k2 ++ [c]) [].
Proof.
  intros Hb Hr Hk Hl cs cs1.
  destruct (al_store b r0 k1 k2 c Hb Hk) as (Hb' & H1 & H2). set (b' := <[_ := c]> b) in *.
  assert (Hcs1 : cs1 = at_lengths b' r0 k1 (S k2)).
  { unfold cs1, cs, at_lengths. cbn [e buf r w]. f_equal. rewrite wrapping_add_add. f_equal. lia. }
  assert (Hk' : (k1 + S k2 ≤ INPUT_BUF_SIZE)%nat) by lia.
  rewrite Hcs1. split_and!.
  - rewrite al_count by done. f_equal. lia.
  - intros Hc. rewrite <-H1, <-H2. apply al_represents; try done. rewrite H2.
    apply not_elem_of_app. split; [done|]. by rewrite list_elem_of_singleton.
  - change (buf (at_lengths b' r0 k1 (S k2))) with b'. change (r (at_lengths b' r0 k1 (S k2))) with r0.
    rewrite al_commit. rewrite <-H1, <-H2, <-ring_app.
    apply (al_represents b' r0 (k1 + S k2) 0); [done|done|lia|]. apply not_elem_of_nil.
Qed.

(** Every represented state is given by its lengths. *)
Lemma represents_lengths cs cm ed :
  represents cs cm ed → ∃ b r0 k1 k2, cs = at_lengths b r0 k1 k2 ∧ length b = INPUT_BUF_SIZE ∧
    0 ≤ r0 < usize_mod ∧ (k1 + k2 ≤ INPUT_BUF_SIZE)%nat ∧
    cm = ring INPUT_BUF_SIZE b r0 k1 ∧ ed = ring INPUT_BUF_SIZE b (r0 + Z.of_nat k1) k2 ∧ 10 ∉ ed.
Proof.
  intros (Hi & <- & <-). pose proof (cinv_lengths _ Hi) as Hcs. destruct Hi as [Hb Hr _ _ Hk Hl].
  exists (buf cs), (r cs), (dist (r cs) (w cs)), (dist (w cs) (e cs)).
  split_and!; try (done || lia); rewrite Hcs at 1; by apply al_editing.
Qed.

(** The result of [intr] is [res] on sequences. *)
Definition intr_is (x : Cons * list Z * request) (res : list Z * list Z * list Z * request) : Prop :=
  let '(cs', out, q) := x in
  let '(cm', ed', out', q') := res in
  represents cs' cm' ed' ∧ out = out' ∧ q = q'.

Lemma accept_lengths b r0 k1 k2 c :
  length b = INPUT_BUF_SIZE → 0 ≤ r0 < usize_mod → (k1 + k2 ≤ INPUT_BUF_SIZE)%nat →
  10 ∉ ring INPUT_BUF_SIZE b (r0 + Z.of_nat k1) k2 → c ≠ 16 → c ≠ 21 → c ≠ 127 →
  intr_is (intr (at_lengths b r0 k1 k2) c)
    (accept (ring INPUT_BUF_SIZE b r0 k1) (ring INPUT_BUF_SIZE b (r0 + Z.of_nat k1) k2) c).
Proof.
  intros Hb Hr Hk Hl H16 H21 H127. pose proof (al_represents b r0 k1 k2 Hb Hr Hk Hl) as Hrep.
  unfold intr, accept, cons_putc. change (ctrl 80) with 16. change (ctrl 85) with 21.
  change (Z.lor (ctrl 72) 127) with 127. change (ctrl 68) with 4. change (ctrl 72) with 8. fold erase.
  rewrite (decide_False (P := c = 16)), (decide_False (P := c = 21)), (decide_False (P := c = 127)) by done.
  rewrite al_count, !ring_length by done.
  destruct (decide (c ≠ 0 ∧ (k1 + k2 < INPUT_BUF_SIZE)%nat)) as [[H0 Hlt]|Hn].
  2: { rewrite decide_False; [done|]. intros [? ?]. apply Hn. split; [done|lia]. }
  rewrite (decide_True (P := c ≠ 0 ∧ Z.of_nat (k1 + k2) < _)) by (split; [done|lia]).
  set (c' := if decide (c = 13) then 10 else c).
  destruct (insert_refines b r0 k1 k2 c' Hb Hr Hlt Hl) as (Hc & Hno & Hyes).
  rewrite Hc. destruct (decide (c' = 10 ∨ c' = 4 ∨ S (k1 + k2) = INPUT_BUF_SIZE)) as [Hd|Hd].
  - rewrite decide_True by (unfold INPUT_BUF_SIZE in *; lia). done.
  - rewrite decide_False by (unfold INPUT_BUF_SIZE in *; lia). split; [|done]. apply Hno. tauto.
Qed.

Lemma cook_lengths b r0 k1 k2 c :
  length b = INPUT_BUF_SIZE → 0 ≤ r0 < usize_mod → (k1 + k2 ≤ INPUT_BUF_SIZE)%nat →
  10 ∉ ring INPUT_BUF_SIZE b (r0 + Z.of_nat k1) k2 → c ≠ 8 →
  intr_is (intr (at_lengths b r0 k1 k2) c)
    (cook (ring INPUT_BUF_SIZE b r0 k1) (ring INPUT_BUF_SIZE b (r0 + Z.of_nat k1) k2) c).
Proof.
  intros Hb Hr Hk Hl H8. pose proof (al_represents b r0 k1 k2 Hb Hr Hk Hl) as Hrep.
  unfold cook. destruct (decide (c = 16)) as [->|H16]; [done|]. destruct (decide (c = 21)) as [->|H21].
  { unfold intr. rewrite decide_False, decide_True by done. rewrite kill_loop_spec by (done || lia). rewrite ring_length.
    split; [|done]. apply (al_represents b r0 k1 0); [done|done|lia|apply not_elem_of_nil]. }
  destruct (decide (c = 127)) as [->|H127].
  2: { rewrite (decide_False (P := c = 8 ∨ c = 127)) by tauto. by apply accept_lengths. }
  rewrite decide_True by tauto. unfold intr. rewrite !decide_False, (decide_True (P := 127 = _)) by done.
  destruct k2 as [|k] eqn:Ek.
  - rewrite decide_False by (intros Hne; by apply Hne, (al_empty b r0 k1 0 Hb Hr Hk)). done.
  - rewrite decide_True by (by rewrite al_empty by done).
    destruct (al_last b r0 k1 (S k) Hb Hk k eq_refl) as [_ ->].
    rewrite ring_snoc in Hl |- *. apply not_elem_of_app in Hl as [Hl _].
    rewrite length_app, ring_length. cbn [length]. replace (pred (k + 1)) with k by lia.
    rewrite take_app_length' by (by rewrite ring_length). split_and!; [apply al_represents; (done || lia)| |done].
    by destruct (ring INPUT_BUF_SIZE b (r0 + Z.of_nat k1) k).
Qed.

(** C35. The line discipline.  [intr] on a state that represents the committed
    bytes [cm] and the line [ed] leaves a state that represents what the
    documented discipline on sequences gives, shows the user the same bytes and
    makes the same request, for every character but control-H: control-U
    empties the line, delete drops its last byte, another byte is appended when
    there is room, and the line is committed on a newline, a control-D or a
    full buffer, which also wakes the readers.  Control-H, documented as
    backspace, is not erased but accepted like any other byte. *)
Theorem console_intr_refines cs cm ed c :
  represents cs cm ed →
  (c ≠ 8 → intr_is (intr cs c) (cook cm ed c)) ∧ (c = 8 → intr_is (intr cs c) (accept cm ed c)).
Proof.
  intros (b & r0 & k1 & k2 & -> & Hb & Hr & Hk & -> & -> & Hl)%represents_lengths. split.
  - by apply cook_lengths.
  - intros ->. by apply accept_lengths.
Qed.

(** The reader advances by one byte. *)
Lemma al_advance b r0 k1 k2 :
  set_r (at_lengths b r0 (S k1) k2) (wrapping_add r0 1) = at_lengths b (wrapping_add r0 1) k1 k2.
Proof.
  unfold set_r, at_lengths. cbn [buf r w e]. rewrite !wrapping_add_add. do 2 f_equal; lia.
Qed.

Lemma al_rest b r0 k1 k2 :
  ring INPUT_BUF_SIZE b (wrapping_add r0 1 + Z.of_nat k1) k2 =
  ring INPUT_BUF_SIZE b (r0 + Z.of_nat (S k1)) k2.
Proof.
  rewrite <-(ring_wrap _ cap_divides_in b (r0 + _)), <-(ring_wrap _ cap_divides_in b (_ + _)).
  f_equal. unfold wrapping_add, wrap64. rewrite Zplus_mod_idemp_l. f_equal. lia.
Qed.

Lemma read_lengths killed copyout target n b r0 k1 k2 dst :
  length b = INPUT_BUF_SIZE → 0 ≤ r0 < usize_mod → (k1 + k2 ≤ INPUT_BUF_SIZE)%nat →
  10 ∉ ring INPUT_BUF_SIZE b (r0 + Z.of_nat k1) k2 →
  let '(cs', out, res) := read_loop killed copyout target (at_lengths b r0 k1 k2) dst n in
  let '(cm', out', res') := deliver killed copyout target (ring INPUT_BUF_SIZE b r0 k1) dst n in
  represents cs' cm' (ring INPUT_BUF_SIZE b (r0 + Z.of_nat k1) k2) ∧ out = out' ∧ res = res'.
Proof.
  intros Hb. revert r0 k1 dst. induction n as [|n IH]; intros r0 k1 dst Hr Hk Hl.
  { cbn. split; [by apply al_represents|]. by rewrite Nat.sub_0_r. }
  cbn [read_loop]. destruct k1 as [|k1].
  { rewrite decide_True; [cbn [deliver ring fmap list_fmap seq]; split; [by apply al_represents|done]|].
    cbn. unfold wrapping_add. by rewrite Z.add_0_r, wrap64_small. }
  assert (Hrw : r (at_lengths b r0 (S k1) k2) ≠ w (at_lengths b r0 (S k1) k2)).
  { intros He. apply dist_0 in He; [|done|apply wrap64_range]. by rewrite al_dist_w in He. }
  rewrite decide_False by done. change (r (at_lengths b r0 (S k1) k2)) with r0.
  rewrite al_advance, ring_cons. cbn [deliver]. change (ctrl 68) with 4.
  change (at_index (at_lengths b r0 (S k1) k2) r0) with (b !!! slot INPUT_BUF_SIZE r0).
  set (c := b !!! slot INPUT_BUF_SIZE r0). set (r1 := wrapping_add r0 1).
  assert (Hr1 : 0 ≤ r1 < usize_mod) by apply wrap64_range.
  assert (Hl1 : ring INPUT_BUF_SIZE b (r1 + Z.of_nat k1) k2 =
    ring INPUT_BUF_SIZE b (r0 + Z.of_nat (S k1)) k2) by apply al_rest.
  assert (Hcm : ring INPUT_BUF_SIZE b r1 k1 = ring INPUT_BUF_SIZE b (r0 + 1) k1)
    by (apply ring_wrap, cap_divides_in).
  rewrite <-Hl1 in Hl |- *. rewrite <-Hcm.
  destruct (decide (c = 4)).
  { split; [|done]. destruct (decide (S n < target)%nat).
    - unfold set_r. cbn [buf r w e at_lengths]. unfold r1 at 1. rewrite wrapping_add_sub by done.
      replace (mkCons b r0 _ _) with (at_lengths b r0 (S k1) k2).
      + rewrite Hl1, Hcm. unfold c. rewrite <-ring_cons. apply al_represents; try done. by rewrite <-Hl1.
      + unfold at_lengths, r1. rewrite !wrapping_add_add. do 2 f_equal; lia.
    - apply al_represents; (done || lia). }
  destruct (copyout dst c); [|split; [|done]; apply al_represents; (done || lia)].
  destruct (decide (c = 10)); [split; [|done]; apply al_represents; (done || lia)|].
  specialize (IH r1 k1 (dst + 1) Hr1 ltac:(lia) Hl).
  destruct (read_loop _ _ _ (at_lengths b r1 k1 k2) (dst + 1) n) as [[cs' out] res].
  destruct (deliver _ _ _ (ring INPUT_BUF_SIZE b r1 k1) (dst + 1) n) as [[cm' out'] res'].
  destruct IH as (? & -> & ->). done.
Qed.

(** A read takes from the front of the committed input exactly what the
    reading discipline on sequences delivers: at most [n] bytes, up to and
    including the first newline, stopping at a control-D (which is consumed
    only by a read that returns nothing), to consecutive addresses; the line
    being edited is untouched, and the read blocks only when the committed
    input is used up. *)
Theorem console_read_refines killed copyout cs cm ed dst n :
  represents cs cm ed →
  let '(cs', out, res) := read killed copyout cs dst n in
  let '(cm', out', res') := deliver killed copyout n cm dst n in
  represents cs' cm' ed ∧ out = out' ∧ res = res'.
Proof.
  intros (b & r0 & k1 & k2 & -> & Hb & Hr & Hk & -> & -> & Hl)%represents_lengths.
  by apply read_lengths.
Qed.

(** [write] of [n] bytes sends the byte at [src] [n] times: the source
    address is never advanced. *)
Theorem console_write_repeats copyin src n c :
  copyin src = Some c → cons_write copyin src n = (mjoin (replicate n (cons_putc c)), n).
Proof.
  intros Hc. unfold cons_write.
  assert (H : ∀ k i, cons_write_loop copyin src i k = (mjoin (replicate k (cons_putc c)), (i + k)%nat)).
  { induction k as [|k IH]; intros i; cbn; [by rewrite Nat.add_0_r|]. rewrite Hc, IH. f_equal. lia. }
  apply H.
Qed.

(** Control-H does not erase: the byte 8 is stored in the line like a
    printable character. *)
Theorem console_ctrl_h_is_stored cs cm ed :
  represents cs cm ed → (length cm + length ed < 127)%nat →
  ∃ cs', intr cs (ctrl 72) = (cs', [BS; 32; BS], RNone) ∧ represents cs' cm (ed ++ [8]).
Proof.
  intros (b & r0 & k1 & k2 & -> & Hb & Hr & Hk & -> & -> & Hl)%represents_lengths Hroom.
  rewrite !ring_length in Hroom. assert (Hlt : (k1 + k2 < INPUT_BUF_SIZE)%nat) by (unfold INPUT_BUF_SIZE; lia).
  destruct (insert_refines b r0 k1 k2 8 Hb Hr Hlt Hl) as (Hc & Hno & _).
  unfold intr. change (ctrl 72) with 8. change (ctrl 80) with 16. change (ctrl 85) with 21.
  change (Z.lor 8 127) with 127. change (ctrl 68) with 4.
  rewrite !(decide_False (P := 8 = _)) by lia. rewrite decide_True; [|split; [lia|]].
  2: { rewrite al_count by (done || lia). lia. }
  rewrite Hc. rewrite decide_False by (unfold INPUT_BUF_SIZE in *; lia).
  eexists. split; [done|]. by apply Hno.
Qed.

Lemma represents_new : represents cons_new [] [].
Proof.
  split; [|done]. split; cbn; try done; [vm_compute; lia|]. unfold editing. cbn.
  rewrite dist_self. apply not_elem_of_nil.
Qed.

(** The characters [a], [b], delete, return. *)
Definition demo_cons : Cons := foldl (λ cs c, (intr cs c).1.1) cons_new [97; 98; 127; 13; 99].

Lemma demo_cons_represents : represents demo_cons [97; 10] [99].
Proof.
  unfold represents. split; [|by vm_compute]. split; [done|vm_compute; intuition congruence..| |].
  - vm_compute. lia.
  - replace (editing demo_cons) with [99] by by vm_compute. by rewrite list_elem_of_singleton.
Qed.

Lemma console_intr_refines_witness :
  represents (intr demo_cons 13).1.1 [97; 10; 99; 10] [] ∧ represents (intr demo_cons 127).1.1 [97; 10] [] ∧
  represents (intr demo_cons 8).1.1 [97; 10] [99; 8].
Proof.
  pose proof (proj1 (console_intr_refines demo_cons [97; 10] [99] 13 demo_cons_represents) ltac:(done)) as H13.
  pose proof (proj1 (console_intr_refines demo_cons [97; 10] [99] 127 demo_cons_represents) ltac:(done)) as H127.
  pose proof (proj2 (console_intr_refines demo_cons [97; 10] [99] 8 demo_cons_represents) eq_refl) as H8.
  destruct (intr demo_cons 13) as [[c1 o1] q1]. destruct (intr demo_cons 127) as [[c2 o2] q2].
  destruct (intr demo_cons 8) as [[c3 o3] q3]. exact (conj (proj1 H13) (conj (proj1 H127) (proj1 H8))).
Defined.

Lemma console_read_refines_witness :
  ∃ cs', read false (λ _ _, true) demo_cons 4096 50 = (cs', [(4096, 97); (4097, 10)], ReadOk 2) ∧
    represents cs' [] [99].
Proof.
  pose proof (console_read_refines false (λ _ _, true) demo_cons [97; 10] [99] 4096 50
    demo_cons_represents) as H.
  destruct (read false (λ _ _, true) demo_cons 4096 50) as [[cs' out] res].
  destruct H as (H1 & H2 & H3). exists cs'. split; [|exact H1]. rewrite H2, H3. reflexivity.
Defined.

Lemma console_write_repeats_witness :
  cons_write (λ a, Some (a `mod` 256)) 65 3 = ([65; 65; 65], 3%nat).
Proof. exact (console_write_repeats (λ a, Some (a `mod` 256)) 65 3 65 eq_refl). Defined.

Lemma console_ctrl_h_is_stored_witness :
  ∃ cs', intr demo_cons (ctrl 72) = (cs', [BS; 32; BS], RNone) ∧ represents cs' [97; 10] [99; 8].
Proof.
  apply (console_ctrl_h_is_stored demo_cons [97; 10] [99]); [apply demo_cons_represents|cbn; lia].
Defined.
