(* ===== verification/Printf.v ===== *)
(** * Printing ([printf.rs]): messages of concurrent threads, and [panic]

    A message is the bytes of a formatted string.  [_print] takes the lock of
    the writer while [locking] is set, and writes without it once a panic has
    cleared it.  The echo of input and the writes of user programs reach the
    device through the same [console::putc] and never take the lock.  Every
    byte goes through [uart::putc_sync], which loads [panicked], stops for ever
    if it is set, waits for the device, and writes the byte.  One step is one
    access of a thread: a load or store of a flag, taking or dropping the lock,
    or the write of one byte to the device; waiting for the device is taking no
    step. *)

From S2P Require Import Prelude Console.

Open Scope Z_scope.

(** How a thread sends: with the lock, which message and what of it the device
    already has; from [_print] without the lock; or straight from the console.
    [last]: it panicked. *)
Inductive how :=
  | ByLock (msg sofar : list Z) (last : bool)
  | Bare (last : bool)
  | Direct.

(** Where a thread is: outside; before the load of [locking]; waiting for the
    lock; sending [todo], [armed] when the load of [panicked] for the first of
    these bytes is done; about to set [panicked]; stopped after that. *)
Inductive ppc :=
  | Quiet
  | Load_ (msg : list Z) (last : bool)
  | Want (msg : list Z) (last : bool)
  | Put (h : how) (todo : list Z) (armed : bool)
  | Store
  | Halted.

Record Pr := mkPr {
  locking : bool;
  panicked : bool;
  writer : option nat;        (* the thread that has the lock *)
  threads : list ppc;
  out : list (bool * Z);      (* what the device was sent, and whether under the lock *)
  said : list (list Z);       (* the messages completed under the lock *)
}.

Definition pr_new (n : nat) : Pr := mkPr true false None (replicate n Quiet) [] [].

Definition goto (p : Pr) (t : nat) (x : ppc) : Pr :=
  mkPr (locking p) (panicked p) (writer p) (<[t := x]> (threads p)) (out p) (said p).

(** The bytes that [console::putc] hands to the device for a string. *)
Definition sent (l : list Z) : list Z := concat (cons_putc <$> l).
#[local] Arguments sent : simpl never.

Definition under_lock (h : how) : bool := match h with ByLock _ _ _ => true | _ => false end.
Definition advance (h : how) (c : Z) : how := match h with ByLock m d l => ByLock m (d ++ [c]) l | _ => h end.

(** The write to the device at the end of [putc_sync]. *)
Definition emit (p : Pr) (h : how) (c : Z) : Pr :=
  mkPr (locking p) (panicked p) (writer p) (threads p) (out p ++ [(under_lock h, c)]) (said p).

(** The end of a [_print] or of an echo. *)
Definition finish (p : Pr) (t : nat) (h : how) : Pr :=
  match h with
  | ByLock m _ l =>
      mkPr (locking p) (panicked p) None (<[t := if l then Store else Quiet]> (threads p)) (out p) (said p ++ [m])
  | Bare l => goto p t (if l then Store else Quiet)
  | Direct => goto p t Quiet
  end.

(** One access of thread [t]; [None]: it waits, or has stopped for ever. *)
Definition print_step (p : Pr) (t : nat) (x : ppc) : option Pr :=
  match x with
  | Quiet | Halted => None
  | Load_ m l => Some (goto p t (if locking p then Want m l else Put (Bare l) (sent m) false))
  | Want m l =>
      match writer p with
      | None => Some (mkPr (locking p) (panicked p) (Some t) (<[t := Put (ByLock m [] l) (sent m) false]> (threads p))
                        (out p) (said p))
      | Some _ => None
      end
  | Put h [] _ => Some (finish p t h)
  | Put h (c :: r) false => if panicked p then None else Some (goto p t (Put h (c :: r) true))
  | Put h (c :: r) true => Some (goto (emit p h c) t (Put (advance h c) r false))
  | Store => Some (mkPr (locking p) true (writer p) (<[t := Halted]> (threads p)) (out p) (said p))
  end.

(** Threads start to print, the console echoes or copies out a user's bytes, or
    a thread panics: [panic] clears [locking] and prints. *)
Inductive pstep (p : Pr) : Pr → Prop :=
  | p_print t m : threads p !! t = Some Quiet → pstep p (goto p t (Load_ m false))
  | p_echo t m : threads p !! t = Some Quiet → pstep p (goto p t (Put Direct (sent m) false))
  | p_panic t x m : threads p !! t = Some x → x ≠ Halted → x ≠ Store →
      pstep p (mkPr false (panicked p) (writer p) (<[t := Load_ m true]> (threads p)) (out p) (said p))
  | p_step t x p' : threads p !! t = Some x → print_step p t x = Some p' → pstep p p'.

(** ** Messages are whole *)

(** The part of its message that the thread with the lock has sent. *)
Definition written (p : Pr) : list Z :=
  match writer p with
  | Some t => match threads p !! t with Some (Put (ByLock _ d _) _ _) => d | _ => [] end
  | None => []
  end.

(** The bytes sent under the lock. *)
Definition messages (o : list (bool * Z)) : list Z := (filter (λ x, x.1 = true) o).*2.
#[local] Arguments messages : simpl never.

Lemma messages_snoc o b c : messages (o ++ [(b, c)]) = messages o ++ (if b then [c] else []).
Proof. unfold messages. rewrite filter_app, fmap_app. by destruct b. Qed.

Lemma sent_app l k : sent (l ++ k) = sent l ++ sent k.
Proof. unfold sent. by rewrite fmap_app, concat_app. Qed.

(** While [locking] is set, no thread is on the path of a panic. *)
Definition calm (x : ppc) : Prop :=
  match x with
  | Quiet | Put Direct _ _ => True
  | Load_ _ l | Want _ l | Put (ByLock _ _ l) _ _ => l = false
  | Put (Bare _) _ _ | Store | Halted => False
  end.

Definition locked (x : ppc) : Prop := match x with Put (ByLock _ _ _) _ _ => True | _ => False end.

Record prinv (p : Pr) : Prop := {
  pv_calm : locking p = true → ∀ t x, threads p !! t = Some x → calm x;
  pv_writer : ∀ t m d l r b, threads p !! t = Some (Put (ByLock m d l) r b) → writer p = Some t ∧ sent m = d ++ r;
  pv_holder : locking p = true → ∀ t, writer p = Some t → ∃ x, threads p !! t = Some x ∧ locked x;
  pv_out : locking p = true → messages (out p) = sent (concat (said p)) ++ written p;
}.

Lemma threads_at p t x y u :
  threads p !! t = Some x → <[t := y]> (threads p) !! u = if decide (u = t) then Some y else threads p !! u.
Proof. intros Ht. apply lookup_upd. by eapply lookup_lt_Some. Qed.

(** A thread without the lock moves to a place without it, and the device gets
    at most bytes outside of messages. *)
Lemma prinv_goto p t x y o :
  prinv p → threads p !! t = Some x → ¬ locked x → ¬ locked y → (locking p = true → calm y) →
  messages o = messages (out p) →
  prinv (mkPr (locking p) (panicked p) (writer p) (<[t := y]> (threads p)) o (said p)).
Proof.
  intros [H1 H2 H3 H4] Ht Hx Hy Hc Ho.
  assert (Hw : locking p = true → ∀ u, writer p = Some u → u ≠ t).
  { intros Hl u Hu ->. destruct (H3 Hl t Hu) as (z & Hz & Hk). naive_solver. }
  split; cbn.
  - intros Hl u z. rewrite (threads_at _ _ _ _ _ Ht). case_decide; [intros [= <-]; by apply Hc|]. by apply H1.
  - intros u m d l r b. rewrite (threads_at _ _ _ _ _ Ht). case_decide; [intros [= ->]; by destruct Hy|]. apply H2.
  - intros Hl u Hu. rewrite (threads_at _ _ _ _ _ Ht), decide_False by (by apply Hw). by apply H3.
  - intros Hl. rewrite Ho, (H4 Hl). f_equal. unfold written. cbn. destruct (writer p) as [u|] eqn:Hu; [|done].
    by rewrite (threads_at _ _ _ _ _ Ht), decide_False by (by apply Hw).
Qed.

(** Once [locking] is clear only the lock matters. *)
Lemma prinv_off p p' t x y :
  prinv p → threads p !! t = Some x → ¬ locked y → locking p' = false → writer p' = writer p →
  threads p' = <[t := y]> (threads p) → prinv p'.
Proof.
  intros Hp Ht Hy Hl Hw Hts. split; rewrite ?Hl; try done. intros u m d l r b.
  rewrite Hts, Hw, (threads_at _ _ _ _ _ Ht). case_decide; [intros [= ->]; by destruct Hy|]. apply (pv_writer _ Hp).
Qed.

Lemma prinv_take p t m l :
  prinv p → threads p !! t = Some (Want m l) → writer p = None →
  prinv (mkPr (locking p) (panicked p) (Some t) (<[t := Put (ByLock m [] l) (sent m) false]> (threads p)) (out p) (said p)).
Proof.
  intros [H1 H2 H3 H4] Ht Hw. split; cbn.
  - intros Hl u z. rewrite (threads_at _ _ _ _ _ Ht). case_decide; [intros [= <-]; exact (H1 Hl t _ Ht)|]. by apply H1.
  - intros u m' d l' r b. rewrite (threads_at _ _ _ _ _ Ht). case_decide; [naive_solver|].
    intros Hu. destruct (H2 _ _ _ _ _ _ Hu). congruence.
  - intros _ u [= <-]. rewrite (threads_at _ _ _ _ _ Ht), decide_True by done. by eexists.
  - intros Hl. rewrite (H4 Hl). unfold written. rewrite Hw. cbn. by rewrite (threads_at _ _ _ _ _ Ht), decide_True.
Qed.

(** The holder of the lock loads [panicked], or sends a byte. *)
Lemma prinv_hold p t m d l r b d' r' b' o :
  prinv p → threads p !! t = Some (Put (ByLock m d l) r b) → d' ++ r' = d ++ r →
  (∀ k, messages (out p) = k ++ d → messages o = k ++ d') →
  prinv (mkPr (locking p) (panicked p) (writer p) (<[t := Put (ByLock m d' l) r' b']> (threads p)) o (said p)).
Proof.
  intros [H1 H2 H3 H4] Ht Hd Ho. destruct (H2 _ _ _ _ _ _ Ht) as [Hw Hm]. split; cbn.
  - intros Hl u z. rewrite (threads_at _ _ _ _ _ Ht). case_decide; [intros [= <-]; exact (H1 Hl t _ Ht)|]. by apply H1.
  - intros u m' e l' q b''. rewrite (threads_at _ _ _ _ _ Ht). case_decide as Hu; [|apply H2].
    intros [= <- <- <- <- <-]. subst u. split; [done|]. congruence.
  - intros _ u Hu. rewrite Hw in Hu. injection Hu as <-. rewrite (threads_at _ _ _ _ _ Ht), decide_True by done. by eexists.
  - intros Hl. unfold written. cbn. rewrite Hw, (threads_at _ _ _ _ _ Ht), decide_True by done. apply Ho.
    rewrite (H4 Hl). unfold written. by rewrite Hw, Ht.
Qed.

Lemma prinv_drop p t m d l b y :
  prinv p → threads p !! t = Some (Put (ByLock m d l) [] b) → ¬ locked y → (locking p = true → calm y) →
  prinv (mkPr (locking p) (panicked p) None (<[t := y]> (threads p)) (out p) (said p ++ [m])).
Proof.
  intros [H1 H2 H3 H4] Ht Hy Hc. destruct (H2 _ _ _ _ _ _ Ht) as [Hw Hm]. rewrite app_nil_r in Hm. split; cbn.
  - intros Hl u z. rewrite (threads_at _ _ _ _ _ Ht). case_decide; [intros [= <-]; by apply Hc|]. by apply H1.
  - intros u m' d' l' r' b'. rewrite (threads_at _ _ _ _ _ Ht). case_decide; [intros [= ->]; by destruct Hy|].
    intros Hu. destruct (H2 _ _ _ _ _ _ Hu). congruence.
  - done.
  - intros Hl. rewrite (H4 Hl). unfold written. rewrite Hw, Ht. cbn. rewrite concat_app, sent_app. cbn.
    by rewrite !app_nil_r, Hm.
Qed.

(** A thread without the lock moves, and the device gets nothing new. *)
Ltac quiet_move Hp Ht := eapply prinv_goto; [exact Hp|exact Ht|by intros []|by intros []|done|done].

Lemma prinv_step p p' : prinv p → pstep p p' → prinv p'.
Proof.
  intros Hp [t m Ht|t m Ht|t x m Ht Hne1 Hne2|t x p1 Ht Hs].
  - quiet_move Hp Ht.
  - quiet_move Hp Ht.
  - apply (prinv_off p _ t x (Load_ m true)); (done || by intros []).
  - pose proof (λ Hl, pv_calm _ Hp Hl t x Ht) as Hcalm.
    destruct x as [|m l|m l|h [|c r] [|]| |]; cbn in Hs; try discriminate Hs.
    + injection Hs as <-. destruct (locking p) eqn:Hl.
      * unfold goto. eapply (prinv_goto p t _ (Want m l)); [done|exact Ht|by intros []|by intros []| |done].
        intros _. exact (Hcalm eq_refl).
      * apply (prinv_off p _ t _ (Put (Bare l) (sent m) false) Hp Ht); (done || by intros []).
    + destruct (writer p) eqn:Hw; [done|]. injection Hs as <-. by apply prinv_take.
    + injection Hs as <-. destruct h as [m d l|l|]; cbn; [| |quiet_move Hp Ht].
      * eapply prinv_drop; [done|exact Ht|destruct l; by intros []|]. intros Hl. by rewrite (Hcalm Hl).
      * apply (prinv_off p _ t _ (if l then Store else Quiet) Hp Ht); [destruct l; by intros []| |done|done]. cbn. destruct (locking p); [by destruct Hcalm|done].
    + injection Hs as <-. destruct h as [m d l|l|]; cbn; [| |quiet_move Hp Ht].
      * eapply prinv_drop; [done|exact Ht|destruct l; by intros []|]. intros Hl. by rewrite (Hcalm Hl).
      * apply (prinv_off p _ t _ (if l then Store else Quiet) Hp Ht); [destruct l; by intros []| |done|done]. cbn. destruct (locking p); [by destruct Hcalm|done].
    + injection Hs as <-. unfold goto, emit. cbn. destruct h as [m d l|l|]; cbn.
      * eapply prinv_hold; [done|exact Ht|by rewrite <-app_assoc|]. intros k Hk. rewrite messages_snoc, Hk. by rewrite <-app_assoc.
      * eapply prinv_goto; [done|exact Ht|by intros []|by intros []|done|]. by rewrite messages_snoc, app_nil_r.
      * eapply prinv_goto; [done|exact Ht|by intros []|by intros []|done|]. by rewrite messages_snoc, app_nil_r.
    + destruct (panicked p) eqn:Epan; [done|]. injection Hs as <-. unfold goto. destruct h as [m d l|l|].
      * by eapply prinv_hold.
      * quiet_move Hp Ht.
      * quiet_move Hp Ht.
    + injection Hs as <-. eapply (prinv_off p _ t _ Halted Hp Ht); try (done || by intros []). cbn. destruct (locking p); [by destruct Hcalm|done].
Qed.

Lemma prinv_reach n p : rtc pstep (pr_new n) p → prinv p.
Proof.
  intros Hr. assert (H0 : prinv (pr_new n)).
  { assert (Hq : ∀ t x, threads (pr_new n) !! t = Some x → x = Quiet) by (intros t x Hx; by apply lookup_replicate in Hx as [-> _]).
    split; [| |done|done].
    - intros _ t x Hx. by rewrite (Hq t x Hx).
    - intros t m d l r b Hx. by apply Hq in Hx. }
  revert H0. induction Hr as [|p p1 p2 Hs _ IH]; [done|]. intros H0. apply IH. by eapply prinv_step.
Qed.

(** ** After a panic *)

(** The threads that have found [panicked] clear and have a byte to write. *)
Definition arm (x : ppc) : nat := match x with Put _ (_ :: _) true => 1 | _ => 0 end.
Definition armed (p : Pr) : nat := sum_list_with arm (threads p).

Lemma armed_at ts t x y : ts !! t = Some x → (sum_list_with arm (<[t := y]> ts) + arm x = sum_list_with arm ts + arm y)%nat.
Proof.
  revert t. induction ts as [|z ts IH]; intros [|t] Ht; simplify_eq/=; [lia|]. specialize (IH _ Ht). lia.
Qed.

(** A thread at [x] moves to [y], which has no byte armed. *)
Ltac disarm :=
  match goal with
  | Ht : threads ?p !! ?t = Some ?x |- context [<[?t := ?y]> (threads ?p)] =>
      let H := fresh in let E := fresh in
      pose proof (armed_at (threads p) t x y Ht) as H;
      assert (E : arm y = 0%nat) by (try destruct (locking p); cbn; repeat case_match; simplify_eq; done);
      rewrite E in H; cbn in H; lia
  end.

(** After the store of [panicked] each such thread sends that byte, no other
    thread sends anything. *)
Lemma silent_step p p' :
  panicked p = true → pstep p p' →
  panicked p' = true ∧ (∃ k, out p' = out p ++ k) ∧ (length (out p') + armed p' ≤ length (out p) + armed p)%nat.
Proof.
  assert (Hq : ∀ o : list (bool * Z), ∃ k, o = o ++ k) by (intros o; exists []; by rewrite app_nil_r).
  intros Hp [t m Ht|t m Ht|t x m Ht Hne1 Hne2|t x p1 Ht Hs]; unfold armed;
    [split_and!; [done|apply Hq|cbn; disarm]..|].
  destruct x as [|m l|m l|h [|c r] b| |]; cbn in Hs; try discriminate Hs.
  - injection Hs as <-. split_and!; [done|apply Hq|cbn; disarm].
  - destruct (writer p); [done|]. injection Hs as <-. split_and!; [done|apply Hq|cbn; disarm].
  - injection Hs as <-. destruct h as [m d l|l|]; (split_and!; [done|apply Hq|cbn; disarm]).
  - destruct b; [|by rewrite Hp in Hs]. injection Hs as <-. split_and!; [done|by eexists|].
    cbn [out goto emit threads]. rewrite length_app. cbn [length]. disarm.
  - injection Hs as <-. split_and!; [done|apply Hq|cbn; disarm].
Qed.

(** C26. Messages are printed whole, and a panic ends the output.  Whatever the
    interleaving of any number of threads that print, echo input or copy out
    the bytes of user programs: as long as none has panicked, the bytes the
    device got from [println] are the completed messages one after the other
    and then the beginning of the message of the one thread that has the lock
    (echo and user bytes, which take no lock, may stand between them).  Once a
    panic has set its flag, the device gets at most one more byte from each
    thread that had already found the flag clear, and none from any other. *)
Theorem print_whole_messages n p :
  rtc pstep (pr_new n) p →
  (locking p = true → messages (out p) = sent (concat (said p)) ++ written p ∧
     ∀ t u x y, threads p !! t = Some x → locked x → threads p !! u = Some y → locked y → t = u) ∧
  (panicked p = true → ∀ p', rtc pstep p p' → (∃ k, out p' = out p ++ k) ∧ (length (out p') ≤ length (out p) + armed p)%nat).
Proof.
  intros Hr. pose proof (prinv_reach n p Hr) as Hp. split.
  - intros Hl. split; [by apply (pv_out _ Hp)|]. intros t u x y Ht Hx Hu Hy.
    destruct x as [| | |[m d l| |] r b| |]; try done. destruct y as [| | |[m' d' l'| |] r' b'| |]; try done.
    destruct (pv_writer _ Hp _ _ _ _ _ _ Ht), (pv_writer _ Hp _ _ _ _ _ _ Hu). congruence.
  - intros Hpan p' Hr'. clear Hr Hp. enough (H : (∃ k, out p' = out p ++ k) ∧ (length (out p') + armed p' ≤ length (out p) + armed p)%nat).
    { destruct H as [? ?]. split; [done|lia]. }
    induction Hr' as [|p p1 p2 Hs _ IH]; [split; [exists []; by rewrite app_nil_r|done]|].
    destruct (silent_step _ _ Hpan Hs) as (H1 & [k Hk] & H2). destruct (IH H1) as [[k' Hk'] H3].
    split; [exists (k ++ k'); by rewrite Hk', Hk, app_assoc|lia].
Qed.

(** Two threads print, the second has to wait for the lock; the third echoes a
    byte in the middle of the first message. *)
Definition demo_pr : Pr :=
  mkPr true false (Some 0%nat)
    [Put (ByLock [72; 105] [72] false) [105] false; Want [33] false; Put Direct [] false] [(true, 72); (false, 97)] [].

Lemma demo_pr_reach : rtc pstep (pr_new 3) demo_pr.
Proof.
  eapply rtc_l; [by apply (p_print _ 0 [72; 105])|]. eapply rtc_l; [by apply (p_print _ 1 [33])|].
  eapply rtc_l; [by apply (p_echo _ 2 [97])|].
  eapply rtc_l; [by eapply (p_step _ 0)|]. eapply rtc_l; [by eapply (p_step _ 1)|].
  do 3 (eapply rtc_l; [by eapply (p_step _ 0)|]).
  do 2 (eapply rtc_l; [by eapply (p_step _ 2)|]). apply rtc_refl.
Qed.

Lemma print_whole_messages_witness : messages (out demo_pr) = sent (concat (said demo_pr)) ++ written demo_pr.
Proof. destruct (print_whole_messages 3 demo_pr demo_pr_reach) as [H _]. exact (proj1 (H eq_refl)). Defined.

(** The byte after the panic is real: thread 0 finds the flag clear, thread 1
    panics with an empty message and sets the flag, thread 0 writes its byte. *)
Theorem byte_after_panic :
  ∃ p p', rtc pstep (pr_new 2) p ∧ panicked p = true ∧ rtc pstep p p' ∧ out p = [] ∧ out p' = [(false, 97)].
Proof.
  eexists _, _. split.
  { eapply rtc_l; [by apply (p_echo _ 0 [97])|]. eapply rtc_l; [by eapply (p_step _ 0)|].
    eapply rtc_l; [by apply (p_panic _ 1 Quiet [])|]. eapply rtc_l; [by eapply (p_step _ 1)|].
    eapply rtc_l; [by eapply (p_step _ 1)|]. eapply rtc_l; [by eapply (p_step _ 1)|]. apply rtc_refl. }
  split; [done|]. split; [eapply rtc_l; [by eapply (p_step _ 0)|apply rtc_refl]|done].
Qed.
