(* ===== verification/Channel.v ===== *)
(** * Semaphores and bounded channels ([semaphore.rs], [condvar.rs], [mpmc.rs])
      and the pipes built on them ([pipe.rs])

    A channel is a linked list under a mutex, with a semaphore that counts the
    places taken.  The threads that use it interleave at the critical sections
    of the two mutexes; the step relation below has one step for each of
    them.  [max] is the capacity. *)

From S2P Require Import Prelude.

Open Scope Z_scope.

(** ** The operations, one critical section each *)

(** One round of the loop of [Semaphore::wait]: [None] when the caller waits
    on the condition variable. *)
Definition sem_wait (max cnt : Z) : option Z :=
  if decide (max ≤ cnt) then None else Some (cnt + 1).

(** [Semaphore::post]: the count, and whether the waiters are notified. *)
Definition sem_post (max cnt : Z) : outcome (Z * bool) :=
  if decide (0 < cnt) then Done (cnt - 1, bool_decide (cnt - 1 ≤ max))
  else Panic "assertion failed: *cnt > 0".

Section channel.
Context {T : Type}.
Variable max : Z.

(** Where a thread is: outside, in [send] between [sem.wait] and
    [push_back], in [recv] between [pop_front] and [sem.post]. *)
Inductive pc := Idle | Sending (data : T) | Received (data : T).

Record chan := mkChan {
  cnt : Z;                (* the semaphore *)
  buf : list T;           (* the linked list *)
  threads : list pc;
  pushed : list T;        (* everything that was ever pushed *)
  popped : list T;        (* everything that was ever popped *)
}.

(** [SyncSender::send] up to its [sem.wait()]; [None]: it waits. *)
Definition send_wait (c : chan) (t : nat) (d : T) : option chan :=
  match sem_wait max (cnt c) with
  | None => None
  | Some n => Some (mkChan n (buf c) (<[t := Sending d]> (threads c)) (pushed c) (popped c))
  end.

Definition send_push (c : chan) (t : nat) (d : T) : chan :=
  mkChan (cnt c) (buf c ++ [d]) (<[t := Idle]> (threads c)) (pushed c ++ [d]) (popped c).

(** [SyncReceiver::recv] up to [pop_front]; [None]: it waits. *)
Definition recv_pop (c : chan) (t : nat) : option chan :=
  match buf c with
  | [] => None
  | d :: b => Some (mkChan (cnt c) b (<[t := Received d]> (threads c)) (pushed c) (popped c ++ [d]))
  end.

Definition recv_post (c : chan) (t : nat) : outcome chan :=
  '(n, _) ← sem_post max (cnt c);
  Done (mkChan n (buf c) (<[t := Idle]> (threads c)) (pushed c) (popped c)).

(** The result of [recv_post] of a thread that has popped: the panic of the
    assertion ends the run in [None]. *)
Inductive step : chan → option chan → Prop :=
  | step_send_wait c t d c' :
      threads c !! t = Some Idle → send_wait c t d = Some c' → step c (Some c')
  | step_send_push c t d :
      threads c !! t = Some (Sending d) → step c (Some (send_push c t d))
  | step_recv_pop c t c' :
      threads c !! t = Some Idle → recv_pop c t = Some c' → step c (Some c')
  | step_recv_post c t d c' :
      threads c !! t = Some (Received d) → recv_post c t = Done c' → step c (Some c')
  | step_recv_panic c t d s :
      threads c !! t = Some (Received d) → recv_post c t = Panic s → step c None.

Inductive reach (c0 : chan) : option chan → Prop :=
  | reach_refl : reach c0 (Some c0)
  | reach_step c o : reach c0 (Some c) → step c o → reach c0 o.

(** [sync_channel(max)] shared by [k] threads. *)
Definition sync_channel (k : nat) : chan := mkChan 0 [] (replicate k Idle) [] [].

Definition weight (p : pc) : Z := match p with Idle => 0 | _ => 1 end.

Record cinv (c : chan) : Prop := {
  ci_cnt : cnt c = Z.of_nat (length (buf c)) + tally weight (threads c);
  ci_max : cnt c ≤ max;
  ci_fifo : pushed c = popped c ++ buf c;
}.

Lemma weight_nonneg p : 0 ≤ weight p.
Proof. by destruct p. Qed.

Lemma post_ok c t d : cinv c → threads c !! t = Some (Received d) → 0 < cnt c.
Proof.
  intros [Hc _ _] Ht. pose proof (tally_lookup _ _ _ _ weight_nonneg Ht) as Hw. simpl in Hw. lia.
Qed.

Lemma cinv_step c o : cinv c → step c o → ∃ c', o = Some c' ∧ cinv c'.
Proof.
  intros Hi Hs. pose proof Hi as [Hc Hm Hf].
  destruct Hs as [c t d c' Ht Hw|c t d Ht|c t c' Ht Hp|c t d c' Ht Hp|c t d s Ht Hp].
  - unfold send_wait, sem_wait in Hw. destruct (decide (max ≤ cnt c)); [done|].
    injection Hw as <-. eexists. split; [done|]. split; simpl; [|lia|done].
    rewrite (tally_insert _ _ _ _ _ Ht). simpl. lia.
  - eexists. split; [done|]. split; simpl; [|done|by rewrite Hf, app_assoc].
    rewrite (tally_insert _ _ _ _ _ Ht), length_app. simpl. lia.
  - unfold recv_pop in Hp. destruct (buf c) as [|d b] eqn:Hb; [done|]. injection Hp as <-.
    eexists. split; [done|]. split; simpl; [|done|by rewrite Hf, <-app_assoc].
    rewrite (tally_insert _ _ _ _ _ Ht). simpl in *. lia.
  - unfold recv_post, sem_post in Hp. pose proof (post_ok _ _ _ Hi Ht).
    rewrite decide_True in Hp by done. injection Hp as <-.
    eexists. split; [done|]. split; simpl; [|lia|done].
    rewrite (tally_insert _ _ _ _ _ Ht). simpl. lia.
  - unfold recv_post, sem_post in Hp. pose proof (post_ok _ _ _ Hi Ht).
    by rewrite decide_True in Hp by done.
Qed.

Lemma cinv_reach k o : 0 ≤ max → reach (sync_channel k) o → ∃ c, o = Some c ∧ cinv c.
Proof.
  intros Hm. induction 1 as [|c o _ IH Hs].
  - eexists. split; [done|]. split; simpl; [|done|done].
    rewrite tally_zero; [done|]. intros x Hx. by apply elem_of_replicate in Hx as [-> _].
  - destruct IH as (c1 & [= <-] & Hc). by eapply cinv_step.
Qed.
End channel.
Arguments pc : clear implicits.
Arguments chan : clear implicits.

(** C32. A bounded channel is a bounded FIFO.  In every reachable state of the
    threads that share it: the assertion of [post] has not failed, at most
    [max] items are queued or about to be, the count of the semaphore is
    exactly the number of items queued, about to be queued, or taken and not
    yet posted, and the items received so far followed by those queued are
    the items sent, in the order in which they were pushed. *)
Theorem channel_bounded_fifo {T} (max : Z) (k : nat) (o : option (chan T)) :
  0 ≤ max → reach max (sync_channel k) o →
  ∃ c, o = Some c ∧ Z.of_nat (length (buf c)) ≤ cnt c ≤ max ∧
    cnt c = Z.of_nat (length (buf c)) + tally weight (threads c) ∧
    pushed c = popped c ++ buf c.
Proof.
  intros Hm Hr. destruct (cinv_reach max k o Hm Hr) as (c & -> & [Hc Hmax Hf]).
  exists c. split_and!; try done. pose proof (tally_nonneg weight (threads c) weight_nonneg). lia.
Qed.

(** No lost capacity: in a reachable state where every thread is outside
    its operation, [send] waits exactly when [max] items are queued, and
    [recv] waits exactly when none is. *)
Theorem channel_waits_only_when_due {T} (max : Z) (k : nat) (c : chan T) t d :
  0 ≤ max → reach max (sync_channel k) (Some c) → Forall (λ p, p = Idle) (threads c) →
  (send_wait max c t d = None ↔ Z.of_nat (length (buf c)) = max) ∧
  (recv_pop c t = None ↔ buf c = []).
Proof.
  intros Hm Hr Hidle. destruct (cinv_reach max k _ Hm Hr) as (c' & [= <-] & [Hc Hmax Hf]).
  rewrite tally_zero in Hc.
  2: { intros x Hx. rewrite Forall_forall in Hidle. by rewrite (Hidle _ Hx). }
  split.
  - unfold send_wait, sem_wait. case_decide; (split; [|done || lia]); [lia|done].
  - unfold recv_pop. by destruct (buf c).
Qed.

(** ** Pipes

    [copyin a] is the byte at the user address [a]; the loop stops at the
    first failure.  The bytes are those handed to [tx.send], in order. *)
Definition PIPESIZE : Z := 512.

Record Pipe := mkPipe { rx : bool; tx : bool }.   (* which ends the pipe object has *)

Fixpoint pipe_write_loop (copyin : Z → option Z) (src : Z) (k : nat) (i : nat) : list Z * nat :=
  match k with
  | O => ([], i)
  | S k =>
      match copyin src with
      | None => ([], i)
      | Some ch => let '(out, m) := pipe_write_loop copyin src k (S i) in (ch :: out, m)
      end
  end.

Definition pipe_write (p : Pipe) (copyin : Z → option Z) (src : Z) (n : nat)
    : result (list Z * nat) unit :=
  if tx p then Ok (pipe_write_loop copyin src n 0) else Err tt.

(** [read]: the bytes received are [input]; each is copied to [dst].  [None]
    for the count: the reader waits for more input. *)
Fixpoint pipe_read_loop (copyout : Z → Z → bool) (dst : Z) (input : list Z) (k i : nat)
    {struct k} : list (Z * Z) * list Z * option nat :=
  match k with
  | O => ([], input, Some i)
  | S k =>
      match input with
      | [] => ([], [], None)
      | ch :: input =>
          if copyout dst ch then
            let '(out, rest, m) := pipe_read_loop copyout dst input k (S i) in
            ((dst, ch) :: out, rest, m)
          else ([], input, Some i)
      end
  end.

Definition pipe_read (p : Pipe) (copyout : Z → Z → bool) (dst : Z) (input : list Z) (n : nat)
    : result (list (Z * Z) * list Z * option nat) unit :=
  if rx p then Ok (pipe_read_loop copyout dst input n 0) else Err tt.

(** A pipe carries only the first byte of a write: [write] sends the byte
    at [src] [n] times, and [read] stores every byte it takes at the same
    address [dst]. *)
Theorem pipe_address_fixed copyin copyout src dst c n m input :
  copyin src = Some c → (∀ ch, copyout dst ch = true) → (m ≤ length input)%nat →
  pipe_write (mkPipe false true) copyin src n = Ok (replicate n c, n) ∧
  pipe_read (mkPipe true false) copyout dst input m =
    Ok ((λ ch, (dst, ch)) <$> take m input, drop m input, Some m).
Proof.
  intros Hc Ho Hm. unfold pipe_write, pipe_read. cbn [tx rx]. split.
  - assert (H : ∀ k i, pipe_write_loop copyin src k i = (replicate k c, (i + k)%nat)).
    { induction k as [|k IH]; intros i; simpl; [by rewrite Nat.add_0_r|]. rewrite Hc, IH. f_equal. lia. }
    by rewrite H.
  - assert (H : ∀ k inp i, (k ≤ length inp)%nat → pipe_read_loop copyout dst inp k i =
      ((λ ch, (dst, ch)) <$> take k inp, drop k inp, Some (i + k)%nat)).
    { induction k as [|k IH]; intros inp i Hk; simpl; [by destruct inp; rewrite Nat.add_0_r|].
      destruct inp as [|ch inp]; simpl in Hk; [lia|]. rewrite Ho, IH by lia. simpl. do 2 f_equal. lia. }
    by rewrite H.
Qed.

(** *** Witnesses *)
Definition demo_chan : chan Z := mkChan 2 [8] [Sending 9; Idle] [7; 8] [7].

Lemma push_step {T} max (c : chan T) t d c' :
  threads c !! t = Some (Sending d) → c' = send_push c t d → step max c (Some c').
Proof. intros Ht ->. by apply step_send_push. Qed.

Lemma demo_chan_reach : reach 2 (sync_channel 2) (Some demo_chan).
Proof.
  assert (H1 : reach 2 (sync_channel 2) (Some (mkChan (T := Z) 1 [] [Sending 7; Idle] [] []))).
  { eapply reach_step; [apply reach_refl|]. by apply (step_send_wait _ _ 0 7). }
  assert (H2 : reach 2 (sync_channel 2) (Some (mkChan (T := Z) 1 [7] [Idle; Idle] [7] []))).
  { eapply reach_step; [apply H1|]. by apply (push_step _ _ 0 7). }
  assert (H3 : reach 2 (sync_channel 2) (Some (mkChan (T := Z) 2 [7] [Sending 8; Idle] [7] []))).
  { eapply reach_step; [apply H2|]. by apply (step_send_wait _ _ 0 8). }
  assert (H4 : reach 2 (sync_channel 2) (Some (mkChan (T := Z) 2 [7; 8] [Idle; Idle] [7; 8] []))).
  { eapply reach_step; [apply H3|]. by apply (push_step _ _ 0 8). }
  assert (H5 : reach 2 (sync_channel 2) (Some (mkChan (T := Z) 2 [8] [Idle; Received 7] [7; 8] [7]))).
  { eapply reach_step; [apply H4|]. by apply (step_recv_pop _ _ 1). }
  assert (H6 : reach 2 (sync_channel 2) (Some (mkChan (T := Z) 1 [8] [Idle; Idle] [7; 8] [7]))).
  { eapply reach_step; [apply H5|]. by apply (step_recv_post _ _ 1 7). }
  eapply reach_step; [apply H6|]. by apply (step_send_wait _ _ 0 9).
Qed.

Lemma channel_bounded_fifo_witness :
  ∃ c, Some demo_chan = Some c ∧ Z.of_nat (length (buf c)) ≤ cnt c ≤ 2 ∧ pushed c = popped c ++ buf c.
Proof.
  destruct (channel_bounded_fifo 2 2 (Some demo_chan)) as (c & H1 & H2 & _ & H3);
    [lia|apply demo_chan_reach|]. exists c. auto.
Defined.

Lemma channel_waits_only_when_due_witness :
  recv_pop (T := Z) (sync_channel 3) 0 = None ↔ buf (T := Z) (sync_channel 3) = [].
Proof.
  apply (channel_waits_only_when_due 2 3 (sync_channel 3) 0 5);
    [lia|apply reach_refl|repeat constructor].
Defined.

Lemma pipe_address_fixed_witness :
  pipe_write (mkPipe false true) (λ a, Some (a + 1)) 64 3 = Ok ([65; 65; 65], 3%nat).
Proof.
  apply (pipe_address_fixed (λ a, Some (a + 1)) (λ _ _, true) 64 0 65 3 0 []);
    [reflexivity|reflexivity|cbn; lia].
Defined.
