(* ===== verification/Sync.v ===== *)
(** * One-time initialisation ([sync.rs]: [Once], [OnceLock], [LazyLock])

    Threads call [get_or_try_init] of a shared [OnceLock], each with its own
    initialiser.  The step relation has one step per access to the atomic
    state word: the fast-path test, the load, the compare-and-exchange, the
    run of the initialiser, and the swap when the guard is dropped.  [LazyLock]
    is the case where the initialisers cannot fail. *)

From S2P Require Import Prelude.

Open Scope Z_scope.

Definition IMCOMPLETE : Z := 0.
Definition POISONED : Z := 1.
Definition RUNNING : Z := 2.
Definition COMPLETE : Z := 3.
Definition STATE_MASK : Z := 3.

Section once.
Context {A E : Type}.

(** Where a thread is in [get_or_try_init] and [call_inner]; [f] is the
    result its initialiser will give. *)
Inductive pc :=
  | Enter (f : result A E)                (* before [self.get()] *)
  | Fast (f : result A E)                 (* before the fast-path check of [call_once_force] *)
  | Load (f : result A E)                 (* before the first load of [call_inner] *)
  | Look (f : result A E) (v : Z)         (* in the loop, having read [v] *)
  | Init (f : result A E)                 (* holds the guard, before [init] *)
  | Release (res : result unit E) (to : Z)   (* the guard is about to be dropped *)
  | Check                                 (* after [initialize] succeeded: [get_unchecked] *)
  | Got (v : option A)                    (* returned a reference to the value *)
  | Failed (e : E)                        (* returned the initialiser's error *)
  | Panicked (msg : string).

Record oncelock := mkOnce {
  state : Z;
  value : option A;     (* [None] while uninitialised *)
  threads : list pc;
  runs : Z;             (* how many initialisers have been started *)
  stores : Z;           (* how many have stored a value *)
}.

Definition once_new (ts : list pc) : oncelock := mkOnce IMCOMPLETE None ts 0 0.

(** [is_initialized] *)
Definition is_completed (o : oncelock) : bool := bool_decide (state o = COMPLETE).

Definition goto (o : oncelock) (t : nat) (p : pc) : oncelock :=
  mkOnce (state o) (value o) (<[t := p]> (threads o)) (runs o) (stores o).

(** One step of [call_inner]'s loop with [ignore_poisoning = true], as
    [call_once_force] passes it. *)
Definition look (o : oncelock) (t : nat) (f : result A E) (v : Z) : oncelock :=
  if decide (v = COMPLETE) then goto o t Check
  else if decide (v = POISONED ∨ v = IMCOMPLETE) then
    if decide (state o = v) then     (* [compare_exchange] *)
      mkOnce RUNNING (value o) (<[t := Init f]> (threads o)) (runs o + 1) (stores o)
    else goto o t (Look f (state o))
  else if decide (Z.land v STATE_MASK = RUNNING) then goto o t (Look f (state o))
  else goto o t (Panicked "assertion failed").

(** The closure of [OnceLock::initialize]. *)
Definition run_init (o : oncelock) (t : nat) (f : result A E) : oncelock :=
  match f with
  | Ok v => mkOnce (state o) (Some v) (<[t := Release (Ok tt) COMPLETE]> (threads o)) (runs o) (stores o + 1)
  | Err e => goto o t (Release (Err e) POISONED)
  end.

(** [Drop for OnceGuard]: swap, then the assertion on the old word. *)
Definition release (o : oncelock) (t : nat) (res : result unit E) (to : Z) : oncelock :=
  let next :=
    if decide (Z.land (state o) STATE_MASK = RUNNING) then
      match res with Ok _ => Check | Err e => Failed e end
    else Panicked "assertion failed" in
  mkOnce to (value o) (<[t := next]> (threads o)) (runs o) (stores o).

(** The step of thread [t]. *)
Definition step_thread (o : oncelock) (t : nat) (p : pc) : option oncelock :=
  match p with
  | Enter f => Some (goto o t (if is_completed o then Got (value o) else Fast f))
  | Fast f => Some (goto o t (if is_completed o then Check else Load f))
  | Load f => Some (goto o t (Look f (state o)))
  | Look f v => Some (look o t f v)
  | Init f => Some (run_init o t f)
  | Release res to => Some (release o t res to)
  | Check => Some (goto o t (if is_completed o then Got (value o)
                             else Panicked "assertion failed: self.is_initialized()"))
  | Got _ | Failed _ | Panicked _ => None
  end.

Inductive step (o : oncelock) : oncelock → Prop :=
  | step_at t p o' : threads o !! t = Some p → step_thread o t p = Some o' → step o o'.

(** ** The invariant *)

(** Threads between the exchange and the swap. *)
Definition owner (p : pc) : Z := match p with Init _ | Release _ _ => 1 | _ => 0 end.

Definition pc_ok (o : oncelock) (p : pc) : Prop :=
  match p with
  | Look _ v => v = IMCOMPLETE ∨ v = POISONED ∨ v = RUNNING ∨ v = COMPLETE
  | Init _ => value o = None
  | Release (Ok _) to => to = COMPLETE ∧ is_Some (value o)
  | Release (Err _) to => to = POISONED ∧ value o = None
  | Got v => v = value o ∧ state o = COMPLETE
  | Check => state o = COMPLETE
  | Panicked _ => False
  | _ => True
  end.

(** A read of [COMPLETE] is remembered truly. *)
Definition seen_ok (o : oncelock) (p : pc) : Prop :=
  match p with Look _ v => v = COMPLETE → state o = COMPLETE | _ => True end.

Record oinv (o : oncelock) : Prop := {
  oi_state : state o = IMCOMPLETE ∨ state o = POISONED ∨ state o = RUNNING ∨ state o = COMPLETE;
  oi_owner : tally owner (threads o) = if decide (state o = RUNNING) then 1 else 0;
  oi_value : state o = COMPLETE → is_Some (value o);
  oi_none : state o = IMCOMPLETE ∨ state o = POISONED → value o = None;
  oi_stores : stores o = match value o with Some _ => 1 | None => 0 end;
  oi_pcs : ∀ t p, threads o !! t = Some p → pc_ok o p ∧ seen_ok o p;
}.

Lemma owner_nonneg p : 0 ≤ owner p.
Proof. by destruct p. Qed.

Lemma owner_unique o t u p q :
  oinv o → threads o !! t = Some p → threads o !! u = Some q → owner p = 1 → owner q = 1 → t = u.
Proof.
  intros Ho Ht Hu Hp Hq. destruct (decide (t = u)) as [|Hne]; [done|].
  pose proof (tally_lookup2 _ _ _ _ _ _ owner_nonneg Hne Ht Hu). rewrite (oi_owner _ Ho) in *.
  case_decide; lia.
Qed.

Lemma owner_running o t p :
  oinv o → threads o !! t = Some p → owner p = 1 → state o = RUNNING.
Proof.
  intros Ho Ht Hp. pose proof (tally_lookup _ _ _ _ owner_nonneg Ht).
  rewrite (oi_owner _ Ho) in *. case_decide; [done|lia].
Qed.

Lemma threads_upd o t p u q :
  threads o !! t = Some p → <[t := q]> (threads o) !! u = if decide (u = t) then Some q else threads o !! u.
Proof. intros Ht. apply lookup_upd. by eapply lookup_lt_Some. Qed.

(** Moving a thread without touching the shared words. *)
Lemma goto_inv o t p q :
  oinv o → threads o !! t = Some p → owner p = 0 → owner q = 0 → pc_ok o q → seen_ok o q →
  oinv (goto o t q).
Proof.
  intros [H1 H2 H3 H4 H5 H6] Ht Hp Hq Hok Hseen. split; simpl; try done.
  - rewrite (tally_insert _ _ _ _ _ Ht). lia.
  - intros u r. rewrite (threads_upd _ _ _ _ _ Ht). destruct (decide (u = t)) as [->|Hne]; [intros ?; simplify_eq; split; [exact Hok|exact Hseen]|]. apply H6.
Qed.

Lemma seen_values o t f v : oinv o → threads o !! t = Some (Look f v) →
  v = IMCOMPLETE ∨ v = POISONED ∨ v = RUNNING ∨ v = COMPLETE.
Proof. intros Ho Ht. by destruct (oi_pcs _ Ho _ _ Ht). Qed.

Lemma look_inv o t f v :
  oinv o → threads o !! t = Some (Look f v) → oinv (look o t f v).
Proof.
  intros Ho Ht. pose proof (seen_values _ _ _ _ Ho Ht) as Hv.
  destruct (oi_pcs _ Ho _ _ Ht) as [_ Hseen]. simpl in Hseen. unfold look.
  destruct (decide (v = COMPLETE)) as [->|Hc].
  { apply (goto_inv _ _ _ _ Ho Ht); simpl; auto. }
  destruct (decide (v = POISONED ∨ v = IMCOMPLETE)) as [Hpi|Hpi].
  - destruct (decide (state o = v)) as [Hs|Hs];
      [|apply (goto_inv _ _ _ _ Ho Ht); simpl; auto using oi_state].
    assert (Hnr : state o ≠ RUNNING) by (rewrite Hs; by destruct Hpi as [-> | ->]).
    assert (Hnone : value o = None) by (apply (oi_none _ Ho); rewrite Hs; tauto).
    pose proof Ho as [H1 H2 H3 H4 H5 H6]. split; simpl.
    + auto.
    + rewrite (tally_insert _ _ _ _ _ Ht), H2, decide_False by done. simpl. lia.
    + done.
    + by intros [? | ?].
    + done.
    + intros u q. rewrite (threads_upd _ _ _ _ _ Ht). destruct (decide (u = t)) as [->|Hne]; [intros ?; simplify_eq; done|].
      intros Hu. destruct (H6 _ _ Hu) as [Hok Hsn]. split.
      * destruct q as [| | |f' v'|f'|[[]|e] to| |v'|e|s]; simpl in *; try done; naive_solver.
      * destruct q; simpl in *; try done. intros ->. naive_solver.
  - rewrite decide_True; [apply (goto_inv _ _ _ _ Ho Ht); simpl; auto using oi_state|].
    destruct Hv as [-> |[-> |[-> | ->]]]; [naive_solver..|done|done].
Qed.

Lemma run_init_inv o t f :
  oinv o → threads o !! t = Some (Init f) → oinv (run_init o t f).
Proof.
  intros Ho Ht. pose proof (owner_running _ _ _ Ho Ht eq_refl) as Hrun.
  destruct (oi_pcs _ Ho _ _ Ht) as [Hnone _]. simpl in Hnone.
  assert (Huniq : ∀ u q, u ≠ t → threads o !! u = Some q → owner q = 0).
  { intros u q Hne Hu. pose proof (owner_unique _ _ _ _ _ Ho Ht Hu eq_refl).
    destruct q; simpl in *; try done; by destruct Hne; symmetry; auto. }
  pose proof Ho as [H1 H2 H3 H4 H5 H6]. unfold run_init. destruct f as [v|e]; split; simpl; auto.
  - rewrite (tally_insert _ _ _ _ _ Ht), H2. simpl. lia.
  - rewrite Hrun. by intros [? | ?].
  - rewrite H5, Hnone. done.
  - intros u q. rewrite (threads_upd _ _ _ _ _ Ht). destruct (decide (u = t)) as [->|Hne]; [intros ?; simplify_eq/=; eauto|].
    intros Hu. destruct (H6 _ _ Hu) as [Hok Hsn]. split; [|done]. specialize (Huniq _ _ Hne Hu).
    destruct q as [| | |f' v'|f'|[[]|e] to| |v'|e|s]; simpl in *; try done. destruct Hok as [_ Hok].
    by rewrite Hrun in Hok.
  - rewrite (tally_insert _ _ _ _ _ Ht), H2. simpl. lia.
  - intros u q. rewrite (threads_upd _ _ _ _ _ Ht). destruct (decide (u = t)) as [->|Hne]; [intros ?; simplify_eq/=; done|].
    intros Hu. by destruct (H6 _ _ Hu).
Qed.

Lemma release_inv o t res to :
  oinv o → threads o !! t = Some (Release res to) → oinv (release o t res to).
Proof.
  intros Ho Ht. pose proof (owner_running _ _ _ Ho Ht eq_refl) as Hrun.
  destruct (oi_pcs _ Ho _ _ Ht) as [Hrel _]. simpl in Hrel.
  assert (Huniq : ∀ u q, u ≠ t → threads o !! u = Some q → owner q = 0).
  { intros u q Hne Hu. pose proof (owner_unique _ _ _ _ _ Ho Ht Hu eq_refl).
    destruct q; simpl in *; try done; by destruct Hne; symmetry; auto. }
  pose proof Ho as [H1 H2 H3 H4 H5 H6]. unfold release. rewrite Hrun. rewrite decide_True by done.
  assert (Htally : tally owner (threads o) = 1) by (by rewrite H2, Hrun).
  destruct res as [[]|e]; destruct Hrel as [-> Hval]; split; simpl; auto.
  - rewrite (tally_insert _ _ _ _ _ Ht), Htally. done.
  - by intros [? | ?].
  - intros u q. rewrite (threads_upd _ _ _ _ _ Ht). destruct (decide (u = t)) as [->|Hne]; [intros ?; simplify_eq/=; done|].
    intros Hu. destruct (H6 _ _ Hu) as [Hok Hsn]. specialize (Huniq _ _ Hne Hu).
    split; [|by destruct q].
    destruct q as [| | |f' v'|f'|[[]|e'] to'| |v'|e'|s]; simpl in *; naive_solver.
  - rewrite (tally_insert _ _ _ _ _ Ht), Htally. done.
  - done.
  - intros u q. rewrite (threads_upd _ _ _ _ _ Ht). destruct (decide (u = t)) as [->|Hne]; [intros ?; simplify_eq/=; done|].
    intros Hu. destruct (H6 _ _ Hu) as [Hok Hsn]. specialize (Huniq _ _ Hne Hu). split.
    + destruct q as [| | |f' v'|f'|[[]|e'] to'| |v'|e'|s]; simpl in *; try done;
        [by rewrite Hrun in Hok|destruct Hok as [_ Hok]; by rewrite Hrun in Hok].
    + destruct q; simpl in *; try done. intros ->. specialize (Hsn eq_refl). by rewrite Hrun in Hsn.
Qed.

Lemma oinv_step o o' : oinv o → step o o' → oinv o'.
Proof.
  intros Ho [t p o1 Ht Hs]. pose proof (oi_pcs _ Ho _ _ Ht) as [Hok _].
  assert (Hgot : is_completed o = true → pc_ok o (Got (value o)) ∧ state o = COMPLETE).
  { unfold is_completed. rewrite bool_decide_eq_true. simpl. auto. }
  destruct p as [f|f|f|f v|f|res to| |v|e|s]; simpl in Hs; simplify_eq.
  - destruct (is_completed o); [|by apply (goto_inv _ _ _ _ Ho Ht)].
    apply (goto_inv _ _ _ _ Ho Ht); try done. by apply Hgot.
  - destruct (is_completed o); apply (goto_inv _ _ _ _ Ho Ht); try done. by apply Hgot.
  - apply (goto_inv _ _ _ _ Ho Ht); try done; simpl; [apply (oi_state _ Ho)|auto].
  - by apply look_inv.
  - by apply run_init_inv.
  - by apply release_inv.
  - simpl in Hok. unfold is_completed in *. rewrite bool_decide_eq_true_2 in * by done.
    by apply (goto_inv _ _ _ _ Ho Ht).
Qed.

(** Every thread at the start of the operation. *)
Definition starting (p : pc) : Prop := match p with Enter _ => True | _ => False end.

Lemma oinv_new ts : Forall starting ts → oinv (once_new ts).
Proof.
  intros Hs. rewrite Forall_forall in Hs. split; simpl; auto.
  - apply tally_zero. intros p Hp. specialize (Hs _ Hp). by destruct p.
  - done.
  - intros t p Hp. apply list_elem_of_lookup_2 in Hp. specialize (Hs _ Hp). by destruct p.
Qed.

Lemma oinv_reach ts o : Forall starting ts → rtc step (once_new ts) o → oinv o.
Proof.
  intros Hs%oinv_new Hr. revert Hs. induction Hr as [o|o o' o'' Hs' _ IH]; [done|].
  intros Ho. apply IH. by eapply oinv_step.
Qed.

(** Once complete, the word and the value stay. *)
Lemma complete_step o o' :
  oinv o → step o o' → state o = COMPLETE → state o' = COMPLETE ∧ value o' = value o.
Proof.
  intros Ho [t p o1 Ht Hs] Hc.
  assert (Hno : owner p = 0).
  { destruct (decide (owner p = 1)) as [Hp|Hp]; [|by destruct p].
    pose proof (owner_running _ _ _ Ho Ht Hp). by rewrite Hc in *. }
  destruct p as [f|f|f|f v|f|res to| |v|e|s]; simpl in Hs, Hno; simplify_eq; simpl; auto.
  unfold look. destruct (decide (v = COMPLETE)) as [|Hv]; [done|].
  destruct (decide (v = POISONED ∨ v = IMCOMPLETE)); [|by destruct (decide (Z.land v STATE_MASK = RUNNING))].
  destruct (decide (state o = v)) as [Hsv|]; [|done]. by rewrite Hc in Hsv.
Qed.

Lemma complete_stays o o' :
  oinv o → rtc step o o' → state o = COMPLETE → state o' = COMPLETE ∧ value o' = value o.
Proof.
  intros Ho Hr. induction Hr as [o|o o1 o2 Hs _ IH]; [done|]. intros Hc.
  destruct (complete_step _ _ Ho Hs Hc) as [Hc1 Hv1].
  destruct (IH (oinv_step _ _ Ho Hs) Hc1) as [? ?]. split; congruence.
Qed.
End once.
Arguments pc : clear implicits.
Arguments oncelock : clear implicits.

(** The initialiser runs alone and its value is final.  In every
    reachable state of any number of threads that call [get_or_try_init] of a
    fresh cell: no assertion has failed, at most one initialiser is running
    and none once the cell is complete, at most one value was ever stored,
    every thread that returned a reference returned the one value of the
    cell, and from a complete cell on, the value never changes. *)
Theorem once_single_value {A E : Type} (ts : list (pc A E)) o :
  Forall starting ts → rtc step (once_new ts) o →
  (∀ t s, threads o !! t ≠ Some (Panicked s)) ∧
  tally owner (threads o) ≤ 1 ∧ (state o = COMPLETE → tally owner (threads o) = 0) ∧
  stores o ≤ 1 ∧
  (∀ t v, threads o !! t = Some (Got v) → is_Some v ∧ v = value o) ∧
  (state o = COMPLETE → ∀ o', rtc step o o' → state o' = COMPLETE ∧ value o' = value o).
Proof.
  intros Hs Hr. pose proof (oinv_reach ts o Hs Hr) as Ho. split_and!.
  - intros t s Ht. by destruct (oi_pcs _ Ho _ _ Ht).
  - rewrite (oi_owner _ Ho). case_decide; lia.
  - intros Hc. by rewrite (oi_owner _ Ho), Hc.
  - rewrite (oi_stores _ Ho). case_match; lia.
  - intros t v Ht. destruct (oi_pcs _ Ho _ _ Ht) as [[-> Hc] _]. split; [|done].
    by apply (oi_value _ Ho).
  - intros Hc o' Hr'. by eapply complete_stays.
Qed.

(** ** [LazyLock]

    [force] gives [get_or_init] a closure that takes the stored initialiser
    and panics when it is gone; the closure cannot fail otherwise. *)

(** Initialisers that cannot fail are started at most once. *)
Definition infallible {A E} (p : pc A E) : Prop :=
  match p with
  | Enter (Ok _) | Fast (Ok _) | Load (Ok _) | Look (Ok _) _ | Init (Ok _) => True
  | Release (Ok _) _ | Check | Got _ => True
  | _ => False
  end.

Record linv {A E} (o : oncelock A E) : Prop := {
  li_pcs : ∀ t p, threads o !! t = Some p → infallible p;
  li_runs : runs o = if decide (state o = IMCOMPLETE) then 0 else 1;
  li_state : state o ≠ POISONED;
  li_seen : ∀ t f v, threads o !! t = Some (Look f v) → v ≠ POISONED;
}.

Lemma linv_goto {A E} (o : oncelock A E) t p q :
  linv o → threads o !! t = Some p → infallible q → (∀ f v, q = Look f v → v ≠ POISONED) →
  linv (goto o t q).
Proof.
  intros [H1 H2 H3 H4] Ht Hq Hl. split; simpl; try done.
  - intros u r. rewrite (threads_upd _ _ _ _ _ Ht). destruct (decide (u = t)); [|apply H1].
    intros ?; by simplify_eq.
  - intros u f v. rewrite (threads_upd _ _ _ _ _ Ht). destruct (decide (u = t)); [|apply H4].
    intros ?; simplify_eq. by eapply Hl.
Qed.

Lemma linv_set {A E} (o : oncelock A E) t p q st v n k :
  linv o → threads o !! t = Some p → infallible q → (∀ f v, q ≠ Look f v) → st ≠ POISONED →
  n = (if decide (st = IMCOMPLETE) then 0 else 1) →
  linv (mkOnce st v (<[t := q]> (threads o)) n k).
Proof.
  intros [H1 H2 H3 H4] Ht Hq Hl Hst Hn. split; simpl; try done.
  - intros u r. rewrite (threads_upd _ _ _ _ _ Ht). destruct (decide (u = t)); [|apply H1].
    intros ?; by simplify_eq.
  - intros u f x. rewrite (threads_upd _ _ _ _ _ Ht). destruct (decide (u = t)); [|apply H4].
    intros ?; simplify_eq. by destruct (Hl f x).
Qed.

Lemma linv_step {A E} (o o' : oncelock A E) : oinv o → linv o → step o o' → linv o'.
Proof.
  intros Ho Hl [t p o1 Ht Hs]. pose proof (li_pcs _ Hl _ _ Ht) as Hp.
  pose proof (li_runs _ Hl) as Hr. pose proof (li_state _ Hl) as Hst.
  destruct p as [[x|]|[x|]|[x|]|[x|] v|[x|]|[[]|e] to| |v|e|s]; simpl in Hs, Hp; try done; simplify_eq.
  - by destruct (is_completed o); apply (linv_goto _ _ _ _ Hl Ht).
  - by destruct (is_completed o); apply (linv_goto _ _ _ _ Hl Ht).
  - apply (linv_goto _ _ _ _ Hl Ht); [done|]. intros f v [= _ <-]. done.
  - pose proof (li_seen _ Hl _ _ _ Ht) as Hv. unfold look.
    assert (Hreload : linv (goto o t (Look (Ok x) (state o)))).
    { apply (linv_goto _ _ _ _ Hl Ht); [done|]. intros f w [= _ <-]. done. }
    destruct (decide (v = COMPLETE)); [by apply (linv_goto _ _ _ _ Hl Ht)|].
    destruct (decide (v = POISONED ∨ v = IMCOMPLETE)) as [[?|Hi]|Hi]; [done| |].
    + destruct (decide (state o = v)) as [Hsv|]; [|done].
      apply (linv_set _ _ _ _ _ _ _ _ Hl Ht); try done.
      rewrite Hsv, Hi in Hr. rewrite Hr. done.
    + rewrite decide_True; [done|]. destruct (seen_values _ _ _ _ Ho Ht) as [-> |[-> |[-> | ->]]]; naive_solver.
  - assert (state o = RUNNING) as Hrun by (by apply (owner_running _ _ _ Ho Ht)).
    apply (linv_set _ _ _ _ _ _ _ _ Hl Ht); try done.
  - assert (state o = RUNNING) as Hrun by (by apply (owner_running _ _ _ Ho Ht)).
    destruct (oi_pcs _ Ho _ _ Ht) as [[-> _] _]. unfold release. rewrite Hrun.
    apply (linv_set _ _ _ _ _ _ _ _ Hl Ht); try done. by rewrite Hr, Hrun.
  - pose proof (oi_pcs _ Ho _ _ Ht) as [Hc _]. simpl in Hc. unfold is_completed.
    rewrite bool_decide_eq_true_2 by done. by apply (linv_goto _ _ _ _ Hl Ht).
Qed.

(** Lazy initialisation runs its initialiser at most once.  When the
    initialisers cannot fail, as those of [get_or_init], [set] and
    [LazyLock::force] cannot, every reachable state has started at most one
    of them, so the closure of [force], which panics when run a second time,
    never does; the cell is never poisoned and no caller gets an error. *)
Theorem lazy_runs_once {A E : Type} (ts : list (pc A E)) o :
  Forall starting ts → Forall infallible ts → rtc step (once_new ts) o →
  0 ≤ runs o ≤ 1 ∧ state o ≠ POISONED ∧ (∀ t e, threads o !! t ≠ Some (Failed e)).
Proof.
  intros Hs Hi Hr. pose proof (oinv_new ts Hs) as Ho.
  assert (Hl : linv (once_new ts)).
  { rewrite Forall_forall in Hi, Hs. split; simpl; try done.
    - intros t p Hp. apply Hi. by eapply list_elem_of_lookup_2.
    - intros t f v Hp. apply list_elem_of_lookup_2 in Hp. by specialize (Hs _ Hp). }
  assert (Hlo : linv o).
  { clear Hs Hi. revert Ho Hl. induction Hr as [o|o o1 o2 Hst _ IH]; [done|].
    intros Ho Hl. apply IH; [by eapply oinv_step|by eapply linv_step]. }
  pose proof (li_runs _ Hlo) as Hruns. split_and!.
  - rewrite Hruns. case_decide; lia.
  - rewrite Hruns. case_decide; lia.
  - apply (li_state _ Hlo).
  - intros t e Ht. by apply (li_pcs _ Hlo) in Ht.
Qed.

(** Runs, executable: the steps of the listed threads in order. *)
Definition run_threads {A E} (o : oncelock A E) (ts : list nat) : oncelock A E :=
  foldl (λ o t, match threads o !! t with
                | Some p => default o (step_thread o t p)
                | None => o
                end) o ts.

Lemma run_threads_reach {A E} (o : oncelock A E) ts : rtc step o (run_threads o ts).
Proof.
  unfold run_threads. revert o. induction ts as [|t ts IH]; intros o; simpl; [apply rtc_refl|].
  destruct (threads o !! t) as [p|] eqn:Ht; [|apply IH].
  destruct (step_thread o t p) as [o1|] eqn:Hs; simpl; [|apply IH].
  eapply rtc_l; [by econstructor|apply IH].
Qed.

(** Two callers race; the second loses the exchange and waits. *)
Definition demo_once : oncelock Z string :=
  run_threads (once_new [Enter (Ok 5); Enter (Ok 6)]) [0;1;0;1;0;1;0;1;1;0;1;0;1;0;1;1]%nat.

Lemma demo_once_reach : rtc step (once_new [Enter (Ok 5); Enter (Ok 6)]) demo_once.
Proof. apply run_threads_reach. Qed.

Lemma once_single_value_witness :
  threads demo_once = [Got (Some 5); Got (Some 5)] ∧ stores demo_once ≤ 1 ∧
  ∀ t v, threads demo_once !! t = Some (Got v) → is_Some v ∧ v = value demo_once.
Proof.
  split; [vm_compute; reflexivity|].
  destruct (once_single_value [Enter (Ok 5); Enter (Ok 6)] demo_once) as (_ & _ & _ & H1 & H2 & _);
    [repeat constructor|apply demo_once_reach|]. split; [exact H1|exact H2].
Defined.

Lemma lazy_runs_once_witness : runs demo_once = 1 ∧ 0 ≤ runs demo_once ≤ 1.
Proof.
  split; [vm_compute; reflexivity|].
  apply (lazy_runs_once [Enter (Ok 5); Enter (Ok 6)] demo_once);
    [repeat constructor|repeat constructor|apply demo_once_reach].
Defined.
