(* ===== verification/OnceCell.v ===== *)
(** * The operations of [OnceLock], [LazyLock] and [Once] ([sync.rs]) in one thread

    [Sync] has the interleavings of [call_inner]; here are the operations that
    need exclusive access ([get_mut], [take], [into_inner]), the conversions,
    and [get], [set], [get_or_init], [force] as one thread sees them.  A cell is
    the state word and its memory, [None] while uninitialised; initialisers are
    functions on a state [S] of the caller.  A call that would spin for ever on
    a running initialiser is [None]. *)

From S2P Require Import Prelude Sync.

Open Scope Z_scope.

Section cell.
Context {S A E : Type}.

Record OnceLock := mkCell { once : Z; mem : option A }.

Definition cell_new : OnceLock := mkCell IMCOMPLETE None.

(** [Once::call_inner] on the word [st]: the initialiser gets [is_poisoned()]
    and returns the word that the guard stores. *)
Definition call_inner {W} (ignore_poisoning : bool) (st : Z) (w : W) (init : bool → W → outcome (W * Z))
    : outcome (option (Z * W)) :=
  if decide (st = COMPLETE) then Done (Some (st, w))
  else if decide (st = POISONED ∧ ignore_poisoning = false) then Panic "Once instance has previously poisoned"
  else if decide (st = POISONED ∨ st = IMCOMPLETE) then
    '(w1, to) ← init (bool_decide (st = POISONED)) w; Done (Some (to, w1))
  else if decide (Z.land st STATE_MASK = RUNNING) then Done None
  else Panic "assertion failed".

Definition call_once {W} (st : Z) (w : W) (f : W → outcome W) : outcome (option (Z * W)) :=
  if decide (st = COMPLETE) then Done (Some (st, w))
  else call_inner false st w (λ _ w, w1 ← f w; Done (w1, COMPLETE)).

Definition call_once_force {W} (st : Z) (w : W) (f : bool → W → outcome (W * Z)) : outcome (option (Z * W)) :=
  if decide (st = COMPLETE) then Done (Some (st, w)) else call_inner true st w f.

Definition is_initialized (c : OnceLock) : bool := bool_decide (once c = COMPLETE).

(** [get_unchecked]: the assertion of debug builds, then the memory. *)
Definition get_unchecked (c : OnceLock) : outcome A :=
  if is_initialized c then match mem c with Some v => Done v | None => Fault 0 end
  else Panic "assertion failed: self.is_initialized()".

Definition get (c : OnceLock) : outcome (option A) :=
  if is_initialized c then v ← get_unchecked c; Done (Some v) else Done None.

(** [get_mut], with what the caller then stores. *)
Definition get_mut (c : OnceLock) (g : A → A) : outcome (OnceLock * option A) :=
  if is_initialized c then v ← get_unchecked c; Done (mkCell (once c) (Some (g v)), Some v) else Done (c, None).

(** [initialize]: the closure writes the memory, or poisons. *)
Definition initialize (c : OnceLock) (s : S) (f : S → outcome (S * result A E))
    : outcome (option (OnceLock * S * result unit E)) :=
  r ← call_once_force (once c) (mem c, s, Ok tt) (λ _ '(m, s, res),
        '(s1, r) ← f s;
        Done (match r with
              | Ok v => (Some v, s1, res, COMPLETE)
              | Err e => (m, s1, Err e, POISONED)
              end));
  Done (match r with
        | Some (st, (m, s1, res)) => Some (mkCell st m, s1, res)
        | None => None
        end).

Definition get_or_try_init (c : OnceLock) (s : S) (f : S → outcome (S * result A E))
    : outcome (option (OnceLock * S * result A E)) :=
  o ← get c;
  match o with
  | Some v => Done (Some (c, s, Ok v))
  | None =>
      r ← initialize c s f;
      match r with
      | None => Done None
      | Some (c1, s1, Err e) => Done (Some (c1, s1, Err e))
      | Some (c1, s1, Ok _) => v ← get_unchecked c1; Done (Some (c1, s1, Ok v))
      end
  end.

Definition take (c : OnceLock) : outcome (OnceLock * option A) :=
  if is_initialized c then
    match mem c with
    | Some v => Done (mkCell IMCOMPLETE (mem c), Some v)
    | None => Fault 0
    end
  else Done (c, None).

Definition into_inner (c : OnceLock) : outcome (option A) := '(_, r) ← take c; Done r.
End cell.
Arguments OnceLock : clear implicits.

(** [get_or_init] is [get_or_try_init] without errors. *)
Definition get_or_init {S A} (c : OnceLock A) (s : S) (f : S → outcome (S * A))
    : outcome (option (OnceLock A * S * A)) :=
  r ← get_or_try_init (E := unit) c s (λ s, '(s1, v) ← f s; Done (s1, Ok v));
  match r with
  | None => Done None
  | Some (c1, s1, Ok v) => Done (Some (c1, s1, v))
  | Some (_, _, Err _) => Panic "internal error: entered unreachable code"
  end.

(** [set]: the caller's state is the value that is still to be stored. *)
Definition set {A} (c : OnceLock A) (v : A) : outcome (option (OnceLock A * result unit A)) :=
  r ← get_or_init c (Some v) (λ s, match s with
        | Some v => Done (None, v)
        | None => Panic "called `Option::unwrap()` on a `None` value"
        end);
  Done (match r with
        | None => None
        | Some (c1, None, _) => Some (c1, Ok tt)
        | Some (c1, Some v, _) => Some (c1, Err v)
        end).

(** [From<T>], [Clone], [PartialEq] *)
Definition from {A} (v : A) : outcome (option (OnceLock A)) :=
  r ← set cell_new v;
  match r with
  | None => Done None
  | Some (c, Ok _) => Done (Some c)
  | Some (_, Err _) => Panic "internal error: entered unreachable code"
  end.
Definition clone {A} (c : OnceLock A) : outcome (option (OnceLock A)) :=
  o ← get c; match o with Some v => from v | None => Done (Some cell_new) end.
Definition eq_cells {A} `{EqDecision A} (c d : OnceLock A) : outcome bool :=
  x ← get c; y ← get d; Done (bool_decide (x = y)).

(** [LazyLock] *)
Record LazyLock (S A : Type) := mkLazy { cell : OnceLock A; linit : option (S → outcome (S * A)) }.
Arguments mkLazy {S A}. Arguments cell {S A}. Arguments linit {S A}.

Definition lazy_new {S A} (f : S → outcome (S * A)) : LazyLock S A := mkLazy cell_new (Some f).

(** [force], [deref]: the closure takes the initialiser out of its cell. *)
Definition force {S A} (l : LazyLock S A) (s : S) : outcome (option (LazyLock S A * S * A)) :=
  r ← get_or_init (cell l) (s, linit l) (λ '(s, i), match i with
        | Some f => '(s1, v) ← f s; Done ((s1, None), v)
        | None => Panic "Lazy instance has previously been poisoned"
        end);
  Done (match r with
        | None => None
        | Some (c, (s1, i), v) => Some (mkLazy c i, s1, v)
        end).

(** ** The cell is an optional value *)
Section spec.
Context {A : Type}.
Implicit Types c : OnceLock A.

(** No initialiser is running, and a complete cell has a value. *)
Definition cell_ok c : Prop :=
  (once c = IMCOMPLETE ∨ once c = POISONED ∨ once c = COMPLETE) ∧ (once c = COMPLETE → is_Some (mem c)).

Definition contents c : option A := if is_initialized c then mem c else None.

Lemma get_contents c : cell_ok c → get c = Done (contents c).
Proof.
  intros [_ Hv]. unfold get, contents, get_unchecked, is_initialized. destruct (decide (once c = COMPLETE)) as [Hc|Hc].
  - rewrite bool_decide_true by done. destruct (Hv Hc) as [v ->]. done.
  - by rewrite bool_decide_false by done.
Qed.

Lemma contents_once c v : cell_ok c → contents c = Some v → once c = COMPLETE ∧ mem c = Some v.
Proof. intros _. unfold contents, is_initialized. by case_bool_decide. Qed.

Lemma contents_none c : cell_ok c → contents c = None → once c = IMCOMPLETE ∨ once c = POISONED.
Proof.
  intros [[?|[?|Hc]] Hv]; [auto|auto|]. unfold contents, is_initialized. rewrite bool_decide_true by done.
  destruct (Hv Hc) as [v ->]. done.
Qed.

(** A full cell gives its value and does not run the initialiser; an empty or
    poisoned one runs it once, keeps its value, and stays empty after an error. *)
Lemma get_or_try_init_spec {S E} c (s : S) (f : S → outcome (S * result A E)) :
  cell_ok c →
  match contents c with
  | Some v => get_or_try_init c s f = Done (Some (c, s, Ok v))
  | None => ∀ s1 r, f s = Done (s1, r) →
      ∃ c1, get_or_try_init c s f = Done (Some (c1, s1, r)) ∧ cell_ok c1 ∧
        contents c1 = match r with Ok v => Some v | Err _ => None end
  end.
Proof.
  intros Hc. unfold get_or_try_init. rewrite get_contents by done. cbn [mbind outcome_bind].
  destruct (contents c) as [v|] eqn:Hv; [done|]. intros s1 r Hf.
  pose proof (contents_none c Hc Hv) as Hst.
  unfold initialize, call_once_force. rewrite decide_False by (destruct Hst as [-> | ->]; done).
  unfold call_inner. rewrite decide_False by (destruct Hst as [-> | ->]; done).
  rewrite decide_False by (by intros [_ ?]). rewrite decide_True by tauto. rewrite Hf. cbn [mbind outcome_bind].
  destruct r as [v|e]; cbn [mbind outcome_bind].
  - exists (mkCell COMPLETE (Some v)). split_and!; [done| |done]. split; cbn; [auto|]. by eexists.
  - exists (mkCell POISONED (mem c)). split_and!; [done| |done]. split; cbn; [auto|done].
Qed.

Lemma set_spec c v :
  cell_ok c →
  match contents c with
  | Some _ => set c v = Done (Some (c, Err v))
  | None => ∃ c1, set c v = Done (Some (c1, Ok tt)) ∧ cell_ok c1 ∧ contents c1 = Some v
  end.
Proof.
  intros Hc. unfold set, get_or_init.
  pose proof (get_or_try_init_spec (E := unit) c (Some v)
    (λ s, '(s1, v0) ← match s with
                      | Some v1 => Done (None, v1)
                      | None => Panic "called `Option::unwrap()` on a `None` value"
                      end; Done (s1, Ok v0)) Hc) as H.
  destruct (contents c) as [w|].
  - by rewrite H.
  - destruct (H None (Ok v) eq_refl) as (c1 & -> & Hc1 & Hv1). by exists c1.
Qed.

Lemma take_spec c :
  cell_ok c → ∃ c1, take c = Done (c1, contents c) ∧ cell_ok c1 ∧ contents c1 = None.
Proof.
  intros Hc. unfold take, contents at 1, is_initialized. case_bool_decide as Hst.
  - destruct Hc as [_ Hv]. destruct (Hv Hst) as [v ->]. exists (mkCell IMCOMPLETE (Some v)).
    split_and!; [done| |done]. split; cbn; [auto|done].
  - exists c. split_and!; [done|done|]. unfold contents, is_initialized. by rewrite bool_decide_false.
Qed.
End spec.

(** ** Every client sees an optional value *)
Section refinement.
Context {A E : Type}.

(** The calls of a client; the initialiser of [OTry] gives [r]. *)
Inductive op := OGet | OMut (g : A → A) | OSet (v : A) | OTake | OTry (r : result A E).
Inductive answer := AOpt (o : option A) | ASet (r : result unit A) | ATry (ran : bool) (r : result A E).

(** A call on the cell, [None] when it does not return. *)
Definition cell_call (c : OnceLock A) (o : op) : outcome (option (OnceLock A * answer)) :=
  match o with
  | OGet => r ← get c; Done (Some (c, AOpt r))
  | OMut g => '(c1, r) ← get_mut c g; Done (Some (c1, AOpt r))
  | OSet v => r ← set c v; Done (p ← r; Some (p.1, ASet p.2))
  | OTake => '(c1, r) ← take c; Done (Some (c1, AOpt r))
  | OTry r => x ← get_or_try_init c false (λ _, Done (true, r));
              Done (p ← x; Some (p.1.1, ATry p.1.2 p.2))
  end.

(** The same call on an optional value. *)
Definition option_call (x : option A) (o : op) : option A * answer :=
  match o with
  | OGet => (x, AOpt x)
  | OMut g => (g <$> x, AOpt x)
  | OSet v => match x with Some _ => (x, ASet (Err v)) | None => (Some v, ASet (Ok tt)) end
  | OTake => (None, AOpt x)
  | OTry r => match x with
              | Some v => (x, ATry false (Ok v))
              | None => (match r with Ok v => Some v | Err _ => None end, ATry true r)
              end
  end.

Fixpoint cell_run (c : OnceLock A) (l : list op) : outcome (option (list answer)) :=
  match l with
  | [] => Done (Some [])
  | o :: l => r ← cell_call c o;
              match r with
              | None => Done None
              | Some (c1, a) => rs ← cell_run c1 l; Done (option_map (cons a) rs)
              end
  end.
Fixpoint option_run (x : option A) (l : list op) : list answer :=
  match l with
  | [] => []
  | o :: l => let '(x1, a) := option_call x o in a :: option_run x1 l
  end.

Lemma get_mut_spec (c : OnceLock A) g :
  cell_ok c → ∃ c1, get_mut c g = Done (c1, contents c) ∧ cell_ok c1 ∧ contents c1 = g <$> contents c.
Proof.
  intros Hc. unfold get_mut, get_unchecked, contents, is_initialized. case_bool_decide as Hst.
  - destruct Hc as [_ Hv]. destruct (Hv Hst) as [v ->]. exists (mkCell (once c) (Some (g v))).
    split_and!; [done| |cbn; by rewrite bool_decide_true]. split; cbn; [auto|]. by eexists.
  - exists c. split_and!; [done|done|]. by rewrite bool_decide_false.
Qed.

Lemma cell_call_refines c o :
  cell_ok c →
  ∃ c1, cell_call c o = Done (Some (c1, (option_call (contents c) o).2)) ∧ cell_ok c1 ∧
        contents c1 = (option_call (contents c) o).1.
Proof.
  intros Hc. destruct o as [|g|v| |r]; cbn [cell_call option_call fst snd].
  - rewrite get_contents by done. by exists c.
  - destruct (get_mut_spec c g Hc) as (c1 & -> & ? & ?). by exists c1.
  - pose proof (set_spec c v Hc) as H. destruct (contents c) eqn:Hx.
    + rewrite H. by exists c.
    + destruct H as (c1 & -> & ? & ?). by exists c1.
  - destruct (take_spec c Hc) as (c1 & -> & ? & ?). by exists c1.
  - pose proof (get_or_try_init_spec c false (λ _, Done (true, r)) Hc) as H. destruct (contents c) eqn:Hx.
    + rewrite H. by exists c.
    + destruct (H true r eq_refl) as (c1 & -> & ? & ?). by exists c1.
Qed.

Lemma cell_run_refines l c : cell_ok c → cell_run c l = Done (Some (option_run (contents c) l)).
Proof.
  revert c. induction l as [|o l IH]; intros c Hc; [done|]. cbn [cell_run option_run].
  destruct (cell_call_refines c o Hc) as (c1 & -> & Hc1 & Hx). cbn [mbind outcome_bind].
  rewrite IH, Hx by done. by destruct (option_call (contents c) o).
Qed.

(** A [OnceLock] is an optional value to whoever uses it: for every
    sequence of [get], [get_mut], [set], [take] and [get_or_try_init] on a new
    lock, every call returns (none panics, none waits) and the answers are
    those of an [option]: [set] succeeds exactly when it is empty and hands the
    value back otherwise, and the initialiser runs exactly when it is empty. *)
Theorem oncelock_refines (l : list op) : cell_run cell_new l = Done (Some (option_run None l)).
Proof. apply (cell_run_refines l cell_new). split; cbn; [auto|done]. Qed.
End refinement.

(** ** [LazyLock] *)
Section lazy.
Context {S A : Type}.

(** Forcing [n + 1] times. *)
Fixpoint force_all (l : LazyLock S A) (s : S) (n : nat) : outcome (option (S * list A)) :=
  r ← force l s;
  match r with
  | None => Done None
  | Some (l1, s1, v) =>
      match n with
      | O => Done (Some (s1, [v]))
      | Datatypes.S n => rs ← force_all l1 s1 n; Done (p ← rs; Some (p.1, v :: p.2))
      end
  end.

Lemma force_full (l : LazyLock S A) s v :
  cell_ok (cell l) → contents (cell l) = Some v → force l s = Done (Some (l, s, v)).
Proof.
  intros Hc Hv. unfold force, get_or_init.
  match goal with |- context [get_or_try_init ?c ?x ?f] =>
    pose proof (get_or_try_init_spec (E := unit) c x f Hc) as H end.
  rewrite Hv in H. rewrite H. cbn. by destruct l.
Qed.

Lemma force_all_full (l : LazyLock S A) s v n :
  cell_ok (cell l) → contents (cell l) = Some v →
  force_all l s n = Done (Some (s, replicate (Datatypes.S n) v)).
Proof.
  intros Hc Hv. induction n as [|n IH]; cbn [force_all]; rewrite (force_full l s v Hc Hv); cbn [mbind outcome_bind]; [done|].
  by rewrite IH.
Qed.

(** A [LazyLock] runs its initialiser once: if the initialiser turns the
    state [s] into [s1] with the value [v], forcing the lock any number of
    times, at least once, leaves the state [s1] and gives [v] every time. *)
Theorem lazylock_once (f : S → outcome (S * A)) (s s1 : S) (v : A) (n : nat)
    (Hf : f s = Done (s1, v)) :
  force_all (lazy_new f) s n = Done (Some (s1, replicate (Datatypes.S n) v)).
Proof.
  assert (∃ l1, force (lazy_new f) s = Done (Some (l1, s1, v)) ∧ cell_ok (cell l1) ∧ contents (cell l1) = Some v)
    as (l1 & Hr & Hc & Hv).
  { unfold force, get_or_init.
    match goal with |- context [get_or_try_init ?c ?x ?g] =>
      pose proof (get_or_try_init_spec (E := unit) c x g) as H end.
    destruct (H ltac:(split; cbn; [auto|done]) (s1, None) (Ok v)) as (c1 & -> & Hc1 & Hv1).
    { cbn. by rewrite Hf. }
    cbn [mbind outcome_bind]. by eexists. }
  destruct n as [|n]; cbn [force_all]; rewrite Hr; cbn [mbind outcome_bind]; [done|].
  by rewrite (force_all_full l1 s1 v n Hc Hv).
Qed.
End lazy.

Lemma lazylock_once_witness :
  (λ n : Z, Done (n + 1, n * 10)) 4 = Done (5, 40) ∧
  force_all (lazy_new (λ n : Z, Done (n + 1, n * 10))) 4 2 = Done (Some (5, [40; 40; 40])).
Proof. split; [done|]. exact (lazylock_once (λ n : Z, Done (n + 1, n * 10)) 4 5 40 2 eq_refl). Defined.
