(* ===== verification/RwLock.v ===== *)
(** * The reader-writer spin lock of [rwlock.rs]

    Threads interleave at the atomic accesses to the reader count [rcnt] and
    the writer flag [wcnt].  The relation below has one step per access. *)

From S2P Require Import Prelude.

Open Scope Z_scope.

(** Where a thread is. *)
Inductive pc :=
  | Out                  (* holds nothing *)
  | RAdded               (* [try_read], after [rcnt.fetch_add] *)
  | RBack                (* [try_read], saw a writer, before [rcnt.fetch_sub] *)
  | RHeld                (* holds a read guard *)
  | WSet                 (* [try_write], after a successful exchange of [wcnt] *)
  | WHeld                (* holds a write guard *)
  | USet                 (* [try_upgrade], after a successful exchange *)
  | UDrop                (* [try_upgrade] succeeded, before the read guard is dropped *)
  | Panicked.

Record rwlock := mkRw { rcnt : Z; wcnt : bool; threads : list pc }.

Definition rw_new (k : nat) : rwlock := mkRw 0 false (replicate k Out).

Definition goto (l : rwlock) (t : nat) (p : pc) : rwlock :=
  mkRw (rcnt l) (wcnt l) (<[t := p]> (threads l)).

(** [try_read] *)
Definition read_add (l : rwlock) (t : nat) : rwlock :=
  mkRw (rcnt l + 1) (wcnt l) (<[t := RAdded]> (threads l)).
Definition read_check (l : rwlock) (t : nat) : rwlock :=
  goto l t (if wcnt l then RBack else RHeld).
Definition read_back (l : rwlock) (t : nat) : rwlock :=
  mkRw (rcnt l - 1) (wcnt l) (<[t := Out]> (threads l)).

(** [try_write]: a weak exchange may fail although the flag is clear
    ([spurious]); the second operand of [&&] is evaluated only after a
    successful exchange, and the flag is left set when it is false. *)
Definition write_cas (l : rwlock) (t : nat) (spurious : bool) : rwlock :=
  if wcnt l || spurious then goto l t Out
  else mkRw (rcnt l) true (<[t := WSet]> (threads l)).
Definition write_check (l : rwlock) (t : nat) : rwlock :=
  goto l t (if decide (rcnt l < 1) then WHeld else Out).

(** [try_upgrade] of a read guard, and the drop of the consumed guard. *)
Definition upgrade_cas (l : rwlock) (t : nat) (spurious : bool) : rwlock :=
  if wcnt l || spurious then goto l t RHeld
  else mkRw (rcnt l) true (<[t := USet]> (threads l)).
Definition upgrade_check (l : rwlock) (t : nat) : rwlock :=
  goto l t (if decide (rcnt l = 1) then UDrop else RHeld).
Definition upgrade_drop (l : rwlock) (t : nat) : rwlock :=
  if decide (0 < rcnt l) then mkRw (rcnt l - 1) (wcnt l) (<[t := WHeld]> (threads l))
  else goto l t Panicked.

(** [Drop] of the guards; the load of the assertion and the update are one
    step. *)
Definition read_drop (l : rwlock) (t : nat) : rwlock :=
  if decide (0 < rcnt l) then mkRw (rcnt l - 1) (wcnt l) (<[t := Out]> (threads l))
  else goto l t Panicked.
Definition write_drop (l : rwlock) (t : nat) : rwlock :=
  if wcnt l then mkRw (rcnt l) false (<[t := Out]> (threads l)) else goto l t Panicked.

Inductive step (l : rwlock) : rwlock → Prop :=
  | s_read_add t : threads l !! t = Some Out → step l (read_add l t)
  | s_read_check t : threads l !! t = Some RAdded → step l (read_check l t)
  | s_read_back t : threads l !! t = Some RBack → step l (read_back l t)
  | s_write_cas t b : threads l !! t = Some Out → step l (write_cas l t b)
  | s_write_check t : threads l !! t = Some WSet → step l (write_check l t)
  | s_upgrade_cas t b : threads l !! t = Some RHeld → step l (upgrade_cas l t b)
  | s_upgrade_check t : threads l !! t = Some USet → step l (upgrade_check l t)
  | s_upgrade_drop t : threads l !! t = Some UDrop → step l (upgrade_drop l t)
  | s_read_drop t : threads l !! t = Some RHeld → step l (read_drop l t)
  | s_write_drop t : threads l !! t = Some WHeld → step l (write_drop l t).

(** ** Exclusion *)

(** Threads counted in [rcnt]; threads that own the writer flag. *)
Definition reader (p : pc) : Z :=
  match p with RAdded | RBack | RHeld | USet | UDrop => 1 | _ => 0 end.
Definition writer (p : pc) : Z :=
  match p with WSet | WHeld | USet | UDrop => 1 | _ => 0 end.
(** Threads that may read the data, threads that may write it. *)
Definition reads (p : pc) : Z := match p with RHeld | USet => 1 | _ => 0 end.
Definition writes (p : pc) : Z := match p with WHeld | UDrop => 1 | _ => 0 end.

Record rinv (l : rwlock) : Prop := {
  ri_rcnt : rcnt l = tally reader (threads l);
  ri_writer : tally writer (threads l) ≤ if wcnt l then 1 else 0;
  ri_excl : 0 < tally writes (threads l) → tally reads (threads l) = 0;
  ri_panic : ∀ t, threads l !! t ≠ Some Panicked;
}.

Lemma reader_nonneg p : 0 ≤ reader p. Proof. by destruct p. Qed.
Lemma writer_nonneg p : 0 ≤ writer p. Proof. by destruct p. Qed.
Lemma reads_nonneg p : 0 ≤ reads p. Proof. by destruct p. Qed.
Lemma writes_nonneg p : 0 ≤ writes p. Proof. by destruct p. Qed.

Lemma tally_le {A} (f g : A → Z) l : (∀ x, f x ≤ g x) → tally f l ≤ tally g l.
Proof. intros H. induction l as [|x l IH]; simpl; [lia|]. specialize (H x). lia. Qed.

Lemma reads_le_reader l : tally reads l ≤ tally reader l.
Proof. apply tally_le. by intros []. Qed.
Lemma writes_le_writer l : tally writes l ≤ tally writer l.
Proof. apply tally_le. by intros []. Qed.

(** One thread moves: the invariant after, in terms of the tallies before. *)
Lemma rinv_move l t p q rc wc :
  threads l !! t = Some p → (∀ u, threads l !! u ≠ Some Panicked) → q ≠ Panicked →
  rc = tally reader (threads l) - reader p + reader q →
  tally writer (threads l) - writer p + writer q ≤ (if (wc : bool) then 1 else 0) →
  (0 < tally writes (threads l) - writes p + writes q →
   tally reads (threads l) - reads p + reads q = 0) →
  rinv (mkRw rc wc (<[t := q]> (threads l))).
Proof.
  intros Ht Hp Hq H1 H2 H3. split; simpl; rewrite ?(tally_insert _ _ _ _ _ Ht); auto.
  intros u. rewrite lookup_upd by (by eapply lookup_lt_Some).
  destruct (decide (u = t)); [congruence|apply Hp].
Qed.

Ltac rw_facts Hi Ht :=
  let H := fresh in
  pose proof Hi as [Hrc Hwr Hex Hpan];
  pose proof (tally_lookup reader _ _ _ reader_nonneg Ht);
  pose proof (tally_lookup writer _ _ _ writer_nonneg Ht);
  pose proof (tally_lookup writes _ _ _ writes_nonneg Ht);
  pose proof (tally_lookup reads _ _ _ reads_nonneg Ht);
  match type of Ht with threads ?l !! _ = _ =>
    pose proof (reads_le_reader (threads l)); pose proof (writes_le_writer (threads l));
    pose proof (tally_nonneg reads (threads l) reads_nonneg);
    pose proof (tally_nonneg writer (threads l) writer_nonneg)
  end; simpl in *.

Lemma rinv_step l l' : rinv l → step l l' → rinv l'.
Proof.
  intros Hi Hs.
  destruct Hs as [t Ht|t Ht|t Ht|t b Ht|t Ht|t b Ht|t Ht|t Ht|t Ht|t Ht]; rw_facts Hi Ht;
    unfold read_add, read_check, read_back, write_cas, write_check, upgrade_cas, upgrade_check,
      upgrade_drop, read_drop, write_drop, goto;
    destruct (wcnt l) eqn:Hw; try destruct b; simpl;
    try destruct (decide (rcnt l < 1)); try destruct (decide (rcnt l = 1));
    try destruct (decide (0 < rcnt l)); simpl;
    first [exfalso; lia | eapply (rinv_move l _ _ _ _ _ Ht Hpan); simpl; (done || lia)].
Qed.

Lemma rinv_reach k l : rtc step (rw_new k) l → rinv l.
Proof.
  assert (H0 : rinv (rw_new k)).
  { split; simpl.
    - symmetry. apply tally_zero. intros p Hp. by apply elem_of_replicate in Hp as [-> _].
    - rewrite tally_zero; [done|]. intros p Hp. by apply elem_of_replicate in Hp as [-> _].
    - intros _. apply tally_zero. intros p Hp. by apply elem_of_replicate in Hp as [-> _].
    - intros t Ht. by apply lookup_replicate in Ht as [? _]. }
  intros Hr. revert H0. induction Hr as [l|l l1 l2 Hs _ IH]; [done|]. intros Hl.
  apply IH. by eapply rinv_step.
Qed.

(** ** A lock whose flag has no owner *)
Definition orphaned (l : rwlock) : Prop := wcnt l = true ∧ tally writer (threads l) = 0.

Lemma orphaned_step l l' : rinv l → orphaned l → step l l' → orphaned l'.
Proof.
  intros Hi [Hw Ho] Hs.
  destruct Hs as [t Ht|t Ht|t Ht|t b Ht|t Ht|t b Ht|t Ht|t Ht|t Ht|t Ht];
    pose proof (tally_lookup writer _ _ _ writer_nonneg Ht) as Hle; simpl in Hle; try (exfalso; lia);
    unfold orphaned, read_add, read_check, read_back, write_cas, upgrade_cas, read_drop, goto;
    rewrite Hw; simpl; try case_decide; simpl; rewrite (tally_insert _ _ _ _ _ Ht); simpl; split; lia || done.
Qed.

(** C31. Exclusion.  In every reachable state of any number of threads that
    lock for reading, lock for writing and upgrade, at most one thread holds
    the lock for writing, and then none holds it for reading; the reader
    count is the number of threads counted in it, and the assertions of the
    guards' drops have not failed. *)
Theorem rwlock_exclusion k l :
  rtc step (rw_new k) l →
  tally writes (threads l) ≤ 1 ∧ (tally writes (threads l) = 1 → tally reads (threads l) = 0) ∧
  rcnt l = tally reader (threads l) ∧ ∀ t, threads l !! t ≠ Some Panicked.
Proof.
  intros Hr. pose proof (rinv_reach k l Hr) as [H1 H2 H3 H4].
  pose proof (writes_le_writer (threads l)). split_and!; [|intros; apply H3; lia|done|done].
  destruct (wcnt l); lia.
Qed.

(** A writer that finds readers leaves the lock unusable: [try_write]
    sets the flag and returns without clearing it.  Two threads reach a state
    where no thread holds or is acquiring the lock and the flag is set; from
    any state whose flag has no owner, no thread ever writes, and no thread
    becomes a reader. *)
Theorem rwlock_failed_write_wedges :
  (∃ l, rtc step (rw_new 2) l ∧ orphaned l ∧ Forall (λ p, p = Out) (threads l)) ∧
  ∀ k l l' t, rtc step (rw_new k) l → orphaned l → step l l' →
    orphaned l' ∧ tally writes (threads l') = 0 ∧
    (threads l' !! t = Some RHeld → threads l !! t = Some RHeld).
Proof.
  split.
  - exists (mkRw 0 true [Out; Out]). split_and!; [|by split|repeat constructor].
    eapply rtc_l; [apply (s_read_add _ 0); reflexivity|].
    eapply rtc_l; [apply (s_read_check _ 0); reflexivity|].
    eapply rtc_l; [apply (s_write_cas _ 1 false); reflexivity|].
    eapply rtc_l; [apply (s_write_check _ 1); reflexivity|].
    eapply rtc_l; [apply (s_read_drop _ 0); reflexivity|]. apply rtc_refl.
  - intros k l l' t Hr Ho Hs. pose proof (rinv_reach k l Hr) as Hi.
    pose proof (orphaned_step _ _ Hi Ho Hs) as Ho'. split; [done|]. split.
    { destruct Ho' as [_ Hz]. pose proof (writes_le_writer (threads l')).
      pose proof (tally_nonneg writes (threads l') writes_nonneg). lia. }
    destruct Ho as [Hw Hz].
    destruct Hs as [u Hu|u Hu|u Hu|u b Hu|u Hu|u b Hu|u Hu|u Hu|u Hu|u Hu];
      pose proof (tally_lookup writer _ _ _ writer_nonneg Hu) as Hle; simpl in Hle; try (exfalso; lia);
      unfold read_add, read_check, read_back, write_cas, upgrade_cas, read_drop, goto;
      rewrite ?Hw; simpl; try case_decide; simpl;
      rewrite lookup_upd by (by eapply lookup_lt_Some); destruct (decide (t = u)) as [->|]; done.
Qed.

Lemma rwlock_exclusion_witness :
  rtc step (rw_new 2) (mkRw 0 true [WHeld; Out]) ∧
  (tally writes [WHeld; Out] = 1 → tally reads [WHeld; Out] = 0).
Proof.
  assert (Hr : rtc step (rw_new 2) (mkRw 0 true [WHeld; Out])).
  { eapply rtc_l; [apply (s_write_cas _ 0 false); reflexivity|].
    eapply rtc_l; [apply (s_write_check _ 0); reflexivity|]. apply rtc_refl. }
  split; [exact Hr|]. exact (proj1 (proj2 (rwlock_exclusion 2 _ Hr))).
Defined.
