(* ===== verification/Proc.v ===== *)
(** * The process table of [proc.rs]

    The table is a list of [NPROC] slots.  A slot has the fields that the
    slot's lock protects ([ProcInner]), the parent (protected by [wait_lock])
    and the private data.  Every function below is one critical section, or
    the whole function where its critical sections belong to the calling
    process alone.  Page tables, open files and inodes are abstract types;
    what the table asks of the page tables is the class [UserMemory]. *)

From S2P Require Import Prelude.

Open Scope Z_scope.

Definition NPROC : nat := 64.
Definition NOFILE : nat := 16.
Definition PGSIZE : Z := 4096.

Inductive ProcState := UNUSED | USED | SLEEPING | RUNNABLE | RUNNING | ZOMBIE.

#[export] Instance ProcState_eq_dec : EqDecision ProcState.
Proof. solve_decision. Defined.

Record ProcInner := mkInner {
  state : ProcState;
  chan : Z;
  killed : bool;
  xstate : Z;
  pid : Z;
}.

Definition inner_new : ProcInner := mkInner UNUSED 0 false 0 0.

(** What the process table asks of [vm.rs] and of the page allocator. *)
Class UserMemory (U T : Type) := {
  new_trapframe : option T;                       (* [Box::<Trapframe>::try_new_zeroed] *)
  set_a0 : T → Z → T;
  proc_uvmcreate : T → option U;
  uvm_copy : U → U → Z → result U unit;           (* parent, child, size: the child's table *)
  uvm_alloc : U → Z → Z → U * option Z;
  uvm_dealloc : U → Z → Z → U * Z;
  uvm_copyout : U → Z → Z → result U unit;        (* store an [i32] at a user address *)
}.

Section table.
Context {U T F I : Type} `{UserMemory U T}.

Record ProcData := mkData {
  kstack : Z;
  sz : Z;
  uvm : option U;
  trapframe : option T;
  ctx_ra : Z;
  ctx_sp : Z;
  name : string;
  ofile : list (option F);
  cwd : option I;
}.

Record Proc := mkProc {
  inner : ProcInner;
  parent : option nat;      (* the slot of the parent *)
  data : ProcData;
}.

Definition data_new (ks : Z) : ProcData := mkData ks 0 None None 0 0 "" (replicate NOFILE None) None.
Definition proc_new (ks : Z) : Proc := mkProc inner_new None (data_new ks).

Record Procs := mkProcs {
  pool : list Proc;
  nextid : Z;              (* [PId::alloc]'s counter *)
  initproc : nat;          (* the slot of [INITPROC] *)
}.

(** Field updates. *)
Definition set_state (i : ProcInner) (s : ProcState) : ProcInner :=
  mkInner s (chan i) (killed i) (xstate i) (pid i).
Definition set_chan (i : ProcInner) (c : Z) : ProcInner :=
  mkInner (state i) c (killed i) (xstate i) (pid i).
Definition set_killed (i : ProcInner) : ProcInner :=
  mkInner (state i) (chan i) true (xstate i) (pid i).
Definition set_inner (p : Proc) (i : ProcInner) : Proc := mkProc i (parent p) (data p).
Definition set_parent (p : Proc) (x : option nat) : Proc := mkProc (inner p) x (data p).
Definition set_data (p : Proc) (d : ProcData) : Proc := mkProc (inner p) (parent p) d.
Definition upd (ps : Procs) (i : nat) (p : Proc) : Procs :=
  mkProcs (<[i := p]> (pool ps)) (nextid ps) (initproc ps).

(** The address of a slot's [Proc], the channel its parent-side sleeps on. *)
Variable proc_addr : nat → Z.

(** [free_proc] *)
Definition free_proc (p : Proc) : Proc :=
  let d := data p in
  mkProc (mkInner UNUSED 0 false 0 0) None
    (mkData (kstack d) 0 None None (ctx_ra d) (ctx_sp d) "" (ofile d) (cwd d)).

(** [alloc_proc]: the loop over the pool, whose body returns in its first
    round.  The result is the slot. *)
Definition alloc_loop (fork_ret nid : Z) (i : nat) (l : list Proc) : list Proc * Z * option nat :=
  match l with
  | [] => ([], nid, None)
  | p :: l =>
      match state (inner p) with
      | UNUSED =>
          let inn := mkInner USED (chan (inner p)) (killed (inner p)) (xstate (inner p)) nid in
          let d := data p in
          match new_trapframe with
          | None => (free_proc (set_inner p inn) :: l, nid + 1, None)
          | Some tf =>
              match proc_uvmcreate tf with
              | None => (free_proc (set_inner p inn) :: l, nid + 1, None)
              | Some u =>
                  let d1 := mkData (kstack d) (sz d) (Some u) (Some tf) fork_ret (kstack d + PGSIZE)
                              (name d) (ofile d) (cwd d) in
                  (mkProc inn (parent p) d1 :: l, nid + 1, Some i)
              end
          end
      | _ => (p :: l, nid, None)
      end
  end.

Definition alloc_proc (fork_ret : Z) (ps : Procs) : Procs * option nat :=
  let '(l, nid, r) := alloc_loop fork_ret (nextid ps) 0 (pool ps) in
  (mkProcs l nid (initproc ps), r).

(** [wakeup]: [cur] is the slot of the process running on this cpu. *)
Definition wake_one (chn : Z) (cur : option nat) (i : nat) (p : Proc) : Proc :=
  match cur with
  | Some c =>
      if decide (i ≠ c ∧ state (inner p) = SLEEPING ∧ chan (inner p) = chn)
      then set_inner p (set_state (inner p) RUNNABLE) else p
  | None => p
  end.

Definition wakeup (cur : option nat) (chn : Z) (ps : Procs) : Procs :=
  mkProcs (imap (wake_one chn cur) (pool ps)) (nextid ps) (initproc ps).

(** [kill] *)
Fixpoint kill_loop (pd : Z) (l : list Proc) : option (list Proc) :=
  match l with
  | [] => None
  | p :: l =>
      if decide (pid (inner p) = pd) then
        let i := set_killed (inner p) in
        Some (set_inner p (if decide (state i = SLEEPING) then set_state i RUNNABLE else i) :: l)
      else match kill_loop pd l with Some l' => Some (p :: l') | None => None end
  end.

Definition kill (pd : Z) (ps : Procs) : Procs * result unit unit :=
  match kill_loop pd (pool ps) with
  | Some l => (mkProcs l (nextid ps) (initproc ps), Ok tt)
  | None => (ps, Err tt)
  end.

(** [reparent]: [for pp in pool], [k] slots left, starting at slot [j]. *)
Fixpoint reparent_loop (cur : option nat) (p : nat) (j k : nat) (ps : Procs) : Procs :=
  match k with
  | O => ps
  | S k =>
      let ps1 :=
        match pool ps !! j with
        | Some pp =>
            if decide (parent pp = Some p) then
              wakeup cur (proc_addr (initproc ps)) (upd ps j (set_parent pp (Some (initproc ps))))
            else ps
        | None => ps
        end in
      reparent_loop cur p (S j) k ps1
  end.

Definition reparent (cur : option nat) (p : nat) (ps : Procs) : Procs :=
  reparent_loop cur p 0 (length (pool ps)) ps.

(** [sleep] up to the call of [sched], and after it. *)
Definition sleep_enter (c : nat) (chn : Z) (ps : Procs) : Procs :=
  match pool ps !! c with
  | Some p => upd ps c (set_inner p (set_state (set_chan (inner p) chn) SLEEPING))
  | None => ps
  end.
Definition sleep_leave (c : nat) (ps : Procs) : Procs :=
  match pool ps !! c with
  | Some p => upd ps c (set_inner p (set_chan (inner p) 0))
  | None => ps
  end.

Definition yielding (c : nat) (ps : Procs) : Procs :=
  match pool ps !! c with
  | Some p => upd ps c (set_inner p (set_state (inner p) RUNNABLE))
  | None => ps
  end.

(** [grow_proc]: [None] for the arithmetic overflow of [sz + n]. *)
Definition grow_proc (c : nat) (n : Z) (ps : Procs) : outcome (Procs * result unit unit) :=
  match pool ps !! c with
  | None => Panic "no such process"
  | Some p =>
      let d := data p in
      match uvm d with
      | None => Panic "called `Option::unwrap()` on a `None` value"
      | Some u =>
          let put u' s := upd ps c (set_data p (mkData (kstack d) s (Some u') (trapframe d)
                            (ctx_ra d) (ctx_sp d) (name d) (ofile d) (cwd d))) in
          if decide (0 < n) then
            new ← checked_add (sz d) n;
            match uvm_alloc u (sz d) new with
            | (u', Some s) => Done (put u' s, Ok tt)
            | (u', None) => Done (put u' (sz d), Err tt)
            end
          else if decide (n < 0) then
            let '(u', s) := uvm_dealloc u (sz d) (wrap64 (sz d + n)) in Done (put u' s, Ok tt)
          else Done (put u (sz d), Ok tt)
      end
  end.

(** [fork], in its three parts: up to the release of the child's lock, the
    link to the parent under [wait_lock], and making the child runnable. *)
Definition fork_setup (fork_ret : Z) (c : nat) (ps : Procs) : outcome (Procs * option nat) :=
  match pool ps !! c with
  | None => Panic "no such process"
  | Some p =>
      let '(ps1, r) := alloc_proc fork_ret ps in
      match r with
      | None => Done (ps1, None)
      | Some i =>
          match pool ps1 !! i, uvm (data p), trapframe (data p) with
          | Some np, Some u, Some tf =>
              match uvm (data np) with
              | None => Panic "called `Option::unwrap()` on a `None` value"
              | Some nu =>
                  match uvm_copy u nu (sz (data p)) with
                  | Err _ => Done (upd ps1 i (free_proc np), None)
                  | Ok nu' =>
                      let d := data np in
                      let nd := mkData (kstack d) (sz (data p)) (Some nu') (Some (set_a0 tf 0))
                                  (ctx_ra d) (ctx_sp d) (name d +:+ name (data p))
                                  (ofile (data p)) (cwd (data p)) in
                      Done (upd ps1 i (set_data np nd), Some i)
                  end
              end
          | _, _, _ => Panic "called `Option::unwrap()` on a `None` value"
          end
      end
  end.

Definition fork_link (c i : nat) (ps : Procs) : Procs :=
  match pool ps !! i with Some np => upd ps i (set_parent np (Some c)) | None => ps end.

Definition fork_start (i : nat) (ps : Procs) : Procs :=
  match pool ps !! i with
  | Some np => upd ps i (set_inner np (set_state (inner np) RUNNABLE))
  | None => ps
  end.

Definition fork (fork_ret : Z) (c : nat) (ps : Procs) : outcome (Procs * result Z unit) :=
  '(ps1, r) ← fork_setup fork_ret c ps;
  match r with
  | None => Done (ps1, Err tt)
  | Some i =>
      match pool ps1 !! i with
      | Some np => Done (fork_start i (fork_link c i ps1), Ok (pid (inner np)))
      | None => Panic "no such process"
      end
  end.

(** [exit] up to [sched]: closing the files and dropping [cwd] (between
    [begin_op] and [end_op]), then the section under [wait_lock]. *)
Definition exit_close (c : nat) (ps : Procs) : outcome Procs :=
  if decide (c = initproc ps) then Panic "init exiting"
  else
    match pool ps !! c with
    | None => Panic "no such process"
    | Some p =>
        let d := data p in
        Done (upd ps c (set_data p (mkData (kstack d) (sz d) (uvm d) (trapframe d) (ctx_ra d)
               (ctx_sp d) (name d) (replicate (length (ofile d)) None) None)))
    end.

Definition exit_finish (c : nat) (status : Z) (ps : Procs) : outcome Procs :=
  let ps1 := reparent (Some c) c ps in
  match pool ps1 !! c with
  | None => Panic "no such process"
  | Some p =>
      match parent p with
      | None => Panic "called `Option::unwrap()` on a `None` value"
      | Some pp =>
          let ps2 := wakeup (Some c) (proc_addr pp) ps1 in
          match pool ps2 !! c with
          | None => Panic "no such process"
          | Some p2 =>
              let i := inner p2 in
              Done (upd ps2 c (set_inner p2 (mkInner ZOMBIE (chan i) (killed i) status (pid i))))
          end
      end
  end.

Definition exit (c : nat) (status : Z) (ps : Procs) : outcome Procs :=
  ps1 ← exit_close c ps; exit_finish c status ps1.

(** One scan of [wait] under [wait_lock]: the slots from [j] on. *)
Inductive scan_result :=
  | Reaped (pd : Z)           (* the child was freed *)
  | CopyFailed
  | Kids (havekids : bool).   (* no zombie child *)

Fixpoint wait_scan (c : nat) (addr : Z) (havekids : bool) (l : list Proc)
    : outcome (list Proc * scan_result) :=
  match l with
  | [] => Done ([], Kids havekids)
  | np :: l =>
      if decide (parent np = Some c) then
        if decide (state (inner np) = ZOMBIE) then
          match uvm (data np) with
          | None => Panic "called `Option::unwrap()` on a `None` value"
          | Some u =>
              match uvm_copyout u addr (xstate (inner np)) with
              | Err _ => Done (np :: l, CopyFailed)
              | Ok _ => Done (free_proc np :: l, Reaped (pid (inner np)))
              end
          end
        else
          '(l', r) ← wait_scan c addr true l; Done (np :: l', r)
      else
        '(l', r) ← wait_scan c addr havekids l; Done (np :: l', r)
  end.

(** One round of [wait]: [None] when the caller goes to sleep on its own
    address and scans again. *)
Definition wait_round (c : nat) (addr : Z) (havekids : bool) (ps : Procs)
    : outcome (Procs * option (option Z)) :=
  '(l, r) ← wait_scan c addr havekids (pool ps);
  let ps1 := mkProcs l (nextid ps) (initproc ps) in
  match r with
  | Reaped pd => Done (ps1, Some (Some pd))
  | CopyFailed => Done (ps1, Some None)
  | Kids hk =>
      match l !! c with
      | None => Panic "no such process"
      | Some p =>
          if negb hk || killed (inner p) then Done (ps1, Some None)
          else Done (sleep_enter c (proc_addr c) ps1, None)
      end
  end.

(** The scheduler takes a runnable slot. *)
Definition sched_pick (i : nat) (ps : Procs) : option Procs :=
  match pool ps !! i with
  | Some p =>
      if decide (state (inner p) = RUNNABLE)
      then Some (upd ps i (set_inner p (set_state (inner p) RUNNING))) else None
  | None => None
  end.
End table.
Arguments Proc : clear implicits.
Arguments ProcData : clear implicits.
Arguments Procs : clear implicits.

(** ** The first process *)

(** [Trapframe] and page tables as [user_init] uses them. *)
Class FirstProcess (U T I : Type) := {
  u_init : U → list Z → outcome U;      (* [Uvm::init] *)
  tf_begin : T → Z → Z → T;             (* [epc] and [sp] *)
  root_dir : option I;                  (* [Path::new("/").namei()] *)
}.

Definition INITCODE : list Z :=
  [23; 5; 0; 0; 19; 5; 69; 2; 151; 5; 0; 0; 147; 133; 53; 2;
   147; 8; 112; 0; 115; 0; 0; 0; 147; 8; 32; 0; 115; 0; 0; 0;
   239; 240; 159; 255; 47; 105; 110; 105; 116; 0; 0; 36; 0; 0; 0; 0;
   0; 0; 0; 0].

Section first.
Context {U T F I : Type} `{!UserMemory U T, !FirstProcess U T I}.

(** [user_init]; [set]: [INITPROC] has a value already. *)
Definition user_init (fork_ret : Z) (set : bool) (ps : Procs U T F I) : outcome (Procs U T F I) :=
  let '(ps1, r) := alloc_proc fork_ret ps in
  match r with
  | None => Panic "called `Option::unwrap()` on a `None` value"
  | Some i =>
      if set then Panic "called `Result::unwrap()` on an `Err` value"
      else
        match pool ps1 !! i with
        | None => Panic "no such process"
        | Some p =>
            let d := data p in
            match uvm d, trapframe d with
            | Some u, Some tf =>
                u1 ← u_init u INITCODE;
                let d1 := mkData (kstack d) PGSIZE (Some u1) (Some (tf_begin tf 0 PGSIZE)) (ctx_ra d) (ctx_sp d)
                            (name d +:+ "initcode") (ofile d) root_dir in
                Done (mkProcs (<[i := mkProc (set_state (inner p) RUNNABLE) (parent p) d1]> (pool ps1))
                        (nextid ps1) i)
            | _, _ => Panic "called `Option::unwrap()` on a `None` value"
            end
        end
  end.
End first.
