(* ===== verification/ProcSpec.v ===== *)
(** * Properties of the process table

    [Proc] translates [proc.rs].  Here: what [wakeup], [kill] and [reparent]
    change and what they leave alone, the life cycle of a slot as a step
    relation, the uniqueness of process ids, and the handshake between [exit]
    and [wait]. *)

From S2P Require Import Prelude Proc.

Open Scope Z_scope.

Section spec.
Context {U T F I : Type} `{UserMemory U T}.
Variable proc_addr : nat → Z.
Implicit Types (ps : Procs U T F I) (p : Proc U T F I).

(** ** [wakeup] *)
Lemma wakeup_lookup cur chn ps i :
  pool (wakeup cur chn ps) !! i = wake_one chn cur i <$> pool ps !! i.
Proof. unfold wakeup. cbn [pool]. apply list_lookup_imap. Qed.

Lemma wake_one_same chn cur i p :
  state (inner p) ≠ SLEEPING → wake_one chn cur i p = p.
Proof. intros Hs. unfold wake_one. destruct cur; [|done]. rewrite decide_False; naive_solver. Qed.

Lemma wake_one_parent chn cur i p : parent (wake_one chn cur i p) = parent p ∧ data (wake_one chn cur i p) = data p.
Proof. unfold wake_one. destruct cur; [case_decide|]; done. Qed.

Lemma wake_one_pid chn cur i p : pid (inner (wake_one chn cur i p)) = pid (inner p).
Proof. unfold wake_one. destruct cur; [case_decide|]; done. Qed.

Lemma upd_lookup ps i p j :
  (i < length (pool ps))%nat →
  pool (upd ps i p) !! j = if decide (j = i) then Some p else pool ps !! j.
Proof. intros Hi. unfold upd. cbn [pool]. by apply lookup_upd. Qed.

(** ** Edges of the life cycle

    [user_init] takes the first slot from [UNUSED] to [RUNNABLE] without letting
    go of its lock. *)
Definition edge (a b : ProcState) : bool :=
  match a, b with
  | UNUSED, USED | USED, UNUSED | USED, RUNNABLE | UNUSED, RUNNABLE
  | RUNNABLE, RUNNING | RUNNING, RUNNABLE | RUNNING, SLEEPING | RUNNING, ZOMBIE
  | SLEEPING, RUNNABLE | ZOMBIE, UNUSED => true
  | _, _ => bool_decide (a = b)
  end.

Lemma edge_refl a : edge a a = true.
Proof. by destruct a. Qed.

(** [moves ps ps']: every slot keeps its place and moves along an edge, and
    process ids change only when a slot is taken or freed. *)
Definition slot_moves (nid nid' : Z) p p' : Prop :=
  edge (state (inner p)) (state (inner p')) = true ∧
  (state (inner p') = UNUSED ∨ pid (inner p') = pid (inner p) ∧ state (inner p) ≠ UNUSED ∨
   nid ≤ pid (inner p') < nid' ∧ state (inner p) = UNUSED).

Definition moves ps ps' : Prop :=
  nextid ps ≤ nextid ps' ∧
  (nextid ps' = nextid ps ∨ ∃ k, ∀ j, j ≠ k → pool ps' !! j = pool ps !! j) ∧
  ∀ i, match pool ps !! i, pool ps' !! i with
       | Some p, Some p' => slot_moves (nextid ps) (nextid ps') p p'
       | None, None => True
       | _, _ => False
       end.

Lemma slot_moves_refl nid nid' p : slot_moves nid nid' p p.
Proof.
  split; [apply edge_refl|]. destruct (decide (state (inner p) = UNUSED)); auto.
Qed.

Lemma slot_moves_keep nid nid' p p' :
  state (inner p) ≠ UNUSED → pid (inner p') = pid (inner p) →
  edge (state (inner p)) (state (inner p')) = true → slot_moves nid nid' p p'.
Proof. intros ? ? ?. split; auto. Qed.

Lemma wakeup_moves cur chn ps : moves ps (wakeup cur chn ps).
Proof.
  split_and!; [done|by left|]. intros i. rewrite wakeup_lookup. destruct (pool ps !! i) as [p|]; [|done]. simpl.
  unfold wake_one. destruct cur as [c|]; [|apply slot_moves_refl].
  case_decide as Hd; [|apply slot_moves_refl]. destruct Hd as (_ & Hs & _).
  apply slot_moves_keep; simpl; by rewrite ?Hs.
Qed.

(** One slot is rewritten. *)
Lemma upd_moves ps i p p' :
  pool ps !! i = Some p → slot_moves (nextid ps) (nextid ps) p p' → moves ps (upd ps i p').
Proof.
  intros Hi Hm. split_and!; [done|by left|]. intros j. cbn [nextid upd].
  rewrite upd_lookup by (by eapply lookup_lt_Some).
  destruct (decide (j = i)) as [->|]; [by rewrite Hi|].
  destruct (pool ps !! j); [apply slot_moves_refl|done].
Qed.

Lemma kill_loop_lookup pd l l' :
  kill_loop pd l = Some l' →
  ∃ k p, l !! k = Some p ∧ pid (inner p) = pd ∧
    (∀ j q, (j < k)%nat → l !! j = Some q → pid (inner q) ≠ pd) ∧
    l' = <[k := set_inner p (if decide (state (inner p) = SLEEPING)
                             then set_state (set_killed (inner p)) RUNNABLE
                             else set_killed (inner p))]> l.
Proof.
  revert l'. induction l as [|p l IH]; intros l'; simpl; [done|].
  destruct (decide (pid (inner p) = pd)) as [Hp|Hp].
  - intros [= <-]. exists 0%nat, p. split_and!; [done|done|lia|done].
  - destruct (kill_loop pd l) as [l1|]; [|done]. intros [= <-].
    destruct (IH l1 eq_refl) as (k & q & Hk & Hq & Hfirst & ->). exists (S k), q.
    split_and!; [done|done| |done]. intros [|j] r Hj Hr; simplify_eq/=; [done|].
    apply (Hfirst j); [lia|done].
Qed.

Lemma kill_loop_none pd l : kill_loop pd l = None ↔ Forall (λ p : Proc U T F I, pid (inner p) ≠ pd) l.
Proof.
  induction l as [|p l IH]; simpl; [done|]. rewrite Forall_cons.
  destruct (decide (pid (inner p) = pd)); [naive_solver|].
  destruct (kill_loop pd l); naive_solver.
Qed.

Lemma kill_moves pd ps : moves ps (kill pd ps).1.
Proof.
  unfold kill. destruct (kill_loop pd (pool ps)) as [l|] eqn:E; simpl.
  - destruct (kill_loop_lookup _ _ _ E) as (k & p & Hk & _ & _ & ->).
    apply (upd_moves ps k p); [done|]. split; cbn [inner set_inner].
    + case_decide as Hs; [by rewrite Hs|apply edge_refl].
    + destruct (decide (state (inner p) = UNUSED)) as [Hu|Hu].
      * left. rewrite decide_False by (by rewrite Hu). done.
      * right; left. split; [by case_decide|done].
  - split_and!; [done|by left|]. intros i. destruct (pool ps !! i); [apply slot_moves_refl|done].
Qed.

(** ** [reparent] *)
(** What a round of [reparent] or [wakeup] may do to a slot. *)
Record same_slot (p p' : Proc U T F I) : Prop := {
  ss_pid : pid (inner p') = pid (inner p);
  ss_data : data p' = data p;
  ss_xstate : xstate (inner p') = xstate (inner p);
  ss_state : inner p' = inner p ∨
    state (inner p) = SLEEPING ∧ inner p' = set_state (inner p) RUNNABLE;
}.

Lemma same_slot_refl p : same_slot p p.
Proof. split; auto. Qed.

Lemma same_slot_trans p p' p'' : same_slot p p' → same_slot p' p'' → same_slot p p''.
Proof.
  intros [A1 A2 A3 A4] [B1 B2 B3 B4]. split; try congruence.
  destruct A4 as [A4|[A4 A4']], B4 as [B4|[B4 B4']]; rewrite ?A4, ?A4' in *; simpl in *; auto; try done.
Qed.

Lemma wake_one_slot chn cur i p : same_slot p (wake_one chn cur i p).
Proof.
  unfold wake_one. destruct cur; [|apply same_slot_refl].
  case_decide as Hd; [|apply same_slot_refl]. split; simpl; auto. right. naive_solver.
Qed.

Lemma wakeup_slot cur chn ps i q :
  pool ps !! i = Some q →
  ∃ q', pool (wakeup cur chn ps) !! i = Some q' ∧ same_slot q q' ∧ parent q' = parent q.
Proof.
  intros Hi. rewrite wakeup_lookup, Hi. eexists. split; [done|].
  split; [apply wake_one_slot|apply wake_one_parent].
Qed.

Definition in_range (j k i : nat) : Prop := (j ≤ i < j + k)%nat.

Lemma reparent_loop_spec cur c j k ps :
  initproc ps ≠ c →
  let ps' := reparent_loop proc_addr cur c j k ps in
  initproc ps' = initproc ps ∧ nextid ps' = nextid ps ∧ length (pool ps') = length (pool ps) ∧
  ∀ i q, pool ps !! i = Some q → ∃ q', pool ps' !! i = Some q' ∧ same_slot q q' ∧
    parent q' = if decide (in_range j k i ∧ parent q = Some c) then Some (initproc ps) else parent q.
Proof.
  intros Hc. revert j ps Hc. induction k as [|k IH]; intros j ps Hc; cbn [reparent_loop].
  { split_and!; try done. intros i q Hi. exists q. split_and!; [done|apply same_slot_refl|].
    rewrite decide_False; [done|]. unfold in_range. lia. }
  set (ps1 := match pool ps !! j with Some _ => _ | None => _ end).
  assert (H1 : initproc ps1 = initproc ps ∧ nextid ps1 = nextid ps ∧
    length (pool ps1) = length (pool ps) ∧
    ∀ i q, pool ps !! i = Some q → ∃ q', pool ps1 !! i = Some q' ∧ same_slot q q' ∧
      parent q' = if decide (i = j ∧ parent q = Some c) then Some (initproc ps) else parent q).
  { unfold ps1. destruct (pool ps !! j) as [pp|] eqn:Hj.
    2: { split_and!; try done. intros i q Hi. exists q. split_and!; [done|apply same_slot_refl|].
         rewrite decide_False; [done|]. intros [-> _]. congruence. }
    destruct (decide (parent pp = Some c)) as [Hp|Hp].
    2: { split_and!; try done. intros i q Hi. exists q. split_and!; [done|apply same_slot_refl|].
         rewrite decide_False; [done|]. intros [-> ?]. congruence. }
    split_and!; [done|done|cbn; by rewrite length_imap, length_insert|].
    intros i q Hi. pose proof (lookup_lt_Some _ _ _ Hj) as Hlt.
    destruct (decide (i = j)) as [->|Hne].
    - rewrite Hj in Hi. injection Hi as <-.
      destruct (wakeup_slot cur (proc_addr (initproc ps))
        (upd ps j (set_parent pp (Some (initproc ps)))) j (set_parent pp (Some (initproc ps))))
        as (q' & Hq' & Hs & Hpar); [rewrite upd_lookup by done; by rewrite decide_True|].
      exists q'. split_and!; [done|by destruct Hs; split|]. rewrite Hpar, decide_True by done. done.
    - destruct (wakeup_slot cur (proc_addr (initproc ps))
        (upd ps j (set_parent pp (Some (initproc ps)))) i q)
        as (q' & Hq' & Hs & Hpar); [rewrite upd_lookup by done; by rewrite decide_False|].
      exists q'. split_and!; [done|done|]. rewrite Hpar, decide_False by naive_solver. done. }
  destruct H1 as (Hi1 & Hn1 & Hl1 & Hs1).
  destruct (IH (S j) ps1) as (Hi2 & Hn2 & Hl2 & Hs2); [by rewrite Hi1|].
  split_and!; [congruence|congruence|congruence|].
  intros i q Hi. destruct (Hs1 i q Hi) as (q1 & Hq1 & S1 & P1).
  destruct (Hs2 i q1 Hq1) as (q2 & Hq2 & S2 & P2). exists q2.
  split_and!; [done|by eapply same_slot_trans|]. rewrite P2, P1, Hi1. unfold in_range.
  destruct (decide (i = j ∧ parent q = Some c)) as [[-> Hp]|Hnp].
  - rewrite (decide_False (P := (S j ≤ j < S j + k)%nat ∧ _)) by lia.
    by rewrite decide_True by (split; [lia|done]).
  - destruct (decide ((S j ≤ i < S j + k)%nat ∧ parent q = Some c)) as [[? ?]|Hn2'].
    + rewrite decide_True by (split; [lia|done]). done.
    + rewrite decide_False; [done|]. intros [? ?].
      destruct (decide (i = j)); [naive_solver|]. apply Hn2'. split; [lia|done].
Qed.

Lemma reparent_spec cur c ps :
  initproc ps ≠ c →
  let ps' := reparent proc_addr cur c ps in
  initproc ps' = initproc ps ∧ nextid ps' = nextid ps ∧ length (pool ps') = length (pool ps) ∧
  ∀ i q, pool ps !! i = Some q → ∃ q', pool ps' !! i = Some q' ∧ same_slot q q' ∧
    parent q' = if decide (parent q = Some c) then Some (initproc ps) else parent q.
Proof.
  intros Hc. destruct (reparent_loop_spec cur c 0 (length (pool ps)) ps Hc) as (H1 & H2 & H3 & H4).
  split_and!; try done. intros i q Hi. destruct (H4 i q Hi) as (q' & Hq & Hs & Hp).
  exists q'. split_and!; [done|done|]. rewrite Hp. apply lookup_lt_Some in Hi.
  destruct (decide (parent q = Some c)).
  - rewrite decide_True; [done|]. unfold in_range. split; [lia|done].
  - rewrite decide_False; [done|]. naive_solver.
Qed.

Lemma same_slot_moves nid nid' p p' : same_slot p p' → slot_moves nid nid' p p'.
Proof.
  intros [Hpid _ _ [Hs|[Hs Hs']]].
  - split; [rewrite Hs; apply edge_refl|]. rewrite Hs.
    destruct (decide (state (inner p) = UNUSED)); auto.
  - apply slot_moves_keep; [by rewrite Hs|done|by rewrite Hs', Hs].
Qed.

(** ** [wait] *)
Definition child (c : nat) p : Prop := parent p = Some c.

Lemma wait_scan_spec c addr hk (l l' : list (Proc U T F I)) r :
  wait_scan c addr hk l = Done (l', r) →
  match r with
  | Reaped pd => ∃ k p, l !! k = Some p ∧ child c p ∧ state (inner p) = ZOMBIE ∧
      pid (inner p) = pd ∧ l' = <[k := free_proc p]> l ∧
      (∀ j q, (j < k)%nat → l !! j = Some q → child c q → state (inner q) ≠ ZOMBIE) ∧
      ∃ u u', uvm (data p) = Some u ∧ uvm_copyout u addr (xstate (inner p)) = Ok u'
  | CopyFailed => l' = l
  | Kids hk' => l' = l ∧ (∀ k p, l !! k = Some p → child c p → state (inner p) ≠ ZOMBIE) ∧
      (hk' = true ↔ hk = true ∨ ∃ k p, l !! k = Some p ∧ child c p)
  end.
Proof.
  revert hk l' r. induction l as [|p l IH]; intros hk l' r; cbn [wait_scan].
  { intros Hd. inv_done. split_and!; [done|done|]. split; [auto|]. intros [|(k & p & Hk & _)]; done. }
  destruct (decide (parent p = Some c)) as [Hp|Hp].
  - destruct (decide (state (inner p) = ZOMBIE)) as [Hz|Hz].
    + destruct (uvm (data p)) as [u|] eqn:Hu; [|done]. destruct (uvm_copyout u addr _) as [u'|] eqn:Hc; intros Hd; inv_done.
      * exists 0%nat, p. split_and!; try done; [intros; lia|by exists u, u'].
      * done.
    + intros Hd. inv_done. apply IH in Ha. destruct r as [pd| |hk'].
      * destruct Ha as (k & q & ? & ? & ? & ? & -> & Hf & ?). exists (S k), q. split_and!; try done.
        intros [|j] q' Hj Hq'; simplify_eq/=; [done|]. apply (Hf j); [lia|done].
      * by subst.
      * destruct Ha as (-> & Hno & Hk). split_and!; [done| |].
        -- intros [|k] q Hq; simplify_eq/=; [done|by eapply Hno].
        -- split; [|intros _; apply Hk; auto]. intros _. right. by exists 0%nat, p.
  - intros Hd. inv_done. apply IH in Ha. destruct r as [pd| |hk'].
    + destruct Ha as (k & q & ? & ? & ? & ? & -> & Hf & ?). exists (S k), q. split_and!; try done.
      intros [|j] q' Hj Hq'; simplify_eq/=; [done|]. apply (Hf j); [lia|done].
    + by subst.
    + destruct Ha as (-> & Hno & Hk). split_and!; [done| |].
      * intros [|k] q Hq; simplify_eq/=; [done|by eapply Hno].
      * rewrite Hk. split.
        -- intros [|(k & q & ? & ?)]; [auto|right; by exists (S k), q].
        -- intros [|([|k] & q & Hq & ?)]; simplify_eq/=; [auto|right; eauto].
Qed.

Lemma free_moves nid nid' p : state (inner p) = ZOMBIE → slot_moves nid nid' p (free_proc p).
Proof. intros Hz. split; [cbn; by rewrite Hz|]. by left. Qed.

Lemma wait_round_moves c addr hk ps ps' r :
  (∀ p, pool ps !! c = Some p → state (inner p) = RUNNING) →
  wait_round proc_addr c addr hk ps = Done (ps', r) → moves ps ps'.
Proof.
  intros Hc Hw. unfold wait_round in Hw. inv_done. apply wait_scan_spec in Ha.
  assert (Hrefl : moves ps ps).
  { split_and!; [done|by left|]. intros i. destruct (pool ps !! i); [apply slot_moves_refl|done]. }
  destruct s as [pd| |hk'].
  - inv_done. destruct Ha as (k & p & Hk & _ & Hz & _ & -> & _).
    apply (upd_moves ps k p); [done|by apply free_moves].
  - inv_done. subst. by destruct ps.
  - destruct Ha as (-> & _ & _). destruct (pool ps !! c) as [p|] eqn:Hp; [|done].
    destruct (negb hk' || killed (inner p)); inv_done; [by destruct ps|].
    unfold sleep_enter. cbn [pool]. rewrite Hp.
    apply (upd_moves ps c p); [done|]. specialize (Hc p eq_refl).
    apply slot_moves_keep; cbn; by rewrite ?Hc.
Qed.

(** ** [alloc_proc] and [fork] *)
Lemma alloc_proc_spec fr ps ps' r :
  alloc_proc fr ps = (ps', r) →
  initproc ps' = initproc ps ∧ moves ps ps' ∧
  match r with
  | Some i => i = 0%nat ∧ ∃ p p', pool ps !! 0%nat = Some p ∧ state (inner p) = UNUSED ∧
      pool ps' = <[0%nat := p']> (pool ps) ∧ state (inner p') = USED ∧
      pid (inner p') = nextid ps ∧ nextid ps' = nextid ps + 1 ∧
      is_Some (uvm (data p')) ∧ is_Some (trapframe (data p'))
  | None => True
  end.
Proof.
  unfold alloc_proc, alloc_loop. destruct (pool ps) as [|p l] eqn:Hl.
  { intros [= <- <-]. split_and!; try done. split_and!; [done|by left|]. intros i. by rewrite Hl. }
  assert (Hm : ∀ p' d, 0 ≤ d → slot_moves (nextid ps) (nextid ps + d) p p' →
    moves ps (mkProcs (p' :: l) (nextid ps + d) (initproc ps))).
  { intros p' d Hd Hs. split_and!; [cbn; lia|right; exists 0%nat; intros [|j] Hj; rewrite Hl; done|].
    intros [|i]; rewrite Hl; cbn; [done|].
    destruct (l !! i); [apply slot_moves_refl|done]. }
  assert (Hm0 : moves ps (mkProcs (p :: l) (nextid ps) (initproc ps))).
  { rewrite <-(Z.add_0_r (nextid ps)). apply Hm; [done|apply slot_moves_refl]. }
  destruct (state (inner p)) eqn:Hst;
    try (intros [= <- <-]; split_and!; [done|exact Hm0|done]).
  destruct new_trapframe as [tf|]; [destruct (proc_uvmcreate tf) as [u|]|]; intros [= <- <-].
  - split_and!; try done.
    + apply Hm; [lia|]. split; [cbn; by rewrite Hst|]. right; right. cbn. split; [lia|done].
    + exists p. eexists. cbn. split_and!; try done.
  - split_and!; try done. apply Hm; [lia|]. split; [cbn; by rewrite Hst|]. by left.
  - split_and!; try done. apply Hm; [lia|]. split; [cbn; by rewrite Hst|]. by left.
Qed.

Lemma fork_setup_moves fr c ps ps' r : fork_setup fr c ps = Done (ps', r) → moves ps ps'.
Proof.
  unfold fork_setup. destruct (pool ps !! c) as [p|]; [|done].
  destruct (alloc_proc fr ps) as [ps1 [i|]] eqn:Ha; apply alloc_proc_spec in Ha as (Hi & Hm & Hr);
    [|intros ?; inv_done; done].
  destruct Hr as (-> & q & q' & Hq & Hu & Hp1 & Hst & Hpid & Hnid & _).
  assert (Hlt : (0 < length (pool ps))%nat) by (by eapply lookup_lt_Some).
  assert (Hlk : pool ps1 !! 0%nat = Some q')
    by (rewrite Hp1, lookup_upd by done; by rewrite decide_True).
  assert (Hfin : ∀ x, slot_moves (nextid ps) (nextid ps1) q x → moves ps (upd ps1 0 x)).
  { intros x Hx. split_and!; [cbn; lia| |].
    - right. exists 0%nat. intros j Hj. cbn. rewrite Hp1, list_insert_insert_eq.
      by rewrite lookup_upd, decide_False.
    - intros j. cbn. rewrite Hp1, list_insert_insert_eq, lookup_upd by done.
      destruct (decide (j = 0%nat)) as [->|]; [by rewrite Hq|].
      destruct (pool ps !! j); [apply slot_moves_refl|done]. }
  rewrite Hlk. destruct (uvm (data p)) as [u|]; [|done]. destruct (trapframe (data p)) as [tf|]; [|done].
  destruct (uvm (data q')) as [nu|]; [|done].
  destruct (uvm_copy u nu (sz (data p))); intros Hd; inv_done; apply Hfin.
  - split; cbn; [by rewrite Hu, Hst|]. right; right. split; [lia|done].
  - split; cbn; [by rewrite Hu|]. by left.
Qed.

Lemma user_init_moves `{!FirstProcess U T I} fr set ps ps' : user_init fr set ps = Done ps' → moves ps ps'.
Proof.
  unfold user_init. destruct (alloc_proc fr ps) as [ps1 [i|]] eqn:Ha; [|done].
  apply alloc_proc_spec in Ha as (_ & _ & -> & q & q' & Hq & Hu & Hp1 & _ & Hpid & Hnid & _).
  destruct set; [done|]. assert (Hlt : (0 < length (pool ps))%nat) by (by eapply lookup_lt_Some).
  rewrite Hp1, lookup_upd, decide_True by done. destruct (uvm (data q')) as [u|]; [|done].
  destruct (trapframe (data q')) as [tf|]; [|done]. intros Hd. inv_done. rewrite list_insert_insert_eq.
  split_and!; [cbn; lia| |].
  - right. exists 0%nat. intros j Hj. cbn. by rewrite lookup_upd, decide_False.
  - intros j. cbn. rewrite lookup_upd by done. destruct (decide (j = 0%nat)) as [->|].
    + rewrite Hq. split; [cbn; by rewrite Hu|]. right; right. cbn. split; [lia|done].
    + destruct (pool ps !! j); [apply slot_moves_refl|done].
Qed.

(** ** [exit] *)
Lemma exit_finish_done c status ps p pp :
  initproc ps ≠ c → pool ps !! c = Some p → parent p = Some pp → ∃ ps', exit_finish proc_addr c status ps = Done ps'.
Proof.
  intros Hc Hp Hpp. unfold exit_finish. destruct (reparent_spec (Some c) c ps Hc) as (_ & _ & _ & Hs).
  destruct (Hs c p Hp) as (p1 & Hp1 & _ & Hpar). rewrite Hp1. rewrite Hpp in Hpar.
  destruct (parent p1) as [x|]; [|by case_decide].
  destruct (wakeup_slot (Some c) (proc_addr x) _ c p1 Hp1) as (p2 & -> & _). by eexists.
Qed.

Lemma exit_finish_spec c status ps ps' :
  initproc ps ≠ c → exit_finish proc_addr c status ps = Done ps' →
  ∃ p pp, pool ps !! c = Some p ∧ parent p = Some pp ∧
    initproc ps' = initproc ps ∧ nextid ps' = nextid ps ∧ length (pool ps') = length (pool ps) ∧
    (∀ i q, i ≠ c → pool ps !! i = Some q → ∃ q', pool ps' !! i = Some q' ∧ same_slot q q' ∧
       parent q' = (if decide (parent q = Some c) then Some (initproc ps) else parent q) ∧
       (i = (if decide (pp = c) then initproc ps else pp) → state (inner q) = SLEEPING →
        chan (inner q) = proc_addr i → state (inner q') = RUNNABLE)) ∧
    ∃ p', pool ps' !! c = Some p' ∧ state (inner p') = ZOMBIE ∧ xstate (inner p') = status ∧
      pid (inner p') = pid (inner p) ∧ data p' = data p ∧
      parent p' = Some (if decide (pp = c) then initproc ps else pp).
Proof.
  intros Hc. unfold exit_finish.
  destruct (reparent_spec (Some c) c ps Hc) as (Hi1 & Hn1 & Hl1 & Hs1).
  set (ps1 := reparent proc_addr (Some c) c ps) in *.
  destruct (pool ps1 !! c) as [p1|] eqn:Hp1; [|done].
  destruct (lookup_lt_is_Some_2 (pool ps) c) as [p Hp].
  { rewrite <-Hl1. by eapply lookup_lt_Some. }
  destruct (Hs1 c p Hp) as (p1' & Hp1' & S1 & P1). rewrite Hp1 in Hp1'. injection Hp1' as <-.
  destruct (parent p1) as [pp'|] eqn:Hpar; [|done].
  set (ps2 := wakeup (Some c) (proc_addr pp') ps1).
  destruct (wakeup_slot (Some c) (proc_addr pp') ps1 c p1 Hp1) as (p2 & Hp2 & S2 & P2).
  fold ps2 in Hp2. rewrite Hp2. intros [= <-].
  destruct (parent p) as [pp|] eqn:Hpp.
  2: { rewrite decide_False in P1 by done. congruence. }
  assert (Hpp' : pp' = if decide (pp = c) then initproc ps else pp).
  { destruct (decide (pp = c)) as [->|]; [rewrite decide_True in P1 by done|
      rewrite decide_False in P1 by congruence]; congruence. }
  exists p, pp. split_and!; try done.
  - unfold upd, ps2, wakeup. cbn [pool]. by rewrite length_insert, length_imap.
  - intros i q Hic Hq. destruct (Hs1 i q Hq) as (q1 & Hq1 & Sq1 & Pq1).
    destruct (wakeup_slot (Some c) (proc_addr pp') ps1 i q1 Hq1) as (q2 & Hq2 & Sq2 & Pq2).
    exists q2. split_and!.
    + rewrite upd_lookup by (by eapply lookup_lt_Some). by rewrite decide_False.
    + by eapply same_slot_trans.
    + by rewrite Pq2, Pq1.
    + intros Hpi Hsl Hch. rewrite <-Hpp' in Hpi. subst i.
      rewrite wakeup_lookup, Hq1 in Hq2. cbn in Hq2. injection Hq2 as <-.
      destruct (ss_state _ _ Sq1) as [He|[_ He]].
      * rewrite decide_True by (rewrite He; auto). done.
      * rewrite decide_False by (rewrite He; cbn; naive_solver). by rewrite He.
  - eexists. split; [rewrite upd_lookup by (by eapply lookup_lt_Some); by rewrite decide_True|].
    cbn. split_and!; try done.
    + rewrite (ss_pid _ _ S2). apply (ss_pid _ _ S1).
    + rewrite (ss_data _ _ S2). apply (ss_data _ _ S1).
    + by rewrite P2, Hpar, Hpp'.
Qed.

Lemma exit_moves c status ps ps' p :
  pool ps !! c = Some p → state (inner p) = RUNNING →
  exit proc_addr c status ps = Done ps' → moves ps ps'.
Proof.
  intros Hp Hrun. unfold exit, exit_close. destruct (decide (c = initproc ps)) as [|Hci]; [done|].
  rewrite Hp. cbn [mbind outcome_bind]. set (ps1 := upd ps c _). intros Hex.
  assert (H1 : ∀ i, pool ps1 !! i = if decide (i = c) then _ else pool ps !! i)
    by (intros i; apply upd_lookup; by eapply lookup_lt_Some).
  destruct (exit_finish_spec c status ps1 ps') as (p1 & pp & Hp1 & _ & _ & Hnid & Hlen & Hoth & p' & Hp' & Hz & _ & Hpid & _);
    [by apply not_eq_sym|done|].
  rewrite H1, decide_True in Hp1 by done. injection Hp1 as <-.
  split_and!; [rewrite Hnid; done|left; by rewrite Hnid|]. rewrite Hnid. intros i.
  destruct (decide (i = c)) as [->|Hne].
  - rewrite Hp, Hp'. apply slot_moves_keep; rewrite ?Hrun, ?Hz, ?Hpid; done.
  - destruct (pool ps !! i) as [q|] eqn:Hq.
    + destruct (Hoth i q Hne) as (q' & -> & Hs & _); [by rewrite H1, decide_False|].
      by apply same_slot_moves.
    + destruct (pool ps' !! i) as [q'|] eqn:Hq'; [|done].
      exfalso. apply lookup_lt_Some in Hq'. rewrite Hlen in Hq'. unfold ps1, upd in Hq'. cbn in Hq'.
      rewrite length_insert in Hq'. apply lookup_ge_None in Hq. lia.
Qed.

(** ** The life cycle as a step relation *)
Definition running (ps : Procs U T F I) (c : nat) : Prop :=
  ∃ p, pool ps !! c = Some p ∧ state (inner p) = RUNNING.

Inductive pstep `{!FirstProcess U T I} ps : Procs U T F I → Prop :=
  | st_user_init fr set ps' : user_init fr set ps = Done ps' → pstep ps ps'
  | st_wakeup cur chn : pstep ps (wakeup cur chn ps)
  | st_kill pd : pstep ps (kill pd ps).1
  | st_fork fr c ps' r : running ps c → fork_setup fr c ps = Done (ps', r) → pstep ps ps'
  | st_link c i p : pool ps !! i = Some p → state (inner p) = USED → pstep ps (fork_link c i ps)
  | st_start i p : pool ps !! i = Some p → state (inner p) = USED → pstep ps (fork_start i ps)
  | st_sleep c chn : running ps c → pstep ps (sleep_enter c chn ps)
  | st_leave c : running ps c → pstep ps (sleep_leave c ps)
  | st_yield c : running ps c → pstep ps (yielding c ps)
  | st_grow c n ps' r : running ps c → grow_proc c n ps = Done (ps', r) → pstep ps ps'
  | st_exit c status ps' : running ps c → exit proc_addr c status ps = Done ps' → pstep ps ps'
  | st_wait c addr hk ps' r : running ps c → wait_round proc_addr c addr hk ps = Done (ps', r) → pstep ps ps'
  | st_sched i ps' : sched_pick i ps = Some ps' → pstep ps ps'.

Lemma pstep_moves `{!FirstProcess U T I} ps ps' : pstep ps ps' → moves ps ps'.
Proof.
  destruct 1 as [fr set ps' Hu|cur chn|pd|fr c ps' r _ Hf|c i p Hp Hs|i p Hp Hs|c chn (p & Hp & Hs)|c (p & Hp & Hs)
    |c (p & Hp & Hs)|c n ps' r (p & Hp & Hs) Hg|c status ps' (p & Hp & Hs) He|c addr hk ps' r (p & Hp & Hs) Hw|i ps' Hk].
  - by eapply user_init_moves.
  - apply wakeup_moves.
  - apply kill_moves.
  - by eapply fork_setup_moves.
  - unfold fork_link. rewrite Hp. apply (upd_moves _ _ _ _ Hp). apply slot_moves_keep; cbn; by rewrite ?Hs.
  - unfold fork_start. rewrite Hp. apply (upd_moves _ _ _ _ Hp). apply slot_moves_keep; cbn; by rewrite ?Hs.
  - unfold sleep_enter. rewrite Hp. apply (upd_moves _ _ _ _ Hp). apply slot_moves_keep; cbn; by rewrite ?Hs.
  - unfold sleep_leave. rewrite Hp. apply (upd_moves _ _ _ _ Hp). apply slot_moves_keep; cbn; by rewrite ?Hs.
  - unfold yielding. rewrite Hp. apply (upd_moves _ _ _ _ Hp). apply slot_moves_keep; cbn; by rewrite ?Hs.
  - unfold grow_proc in Hg. rewrite Hp in Hg. destruct (uvm (data p)) as [u|]; [|done].
    assert (Hd : ∀ d, moves ps (upd ps c (set_data p d))).
    { intros d. apply (upd_moves _ _ _ _ Hp). apply slot_moves_keep; cbn; by rewrite ?Hs. }
    repeat case_decide.
    + destruct (checked_add (sz (data p)) n) as [new| |]; [|done..]. cbn [mbind outcome_bind] in Hg.
      destruct (uvm_alloc u (sz (data p)) new) as [u' [s'|]]; apply Done_pair_inj in Hg as [<- _]; apply Hd.
    + destruct (uvm_dealloc u (sz (data p)) _) as [u' s']. apply Done_pair_inj in Hg as [<- _]. apply Hd.
    + apply Done_pair_inj in Hg as [<- _]. apply Hd.
  - by eapply exit_moves.
  - apply (wait_round_moves c addr hk ps ps' r); [|done]. intros q Hq. by rewrite Hp in Hq; simplify_eq.
  - unfold sched_pick in Hk. destruct (pool ps !! i) as [p|] eqn:Hp; [|done].
    case_decide as Hs; [|done]. injection Hk as <-. apply (upd_moves _ _ _ _ Hp).
    apply slot_moves_keep; cbn; by rewrite ?Hs.
Qed.

(** Live slots have distinct process ids below the counter. *)
Definition pids_ok ps : Prop :=
  (∀ i p, pool ps !! i = Some p → state (inner p) ≠ UNUSED → pid (inner p) < nextid ps) ∧
  ∀ i j p q, i ≠ j → pool ps !! i = Some p → pool ps !! j = Some q →
    state (inner p) ≠ UNUSED → state (inner q) ≠ UNUSED → pid (inner p) ≠ pid (inner q).

Lemma moves_pids ps ps' : moves ps ps' → pids_ok ps → pids_ok ps'.
Proof.
  intros (Hle & Hone & Hs) [H1 H2].
  assert (Hold : ∀ i p', pool ps' !! i = Some p' → state (inner p') ≠ UNUSED →
    ∃ p, pool ps !! i = Some p ∧
      (pid (inner p') = pid (inner p) ∧ state (inner p) ≠ UNUSED ∨
       nextid ps ≤ pid (inner p') < nextid ps' ∧ state (inner p) = UNUSED)).
  { intros i p' Hp' Hu. specialize (Hs i). rewrite Hp' in Hs. destruct (pool ps !! i) as [p|]; [|done].
    destruct Hs as [_ [?|[?|?]]]; [done|eauto..]. }
  split.
  - intros i p' Hp' Hu. destruct (Hold i p' Hp' Hu) as (p & Hp & [[-> Hu']|[? _]]); [|lia].
    specialize (H1 i p Hp Hu'). lia.
  - intros i j p' q' Hne Hp' Hq' Hup Huq.
    destruct (Hold i p' Hp' Hup) as (p & Hp & Hcp), (Hold j q' Hq' Huq) as (q & Hq & Hcq).
    destruct Hcp as [[-> Hp1]|[Hp1 Hp2]], Hcq as [[-> Hq1]|[Hq1 Hq2]].
    + by eapply H2.
    + pose proof (H1 i p Hp Hp1). lia.
    + pose proof (H1 j q Hq Hq1). lia.
    + destruct Hone as [?|[k Hk]]; [lia|].
      destruct (decide (i = k)) as [->|Hik].
      * rewrite (Hk j) in Hq' by done. congruence.
      * rewrite (Hk i) in Hp' by done. congruence.
Qed.

(** A fresh table. *)
Definition boot_table (kstacks : list Z) : Procs U T F I := mkProcs (proc_new <$> kstacks) 0 0.
End spec.

(** C30. The life cycle of a slot.  A fresh table is in order: slots in use have
    distinct process ids below the counter.  From any table in order, whatever
    its slots are doing, every operation of the process table ([user_init],
    [fork] in its steps, [exit], [wait], [kill], [wakeup], [sleep], [yield],
    growing, and the scheduler's choice) moves every slot along an edge of the
    state diagram or leaves its state alone, keeps the number of slots, and
    leaves a table in order. *)
Theorem proc_life_cycle {U T F I : Type} `{!UserMemory U T, !FirstProcess U T I} (proc_addr : nat → Z) :
  (∀ kstacks, pids_ok (boot_table (U := U) (T := T) (F := F) (I := I) kstacks)) ∧
  ∀ ps ps' : Procs U T F I, pids_ok ps → pstep proc_addr ps ps' →
    length (pool ps') = length (pool ps) ∧
    (∀ i p p', pool ps !! i = Some p → pool ps' !! i = Some p' →
       edge (state (inner p)) (state (inner p')) = true) ∧
    pids_ok ps'.
Proof.
  split.
  { intros kstacks. split; intros i; intros; cbn in *;
      match goal with H : _ !! i = Some _ |- _ => rewrite list_lookup_fmap in H end;
      destruct (kstacks !! i); simplify_eq/=. }
  intros ps ps' Hps Hs. pose proof (pstep_moves proc_addr _ _ Hs) as Hm. split_and!.
  - destruct Hm as (_ & _ & Hm). apply Nat.le_antisymm; apply Nat.nlt_ge; intros Hlt.
    + specialize (Hm (length (pool ps))). rewrite (lookup_ge_None_2 (pool ps)) in Hm by lia.
      by destruct (lookup_lt_is_Some_2 (pool ps') _ Hlt) as [x Hx]; rewrite Hx in Hm.
    + specialize (Hm (length (pool ps'))). rewrite (lookup_ge_None_2 (pool ps')) in Hm by lia.
      by destruct (lookup_lt_is_Some_2 (pool ps) _ Hlt) as [x Hx]; rewrite Hx in Hm.
  - intros i p p' Hp Hp'. destruct Hm as (_ & _ & Hm). specialize (Hm i). rewrite Hp, Hp' in Hm. apply Hm.
  - by apply (moves_pids _ _ Hm).
Qed.

(** [wakeup] is exact.  Run by a process, it makes runnable exactly the
    other processes that sleep on the channel and changes nothing else; run on
    a cpu with no current process, as from an interrupt taken in the
    scheduler, it changes nothing, and the sleepers stay asleep. *)
Theorem proc_wakeup_exact {U T F I : Type} cur chn (ps : Procs U T F I) :
  (∀ c i p, cur = Some c → pool ps !! i = Some p →
     pool (wakeup cur chn ps) !! i = Some
       (if decide (i ≠ c ∧ state (inner p) = SLEEPING ∧ chan (inner p) = chn)
        then set_inner p (set_state (inner p) RUNNABLE) else p)) ∧
  (cur = None → wakeup cur chn ps = ps).
Proof.
  split.
  - intros c i p -> Hp. by rewrite wakeup_lookup, Hp.
  - intros ->. unfold wakeup. destruct ps as [l nid ip]. cbn. f_equal. apply list_eq. intros i.
    rewrite list_lookup_imap. by destruct (l !! i).
Qed.

(** [kill] finds its target: it fails exactly when no slot has the
    process id, and otherwise marks the first slot that has it as killed,
    wakes it if it sleeps, and changes no other slot. *)
Theorem proc_kill_spec {U T F I : Type} pd (ps : Procs U T F I) :
  (Forall (λ p, pid (inner p) ≠ pd) (pool ps) ∧ kill pd ps = (ps, Err tt)) ∨
  ∃ k p p', pool ps !! k = Some p ∧ pid (inner p) = pd ∧
    (∀ j q, (j < k)%nat → pool ps !! j = Some q → pid (inner q) ≠ pd) ∧
    kill pd ps = (upd ps k p', Ok tt) ∧
    killed (inner p') = true ∧ pid (inner p') = pd ∧ parent p' = parent p ∧ data p' = data p ∧
    state (inner p') = (if decide (state (inner p) = SLEEPING) then RUNNABLE else state (inner p)).
Proof.
  unfold kill. destruct (kill_loop pd (pool ps)) as [l|] eqn:E.
  - right. destruct (kill_loop_lookup _ _ _ E) as (k & p & Hk & Hp & Hf & ->).
    exists k, p. eexists. split_and!; [done|done|done|reflexivity|..]; cbn; try done; by case_decide.
  - left. split; [by apply kill_loop_none|done].
Qed.

(** Every zombie child of [c] has the page table its exit status is copied
    through, and the copy succeeds. *)
Definition copy_works {U T F I : Type} `{UserMemory U T} (c : nat) (addr : Z) (l : list (Proc U T F I)) : Prop :=
  ∀ k p, l !! k = Some p → child c p → state (inner p) = ZOMBIE →
    ∃ u u', uvm (data p) = Some u ∧ uvm_copyout u addr (xstate (inner p)) = Ok u'.

Lemma wait_scan_total {U T F I : Type} `{UserMemory U T} c addr hk (l : list (Proc U T F I)) :
  copy_works c addr l → (∃ k p, l !! k = Some p ∧ child c p ∧ state (inner p) = ZOMBIE) →
  ∃ l' pd, wait_scan c addr hk l = Done (l', Reaped pd).
Proof.
  revert hk. induction l as [|p l IH]; intros hk Hcw (k & q & Hk & Hq & Hz); [done|]. cbn [wait_scan].
  assert (Hcw' : copy_works c addr l) by (intros j r Hj; apply (Hcw (S j) r Hj)).
  destruct (decide (parent p = Some c)) as [Hp|Hp].
  - destruct (decide (state (inner p) = ZOMBIE)) as [Hzp|Hzp].
    + destruct (Hcw 0%nat p eq_refl Hp Hzp) as (u & u' & -> & ->). eauto.
    + destruct k as [|k]; simplify_eq/=. destruct (IH true Hcw') as (l' & pd & ->); [eauto|]. cbn. eauto.
  - destruct k as [|k]; simplify_eq/=. destruct (IH hk Hcw') as (l' & pd & ->); [eauto|]. cbn. eauto.
Qed.


(** [alloc_proc] looks at one slot only: when slot 0 is in use it fails,
    however many other slots are unused, so a second process cannot be
    created while the first exists. *)
Theorem proc_alloc_only_slot_zero {U T F I : Type} `{UserMemory U T} fr (ps ps' : Procs U T F I) r p :
  pool ps !! 0%nat = Some p → alloc_proc fr ps = (ps', r) →
  (state (inner p) ≠ UNUSED → r = None ∧ ps' = ps) ∧ (∀ i, r = Some i → i = 0%nat).
Proof.
  intros Hp Ha. split.
  - intros Hs. unfold alloc_proc, alloc_loop in Ha. destruct ps as [[|q l] nid ip]; simplify_eq/=.
    destruct (state (inner p)); by simplify_eq/=.
  - intros i ->. by apply alloc_proc_spec in Ha as (_ & _ & -> & _).
Qed.

(** *** Witnesses

    Page tables that always have memory, and trapframes reduced to [a0]. *)
#[local] Instance plain_memory : UserMemory unit Z := {
  new_trapframe := Some 0;
  set_a0 _ v := v;
  proc_uvmcreate _ := Some tt;
  uvm_copy _ _ _ := Ok tt;
  uvm_alloc u _ new := (u, Some new);
  uvm_dealloc u _ new := (u, new);
  uvm_copyout u _ _ := Ok u;
}.

Definition demo_addr (i : nat) : Z := 1000 + Z.of_nat i.
Definition demo_boot : Procs unit Z unit unit := boot_table [4096; 8192; 12288].

Definition demo_slot (s : ProcState) (ch pd : Z) (par : option nat) : Proc unit Z unit unit :=
  mkProc (mkInner s ch false 0 pd) par (mkData 4096 0 (Some tt) (Some 0) 0 0 "p" (replicate NOFILE None) None).

(** Init sleeps in [wait]; its child [1] runs and has a child [2]. *)
Definition demo_table : Procs unit Z unit unit :=
  mkProcs [demo_slot SLEEPING 1000 0 None; demo_slot RUNNING 0 1 (Some 0%nat);
           demo_slot RUNNABLE 0 2 (Some 1%nat)] 3 0.

Definition demo_exited : Procs unit Z unit unit :=
  match exit demo_addr 1 7 demo_table with Done ps => ps | _ => demo_table end.

Lemma demo_exit : exit demo_addr 1 7 demo_table = Done demo_exited.
Proof. reflexivity. Qed.

#[local] Instance plain_first : FirstProcess unit Z unit := {
  u_init u _ := Done u;
  tf_begin tf _ _ := tf;
  root_dir := Some tt;
}.

(** From boot to a running init. *)
Lemma boot_runs_init : ∃ ps p, rtc (pstep demo_addr) demo_boot ps ∧ pool ps !! 0%nat = Some p ∧ state (inner p) = RUNNING.
Proof.
  eexists _, _. split; [|split].
  - eapply rtc_l; [by apply (st_user_init _ _ 0 false)|]. eapply rtc_l; [by apply (st_sched _ _ 0%nat)|apply rtc_refl].
  - reflexivity.
  - reflexivity.
Qed.

Lemma demo_pids : pids_ok demo_table.
Proof.
  split.
  - intros [|[|[|i]]] p Hp; simplify_eq/=; lia.
  - intros [|[|[|i]]] [|[|[|j]]] p q Hne Hp Hq; simplify_eq/=; done.
Qed.

Lemma proc_life_cycle_witness : pids_ok demo_boot ∧ length (pool demo_exited) = 3%nat ∧ pids_ok demo_exited.
Proof.
  assert (Hs : pstep demo_addr demo_table demo_exited).
  { apply (st_exit _ _ 1%nat 7); [eexists; split; reflexivity|apply demo_exit]. }
  destruct (proj2 (proc_life_cycle demo_addr) demo_table demo_exited demo_pids Hs) as (H1 & _ & H2).
  split; [exact (proj1 (proc_life_cycle demo_addr) [4096; 8192; 12288])|]. split; [exact H1|exact H2].
Defined.


Lemma proc_alloc_only_slot_zero_witness : (alloc_proc 0 demo_table).2 = None.
Proof.
  destruct (alloc_proc 0 demo_table) as [ps' r] eqn:E.
  destruct (proc_alloc_only_slot_zero 0 demo_table ps' r (demo_slot SLEEPING 1000 0 None) eq_refl E)
    as [H _]. destruct H as [-> _]; [done|]. reflexivity.
Defined.
