(* ===== verification/Sleeplock.v ===== *)
(** * Sleep locks on the process table ([sleeplock.rs])

    A sleep lock is a flag and the id of its holder under a spin lock.  The
    processes that use it are slots of the process table: one that finds the
    flag set sleeps on the address of the lock, and the release wakes the
    sleepers.  One step is one critical section of the spin lock ([sleep]
    gives it up and sleeps in one step), or a step of the scheduler. *)

From S2P Require Import Prelude Proc.

Open Scope Z_scope.

Record SleepLockInfo := mkInfo { locked : bool; holder : Z }.

Section sleeplock.
Context {U T F I : Type}.
Variable addr : Z.       (* the address of the lock, the channel of its sleepers *)

(** Where a process is: outside, in the loop of [lock], with the guard, in the
    drop of the guard after its assertion. *)
Inductive spc := Out | Waiting | Holding | Checked.

Record slock := mkSl { info : SleepLockInfo; tab : Procs U T F I; at_ : list spc }.

Definition info_new : SleepLockInfo := mkInfo false 0.

Definition move (s : slock) (i : nat) (p : spc) : slock := mkSl (info s) (tab s) (<[i := p]> (at_ s)).

Definition my_pid (s : slock) (i : nat) : option Z := (λ p, pid (inner p)) <$> pool (tab s) !! i.

(** [lock]: one round of its loop, under the spin lock. *)
Definition lock_round (s : slock) (i : nat) (pd : Z) : slock :=
  if locked (info s) then mkSl (info s) (sleep_enter i addr (tab s)) (<[i := Waiting]> (at_ s))
  else mkSl (mkInfo true pd) (tab s) (<[i := Holding]> (at_ s)).

(** [holding] *)
Definition holding (s : slock) (pd : Z) : bool := locked (info s) && bool_decide (holder (info s) = pd).

(** [drop]: the assertion, then the release. *)
Definition drop_check (s : slock) (i : nat) (pd : Z) : outcome slock :=
  if holding s pd then Done (move s i Checked) else Panic "release".
Definition drop_release (s : slock) (i : nat) : slock :=
  mkSl (mkInfo false 0) (wakeup (Some i) addr (tab s)) (<[i := Out]> (at_ s)).

(** The steps; the result [None] is the panic of the assertion. *)
Inductive sstep (s : slock) : option slock → Prop :=
  | s_lock i p : pool (tab s) !! i = Some p → state (inner p) = RUNNING → at_ s !! i = Some Out →
      sstep s (Some (lock_round s i (pid (inner p))))
  | s_again i p : pool (tab s) !! i = Some p → state (inner p) = RUNNING → at_ s !! i = Some Waiting →
      sstep s (Some (lock_round (mkSl (info s) (sleep_leave i (tab s)) (at_ s)) i (pid (inner p))))
  | s_check i p s' : pool (tab s) !! i = Some p → state (inner p) = RUNNING → at_ s !! i = Some Holding →
      drop_check s i (pid (inner p)) = Done s' → sstep s (Some s')
  | s_panic i p e : pool (tab s) !! i = Some p → state (inner p) = RUNNING → at_ s !! i = Some Holding →
      drop_check s i (pid (inner p)) = Panic e → sstep s None
  | s_release i p : pool (tab s) !! i = Some p → state (inner p) = RUNNING → at_ s !! i = Some Checked →
      sstep s (Some (drop_release s i))
  | s_pick i ps : sched_pick i (tab s) = Some ps → sstep s (Some (mkSl (info s) ps (at_ s)))
  | s_yield i p : pool (tab s) !! i = Some p → state (inner p) = RUNNING →
      sstep s (Some (mkSl (info s) (yielding i (tab s)) (at_ s)))
  | s_kill pd : sstep s (Some (mkSl (info s) (kill pd (tab s)).1 (at_ s)))
  | s_wakeup i chn : sstep s (Some (mkSl (info s) (wakeup (Some i) chn (tab s)) (at_ s))).

Inductive sreach (s0 : slock) : option slock → Prop :=
  | sreach_refl : sreach s0 (Some s0)
  | sreach_step s o : sreach s0 (Some s) → sstep s o → sreach s0 o.

(** A fresh lock, and a table none of whose processes uses it. *)
Definition slock_new (ps : Procs U T F I) : slock := mkSl info_new ps (replicate (length (pool ps)) Out).
End sleeplock.
