(* ===== verification/SleeplockSpec.v ===== *)
(** * Correctness of sleep locks: exclusion and no lost wakeup *)

From S2P Require Import Prelude Proc ProcSpec Sleeplock.

Open Scope Z_scope.

Section spec.
Context {U T F I : Type}.
Implicit Types (ps : Procs U T F I) (s : slock (U := U) (T := T) (F := F) (I := I)).

(** A change of the table that puts nobody to sleep and keeps the ids. *)
Definition calm ps ps' : Prop :=
  length (pool ps') = length (pool ps) ∧
  ∀ i p', pool ps' !! i = Some p' → ∃ p, pool ps !! i = Some p ∧ pid (inner p') = pid (inner p) ∧
    (state (inner p') = SLEEPING → state (inner p) = SLEEPING ∧ chan (inner p') = chan (inner p)).

Lemma calm_refl ps : calm ps ps.
Proof. split; [done|]. intros i p Hp. by exists p. Qed.

Lemma calm_upd ps i p inn :
  pool ps !! i = Some p → pid inn = pid (inner p) → state inn ≠ SLEEPING → calm ps (upd ps i (set_inner p inn)).
Proof.
  intros Hp Hpid Hst. split; [cbn; by rewrite length_insert|]. intros j q.
  rewrite upd_lookup by (by eapply lookup_lt_Some). destruct (decide (j = i)) as [->|Hne].
  - intros [= <-]. exists p. by split_and!.
  - intros Hq. by exists q.
Qed.

Lemma calm_wakeup cur chn ps : calm ps (wakeup cur chn ps).
Proof.
  split; [cbn; by rewrite length_imap|]. intros i p' Hp'. rewrite wakeup_lookup in Hp'.
  destruct (pool ps !! i) as [p|]; [|done]. injection Hp' as <-. exists p. split; [done|]. split; [apply wake_one_pid|].
  unfold wake_one. destruct cur; [|done]. by destruct (decide _).
Qed.

Lemma calm_pick i ps ps' : sched_pick i ps = Some ps' → calm ps ps'.
Proof.
  unfold sched_pick. destruct (pool ps !! i) as [p|] eqn:Hp; [|done]. destruct (decide _); [|done].
  intros [= <-]. by apply calm_upd.
Qed.

Lemma calm_yield i p ps : pool ps !! i = Some p → calm ps (yielding i ps).
Proof. intros Hp. unfold yielding. rewrite Hp. by apply calm_upd. Qed.

Lemma calm_leave i p ps : pool ps !! i = Some p → state (inner p) = RUNNING → calm ps (sleep_leave i ps).
Proof. intros Hp Hst. unfold sleep_leave. rewrite Hp. apply calm_upd; [done|done|]. cbn. by rewrite Hst. Qed.

Lemma calm_kill pd ps : calm ps (kill pd ps).1.
Proof.
  unfold kill. destruct (kill_loop pd (pool ps)) as [l|] eqn:Hk; cbn; [|apply calm_refl].
  split.
  - cbn. revert l Hk. generalize (pool ps) as l0. induction l0 as [|p l0 IH]; intros l Hk; [done|]. cbn in Hk.
    destruct (decide _); [by simplify_eq|]. destruct (kill_loop pd l0) as [l1|]; [|done]. simplify_eq. cbn. by rewrite (IH l1).
  - cbn. revert l Hk. generalize (pool ps) as l0. induction l0 as [|p l0 IH]; intros l Hk i p' Hp'; [done|]. cbn in Hk.
    destruct (decide (pid (inner p) = pd)) as [Hpd|Hpd].
    + simplify_eq. destruct i as [|i]; [|by exists p']. cbn in Hp'. simplify_eq. exists p. split; [done|]. cbn.
      destruct (decide _); cbn; done.
    + destruct (kill_loop pd l0) as [l1|]; [|done]. simplify_eq. destruct i as [|i]; [cbn in Hp'; simplify_eq; by exists p'|].
      by apply (IH l1).
Qed.

Variable addr : Z.

Definition has (p : spc) : bool := match p with Holding | Checked => true | _ => false end.

Record slinv s : Prop := {
  sl_len : length (at_ s) = length (pool (tab s));
  sl_one : ∀ i j p q, at_ s !! i = Some p → at_ s !! j = Some q → has p = true → has q = true → i = j;
  sl_held : ∀ i p, at_ s !! i = Some p → has p = true → locked (info s) = true ∧ my_pid s i = Some (holder (info s));
  sl_free : locked (info s) = true → ∃ i p, at_ s !! i = Some p ∧ has p = true;
  sl_chan : ∀ i p, pool (tab s) !! i = Some p → at_ s !! i = Some Waiting → state (inner p) = SLEEPING →
    chan (inner p) = addr ∧ locked (info s) = true;
}.

(** Steps of the table alone. *)
Lemma slinv_calm s ps : slinv s → calm (tab s) ps → slinv (mkSl (info s) ps (at_ s)).
Proof.
  intros [H1 H2 H3 H4 H5] [Hl Hc]. split; cbn; [by rewrite Hl|done| |done|].
  - intros i p Hi Hp. destruct (H3 i p Hi Hp) as [Ht Hpid]. split; [done|]. unfold my_pid in *. cbn.
    destruct (pool ps !! i) as [q|] eqn:Hq.
    + destruct (Hc _ _ Hq) as (q0 & Hq0 & He & _). rewrite Hq0 in Hpid. cbn in *. congruence.
    + apply lookup_ge_None in Hq. apply lookup_lt_Some in Hi. lia.
  - intros i p Hp Hw Hst. destruct (Hc _ _ Hp) as (q & Hq & _ & Hs). destruct (Hs Hst) as [Hs1 Hs2].
    rewrite Hs2. by apply (H5 i q).
Qed.

Lemma at_upd s i p q j : at_ s !! i = Some p → <[i := q]> (at_ s) !! j = if decide (j = i) then Some q else at_ s !! j.
Proof. intros Hp. apply lookup_upd. by eapply lookup_lt_Some. Qed.

(** A round of [lock] by a process without the guard. *)
Lemma slinv_round s i p q :
  slinv s → pool (tab s) !! i = Some p → at_ s !! i = Some q → has q = false → state (inner p) ≠ SLEEPING →
  slinv (lock_round addr s i (pid (inner p))).
Proof.
  intros Hs Hp Hq Hh Hst. pose proof Hs as [H1 H2 H3 H4 H5]. unfold lock_round. destruct (locked (info s)) eqn:Hl.
  - assert (Ht : sleep_enter i addr (tab s) = upd (tab s) i (set_inner p (set_state (set_chan (inner p) addr) SLEEPING)))
      by (unfold sleep_enter; by rewrite Hp).
    assert (Hlk : ∀ j, pool (sleep_enter i addr (tab s)) !! j =
        if decide (j = i) then Some (set_inner p (set_state (set_chan (inner p) addr) SLEEPING)) else pool (tab s) !! j).
    { intros j. rewrite Ht. apply upd_lookup. by eapply lookup_lt_Some. }
    split; cbn; rewrite ?Hl.
    + rewrite length_insert, Ht. cbn. by rewrite length_insert.
    + intros j k a b. rewrite !(at_upd _ _ _ _ _ Hq). destruct (decide (j = i)), (decide (k = i)); intros; simplify_eq; try done.
      by apply (H2 j k a b).
    + intros j a. rewrite (at_upd _ _ _ _ _ Hq). destruct (decide (j = i)) as [->|Hne]; [by intros [= <-]|].
      intros Ha Hha. split; [done|]. unfold my_pid. cbn. rewrite Hlk, decide_False by done. by apply (H3 j a).
    + intros _. destruct (H4 eq_refl) as (j & a & Ha & Hha). exists j, a. rewrite (at_upd _ _ _ _ _ Hq).
      destruct (decide (j = i)); [simplify_eq; congruence|done].
    + intros j a Ha. rewrite Hlk in Ha. rewrite (at_upd _ _ _ _ _ Hq).
      destruct (decide (j = i)) as [->|Hne]; [by simplify_eq|]. intros Hw Hsl. split; [by apply (H5 j a)|done].
  - split; cbn.
    + by rewrite length_insert.
    + intros j k a b. rewrite !(at_upd _ _ _ _ _ Hq).
      assert (Hno : ∀ m c, at_ s !! m = Some c → has c = false).
      { intros m c Hm. destruct (has c) eqn:Hc; [|done]. by destruct (H3 m c Hm Hc). }
      destruct (decide (j = i)), (decide (k = i)); intros; simplify_eq; try done.
      * by rewrite (Hno k b) in *.
      * by rewrite (Hno j a) in *.
      * by rewrite (Hno j a) in *.
    + intros j a. rewrite (at_upd _ _ _ _ _ Hq). destruct (decide (j = i)) as [->|Hne].
      * intros _ _. split; [done|]. unfold my_pid. cbn. by rewrite Hp.
      * intros Ha Hha. by destruct (H3 j a Ha Hha).
    + intros _. exists i, Holding. by rewrite (at_upd _ _ _ _ _ Hq), decide_True.
    + intros j a Ha. rewrite (at_upd _ _ _ _ _ Hq). destruct (decide (j = i)) as [->|Hne]; [done|].
      intros Hw Hsl. by destruct (H5 j a Ha Hw Hsl).
Qed.

Lemma slinv_release s i p :
  slinv s → pool (tab s) !! i = Some p → at_ s !! i = Some Checked → state (inner p) = RUNNING → slinv (drop_release addr s i).
Proof.
  intros Hs Hp Hq Hst. pose proof Hs as [H1 H2 H3 H4 H5]. unfold drop_release.
  assert (Hno : ∀ m c, m ≠ i → at_ s !! m = Some c → has c = false).
  { intros m c Hne Hm. destruct (has c) eqn:Hc; [|done]. destruct Hne. by apply (H2 m i c Checked). }
  split; cbn.
  - by rewrite length_insert, length_imap.
  - intros j k a b. rewrite !(at_upd _ _ _ _ _ Hq). destruct (decide (j = i)), (decide (k = i)); intros; simplify_eq; try done.
    by rewrite (Hno j a) in *.
  - intros j a. rewrite (at_upd _ _ _ _ _ Hq). destruct (decide (j = i)); [by intros [= <-]|]. intros Ha Hha.
    by rewrite (Hno j a) in Hha.
  - done.
  - intros j a Ha. change (imap (wake_one addr (Some i)) (pool (tab s)) !! j = Some a) with
      (pool (wakeup (Some i) addr (tab s)) !! j = Some a) in Ha. rewrite wakeup_lookup in Ha.
    destruct (pool (tab s) !! j) as [b|] eqn:Hb; [|done]. injection Ha as <-.
    rewrite (at_upd _ _ _ _ _ Hq). destruct (decide (j = i)) as [->|Hne]; [done|]. intros Hw Hsl. exfalso.
    revert Hsl. unfold wake_one. destruct (decide _) as [|Hd]; [done|]. intros Hsl. apply Hd.
    split_and!; [done|done|]. by apply (H5 j b).
Qed.

Lemma slinv_step s o : slinv s → sstep addr s o → ∃ s', o = Some s' ∧ slinv s'.
Proof.
  intros Hs [i p Hp Hst Hq|i p Hp Hst Hq|i p s' Hp Hst Hq Hd|i p e Hp Hst Hq Hd|i p Hp Hst Hq|i ps Hps|i p Hp Hst|pd|i chn].
  - eexists. split; [done|]. eapply slinv_round; [done|done|done|done|by rewrite Hst].
  - eexists. split; [done|].
    assert (Hp' : pool (sleep_leave i (tab s)) !! i = Some (set_inner p (set_chan (inner p) 0))).
    { unfold sleep_leave. rewrite Hp, upd_lookup by (by eapply lookup_lt_Some). by rewrite decide_True. }
    apply (slinv_round (mkSl (info s) (sleep_leave i (tab s)) (at_ s)) i _ Waiting
             (slinv_calm s _ Hs (calm_leave i p _ Hp Hst)) Hp' Hq); [done|]. cbn. by rewrite Hst.
  - eexists. split; [done|]. unfold drop_check in Hd. destruct (holding _ _); [|done]. injection Hd as <-.
    pose proof Hs as [H1 H2 H3 H4 H5]. split; cbn.
    + by rewrite length_insert.
    + intros j k a b. rewrite !(at_upd _ _ _ _ _ Hq). destruct (decide (j = i)), (decide (k = i)); intros; simplify_eq; try done.
      * by apply (H2 i k Holding b).
      * by apply (H2 j i a Holding).
      * by apply (H2 j k a b).
    + intros j a. rewrite (at_upd _ _ _ _ _ Hq). destruct (decide (j = i)) as [->|]; [intros [= <-] _; by apply (H3 i Holding)|].
      apply (H3 j a).
    + intros Hl. exists i, Checked. by rewrite (at_upd _ _ _ _ _ Hq), decide_True.
    + intros j a Ha. rewrite (at_upd _ _ _ _ _ Hq). destruct (decide (j = i)); [done|]. apply (H5 j a Ha).
  - exfalso. destruct (sl_held _ Hs i Holding Hq eq_refl) as [Hl Hpid]. unfold my_pid in Hpid. rewrite Hp in Hpid.
    cbn in Hpid. injection Hpid as Hpid. unfold drop_check, holding in Hd. rewrite Hl, bool_decide_true in Hd by done. done.
  - eexists. split; [done|]. by apply (slinv_release s i p).
  - eexists. split; [done|]. apply slinv_calm; [done|by eapply calm_pick].
  - eexists. split; [done|]. apply slinv_calm; [done|by eapply calm_yield].
  - eexists. split; [done|]. apply slinv_calm; [done|apply calm_kill].
  - eexists. split; [done|]. apply slinv_calm; [done|apply calm_wakeup].
Qed.

Lemma slinv_new ps : slinv (slock_new ps).
Proof.
  assert (Hat : ∀ i p, at_ (slock_new ps) !! i = Some p → p = Out).
  { intros i p Hi. by apply lookup_replicate in Hi as [-> _]. }
  split.
  - cbn. by rewrite length_replicate.
  - intros i j p q Hp%Hat. by subst.
  - intros i p Hp%Hat. by subst.
  - done.
  - intros i p _ Hw%Hat. done.
Qed.

Lemma slinv_reach ps o : sreach addr (slock_new ps) o → ∃ s, o = Some s ∧ slinv s.
Proof.
  induction 1 as [|s o Hr IH Hs]; [exists (slock_new ps); split; [done|apply slinv_new]|].
  destruct IH as (s1 & [= <-] & Hi). by eapply slinv_step.
Qed.
End spec.

(** C15. Sleep locks exclude each other and lose no wakeup.  For any process
    table, any schedule, and with processes killed and woken for other reasons
    at any time: the assertion of [drop] never fails; at most one process has
    the guard, and then the flag is set and the lock has its id; while the flag
    is clear no process sleeps in [lock], so that a process that waits for a
    free lock is runnable and takes it when it runs. *)
Theorem sleeplock_exclusion {U T F I : Type} addr (ps : Procs U T F I) o :
  sreach addr (slock_new ps) o →
  ∃ s, o = Some s ∧
    (∀ i j p q, at_ s !! i = Some p → at_ s !! j = Some q → has p = true → has q = true → i = j) ∧
    (∀ i p, at_ s !! i = Some p → has p = true → locked (info s) = true ∧ my_pid s i = Some (holder (info s))) ∧
    (locked (info s) = false → ∀ i p, pool (tab s) !! i = Some p → at_ s !! i = Some Waiting →
       state (inner p) ≠ SLEEPING ∧
       (state (inner p) = RUNNING → ∃ s', sstep addr s (Some s') ∧ at_ s' !! i = Some Holding)).
Proof.
  intros (s & -> & Hs)%slinv_reach. exists s. split; [done|]. split; [apply (sl_one _ _ Hs)|].
  split; [apply (sl_held _ _ Hs)|]. intros Hl i p Hp Hw. split.
  - intros Hst. by destruct (sl_chan _ _ Hs i p Hp Hw Hst) as [_ ?]; rewrite Hl in *.
  - intros Hst. eexists. split; [by eapply s_again|]. unfold lock_round. cbn. rewrite Hl. cbn.
    apply list_lookup_insert_eq. by eapply lookup_lt_Some.
Qed.

(** Two processes want the lock; the second sleeps. *)
Definition demo_two : Procs unit Z unit unit :=
  mkProcs [demo_slot RUNNING 0 3 None; demo_slot RUNNING 0 4 None] 5 0.
Definition demo_lock1 : slock := lock_round 500 (slock_new demo_two) 0 3.
Definition demo_lock2 : slock := lock_round 500 demo_lock1 1 4.

Lemma demo_lock_reach : sreach 500 (slock_new demo_two) (Some demo_lock2).
Proof.
  apply (sreach_step _ _ demo_lock1); [apply (sreach_step _ _ (slock_new demo_two)); [constructor|]|].
  - by apply (s_lock 500 _ 0 (demo_slot RUNNING 0 3 None)).
  - by apply (s_lock 500 _ 1 (demo_slot RUNNING 0 4 None)).
Qed.

Lemma sleeplock_exclusion_witness :
  at_ demo_lock2 = [Holding; Waiting] ∧ locked (info demo_lock2) = true ∧ my_pid demo_lock2 0 = Some 3.
Proof.
  destruct (sleeplock_exclusion 500 demo_two (Some demo_lock2) demo_lock_reach) as (s & [= <-] & _ & H & _).
  split; [reflexivity|]. exact (H 0%nat Holding eq_refl eq_refl).
Defined.
