(* ===== verification/Clock.v ===== *)
(** * The clock and the processes that sleep ([trap.rs], [syscall.rs])

    [clockintr] counts the ticks of hart 0 and wakes the processes that sleep
    on the counter; the system call [sleep] waits on it until enough ticks have
    passed.  A step is one critical section of the lock of [TICKS] or a step of
    the scheduler.  In every run in which hart 0 runs a process whenever it
    ticks, no process oversleeps; a tick of an idle hart wakes nobody. *)

From S2P Require Import Prelude Proc ProcSpec Sleeplock SleeplockSpec.

Open Scope Z_scope.

Section clock.
Context {U T F I : Type}.
Variable addr : Z.       (* the address of the counter, the channel of the sleepers *)

(** A process in [sleep] has read [ticks0] and was asked for [n] ticks. *)
Record clock := mkClock {
  ticks : Z;
  ctab : Procs U T F I;
  calls : list (option (Z * Z));
}.

(** [clockintr]; [cur] is the process that hart 0 runs. *)
Definition clockintr (cur : option nat) (s : clock) : outcome clock :=
  t ← checked_add (ticks s) 1;
  Done (mkClock t (wakeup cur addr (ctab s)) (calls s)).

(** One round of the loop of [sleep] by process [i]; [None]: it sleeps. *)
Definition sleep_round (i : nat) (ticks0 n : Z) (s : clock) : outcome (clock * option (result Z unit)) :=
  match pool (ctab s) !! i with
  | None => Panic "no such process"
  | Some p =>
      e ← checked_sub (ticks s) ticks0;
      if decide (e < n) then
        if killed (inner p) then Done (mkClock (ticks s) (ctab s) (<[i := None]> (calls s)), Some (Err tt))
        else Done (mkClock (ticks s) (sleep_enter i addr (ctab s)) (<[i := Some (ticks0, n)]> (calls s)), None)
      else Done (mkClock (ticks s) (ctab s) (<[i := None]> (calls s)), Some (Ok 0))
  end.

(** The call, and its next round after the process was woken and runs. *)
Definition sleep_call (i : nat) (n : Z) (s : clock) : outcome (clock * option (result Z unit)) :=
  sleep_round i (ticks s) n s.
Definition sleep_again (i : nat) (ticks0 n : Z) (s : clock) : outcome (clock * option (result Z unit)) :=
  sleep_round i ticks0 n (mkClock (ticks s) (sleep_leave i (ctab s)) (calls s)).

Definition runs (s : clock) (i : nat) : Prop :=
  ∃ p, pool (ctab s) !! i = Some p ∧ state (inner p) = RUNNING.
Definition at_tab (s : clock) (ps : Procs U T F I) : clock := mkClock (ticks s) ps (calls s).

(** The steps; [idle]: hart 0 may be idle when it ticks. *)
Inductive cstep (idle : bool) (s : clock) : clock → Prop :=
  | k_tick c s' : runs s c → clockintr (Some c) s = Done s' → cstep idle s s'
  | k_idle s' : idle = true → clockintr None s = Done s' → cstep idle s s'
  | k_call i n s' r : runs s i → calls s !! i = Some None → sleep_call i n s = Done (s', r) → cstep idle s s'
  | k_again i t0 n s' r : runs s i → calls s !! i = Some (Some (t0, n)) →
      sleep_again i t0 n s = Done (s', r) → cstep idle s s'
  | k_block i chn : runs s i → calls s !! i = Some None → cstep idle s (at_tab s (sleep_enter i chn (ctab s)))
  | k_wakeup c chn : cstep idle s (at_tab s (wakeup c chn (ctab s)))
  | k_pick i ps : sched_pick i (ctab s) = Some ps → cstep idle s (at_tab s ps)
  | k_yield i : runs s i → cstep idle s (at_tab s (yielding i (ctab s)))
  | k_kill pd : cstep idle s (at_tab s (kill pd (ctab s)).1).

Definition clock_new (ps : Procs U T F I) : clock := mkClock 0 ps (replicate (length (pool ps)) None).

(** ** No process oversleeps *)
Record on_time (s : clock) : Prop := {
  ot_len : length (calls s) = length (pool (ctab s));
  ot_past i t0 n : calls s !! i = Some (Some (t0, n)) → t0 ≤ ticks s;
  ot_asleep i t0 n p : calls s !! i = Some (Some (t0, n)) → pool (ctab s) !! i = Some p →
    state (inner p) = SLEEPING → chan (inner p) = addr ∧ ticks s - t0 < n;
}.

Lemma on_time_new ps : on_time (clock_new ps).
Proof.
  split; cbn; [by rewrite length_replicate| |]; intros i t0 n *; intros [[=] _]%lookup_replicate.
Qed.

(** Changes of the table that put nobody to sleep. *)
Lemma on_time_calm s ps : on_time s → calm (ctab s) ps → on_time (at_tab s ps).
Proof.
  intros [Hl Hp Ha] [Hlen Hc]. split; cbn; [congruence|done|]. intros i t0 n p' Hi Hp' Hst.
  destruct (Hc _ _ Hp') as (p & Hpp & _ & Hs). destruct (Hs Hst) as [Hs1 ->]. by apply (Ha i t0 n p).
Qed.

(** A tick while a process runs wakes every sleeper. *)
Lemma tick_wakes s c t : on_time s → runs s c → ticks s < t → on_time (mkClock t (wakeup (Some c) addr (ctab s)) (calls s)).
Proof.
  intros [Hl Hp Ha] (pc & Hpc & Hrun) Ht. split; cbn [calls ticks ctab].
  - rewrite Hl. cbn. by rewrite length_imap.
  - intros i t0 n Hi. pose proof (Hp _ _ _ Hi). lia.
  - intros i t0 n p' Hi. rewrite wakeup_lookup. destruct (pool (ctab s) !! i) as [p|] eqn:Hpi; [|done]. cbn.
    intros [= <-]. unfold wake_one. destruct (decide _) as [|Hno]; [done|]. intros Hst. exfalso. apply Hno.
    destruct (Ha i t0 n p Hi Hpi Hst) as [Hch _]. split_and!; [|done|done]. intros ->. congruence.
Qed.

(** A round leaves the caller asleep only before its time. *)
Lemma round_on_time s i t0 n s' r :
  on_time s → runs s i → t0 ≤ ticks s → sleep_round i t0 n s = Done (s', r) → on_time s'.
Proof.
  intros [Hl Hp Ha] (p & Hpi & Hrun) Ht. unfold sleep_round. rewrite Hpi, checked_sub_ok by done. cbn [mbind outcome_bind].
  assert (Hlt : (i < length (calls s))%nat) by (rewrite Hl; by eapply lookup_lt_Some).
  assert (Hdone : on_time (mkClock (ticks s) (ctab s) (<[i := None]> (calls s)))).
  { split; cbn [calls ticks ctab]; [by rewrite length_insert| |]; intros j t1 n1 *; rewrite lookup_upd by done;
      (case_decide; [done|]); eauto. }
  case_decide as Hd; [|by intros [= <- _]]. destruct (killed (inner p)); [by intros [= <- _]|]. intros [= <- _].
  split; cbn [calls ticks ctab].
  - unfold sleep_enter. rewrite Hpi. cbn. by rewrite !length_insert.
  - intros j t1 n1. rewrite lookup_upd by done. case_decide; [by intros [= <- <-]|apply Hp].
  - intros j t1 n1 q. rewrite lookup_upd by done. unfold sleep_enter. rewrite Hpi, upd_lookup by (by eapply lookup_lt_Some).
    case_decide; [|by apply Ha]. intros [= <- <-] [= <-] _. done.
Qed.

Lemma cstep_on_time s s' : on_time s → cstep false s s' → on_time s'.
Proof.
  intros Hs. pose proof Hs as [Hl Hp Ha]. intros [c x Hr Hc|x Hi|i n x r Hr Hc H|i t0 n x r Hr Hc H|i chn Hr Hc|c chn|i ps Hk|i Hr|pd].
  - unfold clockintr in Hc. apply bind_Done_inv in Hc as (t & Ht & [= <-]). apply tick_wakes; [done|done|].
    unfold checked_add in Ht. case_decide; simplify_eq. lia.
  - done.
  - by eapply round_on_time.
  - destruct Hr as (p & Hpi & Hrun). eapply (round_on_time (at_tab s (sleep_leave i (ctab s)))); [| |apply (Hp _ _ _ Hc)|exact H].
    + by eapply on_time_calm, calm_leave.
    + exists (set_inner p (set_chan (inner p) 0)). cbn [ctab at_tab]. unfold sleep_leave. rewrite Hpi.
      rewrite upd_lookup by (by eapply lookup_lt_Some). by rewrite decide_True.
  - destruct Hr as (p & Hpi & _). split; cbn [calls ticks ctab at_tab]; [|done|].
    + rewrite Hl. unfold sleep_enter. rewrite Hpi. cbn. by rewrite length_insert.
    + intros j t1 n1 q Hj. unfold sleep_enter. rewrite Hpi, upd_lookup by (by eapply lookup_lt_Some).
      case_decide; [congruence|]. by apply Ha.
  - apply on_time_calm, calm_wakeup. done.
  - by eapply on_time_calm, calm_pick.
  - destruct Hr as (p & Hpi & _). by eapply on_time_calm, calm_yield.
  - apply on_time_calm, calm_kill. done.
Qed.

Lemma csteps_on_time s s' : rtc (cstep false) s s' → on_time s → on_time s'.
Proof. induction 1 as [|s s1 s2 Hst _ IH]; intros Hs; [done|]. by eapply IH, cstep_on_time. Qed.

(** What a round of a woken process returns. *)
Lemma again_result s i p t0 n :
  pool (ctab s) !! i = Some p → t0 ≤ ticks s →
  (t0 + n ≤ ticks s → ∃ s', sleep_again i t0 n s = Done (s', Some (Ok 0))) ∧
  (ticks s < t0 + n → ∃ s', sleep_again i t0 n s = Done (s', if killed (inner p) then Some (Err tt) else None)).
Proof.
  intros Hpi Ht. unfold sleep_again, sleep_round. cbn [ctab ticks].
  assert (Hq : pool (sleep_leave i (ctab s)) !! i = Some (set_inner p (set_chan (inner p) 0))).
  { unfold sleep_leave. rewrite Hpi, upd_lookup by (by eapply lookup_lt_Some). by rewrite decide_True. }
  rewrite Hq, checked_sub_ok by done. cbn [mbind outcome_bind]. split; intros Hn.
  - rewrite decide_False by lia. by eexists.
  - rewrite decide_True by lia. change (killed (inner (set_inner p _))) with (killed (inner p)).
    destruct (killed (inner p)); by eexists.
Qed.
End clock.

(** C39. [sleep] sleeps as long as it is asked to.  In every run in which hart 0
    runs a process whenever it ticks: a process in the call is never asleep once
    its ticks have passed, and its next round then returns 0; before that a
    round goes back to sleep, or returns an error if the process was killed. *)
Theorem sleep_on_time {U T F I} addr (ps : Procs U T F I) s i p t0 n
    (Hrun : rtc (cstep addr false) (clock_new ps) s)
    (Hi : calls s !! i = Some (Some (t0, n))) (Hp : pool (ctab s) !! i = Some p) :
  (t0 + n ≤ ticks s → state (inner p) ≠ SLEEPING ∧ ∃ s', sleep_again addr i t0 n s = Done (s', Some (Ok 0))) ∧
  (ticks s < t0 + n → ∃ s', sleep_again addr i t0 n s = Done (s', if killed (inner p) then Some (Err tt) else None)).
Proof.
  pose proof (csteps_on_time addr _ _ Hrun (on_time_new addr ps)) as [Hl Hpast Ha].
  destruct (again_result addr s i p t0 n Hp (Hpast _ _ _ Hi)) as [H1 H2]. split; [|done].
  intros Hn. split; [|by apply H1]. intros Hst. destruct (Ha i t0 n p Hi Hp Hst). lia.
Qed.

(** Two processes, the first of which sleeps for one tick. *)
Definition two_procs : Procs unit unit unit unit :=
  mkProcs ((λ k, mkProc (mkInner RUNNING 0 false 0 k) None (data_new 0)) <$> [1; 2]) 3 0.
Definition one_asleep : clock := mkClock 0 (sleep_enter 0 77 two_procs) [Some (0, 1); None].
Definition one_woken : clock := mkClock 1 (wakeup (Some 1%nat) 77 (sleep_enter 0 77 two_procs)) [Some (0, 1); None].

Lemma one_asleep_reachable idle : rtc (cstep 77 idle) (clock_new two_procs) one_asleep.
Proof.
  apply rtc_once. apply (k_call _ _ _ 0 1 _ None); [|done|by vm_compute]. by eexists.
Qed.

Lemma sleep_on_time_witness : ∃ s', sleep_again 77 0 0 1 one_woken = Done (s', Some (Ok 0)).
Proof.
  edestruct (sleep_on_time 77 two_procs one_woken 0) as [H _]; [|done|done|].
  - etrans; [apply one_asleep_reachable|]. apply rtc_once. apply (k_tick _ _ _ 1); [|by vm_compute]. by eexists.
  - apply H. by vm_compute.
Defined.

(** But a tick of an idle hart 0 wakes nobody: the process that slept for one
    tick is asleep after any number of them. *)
Theorem sleep_misses_idle_ticks (k : nat) :
  Z.of_nat k < usize_mod →
  ∃ s p, rtc (cstep 77 true) (clock_new two_procs) s ∧ ticks s = Z.of_nat k ∧
    calls s !! 0%nat = Some (Some (0, 1)) ∧ pool (ctab s) !! 0%nat = Some p ∧ state (inner p) = SLEEPING.
Proof.
  intros Hk. assert (H : ∃ s, rtc (cstep 77 true) (clock_new two_procs) s ∧ s = mkClock (Z.of_nat k) (ctab one_asleep) (calls one_asleep)).
  { induction k as [|k IH]; [exists one_asleep; split; [apply one_asleep_reachable|done]|].
    destruct IH as (s & Hr & ->); [lia|]. eexists. split; [|done]. eapply rtc_r; [exact Hr|]. apply k_idle; [done|].
    unfold clockintr. cbn [ticks]. rewrite checked_add_ok by lia. cbn [mbind outcome_bind].
    by replace (Z.of_nat k + 1) with (Z.of_nat (S k)) by lia. }
  destruct H as (s & Hr & ->). eexists _, _. by split_and!.
Qed.
