(* ===== verification/Condvar.v ===== *)
(** * Condition variables on the process table ([condvar.rs])

    [Channel] has the semaphores and channels of [semaphore.rs] and [mpmc.rs]
    with threads that wait by taking no step.  Here the threads are processes:
    one that has to wait sleeps on the address of a [Condvar], and [notify_all]
    wakes those that sleep there.  The theorem is that no wakeup is lost: a
    sender sleeps only while the channel is full, a receiver only while it is
    empty. *)

From S2P Require Import Prelude Channel Proc ProcSpec Sleeplock SleeplockSpec.

Open Scope Z_scope.

Section condvar.
Context {U T F I : Type} {D : Type}.
Implicit Types (ps : Procs U T F I).

(** A [Condvar] is its address. *)
Definition cond_wait (i : nat) (cond : Z) ps : Procs U T F I := sleep_enter i cond ps.
Definition notify_all (i : nat) (cond : Z) ps : Procs U T F I := wakeup (Some i) cond ps.

Variables (max sem_cond buf_cond : Z).

(** Where a process is: outside, in the loop of [Semaphore::wait], before
    [push_back], in the loop of [recv], before [Semaphore::post]. *)
Inductive ppc := POut | PWait (d : D) | PPush (d : D) | PRecv | PPost (d : D).

Record pchan := mkPc { pcnt : Z; pbuf : list D; ptab : Procs U T F I; pat : list ppc }.

Definition pmove (s : pchan) (i : nat) (x : ppc) : pchan := mkPc (pcnt s) (pbuf s) (ptab s) (<[i := x]> (pat s)).
Definition pset (s : pchan) ps : pchan := mkPc (pcnt s) (pbuf s) ps (pat s).

(** One round of [Semaphore::wait] in [send]. *)
Definition send_round (s : pchan) (i : nat) (d : D) : pchan :=
  match sem_wait max (pcnt s) with
  | None => pmove (pset s (cond_wait i sem_cond (ptab s))) i (PWait d)
  | Some c => pmove (mkPc c (pbuf s) (ptab s) (pat s)) i (PPush d)
  end.

(** The rest of [send], under the lock of the list. *)
Definition send_notify (s : pchan) (i : nat) (d : D) : pchan :=
  pmove (mkPc (pcnt s) (pbuf s ++ [d]) (notify_all i buf_cond (ptab s)) (pat s)) i POut.

(** One round of [recv], and its [Semaphore::post]. *)
Definition recv_round (s : pchan) (i : nat) : pchan :=
  match pbuf s with
  | [] => pmove (pset s (cond_wait i buf_cond (ptab s))) i PRecv
  | d :: b => pmove (mkPc (pcnt s) b (ptab s) (pat s)) i (PPost d)
  end.
Definition post_notify (s : pchan) (i : nat) : outcome pchan :=
  '(c, wake) ← sem_post max (pcnt s);
  Done (pmove (mkPc c (pbuf s) (if (wake : bool) then notify_all i sem_cond (ptab s) else ptab s) (pat s)) i POut).

Definition prun (s : pchan) (i : nat) : Prop :=
  ∃ p, pool (ptab s) !! i = Some p ∧ state (inner p) = RUNNING.

Inductive qstep (s : pchan) : pchan → Prop :=
  | q_send i d : prun s i → pat s !! i = Some POut → qstep s (send_round s i d)
  | q_wait i d : prun s i → pat s !! i = Some (PWait d) → qstep s (send_round (pset s (sleep_leave i (ptab s))) i d)
  | q_push i d : prun s i → pat s !! i = Some (PPush d) → qstep s (send_notify s i d)
  | q_recv i : prun s i → pat s !! i = Some POut → qstep s (recv_round s i)
  | q_again i : prun s i → pat s !! i = Some PRecv → qstep s (recv_round (pset s (sleep_leave i (ptab s))) i)
  | q_post i d s' : prun s i → pat s !! i = Some (PPost d) → post_notify s i = Done s' → qstep s s'
  | q_block i chn : prun s i → pat s !! i = Some POut → qstep s (pset s (sleep_enter i chn (ptab s)))
  | q_wakeup c chn : qstep s (pset s (wakeup c chn (ptab s)))
  | q_pick i ps : sched_pick i (ptab s) = Some ps → qstep s (pset s ps)
  | q_yield i : prun s i → qstep s (pset s (yielding i (ptab s)))
  | q_kill pd : qstep s (pset s (kill pd (ptab s)).1).

Definition pchan_new ps : pchan := mkPc 0 [] ps (replicate (length (pool ps)) POut).

(** ** No wakeup is lost *)

(** Who sleeps where, and why it is right to. *)
Definition sleeps_well (s : pchan) (x : ppc) (chn : Z) : Prop :=
  match x with
  | PWait _ => chn = sem_cond ∧ max ≤ pcnt s
  | PRecv => chn = buf_cond ∧ pbuf s = []
  | _ => False
  end.

Record awake (s : pchan) : Prop := {
  aw_len : length (pat s) = length (pool (ptab s));
  aw_sleep i p x : pool (ptab s) !! i = Some p → pat s !! i = Some x → state (inner p) = SLEEPING →
    x ≠ POut → sleeps_well s x (chan (inner p));
}.

Lemma awake_calm s ps : awake s → calm (ptab s) ps → awake (pset s ps).
Proof.
  intros [Hl Ha] [Hlen Hc]. split; cbn [pset pat ptab]; [congruence|]. intros i p' x Hp' Hx Hst Hne.
  destruct (Hc _ _ Hp') as (p & Hp & _ & Hs). destruct (Hs Hst) as [Hs1 ->]. by apply (Ha i p x).
Qed.

(** A process that runs moves on, with the state as it is for the others. *)
Lemma awake_move s s' i x :
  awake s → prun s i → ptab s' = ptab s → pat s' = <[i := x]> (pat s) →
  (∀ j p y, j ≠ i → pool (ptab s) !! j = Some p → pat s !! j = Some y → state (inner p) = SLEEPING →
     y ≠ POut → sleeps_well s y (chan (inner p)) → sleeps_well s' y (chan (inner p))) →
  awake s'.
Proof.
  intros [Hl Ha] (q & Hq & Hrun) Ht Hp Hk. assert (Hi : (i < length (pat s))%nat) by (rewrite Hl; by eapply lookup_lt_Some).
  split; rewrite Ht, Hp; [by rewrite length_insert|]. intros j p y Hpj. rewrite lookup_upd by done.
  case_decide as Hj; [subst j; congruence|]. intros Hy Hst Hne. eapply Hk; eauto.
Qed.

(** A process that runs goes to sleep for a good reason. *)
Lemma awake_sleep s i x cond :
  awake s → prun s i → sleeps_well s x cond → awake (pmove (pset s (cond_wait i cond (ptab s))) i x).
Proof.
  intros [Hl Ha] (q & Hq & Hrun) Hx. assert (Hi : (i < length (pat s))%nat) by (rewrite Hl; by eapply lookup_lt_Some).
  split; cbn [pmove pset pat ptab]; unfold cond_wait, sleep_enter; rewrite Hq.
  - cbn. by rewrite !length_insert.
  - intros j p y. rewrite upd_lookup by (by eapply lookup_lt_Some). rewrite lookup_upd by done. case_decide as Hj.
    + intros [= <-] [= <-] _ _. exact Hx.
    + intros Hp Hy Hst Hne. by apply (Ha j p y).
Qed.

(** After [notify_all] nobody sleeps on the condition. *)
Lemma notified s i cond j p :
  prun s i → pool (notify_all i cond (ptab s)) !! j = Some p → state (inner p) = SLEEPING → chan (inner p) ≠ cond.
Proof.
  intros (q & Hq & Hrun). unfold notify_all. rewrite wakeup_lookup. destruct (pool (ptab s) !! j) as [p0|] eqn:Hj; [|done]. cbn.
  intros [= <-]. unfold wake_one. destruct (decide _) as [|Hno]; [done|]. intros Hst Hc. apply Hno.
  split_and!; [|done|done]. intros ->. congruence.
Qed.

(** A change of the channel after which everyone on [cond] is woken. *)
Lemma awake_notify s s' i x cond :
  awake s → prun s i → ptab s' = notify_all i cond (ptab s) → pat s' = <[i := x]> (pat s) →
  (∀ y chn, chn ≠ cond → sleeps_well s y chn → sleeps_well s' y chn) → awake s'.
Proof.
  intros Hs Hr Ht Hp Hk. pose proof (awake_calm _ _ Hs (calm_wakeup (Some i) cond (ptab s))) as [Hl Ha].
  destruct Hr as (q & Hq & Hrun) eqn:Er. clear Er. pose proof Hs as [Hl0 _].
  assert (Hi : (i < length (pat s))%nat) by (rewrite Hl0; by eapply lookup_lt_Some).
  split; rewrite Ht, Hp.
  - rewrite length_insert. exact Hl.
  - intros j p y Hpj. rewrite lookup_upd by done. case_decide as Hj.
    + subst j. intros _ Hst. exfalso. unfold notify_all in Hpj. rewrite wakeup_lookup, Hq in Hpj. cbn in Hpj.
      injection Hpj as <-. unfold wake_one in Hst. rewrite decide_False in Hst by tauto. congruence.
    + intros Hy Hst Hne. apply Hk; [|by apply (Ha j p y)]. eapply notified; [|exact Hpj|done]. by exists q.
Qed.

Lemma sem_wait_cases c : (sem_wait max c = None ∧ max ≤ c) ∨ (sem_wait max c = Some (c + 1) ∧ c < max).
Proof. unfold sem_wait. case_decide; [left|right]; (split; [done|lia]). Qed.

Lemma send_round_awake s i d : awake s → prun s i → awake (send_round s i d).
Proof.
  intros Hs Hr. unfold send_round. destruct (sem_wait_cases (pcnt s)) as [[-> Hc]|[-> Hc]].
  - by apply awake_sleep.
  - eapply (awake_move s); [done|done|done|done|]. intros j p [] _ _ _ _ _; cbn; try done. intros [? ?]. split; [done|lia].
Qed.

Lemma recv_round_awake s i : awake s → prun s i → awake (recv_round s i).
Proof.
  intros Hs Hr. unfold recv_round. destruct (pbuf s) as [|d b] eqn:Eb.
  - by apply awake_sleep.
  - eapply (awake_move s); [done|done|done|done|]. intros j p [] _ _ _ _ _; cbn; try done. rewrite Eb. by intros [_ ?].
Qed.

Lemma post_awake s i s' : awake s → prun s i → post_notify s i = Done s' → awake s'.
Proof.
  intros Hs Hr. unfold post_notify, sem_post. case_decide as Hc; [|done]. cbn [mbind outcome_bind]. intros [= <-].
  case_bool_decide as Hw.
  - eapply (awake_notify s); [done|done|done|done|]. intros [] chn Hch; cbn; try done. by intros [? _].
  - eapply (awake_move s); [done|done|done|done|]. intros j p [] _ _ _ _ _; cbn; try done. intros [? ?]. split; [done|lia].
Qed.

(** Before the next round of its loop a process tidies up after [sched]. *)
Lemma leave_awake s i : awake s → prun s i → awake (pset s (sleep_leave i (ptab s))) ∧ prun (pset s (sleep_leave i (ptab s))) i.
Proof.
  intros Hs (p & Hp & Hrun). split; [by eapply awake_calm, calm_leave|].
  exists (set_inner p (set_chan (inner p) 0)). cbn [ptab pset]. unfold sleep_leave. rewrite Hp.
  rewrite upd_lookup by (by eapply lookup_lt_Some). by rewrite decide_True.
Qed.

Lemma qstep_awake s s' : awake s → qstep s s' → awake s'.
Proof.
  intros Hs. intros [i d Hr Hp|i d Hr Hp|i d Hr Hp|i Hr Hp|i Hr Hp|i d x Hr Hp H|i chn Hr Hp|c chn|i ps Hk|i Hr|pd].
  - by apply send_round_awake.
  - destruct (leave_awake _ _ Hs Hr). by apply send_round_awake.
  - eapply (awake_notify s); [done|done|done|done|]. intros [] chn Hch; cbn; try done. by intros [? _].
  - by apply recv_round_awake.
  - destruct (leave_awake _ _ Hs Hr). by apply recv_round_awake.
  - by eapply post_awake.
  - destruct Hs as [Hl Ha], Hr as (q & Hq & _). split; cbn [pset pat ptab]; unfold sleep_enter; rewrite Hq.
    + cbn. by rewrite length_insert.
    + intros j p x. rewrite upd_lookup by (by eapply lookup_lt_Some). case_decide; [congruence|]. apply Ha.
  - apply awake_calm, calm_wakeup. done.
  - by eapply awake_calm, calm_pick.
  - destruct Hr as (p & Hp & _). by eapply awake_calm, calm_yield.
  - apply awake_calm, calm_kill. done.
Qed.

(** ** The count *)
Definition places (x : ppc) : Z := match x with PPush _ | PPost _ => 1 | _ => 0 end.
Record counted (s : pchan) : Prop := {
  cd_cnt : pcnt s = Z.of_nat (length (pbuf s)) + tally places (pat s);
  cd_max : pcnt s ≤ max;
}.

Lemma counted_move s s' i x y :
  counted s → pat s !! i = Some x → pat s' = <[i := y]> (pat s) → pcnt s' ≤ max →
  pcnt s' - Z.of_nat (length (pbuf s')) - places y = pcnt s - Z.of_nat (length (pbuf s)) - places x → counted s'.
Proof.
  intros [Hc Hm] Hx Hp Hle He. split; [|done]. rewrite Hp, (tally_insert _ _ _ _ _ Hx). lia.
Qed.

Lemma send_round_counted s i d x : counted s → pat s !! i = Some x → places x = 0 → counted (send_round s i d).
Proof.
  intros Hs Hx H0. pose proof (cd_max _ Hs). unfold send_round. destruct (sem_wait_cases (pcnt s)) as [[-> Hc]|[-> Hc]];
    (eapply (counted_move s); [done|done|done|cbn; lia|cbn; lia]).
Qed.

Lemma recv_round_counted s i x : counted s → pat s !! i = Some x → places x = 0 → counted (recv_round s i).
Proof.
  intros Hs Hx H0. pose proof (cd_max _ Hs). unfold recv_round. destruct (pbuf s) as [|d b] eqn:Eb;
    (eapply (counted_move s); [done|done|done|cbn; lia|cbn; rewrite Eb; cbn; lia]).
Qed.

Lemma places_nonneg x : 0 ≤ places x.
Proof. by destruct x. Qed.

Lemma post_possible s i d : counted s → pat s !! i = Some (PPost d) → 0 < pcnt s.
Proof. intros [Hc _] Hi. pose proof (tally_lookup _ _ _ _ places_nonneg Hi) as Hw. cbn in Hw. lia. Qed.

Lemma qstep_counted s s' : counted s → qstep s s' → counted s'.
Proof.
  intros Hs. pose proof Hs as [Hc Hm].
  intros [i d Hr Hp|i d Hr Hp|i d Hr Hp|i Hr Hp|i Hr Hp|i d x Hr Hp H|i chn Hr Hp|c chn|i ps Hk|i Hr|pd]; try by split.
  - by eapply send_round_counted.
  - by eapply (send_round_counted (pset s _)).
  - eapply (counted_move s); [done|done|done|done|]. cbn. rewrite length_app. cbn. lia.
  - by eapply recv_round_counted.
  - by eapply (recv_round_counted (pset s _)).
  - unfold post_notify, sem_post in H. case_decide; [|done]. cbn [mbind outcome_bind] in H. injection H as <-.
    eapply (counted_move s); [done|done|done|cbn; lia|cbn; lia].
Qed.

Lemma qsteps_inv s s' : rtc qstep s s' → awake s → counted s → awake s' ∧ counted s'.
Proof.
  induction 1 as [|s s1 s2 Hst _ IH]; intros Ha Hc; [done|]. apply IH; [by eapply qstep_awake|by eapply qstep_counted].
Qed.

Lemma pchan_new_inv ps : 0 ≤ max → awake (pchan_new ps) ∧ counted (pchan_new ps).
Proof.
  intros Hm. split; split; cbn [pchan_new pat ptab pcnt pbuf length].
  - by rewrite length_replicate.
  - intros i p x _ [-> _]%lookup_replicate. done.
  - rewrite tally_zero; [done|]. intros x Hx. by apply elem_of_replicate in Hx as [-> _].
  - done.
Qed.
End condvar.

(** C23. No wakeup of a channel is lost.  In every run of the processes that
    share it, a sender that sleeps finds all [max] places taken, by items in the
    list or by processes between the semaphore and the list; a receiver that
    sleeps finds the list empty; and the assertion of [post] holds. *)
Theorem channel_no_lost_wakeup {U T F I D} (max sem_cond buf_cond : Z) (ps : Procs U T F I) (s : pchan (D := D)) i p x
    (Hmax : 0 ≤ max) (Hrun : rtc (qstep max sem_cond buf_cond) (pchan_new ps) s)
    (Hp : pool (ptab s) !! i = Some p) (Hx : pat s !! i = Some x) :
  (state (inner p) = SLEEPING → match x with
     | PWait _ => Z.of_nat (length (pbuf s)) + tally places (pat s) = max
     | PRecv => pbuf s = []
     | POut => True
     | _ => False
     end) ∧
  (∀ d, x = PPost d → ∃ s', post_notify max sem_cond s i = Done s').
Proof.
  destruct (pchan_new_inv (D := D) max sem_cond buf_cond ps Hmax) as [Ha0 Hc0].
  destruct (qsteps_inv _ _ _ _ _ Hrun Ha0 Hc0) as [[_ Ha] Hc]. pose proof Hc as [Hcnt Hle]. split.
  - intros Hst. pose proof (Ha i p x Hp Hx Hst) as Hw. destruct x; cbn in Hw; [done|..].
    + destruct Hw as [_ ?]; [done|lia].
    + by apply Hw.
    + by destruct Hw as [_ ?].
    + by apply Hw.
  - intros d ->. unfold post_notify, sem_post. rewrite decide_True by (by eapply post_possible). by eexists.
Qed.

(** Two processes; the first waits in [recv] for the second to send. *)
Definition two_users : Procs unit unit unit unit :=
  mkProcs ((λ k, mkProc (mkInner RUNNING 0 false 0 k) None (data_new 0)) <$> [1; 2]) 3 0.
Definition one_receiver : pchan (D := Z) := mkPc 0 [] (sleep_enter 0 200 two_users) [PRecv; POut].

Lemma channel_no_lost_wakeup_witness : pbuf one_receiver = [].
Proof.
  destruct (channel_no_lost_wakeup (D := Z) 512 100 200 two_users one_receiver 0
    (mkProc (mkInner SLEEPING 200 false 0 1) None (data_new 0)) PRecv) as [H _]; [done| |done|done|by apply H].
  apply rtc_once. change one_receiver with (recv_round 200 (pchan_new (D := Z) two_users) 0). apply q_recv; [by eexists|done].
Defined.
