(* ===== verification/Spinlock.v ===== *)
(** * Interrupt nesting and spin locks ([spinlock.rs], [Cpu::lock] of [proc.rs])

    Taking a spin lock disables interrupts on the cpu; a counter keeps the
    depth, so that interrupts come back, in the state they had, when the last
    guard is dropped.  A cpu's state is its counter, the saved flag and the
    interrupt-enable bit of [sstatus]; a lock records the cpu that holds it. *)

From S2P Require Import Prelude.

Open Scope Z_scope.

Record Cpu := mkCpu {
  noff : Z;        (* depth *)
  intena : bool;   (* were interrupts enabled before the first lock? *)
  sie : bool;      (* [intr_get()] *)
}.

(** [Cpus::intr_lock] with [Cpu::lock]. *)
Definition intr_lock (c : Cpu) : Cpu :=
  let old := sie c in
  mkCpu (noff c + 1) (if decide (noff c = 0) then old else intena c) false.

(** [Cpu::unlock]. *)
Definition intr_unlock (c : Cpu) : outcome Cpu :=
  if sie c then Panic "unlock - interruptible"
  else if decide (1 ≤ noff c) then
    let n := noff c - 1 in
    Done (mkCpu n (intena c) (if decide (n = 0) then intena c else sie c))
  else Panic "unlock".

(** A lock: the cpu that holds it. *)
Abbreviation mutex := (option nat).

Definition holding (m : mutex) (cpu : nat) : bool := bool_decide (m = Some cpu).

(** [Mutex::lock] by cpu [id], one try of the exchange: [None] when it spins
    (interrupts stay disabled meanwhile). *)
Definition mutex_lock (c : Cpu) (id : nat) (m : mutex) : outcome (Cpu * option mutex) :=
  let c1 := intr_lock c in
  if holding m id then Panic "acquire"
  else match m with
       | None => Done (c1, Some (Some id))
       | Some _ => Done (c1, None)
       end.

(** [Drop for MutexGuard], then the drop of its [IntrLock]. *)
Definition mutex_unlock (c : Cpu) (id : nat) (m : mutex) : outcome (Cpu * mutex) :=
  if sie c then Panic "interrupts enabled"
  else if holding m id then c1 ← intr_unlock c; Done (c1, None)
  else Panic "release".

(** [Mutex::force_unlock]. *)
Definition force_unlock (c : Cpu) (id : nat) (m : mutex) : outcome (Cpu * mutex) :=
  if holding m id then c1 ← intr_unlock c; Done (c1, None) else Panic "force unlock".

(** The assertions of [Cpu::sched]; [running]: the process's state is [RUNNING]. *)
Definition sched_checks (c : Cpu) (held running : bool) : outcome unit :=
  if negb held then Panic "sched proc lock"
  else if decide (noff c ≠ 1) then Panic "sched multiple locks"
  else if running then Panic "shced running"
  else if sie c then Panic "sched interruptible"
  else Done tt.

(** A run: [true] takes a lock, [false] drops one. *)
Fixpoint run (ops : list bool) (c : Cpu) : outcome Cpu :=
  match ops with
  | [] => Done c
  | true :: ops => run ops (intr_lock c)
  | false :: ops => c1 ← intr_unlock c; run ops c1
  end.

(** The depth after a run, [None] when it would go below zero. *)
Fixpoint depth (ops : list bool) (d : Z) : option Z :=
  match ops with
  | [] => Some d
  | true :: ops => depth ops (d + 1)
  | false :: ops => if decide (1 ≤ d) then depth ops (d - 1) else None
  end.

(** The state at depth [d] of a cpu that had interrupts [b] outside. *)
Definition nested (b : bool) (d : Z) (c : Cpu) : Prop :=
  0 ≤ d ∧ noff c = d ∧ sie c = (if decide (d = 0) then b else false) ∧ (d ≠ 0 → intena c = b).

Lemma run_nested b ops d c d' :
  nested b d c → depth ops d = Some d' → ∃ c', run ops c = Done c' ∧ nested b d' c'.
Proof.
  revert d c. induction ops as [|[] ops IH]; intros d c Hn Hd; cbn [run depth] in *.
  - simplify_eq. eauto.
  - apply (IH (d + 1)); [|done]. destruct Hn as (H0 & H1 & H2 & H3). split_and!; cbn; [lia|lia| |].
    + by rewrite decide_False by lia.
    + intros _. rewrite H1. destruct (decide (d = 0)) as [->|Hd0]; [by rewrite H2|]. by apply H3.
  - destruct (decide (1 ≤ d)) as [Hle|]; [|done]. destruct Hn as (H0 & H1 & H2 & H3).
    unfold intr_unlock. rewrite H2, decide_False by lia. rewrite H1.
    rewrite decide_True by done. cbn [mbind outcome_bind].
    apply (IH (d - 1)); [|done]. split_and!; cbn; [lia|lia| |intros _; apply H3; lia].
    rewrite H3 by lia. by destruct (decide (d - 1 = 0)).
Qed.

(** Interrupt nesting.  For any order of taking and dropping locks on a
    cpu that never drops more than it took, starting outside all locks: no
    assertion fails, interrupts are off whenever a lock is held, and when
    none is held they are as they were at the start. *)
Theorem intr_nesting b i ops d :
  depth ops 0 = Some d →
  ∃ c, run ops (mkCpu 0 i b) = Done c ∧ noff c = d ∧ 0 ≤ d ∧
    (d ≠ 0 → sie c = false) ∧ (d = 0 → sie c = b).
Proof.
  intros Hd. destruct (run_nested b ops 0 (mkCpu 0 i b) d) as (c & Hr & H0 & H1 & H2 & H3); [|done|].
  - split_and!; cbn; [lia|done|done|done].
  - exists c. split_and!; [done|done|done| |]; intros Hz; rewrite H2; [by rewrite decide_False|by rewrite decide_True].
Qed.

Lemma intr_nesting_witness :
  ∃ c, run [true; true; false; true; false; false] (mkCpu 0 false true) = Done c ∧ sie c = true.
Proof.
  destruct (intr_nesting true false [true; true; false; true; false; false] 0) as (c & H1 & _ & _ & _ & H2);
    [reflexivity|]. exists c. auto.
Defined.
