(* ===== verification/Sched.v ===== *)
(** * Scheduling on several harts ([scheduler], [Cpu::sched], [fork_ret],
      [yielding] of [proc.rs] with the locks of [spinlock.rs])

    Each hart runs the scheduler's loop or the thread of a process; a slot of
    the process table has its state, its spin lock and where [swtch] resumes
    it.  One step is one access to a shared word: an attempt to take a lock,
    the work under a lock with its release, or a switch.  A guard that code
    holds is a place in the program ([pc]); the guard that the scheduler leaves
    for [fork_ret] is [proc_lock]. *)

From S2P Require Import Prelude Proc Spinlock.

Open Scope Z_scope.

Record slot := mkSlot {
  st : ProcState;
  lk : mutex;          (* the hart that holds the lock *)
  back : bool;         (* [false]: resumes at [fork_ret], [true]: inside [sched] *)
  kept : bool;         (* [intena], a local of [sched] *)
}.

(** Where a hart is.  [i] is the slot of the process whose thread runs. *)
Inductive pc :=
  | SLoop                             (* top of the scheduler's loop *)
  | SAt (i : nat)                     (* before [p.inner.lock()] of slot [i] *)
  | SSpin (i : nat)                   (* in the loop of [lock] *)
  | SGot (i : nat)
  | SBack (i : nat)                   (* [swtch] returned to the scheduler *)
  | PNew (i : nat)                    (* the first instruction of [fork_ret] *)
  | PRun (i : nat)
  | PSpin (i : nat) (to : ProcState)  (* taking the own lock, to become [to] and call [sched] *)
  | PGot (i : nat) (to : ProcState)
  | PBack (i : nat)                   (* [swtch] returned inside [sched] *)
  | VSpin (i j : nat) (to : ProcState)   (* taking the lock of slot [j] *)
  | VGot (i j : nat) (to : ProcState)
  | Crashed (msg : string).

Record core := mkCore {
  kc : Cpu;
  proc : option nat;
  proc_lock : option nat;
  at_ : pc;
}.

Record sys := mkSys { cores : list core; slots : list slot }.

Definition set_lk (s : slot) (m : mutex) : slot := mkSlot (st s) m (back s) (kept s).
Definition set_st (s : slot) (x : ProcState) : slot := mkSlot x (lk s) (back s) (kept s).

Definition go (s : sys) (k : nat) (c : core) : sys := mkSys (<[k := c]> (cores s)) (slots s).
Definition put_slot (s : sys) (i : nat) (x : slot) : sys := mkSys (cores s) (<[i := x]> (slots s)).
Definition jump (c : core) (kc : Cpu) (p : pc) : core := mkCore kc (proc c) (proc_lock c) p.

(** [Mutex::lock] of slot [i] up to its loop. *)
Definition lock_enter (s : sys) (k : nat) (c : core) (i : nat) (x : slot) (p : pc) : sys :=
  let kc1 := intr_lock (kc c) in
  go s k (jump c kc1 (if holding (lk x) k then Crashed "acquire proc" else p)).

(** One round of that loop; the hart spins while the exchange fails. *)
Definition lock_try (s : sys) (k : nat) (c : core) (i : nat) (x : slot) (p : pc) : option sys :=
  match lk x with
  | None => Some (put_slot (go s k (jump c (kc c) p)) i (set_lk x (Some k)))
  | Some _ => None
  end.

(** The end of a guard of slot [i], whose other fields become those of [y]. *)
Definition unlock (s : sys) (k : nat) (c : core) (i : nat) (y : slot) (p : pc) : sys :=
  match mutex_unlock (kc c) k (lk y) with
  | Done (kc1, m) => put_slot (go s k (jump c kc1 p)) i (set_lk y m)
  | Panic e => go s k (jump c (kc c) (Crashed e))
  | Fault _ => s
  end.

(** What another process does to a slot under its lock: [wakeup] and [kill],
    [alloc_proc], the end of [fork] and its failure, [wait] for a zombie. *)
Definition visit (x : slot) (to : ProcState) : slot :=
  match st x, to with
  | SLEEPING, RUNNABLE => set_st x RUNNABLE
  | UNUSED, USED => mkSlot USED (lk x) false (kept x)
  | USED, RUNNABLE => set_st x RUNNABLE
  | USED, UNUSED | ZOMBIE, UNUSED => set_st x UNUSED
  | _, _ => x
  end.

Inductive choice := Go | Intr (b : bool) | GiveUp (to : ProcState) | Visit (j : nat) (to : ProcState).

(** The step of hart [k]. *)
Definition next (s : sys) (k : nat) (ch : choice) : option sys :=
  match cores s !! k with
  | None => None
  | Some c =>
      match at_ c, ch with
      | SLoop, Go => Some (go s k (jump c (mkCpu (noff (kc c)) (intena (kc c)) true) (SAt 0)))
      | SAt i, Go =>
          match slots s !! i with
          | Some x => Some (lock_enter s k c i x (SSpin i))
          | None => Some (go s k (jump c (kc c) SLoop))
          end
      | SSpin i, Go => x ← slots s !! i; lock_try s k c i x (SGot i)
      | SGot i, Go =>
          x ← slots s !! i;
          if decide (st x = RUNNABLE) then
            let c1 := mkCore (kc c) (Some i) (Some i) (if back x then PBack i else PNew i) in
            let s1 := put_slot (go s k c1) i (set_st x RUNNING) in
            match proc_lock c with
            | None => Some s1
            | Some j => y ← slots s1 !! j; Some (unlock s1 k c1 j y (at_ c1))   (* the guard that [replace] returns *)
            end
          else Some (unlock s k c i x (SAt (S i)))
      | SBack i, Go => Some (go s k (mkCore (kc c) None (proc_lock c) (SAt (S i))))
      | PNew i, Go =>
          match proc_lock c with
          | Some j =>
              x ← slots s !! j;
              Some (unlock s k (mkCore (kc c) (proc c) None (at_ c)) j x (PRun i))
          | None => Some (go s k (jump c (kc c) (PRun i)))
          end
      | PRun i, Intr b => Some (go s k (jump c (mkCpu (noff (kc c)) (intena (kc c)) b) (PRun i)))
      | PRun i, GiveUp to =>
          x ← slots s !! i;
          if decide (to = RUNNING) then None else Some (lock_enter s k c i x (PSpin i to))
      | PSpin i to, Go => x ← slots s !! i; lock_try s k c i x (PGot i to)
      | PGot i to, Go =>
          x ← slots s !! i;
          match sched_checks (kc c) (holding (lk x) k) (bool_decide (to = RUNNING)) with
          | Done _ =>
              Some (put_slot (go s k (mkCore (kc c) (proc c) (proc_lock c) (SBack i))) i
                (mkSlot to (lk x) true (intena (kc c))))
          | Panic e => Some (go s k (jump c (kc c) (Crashed e)))
          | Fault _ => None
          end
      | PBack i, Go =>
          x ← slots s !! i;
          Some (unlock s k (mkCore (mkCpu (noff (kc c)) (kept x) (sie (kc c))) (proc c) (proc_lock c) (at_ c)) i x (PRun i))
      | PRun i, Visit j to =>
          if decide (i = j) then None
          else x ← slots s !! j; Some (lock_enter s k c j x (VSpin i j to))
      | VSpin i j to, Go => x ← slots s !! j; lock_try s k c j x (VGot i j to)
      | VGot i j to, Go => x ← slots s !! j; Some (unlock s k c j (visit x to) (PRun i))
      | _, _ => None
      end
  end.

Inductive step (s : sys) : sys → Prop :=
  | step_at k ch s' : next s k ch = Some s' → step s s'.

(** Harts that start in the scheduler, slots without locks taken. *)
Definition sys_boot (n : nat) (sts : list ProcState) : sys :=
  mkSys (replicate n (mkCore (mkCpu 0 false false) None None SLoop))
        ((λ x, mkSlot x None false false) <$> sts).
