(* ===== verification/SchedSpec.v ===== *)
(** * Correctness of scheduling

    An invariant ties the locks of the slots to the places of the harts; from
    it, no process runs on two harts, a lock is held by one hart, and a process
    that called [sched] is never resumed. *)

From S2P Require Import Prelude Proc Spinlock Sched.

Open Scope Z_scope.

(** The process whose thread a hart runs, and the slot whose lock it holds. *)
Definition own (p : pc) : option nat :=
  match p with
  | PNew i | PRun i | PSpin i _ | PGot i _ | PBack i | VSpin i _ _ | VGot i _ _ => Some i
  | _ => None
  end.
Definition hold (p : pc) : option nat :=
  match p with
  | SGot i | PNew i | PGot i _ | PBack i => Some i
  | VGot _ j _ => Some j
  | _ => None
  end.
Definition crashed (p : pc) : bool := match p with Crashed _ => true | _ => false end.

(** [f] read at the place of hart [k]. *)
Definition reads {B} (f : pc → B) (s : sys) (k : nat) (v : B) : Prop :=
  ∃ c, cores s !! k = Some c ∧ f (at_ c) = v.

Record sinv (s : sys) : Prop := {
  si_run : ∀ k i, reads own s k (Some i) → ∃ x, slots s !! i = Some x ∧ st x = RUNNING;
  si_one : ∀ k k' i, reads own s k (Some i) → reads own s k' (Some i) → k = k';
  si_hold : ∀ k i, reads hold s k (Some i) → ∃ x, slots s !! i = Some x ∧ lk x = Some k ∧ back x = false;
  si_lk : ∀ i x k, slots s !! i = Some x → lk x = Some k →
            back x = true ∨ reads hold s k (Some i) ∨ reads crashed s k true;
  si_back : ∀ i x, slots s !! i = Some x → back x = true → is_Some (lk x) ∧ st x ≠ RUNNING;
  si_guard : ∀ k c, cores s !! k = Some c →
    proc_lock c = match at_ c with PNew i => Some i | Crashed _ => proc_lock c | _ => None end;
  si_pback : ∀ k c i, cores s !! k = Some c → at_ c ≠ PBack i;
}.

Lemma reads_eq {B} (f : pc → B) s k v w : reads f s k v → reads f s k w → v = w.
Proof. intros (c & Hc & <-) (c' & Hc' & <-). congruence. Qed.

(** The places of the harts when hart [k] moves. *)
Lemma reads_go {B} (f : pc → B) s s' k c c' l v :
  cores s !! k = Some c → cores s' = <[k := c']> (cores s) →
  reads f s' l v ↔ if decide (l = k) then f (at_ c') = v else reads f s l v.
Proof.
  intros Hc Hs. unfold reads. rewrite Hs.
  pose proof (lookup_upd (cores s) k c' l (lookup_lt_Some _ _ _ Hc)) as ->.
  destruct (decide (l = k)); [|done]. split; [by intros (? & [= <-] & ?)|by eauto].
Qed.

(** What the fields of a hart must be, given its place. *)
Definition core_ok (c : core) : Prop :=
  (proc_lock c = match at_ c with PNew i => Some i | Crashed _ => proc_lock c | _ => None end) ∧
  ∀ i, at_ c ≠ PBack i.

Lemma core_fields s s' k c c' l d :
  sinv s → cores s !! k = Some c → cores s' = <[k := c']> (cores s) → core_ok c' → cores s' !! l = Some d → core_ok d.
Proof.
  intros Hi Hc Hs Hok. rewrite Hs, (lookup_upd (cores s) k c' l (lookup_lt_Some _ _ _ Hc)).
  destruct (decide (l = k)); [by intros [= <-]|]. intros Hd. split; [by apply (si_guard _ Hi l)|intros i; by apply (si_pback _ Hi l)].
Qed.

(** Hart [k] moves and no slot changes. *)
Lemma sinv_go s s' k c c' :
  sinv s → cores s !! k = Some c → cores s' = <[k := c']> (cores s) → slots s' = slots s →
  (own (at_ c') = own (at_ c) ∨ own (at_ c') = None) →
  (hold (at_ c') = hold (at_ c) ∨ crashed (at_ c') = true) → crashed (at_ c) = false →
  core_ok c' → sinv s'.
Proof.
  intros Hi Hc Hs Hsl Hown Hhold Hcr Hok.
  assert (Hko : reads own s k (own (at_ c))) by (by exists c).
  assert (Hkh : reads hold s k (hold (at_ c))) by (by exists c).
  assert (Hkc : reads crashed s k false) by (by exists c).
  assert (Hto : ∀ l i, reads own s' l (Some i) → reads own s l (Some i)).
  { intros l i Hl. apply (reads_go own _ _ _ _ _ _ _ Hc Hs) in Hl. destruct (decide (l = k)) as [->|]; [|done].
    destruct Hown as [Ho|Ho]; rewrite Ho in Hl; [by rewrite Hl in Hko|done]. }
  assert (Hth : ∀ l i, reads hold s' l (Some i) → reads hold s l (Some i)).
  { intros l i Hl. apply (reads_go hold _ _ _ _ _ _ _ Hc Hs) in Hl. destruct (decide (l = k)) as [->|]; [|done].
    destruct Hhold as [Ho|Ho]; [rewrite Ho in Hl; by rewrite Hl in Hkh|by destruct (at_ c')]. }
  split; rewrite ?Hsl.
  - intros l i Hl%Hto. by apply (si_run _ Hi l).
  - intros l l' i Hl%Hto Hl'%Hto. by apply (si_one _ Hi l l' i).
  - intros l i Hl%Hth. by apply (si_hold _ Hi).
  - intros i x l Hx Hlk. destruct (si_lk _ Hi i x l Hx Hlk) as [?|[Hh|Hr]]; [by left|..]; right.
    + rewrite (reads_go hold _ _ _ _ _ _ _ Hc Hs), (reads_go crashed _ _ _ _ _ _ _ Hc Hs).
      destruct (decide (l = k)) as [->|]; [|by left]. destruct Hhold as [->|]; [left|by right].
      by apply (reads_eq hold s k).
    + right. rewrite (reads_go crashed _ _ _ _ _ _ _ Hc Hs). destruct (decide (l = k)) as [->|]; [|done].
      by pose proof (reads_eq _ _ _ _ _ Hr Hkc).
  - intros i x. apply (si_back _ Hi).
  - intros l d Hd. by apply (core_fields s s' k c c' l d).
  - intros l d i Hd. by apply (core_fields s s' k c c' l d).
Qed.

(** What a step of hart [k] from the place [p] to [p'] may do to slot [i]. *)
Record slot_move (k i : nat) (p p' : pc) (x x' : slot) : Prop := {
  sm_own : own p' = own p ∨ own p' = None ∨ (own p' = Some i ∧ st x ≠ RUNNING);
  sm_run : own p' = Some i → st x' = RUNNING;
  sm_keep : st x = RUNNING → st x' = RUNNING ∨ own p = Some i;
  sm_hold : ∀ j, hold p' = Some j → j = i ∧ lk x' = Some k ∧ back x' = false;
  sm_only : ∀ j, hold p = Some j → j = i;
  sm_lock : (lk x = None ∨ lk x = Some k) ∨ (lk x' = lk x ∧ back x' = back x);
  sm_lk : ∀ m, lk x' = Some m → back x' = true ∨ (m = k ∧ hold p' = Some i) ∨ (lk x = Some m ∧ back x = back x' ∧ m ≠ k);
  sm_back : back x' = true → is_Some (lk x') ∧ st x' ≠ RUNNING;
  sm_alive : crashed p = false;
}.

(** Hart [k] moves and slot [i] changes. *)
Section move.
Context (s s' : sys) (k : nat) (c c' : core) (i : nat) (x x' : slot).
Hypothesis Hi : sinv s.
Hypothesis Hc : cores s !! k = Some c.
Hypothesis Hx : slots s !! i = Some x.
Hypothesis Hs : cores s' = <[k := c']> (cores s).
Hypothesis Hsl : slots s' = <[i := x']> (slots s).
Hypothesis Hm : slot_move k i (at_ c) (at_ c') x x'.

Lemma move_slot j : slots s' !! j = if decide (j = i) then Some x' else slots s !! j.
Proof. rewrite Hsl. apply lookup_upd. by eapply lookup_lt_Some. Qed.

(** A hart runs a process that it ran before, or the one it has just taken. *)
Lemma move_own l j :
  reads own s' l (Some j) → reads own s l (Some j) ∨ (l = k ∧ j = i ∧ st x ≠ RUNNING ∧ own (at_ c') = Some i).
Proof.
  intros Hl. apply (reads_go own _ _ _ _ _ _ _ Hc Hs) in Hl. destruct (decide (l = k)) as [->|]; [|by left].
  destruct (sm_own _ _ _ _ _ _ Hm) as [Ho|[Ho|[Ho Hst]]]; rewrite Ho in Hl; simplify_eq; [|by right].
  left. by exists c.
Qed.

Lemma move_run l j : reads own s' l (Some j) → ∃ y, slots s' !! j = Some y ∧ st y = RUNNING.
Proof.
  intros Hl. rewrite move_slot. destruct (decide (j = i)) as [->|Hne].
  - exists x'. split; [done|]. destruct (decide (l = k)) as [->|Hlk].
    + apply (reads_go own _ _ _ _ _ _ _ Hc Hs) in Hl. rewrite decide_True in Hl by done. by apply Hm.
    + destruct (move_own _ _ Hl) as [Ho|(? & _)]; [|done]. destruct (si_run _ Hi _ _ Ho) as (y & Hy & Hst). simplify_eq.
      destruct (sm_keep _ _ _ _ _ _ Hm Hst) as [?|Hk]; [done|].
      destruct Hlk. apply (si_one _ Hi l k i); [done|]. by exists c.
  - apply (si_run _ Hi l). by destruct (move_own _ _ Hl) as [?|(_ & ? & _)].
Qed.

Lemma move_one l l' j : reads own s' l (Some j) → reads own s' l' (Some j) → l = l'.
Proof.
  intros Hl Hl'.
  assert (Hno : ∀ m, reads own s m (Some i) → st x = RUNNING).
  { intros m Hr. destruct (si_run _ Hi _ _ Hr) as (y & Hy & Hst). by simplify_eq. }
  destruct (move_own _ _ Hl) as [H1|(-> & -> & Hst & _)], (move_own _ _ Hl') as [H2|(-> & Hj & Hst' & _)];
    [by apply (si_one _ Hi l l' j)| | |done]; subst; exfalso; eauto.
Qed.

Lemma move_hold l j : reads hold s' l (Some j) → ∃ y, slots s' !! j = Some y ∧ lk y = Some l ∧ back y = false.
Proof.
  intros Hl. rewrite move_slot. apply (reads_go hold _ _ _ _ _ _ _ Hc Hs) in Hl. destruct (decide (l = k)) as [->|Hlk].
  - destruct (sm_hold _ _ _ _ _ _ Hm j Hl) as (-> & Hlk & Hb). rewrite decide_True by done. by exists x'.
  - destruct (si_hold _ Hi _ _ Hl) as (y & Hy & Hyl & Hyb).
    destruct (decide (j = i)) as [->|]; [|by exists y]. simplify_eq. exists x'. split; [done|].
    destruct (sm_lock _ _ _ _ _ _ Hm) as [[He|He]|[-> ->]]; [congruence..|done].
Qed.

Lemma move_lk j y l :
  slots s' !! j = Some y → lk y = Some l → back y = true ∨ reads hold s' l (Some j) ∨ reads crashed s' l true.
Proof.
  intros Hy Hyl. rewrite move_slot in Hy.
  rewrite (reads_go hold _ _ _ _ _ _ _ Hc Hs), (reads_go crashed _ _ _ _ _ _ _ Hc Hs).
  destruct (decide (j = i)) as [->|Hne].
  - simplify_eq. destruct (sm_lk _ _ _ _ _ _ Hm l Hyl) as [?|[[-> Hh]|(Ho & Hb & Hlk)]]; [by left| |].
    + rewrite decide_True by done. by right; left.
    + rewrite !decide_False by done. rewrite <-Hb. by apply (si_lk _ Hi i x l).
  - destruct (decide (l = k)) as [->|Hlk]; [|by apply (si_lk _ Hi j y l)].
    destruct (si_lk _ Hi j y k Hy Hyl) as [?|[Hh|Hr]]; [by left| |].
    + exfalso. apply Hne, (sm_only _ _ _ _ _ _ Hm). apply (reads_eq hold s k); [by exists c|done].
    + exfalso. pose proof (sm_alive _ _ _ _ _ _ Hm) as Hal.
      pose proof (reads_eq crashed s k _ _ Hr (ex_intro _ c (conj Hc Hal))). done.
Qed.

Lemma sinv_move : core_ok c' → sinv s'.
Proof.
  intros Hok. split.
  - apply move_run.
  - apply move_one.
  - apply move_hold.
  - apply move_lk.
  - intros j y Hy. rewrite move_slot in Hy. destruct (decide (j = i)) as [->|]; [|by apply (si_back _ Hi j)].
    simplify_eq. apply Hm.
  - intros l d Hd. by apply (core_fields s s' k c c' l d).
  - intros l d j Hd. by apply (core_fields s s' k c c' l d).
Qed.
End move.

Definition plain (p : pc) : Prop := match p with PNew _ | PBack _ => False | _ => True end.

Lemma core_ok_plain c : proc_lock c = None → plain (at_ c) → core_ok c.
Proof. intros Hl Hp. unfold core_ok. rewrite Hl. by destruct (at_ c). Qed.

Lemma core_ok_crashed c e : at_ c = Crashed e → core_ok c.
Proof. intros He. unfold core_ok. by rewrite He. Qed.

(** Two kinds of moves without a slot. *)
Lemma crash_inv s k c c0 kc1 e :
  sinv s → cores s !! k = Some c → crashed (at_ c) = false → sinv (go s k (jump c0 kc1 (Crashed e))).
Proof.
  intros Hi Hc Hcr. eapply (sinv_go s _ k c _ Hi Hc); cbn; [done|done|by right|by right|done|by eapply core_ok_crashed].
Qed.

Lemma plain_inv s k c c' :
  sinv s → cores s !! k = Some c → own (at_ c') = own (at_ c) → hold (at_ c') = hold (at_ c) →
  crashed (at_ c) = false → proc_lock c' = None → plain (at_ c') → sinv (go s k c').
Proof.
  intros Hi Hc Ho Hh Hcr Hl Hp.
  eapply (sinv_go s _ k c _ Hi Hc); cbn; [done|done|by left|by left|done|by apply core_ok_plain].
Qed.

(** Taking a lock, from a place without one. *)
Lemma lock_enter_inv s k c i x p :
  sinv s → cores s !! k = Some c → proc_lock c = None → hold (at_ c) = None → crashed (at_ c) = false →
  own p = own (at_ c) → hold p = None → plain p → sinv (lock_enter s k c i x p).
Proof.
  intros Hi Hc Hl Hh Hcr Hown Hp Hpl. unfold lock_enter. destruct (holding (lk x) k).
  - by apply (crash_inv s k c).
  - apply (plain_inv s k c); cbn; congruence.
Qed.

Lemma lock_try_inv s s' k c i x p :
  sinv s → cores s !! k = Some c → slots s !! i = Some x → proc_lock c = None →
  hold (at_ c) = None → crashed (at_ c) = false → own p = own (at_ c) → hold p = Some i → plain p →
  lock_try s k c i x p = Some s' → sinv s'.
Proof.
  intros Hi Hc Hx Hl Hh Hcr Hown Hp Hpl. unfold lock_try. destruct (lk x) eqn:Hlk; [done|]. intros [= <-].
  assert (Hb : back x = false).
  { destruct (back x) eqn:Hb; [|done]. destruct (si_back _ Hi _ _ Hx Hb) as [[? ?] _]. congruence. }
  eapply (sinv_move s _ k c _ i x _ Hi Hc Hx); cbn; [done|done| |by apply core_ok_plain].
  split; cbn; [by left| |by left| | | | | |done].
  - intros Ho. rewrite Hown in Ho. destruct (si_run _ Hi k i) as (y & Hy & Hst); [by exists c|]. by simplify_eq.
  - intros j Hj. rewrite Hp in Hj. by simplify_eq.
  - intros j Hj. congruence.
  - by left; left.
  - intros m [= <-]. right; left. done.
  - by rewrite Hb.
Qed.

(** Giving a lock back, with a change of the state of the slot that does not
    concern a running process. *)
Lemma unlock_inv s k c c0 i x y p :
  sinv s → cores s !! k = Some c → slots s !! i = Some x → hold (at_ c) = Some i →
  proc_lock c0 = None → crashed (at_ c) = false → own p = own (at_ c) → hold p = None → plain p →
  lk y = lk x → back y = false → (st y = st x ∨ st x ≠ RUNNING ∧ st y ≠ RUNNING) →
  sinv (unlock s k c0 i y p).
Proof.
  intros Hi Hc Hx Hh Hl Hcr Hown Hp Hpl Hlk Hb Hst.
  assert (Hxk : lk x = Some k).
  { destruct (si_hold _ Hi k i) as (z & Hz & Hzk & _); [by exists c|]. by simplify_eq. }
  unfold unlock, mutex_unlock. rewrite Hlk, Hxk. unfold holding. rewrite bool_decide_true by done.
  assert (Hcrash : ∀ e kc1, sinv (go s k (jump c0 kc1 (Crashed e)))).
  { intros e kc1. by apply (crash_inv s k c). }
  destruct (sie (kc c0)); [apply Hcrash|]. destruct (intr_unlock (kc c0)) as [kc1|e|a] eqn:Hu; cbn; [|apply Hcrash|done].
  eapply (sinv_move s _ k c _ i x _ Hi Hc Hx); cbn; [done|done| |by apply core_ok_plain].
  assert (Hrun : own (at_ c) = Some i → st x = RUNNING).
  { intros Ho. destruct (si_run _ Hi k i) as (z & Hz & Hst'); [by exists c|]. by simplify_eq. }
  split; cbn; [by left| | | | | | | |done].
  - intros Ho. rewrite Hown in Ho. specialize (Hrun Ho). destruct Hst as [->|[? _]]; [done|congruence].
  - intros Hr. destruct Hst as [->|[? _]]; [by left|congruence].
  - intros j Hj. congruence.
  - intros j Hj. congruence.
  - left. by right.
  - done.
  - by rewrite Hb.
Qed.

Lemma not_back s k c i x :
  sinv s → cores s !! k = Some c → hold (at_ c) = Some i → slots s !! i = Some x → back x = false ∧ lk x = Some k.
Proof.
  intros Hi Hc Hh Hx. destruct (si_hold _ Hi k i) as (y & Hy & ? & ?); [by exists c|]. by simplify_eq.
Qed.

Lemma visit_same x to :
  lk (visit x to) = lk x ∧ (back x = false → back (visit x to) = false) ∧
  (st (visit x to) = st x ∨ st x ≠ RUNNING ∧ st (visit x to) ≠ RUNNING).
Proof.
  unfold visit. destruct (st x) eqn:Hst, to; cbn; rewrite ?Hst; split_and!; try done; auto; right; done.
Qed.

Ltac bind_some H :=
  match type of H with
  | (?e ≫= _) = Some _ => let x := fresh "x" in let Hx := fresh "Hx" in
      destruct e as [x|] eqn:Hx; [cbn [mbind option_bind] in H|discriminate H]
  end.

(** The scheduler starts a process. *)
Lemma start_inv s k c i x :
  sinv s → cores s !! k = Some c → at_ c = SGot i → slots s !! i = Some x → st x = RUNNABLE →
  sinv (put_slot (go s k (mkCore (kc c) (Some i) (Some i) (PNew i))) i (set_st x RUNNING)).
Proof.
  intros Hi Hc Hat Hx Hst. destruct (not_back s k c i x) as [Hb Hlk]; [done|done|by rewrite Hat|done|].
  eapply (sinv_move s _ k c _ i x _ Hi Hc Hx); cbn; [done|done| |done]. rewrite Hat.
  split; cbn; [|done|by left| | | | | |done].
  - right; right. by rewrite Hst.
  - intros j [= <-]. done.
  - by intros j [= <-].
  - by left; right.
  - intros m Hm. right; left. split; [congruence|done].
  - by rewrite Hb.
Qed.

(** A process gives up the cpu: its lock stays taken. *)
Lemma giveup_inv s k c i to x :
  sinv s → cores s !! k = Some c → at_ c = PGot i to → slots s !! i = Some x → to ≠ RUNNING →
  sinv (put_slot (go s k (mkCore (kc c) (proc c) (proc_lock c) (SBack i))) i (mkSlot to (lk x) true (intena (kc c)))).
Proof.
  intros Hi Hc Hat Hx Hto. destruct (not_back s k c i x) as [Hb Hlk]; [done|done|by rewrite Hat|done|].
  pose proof (si_guard _ Hi _ _ Hc) as Hg. rewrite Hat in Hg.
  eapply (sinv_move s _ k c _ i x _ Hi Hc Hx); cbn; [done|done| |by apply core_ok_plain]. rewrite Hat.
  split; cbn; [by right; left|done|by right|done| | | | |done].
  - by intros j [= <-].
  - by left; right.
  - by left.
  - rewrite Hlk. intros _. by split.
Qed.

Lemma sinv_next s k ch s' : sinv s → next s k ch = Some s' → sinv s'.
Proof.
  intros Hi Hn. unfold next in Hn. destruct (cores s !! k) as [c|] eqn:Hc; [|done].
  pose proof (si_guard _ Hi _ _ Hc) as Hg. pose proof (si_pback _ Hi k c) as Hpb.
  destruct (at_ c) as [|i|i|i|i|i|i|i to|i to|i|i j to|i j to|m] eqn:Hat, ch as [|b|to'|j' to']; try discriminate Hn.
  - injection Hn as <-. apply (plain_inv s k c); rewrite ?Hat; done.
  - destruct (slots s !! i) as [x|] eqn:Hx; injection Hn as <-.
    + apply lock_enter_inv; rewrite ?Hat; done.
    + apply (plain_inv s k c); rewrite ?Hat; done.
  - bind_some Hn. eapply lock_try_inv; [..|exact Hn]; rewrite ?Hat; done.
  - bind_some Hn. rewrite Hg in Hn. destruct (not_back s k c i x) as [Hb Hlk]; [done|done|by rewrite Hat|done|].
    destruct (decide (st x = RUNNABLE)) as [Hst|]; injection Hn as <-.
    + rewrite Hb. by apply start_inv.
    + eapply unlock_inv; rewrite ?Hat; try done. by left.
  - injection Hn as <-. apply (plain_inv s k c); rewrite ?Hat; done.
  - rewrite Hg in Hn. bind_some Hn. injection Hn as <-.
    destruct (not_back s k c i x) as [Hb Hlk]; [done|done|by rewrite Hat|done|].
    eapply unlock_inv; rewrite ?Hat; try done. by left.
  - injection Hn as <-. apply (plain_inv s k c); rewrite ?Hat; done.
  - bind_some Hn. destruct (decide (to' = RUNNING)); [done|]. injection Hn as <-.
    apply lock_enter_inv; rewrite ?Hat; done.
  - destruct (decide (i = j')); [done|]. bind_some Hn. injection Hn as <-.
    apply lock_enter_inv; rewrite ?Hat; done.
  - bind_some Hn. eapply lock_try_inv; [..|exact Hn]; rewrite ?Hat; done.
  - bind_some Hn. destruct (sched_checks _ _ _) as [[]|e|a] eqn:Hck; [| |done]; injection Hn as <-.
    + apply giveup_inv; try done. intros ->. unfold sched_checks in Hck. rewrite bool_decide_true in Hck by done.
      destruct (negb _); [done|]. by destruct (decide (noff (kc c) ≠ 1)).
    + apply (crash_inv s k c); rewrite ?Hat; done.
  - by destruct (Hpb i).
  - bind_some Hn. eapply lock_try_inv; [..|exact Hn]; rewrite ?Hat; done.
  - bind_some Hn. injection Hn as <-. destruct (not_back s k c j x) as [Hb Hlk]; [done|done|by rewrite Hat|done|].
    destruct (visit_same x to) as (Hv1 & Hv2 & Hv3).
    eapply unlock_inv; rewrite ?Hat; try done. by apply Hv2.
Qed.

Lemma sinv_boot n sts : Forall (λ x, x ≠ RUNNING) sts → sinv (sys_boot n sts).
Proof.
  intros Hs.
  assert (Hc : ∀ k c, cores (sys_boot n sts) !! k = Some c → at_ c = SLoop ∧ proc_lock c = None).
  { intros k c Hk. cbn in Hk. apply lookup_replicate in Hk as [-> _]. done. }
  assert (Hx : ∀ i x, slots (sys_boot n sts) !! i = Some x → lk x = None ∧ back x = false).
  { intros i x Hi. cbn in Hi. rewrite list_lookup_fmap in Hi. destruct (sts !! i); cbn in Hi; by simplify_eq. }
  split.
  - intros k i (c & Hk & Ho). destruct (Hc _ _ Hk) as [Ha _]. by rewrite Ha in Ho.
  - intros k k' i (c & Hk & Ho). destruct (Hc _ _ Hk) as [Ha _]. by rewrite Ha in Ho.
  - intros k i (c & Hk & Ho). destruct (Hc _ _ Hk) as [Ha _]. by rewrite Ha in Ho.
  - intros i x k Hi Hlk. destruct (Hx _ _ Hi). congruence.
  - intros i x Hi Hb. destruct (Hx _ _ Hi). congruence.
  - intros k c Hk. by destruct (Hc _ _ Hk) as [-> ->].
  - intros k c i Hk. by destruct (Hc _ _ Hk) as [-> _].
Qed.

Lemma sinv_reach s s' : sinv s → rtc step s s' → sinv s'.
Proof.
  intros Hi Hr. induction Hr as [|s s1 s2 [k ch s1' Hn] _ IH]; [done|]. apply IH. by eapply sinv_next.
Qed.

(** C14. A process runs on one hart, and a slot's lock is held by one.  From
    any table without running processes and for any number of harts, in every
    reachable state: at most one hart runs the thread of a given process, the
    process is then [RUNNING], and no two harts are inside a critical section
    of the same slot. *)
Theorem one_hart_per_process n sts s :
  Forall (λ x, x ≠ RUNNING) sts → rtc step (sys_boot n sts) s →
  (∀ k k' i, reads own s k (Some i) → reads own s k' (Some i) → k = k') ∧
  (∀ k i, reads own s k (Some i) → st <$> slots s !! i = Some RUNNING) ∧
  (∀ k k' i, reads hold s k (Some i) → reads hold s k' (Some i) → k = k').
Proof.
  intros Hs Hr. pose proof (sinv_reach _ _ (sinv_boot n sts Hs) Hr) as Hi. split_and!.
  - apply Hi.
  - intros k i Hk. destruct (si_run _ Hi _ _ Hk) as (x & Hx & Hst). by rewrite Hx, <-Hst.
  - intros k k' i Hk Hk'. destruct (si_hold _ Hi _ _ Hk) as (x & Hx & Hl & _), (si_hold _ Hi _ _ Hk') as (y & Hy & Hl' & _).
    congruence.
Qed.

(** ** A process that called [sched] *)

(** The slot is left alone while its lock is not given back. *)
Definition stuck (s : sys) (i : nat) (x : slot) : Prop := slots s !! i = Some x ∧ back x = true.

Lemma put_other s k c i x j y : i ≠ j → stuck s i x → stuck (put_slot (go s k c) j y) i x.
Proof. intros Hne [Hx Hb]. split; [|done]. cbn. by rewrite list_lookup_insert_ne. Qed.

Lemma go_stuck s k c i x : stuck s i x → stuck (go s k c) i x.
Proof. done. Qed.

Lemma unlock_stuck s k c i x j y p : i ≠ j → stuck s i x → stuck (unlock s k c j y p) i x.
Proof.
  intros Hne Hx. unfold unlock. destruct (mutex_unlock _ _ _) as [[]|e|a]; [by apply put_other|done|done].
Qed.

Lemma hold_other s k c i j x : sinv s → stuck s i x → cores s !! k = Some c → hold (at_ c) = Some j → i ≠ j.
Proof.
  intros Hi [Hx Hb] Hc Hh ->. destruct (not_back _ _ _ _ _ Hi Hc Hh Hx). congruence.
Qed.

Lemma lock_try_stuck s s' k c i x j y p :
  sinv s → stuck s i x → slots s !! j = Some y → lock_try s k c j y p = Some s' → stuck s' i x.
Proof.
  intros Hi [Hx Hb] Hy. unfold lock_try. destruct (lk y) eqn:Hl; [done|]. intros [= <-].
  apply put_other; [|done]. intros ->. simplify_eq.
  destruct (si_back _ Hi _ _ Hx Hb) as [[? ?] _]. congruence.
Qed.

Lemma stuck_next s k ch s' i x : sinv s → stuck s i x → next s k ch = Some s' → stuck s' i x.
Proof.
  intros Hi Hst Hn. unfold next in Hn. destruct (cores s !! k) as [c|] eqn:Hc; [|done].
  pose proof (si_guard _ Hi _ _ Hc) as Hg. pose proof (si_pback _ Hi k c) as Hpb.
  pose proof (λ j, hold_other s k c i j x Hi Hst Hc) as Hh.
  destruct (at_ c) as [|j|j|j|j|j|j|j to|j to|j|j l to|j l to|m] eqn:Hat, ch as [|b|to'|j' to']; try discriminate Hn.
  - by injection Hn as <-.
  - destruct (slots s !! j) as [y|]; by injection Hn as <-.
  - bind_some Hn. by eapply lock_try_stuck.
  - specialize (Hh j eq_refl). bind_some Hn. rewrite Hg in Hn.
    destruct (decide _); injection Hn as <-; [by apply put_other|by apply unlock_stuck].
  - by injection Hn as <-.
  - specialize (Hh j eq_refl). rewrite Hg in Hn. bind_some Hn. injection Hn as <-. by apply unlock_stuck.
  - by injection Hn as <-.
  - bind_some Hn. destruct (decide _); [done|]. by injection Hn as <-.
  - destruct (decide _); [done|]. bind_some Hn. by injection Hn as <-.
  - bind_some Hn. by eapply lock_try_stuck.
  - specialize (Hh j eq_refl). bind_some Hn. destruct (sched_checks _ _ _); [| |done]; injection Hn as <-; [|done].
    by apply put_other.
  - by destruct (Hpb j).
  - bind_some Hn. by eapply lock_try_stuck.
  - specialize (Hh l eq_refl). bind_some Hn. injection Hn as <-. by apply unlock_stuck.
Qed.

(** The scheduler does not give back the lock of a process that returns
    to it.  From the moment a process called [sched], by yielding, sleeping or
    exiting, its slot never changes and no hart ever runs it again; the hart
    that it ran on panics in [lock] when its loop comes to the slot, and every
    other hart waits there for ever. *)
Theorem sched_never_resumes n sts s i x :
  Forall (λ x, x ≠ RUNNING) sts → rtc step (sys_boot n sts) s →
  slots s !! i = Some x → back x = true →
  (∀ s', rtc step s s' → slots s' !! i = Some x ∧ ∀ k, ¬ reads own s' k (Some i)) ∧
  (∀ k c, cores s !! k = Some c → at_ c = SAt i → lk x = Some k →
     ∃ c', next s k Go = Some (go s k c') ∧ at_ c' = Crashed "acquire proc") ∧
  (∀ k c ch, cores s !! k = Some c → at_ c = SSpin i → next s k ch = None).
Proof.
  intros Hs Hr Hx Hb. pose proof (sinv_reach _ _ (sinv_boot n sts Hs) Hr) as Hi. split_and!.
  - intros s' Hr'. assert (Hst : sinv s' ∧ stuck s' i x).
    { assert (Hst : stuck s i x) by done. clear Hr Hx. revert Hi Hst.
      induction Hr' as [|s s1 s2 [k ch s1' Hn] _ IH]; [done|]. intros Hi Hst.
      apply IH; [by eapply sinv_next|by eapply stuck_next]. }
    destruct Hst as [Hi' [Hx' _]]. split; [done|]. intros k Hk.
    destruct (si_run _ Hi' _ _ Hk) as (y & Hy & Hrun), (si_back _ Hi' _ _ Hx' Hb) as [_ Hne]. congruence.
  - intros k c Hc Hat Hlk. unfold next. rewrite Hc, Hat, Hx. unfold lock_enter, holding.
    rewrite Hlk, bool_decide_true by done. by eexists.
  - intros k c ch Hc Hat. unfold next. rewrite Hc, Hat.
    destruct ch; [|done..]. rewrite Hx. cbn. unfold lock_try. destruct (si_back _ Hi _ _ Hx Hb) as [[m Hm] _].
    by rewrite Hm.
Qed.

(** ** The first run of a process *)

(** A hart outside all locks with interrupts on, at the place [p]. *)
Definition idle (b : bool) (p : pc) : core := mkCore (mkCpu 0 b true) None None p.

Lemma core_at s k c : (k < length (cores s))%nat → cores (go s k c) !! k = Some c.
Proof. intros Hk. cbn. by apply list_lookup_insert_eq. Qed.

Lemma sys_eq cs1 cs2 ss1 ss2 : cs1 = cs2 → ss1 = ss2 → mkSys cs1 ss1 = mkSys cs2 ss2.
Proof. congruence. Qed.

(** The two steps in which the scheduler takes a free lock. *)
Lemma take_lock s k b i x :
  (k < length (cores s))%nat → slots s !! i = Some x → lk x = None →
  rtc step (go s k (idle b (SAt i)))
    (put_slot (go s k (mkCore (mkCpu 1 true false) None None (SGot i))) i (set_lk x (Some k))).
Proof.
  intros Hk Hx Hl. eapply rtc_l; [apply (step_at _ k Go)|eapply rtc_l; [apply (step_at _ k Go)|apply rtc_refl]].
  - unfold next. rewrite core_at by done. cbn [at_ idle]. change (slots (go s k (idle b (SAt i)))) with (slots s).
    rewrite Hx. unfold lock_enter, holding. rewrite Hl, bool_decide_false by done. reflexivity.
  - unfold next. rewrite core_at by (cbn; by rewrite length_insert). cbn [at_ jump].
    change (slots (go (go s k (idle b (SAt i))) k _)) with (slots s). rewrite Hx. cbn [mbind option_bind].
    unfold lock_try. rewrite Hl. unfold go, put_slot. cbn [cores slots].
    by rewrite !list_insert_insert_eq.
Qed.

Lemma scan_one s k b i x :
  (k < length (cores s))%nat → slots s !! i = Some x → lk x = None → st x ≠ RUNNABLE →
  rtc step (go s k (idle b (SAt i))) (go s k (idle true (SAt (S i)))).
Proof.
  intros Hk Hx Hl Hst. eapply rtc_r; [by apply take_lock|]. apply (step_at _ k Go).
  unfold next. cbn [cores put_slot go]. rewrite list_lookup_insert_eq by done. cbn [at_].
  cbn [slots put_slot go]. rewrite list_lookup_insert_eq by (by eapply lookup_lt_Some). cbn [mbind option_bind].
  rewrite decide_False by done. unfold unlock, mutex_unlock, holding, intr_unlock. cbn.
  rewrite bool_decide_true by done. cbn. unfold put_slot, go, jump. cbn. f_equal. apply sys_eq.
  - by rewrite list_insert_insert_eq.
  - rewrite list_insert_insert_eq. apply list_insert_id. rewrite Hx. f_equal. destruct x. cbn in *. by subst.
Qed.

Lemma scan_to s k b i n :
  (k < length (cores s))%nat →
  (∀ j, (i ≤ j < i + n)%nat → ∃ x, slots s !! j = Some x ∧ lk x = None ∧ st x ≠ RUNNABLE) →
  ∃ b', rtc step (go s k (idle b (SAt i))) (go s k (idle b' (SAt (i + n)))).
Proof.
  intros Hk. revert b i. induction n as [|n IH]; intros b i Hs.
  - exists b. by rewrite Nat.add_0_r.
  - destruct (Hs i) as (x & Hx & Hl & Hst); [lia|].
    destruct (IH true (S i)) as (b' & Hr); [intros j Hj; apply Hs; lia|].
    exists b'. replace (i + S n)%nat with (S i + n)%nat by lia. eapply rtc_trans; [by eapply scan_one|done].
Qed.

(** A new process gets to run.  From the top of the scheduler's loop on a
    hart that holds no lock, the first runnable slot of the table, if its
    thread is new and no lock before it is taken, is started: its thread comes
    to the end of [fork_ret]'s first statement with the slot [RUNNING], its
    lock free again, no interrupt lock held and interrupts on. *)
Theorem first_run s k i x :
  (k < length (cores s))%nat → cores s !! k = Some (mkCore (mkCpu 0 false false) None None SLoop) →
  slots s !! i = Some x → st x = RUNNABLE → lk x = None → back x = false →
  (∀ j, (j < i)%nat → ∃ y, slots s !! j = Some y ∧ lk y = None ∧ st y ≠ RUNNABLE) →
  rtc step s (put_slot (go s k (mkCore (mkCpu 0 true true) (Some i) None (PRun i))) i (set_st x RUNNING)).
Proof.
  intros Hk Hc Hx Hst Hl Hb Hs. destruct (scan_to s k false 0 i Hk) as (b & Hscan).
  { intros j Hj. apply Hs. lia. }
  eapply rtc_l; [apply (step_at _ k Go); unfold next; rewrite Hc; reflexivity|].
  eapply rtc_trans; [exact Hscan|]. eapply rtc_trans; [by apply take_lock|].
  eapply rtc_l; [apply (step_at _ k Go)|eapply rtc_l; [apply (step_at _ k Go)|]].
  - unfold next. cbn [cores put_slot go]. rewrite list_lookup_insert_eq by done. cbn [at_].
    cbn [slots put_slot go]. rewrite list_lookup_insert_eq by (by eapply lookup_lt_Some). cbn [mbind option_bind].
    rewrite decide_True by done. cbn [proc_lock back set_lk]. rewrite Hb. reflexivity.
  - unfold next. cbn [cores put_slot go]. rewrite list_lookup_insert_eq by (by rewrite length_insert). cbn [at_ proc_lock].
    cbn [slots put_slot go]. rewrite list_lookup_insert_eq by (rewrite length_insert; by eapply lookup_lt_Some).
    cbn [mbind option_bind]. unfold unlock, mutex_unlock, holding, intr_unlock. cbn.
    rewrite bool_decide_true by done. cbn. reflexivity.
  - match goal with |- rtc step ?a ?b => replace a with b; [apply rtc_refl|] end.
    unfold put_slot, go, jump. cbn. apply sys_eq; rewrite !list_insert_insert_eq; [done|].
    f_equal. destruct x. cbn in *. by subst.
Qed.

(** ** Runs *)
Definition play (s : sys) (l : list (nat * choice)) : sys :=
  foldl (λ s p, default s (next s p.1 p.2)) s l.

Lemma play_reach s l : rtc step s (play s l).
Proof.
  revert s. induction l as [|[k ch] l IH]; intros s; cbn; [apply rtc_refl|].
  destruct (next s k ch) as [s1|] eqn:Hn; cbn; [|apply IH]. eapply rtc_l; [by econstructor|apply IH].
Qed.

(** Hart 0 starts the process of slot 1, which yields; hart 1 waits on its lock. *)
Definition demo_sched : sys :=
  play (sys_boot 2 [UNUSED; RUNNABLE])
    ((λ _, (0%nat, Go)) <$> seq 0 8) .
Definition demo_yield : sys :=
  play demo_sched [(0%nat, GiveUp RUNNABLE); (0%nat, Go); (0%nat, Go); (0%nat, Go); (0%nat, Go); (0%nat, Go);
                   (0%nat, Go); (0%nat, Go); (0%nat, Go)].

Lemma demo_yield_reach : rtc step (sys_boot 2 [UNUSED; RUNNABLE]) demo_yield.
Proof. eapply rtc_trans; apply play_reach. Qed.

Lemma one_hart_per_process_witness :
  at_ <$> cores demo_sched !! 0%nat = Some (PRun 1) ∧ st <$> slots demo_sched !! 1%nat = Some RUNNING.
Proof.
  destruct (one_hart_per_process 2 [UNUSED; RUNNABLE] demo_sched) as (_ & H & _).
  - repeat constructor; discriminate.
  - apply play_reach.
  - split; [vm_compute; reflexivity|]. apply (H 0%nat). eexists. split; vm_compute; reflexivity.
Defined.

Lemma sched_never_resumes_witness :
  at_ <$> cores demo_yield !! 0%nat = Some (SAt 1) ∧ ∀ k, ¬ reads own demo_yield k (Some 1%nat).
Proof.
  split; [vm_compute; reflexivity|].
  destruct (sched_never_resumes 2 [UNUSED; RUNNABLE] demo_yield 1 (mkSlot RUNNABLE (Some 0%nat) true true))
    as (H & _ & _).
  - repeat constructor; discriminate.
  - apply demo_yield_reach.
  - vm_compute. reflexivity.
  - reflexivity.
  - apply H. apply rtc_refl.
Defined.

Lemma first_run_witness :
  rtc step (sys_boot 2 [UNUSED; RUNNABLE])
    (mkSys [mkCore (mkCpu 0 true true) (Some 1%nat) None (PRun 1); mkCore (mkCpu 0 false false) None None SLoop]
       [mkSlot UNUSED None false false; mkSlot RUNNING None false false]).
Proof.
  apply (first_run (sys_boot 2 [UNUSED; RUNNABLE]) 0 1 (mkSlot RUNNABLE None false false)); try reflexivity.
  - cbn. lia.
  - intros j Hj. exists (mkSlot UNUSED None false false). replace j with 0%nat by lia. done.
Defined.
