(* ===== verification/Trap.v ===== *)
(** * Traps: the trapframe, [uservec]/[userret] ([trampoline.rs], [proc.rs]) and
      the dispatch of [trap.rs]

    The trapframe is one page shared by assembly, which addresses it by byte
    offset, and Rust, which addresses it by the fields of [Trapframe], a
    [repr(C)] structure of 64-bit words.  The model keeps it as a map from
    byte offsets to words. *)

From S2P Require Import Prelude.

Open Scope Z_scope.
Open Scope string_scope.

(** The fields of [struct Trapframe], in order. *)
Definition fields : list string :=
  ["kernel_satp"; "kernel_sp"; "kernel_trap"; "epc"; "kernel_hartid";
   "ra"; "sp"; "gp"; "tp"; "t0"; "t1";
   "s0"; "s1"; "a0"; "a1"; "a2"; "a3"; "a4"; "a5"; "a6"; "a7";
   "s2"; "s3"; "s4"; "s5"; "s6"; "s7"; "s8"; "s9"; "s10"; "s11";
   "t3"; "t4"; "t5"; "t6"].

Fixpoint index_of (f : string) (l : list string) : option nat :=
  match l with
  | [] => None
  | g :: l => if decide (f = g) then Some 0%nat else match index_of f l with Some k => Some (S k) | None => None end
  end.

(** The offset the Rust code uses for a field. *)
Definition field_offset (f : string) : option Z :=
  match index_of f fields with Some k => Some (8 * Z.of_nat k) | None => None end.

(** The registers [uservec] stores and [userret] loads, with their offsets,
    in the order of the code ([a0] last, through [sscratch] and [t0]). *)
Definition saved : list (string * Z) :=
  [("ra", 40); ("sp", 48); ("gp", 56); ("tp", 64); ("t0", 72); ("t1", 80); ("t2", 88);
   ("s0", 96); ("s1", 104);
   ("a1", 120); ("a2", 128); ("a3", 136); ("a4", 144); ("a5", 152); ("a6", 160); ("a7", 168);
   ("s2", 176); ("s3", 184); ("s4", 192); ("s5", 200); ("s6", 208); ("s7", 216); ("s8", 224);
   ("s9", 232); ("s10", 240); ("s11", 248);
   ("t3", 256); ("t4", 264); ("t5", 272); ("t6", 280);
   ("a0", 112)].

Abbreviation frame := (gmap Z Z).
Abbreviation regs := (string → Z).

Definition uservec_save (r : regs) (tf : frame) : frame :=
  foldl (λ m '(x, o), <[o := r x]> m) tf saved.

(** What [uservec] then loads: [sp], [tp], the address of [usertrap], [satp]. *)
Definition uservec_kernel (tf : frame) : option Z * option Z * option Z * option Z :=
  (tf !! 8, tf !! 32, tf !! 16, tf !! 0).

Definition userret_load (tf : frame) (x : string) : option Z :=
  match list_find (λ p, p.1 = x) saved with
  | Some (_, (_, o)) => tf !! o
  | None => None
  end.

(** Reading and writing a field from Rust. *)
Definition get_field (tf : frame) (f : string) : option Z :=
  match field_offset f with Some o => tf !! o | None => None end.
Definition set_field (tf : frame) (f : string) (v : Z) : frame :=
  match field_offset f with Some o => <[o := v]> tf | None => tf end.

(** [usertrap_ret]: the words [uservec] will need. *)
Definition usertrap_ret_frame (tf : frame) (satp kstack usertrap hartid : Z) : frame :=
  set_field (set_field (set_field (set_field tf "kernel_satp" satp)
    "kernel_sp" (kstack + 4096)) "kernel_trap" usertrap) "kernel_hartid" hartid.

Close Scope string_scope.

(** ** The dispatch *)
Inductive cause :=
  | UserEnvCall
  | OtherException (code : Z)
  | SupervisorSoft
  | SupervisorExternal
  | OtherInterrupt (code : Z).

Inductive Intr := Timer | Device.

#[export] Instance Intr_eq_dec : EqDecision Intr.
Proof. solve_decision. Defined.

(** What happens, in order. *)
Inductive action :=
  | AClockintr                (* [TICKS] is incremented, its sleepers woken *)
  | AClearSoft
  | AUartIntr | ADiskIntr | AUnexpectedIrq (irq : Z)
  | AComplete (irq : Z)
  | AEpc (v : Z)              (* [tf.epc] is set *)
  | AIntrOn | ASyscall
  | AKill                     (* [inner.killed = true] *)
  | AExit | AYield | AReturn
  | APanic.

Definition UART0_IRQ : Z := 10.
Definition VIRTIO0_IRQ : Z := 1.

(** [devintr]: [irq] is what [plic::claim()] gives, [cpu] the cpu's number. *)
Definition devintr (c : cause) (irq : option Z) (cpu : Z) : list action * option Intr :=
  match c with
  | SupervisorExternal =>
      (match irq with
       | Some i =>
           [if decide (i = UART0_IRQ) then AUartIntr
            else if decide (i = VIRTIO0_IRQ) then ADiskIntr else AUnexpectedIrq i;
            AComplete i]
       | None => []
       end, Some Device)
  | SupervisorSoft =>
      ((if decide (cpu = 0) then [AClockintr] else []) ++ [AClearSoft], Some Timer)
  | _ => ([], None)
  end.

(** [usertrap] after its assertions: [killed0] is the flag when it is first
    tested, [killed1] when it is tested before returning (the call of
    [syscall] or another cpu may have set it in between). *)
Definition usertrap (sepc : Z) (c : cause) (irq : option Z) (cpu : Z) (killed0 killed1 : bool)
    : list action :=
  let finish (killed : bool) (dev : option Intr) :=
    if killed then [AExit]
    else (if decide (dev = Some Timer) then [AYield] else []) ++ [AReturn] in
  AEpc sepc ::
  match c with
  | UserEnvCall =>
      if killed0 then [AExit]
      else [AEpc (sepc + 4); AIntrOn; ASyscall] ++ finish killed1 None
  | SupervisorSoft | SupervisorExternal | OtherInterrupt _ =>
      let '(acts, dev) := devintr c irq cpu in
      match dev with
      | Some d => acts ++ finish killed1 (Some d)
      | None => acts ++ [AKill] ++ finish true None
      end
  | OtherException _ => [AKill] ++ finish true None
  end.

(** [kerneltrap] after its assertions; [running]: a process runs on this cpu
    and its state is [RUNNING]. *)
Definition kerneltrap (c : cause) (irq : option Z) (cpu : Z) (running : bool) : list action :=
  match c with
  | SupervisorSoft | SupervisorExternal | OtherInterrupt _ =>
      let '(acts, dev) := devintr c irq cpu in
      match dev with
      | None => acts ++ [APanic]
      | Some d => acts ++ (if decide (d = Timer ∧ running = true) then [AYield] else []) ++ [AReturn]
      end
  | _ => [AReturn]
  end.

(** ** Properties *)
Lemma saved_step (r : regs) (l : list (string * Z)) (m : frame) o :
  o ∉ l.*2 → foldl (λ m '(x, o), <[o := r x]> m) m l !! o = m !! o.
Proof.
  revert m. induction l as [|[x o'] l IH]; intros m Ho; [done|]. cbn in *.
  apply not_elem_of_cons in Ho as [Hne Ho]. rewrite IH by done. by rewrite lookup_insert_ne.
Qed.

Lemma saved_lookup (r : regs) (l : list (string * Z)) (m : frame) x o :
  NoDup l.*2 → (x, o) ∈ l → foldl (λ m '(x, o), <[o := r x]> m) m l !! o = Some (r x).
Proof.
  revert m. induction l as [|[y o'] l IH]; intros m Hnd Hin; [by apply not_elem_of_nil in Hin|].
  cbn in *. apply NoDup_cons in Hnd as [Hni Hnd]. apply elem_of_cons in Hin as [[= -> ->]|Hin].
  - rewrite saved_step by done. by rewrite lookup_insert_eq.
  - by apply IH.
Qed.

Lemma saved_nodup : NoDup saved.*2.
Proof. apply (bool_decide_unpack _). by vm_compute. Qed.

Lemma uservec_kernel_frame (r : regs) (tf : frame) satp kstack handler hartid :
  uservec_kernel (uservec_save r (usertrap_ret_frame tf satp kstack handler hartid)) =
    (Some (kstack + 4096), Some hartid, Some handler, Some satp).
Proof.
  unfold uservec_kernel, uservec_save. rewrite !saved_step by (apply (bool_decide_unpack _); by vm_compute).
  change (usertrap_ret_frame tf satp kstack handler hartid) with
    (<[32 := hartid]> (<[16 := handler]> (<[8 := kstack + 4096]> (<[0 := satp]> tf)))).
  by simplify_map_eq.
Qed.

(** The trampoline loses no register: what [userret] loads after [uservec]
    saved the user's registers is, for each of the 31 registers, its value;
    saving them leaves the words of the kernel alone; and the stack, hart id,
    handler and page table that [uservec] installs are those that
    [usertrap_ret] stored. *)
Theorem trampoline_roundtrip (r : regs) (tf : frame) satp kstack handler hartid :
  (∀ x, x ∈ saved.*1 → userret_load (uservec_save r tf) x = Some (r x)) ∧
  uservec_kernel (uservec_save r (usertrap_ret_frame tf satp kstack handler hartid)) =
    (Some (kstack + 4096), Some hartid, Some handler, Some satp).
Proof.
  split.
  - intros x Hx.
    assert (Hall : Forall (λ p, userret_load (uservec_save r tf) p.1 = Some (r p.1)) saved).
    { assert (Hgen : ∀ p, p ∈ saved → uservec_save r tf !! p.2 = Some (r p.1)).
      { intros [y o] Hin. apply saved_lookup; [apply saved_nodup|done]. }
      apply Forall_forall. intros p Hp. rewrite <-(Hgen p Hp). unfold userret_load.
      clear Hgen. revert Hp. unfold saved.
      repeat (rewrite elem_of_cons; intros [-> | Hp]; [reflexivity|revert Hp]).
      by rewrite elem_of_nil. }
    apply list_elem_of_fmap in Hx as (p & -> & Hp). rewrite Forall_forall in Hall. by apply Hall.
  - apply uservec_kernel_frame.
Qed.

(** The kernel reads the wrong registers.  [struct Trapframe] has no field
    for [t2], so every field after [t1] is eight bytes below the place where
    the trampoline keeps the register of that name: after [uservec], the
    field [a7] holds the user's [a6], [a0] holds [s1], and a result stored in
    the field [a0] reaches the user in [s1]. *)
Theorem trapframe_shifted (r : regs) (tf : frame) v :
  get_field (uservec_save r tf) "a7" = Some (r "a6"%string) ∧
  get_field (uservec_save r tf) "a0" = Some (r "s1"%string) ∧
  get_field (uservec_save r tf) "a1" = Some (r "a0"%string) ∧
  userret_load (set_field (uservec_save r tf) "a0" v) "s1" = Some v ∧
  userret_load (set_field (uservec_save r tf) "a0" v) "a0" = Some (r "a0"%string).
Proof.
  assert (H : ∀ x o, (x, o) ∈ saved → uservec_save r tf !! o = Some (r x)).
  { intros x o Hin. apply saved_lookup; [apply saved_nodup|done]. }
  unfold get_field, set_field, userret_load. split_and!.
  - apply (H _ 160). apply (bool_decide_unpack _). by vm_compute.
  - apply (H _ 104). apply (bool_decide_unpack _). by vm_compute.
  - apply (H _ 112). apply (bool_decide_unpack _). by vm_compute.
  - change (<[104 := v]> (uservec_save r tf) !! 104 = Some v). by rewrite lookup_insert_eq.
  - change (<[104 := v]> (uservec_save r tf) !! 112 = Some (r "a0"%string)).
    rewrite lookup_insert_ne by done. apply H. apply (bool_decide_unpack _). by vm_compute.
Qed.

(** How often an action of a kind occurs. *)
Inductive kind := KReturn | KExit | KKill | KSyscall | KYield | KOther.

Definition kind_of (a : action) : kind :=
  match a with
  | AReturn => KReturn | AExit => KExit | AKill => KKill | ASyscall => KSyscall | AYield => KYield
  | _ => KOther
  end.

#[export] Instance kind_eq_dec : EqDecision kind.
Proof. solve_decision. Defined.

Definition times (k : kind) (acts : list action) : nat :=
  length (filter (λ a, kind_of a = k) acts).

Lemma devintr_kinds c irq cpu k : k ≠ KOther → times k (devintr c irq cpu).1 = 0%nat.
Proof.
  intros Hk. destruct c; cbn; try done.
  - by destruct (decide (cpu = 0)), k.
  - destruct irq as [i|]; [|done]. by destruct (decide (i = UART0_IRQ)), (decide (i = VIRTIO0_IRQ)), k.
Qed.

Lemma times_app k l1 l2 : times k (l1 ++ l2) = (times k l1 + times k l2)%nat.
Proof. unfold times. by rewrite filter_app, length_app. Qed.

(** Returning to user mode.  [usertrap] either returns or exits, once; it
    exits whenever the process was found killed before returning or the trap
    was neither a system call nor a known interrupt, in which case it marks
    the process as killed; a system call is made at most once, after [epc]
    was moved past the instruction; and the cpu is given up exactly on a
    timer interrupt of a process that goes on. *)
Theorem usertrap_dispatch sepc c irq cpu k0 k1 :
  let acts := usertrap sepc c irq cpu k0 k1 in
  let bad := match c with OtherException _ | OtherInterrupt _ => true | _ => false end in
  let call := match c with UserEnvCall => true | _ => false end in
  times KExit acts = (if k1 || bad || (call && k0) then 1 else 0)%nat ∧
  times KReturn acts = (1 - times KExit acts)%nat ∧
  times KKill acts = (if bad then 1 else 0)%nat ∧
  times KSyscall acts = (if call && negb k0 then 1 else 0)%nat ∧
  (call && negb k0 = true → ∃ rest, acts = [AEpc sepc; AEpc (sepc + 4); AIntrOn; ASyscall] ++ rest) ∧
  times KYield acts = (match c with SupervisorSoft => if k1 then 0 else 1 | _ => 0 end)%nat.
Proof.
  destruct c; cbn zeta; unfold usertrap.
  1,2,5: destruct k0, k1; split_and!; try done; intros _; by eexists.
  all: pose proof (devintr_kinds SupervisorSoft irq cpu) as H1;
    pose proof (devintr_kinds SupervisorExternal irq cpu) as H2;
    cbn [devintr fst] in H1, H2; cbn [devintr].
  - set (a := (if decide (cpu = 0) then [AClockintr] else []) ++ [AClearSoft]) in *. clearbody a.
    change (AEpc sepc :: ?l) with ([AEpc sepc] ++ l). rewrite !times_app, !H1 by done.
    destruct k0, k1; split_and!; done.
  - set (a := match irq with Some _ => _ | None => _ end) in *. clearbody a.
    change (AEpc sepc :: ?l) with ([AEpc sepc] ++ l). rewrite !times_app, !H2 by done.
    destruct k0, k1; split_and!; done.
Qed.

(** [kerneltrap] panics only on an interrupt it does not know. *)
Lemma kerneltrap_no_panic c irq cpu running :
  (∀ n, c ≠ OtherInterrupt n) → APanic ∉ kerneltrap c irq cpu running.
Proof.
  intros Hc. destruct c; [set_solver|set_solver| | |by destruct (Hc code)]; unfold kerneltrap; cbn [devintr].
  - destruct (decide (cpu = 0)), (decide (Timer = Timer ∧ running = true)); set_solver.
  - destruct irq as [i|]; [destruct (decide (i = UART0_IRQ)), (decide (i = VIRTIO0_IRQ))|];
      destruct (decide (Device = Timer ∧ running = true)); set_solver.
Qed.

(** An exception inside the kernel is ignored: [kerneltrap] tests only
    interrupts, so for an exception it returns to the faulting instruction
    without a panic. *)
Theorem kerneltrap_ignores_exceptions code irq cpu running :
  kerneltrap (OtherException code) irq cpu running = [AReturn] ∧
  APanic ∈ kerneltrap (OtherInterrupt code) irq cpu running.
Proof. split; [done|]. simpl. left. Qed.
