(* ===== verification/Vm.v ===== *)
(** * Page tables and user memory ([vm.rs], [memlayout.rs], page constants of [riscv.rs])

    Page-table pages are found by physical address: [tables] maps the address
    of a page-table page to its 512 entries.  [avail] are the pages the
    allocator will hand out, in order; an empty list is out of memory.
    Following a pointer that is not a page-table page is a [Fault]. *)

From S2P Require Import Prelude.

Open Scope Z_scope.

(** ** Constants *)
Definition PGSIZE : Z := 4096.
Definition PGSHIFT : Z := 12.
Definition PXMASK : Z := 511.
Definition MAXVA : Z := Z.shiftl 1 (9 + 9 + 9 + 12 - 1).

Definition PTE_V : Z := Z.shiftl 1 0.
Definition PTE_R : Z := Z.shiftl 1 1.
Definition PTE_W : Z := Z.shiftl 1 2.
Definition PTE_X : Z := Z.shiftl 1 3.
Definition PTE_U : Z := Z.shiftl 1 4.

Definition KERNBASE : Z := 2147483648.
Definition PHYSTOP : Z := KERNBASE + 128 * 1024 * 1024.
Definition TRAMPOLINE : Z := MAXVA - PGSIZE.
Definition TRAPFLAME : Z := TRAMPOLINE - PGSIZE.
Definition kstack (p : Z) : Z := TRAMPOLINE - (p + 1) * 5 * PGSIZE.

Definition usize_not (z : Z) : Z := usize_mod - 1 - z.
Definition pgroundup (sz : Z) : outcome Z :=
  s ← checked_add sz PGSIZE;
  Done (Z.land (s - 1) (usize_not (PGSIZE - 1))).
Definition pgrounddown (sz : Z) : Z := Z.land sz (usize_not (PGSIZE - 1)).

Definition is_aligned (a : Z) : bool := a `mod` PGSIZE =? 0.
Definition px (va level : Z) : Z := Z.land (Z.shiftr va (PGSHIFT + 9 * level)) PXMASK.

(** ** Page-table entries *)
Definition is_v (pte : Z) : bool := negb (Z.land pte PTE_V =? 0).
Definition is_u (pte : Z) : bool := negb (Z.land pte PTE_U =? 0).
Definition rm_u (pte : Z) : Z := Z.land pte (usize_not PTE_U).
Definition is_leaf (pte : Z) : bool := negb (Z.land pte 1023 =? PTE_V).
Definition flags (pte : Z) : Z := Z.land pte 1023.
Definition to_pa (pte : Z) : Z := wrap64 (Z.shiftl (Z.shiftr pte 10) 12).
Definition pte_set (pa attr : Z) : Z := Z.lor (Z.shiftl (Z.shiftr pa 12) 10) attr.

(** [satp::make(Sv39, 0, ptr)] *)
Definition as_satp (ptr : Z) : Z := Z.lor (Z.shiftl 8 60) (Z.shiftr ptr PGSHIFT).

(** ** Memory *)
Record vmem := mkMem {
  tables : gmap Z (list Z);
  bytes : gmap Z Z;
  avail : list Z;
}.

Definition get_pte (m : vmem) (t i : Z) : outcome (option Z) :=
  match tables m !! t with
  | Some es => Done (es !! Z.to_nat i)
  | None => Fault t
  end.

Definition set_pte (m : vmem) (t i v : Z) : vmem :=
  match tables m !! t with
  | Some es => mkMem (<[t := <[Z.to_nat i := v]> es]> (tables m)) (bytes m) (avail m)
  | None => m
  end.

(** [RawPageTable::new] *)
Definition new_table (m : vmem) : option (vmem * Z) :=
  match avail m with
  | [] => None
  | a :: r => Some (mkMem (<[a := replicate 512 0]> (tables m)) (bytes m) r, a)
  end.

(** A zeroed page for data, and its release. *)
Definition zero_bytes (n a : Z) (b : gmap Z Z) : gmap Z Z :=
  foldr (λ i b, <[a + i := 0]> b) b (seqZ 0 n).
Definition new_page (m : vmem) : option (vmem * Z) :=
  match avail m with
  | [] => None
  | a :: r => Some (mkMem (tables m) (zero_bytes PGSIZE a (bytes m)) r, a)
  end.
Definition free_page (m : vmem) (a : Z) : vmem := mkMem (tables m) (bytes m) (a :: avail m).

(** ** [walk] *)

(** The body of the loop of [walk]: the next page table. *)
Definition walk_level (m : vmem) (t i : Z) (alloc : bool) : outcome (vmem * option Z) :=
  o ← get_pte m t i;
  match o with
  | None => Done (m, None)
  | Some pte =>
      if is_v pte then Done (m, Some (to_pa pte))
      else if negb alloc then Done (m, None)
      else match new_table m with
           | None => Done (m, None)
           | Some (m1, a) => Done (set_pte m1 t i (pte_set a PTE_V), Some a)
           end
  end.

(** [walk]: the place of the entry, a page-table page and an index. *)
Definition walk (m : vmem) (root va : Z) (alloc : bool) : outcome (vmem * option (Z * Z)) :=
  if decide (MAXVA ≤ va) then Panic "walk"
  else
    '(m1, r1) ← walk_level m root (px va 2) alloc;
    match r1 with
    | None => Done (m1, None)
    | Some t1 =>
        '(m2, r2) ← walk_level m1 t1 (px va 1) alloc;
        match r2 with
        | None => Done (m2, None)
        | Some t0 =>
            o ← get_pte m2 t0 (px va 0);
            Done (m2, match o with Some _ => Some (t0, px va 0) | None => None end)
        end
    end.

Definition read_place (m : vmem) (pl : Z * Z) : outcome Z :=
  o ← get_pte m pl.1 pl.2; match o with Some pte => Done pte | None => Fault pl.1 end.

Definition walkaddr (m : vmem) (root va : Z) : outcome (option Z) :=
  if decide (MAXVA ≤ va) then Done None
  else
    '(m1, r) ← walk m root va false;
    match r with
    | None => Done None
    | Some pl =>
        pte ← read_place m1 pl;
        Done (if is_v pte && is_u pte then Some (to_pa pte) else None)
    end.

(** ** [mappages] *)

(** The loop; [k] bounds the rounds, the last is the one with [va = last]. *)
Fixpoint map_loop (k : nat) (m : vmem) (root va last pa perm : Z) : outcome (vmem * result unit unit) :=
  match k with
  | O => Panic "out of fuel"
  | S k =>
      '(m1, r) ← walk m root va true;
      match r with
      | None => Done (m1, Err tt)
      | Some pl =>
          pte ← read_place m1 pl;
          if is_v pte then Panic "mappages: remap"
          else
            let m2 := set_pte m1 pl.1 pl.2 (pte_set pa (Z.lor perm PTE_V)) in
            if decide (va = last) then Done (m2, Ok tt)
            else
              va' ← checked_add va PGSIZE;
              pa' ← checked_add pa PGSIZE;
              map_loop k m2 root va' last pa' perm
      end
  end.

Definition mappages (m : vmem) (root va pa size perm : Z) : outcome (vmem * result unit unit) :=
  if decide (size = 0) then Panic "mappages: size"
  else
    e ← checked_add va size;
    let last := pgrounddown (e - 1) in
    let va0 := pgrounddown va in
    map_loop (Z.to_nat ((last - va0) / PGSIZE + 1)) m root va0 last pa perm.

(** [Kvm::map] *)
Definition kvm_map (m : vmem) (root va pa size perm : Z) : outcome vmem :=
  '(m1, r) ← mappages m root va pa size perm;
  match r with Ok _ => Done m1 | Err _ => Panic "kvmmap" end.

(** ** [Uvm] *)
Fixpoint unmap_loop (k : nat) (m : vmem) (root a : Z) (do_free : bool) : outcome vmem :=
  match k with
  | O => Done m
  | S k =>
      '(m1, r) ← walk m root a false;
      match r with
      | None => Panic "uvmunmap(): walk"
      | Some pl =>
          pte ← read_place m1 pl;
          if negb (is_v pte) then Panic "uvmunmap(): not mapped"
          else if negb (is_leaf pte) then Panic "uvmunmap(): not a leaf"
          else
            let m2 := if do_free then free_page m1 (to_pa pte) else m1 in
            unmap_loop k (set_pte m2 pl.1 pl.2 0) root (a + PGSIZE) do_free
      end
  end.

Definition unmap (m : vmem) (root va npages : Z) (do_free : bool) : outcome vmem :=
  if is_aligned va then
    n ← checked_mul npages PGSIZE;
    _ ← checked_add va n;
    unmap_loop (Z.to_nat npages) m root va do_free
  else Panic "uvmunmap: not aligned".

Definition dealloc (m : vmem) (root oldsz newsz : Z) : outcome (vmem * Z) :=
  if decide (oldsz ≤ newsz) then Done (m, oldsz)
  else
    n ← pgroundup newsz;
    o ← pgroundup oldsz;
    if decide (n < o) then
      m1 ← unmap m root n ((o - n) / PGSIZE) true; Done (m1, newsz)
    else Done (m, newsz).

(** [for a in (oldsz..newsz).step_by(PGSIZE)], [k] rounds left. *)
Fixpoint alloc_loop (k : nat) (m : vmem) (root old a xperm : Z) : outcome (vmem * bool) :=
  match k with
  | O => Done (m, true)
  | S k =>
      match new_page m with
      | None => '(m1, _) ← dealloc m root a old; Done (m1, false)
      | Some (m1, mem) =>
          '(m2, r) ← mappages m1 root a mem PGSIZE (Z.lor (Z.lor PTE_R PTE_U) xperm);
          match r with
          | Ok _ => alloc_loop k m2 root old (a + PGSIZE) xperm
          | Err _ => '(m3, _) ← dealloc (free_page m2 mem) root a old; Done (m3, false)
          end
      end
  end.

Definition alloc (m : vmem) (root oldsz newsz xperm : Z) : outcome (vmem * option Z) :=
  if decide (newsz < oldsz) then Done (m, Some oldsz)
  else
    old ← pgroundup oldsz;
    '(m1, ok) ← alloc_loop (Z.to_nat ((newsz - old + PGSIZE - 1) / PGSIZE)) m root old old xperm;
    Done (m1, if (ok : bool) then Some newsz else None).

Definition clear (m : vmem) (root va : Z) : outcome vmem :=
  '(m1, r) ← walk m root va false;
  match r with
  | Some pl => pte ← read_place m1 pl; Done (set_pte m1 pl.1 pl.2 (rm_u pte))
  | None => Panic "uvmclear"
  end.

(** [freewalk]: a valid entry that is not a leaf is taken for the address of a
    [PageTable], so the table it visits next is the word stored there, the
    first entry of the child.  [fuel] bounds the depth of the recursion. *)
Fixpoint freewalk (fuel : nat) (m : vmem) (t : Z) : outcome vmem :=
  match fuel with
  | O => Panic "stack overflow"
  | S fuel =>
      match tables m !! t with
      | None => Fault t
      | Some es =>
          foldl (λ r i,
            m ← r;
            o ← get_pte m t (Z.of_nat i);
            match o with
            | None => Done m
            | Some pte =>
                if is_v pte && negb (is_leaf pte) then
                  w ← get_pte m (to_pa pte) 0;
                  m1 ← freewalk fuel m (default 0 w);
                  Done (set_pte m1 t (Z.of_nat i) 0)
                else if is_v pte then Panic "freewalk: leaf"
                else Done m
            end) (Done m) (seq 0 (length es))
      end
  end.

(** [copyout] and [copyin]: [k] pages left. *)
Definition write_bytes (b : gmap Z Z) (a : Z) (l : list Z) : gmap Z Z :=
  foldl (λ b '(i, x), <[a + Z.of_nat i := x]> b) b (imap pair l).

Fixpoint copyout (k : nat) (m : vmem) (root dstva : Z) (src : list Z) : outcome (vmem * result unit unit) :=
  match src, k with
  | [], _ => Done (m, Ok tt)
  | _, O => Panic "out of fuel"
  | _, S k =>
      let va0 := pgrounddown dstva in
      r ← walkaddr m root va0;
      match r with
      | None => Done (m, Err tt)
      | Some pa0 =>
          let n := Z.to_nat (Z.min (PGSIZE - (dstva - va0)) (Z.of_nat (length src))) in
          let m1 := mkMem (tables m) (write_bytes (bytes m) (pa0 + (dstva - va0)) (take n src)) (avail m) in
          copyout k m1 root (va0 + PGSIZE) (drop n src)
      end
  end.

Fixpoint copyin (k : nat) (m : vmem) (root srcva : Z) (len : nat) : outcome (result (list Z) unit) :=
  match len, k with
  | O, _ => Done (Ok [])
  | _, O => Panic "out of fuel"
  | _, S k =>
      let va0 := pgrounddown srcva in
      r ← walkaddr m root va0;
      match r with
      | None => Done (Err tt)
      | Some pa0 =>
          let n := Z.to_nat (Z.min (PGSIZE - (srcva - va0)) (Z.of_nat len)) in
          let part := (λ i, default 0 (bytes m !! (pa0 + (srcva - va0) + i))) <$> seqZ 0 (Z.of_nat n) in
          rest ← copyin k m root (va0 + PGSIZE) (len - n);
          Done (match rest with Ok l => Ok (part ++ l) | Err _ => Err tt end)
      end
  end.

(** [copyinstr] into a buffer of [max] bytes: the bytes copied, up to and with
    the first 0. *)
Fixpoint copyinstr (k : nat) (m : vmem) (root srcva : Z) (max : nat) :
    outcome (result (list Z) string) :=
  match max, k with
  | O, _ => Done (Err "not enough space")
  | _, O => Panic "out of fuel"
  | _, S k =>
      let va0 := pgrounddown srcva in
      r ← walkaddr m root va0;
      match r with
      | None => Done (Err "virtual address not found")
      | Some pa0 =>
          let n := Z.to_nat (Z.min (PGSIZE - (srcva - va0)) (Z.of_nat max)) in
          let src := (λ i, default 0 (bytes m !! (pa0 + (srcva - va0) + i))) <$> seqZ 0 (Z.of_nat n) in
          match list_find (λ c, c = 0) src with
          | Some (i, _) => Done (Ok (take (i + 1) src))
          | None =>
              next ← checked_add va0 PGSIZE;
              rest ← copyinstr k m root next (max - n);
              Done (match rest with Ok l => Ok (src ++ l) | Err e => Err e end)
          end
      end
  end.

(** ** [either_copyout] and [either_copyin] *)
Inductive VirtAddr := User (a : Z) | Kernel (a : Z) | Physical (a : Z).

Definition either_copyout (m : vmem) (root : Z) (dst : VirtAddr) (src : list Z) : outcome (vmem * result unit unit) :=
  match dst with
  | User a => copyout (S (length src)) m root a src
  | Kernel a | Physical a => Done (mkMem (tables m) (write_bytes (bytes m) a src) (avail m), Ok tt)
  end.

Definition either_copyin (m : vmem) (root : Z) (src : VirtAddr) (len : nat) : outcome (result (list Z) unit) :=
  match src with
  | User a => copyin (S len) m root a len
  | Kernel a | Physical a => Done (Ok ((λ i, default 0 (bytes m !! (a + i))) <$> seqZ 0 (Z.of_nat len)))
  end.

(** ** A user page table

    A [Uvm] is one word, the address of the top page-table page; a [Box<Uvm>]
    is the address of that word. *)
Definition SIZEOF_UVM : Z := 8.

Definition load_word (b : gmap Z Z) (a : Z) : Z := le_val ((λ i, default 0 (b !! (a + i))) <$> seqZ 0 8).

Definition new_uvm_box (m : vmem) : option (vmem * Z) :=
  match avail m with
  | [] => None
  | a :: r => Some (mkMem (tables m) (zero_bytes SIZEOF_UVM a (bytes m)) r, a)
  end.

Definition uvm_create (m : vmem) : option (vmem * Z) := new_uvm_box m.

(** [Uvm::init]: the first page of the first process. *)
Definition uvm_init (m : vmem) (root : Z) (src : list Z) : outcome vmem :=
  if decide (PGSIZE < Z.of_nat (length src)) then Panic "inituvm: more than a page"
  else
    match new_page m with
    | None => Panic "memory allocation failed"
    | Some (m1, mem) =>
        '(m2, r) ← mappages m1 root 0 mem PGSIZE (Z.lor (Z.lor (Z.lor PTE_W PTE_R) PTE_X) PTE_U);
        match r with
        | Err _ => Panic "called `Result::unwrap()` on an `Err` value"
        | Ok _ => Done (mkMem (tables m2) (write_bytes (bytes m2) mem src) (avail m2))
        end
    end.

(** [Uvm::copy]: the box it allocates for a page, and the value it copies, is a
    [Uvm], one word. *)
Fixpoint copy_loop (k : nat) (m : vmem) (root new va size : Z) : outcome (vmem * result unit string) :=
  if decide (size ≤ va) then Done (m, Ok tt)
  else
    match k with
    | O => Panic "out of fuel"
    | S k =>
        '(m0, r) ← walk m root va false;
        match r with
        | None => Panic "uvmcopy: pte should exist"
        | Some pl =>
            pte ← read_place m0 pl;
            if negb (is_v pte) then Panic "uvmcopy: page not present"
            else
              match new_uvm_box m0 with
              | None => m1 ← unmap m0 new 0 (va / PGSIZE) true; Done (m1, Err "uvmcopy: alloc fail")
              | Some (m1, mem) =>
                  let word := (λ i, default 0 (bytes m1 !! (to_pa pte + i))) <$> seqZ 0 SIZEOF_UVM in
                  let m2 := mkMem (tables m1) (write_bytes (bytes m1) mem word) (avail m1) in
                  '(m3, r) ← mappages m2 new va mem PGSIZE (flags pte);
                  match r with
                  | Err _ => m4 ← unmap (free_page m3 mem) new 0 (va / PGSIZE) true; Done (m4, Err "uvmcopy: fail")
                  | Ok _ => va' ← checked_add va PGSIZE; copy_loop k m3 root new va' size
                  end
              end
        end
    end.

Definition copy (m : vmem) (root new size : Z) : outcome (vmem * result unit string) :=
  copy_loop (Z.to_nat (size / PGSIZE + 1)) m root new 0 size.

(** [Uvm::free] and [proc_uvmfree]; three levels of tables. *)
Definition free (m : vmem) (root size : Z) : outcome vmem :=
  m1 ← (if decide (0 < size) then n ← pgroundup size; unmap m root 0 (n / PGSIZE) true else Done m);
  freewalk 3 m1 root.

Definition proc_uvmfree (m : vmem) (root size : Z) : outcome vmem :=
  m1 ← unmap m root TRAMPOLINE 1 false;
  m2 ← unmap m1 root TRAPFLAME 1 false;
  free m2 root size.

(** ** The kernel page table

    [etext] and [trampoline] are addresses the linker script fixes. *)
Definition UART0 : Z := 268435456.
Definition VIRTIO0 : Z := 268439552.
Definition PLIC : Z := 201326592.
Definition NPROC : nat := 64.

Fixpoint proc_mapstacks (n : nat) (p : Z) (m : vmem) (root : Z) : outcome vmem :=
  match n with
  | O => Done m
  | S n =>
      match avail m with
      | [] => Panic "called `Option::unwrap()` on a `None` value"
      | pa :: r =>
          let m1 := mkMem (tables m) (zero_bytes (4 * 4096) pa (bytes m)) r in
          m2 ← kvm_map m1 root (kstack p) pa PGSIZE (Z.lor PTE_R PTE_W);
          proc_mapstacks n (p + 1) m2 root
      end
  end.

Section kernel.
Variables etext trampoline : Z.

Definition make (m : vmem) (root : Z) : outcome vmem :=
  m ← kvm_map m root UART0 UART0 PGSIZE (Z.lor PTE_R PTE_W);
  m ← kvm_map m root VIRTIO0 VIRTIO0 PGSIZE (Z.lor PTE_R PTE_W);
  m ← kvm_map m root PLIC PLIC 4194304 (Z.lor PTE_R PTE_W);
  n ← checked_sub etext KERNBASE;
  m ← kvm_map m root KERNBASE KERNBASE n (Z.lor PTE_R PTE_X);
  n ← checked_sub PHYSTOP etext;
  m ← kvm_map m root etext etext n (Z.lor PTE_R PTE_W);
  m ← kvm_map m root TRAMPOLINE trampoline PGSIZE (Z.lor PTE_R PTE_X);
  proc_mapstacks NPROC 0 m root.

(** [kinithart]: the value written to [satp]. *)
Definition kinithart (root : Z) : Z := as_satp root.

(** [proc_uvmcreate]: [trapframe] is the address of the process's trapframe. *)
Definition proc_uvmcreate (m : vmem) (trapframe : Z) : outcome (vmem * option Z) :=
  match uvm_create m with
  | None => Done (m, None)
  | Some (m1, u) =>
      let root := load_word (bytes m1) u in
      '(m2, r) ← mappages m1 root TRAMPOLINE trampoline PGSIZE (Z.lor PTE_R PTE_X);
      match r with
      | Err _ => m3 ← free m2 root 0; Done (free_page m3 u, None)
      | Ok _ =>
          '(m3, r) ← mappages m2 root TRAPFLAME trapframe PGSIZE (Z.lor PTE_R PTE_W);
          match r with
          | Err _ => m4 ← unmap m3 root TRAMPOLINE 1 false; m5 ← free m4 root 0; Done (free_page m5 u, None)
          | Ok _ => Done (m3, Some u)
          end
      end
  end.

Definition kinit (m : vmem) : outcome (vmem * Z) :=
  match new_table m with
  | None => Panic "called `Option::unwrap()` on a `None` value"
  | Some (m1, root) => m2 ← make m1 root; Done (m2, root)
  end.
End kernel.
