(* ===== verification/VmSpec.v ===== *)
(** * Properties of the page tables

    [Vm] translates [vm.rs].  The abstraction of a three-level table is the
    partial function [translate]; [mappages] and [unmap] are shown to change
    it on exactly the pages they are given.  The invariant [pt_wf] says that
    the page-table pages form a tree (each has one parent entry), so that
    writing an entry affects one page only. *)

From S2P Require Import Prelude Vm.

Open Scope Z_scope.

(** ** Bits *)
Lemma shiftl_lor_add a b k :
  0 ≤ k → 0 ≤ b < 2 ^ k → Z.lor (Z.shiftl a k) b = a * 2 ^ k + b.
Proof.
  intros Hk Hb. rewrite <-Z.shiftl_mul_pow2 by done.
  rewrite <-Z.lxor_lor, <-Z.add_nocarry_lxor; [done|..].
  all: apply Z.bits_inj'; intros i Hi; rewrite Z.land_spec, Z.bits_0;
    destruct (decide (i < k)); [by rewrite Z.shiftl_spec_low|];
    rewrite andb_false_iff; right; destruct (decide (b = 0)) as [->|]; [apply Z.bits_0|];
    apply Z.bits_above_log2; [lia|]; apply Z.lt_le_trans with k; [apply Z.log2_lt_pow2; lia|lia].
Qed.

Lemma to_pa_set pa attr :
  0 ≤ pa < usize_mod → pa `mod` PGSIZE = 0 → 0 ≤ attr < 1024 → to_pa (pte_set pa attr) = pa.
Proof.
  intros H0 Hal Ha. unfold to_pa, pte_set. rewrite shiftl_lor_add by (simpl; lia).
  rewrite !Z.shiftr_div_pow2, Z.shiftl_mul_pow2 by lia. unfold PGSIZE in Hal.
  change (2 ^ 10) with 1024. change (2 ^ 12) with 4096.
  rewrite Z.div_add_l by lia. rewrite (Z.div_small attr) by lia.
  rewrite wrap64_small; zdm.
Qed.

Lemma flags_set pa attr : 0 ≤ pa → 0 ≤ attr < 1024 → flags (pte_set pa attr) = attr.
Proof.
  intros H0 Ha. unfold flags, pte_set. rewrite shiftl_lor_add by (simpl; lia).
  change 1023 with (Z.ones 10). rewrite Z.land_ones by lia.
  rewrite Z.add_comm, Z_mod_plus_full. by rewrite Z.mod_small.
Qed.

Lemma is_v_testbit pte : is_v pte = Z.testbit pte 0.
Proof.
  unfold is_v, PTE_V. pose proof (land_pow2_testbit pte 0 ltac:(lia)) as H.
  rewrite <-H. change (Z.shiftl 1 0) with 1.
  pose proof (Z.land_ones pte 1 ltac:(lia)) as Hm. change (Z.ones 1) with 1 in Hm. rewrite Hm.
  change (2 ^ 1) with 2. pose proof (Z.mod_pos_bound pte 2).
  destruct (Z.eqb_spec (pte `mod` 2) 0), (Z.eqb_spec (pte `mod` 2) 1); simpl; lia.
Qed.

Lemma is_v_set pa perm : is_v (pte_set pa (Z.lor perm PTE_V)) = true.
Proof.
  rewrite is_v_testbit. unfold pte_set, PTE_V. rewrite !Z.lor_spec. simpl. by rewrite !orb_true_r.
Qed.

Lemma is_v_0 : is_v 0 = false.
Proof. done. Qed.

Lemma pgrounddown_div z : 0 ≤ z < usize_mod → pgrounddown z = z / 4096 * 4096.
Proof.
  intros Hz. unfold pgrounddown, usize_not, PGSIZE.
  change (18446744073709551616 - 1 - (4096 - 1)) with (Z.shiftl (Z.ones 52) 12).
  replace (z / 4096 * 4096) with (Z.shiftl (Z.shiftr z 12) 12)
    by (by rewrite Z.shiftr_div_pow2, Z.shiftl_mul_pow2 by lia).
  apply Z.bits_inj'. intros i Hi. rewrite Z.land_spec.
  destruct (decide (i < 12)); [by rewrite !Z.shiftl_spec_low, andb_false_r|].
  rewrite !Z.shiftl_spec, Z.shiftr_spec by lia. replace (i - 12 + 12) with i by lia.
  destruct (decide (i < 64)).
  - rewrite Z.ones_spec_low by lia. by rewrite andb_true_r.
  - rewrite Z.ones_spec_high by lia. rewrite andb_false_r. symmetry.
    destruct (decide (z = 0)) as [->|]; [apply Z.bits_0|]. apply Z.bits_above_log2; [lia|].
    apply Z.lt_le_trans with 64; [apply Z.log2_lt_pow2; [lia|]; apply Hz|lia].
Qed.

Lemma px_div va level : 0 ≤ level → px va level = (va / 2 ^ (12 + 9 * level)) `mod` 512.
Proof.
  intros Hl. unfold px, PGSHIFT, PXMASK. change 511 with (Z.ones 9).
  rewrite Z.land_ones, Z.shiftr_div_pow2 by lia. change (2 ^ 9) with 512. reflexivity.
Qed.

Lemma px_range va level : 0 ≤ level → 0 ≤ px va level < 512.
Proof. intros Hl. rewrite px_div by done. apply Z.mod_pos_bound. lia. Qed.

(** The three indices determine the page. *)
Lemma px_page va :
  0 ≤ va < MAXVA → va / 4096 = px va 2 * 262144 + px va 1 * 512 + px va 0.
Proof.
  intros Hva. rewrite !px_div by lia. change MAXVA with 274877906944 in Hva.
  change (12 + 9 * 2) with 30. change (12 + 9 * 1) with 21. change (12 + 9 * 0) with 12.
  change (2 ^ 30) with (4096 * (512 * 512)). change (2 ^ 21) with (4096 * 512). change (2 ^ 12) with 4096.
  rewrite <-!Z.div_div by lia. set (q := va / 4096). assert (0 ≤ q < 67108864) by (unfold q; zdm).
  clearbody q. zdm.
Qed.

Lemma px_inj va va' :
  0 ≤ va < MAXVA → 0 ≤ va' < MAXVA →
  px va 2 = px va' 2 → px va 1 = px va' 1 → px va 0 = px va' 0 → va / 4096 = va' / 4096.
Proof. intros H1 H2 E2 E1 E0. rewrite (px_page va H1), (px_page va' H2). congruence. Qed.

Lemma px_same_page va va' level : 0 ≤ level → va / 4096 = va' / 4096 → px va level = px va' level.
Proof.
  intros Hl He. rewrite !px_div by done. rewrite Z.pow_add_r by lia. change (2 ^ 12) with 4096.
  pose proof (Z.pow_pos_nonneg 2 (9 * level)). rewrite <-!Z.div_div by lia. by rewrite He.
Qed.

(** ** Entries *)
Definition entry (m : vmem) (t i : Z) : option Z :=
  match tables m !! t with Some es => es !! Z.to_nat i | None => None end.

Definition is_page (m : vmem) (t : Z) : Prop := ∃ es, tables m !! t = Some es ∧ length es = 512%nat.

Definition child (m : vmem) (t i : Z) : option Z :=
  match entry m t i with
  | Some pte => if is_v pte then Some (to_pa pte) else None
  | None => None
  end.

Lemma page_entry m t i : is_page m t → 0 ≤ i < 512 → ∃ pte, entry m t i = Some pte.
Proof.
  intros (es & Ht & Hl) Hi. unfold entry. rewrite Ht. apply lookup_lt_is_Some_2. lia.
Qed.

Lemma get_pte_entry m t i : is_page m t → get_pte m t i = Done (entry m t i).
Proof. intros (es & Ht & _). unfold get_pte, entry. by rewrite Ht. Qed.

Lemma entry_set m t i v t' i' :
  is_page m t → 0 ≤ i < 512 → 0 ≤ i' →
  entry (set_pte m t i v) t' i' = if decide (t' = t ∧ i' = i) then Some v else entry m t' i'.
Proof.
  intros (es & Ht & Hl) Hi Hi'. unfold entry, set_pte. rewrite Ht. cbn [tables].
  destruct (decide (t' = t)) as [->|Hne].
  - rewrite lookup_insert_eq, Ht, lookup_upd by lia.
    destruct (decide (i' = i)) as [->|]; [by rewrite !decide_True|].
    rewrite decide_False by lia. rewrite decide_False by naive_solver. done.
  - rewrite lookup_insert_ne by done. rewrite decide_False by naive_solver. done.
Qed.

Lemma page_set m t i v t' : is_page m t' → is_page (set_pte m t i v) t'.
Proof.
  intros (es & Ht & Hl). unfold is_page, set_pte. destruct (tables m !! t) as [es0|] eqn:E; [|eauto].
  cbn [tables]. destruct (decide (t' = t)) as [->|].
  - rewrite lookup_insert_eq. eexists. split; [done|]. rewrite length_insert. congruence.
  - rewrite lookup_insert_ne by done. eauto.
Qed.

Lemma avail_set m t i v : avail (set_pte m t i v) = avail m.
Proof. unfold set_pte. by destruct (tables m !! t). Qed.

Lemma dom_set m t i v t' : tables (set_pte m t i v) !! t' = None ↔ tables m !! t' = None.
Proof.
  unfold set_pte. destruct (tables m !! t) eqn:E; [|done]. cbn [tables].
  destruct (decide (t' = t)) as [->|]; [rewrite lookup_insert_eq|by rewrite lookup_insert_ne].
  rewrite E. done.
Qed.

(** ** The tree *)

(** [g1] gives the index in the root of each second-level page, [g0] the parent
    and the index of each page of the last level. *)
Record pt_tree (m : vmem) (root : Z) (g1 : gmap Z Z) (g0 : gmap Z (Z * Z)) : Prop := {
  w_root : is_page m root;
  w_c1 : ∀ i t, 0 ≤ i < 512 → child m root i = Some t → g1 !! t = Some i;
  w_p1 : ∀ t i, g1 !! t = Some i → is_page m t ∧ t ≠ root ∧ g0 !! t = None;
  w_c0 : ∀ p j i t, g1 !! p = Some j → 0 ≤ i < 512 → child m p i = Some t → g0 !! t = Some (p, i);
  w_p0 : ∀ t x, g0 !! t = Some x → is_page m t ∧ t ≠ root;
}.

(** The allocator hands out aligned pages that are not in use as tables. *)
Definition fresh_page (m : vmem) (a : Z) : Prop :=
  tables m !! a = None ∧ 0 ≤ a < usize_mod ∧ a `mod` PGSIZE = 0.
Definition pt_free (m : vmem) : Prop := NoDup (avail m) ∧ ∀ a, a ∈ avail m → fresh_page m a.

Definition pt_ok (m : vmem) (root : Z) : Prop := ∃ g1 g0, pt_tree m root g1 g0.
Definition pt_wf (m : vmem) (root : Z) : Prop := pt_ok m root ∧ pt_free m.

(** The translation of a triple of indices: the valid entry it leads to. *)
Definition trans (m : vmem) (root i2 i1 i0 : Z) : option Z :=
  match child m root i2 with
  | None => None
  | Some t1 =>
      match child m t1 i1 with
      | None => None
      | Some t0 =>
          match entry m t0 i0 with
          | Some pte => if is_v pte then Some pte else None
          | None => None
          end
      end
  end.

Definition translate (m : vmem) (root va : Z) : option Z := trans m root (px va 2) (px va 1) (px va 0).

Lemma not_page m a : tables m !! a = None → ¬ is_page m a.
Proof. intros H (es & Hes & _). congruence. Qed.

Section add_table.
Variables (m : vmem) (root p i a : Z) (r : list Z) (g1 : gmap Z Z) (g0 : gmap Z (Z * Z)).
Hypothesis Hwf : pt_tree m root g1 g0.
Hypothesis Hfree : pt_free m.
Hypothesis Hav : avail m = a :: r.
Hypothesis Hp : is_page m p.
Hypothesis Hi : 0 ≤ i < 512.
Hypothesis Hinv : child m p i = None.

Let m1 := mkMem (<[a := replicate 512 0]> (tables m)) (bytes m) r.
Let m2 := set_pte m1 p i (pte_set a PTE_V).

Lemma at_fresh : fresh_page m a.
Proof. apply Hfree. rewrite Hav. left. Qed.

Lemma at_ne t : is_page m t → t ≠ a.
Proof. intros Ht ->. by destruct (not_page m a (proj1 at_fresh)). Qed.

Lemma at_page1 t : is_page m t → is_page m1 t.
Proof.
  intros Ht. pose proof (at_ne _ Ht). destruct Ht as (es & ? & ?). exists es.
  unfold m1. cbn [tables]. by rewrite lookup_insert_ne.
Qed.

Lemma at_page t : is_page m t → is_page m2 t.
Proof. intros Ht. apply page_set, at_page1, Ht. Qed.

Lemma at_page_a : is_page m2 a.
Proof. apply page_set. exists (replicate 512 0). unfold m1. cbn [tables]. by rewrite lookup_insert_eq. Qed.

Lemma at_entry t j :
  0 ≤ j → entry m2 t j =
    if decide (t = p ∧ j = i) then Some (pte_set a PTE_V)
    else if decide (t = a) then replicate 512 0 !! Z.to_nat j else entry m t j.
Proof.
  intros Hj. unfold m2. rewrite entry_set by (done || by apply at_page1).
  destruct (decide (t = p ∧ j = i)); [done|]. unfold entry, m1. cbn [tables].
  destruct (decide (t = a)) as [->|]; [by rewrite lookup_insert_eq|by rewrite lookup_insert_ne].
Qed.

Lemma at_child t j :
  0 ≤ j → child m2 t j =
    if decide (t = p ∧ j = i) then Some a else if decide (t = a) then None else child m t j.
Proof.
  intros Hj. unfold child. rewrite at_entry by done.
  destruct (decide (t = p ∧ j = i)) as [_|_].
  - pose proof at_fresh as (_ & Ha & Hal).
    rewrite (is_v_set a 0 : is_v (pte_set a PTE_V) = true). f_equal. by apply to_pa_set.
  - destruct (decide (t = a)) as [_|_]; [|done].
    destruct (replicate 512 0 !! Z.to_nat j) eqn:E; [|done].
    apply lookup_replicate in E as [-> _]. done.
Qed.

Lemma at_avail : avail m2 = r.
Proof. unfold m2. by rewrite avail_set. Qed.

Lemma at_free : pt_free m2.
Proof.
  destruct Hfree as [Hnd Hfr]. unfold pt_free. rewrite at_avail.
  rewrite Hav in Hnd. apply NoDup_cons in Hnd as [Hni Hnd].
  split; [done|]. intros b Hb.
  destruct (Hfr b) as (Hn & ? & ?); [rewrite Hav; by right|].
  split_and!; [|lia|lia|done]. unfold m2. apply dom_set. unfold m1. cbn [tables].
  rewrite lookup_insert_ne; [done|]. by intros ->.
Qed.

Lemma at_g1 : g1 !! a = None.
Proof.
  destruct (g1 !! a) eqn:E; [|done]. apply (w_p1 _ _ _ _ Hwf) in E as [Ha _].
  by destruct (at_ne _ Ha).
Qed.

Lemma at_g0 : g0 !! a = None.
Proof.
  destruct (g0 !! a) eqn:E; [|done]. apply (w_p0 _ _ _ _ Hwf) in E as [Ha _].
  by destruct (at_ne _ Ha).
Qed.

(** A new second-level page under the root. *)
Lemma add_level1 : p = root → pt_tree m2 root (<[a := i]> g1) g0.
Proof.
  intros Hpr. pose proof (w_root _ _ _ _ Hwf) as Hr. split.
  - by apply at_page.
  - intros j t Hj. rewrite at_child by lia. pose proof (at_ne _ Hr).
    destruct (decide (root = p ∧ j = i)) as [[_ ->]|Hn].
    + intros [= <-]. by rewrite lookup_insert_eq.
    + rewrite decide_False by done. intros Hc%(w_c1 _ _ _ _ Hwf); [|done].
      destruct (decide (t = a)) as [->|]; [by rewrite at_g1 in Hc|by rewrite lookup_insert_ne].
  - intros t j Hg. destruct (decide (t = a)) as [->|].
    + split_and!; [apply at_page_a|by apply not_eq_sym, at_ne|apply at_g0].
    + rewrite lookup_insert_ne in Hg by done. destruct (w_p1 _ _ _ _ Hwf _ _ Hg) as (? & ? & ?).
      split_and!; [by apply at_page|done|done].
  - intros q j k t Hq Hk. rewrite at_child by lia. destruct (decide (q = a)) as [->|].
    + pose proof (at_ne _ Hp). destruct (decide (a = p ∧ k = i)) as [[]|_]; [congruence|done].
    + rewrite lookup_insert_ne in Hq by done. destruct (w_p1 _ _ _ _ Hwf _ _ Hq) as (? & ? & ?).
      destruct (decide (q = p ∧ k = i)) as [[]|_]; [congruence|].
      intros Hc. by eapply (w_c0 _ _ _ _ Hwf).
  - intros t x Hg. destruct (w_p0 _ _ _ _ Hwf _ _ Hg). split; [by apply at_page|done].
Qed.

(** A new last-level page under a second-level one. *)
Lemma add_level0 k : g1 !! p = Some k → pt_tree m2 root g1 (<[a := (p, i)]> g0).
Proof.
  intros Hg1.
  destruct (w_p1 _ _ _ _ Hwf _ _ Hg1) as (_ & Hpr & _).
  pose proof (at_ne _ (w_root _ _ _ _ Hwf)) as Hra. split.
  - by apply at_page, (w_root _ _ _ _ Hwf).
  - intros j t Hj. rewrite at_child by lia. rewrite decide_False by naive_solver.
    rewrite decide_False by done. by apply (w_c1 _ _ _ _ Hwf).
  - intros t j Hg. destruct (w_p1 _ _ _ _ Hwf _ _ Hg) as (Ht & ? & ?).
    split_and!; [by apply at_page|done|]. rewrite lookup_insert_ne; [done|]. by apply not_eq_sym, at_ne.
  - intros q j l t Hq Hl. rewrite at_child by lia.
    destruct (decide (q = p ∧ l = i)) as [[-> ->]|Hn].
    + intros [= <-]. by rewrite lookup_insert_eq.
    + destruct (w_p1 _ _ _ _ Hwf _ _ Hq) as (Hqp & _). rewrite decide_False by (by apply at_ne).
      intros Hc%(w_c0 _ _ _ _ Hwf _ _ _ _ Hq); [|done].
      destruct (decide (t = a)) as [->|]; [by rewrite at_g0 in Hc|by rewrite lookup_insert_ne].
  - intros t x Hg. destruct (decide (t = a)) as [->|].
    + split; [apply at_page_a|by apply not_eq_sym].
    + rewrite lookup_insert_ne in Hg by done. destruct (w_p0 _ _ _ _ Hwf _ _ Hg). split; [by apply at_page|done].
Qed.

(** Either way no translation changes. *)
Lemma add_trans j2 j1 j0 :
  p = root ∨ (∃ k, g1 !! p = Some k) → 0 ≤ j2 < 512 → 0 ≤ j1 < 512 → 0 ≤ j0 < 512 →
  trans m2 root j2 j1 j0 = trans m root j2 j1 j0.
Proof.
  intros Hcase H2 H1 H0. unfold trans. rewrite at_child by lia.
  pose proof (at_ne _ (w_root _ _ _ _ Hwf)) as Hra.
  destruct (decide (root = p ∧ j2 = i)) as [[Hrp ->]|Hn2].
  - rewrite Hrp, Hinv, at_child by lia. pose proof (at_ne _ Hp).
    destruct (decide (a = p ∧ j1 = i)) as [[]|_]; [congruence|]. by rewrite decide_True.
  - rewrite decide_False by done. destruct (child m root j2) as [t1|] eqn:E1; [|done].
    pose proof (w_c1 _ _ _ _ Hwf _ _ H2 E1) as G1.
    destruct (w_p1 _ _ _ _ Hwf _ _ G1) as (P1 & Hr1 & Hg01). rewrite at_child by lia.
    destruct (decide (t1 = p ∧ j1 = i)) as [[Ht1 ->]|Hn1].
    + rewrite Ht1, Hinv, at_entry by lia. pose proof (at_ne _ Hp).
      destruct (decide (a = p ∧ j0 = i)) as [[]|_]; [congruence|]. rewrite decide_True by done. destruct (replicate 512 0 !! Z.to_nat j0) eqn:E; [|done].
      by apply lookup_replicate in E as [-> _].
    + rewrite decide_False by (by apply at_ne). destruct (child m t1 j1) as [t0|] eqn:E0; [|done].
      pose proof (w_c0 _ _ _ _ Hwf _ _ _ _ G1 H1 E0) as G0.
      destruct (w_p0 _ _ _ _ Hwf _ _ G0) as (P0 & Hr0). rewrite at_entry by lia.
      destruct (decide (t0 = p ∧ j0 = i)) as [[-> _]|_].
      { exfalso. destruct Hcase as [->|[k Hk]]; [done|].
           destruct (w_p1 _ _ _ _ Hwf _ _ Hk) as (_ & _ & Hg). congruence. }
      by rewrite decide_False by (by apply at_ne).
Qed.
End add_table.

(** ** [walk] *)

Lemma get_pte_page m p i : is_page m p → 0 ≤ i < 512 → ∃ pte, get_pte m p i = Done (Some pte) ∧ entry m p i = Some pte.
Proof.
  intros Hp Hi. destruct (page_entry m p i Hp Hi) as (pte & He). exists pte.
  by rewrite get_pte_entry, He.
Qed.

(** A page of one of the two upper levels. *)
Definition upper (root : Z) (g1 : gmap Z Z) (p : Z) : Prop := p = root ∨ ∃ k, g1 !! p = Some k.

Lemma upper_page m root g1 g0 p : pt_tree m root g1 g0 → upper root g1 p → is_page m p.
Proof. intros H [->|[k Hk]]; [apply H|]. by apply (w_p1 _ _ _ _ H) in Hk as [? _]. Qed.

(** What a walk that may allocate does to the tables: nothing visible. *)
Record grows (m m' : vmem) (root : Z) : Prop := {
  g_trans : ∀ j2 j1 j0, 0 ≤ j2 < 512 → 0 ≤ j1 < 512 → 0 ≤ j0 < 512 →
    trans m' root j2 j1 j0 = trans m root j2 j1 j0;
  g_child : ∀ t j c, 0 ≤ j → child m t j = Some c → child m' t j = Some c;
  g_free : pt_free m → pt_free m';
  g_bytes : bytes m' = bytes m;
}.

Lemma grows_refl m root : grows m m root.
Proof. by split. Qed.

Lemma grows_trans m1 m2 m3 root : grows m1 m2 root → grows m2 m3 root → grows m1 m3 root.
Proof.
  intros [A1 A2 A3 A4] [B1 B2 B3 B4]. split.
  - intros. by rewrite B1, A1.
  - eauto.
  - eauto.
  - congruence.
Qed.

Lemma bytes_set m t i v : bytes (set_pte m t i v) = bytes m.
Proof. unfold set_pte. by destruct (tables m !! t). Qed.

Lemma walk_level_alloc m root g1 g0 p i :
  pt_tree m root g1 g0 → pt_free m → upper root g1 p → 0 ≤ i < 512 →
  ∃ m' r g1' g0', walk_level m p i true = Done (m', r) ∧ pt_tree m' root g1' g0' ∧ grows m m' root ∧
    match r with Some t => child m' p i = Some t | None => avail m' = [] end.
Proof.
  intros Hwf Hfree Hup Hi. pose proof (upper_page _ _ _ _ _ Hwf Hup) as Hp.
  destruct (get_pte_page m p i Hp Hi) as (pte & Hg & He). unfold walk_level. rewrite Hg. simpl.
  destruct (is_v pte) eqn:Hv.
  { exists m, (Some (to_pa pte)), g1, g0. split_and!; [done|done|apply grows_refl|].
    unfold child. by rewrite He, Hv. }
  assert (Hc : child m p i = None) by (unfold child; by rewrite He, Hv).
  unfold new_table. destruct (avail m) as [|a r] eqn:Hav.
  { exists m, None, g1, g0. split_and!; [done|done|apply grows_refl|done]. }
  pose proof (add_trans m root p i a r g1 g0 Hwf Hfree Hav Hp Hi Hc) as Ht.
  pose proof (at_child m p i a r Hfree Hav Hp Hi) as Hch.
  pose proof (at_free m p i a r Hfree Hav) as Hfr.
  set (m' := set_pte _ p i (pte_set a PTE_V)) in *.
  assert (Hgr : grows m m' root).
  { split; [intros; by apply Ht| |done|by unfold m'; rewrite bytes_set].
    intros t j c Hj Hcj. rewrite Hch by done.
    destruct (decide (t = p ∧ j = i)) as [[-> ->]|_]; [congruence|].
    destruct (decide (t = a)) as [->|]; [|done]. exfalso.
    destruct (at_fresh m a r Hfree Hav) as [Hn _]. unfold child, entry in Hcj. by rewrite Hn in Hcj. }
  assert (Hca : child m' p i = Some a) by (rewrite Hch by lia; by rewrite decide_True).
  destruct Hup as [->|[k Hk]].
  - exists m', (Some a), (<[a := i]> g1), g0. split_and!; [done| |done|done].
    by eapply add_level1.
  - exists m', (Some a), g1, (<[a := (p, i)]> g0). split_and!; [done| |done|done].
    by eapply add_level0.
Qed.

(** The place [walk] returns is the last-level entry of the address. *)
Definition leads (m : vmem) (root va : Z) (pl : Z * Z) : Prop :=
  ∃ t1, child m root (px va 2) = Some t1 ∧ child m t1 (px va 1) = Some pl.1 ∧ pl.2 = px va 0.

Lemma leads_g m root g1 g0 va pl :
  pt_tree m root g1 g0 → leads m root va pl →
  ∃ t1, g1 !! t1 = Some (px va 2) ∧ g0 !! pl.1 = Some (t1, px va 1) ∧ is_page m pl.1.
Proof.
  intros Hwf (t1 & H1 & H0 & _). exists t1.
  pose proof (w_c1 _ _ _ _ Hwf _ _ (px_range va 2 ltac:(lia)) H1) as G1.
  pose proof (w_c0 _ _ _ _ Hwf _ _ _ _ G1 (px_range va 1 ltac:(lia)) H0) as G0.
  destruct (w_p0 _ _ _ _ Hwf _ _ G0) as [Hp _]. done.
Qed.

Lemma walk_alloc m root va :
  pt_wf m root → 0 ≤ va < MAXVA →
  ∃ m' r, walk m root va true = Done (m', r) ∧ pt_wf m' root ∧ grows m m' root ∧
    match r with Some pl => leads m' root va pl | None => avail m' = [] end.
Proof.
  intros [(g1 & g0 & Hwf) Hfree] Hva. unfold walk. rewrite decide_False by lia.
  destruct (walk_level_alloc m root g1 g0 root (px va 2) Hwf Hfree (or_introl eq_refl) (px_range va 2 ltac:(lia)))
    as (m1 & r1 & h1 & h0 & -> & Hwf1 & Hgr1 & Hr1). simpl.
  pose proof (g_free _ _ _ Hgr1 Hfree) as Hfree1.
  destruct r1 as [t1|].
  2: { exists m1, None. split_and!; [done| |done|done]. split; [|done]. by eexists _, _. }
  pose proof (w_c1 _ _ _ _ Hwf1 _ _ (px_range va 2 ltac:(lia)) Hr1) as G1.
  destruct (walk_level_alloc m1 root h1 h0 t1 (px va 1) Hwf1 Hfree1 (or_intror (ex_intro _ _ G1)) (px_range va 1 ltac:(lia)))
    as (m2 & r2 & k1 & k0 & -> & Hwf2 & Hgr2 & Hr2). simpl.
  pose proof (grows_trans _ _ _ _ Hgr1 Hgr2) as Hgr.
  assert (pt_wf m2 root) by (split; [by eexists _, _|by apply (g_free _ _ _ Hgr)]).
  destruct r2 as [t0|]; [|by exists m2, None].
  assert (Hl : leads m2 root va (t0, px va 0)).
  { exists t1. split_and!; [|done|done]. apply (g_child _ _ _ Hgr2); [apply px_range; lia|done]. }
  destruct (leads_g _ _ _ _ _ _ Hwf2 Hl) as (? & _ & _ & Hp).
  destruct (get_pte_page m2 t0 (px va 0) Hp (px_range va 0 ltac:(lia))) as (pte & -> & _).
  simpl. by exists m2, (Some (t0, px va 0)).
Qed.

(** Without allocation [walk] leaves the tables alone and finds the place of
    every address that translates. *)
Lemma walk_level_look m p i t : child m p i = Some t → walk_level m p i false = Done (m, Some t).
Proof.
  unfold child, walk_level, entry, get_pte. intros H. destruct (tables m !! p) as [es|]; [|done]. simpl.
  destruct (es !! Z.to_nat i) as [pte|]; [|done]. destruct (is_v pte); [|done]. by simplify_eq.
Qed.

Lemma walk_look m root va pte :
  pt_ok m root → 0 ≤ va < MAXVA → translate m root va = Some pte →
  ∃ pl, walk m root va false = Done (m, Some pl) ∧ leads m root va pl ∧
    read_place m pl = Done pte ∧ is_v pte = true.
Proof.
  intros (g1 & g0 & Hwf) Hva Htr. unfold walk. rewrite decide_False by lia.
  unfold translate, trans in Htr.
  destruct (child m root (px va 2)) as [t1|] eqn:E2; [|done]. rewrite (walk_level_look _ _ _ _ E2). simpl.
  destruct (child m t1 (px va 1)) as [t0|] eqn:E1; [|done]. rewrite (walk_level_look _ _ _ _ E1). simpl.
  assert (Hl : leads m root va (t0, px va 0)) by (by exists t1).
  destruct (leads_g _ _ _ _ _ _ Hwf Hl) as (? & _ & _ & Hp).
  destruct (get_pte_page m t0 (px va 0) Hp (px_range va 0 ltac:(lia))) as (pte' & Hg & He).
  rewrite He in Htr. destruct (is_v pte') eqn:Hv; [|done]. simplify_eq.
  rewrite Hg. simpl. exists (t0, px va 0). split_and!; [done|done| |done].
  unfold read_place. simpl. by rewrite Hg.
Qed.

(** ** Writing a last-level entry *)
Section set_leaf.
Variables (m : vmem) (root va : Z) (pl : Z * Z) (v : Z).
Hypothesis Hva : 0 ≤ va < MAXVA.
Hypothesis Hl : leads m root va pl.

Lemma sl_child g1 g0 t j :
  pt_tree m root g1 g0 → upper root g1 t → 0 ≤ j → child (set_pte m pl.1 pl.2 v) t j = child m t j.
Proof.
  intros Hwf Hup Hj. destruct (leads_g _ _ _ _ _ _ Hwf Hl) as (t1 & _ & G0 & Hp).
  assert (Ht : t ≠ pl.1).
  { intros ->. destruct Hup as [Hr|[k Hk]]; [by apply (w_p0 _ _ _ _ Hwf) in G0 as [_ ?]|].
    apply (w_p1 _ _ _ _ Hwf) in Hk as (_ & _ & ?). congruence. }
  destruct Hl as (? & _ & _ & E). unfold child. rewrite E, entry_set by (done || apply px_range; lia).
  destruct (decide (t = pl.1 ∧ j = px va 0)) as [[]|_]; done.
Qed.

Lemma sl_tree g1 g0 : pt_tree m root g1 g0 → pt_tree (set_pte m pl.1 pl.2 v) root g1 g0.
Proof.
  intros Hwf. pose proof (λ t j, sl_child g1 g0 t j Hwf) as Hc. split.
  - apply page_set, Hwf.
  - intros i t Hi. rewrite Hc by ((by left) || lia). by apply (w_c1 _ _ _ _ Hwf).
  - intros t i Hg. destruct (w_p1 _ _ _ _ Hwf _ _ Hg) as (? & ? & ?). split_and!; [by apply page_set|done|done].
  - intros p j i t Hg Hi. rewrite Hc by ((by right; eexists) || lia). by eapply (w_c0 _ _ _ _ Hwf).
  - intros t x Hg. destruct (w_p0 _ _ _ _ Hwf _ _ Hg). split; [by apply page_set|done].
Qed.

Lemma sl_wf : pt_wf m root → pt_wf (set_pte m pl.1 pl.2 v) root.
Proof.
  intros [(g1 & g0 & Hwf) [Hnd Hfr]]. split; [exists g1, g0; by apply sl_tree|].
  unfold pt_free. rewrite avail_set. split; [done|]. intros a Ha. destruct (Hfr a Ha) as (Hn & ? & ?).
  split; [by apply dom_set|done].
Qed.

Lemma sl_entry t j :
  is_page m pl.1 → 0 ≤ j →
  entry (set_pte m pl.1 pl.2 v) t j = if decide (t = pl.1 ∧ j = px va 0) then Some v else entry m t j.
Proof. intros Hp Hj. destruct Hl as (? & _ & _ & E). by rewrite E, entry_set by (done || apply px_range; lia). Qed.

(** It changes the translation of its page and of no other. *)
Lemma sl_translate va' :
  pt_ok m root → 0 ≤ va' < MAXVA →
  translate (set_pte m pl.1 pl.2 v) root va' =
    if decide (va' / 4096 = va / 4096) then (if is_v v then Some v else None) else translate m root va'.
Proof.
  intros (g1 & g0 & Hwf) Hva'. unfold translate, trans.
  destruct (leads_g _ _ _ _ _ _ Hwf Hl) as (t1 & G1 & G0 & Hp).
  pose proof (px_range va' 2 ltac:(lia)) as R2. pose proof (px_range va' 1 ltac:(lia)) as R1.
  pose proof (px_range va' 0 ltac:(lia)) as R0.
  rewrite (sl_child g1 g0) by (done || (by left) || lia).
  destruct (decide (va' / 4096 = va / 4096)) as [Heq|Hne].
  - rewrite !(px_same_page va' va) by (done || lia). destruct Hl as (t1' & H1 & H0 & _). rewrite H1.
    pose proof (w_c1 _ _ _ _ Hwf _ _ (px_range va 2 ltac:(lia)) H1) as G1'.
    rewrite (sl_child g1 g0) by (done || (by right; eexists) || apply px_range; lia).
    rewrite H0, sl_entry by (done || apply px_range; lia). by rewrite decide_True.
  - destruct (child m root (px va' 2)) as [u1|] eqn:E2; [|done].
    pose proof (w_c1 _ _ _ _ Hwf (px va' 2) _ ltac:(lia) E2) as K1.
    rewrite (sl_child g1 g0) by (done || (by right; eexists) || lia).
    destruct (child m u1 (px va' 1)) as [u0|] eqn:E1; [|done].
    pose proof (w_c0 _ _ _ _ Hwf _ _ (px va' 1) _ K1 ltac:(lia) E1) as K0.
    rewrite sl_entry by (done || lia). rewrite decide_False; [done|]. intros [-> Ei0].
    apply Hne, px_inj; [done|done| | |done]; congruence.
Qed.
End set_leaf.

(** ** [mappages] *)

(** [m'] is [m] with [d] pages from page [q] on mapped to [pa], [pa + 4096], ... *)
Definition mapped (m m' : vmem) (root q d pa perm : Z) : Prop :=
  ∀ va, 0 ≤ va < MAXVA →
    translate m' root va =
      if decide (q ≤ va / 4096 < q + d) then Some (pte_set (pa + (va / 4096 - q) * 4096) (Z.lor perm PTE_V))
      else translate m root va.

Definition unmapped (m : vmem) (root q d : Z) : Prop :=
  ∀ va, 0 ≤ va < MAXVA → q ≤ va / 4096 < q + d → translate m root va = None.

Lemma grows_translate m m' root va : grows m m' root → translate m' root va = translate m root va.
Proof. intros Hg. apply (g_trans _ _ _ Hg); apply px_range; lia. Qed.

(** One round of the loop: out of memory, or one more page. *)
Lemma map_round m root q pa perm :
  pt_wf m root → 0 ≤ q * 4096 < MAXVA → unmapped m root q 1 →
  ∃ m1 r, walk m root (q * 4096) true = Done (m1, r) ∧
    match r with
    | None => avail m1 = [] ∧ pt_wf m1 root ∧ bytes m1 = bytes m ∧ mapped m m1 root q 0 pa perm
    | Some pl => ∃ pte, read_place m1 pl = Done pte ∧ is_v pte = false ∧
        let m2 := set_pte m1 pl.1 pl.2 (pte_set pa (Z.lor perm PTE_V)) in
        pt_wf m2 root ∧ bytes m2 = bytes m ∧ mapped m m2 root q 1 pa perm
    end.
Proof.
  intros Hwf Hq Hun. destruct (walk_alloc m root (q * 4096) Hwf Hq) as (m1 & r & Hw & Hwf1 & Hgr & Hr).
  exists m1, r. split; [done|]. destruct r as [pl|].
  2: { split_and!; [done|done|apply (g_bytes _ _ _ Hgr)|]. intros va Hva.
       rewrite decide_False by lia. by apply grows_translate. }
  assert (Hdiv : q * 4096 / 4096 = q) by (apply Z.div_mul; lia).
  pose proof Hwf1 as [(g1 & g0 & Ht1) _].
  destruct (leads_g _ _ _ _ _ _ Ht1 Hr) as (t1 & _ & _ & Hp).
  assert (Hpx : pl.2 = px (q * 4096) 0) by (by destruct Hr as (? & _ & _ & ?)).
  destruct (get_pte_page m1 pl.1 pl.2 Hp) as (pte & Hg & He); [rewrite Hpx; apply px_range; lia|].
  exists pte. split; [unfold read_place; by rewrite Hg|].
  assert (Hnv : is_v pte = false).
  { assert (Htr : translate m1 root (q * 4096) = None).
    { rewrite (grows_translate m) by done. apply Hun; lia. }
    unfold translate, trans in Htr. destruct Hr as (t1' & H1 & H0 & Hi).
    rewrite H1, H0, <-Hi, He in Htr. by destruct (is_v pte). }
  split; [done|].
  split_and!; [by eapply sl_wf|rewrite bytes_set; apply (g_bytes _ _ _ Hgr)|].
  intros va Hva. rewrite (sl_translate m1 root (q * 4096)) by (done || apply Hwf1). rewrite Hdiv, is_v_set.
  destruct (decide (va / 4096 = q)) as [Heq|Hne].
  - rewrite decide_True by lia. rewrite Heq. by replace (pa + (q - q) * 4096) with pa by lia.
  - rewrite decide_False by lia. by apply grows_translate.
Qed.

Lemma mapped_cons m m1 m2 root q d pa perm :
  0 ≤ d → mapped m m1 root q 1 pa perm → mapped m1 m2 root (q + 1) d (pa + 4096) perm →
  mapped m m2 root q (d + 1) pa perm.
Proof.
  intros Hd H1 H2 va Hva. rewrite H2, H1 by done.
  destruct (decide (q + 1 ≤ va / 4096 < q + 1 + d)).
  - rewrite decide_True by lia. do 2 f_equal. lia.
  - destruct (decide (q ≤ va / 4096 < q + 1)).
    + rewrite decide_True by lia. done.
    + rewrite decide_False by lia. done.
Qed.

Lemma map_loop_spec n m root q pa perm :
  pt_wf m root → 0 ≤ q → (q + Z.of_nat n) * 4096 < MAXVA → pa + Z.of_nat n * 4096 < usize_mod →
  unmapped m root q (Z.of_nat n + 1) →
  ∃ m' res d, map_loop (S n) m root (q * 4096) ((q + Z.of_nat n) * 4096) pa perm = Done (m', res) ∧
    pt_wf m' root ∧ bytes m' = bytes m ∧ mapped m m' root q d pa perm ∧ 0 ≤ d ∧
    match res with Ok _ => d = Z.of_nat n + 1 | Err _ => d ≤ Z.of_nat n ∧ avail m' = [] end.
Proof.
  revert m q pa. induction n as [|n IH]; intros m q pa Hwf Hq Hmax Hpa Hun.
  all: destruct (map_round m root q pa perm Hwf) as (m1 & r & Hw & Hr);
    [lia|intros va ??; apply Hun; lia|]; cbn [map_loop]; rewrite Hw; simpl;
    (destruct r as [pl|]; [|destruct Hr as (Hav & Hwf1 & Hb & Hm); exists m1, (Err tt), 0; split_and!; done || lia]);
    destruct Hr as (pte & -> & Hnv & Hwf2 & Hb2 & Hm2); cbn [mbind outcome_bind]; rewrite Hnv; cbn zeta.
  { rewrite decide_True by lia. eexists _, (Ok tt), 1. split_and!; done || lia. }
  rewrite decide_False by lia. unfold checked_add. change MAXVA with 274877906944 in Hmax.
  unfold PGSIZE. rewrite !decide_True by lia. cbn [mbind outcome_bind].
  set (m2 := set_pte m1 pl.1 pl.2 _) in *.
  destruct (IH m2 (q + 1) (pa + 4096)) as (m' & res & d & Hrun & Hwf' & Hb' & Hm' & Hd & Hres);
    [done|lia|change MAXVA with 274877906944; lia|lia| |].
  { intros va Hva Hr. rewrite Hm2 by done. rewrite decide_False by lia. apply Hun; lia. }
  replace ((q + 1) * 4096) with (q * 4096 + 4096) in Hrun by lia.
  replace ((q + 1 + Z.of_nat n) * 4096) with ((q + Z.of_nat (S n)) * 4096) in Hrun by lia.
  exists m', res, (d + 1). split_and!; [exact Hrun|done|congruence|by eapply mapped_cons|lia|].
  destruct res; [lia|]. destruct Hres. split; [lia|done].
Qed.

(** ** [unmap] *)

(** The physical pages behind [n] pages from page [q] on. *)
Definition backing (m : vmem) (root q : Z) (n : nat) : list Z :=
  (λ i, to_pa (default 0 (translate m root ((q + i) * 4096)))) <$> seqZ 0 (Z.of_nat n).

Lemma backing_cons m root q n :
  backing m root q (S n) = to_pa (default 0 (translate m root (q * 4096))) :: backing m root (q + 1) n.
Proof.
  unfold backing. rewrite seqZ_cons by lia. rewrite fmap_cons, Z.add_0_r. f_equal.
  replace (Z.pred (Z.of_nat (S n))) with (Z.of_nat n) by lia.
  rewrite <-(fmap_add_seqZ 1 0), <-list_fmap_compose. apply list_fmap_ext. intros k i _. cbn.
  do 3 f_equal. lia.
Qed.

Lemma backing_ext m m' root q n :
  (∀ i, 0 ≤ i < Z.of_nat n → translate m root ((q + i) * 4096) = translate m' root ((q + i) * 4096)) →
  backing m root q n = backing m' root q n.
Proof.
  intros H. apply list_fmap_ext. intros k i Hk. apply lookup_seqZ in Hk as [-> Hk]. by rewrite H by lia.
Qed.

(** [m'] is [m] without the [n] pages from page [q] on. *)
Definition removed (m m' : vmem) (root q : Z) (n : nat) : Prop :=
  ∀ va, 0 ≤ va < MAXVA → translate m' root va =
    if decide (q ≤ va / 4096 < q + Z.of_nat n) then None else translate m root va.

Lemma removed_cons m m1 m2 root q n :
  removed m m1 root q 1 → removed m1 m2 root (q + 1) n → removed m m2 root q (S n).
Proof.
  intros H1 H2 va Hva. rewrite H2, H1 by done.
  destruct (decide (q + 1 ≤ va / 4096 < q + 1 + Z.of_nat n)); [by rewrite decide_True by lia|].
  destruct (decide (q ≤ va / 4096 < q + Z.of_nat 1)); [by rewrite decide_True by lia|by rewrite decide_False by lia].
Qed.

Lemma unmap_round m root q do_free pte :
  pt_ok m root → 0 ≤ q * 4096 < MAXVA → translate m root (q * 4096) = Some pte →
  ∃ pl, walk m root (q * 4096) false = Done (m, Some pl) ∧ read_place m pl = Done pte ∧ is_v pte = true ∧
    let m2 := set_pte (if (do_free : bool) then free_page m (to_pa pte) else m) pl.1 pl.2 0 in
    pt_ok m2 root ∧ bytes m2 = bytes m ∧ removed m m2 root q 1 ∧
    avail m2 = (if do_free then [to_pa pte] else []) ++ avail m.
Proof.
  intros Hok Hva0 Htr. destruct (walk_look m root (q * 4096) pte Hok Hva0 Htr) as (pl & Hw & Hl & Hrd & Hv).
  exists pl. split_and!; [done|done|done|].
  set (m1 := if do_free then free_page m (to_pa pte) else m).
  assert (Hl1 : leads m1 root (q * 4096) pl) by (by destruct do_free).
  assert (Hok1 : pt_ok m1 root) by (destruct Hok as (g1 & g0 & []); exists g1, g0; destruct do_free; by split).
  assert (Hdiv : q * 4096 / 4096 = q) by (apply Z.div_mul; lia).
  cbn zeta. split_and!.
  - destruct Hok1 as (g1 & g0 & Hw1). exists g1, g0. by eapply sl_tree.
  - rewrite bytes_set. by destruct do_free.
  - intros va Hva. rewrite (sl_translate m1 root (q * 4096)) by done. rewrite Hdiv.
    destruct (decide (va / 4096 = q)); [by rewrite decide_True by lia|]. rewrite decide_False by lia.
    by destruct do_free.
  - rewrite avail_set. by destruct do_free.
Qed.

Lemma unmap_loop_spec n m root q do_free :
  pt_ok m root → 0 ≤ q → (q + Z.of_nat n) * 4096 ≤ MAXVA →
  (∀ i, 0 ≤ i < Z.of_nat n → ∃ pte, translate m root ((q + i) * 4096) = Some pte ∧ is_leaf pte = true) →
  ∃ m', unmap_loop n m root (q * 4096) do_free = Done m' ∧ pt_ok m' root ∧ bytes m' = bytes m ∧
    removed m m' root q n ∧
    avail m' = (if do_free then reverse (backing m root q n) else []) ++ avail m.
Proof.
  revert m q. induction n as [|n IH]; intros m q Hok Hq Hmax Hleaf; cbn [unmap_loop].
  { exists m. split_and!; [done|done|done| |by destruct do_free].
    intros va Hva. by rewrite decide_False by lia. }
  destruct (Hleaf 0 ltac:(lia)) as (pte & Htr & Hlf). rewrite Z.add_0_r in Htr.
  destruct (unmap_round m root q do_free pte Hok ltac:(lia) Htr) as (pl & -> & Hrd & Hv & Hok2 & Hb2 & Hr2 & Ha2).
  cbn [mbind outcome_bind]. rewrite Hrd. cbn [mbind outcome_bind]. rewrite Hv, Hlf. cbn [negb]. cbn zeta.
  set (m2 := set_pte _ pl.1 pl.2 0) in *.
  assert (Hsame : ∀ i, 0 ≤ i < Z.of_nat n →
    translate m2 root ((q + 1 + i) * 4096) = translate m root ((q + 1 + i) * 4096)).
  { intros i Hi. rewrite Hr2 by lia. rewrite Z.div_mul by lia. by rewrite decide_False by lia. }
  destruct (IH m2 (q + 1)) as (m' & Hrun & Hok' & Hb' & Hr' & Ha'); [done|lia|lia| |].
  { intros i Hi. rewrite Hsame by done. rewrite <-Z.add_assoc. apply Hleaf. lia. }
  replace ((q + 1) * 4096) with (q * 4096 + PGSIZE) in Hrun by (unfold PGSIZE; lia).
  exists m'. split_and!; [exact Hrun|done|congruence|by eapply removed_cons|].
  rewrite Ha', Ha2. destruct do_free; [|done]. rewrite backing_cons, Htr, reverse_cons, <-app_assoc.
  by rewrite (backing_ext m2 m).
Qed.

(** ** The operations *)

Lemma walkaddr_translate m root va pte :
  pt_ok m root → 0 ≤ va < MAXVA → translate m root va = Some pte →
  walkaddr m root va = Done (if is_u pte then Some (to_pa pte) else None).
Proof.
  intros Hok Hva Htr. unfold walkaddr. rewrite decide_False by lia.
  destruct (walk_look m root va pte Hok Hva Htr) as (pl & -> & _ & Hrd & Hv).
  cbn [mbind outcome_bind]. rewrite Hrd. cbn [mbind outcome_bind]. by rewrite Hv.
Qed.

Lemma lor_lt_1024 a b : 0 ≤ a < 1024 → 0 ≤ b < 1024 → 0 ≤ Z.lor a b < 1024.
Proof.
  intros Ha Hb. assert (H : Z.lor a b `mod` 2 ^ 10 = Z.lor a b).
  { rewrite <-Z.land_ones, Z.land_lor_distr_l, !Z.land_ones by lia.
    rewrite !Z.mod_small by (change (2 ^ 10) with 1024; lia). done. }
  rewrite <-H. apply Z.mod_pos_bound. lia.
Qed.

Lemma is_u_flags pte : is_u pte = is_u (flags pte).
Proof.
  unfold is_u, flags. rewrite <-Z.land_assoc. by change (Z.land 1023 PTE_U) with PTE_U.
Qed.

Lemma is_u_lor_v a : is_u (Z.lor a PTE_V) = is_u a.
Proof.
  unfold is_u. rewrite Z.land_lor_distr_l. change (Z.land PTE_V PTE_U) with 0. by rewrite Z.lor_0_r.
Qed.

(** What a mapped page shows to [walkaddr]. *)
Lemma mapped_walkaddr m m' root q d pa perm va :
  pt_ok m' root → mapped m m' root q d pa perm → 0 ≤ va < MAXVA → q ≤ va / 4096 < q + d →
  0 ≤ pa → pa `mod` PGSIZE = 0 → pa + d * 4096 ≤ usize_mod → 0 ≤ perm < 1024 →
  walkaddr m' root va = Done (if is_u perm then Some (pa + (va / 4096 - q) * 4096) else None).
Proof.
  intros Hok Hm Hva Hq Hpa Hal Hmax Hperm. specialize (Hm va Hva). rewrite decide_True in Hm by done.
  rewrite (walkaddr_translate _ _ _ _ Hok Hva Hm).
  assert (Hattr : 0 ≤ Z.lor perm PTE_V < 1024) by (by apply lor_lt_1024).
  rewrite is_u_flags, flags_set by lia. rewrite is_u_lor_v. destruct (is_u perm); [|done].
  rewrite to_pa_set; [done|lia| |done]. unfold PGSIZE in *. by rewrite Z_mod_plus_full.
Qed.

(** [mappages] is its loop over the pages [q] to [l]. *)
Lemma mappages_loop m root va pa size perm :
  let q := va / 4096 in let l := (va + size - 1) / 4096 in let n := Z.to_nat (l - q) in
  0 ≤ va → 0 < size → va + size ≤ MAXVA →
  Z.of_nat n = l - q ∧ 0 ≤ q ≤ l ∧
  mappages m root va pa size perm = map_loop (S n) m root (q * 4096) ((q + Z.of_nat n) * 4096) pa perm.
Proof.
  intros q l n Hva Hsize Hmax. assert (HM : MAXVA = 274877906944) by done.
  assert (Hq : 0 ≤ q ≤ l) by (unfold q, l; zdm). assert (Hn : Z.of_nat n = l - q) by (unfold n; lia).
  split_and!; [done|lia|lia|]. unfold mappages. rewrite decide_False by lia. rewrite checked_add_ok by lia.
  cbn [mbind outcome_bind]. rewrite !pgrounddown_div by lia. fold q l. unfold PGSIZE.
  replace (Z.to_nat ((l * 4096 - q * 4096) / 4096 + 1)) with (S n).
  2: { rewrite <-Z.mul_sub_distr_r, Z.div_mul by lia. lia. }
  rewrite Hn. do 2 f_equal. lia.
Qed.

Lemma mappages_spec m root va pa size perm
  (Hwf : pt_wf m root) (Hva : 0 ≤ va) (Hsize : 0 < size) (Hmax : va + size ≤ MAXVA)
  (Hpa : 0 ≤ pa) (Hal : pa `mod` PGSIZE = 0) (Hphys : pa + size + 8192 ≤ usize_mod)
  (Hperm : 0 ≤ perm < 1024)
  (Hun : unmapped m root (va / 4096) ((va + size - 1) / 4096 - va / 4096 + 1)) :
  ∃ m' res d, mappages m root va pa size perm = Done (m', res) ∧
    pt_wf m' root ∧ bytes m' = bytes m ∧ mapped m m' root (va / 4096) d pa perm ∧
    match res with
    | Ok _ => d = (va + size - 1) / 4096 - va / 4096 + 1 ∧
        ∀ a, va / 4096 ≤ a / 4096 ≤ (va + size - 1) / 4096 →
        walkaddr m' root a = Done (if is_u perm then Some (pa + (a / 4096 - va / 4096) * 4096) else None)
    | Err _ => 0 ≤ d ≤ (va + size - 1) / 4096 - va / 4096 ∧ avail m' = []
    end.
Proof.
  set (q := va / 4096) in *. set (l := (va + size - 1) / 4096) in *.
  assert (HM : MAXVA = 274877906944) by done.
  assert (Hq : 0 ≤ q ≤ l ∧ l * 4096 ≤ va + size - 1 ∧ (l - q) * 4096 ≤ size + 4095) by (unfold q, l; zdm).
  destruct (mappages_loop m root va pa size perm Hva Hsize Hmax) as (Hn & _ & Hloop).
  fold q l in Hn, Hloop. set (n := Z.to_nat (l - q)) in *.
  destruct (map_loop_spec n m root q pa perm) as (m' & res & d & Hrun & Hwf' & Hb & Hm & Hd & Hres);
    [done|lia|lia|lia|by rewrite Hn|].
  exists m', res, d. split_and!; [by rewrite Hloop|done|done|done|].
  - destruct res; [|destruct Hres; split; [lia|done]]. split; [lia|]. intros b Hb0.
    assert (0 ≤ b < MAXVA) by zdm. eapply mapped_walkaddr; try done; [apply Hwf'|lia|lia].
Qed.

(** C10. [mappages] on pages that are not mapped, below MAXVA, never panics.
    When it returns [Ok] it has mapped exactly the pages from that of [va] to
    that of [va + size - 1], to consecutive physical pages from [pa] on, with
    the given permissions, whatever these are; [walkaddr] shows them to the
    user exactly when the permissions have PTE_U; no other page changes its
    translation.  It returns [Err] only when the
    allocator has no page left, and then a prefix of the range is mapped.  The
    page tables stay a tree and no memory outside the tables is written. *)
Theorem mappages_exact m root va pa size perm
  (Hwf : pt_wf m root) (Hva : 0 ≤ va) (Hsize : 0 < size) (Hmax : va + size ≤ MAXVA)
  (Hpa : 0 ≤ pa) (Hal : pa `mod` PGSIZE = 0) (Hphys : pa + size + 8192 ≤ usize_mod)
  (Hperm : 0 ≤ perm < 1024)
  (Hun : unmapped m root (va / 4096) ((va + size - 1) / 4096 - va / 4096 + 1)) :
  ∃ m' res d, mappages m root va pa size perm = Done (m', res) ∧
    pt_wf m' root ∧ bytes m' = bytes m ∧ mapped m m' root (va / 4096) d pa perm ∧
    match res with
    | Ok _ => d = (va + size - 1) / 4096 - va / 4096 + 1 ∧
        ∀ a, va / 4096 ≤ a / 4096 ≤ (va + size - 1) / 4096 →
        walkaddr m' root a = Done (if is_u perm then Some (pa + (a / 4096 - va / 4096) * 4096) else None)
    | Err _ => 0 ≤ d ≤ (va + size - 1) / 4096 - va / 4096 ∧ avail m' = []
    end.
Proof. by apply mappages_spec. Qed.

(** An empty table at 8192, and three pages to allocate from. *)
Definition demo_tables : vmem :=
  mkMem {[ 8192 := replicate 512 0 ]} ∅ [12288; 16384; 20480].

Lemma demo_child i : child demo_tables 8192 i = None.
Proof.
  unfold child, entry. change (tables demo_tables !! 8192) with (Some (replicate 512 0)).
  cbn beta iota. destruct (replicate 512 0 !! Z.to_nat i) eqn:E; [|done].
  by apply lookup_replicate in E as [-> _].
Qed.

Lemma demo_tables_wf : pt_wf demo_tables 8192.
Proof.
  split.
  - exists ∅, ∅. split; try done.
    + exists (replicate 512 0). done.
    + intros i t _. by rewrite demo_child.
  - split; [apply (bool_decide_unpack _); vm_compute; done|]. intros a Ha.
    repeat (apply elem_of_cons in Ha as [->|Ha]; [split_and!; vm_compute; congruence|]).
    by apply elem_of_nil in Ha.
Qed.

Lemma mappages_exact_witness :
  ∃ m' res d, mappages demo_tables 8192 4000 40960 5000 (Z.lor PTE_R PTE_U) = Done (m', res) ∧
    pt_wf m' 8192 ∧ bytes m' = bytes demo_tables ∧
    mapped demo_tables m' 8192 (4000 / 4096) d 40960 (Z.lor PTE_R PTE_U) ∧
    match res with
    | Ok _ => d = (4000 + 5000 - 1) / 4096 - 4000 / 4096 + 1 ∧
        ∀ a, 4000 / 4096 ≤ a / 4096 ≤ (4000 + 5000 - 1) / 4096 →
        walkaddr m' 8192 a = Done (if is_u (Z.lor PTE_R PTE_U) then Some (40960 + (a / 4096 - 4000 / 4096) * 4096) else None)
    | Err _ => 0 ≤ d ≤ (4000 + 5000 - 1) / 4096 - 4000 / 4096 ∧ avail m' = []
    end.
Proof.
  assert (Hun : unmapped demo_tables 8192 (4000 / 4096) ((4000 + 5000 - 1) / 4096 - 4000 / 4096 + 1)).
  { intros va _ _. unfold translate, trans. by rewrite demo_child. }
  refine (mappages_exact demo_tables 8192 4000 40960 5000 (Z.lor PTE_R PTE_U) demo_tables_wf _ _ _ _ _ _ _ Hun);
    [lia|lia|vm_compute; congruence|lia|reflexivity|lia|vm_compute; intuition congruence].
Defined.

(** C11. [unmap] on [n] pages from an aligned address, all mapped to leaves,
    never panics, removes the translation of exactly those pages, keeps the
    page tables a tree, and gives the allocator back the physical pages behind
    them, one each, when (and only when) [do_free] is set. *)
Theorem unmap_exact m root q (n : nat) do_free
  (Hok : pt_ok m root) (Hq : 0 ≤ q) (Hmax : (q + Z.of_nat n) * 4096 ≤ MAXVA)
  (Hleaf : ∀ i, 0 ≤ i < Z.of_nat n →
    ∃ pte, translate m root ((q + i) * 4096) = Some pte ∧ is_leaf pte = true) :
  ∃ m', unmap m root (q * 4096) (Z.of_nat n) do_free = Done m' ∧ pt_ok m' root ∧ bytes m' = bytes m ∧
    removed m m' root q n ∧
    avail m' = (if do_free then reverse (backing m root q n) else []) ++ avail m.
Proof.
  destruct (unmap_loop_spec n m root q do_free Hok Hq Hmax Hleaf) as (m' & Hrun & H).
  exists m'. split; [|done]. unfold unmap, is_aligned, PGSIZE. rewrite Z.mod_mul by lia. cbn [Z.eqb].
  change MAXVA with 274877906944 in Hmax. unfold checked_mul, checked_add.
  rewrite !decide_True by lia. cbn [mbind outcome_bind]. rewrite decide_True by lia.
  cbn [mbind outcome_bind]. by rewrite Nat2Z.id.
Qed.

(** Three tables that map page 0 to the page at 40960. *)
Definition one_entry (v : Z) : list Z := v :: replicate 511 0.
Definition demo_mapped : vmem :=
  mkMem {[ 8192 := one_entry (pte_set 12288 PTE_V); 12288 := one_entry (pte_set 16384 PTE_V);
           16384 := one_entry (pte_set 40960 (Z.lor (Z.lor PTE_R PTE_U) PTE_V)) ]} ∅ [].

Lemma one_entry_child m t v i c :
  tables m !! t = Some (one_entry v) → 0 ≤ i → child m t i = Some c → i = 0 ∧ c = to_pa v.
Proof.
  intros Ht Hi. unfold child, entry. rewrite Ht. destruct (Z.to_nat i) as [|k] eqn:E; cbn [one_entry lookup list_lookup].
  - destruct (is_v v); [|done]. intros [= <-]. split; [lia|done].
  - intros H. destruct (replicate 511 0 !! k) eqn:El; [|done]. by apply lookup_replicate in El as [-> _].
Qed.

Lemma demo_mapped_ok : pt_ok demo_mapped 8192.
Proof.
  exists {[ 12288 := 0 ]}, {[ 16384 := (12288, 0) ]}.
  assert (Hp : ∀ t v, tables demo_mapped !! t = Some (one_entry v) → is_page demo_mapped t)
    by (intros t v H; by exists (one_entry v)).
  split.
  - by eapply Hp.
  - intros i t Hi Hc. by destruct (one_entry_child demo_mapped 8192 (pte_set 12288 PTE_V) i t eq_refl ltac:(lia) Hc) as [-> ->].
  - intros t i H. apply lookup_singleton_Some in H as [<- <-]. split_and!; [by eapply Hp|done|done].
  - intros p j i t H Hi Hc. apply lookup_singleton_Some in H as [<- <-].
    by destruct (one_entry_child demo_mapped 12288 (pte_set 16384 PTE_V) i t eq_refl ltac:(lia) Hc) as [-> ->].
  - intros t x H. apply lookup_singleton_Some in H as [<- <-]. split; [by eapply Hp|done].
Qed.

Lemma unmap_exact_witness :
  ∃ m', unmap demo_mapped 8192 (0 * 4096) (Z.of_nat 1) true = Done m' ∧ pt_ok m' 8192 ∧
    bytes m' = bytes demo_mapped ∧ removed demo_mapped m' 8192 0 1 ∧
    avail m' = (if true then reverse (backing demo_mapped 8192 0 1) else []) ++ avail demo_mapped.
Proof.
  refine (unmap_exact demo_mapped 8192 0 1 true demo_mapped_ok _ _ _); [lia|vm_compute; congruence|].
  intros i Hi. assert (i = 0) as -> by lia. eexists. split; vm_compute; reflexivity.
Defined.

(** ** [Uvm::create] *)
Lemma zero_bytes_lookup n a b i : 0 ≤ i < n → zero_bytes n a b !! (a + i) = Some 0.
Proof.
  intros Hi. unfold zero_bytes. assert (Hin : i ∈ seqZ 0 n) by (apply elem_of_seqZ; lia).
  induction (seqZ 0 n) as [|j l IH]; [by apply elem_of_nil in Hin|]. cbn [foldr].
  destruct (decide (j = i)) as [->|Hne]; [by rewrite lookup_insert_eq|].
  rewrite lookup_insert_ne by lia. apply IH. apply elem_of_cons in Hin as [->|]; done.
Qed.

Lemma load_zeroed a b : load_word (zero_bytes SIZEOF_UVM a b) a = 0.
Proof.
  unfold load_word. rewrite (list_fmap_ext _ (λ _, 0)); [done|].
  intros k i Hk. apply lookup_seqZ in Hk as [-> Hk]. by rewrite zero_bytes_lookup by (unfold SIZEOF_UVM; lia).
Qed.

Lemma null_walk m va alloc : tables m !! 0 = None → 0 ≤ va < MAXVA → walk m 0 va alloc = Fault 0.
Proof.
  intros Hn Hva. unfold walk. rewrite decide_False by lia. unfold walk_level, get_pte. by rewrite Hn.
Qed.

Lemma null_mappages m va pa perm :
  tables m !! 0 = None → 0 ≤ va < MAXVA → mappages m 0 va pa PGSIZE perm = Fault 0.
Proof.
  intros Hn Hva. unfold mappages. rewrite decide_False by done.
  change MAXVA with 274877906944 in *. rewrite checked_add_ok by (unfold PGSIZE; lia).
  cbn [mbind outcome_bind]. rewrite !pgrounddown_div by (unfold PGSIZE; lia).
  rewrite Z2Nat.inj_add by (unfold PGSIZE; zdm). rewrite Nat.add_1_r. cbn [map_loop].
  rewrite null_walk; [done|done|]. change MAXVA with 274877906944. zdm.
Qed.

(** No process gets an address space.  [Uvm::create] returns a box of
    zeros, so the new address space has a null pointer where its top
    page-table page should be; [proc_uvmcreate] then dereferences address 0
    in its first [mappages], whenever the allocation of the box succeeds. *)
Theorem uvm_create_null m m' u va alloc trampoline trapframe
  (Hnew : uvm_create m = Some (m', u)) (Hnull : tables m !! 0 = None) (Hva : 0 ≤ va < MAXVA) :
  walk m' (load_word (bytes m') u) va alloc = Fault 0 ∧
  proc_uvmcreate trampoline m trapframe = Fault 0.
Proof.
  unfold proc_uvmcreate. rewrite Hnew. unfold uvm_create, new_uvm_box in Hnew.
  destruct (avail m) as [|a r]; [done|]. simplify_eq. cbn [bytes]. rewrite load_zeroed.
  split; [by apply null_walk|]. by rewrite null_mappages.
Qed.

Lemma uvm_create_null_witness :
  let m' := mkMem ∅ (zero_bytes SIZEOF_UVM 4096 ∅) [] in
  walk m' (load_word (bytes m') 4096) 0 true = Fault 0 ∧
  proc_uvmcreate 2147483648 (mkMem ∅ ∅ [4096]) 8192 = Fault 0.
Proof.
  refine (uvm_create_null (mkMem ∅ ∅ [4096]) (mkMem ∅ (zero_bytes SIZEOF_UVM 4096 ∅) []) 4096
    0 true 2147483648 8192 _ _ _); [reflexivity|reflexivity|vm_compute; intuition congruence].
Defined.
