(* ===== verification/KernelMap.v ===== *)
(** * The kernel's address space ([Kvm::make], [proc_mapstacks])

    [make] maps the devices, the kernel and the memory it manages one to one,
    the trampoline at the top and below it a stack for every process.  The
    theorem needs that [mappages] has the pages for its tables: their number
    is bounded by the chunks of two megabytes and of a gigabyte it enters. *)

From S2P Require Import Prelude Vm VmSpec.

Open Scope Z_scope.

(** ** The tables that a walk makes *)

(** The tables missing on the way to [va]. *)
Definition missing (m : vmem) (root va : Z) : Z :=
  match child m root (px va 2) with
  | None => 2
  | Some t1 => match child m t1 (px va 1) with None => 1 | Some _ => 0 end
  end.

Lemma walk_level_avail m p i m' r :
  walk_level m p i true = Done (m', r) →
  (m' = m ∧ (r = None ∨ child m p i = r)) ∨ (child m p i = None ∧ ∃ a, avail m = a :: avail m').
Proof.
  unfold walk_level, get_pte, child, entry. destruct (tables m !! p) as [es|]; [|done]. cbn [mbind outcome_bind].
  destruct (es !! Z.to_nat i) as [pte|]; [|intros [= <- <-]; auto].
  destruct (is_v pte); [intros [= <- <-]; auto|]. cbn [negb]. unfold new_table.
  destruct (avail m) as [|a l] eqn:Ha; [intros [= <- <-]; auto|]. intros [= <- <-]. right. split; [done|].
  exists a. by rewrite avail_set.
Qed.

Lemma walk_cost m root va m' r :
  walk m root va true = Done (m', r) →
  Z.of_nat (length (avail m)) ≤ Z.of_nat (length (avail m')) + missing m root va ∧ avail m' `suffix_of` avail m.
Proof.
  unfold walk, missing. case_decide; [done|]. intros (p1 & H1 & Hw)%bind_Done_inv. destruct p1 as [m1 r1].
  apply walk_level_avail in H1 as [[-> H1]|[Hc (a & Ha)]].
  - destruct r1 as [t1|]; [|injection Hw as <- <-; split; [destruct (child _ _ _); [destruct (child _ _ _)|]; lia|done]].
    destruct H1 as [?|H1]; [done|]. rewrite H1. cbn beta iota. apply bind_Done_inv in Hw as ([m2 r2] & H2 & Hw).
    assert (Hm : m' = m2).
    { destruct r2; [|by injection Hw as <- <-]. by apply bind_Done_inv in Hw as (o & _ & [= <- <-]). }
    subst m'. apply walk_level_avail in H2 as [[-> _]|[-> (a & Ha)]].
    + split; [destruct (child m t1 (px va 1)); lia|done].
    + rewrite Ha. cbn [length]. split; [lia|by exists [a]].
  - rewrite Hc.
    assert (Hm : m' = m1 ∨ ∃ b, avail m1 = b :: avail m').
    { destruct r1 as [t1|]; [|left; by injection Hw as <- <-].
      apply bind_Done_inv in Hw as ([m2 r2] & H2 & Hw).
      assert (Hm : m' = m2).
      { destruct r2; [|by injection Hw as <- <-]. by apply bind_Done_inv in Hw as (o & _ & [= <- <-]). }
      subst m'. apply walk_level_avail in H2 as [[-> _]|[_ Hb]]; [by left|by right]. }
    rewrite Ha. destruct Hm as [->|[b Hb]]; cbn [length].
    + split; [lia|by exists [a]].
    + rewrite Hb. cbn [length]. split; [lia|by exists [a; b]].
Qed.

(** The chunks that the pages after [q] up to [l] enter. *)
Definition chunks (q l : Z) : Z := (l / 512 - q / 512) + (l / 262144 - q / 262144).

Lemma chunks_nonneg q l : q ≤ l → 0 ≤ chunks q l.
Proof. intros H. unfold chunks. zdm. Qed.

Lemma cost_stop a b c q l : a ≤ b + c → q ≤ l → a ≤ b + c + chunks q l.
Proof. intros ? H%chunks_nonneg. lia. Qed.

Lemma px_page2 q : px (q * 4096) 2 = (q / 262144) `mod` 512.
Proof. rewrite px_div by lia. change (2 ^ (12 + 9 * 2)) with (4096 * 262144). rewrite <-Z.div_div, Z.div_mul by lia. done. Qed.
Lemma px_page1 q : px (q * 4096) 1 = (q / 512) `mod` 512.
Proof. rewrite px_div by lia. change (2 ^ (12 + 9 * 1)) with (4096 * 512). rewrite <-Z.div_div, Z.div_mul by lia. done. Qed.

Lemma missing_range m root va : 0 ≤ missing m root va ≤ 2.
Proof. unfold missing. destruct (child m root _) as [t|]; [destruct (child m t _)|]; lia. Qed.

Lemma missing_next m root q :
  0 ≤ q → translate m root (q * 4096) ≠ None → missing m root ((q + 1) * 4096) ≤ chunks q (q + 1).
Proof.
  intros Hq Ht. pose proof (missing_range m root ((q + 1) * 4096)) as Hr.
  unfold translate, trans in Ht. unfold missing, chunks in *. rewrite !px_page2, !px_page1 in *.
  destruct (decide ((q + 1) / 262144 = q / 262144)) as [E2|E2].
  - rewrite E2. destruct (child m root _) as [t1|]; [|done].
    destruct (decide ((q + 1) / 512 = q / 512)) as [E1|E1].
    + rewrite E1. destruct (child m t1 _); [lia|done].
    + destruct (child m t1 (((q + 1) / 512) `mod` 512)); zdm.
  - assert (2 ≤ (q + 1) / 512 - q / 512 + ((q + 1) / 262144 - q / 262144)) by zdm.
    lia.
Qed.

(** The loop of [mappages] from page [q] on, with [c] tables missing there. *)
Lemma map_loop_cost n m root q pa perm c m' res :
  pt_wf m root → 0 ≤ q → (q + Z.of_nat n) * 4096 < MAXVA → pa + Z.of_nat n * 4096 < usize_mod →
  unmapped m root q (Z.of_nat n + 1) → missing m root (q * 4096) ≤ c →
  map_loop (S n) m root (q * 4096) ((q + Z.of_nat n) * 4096) pa perm = Done (m', res) →
  Z.of_nat (length (avail m)) ≤ Z.of_nat (length (avail m')) + c + chunks q (q + Z.of_nat n) ∧
  avail m' `suffix_of` avail m.
Proof.
  revert m q pa c. induction n as [|n IH]; intros m q pa c Hwf Hq Hmax Hpa Hun Hc Hrun.
  all: destruct (map_round m root q pa perm Hwf) as (m1 & r & Hw & Hr); [lia|intros va ??; apply Hun; lia|].
  all: pose proof (walk_cost _ _ _ _ _ Hw) as [Hcost Hsuf]; cbn [map_loop] in Hrun; rewrite Hw in Hrun; cbn [mbind outcome_bind] in Hrun.
  all: destruct r as [pl|]; [|injection Hrun as <- <-; split; [apply cost_stop; lia|done]].
  all: destruct Hr as (pte & Hrd & Hnv & Hwf2 & _ & Hm2); rewrite Hrd in Hrun; cbn [mbind outcome_bind] in Hrun; rewrite Hnv in Hrun; cbn zeta in Hrun.
  { rewrite decide_True in Hrun by lia. injection Hrun as <- <-. rewrite avail_set. split; [apply cost_stop; lia|done]. }
  rewrite decide_False in Hrun by lia. unfold checked_add in Hrun. change MAXVA with 274877906944 in Hmax.
  unfold PGSIZE in Hrun. rewrite !decide_True in Hrun by lia. cbn [mbind outcome_bind] in Hrun.
  set (m2 := set_pte m1 pl.1 pl.2 _) in *.
  replace (q * 4096 + 4096) with ((q + 1) * 4096) in Hrun by lia.
  replace ((q + Z.of_nat (S n)) * 4096) with ((q + 1 + Z.of_nat n) * 4096) in Hrun by lia.
  destruct (IH m2 (q + 1) (pa + 4096) (chunks q (q + 1)) Hwf2 ltac:(lia) ltac:(change MAXVA with 274877906944; lia) ltac:(lia)) as [Hrest Hsuf2];
    [| |exact Hrun|].
  - intros va Hva Hr. rewrite Hm2 by done. rewrite decide_False by lia. apply Hun; lia.
  - apply missing_next; [lia|]. rewrite Hm2 by (change MAXVA with 274877906944; lia). rewrite Z.div_mul by lia. by rewrite decide_True by lia.
  - unfold m2 in Hrest, Hsuf2. rewrite avail_set in Hrest, Hsuf2. split; [|by etransitivity].
    assert (chunks q (q + Z.of_nat (S n)) = chunks q (q + 1) + chunks (q + 1) (q + 1 + Z.of_nat n)).
    { unfold chunks. replace (q + Z.of_nat (S n)) with (q + 1 + Z.of_nat n) by lia. lia. }
    lia.
Qed.

(** ** Regions *)
Record region := mkRegion { r_va : Z; r_pa : Z; r_size : Z; r_perm : Z }.
Definition first (r : region) : Z := r_va r / 4096.
Definition last (r : region) : Z := (r_va r + r_size r - 1) / 4096.
Definition cost (r : region) : Z := 2 + chunks (first r) (last r).

Record region_ok (r : region) : Prop := {
  ok_va : 0 ≤ r_va r;
  ok_size : 0 < r_size r;
  ok_max : r_va r + r_size r ≤ MAXVA;
  ok_pa : 0 ≤ r_pa r;
  ok_aligned : r_pa r `mod` PGSIZE = 0;
  ok_phys : r_pa r + r_size r + 8192 ≤ usize_mod;
  ok_perm : 0 ≤ r_perm r < 1024;
}.

(** The entry that the regions give the address [a]. *)
Definition region_pte (r : region) (a : Z) : Z :=
  pte_set (r_pa r + (a / 4096 - first r) * 4096) (Z.lor (r_perm r) PTE_V).
Fixpoint region_at (l : list region) (a : Z) : option Z :=
  match l with
  | [] => None
  | r :: l => if decide (first r ≤ a / 4096 ≤ last r) then Some (region_pte r a) else region_at l a
  end.

Definition apart (r r' : region) : Prop := last r < first r' ∨ last r' < first r.

Lemma kvm_map_ok m root r :
  pt_wf m root → region_ok r → unmapped m root (first r) (last r - first r + 1) →
  cost r < Z.of_nat (length (avail m)) →
  ∃ m', kvm_map m root (r_va r) (r_pa r) (r_size r) (r_perm r) = Done m' ∧ pt_wf m' root ∧
    Z.of_nat (length (avail m)) ≤ Z.of_nat (length (avail m')) + cost r ∧ avail m' `suffix_of` avail m ∧
    ∀ a, 0 ≤ a < MAXVA → translate m' root a = if decide (first r ≤ a / 4096 ≤ last r) then Some (region_pte r a) else translate m root a.
Proof.
  intros Hwf [Hva Hsz Hmx Hpa Hal Hph Hpe] Hun Hc.
  destruct (mappages_loop m root _ (r_pa r) _ (r_perm r) Hva Hsz Hmx) as (Hn & Hq & Hloop).
  fold (first r) (last r) in Hn, Hq, Hloop. set (n := Z.to_nat (last r - first r)) in *.
  assert (HM : MAXVA = 274877906944) by done. unfold PGSIZE in *.
  assert (Hlast : last r * 4096 ≤ r_va r + r_size r - 1 ∧ (last r - first r) * 4096 ≤ r_size r + 4095) by (unfold last, first; zdm).
  assert (Hun' : unmapped m root (first r) (Z.of_nat n + 1)) by (by rewrite Hn).
  destruct (map_loop_spec n m root (first r) (r_pa r) (r_perm r)) as (m' & res & d & Hrun & Hwf' & _ & Hm & Hd & Hres);
    [done|lia|lia|lia|done|].
  destruct (map_loop_cost n m root (first r) (r_pa r) (r_perm r) 2 m' res) as [Hcost Hsuf]; try done; [lia|lia|lia|apply missing_range|].
  replace (first r + Z.of_nat n) with (last r) in Hcost by lia. unfold cost in *.
  destruct res as [[]|[]].
  - exists m'. split_and!; [unfold kvm_map; by rewrite Hloop, Hrun|done|lia|done|]. intros a Ha.
    rewrite Hm by done. subst d. destruct (decide (first r ≤ a / 4096 ≤ last r)); [rewrite decide_True by lia|rewrite decide_False by lia]; done.
  - destruct Hres as [_ Hav]. rewrite Hav in Hcost. cbn [length] in Hcost. lia.
Qed.

Fixpoint maps (l : list region) (m : vmem) (root : Z) : outcome vmem :=
  match l with
  | [] => Done m
  | r :: l => m1 ← kvm_map m root (r_va r) (r_pa r) (r_size r) (r_perm r); maps l m1 root
  end.
Fixpoint total (l : list region) : Z := match l with [] => 0 | r :: l => cost r + total l end.

Definition region_len (r : region) : Z := last r - first r + 1.

Lemma unmapped_after m m' root r r' :
  (∀ a, 0 ≤ a < MAXVA → translate m' root a = if decide (first r ≤ a / 4096 ≤ last r) then Some (region_pte r a) else translate m root a) →
  apart r r' → unmapped m root (first r') (region_len r') → unmapped m' root (first r') (region_len r').
Proof.
  intros Ht Hap Hun a Ha Hin. rewrite Ht by done. unfold region_len in *. destruct Hap; rewrite decide_False by lia; by apply Hun.
Qed.

Lemma total_nonneg l : Forall region_ok l → 0 ≤ total l.
Proof.
  induction 1 as [|r l Hr _ IH]; cbn [total]; [done|]. unfold cost.
  assert (first r ≤ last r) by (destruct Hr; unfold first, last; zdm). pose proof (chunks_nonneg (first r) (last r)). lia.
Qed.

Lemma maps_ok l m root :
  pt_wf m root → Forall region_ok l → ForallOrdPairs apart l →
  Forall (λ r, unmapped m root (first r) (region_len r)) l → total l < Z.of_nat (length (avail m)) →
  ∃ m', maps l m root = Done m' ∧ pt_wf m' root ∧
    Z.of_nat (length (avail m)) ≤ Z.of_nat (length (avail m')) + total l ∧ avail m' `suffix_of` avail m ∧
    ∀ a, 0 ≤ a < MAXVA → translate m' root a = match region_at l a with Some p => Some p | None => translate m root a end.
Proof.
  revert m. induction l as [|r l IH]; intros m Hwf Hok Hap Hun Hc; cbn [maps total region_at] in *.
  - exists m. split_and!; [done|done|lia|done|done].
  - apply Forall_cons in Hok as [Hr Hok], Hun as [Hur Hun]. inversion Hap as [|?? Hapr Hapl]; subst.
    pose proof (total_nonneg l Hok) as Hnn.
    destruct (kvm_map_ok m root r Hwf Hr Hur ltac:(lia)) as (m1 & -> & Hwf1 & Hc1 & Hs1 & Ht1). cbn [mbind outcome_bind].
    destruct (IH m1 Hwf1 Hok Hapl) as (m' & -> & Hwf' & Hc' & Hs' & Ht').
    { rewrite Forall_forall in *. intros r' Hr'. eapply unmapped_after; [exact Ht1|by apply Hapr|by apply Hun]. }
    { lia. }
    exists m'. split_and!; [done|done|lia|by etransitivity|]. intros a Ha. rewrite Ht', Ht1 by done.
    destruct (decide (first r ≤ a / 4096 ≤ last r)) as [Hin|]; [|done].
    destruct (region_at l a) as [p|] eqn:E; [|done]. exfalso. clear -E Hin Hapr.
    induction l as [|r' l IHl]; [done|]. apply Forall_cons in Hapr as [Ha' Hl]. cbn [region_at] in E.
    case_decide; [unfold apart in Ha'; lia|]. by apply IHl.
Qed.

(** ** The stacks *)
Definition stack_region (p pa : Z) : region := mkRegion (kstack p) pa PGSIZE (Z.lor PTE_R PTE_W).
Fixpoint stack_regions (p : Z) (pas : list Z) : list region :=
  match pas with [] => [] | pa :: pas => stack_region p pa :: stack_regions (p + 1) pas end.

(** The page number of the stack of process [p]. *)
Definition stack_page (p : Z) : Z := 67108863 - (p + 1) * 5.

Lemma stack_pages p pa : first (stack_region p pa) = stack_page p ∧ last (stack_region p pa) = stack_page p.
Proof.
  unfold first, last, stack_region, stack_page. cbn [r_va r_size]. unfold kstack, PGSIZE.
  change TRAMPOLINE with (67108863 * 4096). zdm.
Qed.

Lemma stack_cost p pa : cost (stack_region p pa) = 2.
Proof. unfold cost. destruct (stack_pages p pa) as [-> ->]. unfold chunks. lia. Qed.

Lemma stack_at p pas a : a / 4096 > stack_page p → region_at (stack_regions p pas) a = None.
Proof.
  revert p. induction pas as [|pa pas IH]; intros p Ha; cbn [stack_regions region_at]; [done|].
  destruct (stack_pages p pa) as [-> ->]. rewrite decide_False by lia. apply IH. unfold stack_page in *. lia.
Qed.

(** Taking a page for a stack. *)
Lemma pt_wf_take m root pa r b :
  pt_wf m root → avail m = pa :: r → pt_wf (mkMem (tables m) b r) root ∧ (pa ∉ r) ∧ 0 ≤ pa ∧ pa `mod` PGSIZE = 0.
Proof.
  intros [(g1 & g0 & Ht) [Hnd Hfr]] Hav. rewrite Hav in *. apply NoDup_cons in Hnd as [Hni Hnd].
  destruct (Hfr pa (list_elem_of_here _ _)) as (_ & Hpa & Hal). split_and!; [|done|lia|done]. split.
  - exists g1, g0. destruct Ht as [H1 H2 H3 H4 H5]. by split.
  - split; [done|]. intros a Ha. apply (Hfr a). by apply list_elem_of_further.
Qed.

Lemma mapstacks_ok n p m root :
  pt_wf m root → 0 ≤ p → p + Z.of_nat n ≤ 1000 → (∀ a, a ∈ avail m → a < 2 ^ 63) →
  (∀ i, p ≤ i < p + Z.of_nat n → unmapped m root (stack_page i) 1) →
  3 * Z.of_nat n < Z.of_nat (length (avail m)) →
  ∃ m' pas, proc_mapstacks n p m root = Done m' ∧ pt_wf m' root ∧ length pas = n ∧ NoDup pas ∧ pas ⊆ avail m ∧
    ∀ a, 0 ≤ a < MAXVA → translate m' root a =
      match region_at (stack_regions p pas) a with Some e => Some e | None => translate m root a end.
Proof.
  revert p m. induction n as [|n IH]; intros p m Hwf Hp Hn Hb Hun Hc; cbn [proc_mapstacks].
  - exists m, []. split_and!; [done|done|done|constructor|set_solver|done].
  - destruct (avail m) as [|pa r] eqn:Hav; [cbn [length] in Hc; lia|]. cbn [length] in Hc.
    set (m1 := mkMem (tables m) (zero_bytes (4 * 4096) pa (bytes m)) r).
    destruct (pt_wf_take m root pa r (zero_bytes (4 * 4096) pa (bytes m)) Hwf Hav) as (Hwf1 & Hni & Hpa & Hal).
    fold m1 in Hwf1. assert (Htr : ∀ a, translate m1 root a = translate m root a) by done.
    assert (HM : MAXVA = 274877906944) by done.
    assert (Hok : region_ok (stack_region p pa)).
    { pose proof (Hb pa (list_elem_of_here _ _)). split; cbn; unfold kstack, PGSIZE in *; try done;
        change TRAMPOLINE with 274877902848; lia. }
    destruct (kvm_map_ok m1 root (stack_region p pa) Hwf1 Hok) as (m2 & Hm2 & Hwf2 & Hc2 & Hs2 & Ht2).
    { destruct (stack_pages p pa) as [-> ->]. replace (stack_page p - stack_page p + 1) with 1 by lia. apply (Hun p). lia. }
    { rewrite stack_cost. cbn [m1 avail]. lia. }
    cbn [r_va r_pa r_size r_perm stack_region] in Hm2. rewrite Hm2. cbn [mbind outcome_bind].
    rewrite stack_cost in Hc2. cbn [m1 avail] in Hc2, Hs2. destruct (stack_pages p pa) as [Ef El]. rewrite Ef, El in Ht2.
    assert (Hsub : ∀ x, x ∈ avail m2 → x ∈ r).
    { intros x Hx. destruct Hs2 as [k ->]. apply elem_of_app. by right. }
    destruct (IH (p + 1) m2 Hwf2 ltac:(lia) ltac:(lia)) as (m' & pas & -> & Hwf' & Hl & Hnd & Hin & Ht').
    { intros x Hx. apply Hb. by apply list_elem_of_further, Hsub. }
    { intros i Hi a Ha Hpg. rewrite Ht2 by done. unfold stack_page in *. rewrite decide_False by lia. rewrite Htr.
      apply (Hun i); [lia|done|lia]. }
    { lia. }
    exists m', (pa :: pas). split_and!; [done|done|by cbn; rewrite Hl| | |].
    + apply NoDup_cons. split; [|done]. intros Hx. by apply Hni, Hsub, Hin.
    + intros x [->|Hx]%elem_of_cons; [apply list_elem_of_here|by apply list_elem_of_further, Hsub, Hin].
    + intros a Ha. rewrite Ht', Ht2 by done. cbn [stack_regions region_at]. rewrite Ef, El, Htr.
      destruct (decide (stack_page p ≤ a / 4096 ≤ stack_page p)) as [Hd|]; [|done].
      rewrite stack_at; [done|]. unfold stack_page in *. lia.
Qed.

(** ** [make] *)
Section make.
Variables etext trampoline : Z.
Hypothesis Hetext : KERNBASE < etext < PHYSTOP ∧ etext `mod` PGSIZE = 0.
Hypothesis Htramp : 0 ≤ trampoline < PHYSTOP ∧ trampoline `mod` PGSIZE = 0.

Definition kernel_regions : list region :=
  [ mkRegion UART0 UART0 PGSIZE (Z.lor PTE_R PTE_W);
    mkRegion VIRTIO0 VIRTIO0 PGSIZE (Z.lor PTE_R PTE_W);
    mkRegion PLIC PLIC 4194304 (Z.lor PTE_R PTE_W);
    mkRegion KERNBASE KERNBASE (etext - KERNBASE) (Z.lor PTE_R PTE_X);
    mkRegion etext etext (PHYSTOP - etext) (Z.lor PTE_R PTE_W);
    mkRegion TRAMPOLINE trampoline PGSIZE (Z.lor PTE_R PTE_X) ].

Ltac kconst := change UART0 with 268435456 in *; change VIRTIO0 with 268439552 in *; change PLIC with 201326592 in *;
  change KERNBASE with 2147483648 in *; change PHYSTOP with 2281701376 in *; change TRAMPOLINE with 274877902848 in *;
  change MAXVA with 274877906944 in *; change PGSIZE with 4096 in *;
  change (Z.lor PTE_R PTE_W) with 6 in *; change (Z.lor PTE_R PTE_X) with 10 in *.

Lemma kernel_regions_ok : Forall region_ok kernel_regions.
Proof.
  destruct Hetext as [H1 H2], Htramp as [H3 H4]. unfold kernel_regions. kconst.
  repeat (apply Forall_cons; split; [split; cbn [r_va r_pa r_size r_perm]; kconst; zdm|]). by apply Forall_nil.
Qed.

Lemma kernel_regions_apart : ForallOrdPairs apart kernel_regions.
Proof.
  destruct Hetext as [H1 H2]. unfold kernel_regions. repeat apply FOP_cons; [..|apply FOP_nil].
  all: repeat (apply Forall_cons; split; [unfold apart, first, last; cbn [r_va r_size]; kconst; zdm|]); by apply Forall_nil.
Qed.

Lemma kernel_regions_total : total kernel_regions ≤ 150.
Proof.
  destruct Hetext as [H1 H2]. unfold kernel_regions, total, cost, chunks, first, last. cbn [r_va r_size]. kconst. zdm.
Qed.

Lemma make_maps m root :
  make etext trampoline m root = (m1 ← maps kernel_regions m root; proc_mapstacks NPROC 0 m1 root).
Proof.
  destruct Hetext as [H1 _]. unfold make, kernel_regions. cbn [maps r_va r_pa r_size r_perm].
  rewrite !checked_sub_ok by lia. cbn [mbind outcome_bind].
  repeat match goal with |- mbind _ (kvm_map ?m ?r ?a ?b ?c ?d) = _ => destruct (kvm_map m r a b c d); cbn [mbind outcome_bind]; [|done..] end.
  all: repeat match goal with |- outcome_bind _ _ _ (kvm_map ?m ?r ?a ?b ?c ?d) = _ => destruct (kvm_map m r a b c d); cbn [mbind outcome_bind]; [|done..] end.
  done.
Qed.

(** No region of the kernel is at the pages of the stacks. *)
Lemma kernel_regions_low a p : 0 ≤ p < 64 → a / 4096 = stack_page p → region_at kernel_regions a = None.
Proof.
  intros Hp Ha. destruct Hetext as [H1 H2]. unfold kernel_regions, stack_page in *. cbn [region_at].
  unfold first, last. cbn [r_va r_size]. kconst. rewrite Ha. rewrite !decide_False by zdm. done.
Qed.

Lemma make_ok m root :
  pt_wf m root → (∀ a, 0 ≤ a < MAXVA → translate m root a = None) → (∀ a, a ∈ avail m → a < 2 ^ 63) →
  400 ≤ Z.of_nat (length (avail m)) →
  ∃ m' pas, make etext trampoline m root = Done m' ∧ pt_wf m' root ∧ length pas = NPROC ∧ NoDup pas ∧ pas ⊆ avail m ∧
    ∀ a, 0 ≤ a < MAXVA → translate m' root a = region_at (kernel_regions ++ stack_regions 0 pas) a.
Proof.
  intros Hwf Hempty Hav Hc. pose proof kernel_regions_total as Ht. rewrite make_maps.
  destruct (maps_ok kernel_regions m root Hwf kernel_regions_ok kernel_regions_apart) as (m1 & -> & Hwf1 & Hc1 & Hs1 & Ht1).
  { apply Forall_forall. intros r _ a Ha _. by apply Hempty. }
  { lia. }
  cbn [mbind outcome_bind].
  assert (Hsub : ∀ x, x ∈ avail m1 → x ∈ avail m).
  { intros x Hx. destruct Hs1 as [k ->]. apply elem_of_app. by right. }
  destruct (mapstacks_ok NPROC 0 m1 root Hwf1) as (m' & pas & -> & Hwf' & Hl & Hnd & Hin & Ht'); [lia|by vm_compute|by auto| | |].
  { intros i Hi a Ha Hpg. rewrite Ht1 by done. rewrite (kernel_regions_low a i); [by apply Hempty| |lia].
    change (Z.of_nat NPROC) with 64 in Hi. lia. }
  { change (Z.of_nat NPROC) with 64. lia. }
  exists m', pas. split_and!; [done|done|done|done|intros x Hx; by apply Hsub, Hin|].
  intros a Ha. rewrite Ht', Ht1, Hempty by done.
  assert (Happ : ∀ l k, region_at (l ++ k) a = match region_at l a with Some e => Some e | None => region_at k a end).
  { intros l k. induction l as [|r l IH]; cbn; [done|]. by case_decide. }
  rewrite Happ. destruct (region_at kernel_regions a) as [e|] eqn:E; [|by destruct (region_at (stack_regions 0 pas) a)].
  destruct (region_at (stack_regions 0 pas) a) as [e'|] eqn:E'; [|done]. exfalso.
  assert (Hst : ∀ l p, 0 ≤ p → p + Z.of_nat (length l) ≤ 64 → is_Some (region_at (stack_regions p l) a) →
            ∃ i, 0 ≤ i < 64 ∧ a / 4096 = stack_page i).
  { induction l as [|pa l IH]; intros p Hp Hp2 Hs; cbn [stack_regions region_at length] in *; [by destruct Hs|].
    destruct (stack_pages p pa) as [Ef El]. rewrite Ef, El in Hs. case_decide; [exists p; lia|]. apply (IH (p + 1)); [lia|lia|done]. }
  destruct (Hst pas 0) as (i & Hi & Hpg); [lia|rewrite Hl; by vm_compute|by eexists|].
  rewrite (kernel_regions_low a i Hi Hpg) in E. done.
Qed.
End make.

(** A new table translates nothing. *)
Lemma new_table_wf m m1 root :
  pt_free m → new_table m = Some (m1, root) → pt_wf m1 root ∧ (∀ a, translate m1 root a = None) ∧ avail m = root :: avail m1.
Proof.
  intros [Hnd Hfr] Hn. unfold new_table in Hn. destruct (avail m) as [|a r] eqn:Hav; [done|]. injection Hn as <- <-.
  apply NoDup_cons in Hnd as [Hni Hnd].
  assert (Hch : ∀ i, child (mkMem (<[a := replicate 512 0]> (tables m)) (bytes m) r) a i = None).
  { intros i. unfold child, entry. cbn [tables]. rewrite lookup_insert_eq.
    destruct (replicate 512 0 !! Z.to_nat i) as [x|] eqn:E; [|done]. by apply lookup_replicate in E as [-> _]. }
  split_and!; [split| |done].
  - exists ∅, ∅. split; try done.
    + exists (replicate 512 0). cbn [tables]. by rewrite lookup_insert_eq.
    + intros i t _. by rewrite Hch.
  - split; [done|]. intros x Hx. destruct (Hfr x (list_elem_of_further _ _ _ Hx)) as (Ht & H1 & H2).
    split_and!; [|lia|lia|done]. cbn [tables]. rewrite lookup_insert_ne; [done|]. by intros ->.
  - intros x. unfold translate, trans. by rewrite Hch.
Qed.

(** C12. The kernel's address space.  With 401 free pages [kinit] returns: the
    new page table is well formed and translates the devices, the text of the
    kernel (readable and executable), its data with all the memory it manages
    (readable and writable) each to itself, the top page to the trampoline and
    64 pages below it, apart by guard pages, to 64 different pages for the
    stacks; no other address translates. *)
Theorem kernel_address_space etext trampoline m
    (Hetext : KERNBASE < etext < PHYSTOP ∧ etext `mod` PGSIZE = 0)
    (Htramp : 0 ≤ trampoline < PHYSTOP ∧ trampoline `mod` PGSIZE = 0)
    (Hfree : pt_free m) (Hav : ∀ a, a ∈ avail m → a < 2 ^ 63) (Hmem : 401 ≤ Z.of_nat (length (avail m))) :
  ∃ m' root pas, kinit etext trampoline m = Done (m', root) ∧ pt_wf m' root ∧
    length pas = NPROC ∧ NoDup pas ∧ pas ⊆ avail m ∧ (root ∉ pas) ∧
    ∀ a, 0 ≤ a < MAXVA → translate m' root a = region_at (kernel_regions etext trampoline ++ stack_regions 0 pas) a.
Proof.
  unfold kinit. destruct (new_table m) as [[m1 root]|] eqn:Hn.
  2: { unfold new_table in Hn. destruct (avail m); [cbn [length] in Hmem; lia|done]. }
  destruct (new_table_wf m m1 root Hfree Hn) as (Hwf & Hempty & Hav1). rewrite Hav1 in Hmem, Hav |- *. cbn [length] in Hmem.
  destruct (make_ok etext trampoline Hetext Htramp m1 root Hwf) as (m' & pas & -> & Hwf' & Hl & Hnd & Hin & Ht); [done| |lia|].
  { intros a Ha. apply Hav. by apply list_elem_of_further. }
  cbn [mbind outcome_bind]. exists m', root, pas. split_and!; [done|done|done|done| | |done].
  - intros x Hx. apply list_elem_of_further. by apply Hin.
  - intros Hx. destruct Hfree as [Hnd' _]. rewrite Hav1 in Hnd'. apply NoDup_cons in Hnd' as [Hni _]. by apply Hni, Hin.
Qed.

(** 401 free blocks, each large enough for a stack, above the image of the
    kernel. *)
Definition boot_pages : list Z := (λ i, 2148532224 + i * 16384) <$> seqZ 0 401.

Lemma kernel_address_space_witness :
  ∃ m' root pas, kinit 2147516416 2147491840 (mkMem ∅ ∅ boot_pages) = Done (m', root) ∧ length pas = NPROC ∧
    ∀ a, 0 ≤ a < MAXVA →
      translate m' root a = region_at (kernel_regions 2147516416 2147491840 ++ stack_regions 0 pas) a.
Proof.
  destruct (kernel_address_space 2147516416 2147491840 (mkMem ∅ ∅ boot_pages)) as (m' & root & pas & Hk & _ & Hl & _ & _ & _ & Ht).
  - split; [split|]; by vm_compute.
  - split; [split|]; by vm_compute.
  - split; [apply (bool_decide_unpack _); by vm_compute|]. cbn [avail tables]. unfold boot_pages. intros x Hx.
    apply list_elem_of_fmap in Hx as (i & -> & Hi). apply elem_of_seqZ in Hi. split_and!; [apply lookup_empty|zdm|zdm|change PGSIZE with 4096; zdm].
  - cbn [avail]. unfold boot_pages. intros x Hx. apply list_elem_of_fmap in Hx as (i & -> & Hi). apply elem_of_seqZ in Hi. lia.
  - by vm_compute.
  - exists m', root, pas. by split_and!.
Defined.
