(* ===== verification/Addr.v ===== *)
(** * Addresses ([vm.rs]): [PAddr], [KVAddr], [UVAddr], [VirtAddr]

    The traits [Addr] and [VAddr] are classes: a wrapper around a [usize] with
    the default methods on top.  The macros [impl_addr] and [impl_vaddr] are
    the definitions over the class and the instances below.  Sums and
    differences overflow as in a debug build, with a panic. *)

From S2P Require Import Prelude Vm VmSpec.

Open Scope Z_scope.

Class Addr (A : Type) := { from_usize : Z → A; get : A → Z }.

(** What the wrappers promise: they hold the word and nothing else. *)
Class AddrLaws (A : Type) `{Addr A} := {
  get_from z : get (A := A) (from_usize z) = z;
  from_get a : from_usize (get a) = a;
}.

Record PAddr := mkPAddr { paddr : Z }.
Record KVAddr := mkKVAddr { kvaddr : Z }.
Record UVAddr := mkUVAddr { uvaddr : Z }.

#[export] Instance PAddr_Addr : Addr PAddr := {| from_usize := mkPAddr; get := paddr |}.
#[export] Instance KVAddr_Addr : Addr KVAddr := {| from_usize := mkKVAddr; get := kvaddr |}.
#[export] Instance UVAddr_Addr : Addr UVAddr := {| from_usize := mkUVAddr; get := uvaddr |}.
#[export] Instance PAddr_laws : AddrLaws PAddr.
Proof. split; [done|by intros []]. Qed.
#[export] Instance KVAddr_laws : AddrLaws KVAddr.
Proof. split; [done|by intros []]. Qed.
#[export] Instance UVAddr_laws : AddrLaws UVAddr.
Proof. split; [done|by intros []]. Qed.

Section ops.
Context {A : Type} `{Addr A}.
Implicit Types a b : A.

(** [get_mut] and a store through it. *)
Definition store (a : A) (z : Z) : A := from_usize z.
Definition into_usize (a : A) : Z := get a.

Definition add (a : A) (rhs : Z) : outcome A := s ← checked_add (get a) rhs; Done (from_usize s).
Definition add_assign (a : A) (rhs : Z) : outcome A := s ← checked_add (get a) rhs; Done (store a s).
Definition sub (a : A) (rhs : Z) : outcome A := s ← checked_sub (get a) rhs; Done (from_usize s).
Definition sub_assign (a : A) (rhs : Z) : outcome A := s ← checked_sub (get a) rhs; Done (store a s).
Definition distance (a b : A) : outcome Z := checked_sub (get a) (get b).

Definition addr_is_aligned (a : A) : bool := get a `mod` PGSIZE =? 0.
Definition roundup (a : A) : outcome A :=
  s ← checked_add (get a) PGSIZE;
  Done (store a (Z.land (s - 1) (usize_not (PGSIZE - 1)))).
Definition rounddown (a : A) : A := store a (Z.land (get a) (usize_not (PGSIZE - 1))).

(** [VAddr::px]; a shift by 64 or more panics. *)
Definition vaddr_px (a : A) (level : Z) : outcome Z :=
  if decide (PGSHIFT + 9 * level < 64) then Done (px (get a) level)
  else Panic "attempt to shift right with overflow".
End ops.

(** [VirtAddr] and its conversions *)
Definition from_uv (a : UVAddr) : VirtAddr := User (uvaddr a).
Definition from_kv (a : KVAddr) : VirtAddr := Kernel (kvaddr a).
Definition from_p (a : PAddr) : VirtAddr := Physical (paddr a).
Definition virt_add (v : VirtAddr) (rhs : Z) : outcome VirtAddr :=
  match v with
  | Kernel a => s ← checked_add a rhs; Done (Kernel s)
  | User a => s ← checked_add a rhs; Done (User s)
  | Physical a => s ← checked_add a rhs; Done (Physical s)
  end.

(** ** The arithmetic is that of the integers *)
Inductive addr_op := OpAdd (n : Z) | OpAddAssign (n : Z) | OpSub (n : Z) | OpSubAssign (n : Z) | OpRoundup | OpRounddown.

Section spec.
Context {A : Type} `{AddrLaws A}.
Implicit Types a b : A.

Definition addr_apply (a : A) (o : addr_op) : outcome A :=
  match o with
  | OpAdd n => add a n
  | OpAddAssign n => add_assign a n
  | OpSub n => sub a n
  | OpSubAssign n => sub_assign a n
  | OpRoundup => roundup a
  | OpRounddown => Done (rounddown a)
  end.
Fixpoint addr_run (a : A) (l : list addr_op) : outcome A :=
  match l with [] => Done a | o :: l => b ← addr_apply a o; addr_run b l end.

Lemma rounddown_div a : 0 ≤ get a < usize_mod → get (rounddown a) = get a / 4096 * 4096.
Proof. intros Ha. unfold rounddown, store. rewrite get_from. by apply pgrounddown_div. Qed.

Lemma roundup_div a :
  0 ≤ get a → get a + 4096 < usize_mod →
  ∃ b, roundup a = Done b ∧ get b = (get a + 4095) / 4096 * 4096.
Proof.
  intros Hlo Hhi. unfold roundup. rewrite (checked_add_ok (get a) PGSIZE) by done. cbn [mbind outcome_bind].
  eexists. split; [done|]. unfold store. rewrite get_from.
  fold (pgrounddown (get a + PGSIZE - 1)). rewrite pgrounddown_div by (unfold PGSIZE; lia). unfold PGSIZE.
  by replace (get a + 4096 - 1) with (get a + 4095) by lia.
Qed.
End spec.

(** The integer an operation stands for, and whether it is a [usize]. *)
Definition exact (z : Z) (o : addr_op) : Z :=
  match o with
  | OpAdd n | OpAddAssign n => z + n
  | OpSub n | OpSubAssign n => z - n
  | OpRoundup => (z + 4095) / 4096 * 4096
  | OpRounddown => z / 4096 * 4096
  end.
Definition representable (z : Z) (o : addr_op) : bool := bool_decide (0 ≤ exact z o < usize_mod).

(** [roundup] adds [PGSIZE] before it subtracts one, and overflows on the last
    page boundary, although that address is already rounded. *)
Definition last_page : Z := usize_mod - 4096.
Definition overflows (z : Z) (o : addr_op) : bool :=
  match o with OpRoundup => bool_decide (z = last_page) | _ => false end.

Fixpoint exact_run (z : Z) (l : list addr_op) : option Z :=
  match l with
  | [] => Some z
  | o :: l => if representable z o && negb (overflows z o) then exact_run (exact z o) l else None
  end.
Definition operand_ok (o : addr_op) : Prop :=
  match o with OpAdd n | OpAddAssign n | OpSub n | OpSubAssign n => 0 ≤ n < usize_mod | _ => True end.

Section exactness.
Context {A : Type} `{AddrLaws A}.
Implicit Types a b : A.

Definition panics (r : outcome A) : Prop := ∃ msg, r = Panic msg.

Lemma addr_apply_exact a o :
  0 ≤ get a < usize_mod → operand_ok o →
  if representable (get a) o && negb (overflows (get a) o)
  then ∃ b, addr_apply a o = Done b ∧ get b = exact (get a) o ∧ 0 ≤ get b < usize_mod
  else panics (addr_apply a o).
Proof.
  intros Ha Ho. unfold representable. destruct o as [n|n|n|n| |]; cbn [overflows addr_apply exact operand_ok negb] in *;
    rewrite ?andb_true_r.
  1,2: case_bool_decide as Hr; unfold add, add_assign, store;
    [rewrite checked_add_ok by lia; cbn [mbind outcome_bind]; eexists; rewrite get_from; split_and!; [done|done|lia|lia]
    |unfold checked_add; rewrite decide_False by lia; by eexists].
  1,2: case_bool_decide as Hr; unfold sub, sub_assign, store;
    [rewrite checked_sub_ok by lia; cbn [mbind outcome_bind]; eexists; rewrite get_from; split_and!; [done|done|lia|lia]
    |unfold checked_sub; rewrite decide_False by lia; by eexists].
  - destruct (decide (get a + 4096 < usize_mod)) as [Hlt|Hge].
    + rewrite bool_decide_eq_true_2 by zdm. rewrite bool_decide_eq_false_2 by (unfold last_page; lia). cbn [andb negb].
      destruct (roundup_div a (proj1 Ha) Hlt) as (b & -> & Hb). exists b. rewrite Hb. split_and!; [done|done|zdm|zdm].
    + assert (Hp : panics (roundup a)) by (unfold roundup, checked_add; rewrite decide_False by (unfold PGSIZE; lia); by eexists).
      destruct (decide (get a = last_page)) as [->|Hne]; [by rewrite bool_decide_eq_true_2 with (P := last_page = last_page), andb_false_r|].
      rewrite bool_decide_eq_false_2; [done|]. unfold last_page in *. zdm.
  - rewrite bool_decide_eq_true_2 by zdm. eexists. split; [done|]. rewrite rounddown_div by done. split_and!; [done|zdm|zdm].
Qed.

(** C38. Addresses stay words, and their arithmetic is that of the integers:
    any sequence of [+], [+=], [-], [-=], [roundup] and [rounddown] on an
    address of any of the three types either gives exactly the integer that
    the operations stand for, which is again a [usize], or panics.  It panics
    exactly when the result of some step is not a [usize], or some step rounds
    up the last page boundary 2^64 - 4096, where the result would be the
    address itself and the intermediate sum overflows. *)
Theorem addr_exact (l : list addr_op) (a : A) (Ha : 0 ≤ get a < usize_mod) (Hl : Forall operand_ok l) :
  match exact_run (get a) l with
  | Some z => ∃ b, addr_run a l = Done b ∧ get b = z ∧ 0 ≤ z < usize_mod
  | None => panics (addr_run a l)
  end.
Proof.
  revert a Ha. induction Hl as [|o l Ho Hl IH]; intros a Ha; cbn [exact_run addr_run]; [by exists a|].
  pose proof (addr_apply_exact a o Ha Ho) as Hap. destruct (representable (get a) o && negb (overflows (get a) o)).
  - destruct Hap as (b & -> & Hb & Hr). cbn [mbind outcome_bind]. rewrite <-Hb. by apply IH.
  - destruct Hap as (msg & ->). by exists msg.
Qed.
End exactness.

Lemma addr_exact_witness :
  ∃ b : UVAddr, addr_run (mkUVAddr 4097) [OpRoundup; OpAdd 5; OpSub 1; OpRounddown] = Done b ∧ uvaddr b = 8192.
Proof.
  destruct (addr_exact (A := UVAddr) [OpRoundup; OpAdd 5; OpSub 1; OpRounddown] (mkUVAddr 4097)) as (b & Hb & Hz & _).
  - cbn. lia.
  - repeat constructor; cbn; lia.
  - exists b. split; [exact Hb|]. etransitivity; [exact Hz|vm_compute; done].
Defined.

(** The conversions to [VirtAddr] commute with [+]. *)
Lemma virt_add_comm (a : UVAddr) (n : Z) :
  virt_add (from_uv a) n = (b ← add a n; Done (from_uv b)).
Proof. unfold virt_add, from_uv, add. cbn. by destruct (checked_add (uvaddr a) n). Qed.

(** A user or kernel address below [MAXVA] is its three indices and its
    offset in the page, and no other page has these indices. *)
Lemma vaddr_split {A} `{AddrLaws A} (a : A) :
  0 ≤ get a < MAXVA →
  ∃ l2 l1 l0, vaddr_px a 2 = Done l2 ∧ vaddr_px a 1 = Done l1 ∧ vaddr_px a 0 = Done l0 ∧
    get a = (l2 * 262144 + l1 * 512 + l0) * 4096 + get a `mod` 4096.
Proof.
  intros Ha. exists (px (get a) 2), (px (get a) 1), (px (get a) 0). split_and!; [done..|].
  rewrite <-px_page by done. zdm.
Qed.
