(* ===== verification/VmCopy.v ===== *)
(** * User memory byte by byte ([copyout], [copyin], [copyinstr] of [vm.rs])

    The copies work a page at a time.  The reference is a byte at a time:
    [uaddr] is the physical address of a user byte, and [put], [get] and
    [get_str] write and read one byte after the other.  On a well-formed page
    table the code computes exactly the reference; where user pages do not
    share physical pages, what is copied out is what is read back. *)

From S2P Require Import Prelude Vm VmSpec.

Open Scope Z_scope.

(** ** Reference *)

(** The physical address of the byte at user address [a]. *)
Definition uaddr (m : vmem) (root a : Z) : option Z :=
  if decide (0 ≤ a) then
    match walkaddr m root (a / 4096 * 4096) with Done (Some pa) => Some (pa + a `mod` 4096) | _ => None end
  else None.

Definition user_byte (m : vmem) (root a : Z) : option Z :=
  p ← uaddr m root a; Some (default 0 (bytes m !! p)).

Fixpoint put (ua : Z → option Z) (b : gmap Z Z) (a : Z) (src : list Z) : gmap Z Z * result unit unit :=
  match src with
  | [] => (b, Ok tt)
  | x :: src => match ua a with
                | None => (b, Err tt)
                | Some p => put ua (<[p := x]> b) (a + 1) src
                end
  end.

Fixpoint get (ub : Z → option Z) (a : Z) (len : nat) : result (list Z) unit :=
  match len with
  | O => Ok []
  | S len => match ub a with
             | None => Err tt
             | Some x => match get ub (a + 1) len with Ok l => Ok (x :: l) | Err _ => Err tt end
             end
  end.

Fixpoint get_str (ub : Z → option Z) (a : Z) (max : nat) : result (list Z) string :=
  match max with
  | O => Err "not enough space"
  | S max => match ub a with
             | None => Err "virtual address not found"
             | Some x => if decide (x = 0) then Ok [0]
                         else match get_str ub (a + 1) max with Ok l => Ok (x :: l) | Err e => Err e end
             end
  end.

(** ** A lookup depends on the tables only, and does not fault *)
Lemma walk_level_tables m m' t i :
  tables m = tables m' →
  match walk_level m t i false, walk_level m' t i false with
  | Done (m1, r), Done (m1', r') => m1 = m ∧ m1' = m' ∧ r = r'
  | Fault a, Fault a' => a = a'
  | _, _ => False
  end.
Proof.
  intros E. unfold walk_level, get_pte. rewrite E. destruct (tables m' !! t) as [es|]; simpl; [|done].
  destruct (es !! Z.to_nat i) as [pte|]; [|done]. by destruct (is_v pte).
Qed.

Lemma walkaddr_tables m m' root va : tables m = tables m' → walkaddr m root va = walkaddr m' root va.
Proof.
  intros E. unfold walkaddr, walk. destruct (decide (MAXVA ≤ va)); [done|].
  pose proof (walk_level_tables m m' root (px va 2) E) as H2.
  destruct (walk_level m root (px va 2) false) as [[m1 r]|e|a], (walk_level m' root (px va 2) false) as [[m1' r']|e'|a'];
    try done; [|by subst]. destruct H2 as (-> & -> & ->). cbn [mbind outcome_bind].
  destruct r' as [t1|]; [|done].
  pose proof (walk_level_tables m m' t1 (px va 1) E) as H1.
  destruct (walk_level m t1 (px va 1) false) as [[m1 r]|e|a], (walk_level m' t1 (px va 1) false) as [[m1' r']|e'|a'];
    try done; [|by subst]. destruct H1 as (-> & -> & ->). cbn [mbind outcome_bind].
  destruct r' as [t0|]; [|done]. unfold read_place, get_pte. rewrite E.
  destruct (tables m' !! t0) as [es|] eqn:Et; simpl; [|done].
  destruct (es !! Z.to_nat (px va 0)) as [pte|] eqn:Ee; simpl; [|done]. by rewrite ?E, Et; simpl; rewrite Ee.
Qed.

Lemma walk_level_page m t i :
  is_page m t → 0 ≤ i < 512 → walk_level m t i false = Done (m, child m t i).
Proof.
  intros Ht Hi. destruct (get_pte_page m t i Ht Hi) as (pte & Hg & He).
  unfold walk_level, child. rewrite Hg, He. cbn [mbind outcome_bind]. by destruct (is_v pte).
Qed.

Lemma walkaddr_flat m root va :
  pt_ok m root → 0 ≤ va →
  walkaddr m root va = Done (if decide (va < MAXVA) then
    pte ← translate m root va; if is_u pte then Some (to_pa pte) else None else None).
Proof.
  intros (g1 & g0 & Hwf) Hva. unfold walkaddr. case_decide; [by rewrite decide_False by lia|].
  rewrite decide_True by lia. unfold walk. rewrite decide_False by lia.
  rewrite walk_level_page by (apply Hwf || by apply px_range). cbn [mbind outcome_bind]. unfold translate, trans.
  destruct (child m root (px va 2)) as [t1|] eqn:E2; [|done].
  apply (w_c1 _ _ _ _ Hwf) in E2; [|by apply px_range].
  destruct (w_p1 _ _ _ _ Hwf _ _ E2) as (Hp1 & _).
  rewrite walk_level_page by (done || by apply px_range). cbn [mbind outcome_bind].
  destruct (child m t1 (px va 1)) as [t0|] eqn:E1; [|done].
  apply (w_c0 _ _ _ _ Hwf _ _ _ _ E2) in E1; [|by apply px_range].
  destruct (w_p0 _ _ _ _ Hwf _ _ E1) as (Hp0 & _).
  destruct (get_pte_page m t0 (px va 0) Hp0 (px_range va 0 ltac:(lia))) as (pte & Hg & He).
  rewrite Hg, He. cbn [mbind outcome_bind]. unfold read_place. simpl. rewrite Hg. simpl. by destruct (is_v pte).
Qed.

(** ** Runs of bytes inside a page *)
Lemma write_bytes_shift (l : list Z) a : ∀ (g : nat → nat) (b : gmap Z Z),
  foldl (λ b '(i, x), <[a + Z.of_nat i := x]> b) b (imap (λ i, pair (S (g i))) l) =
  foldl (λ b '(i, x), <[a + 1 + Z.of_nat i := x]> b) b (imap (λ i, pair (g i)) l).
Proof.
  induction l as [|x l IH]; intros g b; [done|]. cbn [imap foldl].
  replace (a + Z.of_nat (S (g 0%nat))) with (a + 1 + Z.of_nat (g 0%nat)) by lia.
  apply (IH (g ∘ S)).
Qed.

Lemma write_bytes_cons b a x l : write_bytes b a (x :: l) = write_bytes (<[a := x]> b) (a + 1) l.
Proof.
  unfold write_bytes. cbn [imap foldl]. rewrite Z.add_0_r. apply (write_bytes_shift l a id).
Qed.

Lemma put_run ua x y : ∀ b a p,
  (∀ i, 0 ≤ i < Z.of_nat (length x) → ua (a + i) = Some (p + i)) →
  put ua b a (x ++ y) = put ua (write_bytes b p x) (a + Z.of_nat (length x)) y.
Proof.
  induction x as [|c x IH]; intros b a p H.
  - simpl. by rewrite Z.add_0_r.
  - pose proof (H 0 ltac:(simpl; lia)) as H0. rewrite !Z.add_0_r in H0.
    cbn [app put]. rewrite H0, write_bytes_cons, (IH _ (a + 1) (p + 1)).
    + f_equal. simpl. lia.
    + intros i Hi. rewrite <-!Z.add_assoc. apply H. simpl. lia.
Qed.

Lemma put_ext ua ua' b a src : (∀ a, ua a = ua' a) → put ua b a src = put ua' b a src.
Proof.
  intros E. revert b a. induction src as [|x src IH]; intros b a; [done|]. simpl. rewrite E.
  by destruct (ua' a).
Qed.

Lemma get_run ub n rest : ∀ a,
  (∀ i, 0 ≤ i < Z.of_nat n → is_Some (ub (a + i))) →
  get ub a (n + rest) =
    match get ub (a + Z.of_nat n) rest with
    | Ok l => Ok (((λ i, default 0 (ub (a + i))) <$> seqZ 0 (Z.of_nat n)) ++ l)
    | Err _ => Err tt
    end.
Proof.
  induction n as [|n IH]; intros a H.
  - simpl. rewrite Z.add_0_r. by destruct (get ub a rest) as [|[]].
  - destruct (H 0 ltac:(lia)) as (x & Hx). rewrite Z.add_0_r in Hx. cbn [Nat.add get]. rewrite Hx.
    rewrite IH. 2: { intros i Hi. rewrite <-Z.add_assoc. apply H. lia. }
    replace (a + 1 + Z.of_nat n) with (a + Z.of_nat (S n)) by lia.
    destruct (get ub (a + Z.of_nat (S n)) rest) as [l|[]]; [|done].
    rewrite (seqZ_cons 0 (Z.of_nat (S n))) by lia. cbn [fmap list_fmap]. rewrite Z.add_0_r, Hx. cbn [default].
    f_equal. simpl. f_equal. f_equal. replace (Z.succ 0) with (0 + 1) by lia.
    replace (Z.pred (Z.of_nat (S n))) with (Z.of_nat n) by lia.
    rewrite <-(fmap_add_seqZ 1 0), <-list_fmap_compose. apply list_fmap_ext. intros ? i ?. simpl.
    f_equal. f_equal. lia.
Qed.

(** ** The code and the reference *)
Definition in_page (a : Z) (n : nat) : nat := Z.to_nat (Z.min (4096 - a `mod` 4096) (Z.of_nat n)).

Lemma pgrounddown_sub a : 0 ≤ a < usize_mod → PGSIZE - (a - pgrounddown a) = 4096 - a `mod` 4096.
Proof. intros H. rewrite pgrounddown_div by done. unfold PGSIZE. rewrite Z.mod_eq by lia. lia. Qed.

Lemma uaddr_page m root a pa i :
  0 ≤ a → walkaddr m root (a / 4096 * 4096) = Done (Some pa) → 0 ≤ i < 4096 - a `mod` 4096 →
  uaddr m root (a + i) = Some (pa + a `mod` 4096 + i).
Proof.
  intros Ha Hw Hi. unfold uaddr. rewrite decide_True by lia. pose proof (Z.div_mod a 4096 ltac:(lia)). pose proof (Z.mod_pos_bound a 4096 ltac:(lia)).
  assert ((a + i) / 4096 = a / 4096) as -> by (symmetry; apply Z.div_unique with (a `mod` 4096 + i); lia).
  rewrite Hw. f_equal.
  assert ((a + i) `mod` 4096 = a `mod` 4096 + i) as -> by (symmetry; apply Z.mod_unique with (a / 4096); lia).
  lia.
Qed.

Lemma uaddr_tables m m' root a : tables m = tables m' → uaddr m root a = uaddr m' root a.
Proof. intros E. unfold uaddr. by rewrite (walkaddr_tables m m'). Qed.

Lemma pt_ok_tables m m' root : tables m = tables m' → pt_ok m root → pt_ok m' root.
Proof.
  intros E (g1 & g0 & H). exists g1, g0. destruct H as [H1 H2 H3 H4 H5].
  split; unfold child, entry, is_page in *; rewrite <-?E; intros; eauto.
Qed.

Lemma walkaddr_low m root va pa : walkaddr m root va = Done (Some pa) → va < MAXVA.
Proof. unfold walkaddr. case_decide; [done|lia]. Qed.

Definition page_bytes (m : vmem) (pa : Z) (n : nat) : list Z :=
  (λ i, default 0 (bytes m !! (pa + i))) <$> seqZ 0 (Z.of_nat n).

(** What every round needs: the page of [a] is known, mapped or not. *)
Lemma page_round m root a len :
  pt_ok m root → 0 ≤ a < usize_mod → (0 < len)%nat →
  ∃ r, walkaddr m root (pgrounddown a) = Done r ∧
    let n := Z.to_nat (Z.min (PGSIZE - (a - pgrounddown a)) (Z.of_nat len)) in
    (0 < n ≤ len)%nat ∧
    match r with
    | None => uaddr m root a = None
    | Some pa =>
        (∀ i, 0 ≤ i < Z.of_nat n → uaddr m root (a + i) = Some (pa + (a - pgrounddown a) + i)) ∧
        0 ≤ pgrounddown a + PGSIZE < usize_mod ∧
        ((n < len)%nat → pgrounddown a + PGSIZE = a + Z.of_nat n)
    end.
Proof.
  intros Hok Ha Hlen. rewrite pgrounddown_sub by done. rewrite pgrounddown_div by done.
  pose proof (Z.mod_pos_bound a 4096 ltac:(lia)). pose proof (Z.div_mod a 4096 ltac:(lia)).
  pose proof (walkaddr_flat m root (a / 4096 * 4096) Hok ltac:(lia)) as Hr.
  destruct (walkaddr m root (a / 4096 * 4096)) as [r| |] eqn:Er; [clear Hr|done..]. exists r. split; [done|].
  cbn zeta. split; [lia|].
  destruct r as [pa|]; [|unfold uaddr; by rewrite Er, decide_True by lia].
  replace (a - a / 4096 * 4096) with (a `mod` 4096) by lia. split_and!.
  - intros i Hi. apply uaddr_page; [lia|done|lia].
  - unfold PGSIZE. lia.
  - apply walkaddr_low in Er. change MAXVA with 274877906944 in Er.
    change usize_mod with 18446744073709551616. unfold PGSIZE. lia.
  - unfold PGSIZE. lia.
Qed.

Lemma copyout_put k : ∀ m root a src,
  pt_ok m root → 0 ≤ a < usize_mod → (length src ≤ k)%nat →
  copyout k m root a src =
    let '(b, r) := put (uaddr m root) (bytes m) a src in Done (mkMem (tables m) b (avail m), r).
Proof.
  induction k as [|k IH]; intros m root a src Hok Ha Hk.
  - destruct src; [|simpl in Hk; lia]. by destruct m.
  - destruct src as [|c src]; [by destruct m|]. remember (c :: src) as s eqn:Es.
    destruct (page_round m root a (length s) Hok Ha ltac:(subst; simpl; lia)) as (r & Hr & Hn & Hm).
    cbn [copyout]. rewrite Es at 1. rewrite Hr. cbn [mbind outcome_bind]. destruct r as [pa|].
    2: { rewrite Es. cbn [put]. rewrite Hm. by destruct m. }
    destruct Hm as (Hua & Hnext & Hlast). cbn zeta. set (n := Z.to_nat _) in *.
    rewrite <-(take_drop n s) at 3. rewrite (put_run _ _ _ _ _ (pa + (a - pgrounddown a))).
    2: { intros i Hi. rewrite length_take in Hi. apply Hua. lia. }
    rewrite length_take, Nat.min_l by lia.
    destruct (decide (n < length s)%nat) as [Hlt|Hge]; [|by rewrite drop_ge by lia; destruct k].
    rewrite IH; [|by apply (pt_ok_tables m)|done|rewrite length_drop; lia].
    rewrite Hlast by done. by rewrite (put_ext _ (uaddr m root)) by (intros; by apply uaddr_tables).
Qed.

Lemma user_bytes m root a p n :
  (∀ i, 0 ≤ i < Z.of_nat n → uaddr m root (a + i) = Some (p + i)) →
  (∀ i, 0 ≤ i < Z.of_nat n → is_Some (user_byte m root (a + i))) ∧
  (λ i, default 0 (user_byte m root (a + i))) <$> seqZ 0 (Z.of_nat n) = page_bytes m p n.
Proof.
  intros H. unfold user_byte, page_bytes. split.
  - intros i Hi. rewrite H by done. simpl. eauto.
  - apply list_fmap_ext. intros j i Hj. apply lookup_seqZ in Hj as [-> Hj]. rewrite H by lia. done.
Qed.

Lemma copyin_get k : ∀ m root a len,
  pt_ok m root → 0 ≤ a < usize_mod → (len ≤ k)%nat →
  copyin k m root a len = Done (get (user_byte m root) a len).
Proof.
  induction k as [|k IH]; intros m root a len Hok Ha Hk; (destruct len as [|l]; [done|]); [lia|].
  remember (S l) as len eqn:Es.
  destruct (page_round m root a len Hok Ha ltac:(lia)) as (r & Hr & Hn & Hm).
  cbn [copyin]. rewrite Es at 1. rewrite Hr. cbn [mbind outcome_bind]. destruct r as [pa|].
  2: { rewrite Es. cbn [get]. unfold user_byte. by rewrite Hm. }
  destruct Hm as (Hua & Hnext & Hlast). cbn zeta. set (n := Z.to_nat _) in *.
  destruct (user_bytes _ _ _ _ _ Hua) as [Hsome Hb].
  replace len with (n + (len - n))%nat at 2 by lia. rewrite get_run by done. rewrite Hb. fold (page_bytes m (pa + (a - pgrounddown a)) n).
  destruct (decide (n < len)%nat) as [Hlt|Hge].
  - rewrite IH by (done || lia). rewrite Hlast by done. by destruct (get _ _ _).
  - replace (len - n)%nat with 0%nat by lia. destruct k; done.
Qed.

Lemma get_str_run ub l rest : ∀ a,
  (∀ i x, l !! i = Some x → ub (a + Z.of_nat i) = Some x) →
  get_str ub a (length l + rest) =
    match list_find (λ c, c = 0) l with
    | Some (i, _) => Ok (take (i + 1) l)
    | None => match get_str ub (a + Z.of_nat (length l)) rest with Ok l' => Ok (l ++ l') | Err e => Err e end
    end.
Proof.
  induction l as [|x l IH]; intros a H.
  - simpl. rewrite Z.add_0_r. by destruct (get_str ub a rest).
  - pose proof (H 0%nat x eq_refl) as Hx. rewrite Z.add_0_r in Hx.
    cbn [length Nat.add get_str list_find]. rewrite Hx. case_decide as H0; [by rewrite H0|].
    rewrite IH. 2: { intros i y Hy. rewrite <-(H (S i) y Hy). f_equal. lia. }
    destruct (list_find _ l) as [[i y]|]; [done|]. cbn [fmap option_fmap option_map].
    replace (a + 1 + Z.of_nat (length l)) with (a + Z.of_nat (S (length l))) by lia. by destruct (get_str _ _ rest).
Qed.

Lemma page_bytes_lookup m root a p n i x :
  (∀ i, 0 ≤ i < Z.of_nat n → uaddr m root (a + i) = Some (p + i)) →
  page_bytes m p n !! i = Some x → user_byte m root (a + Z.of_nat i) = Some x.
Proof.
  intros Hua Hx. unfold page_bytes in Hx. rewrite list_lookup_fmap in Hx.
  apply fmap_Some in Hx as (j & Hj & ->).
  apply lookup_seqZ in Hj as [-> Hj]. unfold user_byte. by rewrite Hua by lia.
Qed.

Lemma copyinstr_get k : ∀ m root a max,
  pt_ok m root → 0 ≤ a < usize_mod → (max ≤ k)%nat →
  copyinstr k m root a max = Done (get_str (user_byte m root) a max).
Proof.
  induction k as [|k IH]; intros m root a max Hok Ha Hk; (destruct max as [|l]; [done|]); [lia|].
  remember (S l) as max eqn:Es.
  destruct (page_round m root a max Hok Ha ltac:(lia)) as (r & Hr & Hn & Hm).
  cbn [copyinstr]. rewrite Es at 1. rewrite Hr. cbn [mbind outcome_bind]. destruct r as [pa|].
  2: { rewrite Es. cbn [get_str]. unfold user_byte. by rewrite Hm. }
  destruct Hm as (Hua & Hnext & Hlast). cbn zeta. set (n := Z.to_nat _) in *.
  fold (page_bytes m (pa + (a - pgrounddown a)) n). set (pb := page_bytes _ _ n).
  assert (Hl : length pb = n) by (unfold pb, page_bytes; rewrite length_fmap, length_seqZ; lia).
  replace (get_str _ a max) with (get_str (user_byte m root) a (length pb + (max - n))%nat) by (f_equal; lia).
  rewrite get_str_run by (intros i x; by apply page_bytes_lookup).
  destruct (list_find (λ c, c = 0) pb) as [[i x]|]; [done|].
  rewrite checked_add_ok by lia. cbn [mbind outcome_bind]. rewrite Hl.
  destruct (decide (n < max)%nat) as [Hlt|Hge].
  - rewrite IH by (done || lia). rewrite Hlast by done. cbn [mbind outcome_bind]. by destruct (get_str _ _ _).
  - replace (max - n)%nat with 0%nat by lia. by destruct k.
Qed.

(** ** What was written is what is read *)

(** No two user addresses share a physical byte. *)
Definition user_sep (m : vmem) (root : Z) : Prop :=
  ∀ a a' p, uaddr m root a = Some p → uaddr m root a' = Some p → a = a'.

Definition written (a : Z) (x : list Z) (c : Z) (old : option Z) : option Z :=
  if decide (a ≤ c < a + Z.of_nat (length x)) then x !! Z.to_nat (c - a) else old.

Lemma put_view ua src : (∀ a a' p, ua a = Some p → ua a' = Some p → a = a') → ∀ b a b' r,
  put ua b a src = (b', r) →
  ∃ n, (n ≤ length src)%nat ∧
    (∀ c p, ua c = Some p → b' !! p = written a (take n src) c (b !! p)) ∧
    (∀ i, 0 ≤ i < Z.of_nat n → is_Some (ua (a + i))) ∧
    match r with Ok _ => n = length src | Err _ => (n < length src)%nat ∧ ua (a + Z.of_nat n) = None end.
Proof.
  intros Hinj. unfold written. induction src as [|x src IH]; intros b a b' r H.
  - simplify_eq/=. exists 0%nat. split_and!; [lia| |lia|done]. intros c p _. by rewrite decide_False by (simpl; lia).
  - cbn [put] in H. destruct (ua a) as [q|] eqn:Eq.
    2: { simplify_eq/=. exists 0%nat. split_and!; [lia| |lia|lia|by rewrite Z.add_0_r].
         intros c p _. by rewrite decide_False by (simpl; lia). }
    destruct (IH _ _ _ _ H) as (n & Hn & Hv & Hs & Hr). exists (S n). split_and!.
    + simpl. lia.
    + intros c p Hc. rewrite (Hv c p Hc). cbn [take length]. rewrite length_take, Nat.min_l by lia.
      destruct (decide (c = a)) as [->|Hne].
      * rewrite decide_False, decide_True by lia. rewrite Z.sub_diag. simplify_eq. by rewrite lookup_insert_eq.
      * assert (p ≠ q) by (intros ->; by destruct Hne; apply (Hinj _ _ q)).
        rewrite lookup_insert_ne by done. destruct (decide (a + 1 ≤ c < a + 1 + Z.of_nat n)).
        -- rewrite decide_True by lia. replace (Z.to_nat (c - a)) with (S (Z.to_nat (c - (a + 1)))) by lia. done.
        -- by rewrite decide_False by lia.
    + intros i Hi. destruct (decide (i = 0)) as [->|]; [rewrite Z.add_0_r; eauto|].
      replace (a + i) with (a + 1 + (i - 1)) by lia. apply Hs. lia.
    + destruct r; [by simpl; f_equal|]. destruct Hr as [? Hr]. split; [simpl; lia|]. rewrite <-Hr. f_equal. lia.
Qed.

Lemma get_view ub x : ∀ a,
  (∀ i y, x !! i = Some y → ub (a + Z.of_nat i) = Some y) → get ub a (length x) = Ok x.
Proof.
  induction x as [|y x IH]; intros a H; [done|]. cbn [length get].
  pose proof (H 0%nat y eq_refl) as H0. rewrite Z.add_0_r in H0. rewrite H0, IH; [done|].
  intros i z Hz. rewrite <-(H (S i) z Hz). f_equal. lia.
Qed.

(** The effect on user memory: the prefix that was written. *)
Lemma put_user_view m root a src b r :
  user_sep m root → put (uaddr m root) (bytes m) a src = (b, r) →
  let m' := mkMem (tables m) b (avail m) in
  user_sep m' root ∧ ∃ n, (n ≤ length src)%nat ∧
    (∀ c, user_byte m' root c = written a (take n src) c (user_byte m root c)) ∧
    match r with
    | Ok _ => n = length src
    | Err _ => (n < length src)%nat ∧ user_byte m root (a + Z.of_nat n) = None
    end.
Proof.
  intros Hsep Hp m'. destruct (put_view _ _ Hsep _ _ _ _ Hp) as (n & Hn & Hv & Hs & Hr).
  assert (Hu : ∀ c, uaddr m' root c = uaddr m root c) by (intros; by apply uaddr_tables).
  split; [intros c c' p; rewrite !Hu; apply Hsep|]. exists n. split_and!; [done| |].
  - intros c. unfold user_byte, written. rewrite Hu. destruct (uaddr m root c) as [p|] eqn:Ec; simpl.
    + rewrite (Hv c p Ec). unfold written. case_decide as Hc; [|done].
      destruct (lookup_lt_is_Some_2 (take n src) (Z.to_nat (c - a))) as (y & Hy); [lia|]. by rewrite Hy.
    + rewrite decide_False; [done|]. rewrite length_take. intros Hc.
      destruct (Hs (c - a) ltac:(lia)) as (? & Hx). replace (a + (c - a)) with c in Hx by lia. congruence.
  - destruct r; [done|]. destruct Hr as [? Hr]. split; [done|]. unfold user_byte. by rewrite Hr.
Qed.

Lemma copyout_view k m root a src :
  pt_ok m root → user_sep m root → 0 ≤ a < usize_mod → (length src ≤ k)%nat →
  ∃ m' r n, copyout k m root a src = Done (m', r) ∧ (n ≤ length src)%nat ∧
    pt_ok m' root ∧ user_sep m' root ∧ tables m' = tables m ∧ avail m' = avail m ∧
    (∀ c, user_byte m' root c = written a (take n src) c (user_byte m root c)) ∧
    match r with
    | Ok _ => n = length src
    | Err _ => (n < length src)%nat ∧ user_byte m root (a + Z.of_nat n) = None
    end.
Proof.
  intros Hok Hsep Ha Hk. rewrite copyout_put by done.
  destruct (put (uaddr m root) (bytes m) a src) as [b r] eqn:Hp.
  destruct (put_user_view _ _ _ _ _ _ Hsep Hp) as (Hsep' & n & Hn & Hv & Hr).
  exists (mkMem (tables m) b (avail m)), r, n. split_and!; try done. by apply (pt_ok_tables m).
Qed.

(** C13. The copies between kernel and user work page by page but are, on a
    well-formed page table, the copies byte by byte: [copyout] writes each byte
    through the translation of its own address and stops with an error at the
    first address that is not mapped for the user, [copyin] reads each byte the
    same way, and [copyinstr] reads up to the first 0, with its two errors in
    the order in which a byte-wise reader meets them.  None of them faults,
    panics or touches a page table. *)
Theorem copy_flat m root a src len (Hok : pt_ok m root) (Ha : 0 ≤ a < usize_mod) :
  either_copyout m root (User a) src =
    (let '(b, r) := put (uaddr m root) (bytes m) a src in Done (mkMem (tables m) b (avail m), r)) ∧
  either_copyin m root (User a) len = Done (get (user_byte m root) a len) ∧
  copyinstr len m root a len = Done (get_str (user_byte m root) a len).
Proof.
  split_and!; [apply copyout_put|apply copyin_get|apply copyinstr_get]; done || lia.
Qed.

(** What [either_copyout] stores at a user address is what [either_copyin]
    reads back there, and it is all that changed in user memory, when the
    range is mapped and no two user pages share a physical page; a range that
    is not mapped throughout is refused with an error, and then exactly the
    bytes before the first unmapped one have been written. *)
Theorem copy_roundtrip m root a src
  (Hok : pt_ok m root) (Hsep : user_sep m root) (Ha : 0 ≤ a < usize_mod) :
  ∃ m' r n, either_copyout m root (User a) src = Done (m', r) ∧ tables m' = tables m ∧ avail m' = avail m ∧
    (∀ c, user_byte m' root c = written a (take n src) c (user_byte m root c)) ∧
    match r with
    | Ok _ => n = length src ∧ either_copyin m' root (User a) (length src) = Done (Ok src)
    | Err _ => (n < length src)%nat ∧ user_byte m root (a + Z.of_nat n) = None
    end ∧
    (r = Ok tt ↔ ∀ i, 0 ≤ i < Z.of_nat (length src) → is_Some (user_byte m root (a + i))).
Proof.
  destruct (copyout_view (S (length src)) m root a src Hok Hsep Ha ltac:(lia))
    as (m' & r & n & Hrun & Hn & Hok' & _ & Ht & Hav & Hv & Hr).
  assert (Hmap : ∀ c, is_Some (user_byte m' root c) ↔ is_Some (user_byte m root c)).
  { intros c. unfold user_byte. rewrite (uaddr_tables m' m) by done. by destruct (uaddr m root c). }
  exists m', r, n. split_and!; [done|done|done|done| |]; (destruct r as [[]|[]]; [subst n|destruct Hr as [Hlt Hnone]]).
  - split; [done|]. unfold either_copyin. rewrite (copyin_get (S (length src))) by (done || lia). f_equal. apply get_view.
    intros i y Hy. rewrite Hv, take_ge by lia. unfold written. apply lookup_lt_Some in Hy as Hlt.
    rewrite decide_True by lia. rewrite <-Hy. f_equal. lia.
  - done.
  - split; [intros _ i Hi|done]. apply Hmap. rewrite Hv, take_ge by lia. unfold written. rewrite decide_True by lia.
    apply lookup_lt_is_Some_2. lia.
  - split; [done|]. intros H. destruct (H (Z.of_nat n) ltac:(lia)) as (? & ?). congruence.
Qed.

(** ** Witnesses: [demo_mapped] has user page 0 at 40960 *)
Lemma demo_user_page a p : uaddr demo_mapped 8192 a = Some p → 0 ≤ a < 4096 ∧ p = 40960 + a.
Proof.
  unfold uaddr. case_decide as Ha; [|done].
  pose proof (Z.mod_pos_bound a 4096 ltac:(lia)). pose proof (Z.div_mod a 4096 ltac:(lia)).
  rewrite (walkaddr_flat _ _ _ demo_mapped_ok) by lia. case_decide as Hm; [|done].
  assert (Hva : 0 ≤ a / 4096 * 4096) by lia. set (va := a / 4096 * 4096) in *. unfold translate, trans.
  destruct (child demo_mapped 8192 (px va 2)) as [t1|] eqn:E2; [|done].
  apply (one_entry_child _ _ (pte_set 12288 PTE_V)) in E2 as [E2 ->]; [|done|by apply px_range].
  change (to_pa (pte_set 12288 PTE_V)) with 12288.
  destruct (child demo_mapped 12288 (px va 1)) as [t0|] eqn:E1; [|done].
  apply (one_entry_child _ _ (pte_set 16384 PTE_V)) in E1 as [E1 ->]; [|done|by apply px_range].
  change (to_pa (pte_set 16384 PTE_V)) with 16384.
  set (leaf := pte_set 40960 (Z.lor (Z.lor PTE_R PTE_U) PTE_V)).
  assert (Hc : ∀ t, child demo_mapped 16384 (px va 0) = Some t → px va 0 = 0)
    by (intros t Ht; by apply (one_entry_child _ _ leaf) in Ht as [? _]; [|done|apply px_range]).
  unfold child in Hc. destruct (entry demo_mapped 16384 (px va 0)) as [pte|] eqn:E0; [|done].
  destruct (is_v pte); [|done]. specialize (Hc _ eq_refl). rewrite Hc in E0.
  change (entry demo_mapped 16384 0) with (Some leaf) in E0. injection E0 as <-.
  pose proof (px_page va (conj Hva Hm)) as Hp. rewrite E2, E1, Hc in Hp.
  unfold va in Hp. rewrite Z.div_mul in Hp by lia.
  change (is_u leaf) with true. cbn [mbind option_bind]. intros [= <-].
  change (to_pa leaf) with 40960. lia.
Qed.

Lemma demo_user_sep : user_sep demo_mapped 8192.
Proof. intros a a' p [_ ->]%demo_user_page [_ ?]%demo_user_page. lia. Qed.

Lemma copy_flat_witness :
  either_copyout demo_mapped 8192 (User 4094) [1; 2; 3] =
    Done (mkMem (tables demo_mapped) {[ 45054 := 1; 45055 := 2 ]} (avail demo_mapped), Err tt) ∧
  either_copyin demo_mapped 8192 (User 4094) 2 = Done (Ok [0; 0]).
Proof.
  destruct (copy_flat demo_mapped 8192 4094 [1; 2; 3] 2 demo_mapped_ok ltac:(lia)) as (H1 & H2 & _).
  rewrite H1, H2. split; vm_compute; reflexivity.
Defined.

Lemma copy_roundtrip_witness :
  ∃ m', either_copyout demo_mapped 8192 (User 10) [5; 6; 7] = Done (m', Ok tt) ∧
    either_copyin m' 8192 (User 10) 3 = Done (Ok [5; 6; 7]).
Proof.
  destruct (copy_roundtrip demo_mapped 8192 10 [5; 6; 7] demo_mapped_ok demo_user_sep ltac:(lia))
    as (m' & r & n & Hrun & _ & _ & _ & Hr & _).
  exists m'. destruct r as [[]|[]]; [|by vm_compute in Hrun]. split; [exact Hrun|apply Hr].
Defined.

(** ** The first user page *)
Lemma write_bytes_lookup l : ∀ b a p,
  write_bytes b a l !! p = if decide (a ≤ p < a + Z.of_nat (length l)) then l !! Z.to_nat (p - a) else b !! p.
Proof.
  induction l as [|x l IH]; intros b a p.
  - rewrite decide_False by (cbn; lia). done.
  - rewrite write_bytes_cons, IH. cbn [length]. destruct (decide (p = a)) as [->|Hne].
    + rewrite decide_False, decide_True by lia. rewrite Z.sub_diag, lookup_insert_eq. done.
    + destruct (decide (a + 1 ≤ p < a + 1 + Z.of_nat (length l))) as [Hin|Hin].
      * rewrite decide_True by lia. by replace (Z.to_nat (p - a)) with (S (Z.to_nat (p - (a + 1)))) by lia.
      * rewrite decide_False by lia. by rewrite lookup_insert_ne.
Qed.

(** [Uvm::init] gives the process one page at address 0 with the bytes of
    [src] and zeros behind them; it panics only when the page tables cannot
    be allocated. *)
Theorem uvm_init_image m root src mem r :
  pt_wf m root → avail m = mem :: r → mem + 12288 ≤ usize_mod → unmapped m root 0 1 → (length src ≤ 4096)%nat →
  (∃ m', uvm_init m root src = Done m' ∧ pt_wf m' root ∧
     ∀ a, 0 ≤ a < 4096 → user_byte m' root a = Some (default 0 (src !! Z.to_nat a))) ∨
  uvm_init m root src = Panic "called `Result::unwrap()` on an `Err` value".
Proof.
  intros [Hok [Hnd Hfr]] Hav Hmem Hun Hlen. rewrite Hav in Hnd, Hfr. apply NoDup_cons in Hnd as [Hni Hnd].
  destruct (Hfr mem) as (_ & Hm0 & Hal); [left|].
  set (m1 := mkMem (tables m) (zero_bytes Vm.PGSIZE mem (bytes m)) r).
  assert (Hwf1 : pt_wf m1 root).
  { split; [by apply (pt_ok_tables m)|]. split; [done|]. intros a Ha. destruct (Hfr a) as (? & ? & ?); [by right|]. done. }
  destruct (mappages_spec m1 root 0 mem Vm.PGSIZE (Z.lor (Z.lor (Z.lor PTE_W PTE_R) PTE_X) PTE_U) Hwf1)
    as (m2 & res & d & Hmap & Hwf2 & Hb & _ & Hres);
    [lia|done|vm_compute; congruence|lia|exact Hal|unfold Vm.PGSIZE; lia|vm_compute; intuition congruence|exact Hun|].
  unfold uvm_init. rewrite decide_False by (unfold Vm.PGSIZE; lia). unfold new_page. rewrite Hav. fold m1.
  rewrite Hmap. cbn [mbind outcome_bind]. destruct res as [[]|[]]; [left; destruct Hres as [_ Hres]|by right].
  eexists. split; [reflexivity|]. split.
  - destruct Hwf2 as [Hok2 [Hnd2 Hfr2]]. split; [by apply (pt_ok_tables m2)|]. split; [done|]. exact Hfr2.
  - intros a Ha. unfold user_byte, uaddr. rewrite decide_True by lia.
    assert (Hq : a / 4096 = 0) by (apply Z.div_small; lia).
    rewrite (walkaddr_tables _ m2) by done.
    rewrite Hres by (rewrite Hq; vm_compute; intuition congruence).
    replace (is_u _) with true by reflexivity. cbn [mbind option_bind bytes]. f_equal.
    rewrite write_bytes_lookup, Hq, Z.mod_small, Hb by lia. change (0 * 4096 / 4096 - 0 / 4096) with 0.
    rewrite Z.add_0_r. destruct (decide (a < Z.of_nat (length src))) as [Hin|Hout].
    + rewrite decide_True by lia. do 2 f_equal. lia.
    + rewrite decide_False by lia. rewrite (lookup_ge_None_2 src) by lia.
      unfold m1. cbn [bytes]. by rewrite zero_bytes_lookup by (unfold Vm.PGSIZE; lia).
Qed.
