(* ===== verification/Machine.v ===== *)
(** * The machine: control registers ([riscv.rs]), boot ([entry.rs], [start.rs]),
      the interrupt controller ([plic.rs]) and the assembly of [kernelvec.rs]
      and [swtch.rs]

    [Csrs] has the control registers of a hart that the kernel touches; a
    wrapper of [riscv.rs] is a function on them.  [sstatus], which the machine
    keeps as a view of [mstatus], is a register of its own: no code reads the
    one after writing the other.  The assembly is a list of instructions run by
    [run] on registers, control registers and memory, a map from addresses to
    64-bit words; a load from an address without a word is a [Fault]. *)

From S2P Require Import Prelude Vm Trap.

Open Scope Z_scope.

(** ** Control registers *)
Record Csrs := mkCsrs {
  mhartid : Z; mstatus : Z; mepc : Z; sstatus : Z; sip : Z; sie : Z; mie : Z; sepc : Z;
  medeleg : Z; mideleg : Z; stvec : Z; mtvec : Z; pmpcfg0 : Z; pmpaddr0 : Z; satp : Z;
  mscratch : Z; scause : Z; stval : Z;
}.

Definition set_mstatus (v : Z) (c : Csrs) : Csrs :=
  mkCsrs (mhartid c) v (mepc c) (sstatus c) (sip c) (sie c) (mie c) (sepc c) (medeleg c) (mideleg c) (stvec c)
    (mtvec c) (pmpcfg0 c) (pmpaddr0 c) (satp c) (mscratch c) (scause c) (stval c).
Definition set_mepc (v : Z) (c : Csrs) : Csrs :=
  mkCsrs (mhartid c) (mstatus c) v (sstatus c) (sip c) (sie c) (mie c) (sepc c) (medeleg c) (mideleg c) (stvec c)
    (mtvec c) (pmpcfg0 c) (pmpaddr0 c) (satp c) (mscratch c) (scause c) (stval c).
Definition set_sstatus (v : Z) (c : Csrs) : Csrs :=
  mkCsrs (mhartid c) (mstatus c) (mepc c) v (sip c) (sie c) (mie c) (sepc c) (medeleg c) (mideleg c) (stvec c)
    (mtvec c) (pmpcfg0 c) (pmpaddr0 c) (satp c) (mscratch c) (scause c) (stval c).
Definition set_sip (v : Z) (c : Csrs) : Csrs :=
  mkCsrs (mhartid c) (mstatus c) (mepc c) (sstatus c) v (sie c) (mie c) (sepc c) (medeleg c) (mideleg c) (stvec c)
    (mtvec c) (pmpcfg0 c) (pmpaddr0 c) (satp c) (mscratch c) (scause c) (stval c).
Definition set_sie_reg (v : Z) (c : Csrs) : Csrs :=
  mkCsrs (mhartid c) (mstatus c) (mepc c) (sstatus c) (sip c) v (mie c) (sepc c) (medeleg c) (mideleg c) (stvec c)
    (mtvec c) (pmpcfg0 c) (pmpaddr0 c) (satp c) (mscratch c) (scause c) (stval c).
Definition set_mie_reg (v : Z) (c : Csrs) : Csrs :=
  mkCsrs (mhartid c) (mstatus c) (mepc c) (sstatus c) (sip c) (sie c) v (sepc c) (medeleg c) (mideleg c) (stvec c)
    (mtvec c) (pmpcfg0 c) (pmpaddr0 c) (satp c) (mscratch c) (scause c) (stval c).
Definition set_sepc (v : Z) (c : Csrs) : Csrs :=
  mkCsrs (mhartid c) (mstatus c) (mepc c) (sstatus c) (sip c) (sie c) (mie c) v (medeleg c) (mideleg c) (stvec c)
    (mtvec c) (pmpcfg0 c) (pmpaddr0 c) (satp c) (mscratch c) (scause c) (stval c).
Definition set_deleg (e i : Z) (c : Csrs) : Csrs :=
  mkCsrs (mhartid c) (mstatus c) (mepc c) (sstatus c) (sip c) (sie c) (mie c) (sepc c) e i (stvec c)
    (mtvec c) (pmpcfg0 c) (pmpaddr0 c) (satp c) (mscratch c) (scause c) (stval c).
Definition set_vecs (s m : Z) (c : Csrs) : Csrs :=
  mkCsrs (mhartid c) (mstatus c) (mepc c) (sstatus c) (sip c) (sie c) (mie c) (sepc c) (medeleg c) (mideleg c) s
    m (pmpcfg0 c) (pmpaddr0 c) (satp c) (mscratch c) (scause c) (stval c).
Definition set_pmpregs (cfg a : Z) (c : Csrs) : Csrs :=
  mkCsrs (mhartid c) (mstatus c) (mepc c) (sstatus c) (sip c) (sie c) (mie c) (sepc c) (medeleg c) (mideleg c) (stvec c)
    (mtvec c) cfg a (satp c) (mscratch c) (scause c) (stval c).
Definition set_satp (v : Z) (c : Csrs) : Csrs :=
  mkCsrs (mhartid c) (mstatus c) (mepc c) (sstatus c) (sip c) (sie c) (mie c) (sepc c) (medeleg c) (mideleg c) (stvec c)
    (mtvec c) (pmpcfg0 c) (pmpaddr0 c) v (mscratch c) (scause c) (stval c).
Definition set_mscratch (v : Z) (c : Csrs) : Csrs :=
  mkCsrs (mhartid c) (mstatus c) (mepc c) (sstatus c) (sip c) (sie c) (mie c) (sepc c) (medeleg c) (mideleg c) (stvec c)
    (mtvec c) (pmpcfg0 c) (pmpaddr0 c) (satp c) v (scause c) (stval c).

(** [csrs] and [csrc] *)
Definition bits_set (v bits : Z) : Z := Z.lor v bits.
Definition bits_clear (v bits : Z) : Z := Z.land v (usize_not bits).

(** *** [mstatus] *)
Definition MPP_MASK : Z := Z.shiftl 3 11.
Definition MIE : Z := Z.shiftl 1 3.
Inductive MPP := MPMachine | MPSupervisor | MPUser.
Definition mpp_code (m : MPP) : Z := match m with MPMachine => 3 | MPSupervisor => 1 | MPUser => 0 end.

Definition set_mpp (m : MPP) (c : Csrs) : Csrs :=
  let value := Z.land (mstatus c) (usize_not MPP_MASK) in
  let value := Z.lor value (Z.shiftl (mpp_code m) 11) in
  set_mstatus value c.
Definition set_mie (c : Csrs) : Csrs := set_mstatus (bits_set (mstatus c) MIE) c.

(** *** [sstatus] *)
Definition SPP_BIT : Z := Z.shiftl 1 8.
Definition SPIE : Z := Z.shiftl 1 5.
Definition SIE : Z := Z.shiftl 1 1.
Inductive SPP := SPSupervisor | SPUser.

#[export] Instance SPP_eq_dec : EqDecision SPP.
Proof. solve_decision. Defined.

Definition sst_sie (bits : Z) : bool := negb (Z.land bits SIE =? 0).
Definition sst_spp (bits : Z) : SPP := if Z.land bits SPP_BIT =? 0 then SPUser else SPSupervisor.
Definition sst_restore (bits : Z) (c : Csrs) : Csrs := set_sstatus bits c.
Definition set_sie (c : Csrs) : Csrs := set_sstatus (bits_set (sstatus c) SIE) c.
Definition clear_sie (c : Csrs) : Csrs := set_sstatus (bits_clear (sstatus c) SIE) c.
Definition set_spie (c : Csrs) : Csrs := set_sstatus (bits_set (sstatus c) SPIE) c.
Definition set_spp (s : SPP) (c : Csrs) : Csrs :=
  match s with
  | SPSupervisor => set_sstatus (bits_set (sstatus c) SPP_BIT) c
  | SPUser => set_sstatus (bits_clear (sstatus c) SPP_BIT) c
  end.

Definition intr_on : Csrs → Csrs := set_sie.
Definition intr_off : Csrs → Csrs := clear_sie.
Definition intr_get (c : Csrs) : bool := sst_sie (sstatus c).

(** *** Interrupt pending and enable, delegation *)
Definition SSIP : Z := Z.shiftl 1 1.
Definition clear_ssoft (c : Csrs) : Csrs := set_sip (bits_clear (sip c) SSIP) c.
Definition SEIE : Z := Z.shiftl 1 9.
Definition STIE : Z := Z.shiftl 1 5.
Definition SSIE : Z := Z.shiftl 1 1.
Definition set_sext (c : Csrs) : Csrs := set_sie_reg (bits_set (sie c) SEIE) c.
Definition set_stimer (c : Csrs) : Csrs := set_sie_reg (bits_set (sie c) STIE) c.
Definition set_ssoft (c : Csrs) : Csrs := set_sie_reg (bits_set (sie c) SSIE) c.
Definition MTIE : Z := Z.shiftl 1 7.
Definition set_mtimer (c : Csrs) : Csrs := set_mie_reg (bits_set (mie c) MTIE) c.
Definition medeleg_set_all (c : Csrs) : Csrs := set_deleg 65535 (mideleg c) c.
Definition mideleg_set_all (c : Csrs) : Csrs := set_deleg (medeleg c) 65535 c.

(** *** Trap vectors *)
Inductive TrapMode := Direct | Vectored.
Definition mode_code (m : TrapMode) : Z := match m with Direct => 0 | Vectored => 1 end.
Definition stvec_write (addr : Z) (m : TrapMode) (c : Csrs) : outcome Csrs :=
  v ← checked_add addr (mode_code m); Done (set_vecs v (mtvec c) c).
Definition mtvec_write (addr : Z) (m : TrapMode) (c : Csrs) : outcome Csrs :=
  v ← checked_add addr (mode_code m); Done (set_vecs (stvec c) v c).

(** *** Physical memory protection *)
Inductive Permission := PNone | PR | PW | PRW | PX | PRX | PWX | PRWX.
Definition perm_code (p : Permission) : Z :=
  match p with PNone => 0 | PR => 1 | PW => 2 | PRW => 3 | PX => 4 | PRX => 5 | PWX => 6 | PRWX => 7 end.
Inductive Range := OFF | TOR | NA4 | NAPOT.
Definition range_code (r : Range) : Z := match r with OFF => 0 | TOR => 1 | NA4 => 2 | NAPOT => 3 end.
Definition set_pmp (index : Z) (r : Range) (p : Permission) (locked : bool) (c : Csrs) : outcome Csrs :=
  if decide (index < 8) then
    let byte := Z.lor (Z.lor (Z.shiftl (if locked then 1 else 0) 7) (Z.shiftl (range_code r) 3)) (perm_code p) in
    Done (set_pmpregs (Z.lor (pmpcfg0 c) (Z.shiftl byte (8 * index))) (pmpaddr0 c) c)
  else Panic "assertion failed: index < 8".
Definition pmpaddr0_write (v : Z) (c : Csrs) : Csrs := set_pmpregs (pmpcfg0 c) v c.

(** *** [satp] *)
Inductive Mode := Bare | Sv39 | Sv48 | Sv57 | Sv64.
Definition satp_mode (m : Mode) : Z := match m with Bare => 0 | Sv39 => 8 | Sv48 => 9 | Sv57 => 10 | Sv64 => 11 end.
Definition satp_make (m : Mode) (asid ppn : Z) : Z :=
  Z.lor (Z.lor (wrap64 (Z.shiftl (satp_mode m) 60)) (wrap64 (Z.shiftl asid 44))) (Z.shiftr ppn 12).

(** *** [scause] *)
Inductive Interrupt :=
  | UserSoft | SupervisorSoft | UserTimer | SupervisorTimer | UserExternal | SupervisorExternal | IUnknown.
Inductive Exception :=
  | InstructionMisaligned | InstructionFault | IllegalInstruction | Breakpoint | LoadFault | StoreMisaligned
  | StoreFault | UserEnvCall | InstructionPageFault | LoadPageFault | StorePageFault | EUnknown.
Inductive Trap_ := TInterrupt (i : Interrupt) | TException (e : Exception).

Definition interrupt_from (nr : Z) : Interrupt :=
  match nr with
  | 0 => UserSoft | 1 => SupervisorSoft | 4 => UserTimer | 5 => SupervisorTimer | 8 => UserExternal
  | 9 => SupervisorExternal | _ => IUnknown
  end.
Definition exception_from (nr : Z) : Exception :=
  match nr with
  | 0 => InstructionMisaligned | 1 => InstructionFault | 2 => IllegalInstruction | 3 => Breakpoint
  | 5 => LoadFault | 6 => StoreMisaligned | 7 => StoreFault | 8 => UserEnvCall
  | 12 => InstructionPageFault | 13 => LoadPageFault | 15 => StorePageFault | _ => EUnknown
  end.
Definition TOP_BIT : Z := Z.shiftl 1 (8 * 8 - 1).
Definition code (bits : Z) : Z := Z.land bits (usize_not TOP_BIT).
Definition is_interrupt (bits : Z) : bool := negb (Z.land bits TOP_BIT =? 0).
Definition is_exception (bits : Z) : bool := negb (is_interrupt bits).
Definition cause_of (bits : Z) : Trap_ :=
  if is_interrupt bits then TInterrupt (interrupt_from (code bits)) else TException (exception_from (code bits)).

(** ** Instructions *)
Inductive instr :=
  | Sd (src : string) (off : Z) (base : string)
  | Ld (dst : string) (off : Z) (base : string)
  | Addi (dst src : string) (imm : Z)
  | Add (dst a b : string)
  | Mul (dst a b : string)
  | Li (dst : string) (imm : Z)
  | Csrr (dst : string) (get : Csrs → Z)
  | Csrw_sip (src : string)
  | Csrrw_mscratch (dst src : string)
  | Call.

Record mach := mkMach { rg : string → Z; mm : gmap Z Z; cs : Csrs }.

Definition rset (r : string → Z) (x : string) (v : Z) : string → Z := λ y, if decide (y = x) then v else r y.
Definition set_rg (r : string → Z) (s : mach) : mach := mkMach r (mm s) (cs s).
Definition set_mm (m : gmap Z Z) (s : mach) : mach := mkMach (rg s) m (cs s).
Definition set_cs (c : Csrs) (s : mach) : mach := mkMach (rg s) (mm s) c.
Definition place (s : mach) (base : string) (off : Z) : Z := wrap64 (rg s base + off).

(** [call] is the function that [Call] runs. *)
Definition exec_instr (call : mach → outcome mach) (i : instr) (s : mach) : outcome mach :=
  match i with
  | Sd x off b => Done (set_mm (<[place s b off := rg s x]> (mm s)) s)
  | Ld x off b => match mm s !! place s b off with
                  | Some v => Done (set_rg (rset (rg s) x v) s)
                  | None => Fault (place s b off)
                  end
  | Addi x y imm => Done (set_rg (rset (rg s) x (wrap64 (rg s y + imm))) s)
  | Add x a b => Done (set_rg (rset (rg s) x (wrap64 (rg s a + rg s b))) s)
  | Mul x a b => Done (set_rg (rset (rg s) x (wrap64 (rg s a * rg s b))) s)
  | Li x imm => Done (set_rg (rset (rg s) x imm) s)
  | Csrr x get => Done (set_rg (rset (rg s) x (get (cs s))) s)
  | Csrw_sip x => Done (set_cs (set_sip (rg s x) (cs s)) s)
  | Csrrw_mscratch x y => Done (set_cs (set_mscratch (rg s y) (cs s)) (set_rg (rset (rg s) x (mscratch (cs s))) s))
  | Call => call s
  end.

Fixpoint run (call : mach → outcome mach) (p : list instr) (s : mach) : outcome mach :=
  match p with
  | [] => Done s
  | i :: p => s1 ← exec_instr call i s; run call p s1
  end.

Definition no_call (s : mach) : outcome mach := Panic "no function".

(** ** [kernelvec] *)
Definition kernelvec_saved : list (string * Z) :=
  [("ra", 0); ("sp", 8); ("gp", 16); ("tp", 24); ("t0", 32); ("t1", 40); ("t2", 48); ("s0", 56); ("s1", 64);
   ("a0", 72); ("a1", 80); ("a2", 88); ("a3", 96); ("a4", 104); ("a5", 112); ("a6", 120); ("a7", 128);
   ("s2", 136); ("s3", 144); ("s4", 152); ("s5", 160); ("s6", 168); ("s7", 176); ("s8", 184); ("s9", 192);
   ("s10", 200); ("s11", 208); ("t3", 216); ("t4", 224); ("t5", 232); ("t6", 240)]%string.
Definition kernelvec_restored : list (string * Z) :=
  [("ra", 0); ("sp", 8); ("gp", 16); ("t0", 32); ("t1", 40); ("t2", 48); ("s0", 56); ("s1", 64);
   ("a0", 72); ("a1", 80); ("a2", 88); ("a3", 96); ("a4", 104); ("a5", 112); ("a6", 120); ("a7", 128);
   ("s2", 136); ("s3", 144); ("s4", 152); ("s5", 160); ("s6", 168); ("s7", 176); ("s8", 184); ("s9", 192);
   ("s10", 200); ("s11", 208); ("t3", 216); ("t4", 224); ("t5", 232); ("t6", 240)]%string.
Definition saves (base : string) (l : list (string * Z)) : list instr := (λ p, Sd p.1 p.2 base) <$> l.
Definition loads (base : string) (l : list (string * Z)) : list instr := (λ p, Ld p.1 p.2 base) <$> l.

Definition kernelvec : list instr :=
  [Addi "sp" "sp" (-256)]%string ++ saves "sp" kernelvec_saved ++ [Call] ++
  loads "sp" kernelvec_restored ++ [Addi "sp" "sp" 256]%string.

(** ** [timervec] *)
Definition timervec : list instr :=
  [Csrrw_mscratch "a0" "a0"; Sd "a1" 0 "a0"; Sd "a2" 8 "a0"; Sd "a3" 16 "a0";
   Ld "a1" 24 "a0"; Ld "a2" 32 "a0"; Ld "a3" 0 "a1"; Add "a3" "a3" "a2"; Sd "a3" 0 "a1";
   Li "a1" 2; Csrw_sip "a1";
   Ld "a3" 16 "a0"; Ld "a2" 8 "a0"; Ld "a1" 0 "a0"; Csrrw_mscratch "a0" "a0"]%string.

(** ** [swtch]: the compiler chooses the registers that hold the two contexts *)
Definition context_regs : list (string * Z) :=
  [("ra", 0); ("sp", 8); ("s0", 16); ("s1", 24); ("s2", 32); ("s3", 40); ("s4", 48); ("s5", 56); ("s6", 64);
   ("s7", 72); ("s8", 80); ("s9", 88); ("s10", 96); ("s11", 104)]%string.
Definition swtch (old new : string) : list instr := saves old context_regs ++ loads new context_regs.

(** ** Boot *)

(** [_entry]: the stack of the hart; [STACK0] is where the linker puts it. *)
Definition entry (STACK0 : Z) : list instr :=
  [Li "sp" STACK0; Li "a0" (4096 * 4); Csrr "a1" mhartid; Addi "a1" "a1" 1; Mul "a0" "a0" "a1";
   Add "sp" "sp" "a0"]%string.

Definition NCPU : Z := 8.
Definition CLINT : Z := 33554432.
Definition clint_mtimecmp (hartid : Z) : outcome Z :=
  a ← checked_mul 8 hartid; checked_add (CLINT + 16384) a.
Definition CLINT_MTIME : Z := CLINT + 49144.

Section start.
(** Addresses the linker fixes: [main], [timervec], the array of scratch areas. *)
Variables (main timervec_at TIMER_SCRATCH : Z).

Definition mread (m : gmap Z Z) (a : Z) : outcome Z := match m !! a with Some v => Done v | None => Fault a end.

Definition timerinit (m : gmap Z Z) (c : Csrs) : outcome (gmap Z Z * Csrs) :=
  let id := mhartid c in
  let interval := 1000000 in
  mtimecmp ← clint_mtimecmp id;
  t ← mread m CLINT_MTIME;
  t1 ← checked_add t interval;
  let m := <[mtimecmp := t1]> m in
  if decide (id < NCPU) then
    let scratch := TIMER_SCRATCH + 40 * id in
    let m := <[scratch + 24 := mtimecmp]> m in
    let m := <[scratch + 32 := interval]> m in
    let c := set_mscratch scratch c in
    c ← mtvec_write timervec_at Direct c;
    Done (m, set_mtimer (set_mie c))
  else Panic "index out of bounds".

(** [start] up to [mret]: the control registers, memory, and [tp]. *)
Definition start (m : gmap Z Z) (c : Csrs) : outcome (gmap Z Z * Csrs * Z) :=
  let c := set_mpp MPSupervisor c in
  let c := set_mepc main c in
  let c := set_satp 0 c in
  let c := mideleg_set_all (medeleg_set_all c) in
  let c := set_stimer (set_ssoft (set_sext c)) in
  let c := pmpaddr0_write 18014398509481983 c in
  c ← set_pmp 0 TOR PRWX false c;
  '(m, c) ← timerinit m c;
  Done (m, c, mhartid c).
End start.

(** ** The interrupt controller: the words written, and the claim *)
Definition PLIC_PRIORITY : Z := PLIC.
Definition PLIC_SENABLE (hart : Z) : Z := PLIC + 8320 + hart * 256.
Definition PLIC_SPRIORITY (hart : Z) : Z := PLIC + 2101248 + hart * 8192.
Definition PLIC_SCLAIM (hart : Z) : Z := PLIC + 2101252 + hart * 8192.

Definition plic_init : list (Z * Z) := [(PLIC_PRIORITY + 4 * UART0_IRQ, 1); (PLIC_PRIORITY + 4 * VIRTIO0_IRQ, 1)].
Definition plic_inithart (hart : Z) : list (Z * Z) :=
  [(PLIC_SENABLE hart, Z.lor (Z.shiftl 1 UART0_IRQ) (Z.shiftl 1 VIRTIO0_IRQ)); (PLIC_SPRIORITY hart, 0)].
(** [dev] is what the device answers to a read. *)
Definition claim (dev : Z → Z) (hart : Z) : option Z :=
  let irq := dev (PLIC_SCLAIM hart) in if decide (irq = 0) then None else Some irq.
Definition complete (hart irq : Z) : Z * Z := (PLIC_SCLAIM hart, irq).

(** ** Traps on the registers *)

(** The causes that [trap.rs] tells apart. *)
Definition trap_cause (bits : Z) : Trap.cause :=
  match cause_of bits with
  | TException UserEnvCall => Trap.UserEnvCall
  | TException _ => Trap.OtherException (code bits)
  | TInterrupt SupervisorSoft => Trap.SupervisorSoft
  | TInterrupt SupervisorExternal => Trap.SupervisorExternal
  | TInterrupt _ => Trap.OtherInterrupt (code bits)
  end.

#[export] Instance action_eq_dec : EqDecision action.
Proof. solve_decision. Defined.

Section traps.
(** Where the linker put [kernelvec], and [uservec] and [userret] within the
    trampoline page. *)
Variables (kernelvec_at uservec_off userret_off usertrap_at : Z).

Definition inithart (c : Csrs) : outcome Csrs := stvec_write kernelvec_at Direct c.

(** [usertrap]: the assertions, the vector of the kernel, and the actions;
    [dev] is the interrupt controller, [hart] the cpu. *)
Definition usertrap_entry (c : Csrs) (dev : Z → Z) (hart : Z) (killed0 killed1 : bool) : outcome (Csrs * list action) :=
  if decide (sst_spp (sstatus c) = SPUser) then
    if intr_get c then Panic "kerneltrap: interrupts enabled"
    else
      c1 ← stvec_write kernelvec_at Direct c;
      Done (c1, Trap.usertrap (sepc c1) (trap_cause (scause c1)) (claim dev hart) hart killed0 killed1)
  else Panic "usertrap: not from user mode".

(** [usertrap_ret] on the registers and the trapframe; [user_satp] is that of
    the process.  The last results are the address it jumps to and its
    argument. *)
Definition usertrap_ret (c : Csrs) (tf : frame) (kstack hart user_satp : Z) : outcome (Csrs * frame * Z * Z) :=
  let c := intr_off c in
  c ← stvec_write (TRAMPOLINE + uservec_off) Direct c;
  sp ← checked_add kstack PGSIZE;
  let tf := set_field (set_field (set_field (set_field tf "kernel_satp" (satp c)) "kernel_sp" sp)
              "kernel_trap" usertrap_at) "kernel_hartid" hart in
  let c := set_spie (set_spp SPUser c) in
  match get_field tf "epc" with
  | None => Fault 24
  | Some epc => Done (set_sepc epc c, tf, TRAMPOLINE + userret_off, user_satp)
  end.

(** [kerneltrap]: [during] is what the handlers and other threads do to the
    registers before it ends. *)
Definition kerneltrap_entry (c : Csrs) (dev : Z → Z) (hart : Z) (running : bool) (during : Csrs → Csrs)
    : outcome (Csrs * list action) :=
  let sepc0 := sepc c in
  let sstatus0 := sstatus c in
  if decide (sst_spp sstatus0 = SPSupervisor) then
    if intr_get c then Panic "kerneltrap: interrupts enabled"
    else
      let acts := Trap.kerneltrap (trap_cause (scause c)) (claim dev hart) hart running in
      if decide (APanic ∈ acts) then Panic "kerneltrap"
      else Done (sst_restore sstatus0 (set_sepc sepc0 (during c)), acts)
  else Panic "not from supervisor mode".
End traps.
