(* ===== verification/MachineSpec.v ===== *)
(** * Correctness of the registers, boot and assembly of [Machine]

    Bits of the status registers; a trap from user mode and its return, and an
    interrupt in the kernel, composed with what the hart does at a trap and at
    [sret]; [kernelvec] and [swtch] keep the registers; the timer that [start]
    arms goes off at every interval for ever. *)

From S2P Require Import Prelude Vm Trap Machine.

Open Scope Z_scope.


(** ** Bits *)
Lemma testbit_usize_not i j :
  0 ≤ i < 64 → 0 ≤ j → Z.testbit (usize_not (Z.shiftl 1 i)) j = bool_decide (j < 64) && negb (bool_decide (i = j)).
Proof.
  intros Hi Hj. unfold usize_not. change (usize_mod - 1) with (Z.ones 64).
  rewrite Z.sub_nocarry_ldiff.
  - rewrite Z.ldiff_spec, testbit_shiftl_1 by lia. f_equal.
    destruct (decide (j < 64)); [rewrite bool_decide_true by done; apply Z.ones_spec_low; lia|].
    rewrite bool_decide_false by done. apply Z.ones_spec_high. lia.
  - apply Z.ldiff_ones_r_low; rewrite Z.shiftl_1_l; [apply Z.pow_nonneg; lia|].
    rewrite Z.log2_pow2 by lia. lia.
Qed.

Lemma bits_set_test v i j : 0 ≤ j → Z.testbit (bits_set v (Z.shiftl 1 i)) j = Z.testbit v j || bool_decide (i = j).
Proof. apply testbit_lor_set. Qed.

Lemma bits_clear_test v i j :
  0 ≤ i < 64 → 0 ≤ j < 64 →
  Z.testbit (bits_clear v (Z.shiftl 1 i)) j = Z.testbit v j && negb (bool_decide (i = j)).
Proof.
  intros Hi Hj. unfold bits_clear. rewrite Z.land_spec, testbit_usize_not by lia.
  by rewrite (bool_decide_true (j < 64)) by lia.
Qed.

Lemma sst_sie_bit v : sst_sie v = Z.testbit v 1.
Proof. unfold sst_sie, SIE. by apply land_pow2_nonzero. Qed.

Lemma sst_spp_bit v : sst_spp v = if Z.testbit v 8 then SPSupervisor else SPUser.
Proof.
  unfold sst_spp, SPP_BIT. rewrite <-(land_pow2_nonzero v 8) by lia.
  by destruct (Z.land v (Z.shiftl 1 8) =? 0).
Qed.

(** ** The hart at a trap and at [sret] *)
Definition put_bit (v i : Z) (b : bool) : Z :=
  if b then bits_set v (Z.shiftl 1 i) else bits_clear v (Z.shiftl 1 i).

Lemma put_bit_test v i b j :
  0 ≤ i < 64 → 0 ≤ j < 64 → Z.testbit (put_bit v i b) j = if decide (i = j) then b else Z.testbit v j.
Proof.
  intros Hi Hj. unfold put_bit. destruct b; [rewrite bits_set_test by lia|rewrite bits_clear_test by lia];
    case_decide; subst; rewrite ?bool_decide_true, ?bool_decide_false by done;
    by rewrite ?orb_true_r, ?orb_false_r, ?andb_false_r, ?andb_true_r.
Qed.

Definition set_scause (v : Z) (c : Csrs) : Csrs :=
  mkCsrs (mhartid c) (mstatus c) (mepc c) (sstatus c) (sip c) (sie c) (mie c) (sepc c) (medeleg c) (mideleg c)
    (stvec c) (mtvec c) (pmpcfg0 c) (pmpaddr0 c) (satp c) (mscratch c) v (stval c).

(** A trap taken to supervisor mode from the mode [from]: the previous mode
    and interrupt bit are kept in [SPP] and [SPIE], interrupts go off. *)
Definition trap_in (from : SPP) (pc bits : Z) (c : Csrs) : Csrs :=
  let v := put_bit (sstatus c) 8 (bool_decide (from = SPSupervisor)) in
  let v := put_bit v 5 (sst_sie (sstatus c)) in
  set_scause bits (set_sepc pc (set_sstatus (put_bit v 1 false) c)).

(** [sret]: the mode it returns to and the registers then. *)
Definition sret (c : Csrs) : SPP * Csrs :=
  let v := put_bit (sstatus c) 1 (Z.testbit (sstatus c) 5) in
  (sst_spp (sstatus c), set_sstatus (put_bit (put_bit v 5 true) 8 false) c).

#[local] Arguments put_bit : simpl never.
#[local] Arguments sst_sie : simpl never.
#[local] Arguments sst_spp : simpl never.
#[local] Arguments bits_set : simpl never.
#[local] Arguments bits_clear : simpl never.
#[local] Arguments Z.testbit : simpl never.

Ltac bit_solve :=
  repeat first
    [ rewrite sst_sie_bit | rewrite sst_spp_bit | rewrite put_bit_test by lia
    | rewrite bits_set_test by lia | rewrite bits_clear_test by lia ].

Lemma trap_in_spp from pc bits c : sst_spp (sstatus (trap_in from pc bits c)) = from.
Proof. cbn. bit_solve. by destruct from. Qed.

Lemma trap_in_off from pc bits c : intr_get (trap_in from pc bits c) = false.
Proof. unfold intr_get. cbn. bit_solve. done. Qed.

Lemma trap_in_sret from pc bits c :
  (sret (trap_in from pc bits c)).1 = from ∧ intr_get (sret (trap_in from pc bits c)).2 = intr_get c.
Proof.
  split; [apply trap_in_spp|]. unfold intr_get. cbn. bit_solve. done.
Qed.

(** [intr_on], [intr_off] and [set_spp] do what their readers see, and only that. *)
Lemma intr_switch c :
  intr_get (intr_on c) = true ∧ intr_get (intr_off c) = false ∧
  sst_spp (sstatus (intr_on c)) = sst_spp (sstatus c) ∧ sst_spp (sstatus (intr_off c)) = sst_spp (sstatus c) ∧
  ∀ s, sst_spp (sstatus (set_spp s c)) = s ∧ intr_get (set_spp s c) = intr_get c.
Proof.
  unfold intr_get, intr_on, intr_off, set_sie, clear_sie, SIE. cbn. split_and!.
  1-4: bit_solve; by destruct (Z.testbit (sstatus c) _).
  intros []; unfold set_spp, SPP_BIT; cbn; split; bit_solve; by destruct (Z.testbit (sstatus c) _).
Qed.

(** ** Decoding the cause *)
Lemma code_small n : 0 ≤ n < 2 ^ 63 → code n = n ∧ is_interrupt n = false.
Proof.
  intros Hn. assert (Hb : ∀ j, 63 ≤ j → Z.testbit n j = false).
  { intros j Hj. rewrite <-(Z.mod_small n (2 ^ 63)) by lia. by apply Z.mod_pow2_bits_high; lia. }
  split.
  - apply Z.bits_inj'. intros j Hj. unfold code, TOP_BIT. change (8 * 8 - 1) with 63.
    rewrite Z.land_spec, testbit_usize_not by lia.
    destruct (decide (63 ≤ j)); [by rewrite Hb by done|].
    rewrite (bool_decide_true (j < 64)), (bool_decide_false (63 = j)) by lia. by rewrite andb_true_r.
  - unfold is_interrupt, TOP_BIT. change (8 * 8 - 1) with 63. rewrite land_pow2_nonzero by lia. by apply Hb.
Qed.

Lemma code_top n : 0 ≤ n < 2 ^ 63 → code (2 ^ 63 + n) = n ∧ is_interrupt (2 ^ 63 + n) = true.
Proof.
  intros Hn. pose proof (code_small n Hn) as [Hc Hi].
  assert (Hlor : 2 ^ 63 + n = Z.lor n (Z.shiftl 1 63)).
  { rewrite Z.add_comm, <-Z.shiftl_1_l. apply Z.add_nocarry_lor.
    unfold is_interrupt, TOP_BIT in Hi. by apply negb_false_iff, Z.eqb_eq in Hi. }
  rewrite Hlor. split.
  - rewrite <-Hc at 2. apply Z.bits_inj'. intros j Hj. unfold code, TOP_BIT. change (8 * 8 - 1) with 63.
    rewrite !Z.land_spec, testbit_lor_set, testbit_usize_not by lia.
    destruct (decide (63 = j)) as [->|Hne]; [by rewrite (bool_decide_true (j = j)), !andb_false_r by done|].
    by rewrite (bool_decide_false (63 = j)), orb_false_r by done.
  - unfold is_interrupt, TOP_BIT. change (8 * 8 - 1) with 63. rewrite land_pow2_nonzero, testbit_lor_set by lia.
    by rewrite bool_decide_true, orb_true_r.
Qed.

(** A cause with the top bit set is the interrupt of its number, one without
    it the exception of its number; every number decodes. *)
Theorem scause_decoding n :
  0 ≤ n < 2 ^ 63 →
  cause_of n = TException (exception_from n) ∧ cause_of (2 ^ 63 + n) = TInterrupt (interrupt_from n).
Proof.
  intros Hn. unfold cause_of.
  destruct (code_small n Hn) as [-> ->]. by destruct (code_top n Hn) as [-> ->].
Qed.

(** ** Traps *)
Section cycles.
Variables (kernelvec_at uservec_off userret_off usertrap_at : Z).

Lemma stvec_write_ok a c : a < usize_mod → stvec_write a Direct c = Done (set_vecs a (mtvec c) c).
Proof. intros Ha. unfold stvec_write. cbn [mode_code]. rewrite checked_add_ok by lia. cbn. by rewrite Z.add_0_r. Qed.

(** Every trap from user mode, whatever its cause, passes the assertions of
    [usertrap], which then sends further traps to [kernelvec]. *)
Lemma usertrap_entered pc bits c dev hart k0 k1 :
  kernelvec_at < usize_mod →
  ∃ c1, usertrap_entry kernelvec_at (trap_in SPUser pc bits c) dev hart k0 k1 =
          Done (c1, Trap.usertrap pc (trap_cause bits) (claim dev hart) hart k0 k1) ∧
        stvec c1 = kernelvec_at ∧ sepc c1 = pc ∧ intr_get c1 = false.
Proof.
  intros Hk. pose proof (trap_in_off SPUser pc bits c) as Hoff. unfold usertrap_entry.
  rewrite decide_True by apply trap_in_spp. rewrite Hoff, stvec_write_ok by done.
  eexists. split_and!; [reflexivity|done|done|exact Hoff].
Qed.

(** [usertrap_ret] leaves the kernel with interrupts off, traps going to
    [uservec], and [sret] leading to user mode at [epc] with interrupts on. *)
Lemma usertrap_ret_leaves c tf kstack hart user_satp epc :
  get_field tf "epc" = Some epc → kstack + Vm.PGSIZE < usize_mod → TRAMPOLINE + uservec_off < usize_mod →
  ∃ c1, usertrap_ret uservec_off userret_off usertrap_at c tf kstack hart user_satp =
          Done (c1, usertrap_ret_frame tf (satp c) kstack usertrap_at hart, TRAMPOLINE + userret_off, user_satp) ∧
        intr_get c1 = false ∧ stvec c1 = TRAMPOLINE + uservec_off ∧ sepc c1 = epc ∧
        (sret c1).1 = SPUser ∧ intr_get (sret c1).2 = true ∧ stvec (sret c1).2 = TRAMPOLINE + uservec_off.
Proof.
  intros Hepc Hk Hu. unfold usertrap_ret. rewrite stvec_write_ok by done. cbn [mbind outcome_bind].
  rewrite checked_add_ok by done. cbn [mbind outcome_bind]. cbn zeta.
  change (set_field (set_field (set_field (set_field tf _ _) _ _) _ _) _ _)
    with (usertrap_ret_frame tf (satp c) kstack usertrap_at hart).
  assert (Hepc' : get_field (usertrap_ret_frame tf (satp c) kstack usertrap_at hart) "epc" = Some epc).
  { rewrite <-Hepc. unfold usertrap_ret_frame, get_field, set_field. cbn. by simplify_map_eq. }
  rewrite Hepc'. eexists. split; [reflexivity|].
  unfold intr_get. cbn. unfold SIE, SPIE, SPP_BIT. cbn.
  split_and!; try done; bit_solve; cbn; by rewrite ?andb_false_r, ?orb_true_r.
Qed.

(** C36. From the kernel to user mode and back.  After [usertrap_ret] the hart
    runs in user mode at [epc] with interrupts on and traps going to the
    trampoline; when the process traps again, for any cause, [uservec] saves
    its registers and finds the kernel's stack, hart id, handler and page
    table as they were, and [usertrap] passes its assertions, gets the program
    counter of the trap and points traps at [kernelvec]. *)
Theorem user_mode_cycle c tf kstack hart user_satp epc (r : string → Z) pc bits dev k0 k1 :
  get_field tf "epc" = Some epc → kstack + Vm.PGSIZE < usize_mod →
  TRAMPOLINE + uservec_off < usize_mod → kernelvec_at < usize_mod →
  ∃ c1 tf1 c2,
    usertrap_ret uservec_off userret_off usertrap_at c tf kstack hart user_satp =
      Done (c1, tf1, TRAMPOLINE + userret_off, user_satp) ∧
    intr_get c1 = false ∧ sepc c1 = epc ∧
    (sret c1).1 = SPUser ∧ intr_get (sret c1).2 = true ∧ stvec (sret c1).2 = TRAMPOLINE + uservec_off ∧
    uservec_kernel (uservec_save r tf1) = (Some (kstack + Vm.PGSIZE), Some hart, Some usertrap_at, Some (satp c)) ∧
    usertrap_entry kernelvec_at (trap_in SPUser pc bits (sret c1).2) dev hart k0 k1 =
      Done (c2, Trap.usertrap pc (trap_cause bits) (claim dev hart) hart k0 k1) ∧
    stvec c2 = kernelvec_at ∧ intr_get c2 = false.
Proof.
  intros Hepc Hk Hu Hkv.
  destruct (usertrap_ret_leaves c tf kstack hart user_satp epc) as (c1 & Hret & H1 & _ & H3 & H4 & H5 & H6); [done..|].
  destruct (usertrap_entered pc bits (sret c1).2 dev hart k0 k1) as (c2 & He & Hv & _ & Hi); [done|].
  exists c1, (usertrap_ret_frame tf (satp c) kstack usertrap_at hart), c2. split_and!; try done.
  apply uservec_kernel_frame.
Qed.

(** An interrupt in the kernel is transparent.  Whatever the handlers and
    the threads that run in between do to the registers, [kerneltrap] ends with
    interrupts off and its [sret] returns to supervisor mode, at the
    interrupted instruction, with interrupts as they were; it panics exactly
    on the interrupts it does not know, and does not on exceptions. *)
Theorem kernel_interrupt_transparent c pc bits dev hart running during :
  match trap_cause bits with
  | Trap.OtherInterrupt _ =>
      kerneltrap_entry (trap_in SPSupervisor pc bits c) dev hart running during = Panic "kerneltrap"
  | cause =>
      ∃ c1, kerneltrap_entry (trap_in SPSupervisor pc bits c) dev hart running during =
              Done (c1, Trap.kerneltrap cause (claim dev hart) hart running) ∧
            sepc c1 = pc ∧ intr_get c1 = false ∧
            (sret c1).1 = SPSupervisor ∧ intr_get (sret c1).2 = intr_get c
  end.
Proof.
  pose proof (trap_in_off SPSupervisor pc bits c) as Hoff.
  pose proof (trap_in_sret SPSupervisor pc bits c) as [Hs1 Hs2].
  unfold kerneltrap_entry. cbn zeta. rewrite decide_True by apply trap_in_spp. rewrite Hoff.
  change (scause (trap_in SPSupervisor pc bits c)) with bits.
  destruct (trap_cause bits) eqn:Hb; [| | | |by rewrite decide_True by left].
  all: rewrite decide_False by (apply kerneltrap_no_panic; done); eexists; split_and!;
    [reflexivity|done|exact Hoff|exact Hs1|exact Hs2].
Qed.
End cycles.

(** ** Saving and loading registers *)
Lemma run_app call p q s : run call (p ++ q) s = (s1 ← run call p s; run call q s1).
Proof.
  revert s. induction p as [|i p IH]; intros s; [done|]. cbn.
  destruct (exec_instr call i s); cbn; [apply IH|done..].
Qed.

(** Memory after the words of [l] were stored at [base]. *)
Definition stored (base : Z) (r : string → Z) (l : list (string * Z)) (m : gmap Z Z) : gmap Z Z :=
  foldl (λ m p, <[wrap64 (base + p.2) := r p.1]> m) m l.

Lemma run_saves call b l s : run call (saves b l) s = Done (set_mm (stored (rg s b) (rg s) l (mm s)) s).
Proof.
  revert s. induction l as [|[x o] l IH]; intros s; [by destruct s|]. cbn. by rewrite IH.
Qed.

(** The places of [l] are distinct words of an area of memory. *)
Definition fits (base size : Z) (l : list (string * Z)) : Prop :=
  0 ≤ base ∧ base + size ≤ usize_mod ∧ Forall (λ p, 0 ≤ p.2 < size) l ∧ NoDup l.*2.

#[local] Arguments stored : simpl never.

Lemma stored_other base r l m a :
  Forall (λ p, wrap64 (base + p.2) ≠ a) l → stored base r l m !! a = m !! a.
Proof.
  revert m. induction l as [|[x o] l IH]; intros m Ha; [done|]. apply Forall_cons in Ha as [Hx Ha].
  change (stored base r ((x, o) :: l) m) with (stored base r l (<[wrap64 (base + o) := r x]> m)).
  rewrite IH by done. by rewrite lookup_insert_ne.
Qed.

Lemma stored_lookup base size r l m x o :
  fits base size l → (x, o) ∈ l → stored base r l m !! (base + o) = Some (r x).
Proof.
  intros (Hb & Hs & Hl & Hnd). revert m. induction l as [|[y q] l IH]; intros m Hin; [by apply not_elem_of_nil in Hin|].
  cbn in Hl, Hnd. apply Forall_cons in Hl as [Hq Hl]. apply NoDup_cons in Hnd as [Hni Hnd]. cbn in Hq.
  change (stored base r ((y, q) :: l) m) with (stored base r l (<[wrap64 (base + q) := r y]> m)).
  apply elem_of_cons in Hin as [[= -> ->]|Hin]; [|by apply IH].
  rewrite stored_other; [rewrite (wrap64_small (base + q)) by lia; by rewrite lookup_insert_eq|].
  rewrite Forall_forall in Hl |- *. intros [z p] Hz. pose proof (Hl _ Hz) as Hp. cbn in *. rewrite wrap64_small by lia.
  intros Heq. assert (p = q) as -> by lia. apply Hni. by apply (list_elem_of_fmap_2 snd _ (z, q)).
Qed.

(** Loading registers: [base] itself may be among them if it is loaded with
    the value it has. *)
Lemma run_loads call b l (v : string → Z) s :
  Forall (λ p, 0 ≤ rg s b + p.2 < usize_mod ∧ mm s !! (rg s b + p.2) = Some (v p.1)) l →
  (b ∈ l.*1 → v b = rg s b) →
  ∃ r, run call (loads b l) s = Done (set_rg r s) ∧
       (∀ x, x ∈ l.*1 → r x = v x) ∧ (∀ x, x ∉ l.*1 → r x = rg s x).
Proof.
  revert s. induction l as [|[x o] l IH]; intros s Hl Hb.
  - exists (rg s). split_and!; [by destruct s|set_solver|done].
  - apply Forall_cons in Hl as [[Ho Hm] Hl]. cbn in Ho, Hm, Hb.
    assert (Hkeep : rset (rg s) x (v x) b = rg s b).
    { unfold rset. case_decide as Hd; [|done]. subst. apply Hb. set_solver. }
    destruct (IH (set_rg (rset (rg s) x (v x)) s)) as (r & Hr & Hin & Hout).
    { cbn. by rewrite Hkeep. }
    { cbn. intros Hbl. rewrite Hkeep. apply Hb. set_solver. }
    exists r. split_and!.
    + cbn. unfold place. rewrite wrap64_small, Hm by done. cbn. exact Hr.
    + intros y Hy. cbn in Hy. destruct (decide (y ∈ l.*1)) as [Hyl|Hyl]; [by apply Hin|]. rewrite Hout by done.
      apply elem_of_cons in Hy as [->|?]; [|done]. cbn. unfold rset. by rewrite decide_True.
    + intros y Hy. cbn in Hy. apply not_elem_of_cons in Hy as [Hne Hy]. rewrite Hout by done.
      cbn. unfold rset. by rewrite decide_False.
Qed.

(** ** [kernelvec] *)

(** What [kernelvec] asks of the function it calls, as the calling convention
    gives it: it returns with the stack pointer it got, and does not write the
    frame of its caller.  Other registers and memory are free. *)
Definition keeps_frame (call : mach → outcome mach) : Prop :=
  ∀ s, ∃ s', call s = Done s' ∧ rg s' "sp" = rg s "sp" ∧
    ∀ a, rg s "sp" ≤ a < rg s "sp" + 256 → mm s' !! a = mm s !! a.

Lemma kernelvec_saved_fits base : 0 ≤ base → base + 256 ≤ usize_mod → fits base 256 kernelvec_saved.
Proof.
  intros H0 H1. split_and!; [done|done| |]; apply (bool_decide_unpack _); by vm_compute.
Qed.

Lemma kernelvec_restored_saved : kernelvec_restored ⊆ kernelvec_saved.
Proof. intros p. unfold kernelvec_restored, kernelvec_saved. set_solver. Qed.

(** An interrupt in the kernel loses no register.  [kernelvec] runs to its
    [sret] around any handler that follows the calling convention, whatever
    the handler does to the other registers; every register that is saved but
    [tp] then has its value from before the interrupt, and [tp], memory and
    control registers are the handler's (the thread may have moved to another
    cpu). *)
Theorem kernelvec_transparent call s :
  keeps_frame call → 256 ≤ rg s "sp" < usize_mod →
  ∃ s1 s2 s', call s1 = Done s2 ∧ cs s1 = cs s ∧
    run call kernelvec s = Done s' ∧
    (∀ x, x ∈ kernelvec_saved.*1 → x ≠ "tp" → rg s' x = rg s x) ∧
    rg s' "tp" = rg s2 "tp" ∧ mm s' = mm s2 ∧ cs s' = cs s2.
Proof.
  intros Hcall Hsp. set (base := rg s "sp" - 256).
  set (r1 := rset (rg s) "sp" base). set (s0 := set_rg r1 s).
  assert (H1 : run call [Addi "sp" "sp" (-256)]%string s = Done s0).
  { cbn. unfold s0, r1. by rewrite wrap64_small by lia. }
  set (s1 := set_mm (stored base r1 kernelvec_saved (mm s)) s0).
  destruct (Hcall s1) as (s2 & Hc & Hsp2 & Hfr). cbn in Hsp2, Hfr.
  change (r1 "sp") with base in Hsp2, Hfr.
  assert (Hfit : fits base 256 kernelvec_saved) by (apply kernelvec_saved_fits; lia).
  destruct (run_loads call "sp" kernelvec_restored r1 s2) as (r & Hr & Hin & Hout).
  { apply Forall_forall. intros [x o] Hx. apply kernelvec_restored_saved in Hx. cbn [fst snd]. rewrite Hsp2.
    pose proof (proj1 (Forall_forall _ _) (proj1 (proj2 (proj2 Hfit))) _ Hx) as Ho. cbn in Ho.
    split; [lia|]. rewrite Hfr by lia. by apply (stored_lookup _ 256). }
  { intros _. by rewrite Hsp2. }
  exists s1, s2, (set_rg (rset r "sp" (wrap64 (base + 256))) s2). split_and!; try done.
  - unfold kernelvec. rewrite run_app, H1. cbn [mbind outcome_bind]. rewrite run_app, run_saves. cbn [mbind outcome_bind].
    change (set_mm _ _) with s1. rewrite run_app. cbn [run exec_instr mbind outcome_bind]. rewrite Hc. cbn [mbind outcome_bind].
    rewrite run_app, Hr. cbn [mbind outcome_bind run exec_instr]. cbn [rg set_rg].
    rewrite (Hin "sp"%string) by (apply (bool_decide_unpack _); by vm_compute). done.
  - intros x Hx Hne. cbn. unfold rset at 1. case_decide as Hd; [subst x; rewrite wrap64_small; lia|].
    rewrite Hin; [unfold r1, rset; by rewrite decide_False|]. revert Hx Hne. clear.
    unfold kernelvec_saved, kernelvec_restored. cbn. set_solver.
  - cbn. unfold rset. rewrite decide_False by done. apply Hout. apply (bool_decide_unpack _). by vm_compute.
Qed.

(** ** [swtch] *)

(** The context at [a] holds the registers [w]. *)
Definition holds (a : Z) (w : string → Z) (m : gmap Z Z) : Prop :=
  Forall (λ p, m !! (a + p.2) = Some (w p.1)) context_regs.

Definition context_at (a : Z) : Prop := 0 ≤ a ∧ a + 112 ≤ usize_mod.
Definition apart (a b : Z) : Prop := a + 112 ≤ b ∨ b + 112 ≤ a.

Lemma context_fits a : context_at a → fits a 112 context_regs.
Proof. intros []. split_and!; [done|done| |]; apply (bool_decide_unpack _); by vm_compute. Qed.

Lemma context_offset p : p ∈ context_regs → 0 ≤ p.2 < 112.
Proof.
  assert (H : Forall (λ p, 0 ≤ p.2 < 112) context_regs) by (apply (bool_decide_unpack _); by vm_compute).
  rewrite Forall_forall in H. apply H.
Qed.

Lemma stored_holds a w m : context_at a → holds a w (stored a w context_regs m).
Proof.
  intros Ha. apply Forall_forall. intros [x o] Hx. by apply (stored_lookup _ 112); [apply context_fits|].
Qed.

Lemma stored_outside a w m k :
  context_at a → k < a ∨ a + 112 ≤ k → stored a w context_regs m !! k = m !! k.
Proof.
  intros [H0 H1] Hk. apply stored_other, Forall_forall. intros p Hp. pose proof (context_offset p Hp).
  rewrite wrap64_small by lia. lia.
Qed.

Lemma mem_holds_frame a w m m' :
  (∀ k, a ≤ k < a + 112 → m' !! k = m !! k) → holds a w m → holds a w m'.
Proof.
  intros Hm Hw. unfold holds in *. rewrite Forall_forall in *. intros p Hp. pose proof (context_offset p Hp).
  rewrite Hm by lia. by apply Hw.
Qed.

(** One switch: the context of the old thread has its registers, the registers
    are those of the new one; nothing else changes. *)
Lemma swtch_step call old new s w :
  old ∉ context_regs.*1 → new ∉ context_regs.*1 →
  context_at (rg s old) → context_at (rg s new) → apart (rg s old) (rg s new) →
  holds (rg s new) w (mm s) →
  ∃ s', run call (swtch old new) s = Done s' ∧
    (∀ x, x ∈ context_regs.*1 → rg s' x = w x) ∧ (∀ x, x ∉ context_regs.*1 → rg s' x = rg s x) ∧
    cs s' = cs s ∧ holds (rg s old) (rg s) (mm s') ∧
    ∀ k, k < rg s old ∨ rg s old + 112 ≤ k → mm s' !! k = mm s !! k.
Proof.
  intros Ho Hn Hao Han Hap Hw. unfold swtch. rewrite run_app, run_saves. cbn [mbind outcome_bind].
  destruct (run_loads call new context_regs w (set_mm (stored (rg s old) (rg s) context_regs (mm s)) s))
    as (r & Hr & Hin & Hout); cbn [rg mm set_mm] in *.
  - apply Forall_forall. intros p Hp. pose proof (context_offset p Hp). destruct Hao, Han.
    split; [lia|]. rewrite stored_outside; [|done|destruct Hap; lia].
    unfold holds in Hw. rewrite Forall_forall in Hw. by apply Hw.
  - done.
  - eexists. split; [exact Hr|]. split_and!; try done; cbn.
    + by apply stored_holds.
    + intros k Hk. by apply stored_outside.
Qed.

(** C37. A thread that is switched away comes back unchanged: after [swtch]
    saved it in its context and any code ran that leaves that context alone, a
    [swtch] to the context gives it back every callee-saved register, with its
    stack pointer and return address, and saves the thread that ran meanwhile. *)
Theorem swtch_roundtrip call old new old' new' s s1 s2 w :
  old ∉ context_regs.*1 → new ∉ context_regs.*1 → old' ∉ context_regs.*1 → new' ∉ context_regs.*1 →
  context_at (rg s old) → context_at (rg s new) → apart (rg s old) (rg s new) →
  holds (rg s new) w (mm s) →
  run call (swtch old new) s = Done s1 →
  (∀ k, rg s old ≤ k < rg s old + 112 → mm s2 !! k = mm s1 !! k) →
  rg s2 new' = rg s old → context_at (rg s2 old') → apart (rg s2 old') (rg s old) →
  (∀ x, x ∈ context_regs.*1 → rg s1 x = w x) ∧
  ∃ s3, run call (swtch old' new') s2 = Done s3 ∧
    (∀ x, x ∈ context_regs.*1 → rg s3 x = rg s x) ∧
    holds (rg s2 old') (rg s2) (mm s3) ∧ cs s3 = cs s2.
Proof.
  intros Ho Hn Ho' Hn' Ha Hb Hab Hw Hrun Hkeep Hback Hc Hca.
  destruct (swtch_step call old new s w) as (t & Ht & Hwt & _ & _ & Hsaved & _); [done..|].
  rewrite Hrun in Ht. injection Ht as <-. split; [done|].
  assert (H2 : holds (rg s2 new') (rg s) (mm s2)).
  { rewrite Hback. exact (mem_holds_frame _ _ (mm s1) (mm s2) Hkeep Hsaved). }
  rewrite <-Hback in Ha, Hca.
  destruct (swtch_step call old' new' s2 (rg s) Ho' Hn' Hc Ha Hca H2) as (s3 & H3 & Hr3 & _ & Hcs & Hs3 & _).
  exists s3. split_and!; assumption.
Qed.

(** ** The timer *)

(** The scratch area at [a] of this hart names the compare register at
    [cmp] and the interval, and the register holds the deadline [d]. *)
Definition armed (a cmp interval d : Z) (s : mach) : Prop :=
  mscratch (cs s) = a ∧ mm s !! (a + 24) = Some cmp ∧ mm s !! (a + 32) = Some interval ∧ mm s !! cmp = Some d.

Definition timer_layout (a cmp : Z) : Prop :=
  0 ≤ a ∧ a + 40 ≤ usize_mod ∧ 0 ≤ cmp < usize_mod ∧ (cmp < a ∨ a + 40 ≤ cmp).

Lemma rset_eq r x v : rset r x v x = v.
Proof. unfold rset. by rewrite decide_True. Qed.
Lemma rset_ne r x y v : y ≠ x → rset r x v y = r y.
Proof. intros H. unfold rset. by rewrite decide_False. Qed.

(** One instruction of a program. *)
Lemma run_cons call i p s s1 : exec_instr call i s = Done s1 → run call (i :: p) s = run call p s1.
Proof. intros H. cbn. by rewrite H. Qed.

Lemma run_ld call x o b p r m c a v :
  a = wrap64 (r b + o) → m !! a = Some v →
  run call (Ld x o b :: p) (mkMach r m c) = run call p (mkMach (rset r x v) m c).
Proof. intros -> Hm. apply run_cons. cbn. unfold place. cbn. by rewrite Hm. Qed.

Lemma run_sd call x o b p r m c a :
  a = wrap64 (r b + o) → run call (Sd x o b :: p) (mkMach r m c) = run call p (mkMach r (<[a := r x]> m) c).
Proof. intros ->. by apply run_cons. Qed.

(** Values of registers after a sequence of assignments. *)
Ltac regs := repeat first [rewrite rset_eq | rewrite rset_ne by done].
(** The next load or store of a program, at the address [a]. *)
Ltac other_instr := erewrite run_cons by reflexivity; unfold set_cs, set_rg, set_mm; cbn [rg mm cs]; regs.
Ltac store_at a := rewrite (run_sd _ _ _ _ _ _ _ _ a) by (regs; rewrite wrap64_small by lia; lia); regs.
Ltac load_at a :=
  erewrite (run_ld _ _ _ _ _ _ _ _ a);
  [|regs; rewrite wrap64_small by lia; lia
   |repeat first [rewrite lookup_insert_eq; reflexivity | rewrite lookup_insert_ne by lia]; eassumption].

(** A machine-mode timer interrupt moves the deadline on, raises the software
    interrupt of the supervisor, and changes no register. *)
Lemma timervec_tick call a cmp interval d s :
  timer_layout a cmp → armed a cmp interval d s →
  ∃ s', run call timervec s = Done s' ∧ armed a cmp interval (wrap64 (d + interval)) s' ∧
    (∀ x, rg s' x = rg s x) ∧ cs s' = set_sip 2 (cs s) ∧
    ∀ k, k ≠ cmp → k < a ∨ a + 24 ≤ k → mm s' !! k = mm s !! k.
Proof.
  intros (Ha & Ha40 & Hcmp & Hap) (Hs & H24 & H32 & Hd).
  destruct s as [r m c]. cbn in Hs, H24, H32, Hd. unfold timervec.
  other_instr. rewrite Hs.
  store_at a. store_at (a + 8). store_at (a + 16).
  load_at (a + 24). load_at (a + 32). load_at cmp.
  other_instr.
  store_at cmp.
  other_instr.
  other_instr.
  load_at (a + 16). load_at (a + 8). load_at a.
  other_instr. regs. cbn [run].
  eexists. split; [reflexivity|]. unfold armed. cbn [rg mm cs]. split_and!.
  - done.
  - by repeat (rewrite lookup_insert_ne by lia).
  - by repeat (rewrite lookup_insert_ne by lia).
  - by rewrite lookup_insert_eq.
  - intros x. unfold rset. by repeat case_decide; subst.
  - destruct c. cbn in *. by subst.
  - intros k Hk Hout. by repeat (rewrite lookup_insert_ne by lia).
Qed.

(** ** Boot *)
Section boot.
Variables (main timervec_at TIMER_SCRATCH : Z).

Lemma clint_mtimecmp_ok h : 0 ≤ h < NCPU → clint_mtimecmp h = Done (CLINT + 16384 + 8 * h).
Proof.
  unfold NCPU. intros Hh. unfold clint_mtimecmp, checked_mul. rewrite decide_True by lia.
  cbn [mbind outcome_bind]. rewrite checked_add_ok by (unfold CLINT; lia). done.
Qed.

(** Where [start] puts the scratch area of a hart, apart from the clock. *)
Definition boot_layout (h : Z) : Prop :=
  0 ≤ h < NCPU ∧ CLINT + 65536 ≤ TIMER_SCRATCH ∧ TIMER_SCRATCH + 40 * NCPU ≤ usize_mod ∧ timervec_at < usize_mod.

(** The registers with which [start] leaves machine mode for [main]. *)
Record booted (h : Z) (c : Csrs) : Prop := {
  boot_entry : mepc c = main;
  boot_mode : Z.testbit (mstatus c) 11 = true ∧ Z.testbit (mstatus c) 12 = false;
  boot_mie : Z.testbit (mstatus c) 3 = true ∧ Z.testbit (mie c) 7 = true ∧ mtvec c = timervec_at;
  boot_satp : satp c = 0;
  boot_deleg : medeleg c = 65535 ∧ mideleg c = 65535;
  boot_sie : Z.testbit (sie c) 1 = true ∧ Z.testbit (sie c) 5 = true ∧ Z.testbit (sie c) 9 = true;
  boot_pmp : pmpaddr0 c = 2 ^ 54 - 1 ∧ ∀ j, 0 ≤ j < 4 → Z.testbit (pmpcfg0 c) j = true;
  boot_scratch : mscratch c = TIMER_SCRATCH + 40 * h;
}.

(** The memory after [timerinit]. *)
Definition timer_words (h t : Z) (m : gmap Z Z) : gmap Z Z :=
  <[TIMER_SCRATCH + 40 * h + 32 := 1000000]>
    (<[TIMER_SCRATCH + 40 * h + 24 := CLINT + 16384 + 8 * h]> (<[CLINT + 16384 + 8 * h := t + 1000000]> m)).

Lemma timerinit_done m c h t :
  mhartid c = h → boot_layout h → m !! CLINT_MTIME = Some t → t + 1000000 < usize_mod →
  timerinit timervec_at TIMER_SCRATCH m c =
    Done (timer_words h t m,
          set_mtimer (set_mie (set_vecs (stvec c) timervec_at (set_mscratch (TIMER_SCRATCH + 40 * h) c)))).
Proof.
  intros <- (Hh & Hlo & Hhi & Htv) Ht Ht1. unfold timerinit. cbn zeta.
  rewrite clint_mtimecmp_ok by done. cbn [mbind outcome_bind].
  unfold mread. rewrite Ht. cbn [mbind outcome_bind]. rewrite checked_add_ok by done. cbn [mbind outcome_bind].
  rewrite (decide_True (P := mhartid c < NCPU)) by lia.
  unfold mtvec_write. cbn [mode_code]. rewrite checked_add_ok by lia. cbn [mbind outcome_bind].
  by rewrite Z.add_0_r.
Qed.

(** The control registers after [start]. *)
Definition boot_csrs (c : Csrs) : Csrs :=
  mkCsrs (mhartid c)
    (bits_set (Z.lor (Z.land (mstatus c) (usize_not MPP_MASK)) (Z.shiftl 1 11)) (Z.shiftl 1 3))
    main (sstatus c) (sip c)
    (bits_set (bits_set (bits_set (sie c) (Z.shiftl 1 9)) (Z.shiftl 1 1)) (Z.shiftl 1 5))
    (bits_set (mie c) (Z.shiftl 1 7)) (sepc c) 65535 65535 (stvec c) timervec_at
    (Z.lor (pmpcfg0 c) 15) (2 ^ 54 - 1) 0 (TIMER_SCRATCH + 40 * mhartid c) (scause c) (stval c).

Lemma set_pmp_open c : set_pmp 0 TOR PRWX false c = Done (set_pmpregs (Z.lor (pmpcfg0 c) 15) (pmpaddr0 c) c).
Proof. reflexivity. Qed.

(** The control registers when [start] calls [timerinit]. *)
Definition before_timer (c : Csrs) : Csrs :=
  set_pmpregs (Z.lor (pmpcfg0 c) 15) 18014398509481983
    (set_stimer (set_ssoft (set_sext (set_deleg 65535 65535 (set_satp 0 (set_mepc main (set_mpp MPSupervisor c))))))).

Lemma start_before m c :
  start main timervec_at TIMER_SCRATCH m c =
    ('(m, c) ← timerinit timervec_at TIMER_SCRATCH m (before_timer c); Done (m, c, mhartid c)).
Proof. unfold start. rewrite set_pmp_open. reflexivity. Qed.

Lemma before_timer_csrs c :
  set_mtimer (set_mie (set_vecs (stvec c) timervec_at (set_mscratch (TIMER_SCRATCH + 40 * mhartid c) (before_timer c)))) =
  boot_csrs c.
Proof. destruct c. reflexivity. Qed.

Lemma start_done m c t :
  boot_layout (mhartid c) → m !! CLINT_MTIME = Some t → t + 1000000 < usize_mod →
  start main timervec_at TIMER_SCRATCH m c = Done (timer_words (mhartid c) t m, boot_csrs c, mhartid c).
Proof.
  intros Hl Ht Ht1. rewrite start_before.
  rewrite (timerinit_done m (before_timer c) (mhartid c) t eq_refl Hl Ht Ht1).
  cbn [mbind outcome_bind]. change (stvec (before_timer c)) with (stvec c).
  by rewrite before_timer_csrs.
Qed.

Lemma boot_csrs_booted c : booted (mhartid c) (boot_csrs c).
Proof.
  split; cbn; try done.
  - rewrite !bits_set_test, !Z.land_spec by lia. split; by destruct (Z.testbit (mstatus c) _).
  - rewrite !bits_set_test by lia. split_and!; [by destruct (Z.testbit _ 3)|by destruct (Z.testbit _ 7)|done].
  - split_and!; rewrite !bits_set_test by lia; by destruct (Z.testbit (sie c) _).
  - split; [done|]. intros j Hj. rewrite Z.lor_spec.
    assert (j = 0 ∨ j = 1 ∨ j = 2 ∨ j = 3) as [-> | [-> | [-> | ->]]] by lia; by rewrite orb_true_r.
Qed.

(** ** The clock after boot *)

(** The machine as time passes: the timer interrupts [n] times, and in
    between other code runs that leaves the scratch area and the compare
    register of this hart alone. *)
Inductive ticking (h : Z) (s0 : mach) : nat → mach → Prop :=
  | ticking_boot : ticking h s0 0 s0
  | ticking_tick n s s' : ticking h s0 n s → run no_call timervec s = Done s' → ticking h s0 (S n) s'
  | ticking_other n s s' :
      ticking h s0 n s → mscratch (cs s') = mscratch (cs s) →
      (∀ k, k = CLINT + 16384 + 8 * h ∨ TIMER_SCRATCH + 40 * h + 24 ≤ k < TIMER_SCRATCH + 40 * h + 40 →
            mm s' !! k = mm s !! k) →
      ticking h s0 n s'.

Lemma boot_timer_layout h : boot_layout h → timer_layout (TIMER_SCRATCH + 40 * h) (CLINT + 16384 + 8 * h).
Proof. unfold boot_layout, timer_layout, NCPU, CLINT. lia. Qed.

Lemma booted_armed r m c h t :
  boot_layout h → booted h c →
  armed (TIMER_SCRATCH + 40 * h) (CLINT + 16384 + 8 * h) 1000000 (t + 1000000) (mkMach r (timer_words h t m) c).
Proof.
  intros Hl Hb. pose proof (boot_timer_layout h Hl) as (H0 & H1 & H2 & H3). unfold armed, timer_words. cbn.
  split_and!; [by apply boot_scratch| | |].
  - rewrite lookup_insert_ne by lia. by rewrite lookup_insert_eq.
  - by rewrite lookup_insert_eq.
  - rewrite !lookup_insert_ne by lia. by rewrite lookup_insert_eq.
Qed.

Lemma ticking_armed h s0 d n s :
  boot_layout h → 0 ≤ d →
  armed (TIMER_SCRATCH + 40 * h) (CLINT + 16384 + 8 * h) 1000000 d s0 →
  ticking h s0 n s → d + Z.of_nat n * 1000000 < usize_mod →
  armed (TIMER_SCRATCH + 40 * h) (CLINT + 16384 + 8 * h) 1000000 (d + Z.of_nat n * 1000000) s.
Proof.
  intros Hl Hd H0 Ht. induction Ht as [|n s s' Ht IH Hrun|n s s' Ht IH Hsc Hkeep]; intros Hn.
  - by rewrite Z.add_0_r.
  - specialize (IH ltac:(lia)).
    destruct (timervec_tick no_call _ _ _ _ _ (boot_timer_layout h Hl) IH) as (s1 & Hs1 & Ha & _).
    rewrite Hrun in Hs1. injection Hs1 as <-. rewrite wrap64_small in Ha by lia.
    by replace (d + Z.of_nat (S n) * 1000000) with (d + Z.of_nat n * 1000000 + 1000000) by lia.
  - destruct (IH Hn) as (H1 & H2 & H3 & H4). unfold armed. split_and!; [congruence|..].
    + by rewrite Hkeep by (right; lia).
    + by rewrite Hkeep by (right; lia).
    + by rewrite Hkeep by (left; lia).
Qed.

(** Boot and the clock.  [start] ends: it leaves machine mode for [main]
    in supervisor mode, without paging, with every trap delegated, all of
    memory open, the machine timer enabled and [tp] the hart id; and however
    the kernel then runs, as long as it leaves the hart's scratch area alone,
    the deadline of the clock after [n] timer interrupts is [n + 1] intervals
    after the time of boot, and the next timer interrupt runs through,
    raises the software interrupt of the supervisor and changes no register. *)
Theorem boot_clock m c t :
  boot_layout (mhartid c) → m !! CLINT_MTIME = Some t → 0 ≤ t → t + 1000000 < usize_mod →
  ∃ m' c', start main timervec_at TIMER_SCRATCH m c = Done (m', c', mhartid c) ∧ booted (mhartid c) c' ∧
    ∀ r n s, ticking (mhartid c) (mkMach r m' c') n s → t + Z.of_nat (S n) * 1000000 < usize_mod →
     mm s !! (CLINT + 16384 + 8 * mhartid c) = Some (t + Z.of_nat (S n) * 1000000) ∧
     ∃ s', run no_call timervec s = Done s' ∧ (∀ x, rg s' x = rg s x) ∧ cs s' = set_sip 2 (cs s).
Proof.
  intros Hl Ht Ht0 Ht1. exists (timer_words (mhartid c) t m), (boot_csrs c).
  split; [by apply start_done|]. split; [apply boot_csrs_booted|]. intros r n s Htick Hn.
  pose proof (booted_armed r m (boot_csrs c) (mhartid c) t Hl (boot_csrs_booted c)) as Ha.
  assert (Hd : 0 ≤ t + 1000000) by lia.
  apply (ticking_armed _ _ _ _ _ Hl Hd Ha) in Htick; [|lia]. split.
  - destruct Htick as (_ & _ & _ & H). rewrite H. f_equal. lia.
  - destruct (timervec_tick no_call _ _ _ _ _ (boot_timer_layout _ Hl) Htick) as (s' & Hr & _ & Hx & Hc & _).
    by exists s'.
Qed.
End boot.

(** [_entry] gives hart [h] the top of its own 16 KiB of [STACK0]. *)
Theorem entry_stack call STACK0 s :
  0 ≤ mhartid (cs s) < NCPU → 0 ≤ STACK0 → STACK0 + 16384 * NCPU < usize_mod →
  ∃ s', run call (entry STACK0) s = Done s' ∧ rg s' "sp" = STACK0 + 16384 * (mhartid (cs s) + 1).
Proof.
  unfold NCPU. intros Hh H0 H1. unfold entry. destruct s as [r m c]. cbn [cs] in *.
  do 6 other_instr. cbn [run]. eexists. split; [reflexivity|]. cbn [rg]. regs.
  rewrite (wrap64_small (mhartid c + 1)), (wrap64_small (4096 * 4 * _)), wrap64_small by lia. lia.
Qed.

(** ** Concrete cases *)
Definition csrs0 : Csrs := mkCsrs 1 0 0 0 0 0 0 0 0 0 0 0 0 0 0 0 0 0.

Lemma boot_clock_case :
  ∃ m' c', start 2147487744 2147491840 2148000000 {[CLINT_MTIME := 77]} csrs0 = Done (m', c', 1) ∧
    mscratch c' = 2148000040.
Proof.
  destruct (boot_clock 2147487744 2147491840 2148000000 {[CLINT_MTIME := 77]} csrs0 77) as (m' & c' & H & Hb & _).
  - unfold boot_layout, NCPU, CLINT. cbn. lia.
  - apply lookup_singleton_eq.
  - lia.
  - lia.
  - exists m', c'. split; [exact H|]. by destruct Hb as [_ _ _ _ _ _ _ ->].
Defined.

Lemma kernelvec_case :
  ∃ s', run Done kernelvec (mkMach (λ x, if decide (x = "sp"%string) then 4096 else 7) ∅ csrs0) = Done s' ∧
    rg s' "a0" = 7.
Proof.
  destruct (kernelvec_transparent Done (mkMach (λ x, if decide (x = "sp"%string) then 4096 else 7) ∅ csrs0))
    as (s1 & s2 & s' & _ & _ & Hr & Hx & _).
  - intros s. by exists s.
  - split; by vm_compute.
  - exists s'. split; [exact Hr|]. rewrite Hx; [done| |done]. apply (bool_decide_unpack _). by vm_compute.
Defined.

Lemma user_mode_case :
  ∃ c1 tf1, usertrap_ret 0 256 2147491840 csrs0 {[24 := 4096]} 1000000 1 5 =
              Done (c1, tf1, TRAMPOLINE + 256, 5) ∧ sepc c1 = 4096.
Proof.
  destruct (user_mode_cycle 2147487744 0 256 2147491840 csrs0 {[24 := 4096]} 1000000 1 5 4096 (λ _, 0) 4100 8
              (λ _, 0) false false) as (c1 & tf1 & c2 & Hret & _ & Hsepc & _).
  - reflexivity.
  - vm_compute. reflexivity.
  - vm_compute. reflexivity.
  - lia.
  - by exists c1, tf1.
Defined.

(** A context of [w] at 512, the thread that runs has its context at 1024. *)
Definition switch_mem (w : Z) : gmap Z Z := stored 512 (λ _, w) context_regs ∅.
Definition switch_regs (a b v : Z) : string → Z :=
  λ x, if decide (x = "a0"%string) then a else if decide (x = "a1"%string) then b else v.

Lemma swtch_case :
  ∃ s1 s3,
    run no_call (swtch "a0" "a1") (mkMach (switch_regs 1024 512 5) (switch_mem 9) csrs0) = Done s1 ∧ rg s1 "sp" = 9 ∧
    run no_call (swtch "a0" "a1") (mkMach (switch_regs 512 1024 11) (mm s1) csrs0) = Done s3 ∧ rg s3 "sp" = 5.
Proof.
  destruct (run no_call (swtch "a0" "a1") (mkMach (switch_regs 1024 512 5) (switch_mem 9) csrs0)) as [s1|e|a] eqn:H1;
    [|vm_compute in H1; discriminate..].
  destruct (swtch_roundtrip no_call "a0" "a1" "a0" "a1" (mkMach (switch_regs 1024 512 5) (switch_mem 9) csrs0) s1
    (mkMach (switch_regs 512 1024 11) (mm s1) csrs0) (λ _, 9)) as (Hw & s3 & H3 & Hs & _).
  1-4: apply (bool_decide_unpack _); by vm_compute.
  1,2,8: split; vm_compute; done.
  1: right; by vm_compute.
  1: apply (bool_decide_unpack _); by vm_compute.
  - exact H1.
  - done.
  - reflexivity.
  - left; by vm_compute.
  - exists s1, s3. split_and!; [done| |exact H3|].
    + apply Hw. apply (bool_decide_unpack _). by vm_compute.
    + rewrite Hs; [done|]. apply (bool_decide_unpack _). by vm_compute.
Defined.
