(* ===== verification/Harts.v ===== *)
(** * Interrupt locks on the registers ([Cpus], [Cpu], [IntrLock] of [proc.rs])

    [Spinlock] counts locks on one cpu with the interrupt bit as a field.  Here
    are the cpus as the kernel keeps them: an array of counters found through
    the register [tp], the interrupt bit in the [sstatus] of each hart, and an
    [IntrLock] that remembers the [Cpu] it was taken on. *)

From S2P Require Import Prelude Machine MachineSpec Spinlock.

Open Scope Z_scope.

(** [Cpu]: the fields that locks use. *)
Record CpuCell := mkCell { c_noff : Z; c_intena : bool }.
Definition cpu_new : CpuCell := mkCell 0 false.
Definition cpus_new : list CpuCell := replicate (Z.to_nat NCPU) cpu_new.

(** A hart: its control registers and [tp]. *)
Record hart := mkHart { csrs : Csrs; tp : Z }.
Record machine := mkMachine { harts : list hart; CPUS : list CpuCell }.

(** An [IntrLock] is the index of its [Cpu]. *)
Definition IntrLock : Type := Z.

Definition cpu_id (h : hart) : Z := tp h.

Definition cpu_at (cs : list CpuCell) (id : Z) : outcome CpuCell :=
  if decide (0 ≤ id) then
    match cs !! Z.to_nat id with Some c => Done c | None => Panic "index out of bounds" end
  else Panic "index out of bounds".
Definition my_cpu (h : hart) (cs : list CpuCell) : outcome CpuCell := cpu_at cs (cpu_id h).

(** [Cpu::lock]; [noff] is an [isize]. *)
Definition cpu_lock (c : CpuCell) (old : bool) : outcome CpuCell :=
  if decide (c_noff c + 1 < 2 ^ 63) then
    Done (mkCell (c_noff c + 1) (if decide (c_noff c = 0) then old else c_intena c))
  else Panic "attempt to add with overflow".

(** [Cpu::unlock] *)
Definition cpu_unlock (r : Csrs) (c : CpuCell) : outcome (Csrs * CpuCell) :=
  if intr_get r then Panic "unlock - interruptible"
  else if decide (1 ≤ c_noff c) then
    let n := c_noff c - 1 in
    Done (if bool_decide (n = 0) && c_intena c then intr_on r else r, mkCell n (c_intena c))
  else Panic "unlock".

Definition set_cpu (id : Z) (c : CpuCell) (cs : list CpuCell) : list CpuCell := <[Z.to_nat id := c]> cs.

(** [Cpus::intr_lock] on the hart at place [k]. *)
Definition hart_intr_lock (k : nat) (m : machine) : outcome (machine * IntrLock) :=
  match harts m !! k with
  | None => Fault (Z.of_nat k)
  | Some h =>
      let old := intr_get (csrs h) in
      let r := intr_off (csrs h) in
      c ← my_cpu h (CPUS m);
      c1 ← cpu_lock c old;
      Done (mkMachine (<[k := mkHart r (tp h)]> (harts m)) (set_cpu (cpu_id h) c1 (CPUS m)), cpu_id h)
  end.

(** The drop of an [IntrLock] of cpu [owner] on the hart at place [k]. *)
Definition intr_drop (k : nat) (owner : IntrLock) (m : machine) : outcome machine :=
  match harts m !! k with
  | None => Fault (Z.of_nat k)
  | Some h =>
      c ← cpu_at (CPUS m) owner;
      '(r, c1) ← cpu_unlock (csrs h) c;
      Done (mkMachine (<[k := mkHart r (tp h)]> (harts m)) (set_cpu owner c1 (CPUS m)))
  end.

(** [Cpus::intr_unlock], for [force_unlock]. *)
Definition hart_intr_unlock (k : nat) (m : machine) : outcome machine :=
  match harts m !! k with
  | None => Fault (Z.of_nat k)
  | Some h =>
      c ← my_cpu h (CPUS m);
      '(r, c1) ← cpu_unlock (csrs h) c;
      Done (mkMachine (<[k := mkHart r (tp h)]> (harts m)) (set_cpu (cpu_id h) c1 (CPUS m)))
  end.

(** An interleaving: hart [k] takes a lock ([true]), or drops one it took. *)
Fixpoint hart_run (l : list (nat * bool)) (m : machine) : outcome machine :=
  match l with
  | [] => Done m
  | (k, true) :: l => '(m1, _) ← hart_intr_lock k m; hart_run l m1
  | (k, false) :: l => m1 ← intr_drop k (Z.of_nat k) m; hart_run l m1
  end.

(** ** Each hart sees the counter of [Spinlock] *)

(** [tp] is the number of the hart, as [start] sets it. *)
Record harts_ok (m : machine) : Prop := {
  h_tp k h : harts m !! k = Some h → tp h = Z.of_nat k;
  h_cpu k h : harts m !! k = Some h → is_Some (CPUS m !! k);
}.

(** The cpu of [Spinlock] that hart [k] is. *)
Definition view (m : machine) (k : nat) : option Cpu :=
  h ← harts m !! k; c ← CPUS m !! k; Some (mkCpu (c_noff c) (c_intena c) (intr_get (csrs h))).

Definition ops_of (k : nat) (l : list (nat * bool)) : list bool := (filter (λ o, o.1 = k) l).*2.

Lemma cpu_at_nat cs k c : cs !! k = Some c → cpu_at cs (Z.of_nat k) = Done c.
Proof. intros Hc. unfold cpu_at. rewrite decide_True by lia. by rewrite Nat2Z.id, Hc. Qed.

Lemma view_inv m k c :
  view m k = Some c →
  ∃ h, harts m !! k = Some h ∧ CPUS m !! k = Some (mkCell (noff c) (intena c)) ∧ intr_get (csrs h) = Spinlock.sie c.
Proof.
  unfold view. intros Hv. destruct (harts m !! k) as [h|] eqn:Hh; [|done].
  destruct (CPUS m !! k) as [[n i]|] eqn:Hc; [|done]. cbn in Hv. injection Hv as <-. by exists h.
Qed.

(** Hart [k] and its cpu become [h] and [c]. *)
Definition upd (m : machine) (k : nat) (r : Csrs) (c : CpuCell) : machine :=
  mkMachine (<[k := mkHart r (Z.of_nat k)]> (harts m)) (<[k := c]> (CPUS m)).

Lemma view_upd m (k : nat) r c j :
  (k < length (harts m))%nat → (k < length (CPUS m))%nat →
  view (upd m k r c) j = if decide (j = k) then Some (mkCpu (c_noff c) (c_intena c) (intr_get r)) else view m j.
Proof.
  intros H1 H2. unfold view, upd. cbn [harts CPUS]. rewrite !lookup_upd by lia.
  by destruct (decide (j = k)).
Qed.

Lemma harts_ok_upd m k r c :
  harts_ok m → (k < length (harts m))%nat → (k < length (CPUS m))%nat → harts_ok (upd m k r c).
Proof.
  intros [Ht Hc] H1 H2. split; intros j h; cbn [upd harts CPUS]; rewrite !lookup_upd by lia;
    destruct (decide (j = k)) as [->|]; [by intros [= <-]|by apply Ht|by eexists|by apply Hc].
Qed.

Lemma view_bounds m k c : view m k = Some c → (k < length (harts m))%nat ∧ (k < length (CPUS m))%nat.
Proof. intros (h & Hh & Hc & _)%view_inv. split; by eapply lookup_lt_Some. Qed.

(** One step of a hart is the step of [Spinlock] on its view. *)
Lemma hart_lock_step m k c :
  harts_ok m → view m k = Some c → noff c + 1 < 2 ^ 63 →
  ∃ r i, hart_intr_lock k m = Done (upd m k r (mkCell (noff c + 1) i), Z.of_nat k) ∧
    intr_lock c = mkCpu (noff c + 1) i (intr_get r) ∧
    (∀ h, harts m !! k = Some h → r = intr_off (csrs h)).
Proof.
  intros Hok Hv Hb. destruct (view_inv _ _ _ Hv) as (h & Hh & Hc & Hs).
  exists (intr_off (csrs h)), (if decide (noff c = 0) then Spinlock.sie c else intena c). split_and!.
  - unfold hart_intr_lock, my_cpu, cpu_id. rewrite Hh, (h_tp _ Hok _ _ Hh), (cpu_at_nat _ _ _ Hc).
    cbn [mbind outcome_bind]. unfold cpu_lock. cbn [c_noff c_intena]. rewrite decide_True by done.
    cbn [mbind outcome_bind]. unfold set_cpu. by rewrite Nat2Z.id, Hs.
  - by rewrite (proj1 (proj2 (intr_switch (csrs h)))).
  - intros h' Hh'. congruence.
Qed.

Lemma hart_drop_step m k c c1 :
  harts_ok m → view m k = Some c → intr_unlock c = Done c1 →
  ∃ r, intr_drop k (Z.of_nat k) m = Done (upd m k r (mkCell (noff c1) (intena c1))) ∧ Spinlock.sie c1 = intr_get r ∧
    (∀ h, harts m !! k = Some h → r = csrs h ∨ r = intr_on (csrs h)).
Proof.
  intros Hok Hv Hu. destruct (view_inv _ _ _ Hv) as (h & Hh & Hc & Hs).
  unfold intr_unlock in Hu. destruct (Spinlock.sie c) eqn:Hsie; [done|]. destruct (decide (1 ≤ noff c)) as [Hn|]; [|done].
  injection Hu as <-. cbn [noff intena Spinlock.sie].
  exists (if bool_decide (noff c - 1 = 0) && intena c then intr_on (csrs h) else csrs h). split_and!.
  - unfold intr_drop. rewrite Hh, (cpu_at_nat _ _ _ Hc). cbn [mbind outcome_bind]. unfold cpu_unlock.
    rewrite Hs. cbn [c_noff c_intena]. rewrite decide_True by done. cbn [mbind outcome_bind].
    unfold set_cpu. by rewrite Nat2Z.id, (h_tp _ Hok _ _ Hh).
  - destruct (decide (noff c - 1 = 0)) as [Hz|Hz]; [rewrite bool_decide_true by done|by rewrite bool_decide_false by done].
    destruct (intena c); cbn [andb]; [by rewrite (proj1 (intr_switch (csrs h)))|done].
  - intros h' Hh'. rewrite Hh in Hh'. injection Hh' as <-. destruct (_ && _); auto.
Qed.

(** Registers that differ at most in the interrupt bit. *)
Definition same_but_sie (r r' : Csrs) : Prop :=
  (∀ j, 0 ≤ j < 64 → j ≠ 1 → Z.testbit (sstatus r') j = Z.testbit (sstatus r) j) ∧
  set_sstatus 0 r' = set_sstatus 0 r.

Lemma same_but_sie_trans r r1 r2 : same_but_sie r r1 → same_but_sie r1 r2 → same_but_sie r r2.
Proof. intros [H1 H2] [H3 H4]. split; [|congruence]. intros j Hj Hn. by rewrite H3, H1. Qed.

Lemma same_but_sie_switch r : same_but_sie r (intr_on r) ∧ same_but_sie r (intr_off r).
Proof.
  split; (split; [|done]); intros j Hj Hn; cbn; unfold SIE; bit_solve;
    rewrite bool_decide_false by lia; by rewrite ?orb_false_r, ?andb_true_r.
Qed.

Lemma ops_of_here k b l : ops_of k ((k, b) :: l) = b :: ops_of k l.
Proof. unfold ops_of. by rewrite filter_cons_True. Qed.
Lemma ops_of_other k j b l : j ≠ k → ops_of k ((j, b) :: l) = ops_of k l.
Proof. intros Hn. unfold ops_of. by rewrite filter_cons_False. Qed.

(** What a run of the machine [m] to [m'] does for each hart. *)
Definition hart_effect (l : list (nat * bool)) (m m' : machine) : Prop :=
  ∀ k h c, harts m !! k = Some h → view m k = Some c →
    ∃ h' c', run (ops_of k l) c = Done c' ∧ view m' k = Some c' ∧
      harts m' !! k = Some h' ∧ same_but_sie (csrs h) (csrs h').

(** One step in front of a run: hart [k] goes to [c1] with registers [r]. *)
Lemma hart_effect_step l m m' k b c r i n :
  view m k = Some c →
  (∀ h, harts m !! k = Some h → same_but_sie (csrs h) r) →
  (∀ ops, run (b :: ops) c = run ops (mkCpu n i (intr_get r))) →
  hart_effect l (upd m k r (mkCell n i)) m' → hart_effect ((k, b) :: l) m m'.
Proof.
  intros Hv Hr Hrun He j h d Hh Hd. destruct (view_bounds _ _ _ Hv) as [B1 B2].
  pose proof (view_upd m k r (mkCell n i) j B1 B2) as Hview. destruct (decide (j = k)) as [->|Hjk].
  - destruct (He k (mkHart r (Z.of_nat k)) (mkCpu n i (intr_get r))) as (h' & c' & H1 & H2 & H3 & H4).
    + cbn [upd harts]. by rewrite lookup_upd, decide_True by lia.
    + exact Hview.
    + exists h', c'. rewrite ops_of_here. rewrite Hv in Hd. injection Hd as <-. rewrite Hrun. split_and!; [done..|].
      eapply same_but_sie_trans; [by apply Hr|exact H4].
  - rewrite ops_of_other by done. apply He; [|by rewrite Hview].
    cbn [upd harts]. by rewrite lookup_upd, decide_False by lia.
Qed.

(** What the run needs is left after a step. *)
Definition runnable (l : list (nat * bool)) (m : machine) : Prop :=
  harts_ok m ∧ (∀ k b, (k, b) ∈ l → is_Some (view m k)) ∧
  (∀ k c, view m k = Some c → noff c + Z.of_nat (length l) < 2 ^ 63) ∧
  (∀ k c, view m k = Some c → ∃ c', run (ops_of k l) c = Done c').

Lemma runnable_step l m k b c r i n :
  runnable ((k, b) :: l) m → view m k = Some c → n ≤ noff c + 1 →
  (∀ ops, run (b :: ops) c = run ops (mkCpu n i (intr_get r))) →
  runnable l (upd m k r (mkCell n i)).
Proof.
  intros (Hok & Hin & Hb & Hr) Hv Hn Hrun. destruct (view_bounds _ _ _ Hv) as [B1 B2].
  pose proof (λ j, view_upd m k r (mkCell n i) j B1 B2) as Hview. cbn [length] in Hb. split_and!.
  - by apply harts_ok_upd.
  - intros j b' Hj. rewrite Hview. case_decide; [by eexists|]. apply (Hin j b'). by apply list_elem_of_further.
  - intros j d. rewrite Hview. case_decide; [intros [= <-]; cbn; specialize (Hb k c Hv); lia|].
    intros Hd. specialize (Hb j d Hd). lia.
  - intros j d. rewrite Hview. case_decide as Hj.
    + intros [= <-]. subst j. destruct (Hr k c Hv) as (c' & Hc'). rewrite ops_of_here in Hc'. exists c'. by rewrite <-Hrun.
    + intros Hd. destruct (Hr j d Hd) as (c' & Hc'). exists c'. by rewrite ops_of_other in Hc' by done.
Qed.

Lemma hart_run_effect l m : runnable l m → ∃ m', hart_run l m = Done m' ∧ hart_effect l m m'.
Proof.
  revert m. induction l as [|[k b] l IH]; intros m Hrun.
  - exists m. split; [done|]. intros k h c Hh Hv. exists h, c. by split_and!.
  - pose proof Hrun as (Hok & Hin & Hb & Hr). destruct (Hin k b (list_elem_of_here _ _)) as [c Hv].
    destruct b; cbn [hart_run].
    + destruct (hart_lock_step m k c Hok Hv) as (r & i & Hl & Hc & Hoff).
      { specialize (Hb k c Hv). cbn [length] in Hb. lia. }
      assert (Hrr : ∀ ops, run (true :: ops) c = run ops (mkCpu (noff c + 1) i (intr_get r))) by (intros; cbn [run]; by rewrite Hc).
      destruct (IH _ (runnable_step _ _ _ _ _ r i (noff c + 1) Hrun Hv ltac:(lia) Hrr)) as (m' & Hm' & He).
      exists m'. rewrite Hl. cbn [mbind outcome_bind]. split; [done|].
      eapply hart_effect_step; [done| |done|done]. intros h Hh. rewrite (Hoff h Hh). apply same_but_sie_switch.
    + destruct (Hr k c Hv) as (cf & Hcf). rewrite ops_of_here in Hcf. cbn [run] in Hcf.
      apply bind_Done_inv in Hcf as (c1 & Hu & _).
      destruct (hart_drop_step m k c c1 Hok Hv Hu) as (r & Hl & Hs & Hreg).
      assert (Hrr : ∀ ops, run (false :: ops) c = run ops (mkCpu (noff c1) (intena c1) (intr_get r))).
      { intros ops. cbn [run]. rewrite Hu. cbn [mbind outcome_bind]. rewrite <-Hs. by destruct c1. }
      assert (Hn : noff c1 ≤ noff c + 1).
      { unfold intr_unlock in Hu. destruct (Spinlock.sie c); [done|]. destruct (decide (1 ≤ noff c)); [|done].
        injection Hu as <-. cbn. lia. }
      destruct (IH _ (runnable_step _ _ _ _ _ r (intena c1) (noff c1) Hrun Hv Hn Hrr)) as (m' & Hm' & He).
      exists m'. rewrite Hl. cbn [mbind outcome_bind]. split; [done|].
      eapply hart_effect_step; [done| |done|done].
      intros h Hh. destruct (Hreg h Hh) as [-> | ->]; [by split|apply same_but_sie_switch].
Qed.

(** C25. The counters of the cpus and the interrupt bits of the harts implement
    [Spinlock]: for any interleaving of harts that take interrupt locks and
    drop the ones they took, whose own sequences [Spinlock] runs, the kernel
    runs it too; each hart ends with the counter, the saved flag and the
    interrupt bit that its own sequence gives, whatever the other harts did,
    and no other bit of [sstatus] and no other register has changed. *)
Theorem intr_lock_refines (l : list (nat * bool)) (m : machine) (Hrun : runnable l m) :
  ∃ m', hart_run l m = Done m' ∧
    ∀ k h c, harts m !! k = Some h → view m k = Some c →
      ∃ h' c', run (ops_of k l) c = Done c' ∧ view m' k = Some c' ∧
        harts m' !! k = Some h' ∧ same_but_sie (csrs h) (csrs h').
Proof. exact (hart_run_effect l m Hrun). Qed.

(** Two harts, the first with interrupts on. *)
Definition csrs_of (v : Z) : Csrs := mkCsrs 0 0 0 v 0 0 0 0 0 0 0 0 0 0 0 0 0 0.
Definition two_harts : machine :=
  mkMachine [mkHart (csrs_of 2) 0; mkHart (csrs_of 0) 1] cpus_new.
Definition two_locks : list (nat * bool) :=
  [(0, true); (1, true); (0, true); (0, false); (1, false); (0, false)]%nat.

Lemma two_harts_runnable : runnable two_locks two_harts.
Proof.
  assert (Hk : ∀ k c, view two_harts k = Some c → (k = 0%nat ∧ c = mkCpu 0 false true) ∨ (k = 1%nat ∧ c = mkCpu 0 false false)).
  { intros [|[|k]] c Hv; [left|right|]; vm_compute in Hv; [by simplify_eq..|done]. }
  split_and!.
  - split; intros [|[|k]] h Hh; vm_compute in Hh; try done; simplify_eq; vm_compute; [done|done|by eexists..].
  - intros k b Hin. unfold two_locks in Hin. repeat (apply elem_of_cons in Hin as [[= -> ->]|Hin]; [vm_compute; by eexists|]).
    by apply not_elem_of_nil in Hin.
  - intros k c [[-> ->]|[-> ->]]%Hk; vm_compute; done.
  - intros k c [[-> ->]|[-> ->]]%Hk; by eexists.
Qed.

Lemma intr_lock_refines_witness : ∃ m', hart_run two_locks two_harts = Done m' ∧ view m' 0 = Some (mkCpu 0 true true).
Proof.
  destruct (intr_lock_refines two_locks two_harts two_harts_runnable) as (m' & Hm & He). exists m'. split; [exact Hm|].
  destruct (He 0%nat (mkHart (csrs_of 2) 0) (mkCpu 0 false true) eq_refl eq_refl) as (h' & c' & Hr & Hv & _).
  vm_compute in Hr. injection Hr as <-. exact Hv.
Defined.

(** A guard that another hart drops, as after a switch between harts, is
    counted against the hart that took it: the counter of hart 0 goes back to
    zero while the one of hart 1, which holds a lock of its own, stays. *)
Lemma intr_drop_elsewhere :
  ∃ m1 m2 m3 g0 g1, hart_intr_lock 0 two_harts = Done (m1, g0) ∧ hart_intr_lock 1 m1 = Done (m2, g1) ∧
    intr_drop 1 g0 m2 = Done m3 ∧ c_noff <$> CPUS m3 !! 0%nat = Some 0 ∧ c_noff <$> CPUS m3 !! 1%nat = Some 1 ∧
    intr_get <$> (csrs <$> harts m3 !! 0%nat) = Some false ∧ intr_get <$> (csrs <$> harts m3 !! 1%nat) = Some true.
Proof. do 5 eexists. split; [reflexivity|]. split; [reflexivity|]. split; [reflexivity|]. by vm_compute. Qed.
