(* ===== verification/File.v ===== *)
(** * Open files ([file.rs], [fcntl.rs], and [Pipe::alloc] of [pipe.rs])

    [FTABLE] is a list of [NFILE] slots, each with a strong pointer to a
    [VFile] or empty.  A [VFile] lives on the heap with the number of strong
    pointers to it; its key in [heap] is its identity, what [Arc::ptr_eq]
    compares.  A [File] is the value a process holds.

    What the file layer asks of inodes, of the log, of devices, of pipes and of
    user memory is the class [FileWorld]; [w] is their state.  The file layer
    never looks inside. *)

From S2P Require Import Prelude Log Fs Vm.

Open Scope Z_scope.

(** ** Open modes ([fcntl.rs]) *)
Module OMode.
Definition RDONLY : Z := 0x000.
Definition WRONLY : Z := 0x001.
Definition RDWR : Z := 0x002.
Definition CREATE : Z := 0x200.
Definition TRUNC : Z := 0x400.

Record OMode := mk { m_read : bool; m_write : bool; m_truncate : bool; m_create : bool }.

Definition new : OMode := mk false false false false.
Definition read (m : OMode) (x : bool) : OMode := mk x (m_write m) (m_truncate m) (m_create m).
Definition write (m : OMode) (x : bool) : OMode := mk (m_read m) x (m_truncate m) (m_create m).
Definition truncate (m : OMode) (x : bool) : OMode := mk (m_read m) (m_write m) x (m_create m).
Definition create (m : OMode) (x : bool) : OMode := mk (m_read m) (m_write m) (m_truncate m) x.

Definition has (bits mask : Z) : bool := negb (Z.land bits mask =? 0).

Definition from_usize (bits : Z) : OMode :=
  let m := read new true in
  let m := read m (negb (has bits WRONLY)) in
  let m := write m (has bits WRONLY || has bits RDWR) in
  let m := create m (has bits CREATE) in
  truncate m (has bits TRUNC).

Definition is_read (m : OMode) : bool := m_read m.
Definition is_write (m : OMode) : bool := m_write m.
Definition is_create (m : OMode) : bool := m_create m.
Definition is_trunc (m : OMode) : bool := m_truncate m.
Definition is_rdonly (m : OMode) : bool := m_read m && negb (m_write m).
End OMode.

(** ** Files *)
Definition NFILE : nat := 100.
Definition NDEV : nat := 10.

(** A pipe end: the channel behind it, by its number. *)
Record Pipe := mkPipe { rx : option nat; tx : option nat }.

Definition get_mode (p : Pipe) : OMode.OMode :=
  OMode.write (OMode.read OMode.new (bool_decide (is_Some (rx p)))) (bool_decide (is_Some (tx p))).

(** A device node has a driver, an inode node an offset; [ip] is the position
    of the inode in [ITABLE]. *)
Inductive VFile :=
  | VDevice (driver : nat) (ip : nat)
  | VInode (off : Z) (ip : nat)
  | VPipe (p : Pipe)
  | VNone.

(** The layers below. *)
Class FileWorld (W : Type) := {
  w_begin_op : W → outcome W;
  w_end_op : W → outcome W;
  w_namei : W → list Z → outcome (W * option nat);
  w_create : W → list Z → IType → Z → Z → outcome (W * option nat);
  w_lock : W → nat → outcome (W * IData);              (* the locked inode *)
  w_trunc : W → nat → outcome W;
  w_put : W → nat → outcome W;                         (* drop of an [Inode] *)
  w_read : W → nat → VirtAddr → Z → Z → outcome (W * result Z unit);
  w_write : W → nat → VirtAddr → Z → Z → outcome (W * result Z unit);
  w_dev_read : W → nat → VirtAddr → Z → outcome (W * result Z unit);
  w_dev_write : W → nat → VirtAddr → Z → outcome (W * result Z unit);
  w_channel : W → W * nat;                             (* [sync_channel(PIPESIZE)] *)
  w_recv : W → nat → VirtAddr → Z → outcome (W * result Z unit);
  w_send : W → nat → VirtAddr → Z → outcome (W * result Z unit);
  w_copyout : W → VirtAddr → list Z → outcome (W * result unit unit);
}.

Section files.
Context {W : Type} `{!FileWorld W}.

Record File := mkFile { f_arc : option nat; readable : bool; writable : bool }.

Record state := mkSt {
  wld : W;
  heap : gmap nat (VFile * Z);
  fresh : nat;
  ftable : list (option nat);
  devsw : list (option nat);
}.

Definition set_wld (w : W) (s : state) : state := mkSt w (heap s) (fresh s) (ftable s) (devsw s).
Definition set_heap (h : gmap nat (VFile * Z)) (s : state) : state :=
  mkSt (wld s) h (fresh s) (ftable s) (devsw s).
Definition set_ftable (t : list (option nat)) (s : state) : state :=
  mkSt (wld s) (heap s) (fresh s) t (devsw s).

Definition run {A} (s : state) (o : outcome (W * A)) : outcome (state * A) :=
  '(w, a) ← o; Done (set_wld w s, a).
Definition run_ (s : state) (o : outcome W) : outcome state := w ← o; Done (set_wld w s).

(** ** [DevSW] *)
Definition devsw_new : list (option nat) := replicate NDEV None.

Definition devsw_set (t : list (option nat)) (m : Major) (d : nat) : outcome (list (option nat) * result unit nat) :=
  x ← index t (major_code m);
  match x with
  | Some _ => Done (t, Err d)
  | None => t1 ← store t (major_code m) (Some d); Done (t1, Ok tt)
  end.

Definition devsw_get (t : list (option nat)) (m : Major) : outcome (option nat) := index t (major_code m).

(** ** Strong pointers *)
Definition arc (s : state) (a : nat) : outcome (VFile * Z) :=
  match heap s !! a with Some x => Done x | None => Fault (Z.of_nat a) end.

Definition arc_new (s : state) (v : VFile) : state * nat :=
  (mkSt (wld s) (<[fresh s := (v, 1)]> (heap s)) (S (fresh s)) (ftable s) (devsw s), fresh s).

Definition arc_clone (s : state) (a : nat) : outcome state :=
  '(v, c) ← arc s a;
  Done (set_heap (<[a := (v, c + 1)]> (heap s)) s).

(** Drop of a [VFile]: its inode is dropped. *)
Definition vfile_drop (s : state) (v : VFile) : outcome state :=
  match v with
  | VDevice _ ip | VInode _ ip => run_ s (w_put (wld s) ip)
  | VPipe _ | VNone => Done s
  end.

Definition arc_drop (s : state) (a : nat) : outcome state :=
  '(v, c) ← arc s a;
  if decide (c = 1) then vfile_drop (set_heap (delete a (heap s)) s) v
  else Done (set_heap (<[a := (v, c - 1)]> (heap s)) s).

(** [File::clone] *)
Definition file_clone (s : state) (f : File) : outcome (state * File) :=
  match f_arc f with
  | Some a => s1 ← arc_clone s a; Done (s1, f)
  | None => Done (s, f)
  end.

(** ** [Drop for File] *)
Fixpoint take_slots (k : nat) (n : nat) (s : state) (a : nat) : outcome state :=
  match n with
  | O => Done s
  | S n =>
      s1 ← (if decide (ftable s !! k = Some (Some a)) then
              arc_drop (set_ftable (<[k := None]> (ftable s)) s) a
            else Done s);
      take_slots (S k) n s1 a
  end.

Definition file_drop (s : state) (f : File) : outcome state :=
  match f_arc f with
  | None => Panic "called `Option::unwrap()` on a `None` value"
  | Some a =>
      '(_, c) ← arc s a;
      if decide (c < 2) then Panic "file drop"
      else
        s1 ← (if decide (c = 2) then take_slots 0 (length (ftable s)) s a else Done s);
        '(v, c1) ← arc s1 a;
        if decide (c1 = 1) then            (* [Arc::try_unwrap] *)
          let s2 := set_heap (delete a (heap s1)) s1 in
          match v with
          | VInode _ ip | VDevice _ ip =>
              s3 ← run_ s2 (w_begin_op (wld s2));
              s4 ← run_ s3 (w_put (wld s3) ip);
              run_ s4 (w_end_op (wld s4))
          | _ => Done s2
          end
        else arc_drop s1 a
  end.

(** ** [FTable::alloc] *)
Inductive FType := Node (path : list Z) | FPipe (p : Pipe).

(** The [VFile] for a path; [None] for the early returns. *)
Definition open_locked (s : state) (opts : OMode.OMode) (ip : nat) (i : IData) : outcome (state * option VFile) :=
  match itype i with
  | TDevice =>
      if decide (major i ≠ MInvalid ∧ major i ≠ MNull) then
        d ← devsw_get (devsw s) (major i);
        match d with
        | Some driver => Done (s, Some (VDevice driver ip))
        | None => Panic "called `Option::unwrap()` on a `None` value"
        end
      else s1 ← run_ s (w_put (wld s) ip); Done (s1, None)
  | TDir | TFile =>
      s1 ← (if OMode.is_trunc opts && bool_decide (itype i = TFile) then run_ s (w_trunc (wld s) ip)
            else Done s);
      Done (s1, Some (VInode 0 ip))
  | TNone => s1 ← run_ s (w_put (wld s) ip); Done (s1, None)
  end.

Definition open_node (s : state) (opts : OMode.OMode) (path : list Z) : outcome (state * option VFile) :=
  if OMode.is_create opts then
    '(s1, r) ← run s (w_create (wld s) path TFile 0 0);
    match r with
    | None => Done (s1, None)
    | Some ip => '(s2, i) ← run s1 (w_lock (wld s1) ip); open_locked s2 opts ip i
    end
  else
    '(s1, r) ← run s (w_namei (wld s) path);
    match r with
    | None => Done (s1, None)
    | Some ip =>
        '(s2, i) ← run s1 (w_lock (wld s1) ip);
        if bool_decide (itype i = TDir) && negb (OMode.is_rdonly opts) then
          s3 ← run_ s2 (w_put (wld s2) ip); Done (s3, None)
        else open_locked s2 opts ip i
    end.

(** The first empty slot. *)
Fixpoint empty_slot (k : nat) (t : list (option nat)) : option nat :=
  match t with
  | [] => None
  | None :: _ => Some k
  | Some _ :: t => empty_slot (S k) t
  end.

Definition ftable_alloc (s : state) (opts : OMode.OMode) (ftype : FType) : outcome (state * option File) :=
  '(s1, r) ← match ftype with
             | Node path => open_node s opts path
             | FPipe pi => Done (s, Some (VPipe pi))
             end;
  match r with
  | None => Done (s1, None)
  | Some v =>
      let '(s2, a) := arc_new s1 v in
      match empty_slot 0 (ftable s2) with
      | None => s3 ← arc_drop s2 a; Done (s3, None)
      | Some k =>
          let s3 := set_ftable (<[k := Some a]> (ftable s2)) s2 in
          s4 ← arc_clone s3 a;
          Done (s4, Some (mkFile (Some a) (OMode.is_read opts) (OMode.is_write opts)))
      end
  end.

(** [Pipe::alloc]: the first end is dropped when there is no slot for the
    second. *)
Definition pipe_alloc (s : state) : outcome (state * option (File * File)) :=
  let '(w, ch) := w_channel (wld s) in
  let s0 := set_wld w s in
  let p0 := mkPipe (Some ch) None in
  let p1 := mkPipe None (Some ch) in
  '(s1, r0) ← ftable_alloc s0 (get_mode p0) (FPipe p0);
  match r0 with
  | None => Done (s1, None)
  | Some f0 =>
      '(s2, r1) ← ftable_alloc s1 (get_mode p1) (FPipe p1);
      match r1 with
      | None => s3 ← file_drop s2 f0; Done (s3, None)
      | Some f1 => Done (s2, Some (f0, f1))
      end
  end.

(** ** Reading and writing *)
Definition set_off (s : state) (a : nat) (off : Z) : state :=
  set_heap (alter (λ x, (match x.1 with VInode _ ip => VInode off ip | v => v end, x.2)) a (heap s)) s.

Definition fnod_read (s : state) (a : nat) (off : Z) (ip : nat) (dst : VirtAddr) (n : Z)
    : outcome (state * result Z unit) :=
  '(s1, _) ← run s (w_lock (wld s) ip);
  '(s2, r) ← run s1 (w_read (wld s1) ip dst off n);
  match r with
  | Ok r => off1 ← checked_add32 off (as_u32 r); Done (set_off s2 a off1, Ok r)
  | Err _ => Done (s2, Err tt)
  end.

(** The most one transaction writes. *)
Definition max_write : Z := ((MAXOPBLOCKS - 1 - 1 - 2) / 2) * 1024.

(** The loop of [FNod::write]; every round but the last writes a whole chunk,
    so the number of bytes bounds the rounds.  [off] is the value behind the
    pointer that all holders of the file share; [set_off] writes it back. *)
Fixpoint fnod_write_loop (k : nat) (s : state) (a : nat) (off : Z) (ip : nat) (src : VirtAddr) (n i : Z)
    : outcome (state * Z) :=
  if decide (i < n) then
    match k with
    | O => Panic "out of fuel"
    | S k =>
        n1 ← checked_sub n i;
        let n1 := if decide (max_write < n1) then max_write else n1 in
        s1 ← run_ s (w_begin_op (wld s));
        '(s2, _) ← run s1 (w_lock (wld s1) ip);
        '(s3, w) ← run s2 (w_write (wld s2) ip src off n1);
        '(s4, off1, r) ← match w with
                         | Ok wbytes => off1 ← checked_add32 off (as_u32 wbytes);
                                        Done (set_off s3 a off1, off1, wbytes)
                         | Err _ => Done (s3, off, 0)
                         end;
        s5 ← run_ s4 (w_end_op (wld s4));
        if decide (r = n1) then fnod_write_loop k s5 a off1 ip src n (i + r)
        else Done (s5, i)
    end
  else Done (s, i).

Definition fnod_write (s : state) (a : nat) (off : Z) (ip : nat) (src : VirtAddr) (n : Z)
    : outcome (state * result Z unit) :=
  '(s1, i) ← fnod_write_loop (Z.to_nat n) s a off ip src n 0;
  Done (s1, if decide (i = n) then Ok n else Err tt).

(** [VFile::read] and [VFile::write] of the file at [a]. *)
Definition vfile_read (s : state) (a : nat) (dst : VirtAddr) (n : Z) : outcome (state * result Z unit) :=
  '(v, _) ← arc s a;
  match v with
  | VDevice d _ => run s (w_dev_read (wld s) d dst n)
  | VInode off ip => fnod_read s a off ip dst n
  | VPipe p => match rx p with
               | Some ch => run s (w_recv (wld s) ch dst n)
               | None => Done (s, Err tt)
               end
  | VNone => Panic "file read"
  end.

Definition vfile_write (s : state) (a : nat) (src : VirtAddr) (n : Z) : outcome (state * result Z unit) :=
  '(v, _) ← arc s a;
  match v with
  | VDevice d _ => run s (w_dev_write (wld s) d src n)
  | VInode off ip => fnod_write s a off ip src n
  | VPipe p => match tx p with
               | Some ch => run s (w_send (wld s) ch src n)
               | None => Done (s, Err tt)
               end
  | VNone => Panic "file write"
  end.

(** The bytes of a [Stat], with the four bytes of padding of
    [repr(C)] taken as zero. *)
Definition encode_stat (x : Z * Z * IType * Z * Z) : list Z :=
  let '(dev, ino, t, nl, size) := x in
  le_bytes 4 dev ++ le_bytes 4 ino ++ le_bytes 2 (itype_code t) ++ le_bytes 2 nl ++
  le_bytes 4 0 ++ le_bytes 8 size.

Definition vfile_stat (s : state) (a : nat) (addr : VirtAddr) : outcome (state * result unit unit) :=
  '(v, _) ← arc s a;
  match v with
  | VDevice _ ip | VInode _ ip =>
      '(s1, i) ← run s (w_lock (wld s) ip);
      run s1 (w_copyout (wld s1) addr (encode_stat (stat i)))
  | _ => Done (s, Err tt)
  end.

Definition unwrap_arc (f : File) : outcome nat :=
  match f_arc f with Some a => Done a | None => Panic "called `Option::unwrap()` on a `None` value" end.

Definition file_read (s : state) (f : File) (dst : VirtAddr) (n : Z) : outcome (state * result Z unit) :=
  if readable f then a ← unwrap_arc f; vfile_read s a dst n else Done (s, Err tt).
Definition file_write (s : state) (f : File) (src : VirtAddr) (n : Z) : outcome (state * result Z unit) :=
  if writable f then a ← unwrap_arc f; vfile_write s a src n else Done (s, Err tt).
End files.

Arguments state : clear implicits.
