(* ===== verification/FileSpec.v ===== *)
(** * Properties of open files

    [finv s hs]: the processes hold the files [hs], and every [VFile] on the
    heap has one pointer in the table and one in each file that refers to it. *)

From S2P Require Import Prelude Log Fs Vm File.

Open Scope Z_scope.

Section spec.
Context {W : Type} `{!FileWorld W}.
Implicit Types (s : state W) (hs : list File).

Definition points (a : nat) (f : File) : Z := if decide (f_arc f = Some a) then 1 else 0.
Definition refs (a : nat) (hs : list File) : Z := tally (points a) hs.
#[local] Arguments refs : simpl never.

Record finv s hs : Prop := {
  fi_heap : ∀ a v c, heap s !! a = Some (v, c) →
    c = 1 + refs a hs ∧ 1 ≤ refs a hs ∧ (a < fresh s)%nat ∧ ∃ k, ftable s !! k = Some (Some a);
  fi_tab : ∀ k a, ftable s !! k = Some (Some a) → is_Some (heap s !! a);
  fi_inj : ∀ j k a, ftable s !! j = Some (Some a) → ftable s !! k = Some (Some a) → j = k;
  fi_held : ∀ f, f ∈ hs → ∃ a, f_arc f = Some a ∧ is_Some (heap s !! a);
}.

Lemma points_nonneg a f : 0 ≤ points a f.
Proof. unfold points. case_decide; lia. Qed.

Lemma refs_nonneg a hs : 0 ≤ refs a hs.
Proof. apply tally_nonneg, points_nonneg. Qed.

Lemma refs_cons a f hs : refs a (f :: hs) = points a f + refs a hs.
Proof. done. Qed.

Lemma refs_fresh s hs a : finv s hs → heap s !! a = None → refs a hs = 0.
Proof.
  intros Hi Ha. apply tally_zero. intros f Hf. unfold points. case_decide as Hp; [|done].
  destruct (fi_held _ _ Hi f Hf) as (b & Hb & [x Hx]). congruence.
Qed.

Lemma refs_zero a hs f : refs a hs = 0 → f ∈ hs → f_arc f ≠ Some a.
Proof.
  intros Hr [i Hi]%list_elem_of_lookup Hf.
  pose proof (tally_lookup _ _ _ _ (points_nonneg a) Hi) as Hl.
  unfold points at 1 in Hl. rewrite decide_True in Hl by done. unfold refs in Hr. lia.
Qed.

(** The files held may be listed in any order. *)
Lemma refs_perm a hs hs' : hs ≡ₚ hs' → refs a hs = refs a hs'.
Proof. unfold refs. induction 1; simpl; lia. Qed.

Lemma finv_perm s hs hs' : hs ≡ₚ hs' → finv s hs → finv s hs'.
Proof.
  intros Hp [H1 H2 H3 H4]. split; [|done|done|].
  - intros a v c Ha. rewrite <- (refs_perm a _ _ Hp). by eapply H1.
  - intros f. rewrite <- Hp. apply H4.
Qed.

(** The world does not matter. *)
Lemma finv_wld s hs w : finv s hs → finv (set_wld w s) hs.
Proof. by intros [H1 H2 H3 H4]. Qed.

Lemma arc_ok s a x : heap s !! a = Some x → arc s a = Done x.
Proof. intros Ha. unfold arc. by rewrite Ha. Qed.

(** ** Clearing the slot *)
Lemma take_slots_none s a n : ∀ k,
  (∀ j, (k ≤ j < k + n)%nat → ftable s !! j ≠ Some (Some a)) → take_slots k n s a = Done s.
Proof.
  induction n as [|n IH]; intros k Hk; simpl; [done|].
  rewrite decide_False by (apply Hk; lia). simpl. apply IH. intros j Hj. apply Hk. lia.
Qed.

Lemma take_slots_one a k n : ∀ k0 s s1,
  (k0 ≤ k < k0 + n)%nat → ftable s !! k = Some (Some a) →
  (∀ j, ftable s !! j = Some (Some a) → j = k) →
  arc_drop (set_ftable (<[k := None]> (ftable s)) s) a = Done s1 →
  (∀ j, ftable s1 !! j ≠ Some (Some a)) →
  take_slots k0 n s a = Done s1.
Proof.
  induction n as [|n IH]; intros k0 s s1 Hk Hs Hu Hd H1; simpl; [lia|].
  destruct (decide (k0 = k)) as [->|Hne].
  - rewrite decide_True by done. rewrite Hd. simpl. apply take_slots_none. intros j _. apply H1.
  - rewrite decide_False by (intros E; apply Hne; by apply Hu). simpl. apply IH; try done. lia.
Qed.

(** The state after the last file that refers to [a] is closed. *)
Definition closed s (a k : nat) : state W :=
  set_heap (delete a (heap s)) (set_ftable (<[k := None]> (ftable s)) s).

(** What the drop of the last file does to the inode. *)
Definition drop_vfile (w : W) (v : VFile) : outcome W :=
  match v with
  | VInode _ ip | VDevice _ ip => w1 ← w_begin_op w; w2 ← w_put w1 ip; w_end_op w2
  | _ => Done w
  end.

Lemma file_drop_last s f a v k :
  f_arc f = Some a → heap s !! a = Some (v, 2) → ftable s !! k = Some (Some a) →
  (∀ j, ftable s !! j = Some (Some a) → j = k) →
  file_drop s f = (w ← drop_vfile (wld s) v; Done (set_wld w (closed s a k))).
Proof.
  intros Hf Ha Hk Hu. unfold file_drop. rewrite Hf, (arc_ok s a _ Ha). simpl.
  pose proof (lookup_lt_Some _ _ _ Hk) as Hlt.
  rewrite (take_slots_one a k (length (ftable s)) 0 s
    (set_heap (<[a := (v, 1)]> (heap s)) (set_ftable (<[k := None]> (ftable s)) s))); try done; [|lia| |].
  - simpl. rewrite (arc_ok _ a (v, 1)) by apply lookup_insert_eq. simpl. rewrite delete_insert_eq.
    destruct v; simpl; unfold run_; try done.
    all: destruct (w_begin_op (wld s)) as [w1| |]; simpl; try done.
    all: by destruct (w_put w1 ip) as [w2| |].
  - unfold arc_drop. by rewrite (arc_ok _ a (v, 2)).
  - intros j. simpl. rewrite lookup_upd by done. case_decide; [done|]. intros E. by apply Hu in E.
Qed.

(** Another file still refers to [a]. *)
Lemma file_drop_shared s f a v c :
  f_arc f = Some a → heap s !! a = Some (v, c) → 3 ≤ c →
  file_drop s f = Done (set_heap (<[a := (v, c - 1)]> (heap s)) s).
Proof.
  intros Hf Ha Hc. unfold file_drop. rewrite Hf, (arc_ok s a _ Ha). simpl.
  rewrite decide_False by lia. rewrite decide_False by lia. simpl.
  rewrite (arc_ok s a _ Ha). simpl. rewrite decide_False by lia.
  unfold arc_drop. rewrite (arc_ok s a _ Ha). simpl. by rewrite decide_False by lia.
Qed.

Lemma closed_inv s f hs a v k :
  finv s (f :: hs) → f_arc f = Some a → heap s !! a = Some (v, 2) → ftable s !! k = Some (Some a) →
  finv (closed s a k) hs.
Proof.
  intros Hi Hf Ha Hk. pose proof (lookup_lt_Some _ _ _ Hk) as Hlt.
  pose proof Hi as [H1 H2 H3 H4].
  assert (Hr : refs a hs = 0).
  { destruct (H1 a v 2 Ha) as (Hc & _). rewrite refs_cons in Hc. unfold points in Hc.
    rewrite decide_True in Hc by done. lia. }
  split; simpl.
  - intros b u c Hb. rewrite lookup_delete in Hb. destruct (decide (a = b)) as [->|Hne]; [done|].
    destruct (H1 b u c Hb) as (Hc & Hp & Hfr & j & Hj). rewrite refs_cons in Hc, Hp.
    assert (Hz : points b f = 0) by (unfold points; rewrite decide_False by congruence; done).
    split_and!; [lia|lia|done|]. exists j. rewrite list_lookup_insert_ne; [done|]. intros <-. congruence.
  - intros j b. rewrite lookup_upd by done. case_decide as Hj; [done|]. intros Hb.
    rewrite lookup_delete_ne; [by eapply H2|]. intros <-. apply Hj. by eapply H3.
  - intros i j b. rewrite !lookup_upd by done. repeat case_decide; try done. apply H3.
  - intros g Hg. destruct (H4 g ltac:(by right)) as (b & Hb & Hs). exists b. split; [done|].
    rewrite lookup_delete_ne; [done|]. intros <-. by eapply refs_zero.
Qed.

Lemma close_cases s f hs :
  finv s (f :: hs) →
  ∃ a v c, f_arc f = Some a ∧ heap s !! a = Some (v, c) ∧
    ((0 < refs a hs ∧ file_drop s f = Done (set_heap (<[a := (v, c - 1)]> (heap s)) s) ∧
      finv (set_heap (<[a := (v, c - 1)]> (heap s)) s) hs) ∨
     (refs a hs = 0 ∧ ∃ k, ftable s !! k = Some (Some a) ∧
      file_drop s f = (w ← drop_vfile (wld s) v; Done (set_wld w (closed s a k))) ∧
      ∀ w, finv (set_wld w (closed s a k)) hs)).
Proof.
  intros Hi. pose proof Hi as [H1 H2 H3 H4].
  destruct (H4 f ltac:(by left)) as (a & Hf & [[v c] Ha]). exists a, v, c.
  split; [done|]. split; [done|].
  destruct (H1 a v c Ha) as (Hc & _ & Hfr & k & Hk).
  rewrite refs_cons in Hc. unfold points in Hc. rewrite decide_True in Hc by done.
  pose proof (refs_nonneg a hs).
  destruct (decide (refs a hs = 0)) as [Hz|Hz].
  - right. split; [done|]. exists k. split; [done|]. assert (c = 2) as -> by lia. split.
    + eapply file_drop_last; try done. intros j Hj. by eapply H3.
    + intros w. apply finv_wld. by eapply closed_inv.
  - left. split; [lia|]. split; [apply file_drop_shared; (done || lia)|]. split; simpl; try done.
    + intros b u d Hb. destruct (decide (b = a)) as [->|Hne].
      * rewrite lookup_insert_eq in Hb. simplify_eq. split_and!; try done; [lia|lia|by exists k].
      * rewrite lookup_insert_ne in Hb by done. destruct (H1 b u d Hb) as (Hd & Hp & R).
        rewrite refs_cons in Hd, Hp.
        assert (Hzz : points b f = 0) by (unfold points; rewrite decide_False by congruence; done).
        split_and!; [lia|lia|apply R..].
    + intros j b Hb. rewrite lookup_insert_is_Some. destruct (decide (a = b)); [by left|].
      right. split; [done|]. by eapply H2.
    + intros g Hg. destruct (H4 g ltac:(by right)) as (b & Hb & Hs). exists b. split; [done|].
      rewrite lookup_insert_is_Some. destruct (decide (a = b)); [by left|]. by right.
Qed.

(** ** Opening *)
Lemma run_wld {A} s (o : outcome (W * A)) s' x : run s o = Done (s', x) → s' = set_wld (wld s') s.
Proof. unfold run. intros H. apply bind_Done_inv in H as ([w a] & _ & H). by simplify_eq/=. Qed.
Lemma run__wld s (o : outcome W) s' : run_ s o = Done s' → s' = set_wld (wld s') s.
Proof. unfold run_. intros H. apply bind_Done_inv in H as (w & _ & H). by simplify_eq/=. Qed.
Lemma set_wld_trans s s1 s2 :
  s1 = set_wld (wld s1) s → s2 = set_wld (wld s2) s1 → s2 = set_wld (wld s2) s.
Proof. intros H1 H2. rewrite H2, H1. done. Qed.

Lemma open_locked_wld s opts ip i s' r :
  open_locked s opts ip i = Done (s', r) → s' = set_wld (wld s') s.
Proof.
  assert (Hself : s = set_wld (wld s) s) by by destruct s.
  unfold open_locked. intros H. destruct (itype i).
  - apply bind_Done_inv in H as (s1 & H1 & H). simplify_eq. by eapply run__wld.
  - apply bind_Done_inv in H as (s1 & H1 & H). simplify_eq. case_match; [by eapply run__wld|]. by simplify_eq.
  - apply bind_Done_inv in H as (s1 & H1 & H). simplify_eq. case_match; [by eapply run__wld|]. by simplify_eq.
  - case_decide.
    + apply bind_Done_inv in H as (d & _ & H). destruct d; by simplify_eq.
    + apply bind_Done_inv in H as (s1 & H1 & H). simplify_eq. by eapply run__wld.
Qed.

Lemma open_node_wld s opts path s' r :
  open_node s opts path = Done (s', r) → s' = set_wld (wld s') s.
Proof.
  unfold open_node. intros H. destruct (OMode.is_create opts).
  all: apply bind_Done_inv in H as ([s1 r1] & H1 & H); apply run_wld in H1.
  all: destruct r1 as [ip|]; [|by simplify_eq].
  all: apply bind_Done_inv in H as ([s2 i] & H2 & H); apply run_wld in H2.
  all: pose proof (set_wld_trans _ _ _ H1 H2) as H12.
  - eapply set_wld_trans; [exact H12|]. by eapply open_locked_wld.
  - destruct (bool_decide _ && _).
    + apply bind_Done_inv in H as (s3 & H3 & H). simplify_eq.
      eapply set_wld_trans; [exact H12|]. by eapply run__wld.
    + eapply set_wld_trans; [exact H12|]. by eapply open_locked_wld.
Qed.

Lemma empty_slot_spec k t :
  match empty_slot k t with
  | Some i => (k ≤ i)%nat ∧ t !! (i - k)%nat = Some None ∧
              ∀ j, (j < i - k)%nat → ∃ a, t !! j = Some (Some a)
  | None => ∀ j, (j < length t)%nat → ∃ a, t !! j = Some (Some a)
  end.
Proof.
  revert k. induction t as [|[a|] t IH]; intros k; simpl.
  - intros j Hj. lia.
  - specialize (IH (S k)). destruct (empty_slot (S k) t) as [i|].
    + destruct IH as (Hk & Hi & Hj). replace (i - k)%nat with (S (i - S k)) by lia.
      split; [lia|]. split; [done|]. intros [|j] Hj'; [by exists a|]. simpl. apply Hj. lia.
    + intros [|j] Hj; [by exists a|]. apply IH. simpl in Hj. lia.
  - rewrite Nat.sub_diag. split; [done|]. split; [done|]. intros j Hj. lia.
Qed.

Lemma finv_fresh s hs : finv s hs → heap s !! fresh s = None.
Proof.
  intros Hi. destruct (heap s !! fresh s) as [[v c]|] eqn:E; [|done].
  destruct (fi_heap _ _ Hi _ _ _ E) as (_ & _ & Hlt & _). lia.
Qed.

(** The table and the heap with a new file. *)
Definition opened s (k : nat) (v : VFile) : state W :=
  mkSt (wld s) (<[fresh s := (v, 2)]> (heap s)) (S (fresh s)) (<[k := Some (fresh s)]> (ftable s)) (devsw s).

Lemma opened_inv s hs k v f :
  finv s hs → ftable s !! k = Some None → f_arc f = Some (fresh s) → finv (opened s k v) (f :: hs).
Proof.
  intros Hi Hk Hf. pose proof (finv_fresh _ _ Hi) as Hnone. pose proof (refs_fresh _ _ _ Hi Hnone) as Hr.
  pose proof (lookup_lt_Some _ _ _ Hk) as Hlt. pose proof Hi as [H1 H2 H3 H4].
  assert (Hnew : ∀ j, ftable s !! j ≠ Some (Some (fresh s))).
  { intros j Hj. destruct (H2 _ _ Hj) as [x Hx]. congruence. }
  split; simpl.
  - intros a u c. rewrite refs_cons. unfold points. destruct (decide (a = fresh s)) as [->|Hne].
    + rewrite lookup_insert_eq. intros [= <- <-]. rewrite decide_True by done.
      split_and!; [lia|lia|lia|]. exists k. by apply list_lookup_insert_eq.
    + rewrite lookup_insert_ne by done. intros Ha. rewrite decide_False by congruence.
      destruct (H1 a u c Ha) as (Hc & Hp & Hfr & j & Hj). split_and!; [lia|lia|lia|].
      exists j. rewrite list_lookup_insert_ne; [done|]. intros <-. congruence.
  - intros j a. rewrite lookup_upd by done. rewrite lookup_insert_is_Some. case_decide as Hj.
    + intros [= <-]. by left.
    + intros Ha. destruct (decide (fresh s = a)); [by left|]. right. split; [done|]. by eapply H2.
  - intros i j a. rewrite !lookup_upd by done.
    destruct (decide (i = k)), (decide (j = k)); intros E1 E2; simplify_eq; try done.
    + by apply Hnew in E2.
    + by apply Hnew in E1.
    + by eapply H3.
  - intros g [->|Hg]%elem_of_cons.
    + exists (fresh s). split; [done|]. rewrite lookup_insert_eq. by eexists.
    + destruct (H4 g Hg) as (b & Hb & Hs). exists b. split; [done|].
      rewrite lookup_insert_is_Some. destruct (decide (fresh s = b)); [by left|by right].
Qed.

Lemma alloc_cases s hs opts ft s' r :
  finv s hs → ftable_alloc s opts ft = Done (s', r) →
  match r with
  | Some f =>
      ∃ k v, s' = set_wld (wld s') (opened s k v) ∧ ftable s !! k = Some None ∧
        (∀ j, (j < k)%nat → ∃ a, ftable s !! j = Some (Some a)) ∧
        f = mkFile (Some (fresh s)) (OMode.is_read opts) (OMode.is_write opts) ∧ finv s' (f :: hs)
  | None => heap s' = heap s ∧ ftable s' = ftable s ∧ finv s' hs
  end.
Proof.
  intros Hi H. unfold ftable_alloc in H. apply bind_Done_inv in H as ([s1 o] & H1 & H).
  assert (Hw : s1 = set_wld (wld s1) s).
  { destruct ft; [by eapply open_node_wld|]. simplify_eq. by destruct s1. }
  assert (Hi1 : finv s1 hs) by (rewrite Hw; by apply finv_wld).
  destruct o as [v|]; [|simplify_eq; rewrite Hw in Hi1 |- *; done].
  pose proof (finv_fresh _ _ Hi1) as Hnone.
  cbn [arc_new] in H. pose proof (empty_slot_spec 0 (ftable s1)) as Hes. cbn [ftable] in H.
  destruct (empty_slot 0 (ftable s1)) as [k|].
  - destruct Hes as (_ & Hk & Hj). rewrite Nat.sub_0_r in Hk, Hj.
    apply bind_Done_inv in H as (s4 & H4 & H). simplify_eq. unfold arc_clone in H4.
    rewrite (arc_ok _ _ (v, 1)) in H4 by apply lookup_insert_eq. simplify_eq/=.
    rewrite insert_insert_eq. exists k, v. rewrite Hw in Hk, Hj |- *. simpl in *. split_and!; try done.
    apply (finv_wld (opened s k v)). by apply opened_inv.
  - apply bind_Done_inv in H as (s3 & H3 & H). simplify_eq. unfold arc_drop in H3.
    rewrite (arc_ok _ _ (v, 1)) in H3 by apply lookup_insert_eq. simpl in H3.
    rewrite delete_insert_id in H3 by done.
    assert (Hs : s' = set_wld (wld s') (mkSt (wld s1) (heap s1) (S (fresh s1)) (ftable s1) (devsw s1))).
    { destruct v; simpl in H3; [by eapply run__wld|by eapply run__wld|..]; by simplify_eq. }
    rewrite Hs. simpl. rewrite Hw in Hi1 |- *. split_and!; [done|done|].
    destruct Hi1 as [H1' H2' H3' H4']. split; simpl in *; try done.
    intros a u c Ha. destruct (H1' a u c Ha) as (? & ? & ? & ?). split_and!; (done || lia).
Qed.

(** ** Every operation keeps the counts *)
Lemma clone_inv s f hs s' f' :
  finv s hs → f ∈ hs → file_clone s f = Done (s', f') → finv s' (f' :: hs).
Proof.
  intros Hi Hf H. pose proof Hi as [H1 H2 H3 H4]. destruct (H4 f Hf) as (a & Ha & [[v c] Hh]).
  unfold file_clone in H. rewrite Ha in H. unfold arc_clone in H. rewrite (arc_ok _ _ _ Hh) in H.
  simplify_eq/=. destruct (H1 a v c Hh) as (Hc & Hp & R).
  split; simpl; try done.
  - intros b u d. rewrite refs_cons. unfold points. destruct (decide (b = a)) as [->|Hne].
    + rewrite lookup_insert_eq. intros [= <- <-]. rewrite decide_True by done. split_and!; [lia|lia|apply R..].
    + rewrite lookup_insert_ne by done. intros Hb. rewrite decide_False by congruence.
      destruct (H1 b u d Hb) as (? & ? & ?). split_and!; [lia|lia|naive_solver..].
  - intros j b Hb. rewrite lookup_insert_is_Some. destruct (decide (a = b)); [by left|].
    right. split; [done|]. by eapply H2.
  - intros g Hg. assert (g ∈ hs) as Hg' by (by apply elem_of_cons in Hg as [->|]).
    destruct (H4 g Hg') as (b & Hb & Hs). exists b. split; [done|].
    rewrite lookup_insert_is_Some. destruct (decide (a = b)); [by left|by right].
Qed.

Lemma drop_inv s f hs s' : finv s (f :: hs) → file_drop s f = Done s' → finv s' hs.
Proof.
  intros Hi H. destruct (close_cases s f hs Hi) as (a & v & c & _ & _ & [(_ & E & R)|(_ & k & _ & E & R)]).
  - congruence.
  - rewrite E in H. apply bind_Done_inv in H as (w & _ & H). simplify_eq. apply R.
Qed.

Lemma set_off_inv s hs a off : finv s hs → finv (set_off s a off) hs.
Proof.
  intros [H1 H2 H3 H4]. split; simpl; try done.
  - intros b v c Hb. destruct (decide (b = a)) as [->|Hne].
    + rewrite lookup_alter_eq in Hb. destruct (heap s !! a) as [[v' c']|] eqn:E; [|done].
      simplify_eq/=. by eapply H1.
    + rewrite lookup_alter_ne in Hb by done. by eapply H1.
  - intros k b Hb. rewrite lookup_alter_is_Some. by eapply H2.
  - intros f Hf. destruct (H4 f Hf) as (b & Hb & Hs). exists b. by rewrite lookup_alter_is_Some.
Qed.

Lemma run_inv {A} s hs (o : outcome (W * A)) s' x : finv s hs → run s o = Done (s', x) → finv s' hs.
Proof. intros Hi H. rewrite (run_wld _ _ _ _ H). by apply finv_wld. Qed.
Lemma run__inv s hs (o : outcome W) s' : finv s hs → run_ s o = Done s' → finv s' hs.
Proof. intros Hi H. rewrite (run__wld _ _ _ H). by apply finv_wld. Qed.

Lemma write_loop_inv k : ∀ s hs a off ip src n i s' r,
  finv s hs → fnod_write_loop k s a off ip src n i = Done (s', r) → finv s' hs.
Proof.
  induction k as [|k IH]; intros s hs a off ip src n i s' r Hi H; simpl in H;
    (destruct (decide (i < n)); [|by simplify_eq]); [done|].
  apply bind_Done_inv in H as (n1 & _ & H). apply bind_Done_inv in H as (s1 & H1 & H).
  apply bind_Done_inv in H as ([s2 x] & H2 & H). apply bind_Done_inv in H as ([s3 w] & H3 & H).
  apply bind_Done_inv in H as ([[s4 off1] r1] & H4 & H). apply bind_Done_inv in H as (s5 & H5 & H).
  assert (I3 : finv s3 hs) by (eapply run_inv, H3; eapply run_inv, H2; by eapply run__inv, H1).
  assert (I4 : finv s4 hs).
  { destruct w as [wb|]; [|by simplify_eq]. apply bind_Done_inv in H4 as (o1 & _ & H4). simplify_eq.
    by apply set_off_inv. }
  assert (I5 : finv s5 hs) by by eapply run__inv, H5.
  case_decide; [by eapply IH|by simplify_eq].
Qed.

Lemma file_read_inv s hs f dst n s' r : finv s hs → file_read s f dst n = Done (s', r) → finv s' hs.
Proof.
  intros Hi H. unfold file_read in H. destruct (readable f); [|by simplify_eq].
  apply bind_Done_inv in H as (a & _ & H). apply bind_Done_inv in H as ([v c] & _ & H).
  destruct v as [d ip|off ip|p|]; [by eapply run_inv| | |done].
  - apply bind_Done_inv in H as ([s1 x] & H1 & H). apply bind_Done_inv in H as ([s2 y] & H2 & H).
    assert (I2 : finv s2 hs) by (eapply run_inv, H2; by eapply run_inv, H1).
    destruct y; [|by simplify_eq]. apply bind_Done_inv in H as (o & _ & H). simplify_eq. by apply set_off_inv.
  - destruct (rx p); [by eapply run_inv|by simplify_eq].
Qed.

Lemma file_write_inv s hs f src n s' r : finv s hs → file_write s f src n = Done (s', r) → finv s' hs.
Proof.
  intros Hi H. unfold file_write in H. destruct (writable f); [|by simplify_eq].
  apply bind_Done_inv in H as (a & _ & H). apply bind_Done_inv in H as ([v c] & _ & H).
  destruct v as [d ip|off ip|p|]; [by eapply run_inv| | |done].
  - apply bind_Done_inv in H as ([s1 x] & H1 & H). simplify_eq. by eapply write_loop_inv.
  - destruct (tx p); [by eapply run_inv|by simplify_eq].
Qed.

Lemma alloc_inv s hs opts ft s' r :
  finv s hs → ftable_alloc s opts ft = Done (s', r) → finv s' (option_list r ++ hs).
Proof.
  intros Hi H. pose proof (alloc_cases s hs opts ft s' r Hi H) as Hc.
  destruct r as [f|]; [by destruct Hc as (k & v & _ & _ & _ & _ & Hf)|apply Hc].
Qed.

Lemma pipe_inv s hs s' r :
  finv s hs → pipe_alloc s = Done (s', r) →
  finv s' (match r with Some (f0, f1) => f1 :: f0 :: hs | None => hs end).
Proof.
  unfold pipe_alloc. destruct (w_channel (wld s)) as [w ch]. intros Hi H.
  apply bind_Done_inv in H as ([s1 r0] & H0 & H). apply alloc_inv with (hs := hs) in H0; [|by apply finv_wld].
  destruct r0 as [f0|]; [|by simplify_eq/=].
  apply bind_Done_inv in H as ([s2 r1] & H1 & H). apply alloc_inv with (hs := f0 :: hs) in H1; [|done].
  destruct r1 as [f1|]; [by simplify_eq/=|].
  apply bind_Done_inv in H as (s3 & H3 & H). simplify_eq/=. by eapply drop_inv.
Qed.

(** Processes open, duplicate, close, read and write files; the world changes
    in between. *)
Inductive fstep : state W * list File → state W * list File → Prop :=
  | fs_open s hs opts ft s' r : ftable_alloc s opts ft = Done (s', r) → fstep (s, hs) (s', option_list r ++ hs)
  | fs_pipe s hs s' f0 f1 : pipe_alloc s = Done (s', Some (f0, f1)) → fstep (s, hs) (s', f1 :: f0 :: hs)
  | fs_nopipe s hs s' : pipe_alloc s = Done (s', None) → fstep (s, hs) (s', hs)
  | fs_dup s hs f s' f' : f ∈ hs → file_clone s f = Done (s', f') → fstep (s, hs) (s', f' :: hs)
  | fs_close s hs1 f hs2 s' : file_drop s f = Done s' → fstep (s, hs1 ++ f :: hs2) (s', hs1 ++ hs2)
  | fs_read s hs f dst n s' r : f ∈ hs → file_read s f dst n = Done (s', r) → fstep (s, hs) (s', hs)
  | fs_write s hs f src n s' r : f ∈ hs → file_write s f src n = Done (s', r) → fstep (s, hs) (s', hs)
  | fs_world s hs w : fstep (s, hs) (set_wld w s, hs).

Lemma fstep_inv x y : fstep x y → finv x.1 x.2 → finv y.1 y.2.
Proof.
  intros Hs Hi. destruct Hs; simpl in *.
  - by eapply alloc_inv.
  - by eapply (pipe_inv s hs s' (Some (f0, f1))).
  - by eapply (pipe_inv s hs s' None).
  - by eapply clone_inv.
  - eapply drop_inv; [|eassumption]. eapply finv_perm; [|exact Hi]. by rewrite Permutation_middle.
  - by eapply file_read_inv.
  - by eapply file_write_inv.
  - by apply finv_wld.
Qed.

Definition boot (w : W) (dv : list (option nat)) : state W := mkSt w ∅ 0 (replicate NFILE None) dv.

Lemma boot_inv w dv : finv (boot w dv) [].
Proof.
  split; cbn [boot heap ftable fresh]; try done.
  - intros k a H. apply lookup_replicate in H as [H _]. done.
  - intros j k a H. apply lookup_replicate in H as [H _]. done.
  - intros f Hf. by apply elem_of_nil in Hf.
Qed.

Lemma reach_inv w dv s hs : rtc fstep (boot w dv, []) (s, hs) → finv s hs.
Proof.
  intros Hr. change (finv (s, hs).1 (s, hs).2).
  revert Hr. generalize (s, hs). intros y Hr.
  assert (Hx : finv (boot w dv, @nil File).1 (boot w dv, @nil File).2) by apply boot_inv.
  revert Hx. generalize dependent (boot w dv, @nil File). intros x Hr.
  induction Hr as [|x y z Hs Hr IH]; intros Hx; [done|]. apply IH. by eapply fstep_inv.
Qed.

(** Closing a file: dropping a [File] never panics on the counts.  When
    other files refer to the same [VFile], only the count goes down; for the
    last one the slot of the table is emptied, the [VFile] is gone from the
    heap, and its inode is dropped inside a transaction of its own.  The
    counts stay right for the files that remain. *)
Theorem file_close_exact s f hs :
  finv s (f :: hs) →
  ∃ a v c, f_arc f = Some a ∧ heap s !! a = Some (v, c) ∧
    ((0 < refs a hs ∧ file_drop s f = Done (set_heap (<[a := (v, c - 1)]> (heap s)) s) ∧
      finv (set_heap (<[a := (v, c - 1)]> (heap s)) s) hs) ∨
     (refs a hs = 0 ∧ ∃ k, ftable s !! k = Some (Some a) ∧
      file_drop s f = (w ← drop_vfile (wld s) v; Done (set_wld w (closed s a k))) ∧
      ∀ w, finv (set_wld w (closed s a k)) hs)).
Proof. apply close_cases. Qed.

(** Opening a file: when [alloc] gives a file, it is the only one that
    refers to a new [VFile], it has the rights of the mode, its slot is the
    first empty one, and nothing else in the table changes; when it gives
    [None], table and heap are as before. *)
Theorem file_alloc_exact s hs opts ft s' r :
  finv s hs → ftable_alloc s opts ft = Done (s', r) →
  match r with
  | Some f =>
      ∃ k v, s' = set_wld (wld s') (opened s k v) ∧ ftable s !! k = Some None ∧
        (∀ j, (j < k)%nat → ∃ a, ftable s !! j = Some (Some a)) ∧
        f = mkFile (Some (fresh s)) (OMode.is_read opts) (OMode.is_write opts) ∧ finv s' (f :: hs)
  | None => heap s' = heap s ∧ ftable s' = ftable s ∧ finv s' hs
  end.
Proof. apply alloc_cases. Qed.

(** The counts of open files are right in every state that processes reach
    by opening, duplicating, closing, reading and writing files: a [VFile] has
    one pointer from exactly one slot of the table and one from each file that
    refers to it, so the check in [drop] never fails. *)
Theorem file_counts w dv s hs a v c :
  rtc fstep (boot w dv, []) (s, hs) → heap s !! a = Some (v, c) →
  c = 1 + refs a hs ∧ 2 ≤ c ∧
  ∃ k, ftable s !! k = Some (Some a) ∧ ∀ j, ftable s !! j = Some (Some a) → j = k.
Proof.
  intros Hr Ha. apply reach_inv in Hr as Hi. pose proof Hi as [H1 H2 H3 H4].
  destruct (H1 a v c Ha) as (Hc & Hp & _ & k & Hk). split_and!; [done|lia|].
  exists k. split; [done|]. intros j Hj. by eapply H3.
Qed.

(** Opening and closing a file again leaves the table and the heap as they
    were. *)
Theorem file_open_close s hs opts ft s1 f s2 :
  finv s hs → ftable_alloc s opts ft = Done (s1, Some f) → file_drop s1 f = Done s2 →
  ftable s2 = ftable s ∧ heap s2 = heap s.
Proof.
  intros Hi H1 H2.
  destruct (alloc_cases s hs opts ft s1 _ Hi H1) as (k & v & Hs1 & Hk & _ & Hf & Hi1).
  pose proof (finv_fresh _ _ Hi) as Hnone. pose proof (lookup_lt_Some _ _ _ Hk) as Hlt.
  rewrite (file_drop_last s1 f (fresh s) v k) in H2.
  - apply bind_Done_inv in H2 as (w & _ & H2). simplify_eq. rewrite Hs1. simpl.
    rewrite list_insert_insert_eq, list_insert_id by done. by rewrite delete_insert_id.
  - by rewrite Hf.
  - rewrite Hs1. apply lookup_insert_eq.
  - rewrite Hs1. by apply list_lookup_insert_eq.
  - intros j Hj. eapply (fi_inj _ _ Hi1); [exact Hj|]. rewrite Hs1. by apply list_lookup_insert_eq.
Qed.

(** ** Writing in chunks *)
Section chunks.
Variables (ok : W → Prop) (ip : nat) (src : VirtAddr) (lim : Z).
Hypothesis ok_begin : ∀ w, ok w → ∃ w', w_begin_op w = Done w' ∧ ok w'.
Hypothesis ok_end : ∀ w, ok w → ∃ w', w_end_op w = Done w' ∧ ok w'.
Hypothesis ok_lock : ∀ w, ok w → ∃ w' i, w_lock w ip = Done (w', i) ∧ ok w'.
Hypothesis ok_write : ∀ w off m, ok w → 0 < m ≤ max_write → off + m ≤ lim →
  ∃ w', w_write w ip src off m = Done (w', Ok m) ∧ ok w'.

Lemma write_loop_chunks k : ∀ s a c off n i,
  ok (wld s) → heap s !! a = Some (VInode off ip, c) → 0 ≤ i ≤ n → n - i ≤ Z.of_nat k →
  0 ≤ off → off + (n - i) ≤ lim → lim < u32_mod →
  ∃ s', fnod_write_loop k s a off ip src n i = Done (s', n) ∧ ok (wld s') ∧
    heap s' !! a = Some (VInode (off + (n - i)) ip, c) ∧ ftable s' = ftable s.
Proof.
  assert (Hmax : max_write = 3072) by reflexivity.
  induction k as [|k IH]; intros s a c off n i Hw Ha Hi Hk Ho Hl Hu; simpl.
  - rewrite decide_False by lia. assert (i = n) as -> by lia.
    exists s. split_and!; try done. by rewrite Z.sub_diag, Z.add_0_r.
  - destruct (decide (i < n)) as [Hlt|Hge].
    2:{ assert (i = n) as -> by lia. exists s. split_and!; try done. by rewrite Z.sub_diag, Z.add_0_r. }
    rewrite checked_sub_ok by lia. simpl.
    set (n1 := if decide (max_write < n - i) then max_write else n - i).
    assert (Hn1 : 0 < n1 ≤ max_write ∧ n1 ≤ n - i) by (unfold n1; case_decide; lia).
    destruct (ok_begin _ Hw) as (w1 & E1 & O1). unfold run_. rewrite E1. simpl.
    destruct (ok_lock _ O1) as (w2 & x & E2 & O2). unfold run. simpl. rewrite E2. simpl.
    destruct (ok_write _ off n1 O2) as (w3 & E3 & O3); [lia|lia|]. rewrite E3. simpl.
    assert (Hm : as_u32 n1 = n1) by (apply Z.mod_small; lia). rewrite Hm.
    rewrite checked_add32_ok by lia. simpl.
    destruct (ok_end _ O3) as (w4 & E4 & O4). rewrite E4. simpl. rewrite decide_True by done.
    set (s4 := set_wld w4 _).
    destruct (IH s4 a c (off + n1) n (i + n1)) as (s' & Hs' & Ow & Hh & Ht); try done; try lia.
    { simpl. rewrite lookup_alter_eq, Ha. done. }
    exists s'. split_and!; try done. rewrite Hh. do 3 f_equal. lia.
Qed.
End chunks.

(** Writing to a file: in a world where the inode layer can write up to
    [max_write] = 3072 bytes of the file per transaction, [write] of any number
    of bytes ends, needs no larger transaction, reports that all bytes are
    written, and leaves the offset behind them.  The inode layer is only ever
    asked for bytes at [src] itself: the source does not advance with the
    chunks. *)
Theorem file_write_chunks (ok : W → Prop) ip src lim s f a c off n :
  (∀ w, ok w → ∃ w', w_begin_op w = Done w' ∧ ok w') →
  (∀ w, ok w → ∃ w', w_end_op w = Done w' ∧ ok w') →
  (∀ w, ok w → ∃ w' i, w_lock w ip = Done (w', i) ∧ ok w') →
  (∀ w o m, ok w → 0 < m ≤ max_write → o + m ≤ lim →
     ∃ w', w_write w ip src o m = Done (w', Ok m) ∧ ok w') →
  ok (wld s) → f_arc f = Some a → writable f = true → heap s !! a = Some (VInode off ip, c) →
  0 ≤ n → 0 ≤ off → off + n ≤ lim → lim < u32_mod →
  ∃ s', file_write s f src n = Done (s', Ok n) ∧ heap s' !! a = Some (VInode (off + n) ip, c) ∧
    ftable s' = ftable s.
Proof.
  intros Hb He Hl Hwr Hw Hf Hp Ha Hn Ho Hlim Hu. unfold file_write. rewrite Hp. unfold unwrap_arc.
  rewrite Hf. simpl. unfold vfile_write. rewrite (arc_ok _ _ _ Ha). simpl. unfold fnod_write.
  destruct (write_loop_chunks ok ip src lim Hb He Hl Hwr (Z.to_nat n) s a c off n 0)
    as (s' & E & _ & Hh & Ht); try done; try lia.
  exists s'. rewrite E. simpl. rewrite decide_True by done. split; [done|]. split; [|done].
  by rewrite Z.sub_0_r in Hh.
Qed.

(** Rights: without them neither read nor write touches anything. *)
Theorem file_rights s f addr n :
  (readable f = false → file_read s f addr n = Done (s, Err tt)) ∧
  (writable f = false → file_write s f addr n = Done (s, Err tt)).
Proof. unfold file_read, file_write. split; by intros ->. Qed.
End spec.

(** Open modes: [from_usize] gives exactly the rights that the flags
    encode, for every word: bit 0 (write only) takes the right to read away,
    bits 0 and 1 give the right to write, bit 9 creates, bit 10 truncates; and
    a mode is read only exactly when both low bits are clear. *)
Theorem omode_from_usize bits :
  OMode.from_usize bits =
    OMode.mk (negb (Z.testbit bits 0)) (Z.testbit bits 0 || Z.testbit bits 1)
      (Z.testbit bits 10) (Z.testbit bits 9) ∧
  OMode.is_rdonly (OMode.from_usize bits) = negb (Z.testbit bits 0) && negb (Z.testbit bits 1).
Proof.
  assert (H : ∀ j, 0 ≤ j → OMode.has bits (Z.shiftl 1 j) = Z.testbit bits j)
    by (intros j Hj; by apply land_pow2_nonzero).
  assert (E : OMode.from_usize bits =
    OMode.mk (negb (Z.testbit bits 0)) (Z.testbit bits 0 || Z.testbit bits 1)
      (Z.testbit bits 10) (Z.testbit bits 9)) by (by rewrite <- !H by done).
  split; [done|]. rewrite E. unfold OMode.is_rdonly. cbn [OMode.m_read OMode.m_write].
  by destruct (Z.testbit bits 0).
Qed.

(** ** Runs in a small world *)
Module Example.
(** A world that counts transactions: every path names inode 7, a file. *)
#[global] Instance tiny : FileWorld Z := {
  w_begin_op w := Done w;
  w_end_op w := Done (w + 1);
  w_namei w p := Done (w, Some 7%nat);
  w_create w p t mj mn := Done (w, Some 7%nat);
  w_lock w ip := Done (w, mkI 1 7 true TFile MNull 0 1 100 []);
  w_trunc w ip := Done w;
  w_put w ip := Done w;
  w_read w ip dst off n := Done (w, Ok n);
  w_write w ip src off n := Done (w, if decide (n ≤ max_write) then Ok n else Err tt);
  w_dev_read w d dst n := Done (w, Ok n);
  w_dev_write w d src n := Done (w, Ok n);
  w_channel w := (w, 0%nat);
  w_recv w ch dst n := Done (w, Ok n);
  w_send w ch src n := Done (w, Ok n);
  w_copyout w dst x := Done (w, Ok tt);
}.

Definition s0 : state Z := boot 0 devsw_new.
Definition rdwr : OMode.OMode := OMode.from_usize OMode.RDWR.
Definition opened1 : state Z * option File := done_or (ftable_alloc s0 rdwr (Node [97])) (s0, None).
Definition s1 : state Z := opened1.1.
Definition f1 : File := mkFile (Some 0%nat) true true.
Definition s2 : state Z := (done_or (file_clone s1 f1) (s1, f1)).1.

Lemma open1 : ftable_alloc s0 rdwr (Node [97]) = Done (s1, Some f1).
Proof. vm_compute. reflexivity. Qed.

Lemma reach2 : rtc fstep (s0, []) (s2, [f1; f1]).
Proof.
  eapply rtc_l; [exact (fs_open s0 [] rdwr (Node [97]) s1 (Some f1) open1)|].
  apply rtc_once. simpl. eapply (fs_dup s1 [f1] f1 s2 f1); [left|vm_compute; reflexivity].
Qed.
End Example.

Lemma file_counts_witness :
  rtc fstep (Example.s0, []) (Example.s2, [Example.f1; Example.f1]) ∧
  3 = 1 + refs 0 [Example.f1; Example.f1].
Proof.
  split; [exact Example.reach2|].
  refine (proj1 (file_counts 0 devsw_new Example.s2 _ 0%nat (VInode 0 7) 3 Example.reach2 _)).
  vm_compute. reflexivity.
Defined.

Lemma file_close_exact_witness :
  ∃ a v c, f_arc Example.f1 = Some a ∧ heap Example.s2 !! a = Some (v, c).
Proof.
  destruct (file_close_exact Example.s2 Example.f1 [Example.f1]) as (a & v & c & H1 & H2 & _).
  - exact (reach_inv _ _ _ _ Example.reach2).
  - by exists a, v, c.
Defined.

Lemma file_alloc_exact_witness :
  ∃ k v, Example.s1 = set_wld (wld Example.s1) (opened Example.s0 k v).
Proof.
  destruct (file_alloc_exact Example.s0 [] Example.rdwr (Node [97]) Example.s1 (Some Example.f1)
              (boot_inv _ _) Example.open1) as (k & v & H & _).
  by exists k, v.
Defined.

Lemma file_open_close_witness :
  ∃ s2, file_drop Example.s1 Example.f1 = Done s2 ∧ ftable s2 = ftable Example.s0 ∧ heap s2 = heap Example.s0.
Proof.
  eexists. split; [vm_compute; reflexivity|].
  eapply (file_open_close Example.s0 [] Example.rdwr (Node [97]) Example.s1 Example.f1);
    [apply boot_inv|exact Example.open1|vm_compute; reflexivity].
Defined.

Lemma file_write_chunks_witness :
  ∃ s', file_write Example.s1 Example.f1 (User 4096) 10000 = Done (s', Ok 10000) ∧
        heap s' !! 0%nat = Some (VInode 10000 7, 2).
Proof.
  destruct (file_write_chunks (λ _, True) 7%nat (User 4096) 274432 Example.s1 Example.f1 0%nat 2 0 10000)
    as (s' & H1 & H2 & _); try done.
  - intros w _. by exists w.
  - intros w _. by exists (w + 1).
  - intros w _. by eexists w, _.
  - intros w o m _ Hm _. exists w. split; [|done]. simpl. by rewrite decide_True by lia.
  - by exists s'.
Defined.
