(* ===== verification/Devices.v ===== *)
(** * The console as a device, and the listing of processes

    [console::init] sets up the uart and registers the console in the device
    switch, where [open] of a device file finds it; [procdump], which
    Control-P starts, lists the slots in use. *)

From S2P Require Import Prelude Fs File Uart Proc.

Open Scope Z_scope.

(** [Device::major] of the console. *)
Definition console_major : Major := MConsole.

(** [uart::init] *)
Definition uart_init (u : Uart) : list event := Uart.init u.

(** [console::init]; the console is the device [d]. *)
Definition console_init (u : Uart) (t : list (option nat)) (d : nat) : outcome (list event * list (option nat)) :=
  '(t1, r) ← devsw_set t MConsole d;
  match r with
  | Ok _ => Done (uart_init u, t1)
  | Err _ => Panic "called `Result::unwrap()` on an `Err` value"
  end.

Section table.
Context {U T F I : Type}.

(** [Procs::new]; [INITPROC] is set by [user_init]. *)
Definition procs_new : Procs U T F I := mkProcs (replicate NPROC (proc_new 0)) 0 0.

(** [procdump]: the lines it prints, as id, state and name. *)
Definition procdump (ps : Procs U T F I) : list (Z * ProcState * string) :=
  (λ p, (pid (inner p), Proc.state (inner p), name (data p))) <$>
    filter (λ p, Proc.state (inner p) ≠ UNUSED) (pool ps).
End table.

(** The console answers under its own number and under no other, the uart gets
    its registers set once, and a second registration panics. *)
Lemma console_registered u d :
  ∃ t, console_init u devsw_new d = Done (Uart.init u, t) ∧
    devsw_get t console_major = Done (Some d) ∧ devsw_get t MNull = Done None ∧
    ∀ u' d', console_init u' t d' = Panic "called `Result::unwrap()` on an `Err` value".
Proof. eexists. split; [reflexivity|]. by split_and!. Qed.

(** Nothing is listed before the first process. *)
Lemma procdump_new {U T F I} : procdump (procs_new (U := U) (T := T) (F := F) (I := I)) = [].
Proof. reflexivity. Qed.
