(* ===== verification/Syscall.v ===== *)
(** * System calls ([syscall.rs])

    The calling process is slot [kcur] of the process table; its open files are
    [File]s of the file layer, its current directory a position in the table of
    inodes.  A handler returns a value or an error ([Ret]), leaves the caller
    asleep in the middle of the call ([Block]), or ends the process ([Gone]).

    [UserAccess] is what the handlers ask of [copyin] and [copyout];
    [PathWorld] adds the calls of [fs.rs] that the file layer does not need.
    [exec] of [exec.rs] is a parameter here. *)

From S2P Require Import Prelude Fs Vm File Proc.

Open Scope Z_scope.

(** ** Numbers *)
Inductive SysCalls :=
  | Fork | Exit | Wait | Pipe_ | Read | Kill | Exec | Fstat | Chdir | Dup | Getpid | Sbrk | Sleep
  | Uptime | Open | Write | Mknod | Unlink | Link | Mkdir | Close | Invalid.

#[export] Instance SysCalls_eq_dec : EqDecision SysCalls.
Proof. solve_decision. Defined.

(** [syscall_id as usize] *)
Definition discriminant (c : SysCalls) : Z :=
  match c with
  | Fork => 1 | Exit => 2 | Wait => 3 | Pipe_ => 4 | Read => 5 | Kill => 6 | Exec => 7 | Fstat => 8
  | Chdir => 9 | Dup => 10 | Getpid => 11 | Sbrk => 12 | Sleep => 13 | Uptime => 14 | Open => 15
  | Write => 16 | Mknod => 17 | Unlink => 18 | Link => 19 | Mkdir => 20 | Close => 21 | Invalid => 0
  end.

Definition from_usize (n : Z) : SysCalls :=
  match n with
  | 1 => Fork | 2 => Exit | 3 => Wait | 4 => Pipe_ | 5 => Read | 6 => Kill | 7 => Exec | 8 => Fstat
  | 9 => Chdir | 10 => Dup | 11 => Getpid | 12 => Sbrk | 13 => Sleep | 14 => Uptime | 15 => Open
  | 16 => Write | 17 => Mknod | 18 => Unlink | 19 => Link | 20 => Mkdir | 21 => Close
  | _ => Invalid
  end.

Definition MAXARG : nat := 32.
Definition MAXPATH : nat := 128.

(** The fields of the trapframe that system calls use: the argument registers,
    the program counter and the stack pointer. *)
Record Trapframe := mkTf {
  a0 : Z; a1 : Z; a2 : Z; a3 : Z; a4 : Z; a5 : Z; a6 : Z; a7 : Z; epc : Z; tf_sp : Z }.

Definition tf_set_a0 (tf : Trapframe) (v : Z) : Trapframe :=
  mkTf v (a1 tf) (a2 tf) (a3 tf) (a4 tf) (a5 tf) (a6 tf) (a7 tf) (epc tf) (tf_sp tf).

(** Conversions of [usize]. *)
Definition as_i32 (z : Z) : Z := let x := z `mod` u32_mod in if decide (x < 2147483648) then x else x - u32_mod.
Definition as_isize (z : Z) : Z := if decide (z < 9223372036854775808) then z else z - usize_mod.
Definition as_u16 (z : Z) : Z := z `mod` 65536.
Definition minus_one : Z := usize_mod - 1.   (* [-1 as isize as usize] *)

Class UserAccess (W U : Type) := {
  u_copyin : W → U → Z → nat → outcome (result (list Z) unit);
  u_copyout : W → U → Z → list Z → outcome (W * result unit unit);
}.

Class PathWorld (W : Type) := {
  w_link : W → list Z → list Z → outcome (W * result unit unit);
  w_unlink : W → list Z → outcome (W * result unit unit);
  w_dup : W → nat → outcome W;                     (* clone of an [Inode] *)
}.

(** [trim_end_matches(char::from(0))] *)
Definition trim_end (l : list Z) : list Z := reverse (trim_start 0 (reverse l)).

Inductive sysres := Ret (r : result Z unit) | Block | Gone.

Section calls.
Context {W U : Type} `{!FileWorld W, !PathWorld W, !UserAccess W U, !UserMemory U Trapframe}.
Variable proc_addr : nat → Z.
Variable fork_ret : Z.

Abbreviation procdata := (Proc.ProcData U Trapframe File nat).

Record kst := mkK {
  kprocs : Proc.Procs U Trapframe File nat;
  kcur : nat;
  kfile : File.state W;
  kticks : Z;
}.

Definition set_procs (ps : Proc.Procs U Trapframe File nat) (k : kst) : kst :=
  mkK ps (kcur k) (kfile k) (kticks k).
Definition set_file (s : File.state W) (k : kst) : kst := mkK (kprocs k) (kcur k) s (kticks k).
Definition world (k : kst) : W := wld (kfile k).
Definition set_world (w : W) (k : kst) : kst := set_file (set_wld w (kfile k)) k.

(** [CPUS.my_proc().unwrap()] and its data. *)
Definition my_proc (k : kst) : outcome (Proc.Proc U Trapframe File nat) :=
  match Proc.pool (kprocs k) !! kcur k with
  | Some p => Done p
  | None => Panic "called `Option::unwrap()` on a `None` value"
  end.
Definition my_data (k : kst) : outcome procdata := p ← my_proc k; Done (Proc.data p).
Definition set_my_data (k : kst) (d : procdata) : outcome kst :=
  p ← my_proc k;
  Done (set_procs (Proc.upd (kprocs k) (kcur k) (Proc.set_data p d)) k).

Definition set_ofile (d : procdata) (l : list (option File)) : procdata :=
  Proc.mkData (Proc.kstack d) (Proc.sz d) (Proc.uvm d) (Proc.trapframe d) (Proc.ctx_ra d) (Proc.ctx_sp d)
    (Proc.name d) l (Proc.cwd d).
Definition set_cwd (d : procdata) (c : option nat) : procdata :=
  Proc.mkData (Proc.kstack d) (Proc.sz d) (Proc.uvm d) (Proc.trapframe d) (Proc.ctx_ra d) (Proc.ctx_sp d)
    (Proc.name d) (Proc.ofile d) c.
Definition set_tf (d : procdata) (t : option Trapframe) : procdata :=
  Proc.mkData (Proc.kstack d) (Proc.sz d) (Proc.uvm d) t (Proc.ctx_ra d) (Proc.ctx_sp d)
    (Proc.name d) (Proc.ofile d) (Proc.cwd d).

(** ** Arguments *)
Definition unwrap {A} (o : option A) : outcome A :=
  match o with Some x => Done x | None => Panic "called `Option::unwrap()` on a `None` value" end.

Definition arg (d : procdata) (n : nat) : outcome Z :=
  tf ← unwrap (Proc.trapframe d);
  match n with
  | 0 => Done (a0 tf) | 1 => Done (a1 tf) | 2 => Done (a2 tf)
  | 3 => Done (a3 tf) | 4 => Done (a4 tf) | 5 => Done (a5 tf)
  | _ => Panic "arg"
  end%nat.

Definition arg_addr := arg.

(** [fetch_data] of [len] bytes; the second test adds with overflow check. *)
Definition fetch_data (w : W) (d : procdata) (addr : Z) (len : nat) : outcome (result (list Z) unit) :=
  if decide (Proc.sz d ≤ addr) then Done (Err tt)
  else
    e ← checked_add addr (Z.of_nat len);
    if decide (Proc.sz d < e) then Done (Err tt)
    else u ← unwrap (Proc.uvm d); u_copyin w u addr len.

(** [fetch_slice] of elements of [tsz] bytes into a buffer of [n] elements:
    the bytes of the elements fetched. *)
Definition fetch_slice (w : W) (d : procdata) (addr : Z) (tsz n : nat) : outcome (result (list Z) unit) :=
  r ← fetch_data w d addr 8;
  match r with
  | Err _ => Done (Err tt)
  | Ok ptr =>
      addr1 ← checked_add addr 8;
      r ← fetch_data w d addr1 8;
      match r with
      | Err _ => Done (Err tt)
      | Ok lenb =>
          let data := le_val ptr in
          let len := le_val lenb in
          if decide (Z.of_nat n < len ∨ len = 0 ∨ data = 0) then Done (Err tt)
          else u ← unwrap (Proc.uvm d); u_copyin w u data (Z.to_nat len * tsz)
      end
  end.

(** [fetch_str] into [buf], which keeps its old bytes behind the new ones. *)
Definition fetch_str (w : W) (d : procdata) (addr : Z) (buf : list Z) : outcome (list Z * result (list Z) unit) :=
  r ← fetch_slice w d addr 1 (length buf);
  match r with
  | Err _ => Done (buf, Err tt)
  | Ok x =>
      let buf := splice buf 0 x in
      Done (buf, if utf8 buf then Ok (trim_end buf) else Err tt)
  end.

Definition arg_str (w : W) (d : procdata) (n : nat) : outcome (result (list Z) unit) :=
  a ← arg_addr d n;
  '(_, r) ← fetch_str w d a (replicate MAXPATH 0);
  Done r.

Definition arg_fd (d : procdata) (n : nat) : outcome (option (nat * File)) :=
  fd ← arg d n;
  if decide (fd < Z.of_nat (length (Proc.ofile d))) then
    Done (match Proc.ofile d !! Z.to_nat fd with
          | Some (Some f) => Some (Z.to_nat fd, f)
          | _ => None
          end)
  else Done None.

(** The first free descriptor. *)
Fixpoint free_fd (i : nat) (l : list (option File)) : option nat :=
  match l with
  | [] => None
  | None :: _ => Some i
  | Some _ :: l => free_fd (S i) l
  end.

(** [fdalloc]: a file that finds no descriptor is dropped. *)
Definition fdalloc (k : kst) (f : File) : outcome (kst * option nat) :=
  d ← my_data k;
  match free_fd 0 (Proc.ofile d) with
  | Some fd => k1 ← set_my_data k (set_ofile d (<[fd := Some f]> (Proc.ofile d))); Done (k1, Some fd)
  | None => s ← file_drop (kfile k) f; Done (set_file s k, None)
  end.

(** [data.ofile[fd].take()], the file taken being dropped. *)
Definition close_fd (k : kst) (fd : nat) : outcome kst :=
  d ← my_data k;
  o ← index (Proc.ofile d) (Z.of_nat fd);
  k1 ← set_my_data k (set_ofile d (<[fd := None]> (Proc.ofile d)));
  match o with
  | Some f => s ← file_drop (kfile k1) f; Done (set_file s k1)
  | None => Done k1
  end.

(** ** Processes *)
Definition ret (k : kst) (r : result Z unit) : outcome (kst * sysres) := Done (k, Ret r).
Definition ret_opt (k : kst) (r : option Z) : outcome (kst * sysres) :=
  Done (k, Ret (match r with Some x => Ok x | None => Err tt end)).

(** The loop of [exit] over the open files. *)
Fixpoint drop_files (s : File.state W) (l : list (option File)) : outcome (File.state W) :=
  match l with
  | [] => Done s
  | Some f :: l => s1 ← file_drop s f; drop_files s1 l
  | None :: l => drop_files s l
  end.

Definition sys_exit (k : kst) : outcome (kst * sysres) :=
  d ← my_data k;
  n ← arg d 0;
  if decide (kcur k = Proc.initproc (kprocs k)) then Panic "init exiting"
  else
    s1 ← drop_files (kfile k) (Proc.ofile d);
    s2 ← run_ s1 (w_begin_op (wld s1));
    s3 ← match Proc.cwd d with Some ip => run_ s2 (w_put (wld s2) ip) | None => Done s2 end;
    s4 ← run_ s3 (w_end_op (wld s3));
    ps ← Proc.exit proc_addr (kcur k) (as_i32 n) (kprocs k);
    Done (set_procs ps (set_file s4 k), Gone).

Definition sys_getpid (k : kst) : outcome (kst * sysres) :=
  p ← my_proc k; ret k (Ok (Proc.pid (Proc.inner p))).

(** [ofile.clone_from_slice] *)
Fixpoint clone_files (s : File.state W) (l : list (option File)) : outcome (File.state W) :=
  match l with
  | [] => Done s
  | Some f :: l => '(s1, _) ← file_clone s f; clone_files s1 l
  | None :: l => clone_files s l
  end.

Definition sys_fork (k : kst) : outcome (kst * sysres) :=
  d ← my_data k;
  '(ps, r) ← Proc.fork fork_ret (kcur k) (kprocs k);
  match r with
  | Err _ => ret (set_procs ps k) (Err tt)
  | Ok pid =>
      s1 ← clone_files (kfile k) (Proc.ofile d);
      s2 ← match Proc.cwd d with Some ip => run_ s1 (w_dup (wld s1) ip) | None => Done s1 end;
      ret (set_file s2 (set_procs ps k)) (Ok pid)
  end.

(** One round of the loop of [wait]. *)
Definition sys_wait (havekids : bool) (k : kst) : outcome (kst * sysres) :=
  d ← my_data k;
  addr ← arg_addr d 0;
  '(ps, r) ← Proc.wait_round proc_addr (kcur k) addr havekids (kprocs k);
  match r with
  | None => Done (set_procs ps k, Block)
  | Some o => ret_opt (set_procs ps k) o
  end.

Definition sys_sbrk (k : kst) : outcome (kst * sysres) :=
  d ← my_data k;
  x ← arg d 0;
  let addr := Proc.sz d in
  '(ps, r) ← Proc.grow_proc (kcur k) (as_isize x) (kprocs k);
  ret (set_procs ps k) (match r with Ok _ => Ok addr | Err _ => Err tt end).

(** One round of the loop of [sleep]; [ticks_at] is the address of the counter. *)
Definition sleep_round (ticks_at ticks0 : Z) (k : kst) : outcome (kst * sysres) :=
  d ← my_data k;
  n ← arg d 0;
  e ← checked_sub (kticks k) ticks0;
  if decide (e < n) then
    p ← my_proc k;
    if Proc.killed (Proc.inner p) then ret k (Err tt)
    else Done (set_procs (Proc.sleep_enter (kcur k) ticks_at (kprocs k)) k, Block)
  else ret k (Ok 0).
Definition sys_sleep (ticks_at : Z) (k : kst) : outcome (kst * sysres) := sleep_round ticks_at (kticks k) k.

Definition sys_kill (k : kst) : outcome (kst * sysres) :=
  d ← my_data k;
  pid ← arg d 0;
  let '(ps, r) := Proc.kill pid (kprocs k) in
  ret (set_procs ps k) (match r with Ok _ => Ok 0 | Err _ => Err tt end).

Definition sys_uptime (k : kst) : outcome (kst * sysres) := ret k (Ok (kticks k)).

(** ** Files *)
Definition sys_dup (k : kst) : outcome (kst * sysres) :=
  d ← my_data k;
  o ← arg_fd d 0;
  match o with
  | Some (_, f) =>
      '(s1, f1) ← file_clone (kfile k) f;
      '(k1, r) ← fdalloc (set_file s1 k) f1;
      ret_opt k1 (Z.of_nat <$> r)
  | None => ret k (Err tt)
  end.

Definition sys_read (k : kst) : outcome (kst * sysres) :=
  d ← my_data k;
  addr ← arg_addr d 1;
  len ← arg d 2;
  o ← arg_fd d 0;
  match o with
  | Some (_, f) => '(s1, r) ← file_read (kfile k) f (User addr) len; ret (set_file s1 k) r
  | None => ret k (Err tt)
  end.

Definition sys_write (k : kst) : outcome (kst * sysres) :=
  d ← my_data k;
  addr ← arg_addr d 1;
  len ← arg d 2;
  o ← arg_fd d 0;
  match o with
  | Some (_, f) => '(s1, r) ← file_write (kfile k) f (User addr) len; ret (set_file s1 k) r
  | None => ret k (Err tt)
  end.

Definition sys_close (k : kst) : outcome (kst * sysres) :=
  d ← my_data k;
  o ← arg_fd d 0;
  match o with
  | Some (fd, _) => k1 ← close_fd k fd; ret k1 (Ok 0)
  | None => ret k (Err tt)
  end.

Definition sys_fstat (k : kst) : outcome (kst * sysres) :=
  d ← my_data k;
  st ← arg_addr d 0;
  o ← arg_fd d 1;
  match o with
  | Some (_, f) =>
      a ← unwrap_arc f;
      '(s1, r) ← vfile_stat (kfile k) a (User st);
      ret (set_file s1 k) (match r with Ok _ => Ok 0 | Err _ => Err tt end)
  | None => ret k (Err tt)
  end.

(** A transaction around a call on the world. *)
Definition in_op {A} (k : kst) (f : W → outcome (W * A)) : outcome (kst * A) :=
  w1 ← w_begin_op (world k);
  '(w2, r) ← f w1;
  w3 ← w_end_op w2;
  Done (set_world w3 k, r).

Definition and_ok {A} (r : result A unit) : result Z unit :=
  match r with Ok _ => Ok 0 | Err _ => Err tt end.

Definition sys_link (k : kst) : outcome (kst * sysres) :=
  d ← my_data k;
  r ← arg_str (world k) d 0;
  match r with
  | Err _ => ret k (Err tt)
  | Ok old =>
      r ← arg_str (world k) d 1;
      match r with
      | Err _ => ret k (Err tt)
      | Ok new => '(k1, res) ← in_op k (λ w, w_link w old new); ret k1 (and_ok res)
      end
  end.

Definition sys_unlink (k : kst) : outcome (kst * sysres) :=
  d ← my_data k;
  r ← arg_str (world k) d 0;
  match r with
  | Err _ => ret k (Err tt)
  | Ok path => '(k1, res) ← in_op k (λ w, w_unlink w path); ret k1 (and_ok res)
  end.

Definition sys_open (k : kst) : outcome (kst * sysres) :=
  d ← my_data k;
  omode ← arg d 1;
  r ← arg_str (world k) d 0;
  match r with
  | Err _ => ret k (Err tt)
  | Ok path =>
      s1 ← run_ (kfile k) (w_begin_op (world k));
      '(s2, o) ← ftable_alloc s1 (OMode.from_usize omode) (Node path);
      '(k3, fd) ← match o with
                  | Some f => fdalloc (set_file s2 k) f
                  | None => Done (set_file s2 k, None)
                  end;
      s4 ← run_ (kfile k3) (w_end_op (world k3));
      ret_opt (set_file s4 k3) (Z.of_nat <$> fd)
  end.

(** [create(..).and(Some(0))] drops the inode. *)
Definition create_drop (path : list Z) (t : IType) (mj mn : Z) (w : W) : outcome (W * option nat) :=
  '(w1, r) ← w_create w path t mj mn;
  match r with
  | Some ip => w2 ← w_put w1 ip; Done (w2, Some ip)
  | None => Done (w1, None)
  end.

Definition sys_mkdir (k : kst) : outcome (kst * sysres) :=
  d ← my_data k;
  r ← arg_str (world k) d 0;
  match r with
  | Err _ => ret k (Err tt)
  | Ok path =>
      '(k1, res) ← in_op k (create_drop path TDir 0 0);
      ret_opt k1 (match res with Some _ => Some 0 | None => None end)
  end.

Definition sys_mknod (k : kst) : outcome (kst * sysres) :=
  d ← my_data k;
  r ← arg_str (world k) d 0;
  match r with
  | Err _ => ret k (Err tt)
  | Ok path =>
      mj ← arg d 1;
      mn ← arg d 2;
      '(k1, res) ← in_op k (create_drop path TDevice (as_u16 mj) (as_u16 mn));
      ret_opt k1 (match res with Some _ => Some 0 | None => None end)
  end.

(** The closure of [chdir]: the new directory; the inode is dropped when it is
    none, and the old directory when it is one. *)
Definition chdir_in (cwd : option nat) (path : list Z) (w : W) : outcome (W * result nat unit) :=
  '(w1, r) ← w_namei w path;
  match r with
  | None => Done (w1, Err tt)
  | Some ip =>
      '(w2, i) ← w_lock w1 ip;
      if decide (itype i ≠ TDir) then w3 ← w_put w2 ip; Done (w3, Err tt)
      else match cwd with
           | Some old => w3 ← w_put w2 old; Done (w3, Ok ip)
           | None => Done (w2, Ok ip)
           end
  end.

Definition sys_chdir (k : kst) : outcome (kst * sysres) :=
  d ← my_data k;
  r ← arg_str (world k) d 0;
  match r with
  | Err _ => ret k (Err tt)
  | Ok path =>
      '(k1, res) ← in_op k (chdir_in (Proc.cwd d) path);
      match res with
      | Err _ => ret k1 (Err tt)
      | Ok ip => k2 ← set_my_data k1 (set_cwd d (Some ip)); ret k2 (Ok 0)
      end
  end.

(** [exec]: [uargv_at] is where the array [uargv] is on the kernel stack.  An
    element is [Some] when its pointer is not null; the address handed to
    [fetch_str] is that of the element in [uargv]. *)
Definition uarg (uargv : list Z) (i : nat) : list Z := take 16 (drop (16 * i) uargv).
Definition uarg_some (uargv : list Z) (i : nat) : bool := negb (le_val (take 8 (uarg uargv i)) =? 0).

Fixpoint fetch_args (uargv_at : Z) (w : W) (d : procdata) (uargv : list Z) (buf : list Z) (js : list nat)
    : outcome (result (list (list Z)) unit) :=
  match js with
  | [] => Done (Ok [])
  | i :: js =>
      if uarg_some uargv i then
        '(buf1, r) ← fetch_str w d (uargv_at + 16 * Z.of_nat i) buf;
        match r with
        | Err _ => Done (Err tt)
        | Ok s =>
            rest ← fetch_args uargv_at w d uargv buf1 js;
            Done (match rest with Ok l => Ok (s :: l) | Err _ => Err tt end)
        end
      else Done (Ok [])
  end.

Definition sys_exec (uargv_at : Z) (exec : kst → list Z → list (list Z) → outcome (kst * result Z unit))
    (k : kst) : outcome (kst * sysres) :=
  d ← my_data k;
  r ← arg_str (world k) d 0;
  match r with
  | Err _ => ret k (Err tt)
  | Ok path =>
      a ← arg_addr d 1;
      r ← fetch_slice (world k) d a 16 MAXARG;
      match r with
      | Err _ => ret k (Err tt)
      | Ok x =>
          let uargv := splice (replicate (16 * MAXARG) 0) 0 x in
          r ← fetch_args uargv_at (world k) d uargv (replicate 4096 0) (seq 0 MAXARG);
          match r with
          | Err _ => ret k (Err tt)
          | Ok argv => '(k1, res) ← exec k path argv; ret k1 res
          end
      end
  end.

Definition sys_pipe (k : kst) : outcome (kst * sysres) :=
  d ← my_data k;
  fdarr ← arg_addr d 0;
  '(s1, o) ← pipe_alloc (kfile k);
  let k1 := set_file s1 k in
  match o with
  | None => ret k1 (Err tt)
  | Some (rf, wf) =>
      '(k2, r0) ← fdalloc k1 rf;
      match r0 with
      | None => s3 ← file_drop (kfile k2) wf; ret (set_file s3 k2) (Err tt)
      | Some fd0 =>
          '(k3, r1) ← fdalloc k2 wf;
          match r1 with
          | None => k4 ← close_fd k3 fd0; ret k4 (Err tt)
          | Some fd1 =>
              d3 ← my_data k3;
              u ← unwrap (Proc.uvm d3);
              '(w4, c0) ← u_copyout (world k3) u fdarr (le_bytes 8 (Z.of_nat fd0));
              '(w5, bad) ← match c0 with
                           | Err _ => Done (w4, true)
                           | Ok _ =>
                               fdarr1 ← checked_add fdarr 8;
                               '(w5, c1) ← u_copyout w4 u fdarr1 (le_bytes 8 (Z.of_nat fd1));
                               Done (w5, match c1 with Ok _ => false | Err _ => true end)
                           end;
              let k5 := set_world w5 k3 in
              if (bad : bool) then
                k6 ← close_fd k5 fd0; k7 ← close_fd k6 fd1; ret k7 (Err tt)
              else ret k5 (Ok 0)
          end
      end
  end.

(** ** Dispatch *)
Variables (ticks_at uargv_at : Z).
Variable exec : kst → list Z → list (list Z) → outcome (kst * result Z unit).

Definition invalid (k : kst) : outcome (kst * sysres) := Panic "internal error: entered unreachable code".

Definition TABLE : list ((kst → outcome (kst * sysres)) * string) :=
  [ (invalid, "");
    (sys_fork, "() -> isize");
    (sys_exit, "(xstatus: i32) -> !");
    (sys_wait false, "(xstatus: &mut i32) -> isize");
    (sys_pipe, "(p: &mut [usize]) -> isize");
    (sys_read, "(fd: usize, buf: &mut [u8]) -> isize");
    (sys_kill, "(pid: usize) -> isize");
    (sys_exec uargv_at exec, "(filename: &str, argv: &[&str]) -> isize");
    (sys_fstat, "(fd: usize, st: &mut Stat) -> isize");
    (sys_chdir, "(dirname: &str) -> isize");
    (sys_dup, "(fd: usize) -> isize");
    (sys_getpid, "() -> isize");
    (sys_sbrk, "(n: usize) -> isize");
    (sys_sleep ticks_at, "(n: usize) -> isize");
    (sys_uptime, "() -> isize");
    (sys_open, "(filename: &str, flags: isize) -> isize");
    (sys_write, "(fd: usize, b: &[u8]) -> isize");
    (sys_mknod, "(file: &str, mj: usize, mi: usize) -> isize");
    (sys_unlink, "(file: &str) -> isize");
    (sys_link, "(file1: &str, file2: &str) -> isize");
    (sys_mkdir, "(dir: &str) -> isize");
    (sys_close, "(fd: usize) -> isize") ].

(** The value goes to [a0] of the trapframe. *)
Definition set_result (k : kst) (v : Z) : outcome kst :=
  d ← my_data k;
  tf ← unwrap (Proc.trapframe d);
  set_my_data k (set_tf d (Some (tf_set_a0 tf v))).

Definition syscall (k : kst) : outcome (kst * sysres) :=
  d ← my_data k;
  tf ← unwrap (Proc.trapframe d);
  let id := from_usize (a7 tf) in
  match id with
  | Invalid => k1 ← set_result k minus_one; Done (k1, Ret (Ok minus_one))
  | _ =>
      h ← index TABLE (discriminant id);
      '(k1, r) ← h.1 k;
      match r with
      | Ret r =>
          let v := match r with Ok v => v | Err _ => minus_one end in
          k2 ← set_result k1 v; Done (k2, Ret (Ok v))
      | _ => Done (k1, r)
      end
  end.
End calls.
Arguments kst : clear implicits.
