(* ===== verification/SyscallSpec.v ===== *)
(** * Properties of the system calls

    The table and the numbers agree; the calls on descriptors keep the counts
    of open files right ([owns]); strings cross the boundary unchanged; and the
    calls that cannot work: [fstat] and [exec] with arguments. *)

From S2P Require Import Prelude Fs Vm File FileSpec Proc Syscall.

Open Scope Z_scope.

(** ** Numbers *)
Lemma from_usize_discriminant c : from_usize (discriminant c) = c.
Proof. by destruct c. Qed.

Lemma discriminant_from_usize n : 1 ≤ n ≤ 21 → discriminant (from_usize n) = n.
Proof.
  intros Hn. assert (Hin : n ∈ seqZ 1 21) by (apply elem_of_seqZ; lia). clear Hn. revert n Hin.
  apply Forall_forall. vm_compute. repeat constructor.
Qed.

Lemma from_usize_invalid n : n < 1 ∨ 21 < n → from_usize n = Invalid.
Proof.
  intros Hn. destruct (decide (from_usize n = Invalid)) as [|Hne]; [done|exfalso].
  destruct n as [|p|p]; [done| |done].
  do 5 (destruct p as [p|p|]; try (by simpl in Hne); try lia).
Qed.

(** ** Descriptor tables *)
Definition files (l : list (option File)) : list File := omap id l.

Lemma files_insert l fd f :
  l !! fd = Some None → files (<[fd := Some f]> l) ≡ₚ f :: files l.
Proof.
  revert fd. induction l as [|o l IH]; intros fd Hfd; [done|].
  destruct fd as [|fd]; simplify_eq/=; [done|].
  destruct o as [g|]; simpl; [|by apply IH].
  etrans; [apply perm_skip, (IH fd Hfd)|apply perm_swap].
Qed.

Lemma files_delete l fd f :
  l !! fd = Some (Some f) → files l ≡ₚ f :: files (<[fd := None]> l).
Proof.
  revert fd. induction l as [|o l IH]; intros fd Hfd; [done|].
  destruct fd as [|fd]; simplify_eq/=; [done|].
  destruct o as [g|]; simpl; [|by apply IH].
  etrans; [apply perm_skip, (IH fd Hfd)|apply perm_swap].
Qed.

Lemma files_none l fd : l !! fd = Some None → files (<[fd := None]> l) = files l.
Proof. intros H. by rewrite list_insert_id. Qed.

Lemma files_replicate n : files (replicate n None) = [].
Proof. by induction n. Qed.

Lemma free_fd_spec i l :
  match free_fd i l with
  | Some fd => (i ≤ fd)%nat ∧ l !! (fd - i)%nat = Some None ∧
               ∀ j, (j < fd - i)%nat → ∃ f, l !! j = Some (Some f)
  | None => ∀ j, (j < length l)%nat → ∃ f, l !! j = Some (Some f)
  end.
Proof.
  revert i. induction l as [|[f|] l IH]; intros i; simpl.
  - intros j Hj. lia.
  - specialize (IH (S i)). destruct (free_fd (S i) l) as [fd|].
    + destruct IH as (Hi & Hl & Hj). replace (fd - i)%nat with (S (fd - S i)) by lia.
      split; [lia|]. split; [done|]. intros [|j] Hj'; [by exists f|]. simpl. apply Hj. lia.
    + intros [|j] Hj; [by exists f|]. apply IH. simpl in Hj. lia.
  - rewrite Nat.sub_diag. split; [done|]. split; [done|]. intros j Hj. lia.
Qed.

Section spec.
Context {W U : Type} `{!FileWorld W, !PathWorld W, !UserAccess W U, !UserMemory U Trapframe}.
Implicit Types (k : kst W U) (rest : list File) (d : Proc.ProcData U Trapframe File nat).

(** [k] is [k0] but for the private data of the calling process and the
    files. *)
Definition others k : list (Proc.Proc U Trapframe File nat) := delete (kcur k) (Proc.pool (kprocs k)).
Definition frame k0 k : Prop :=
  kcur k = kcur k0 ∧ others k = others k0 ∧
  ∀ p0, my_proc k0 = Done p0 → ∃ p, my_proc k = Done p ∧ Proc.inner p = Proc.inner p0.

(** The calling process has data [d], and its files are counted. *)
Definition owns_d k0 k d rest : Prop :=
  frame k0 k ∧ my_data k = Done d ∧ finv (kfile k) (files (Proc.ofile d) ++ rest).
Definition owns k0 k rest : Prop := ∃ d, owns_d k0 k d rest.

Lemma delete_insert_same {A} (l : list A) i x : delete i (<[i := x]> l) = delete i l.
Proof. revert i. induction l as [|y l IH]; intros [|i]; simpl; f_equal; auto. Qed.

Lemma frame_refl k : frame k k.
Proof. split_and!; eauto. Qed.

Lemma my_data_set k0 k d k' :
  set_my_data k d = Done k' → my_data k' = Done d ∧ kfile k' = kfile k ∧ (frame k0 k → frame k0 k').
Proof.
  unfold set_my_data, my_data. intros H. apply bind_Done_inv in H as (p & Hp & H).
  unfold my_proc in Hp. destruct (Proc.pool (kprocs k) !! kcur k) as [q|] eqn:Eq; [|done]. simplify_eq.
  assert (Hm : my_proc (set_procs (Proc.upd (kprocs k) (kcur k) (Proc.set_data p d)) k) = Done (Proc.set_data p d)).
  { unfold my_proc. simpl. by rewrite list_lookup_insert_eq by (by eapply lookup_lt_Some). }
  rewrite Hm. split; [done|]. split; [done|]. intros (H1 & H2 & H3). split_and!; [done| |].
  - unfold others in *. simpl. by rewrite delete_insert_same.
  - intros p0 Hp0. destruct (H3 p0 Hp0) as (p1 & Hp1 & Hin). exists (Proc.set_data p d). split; [done|].
    unfold my_proc in Hp1. rewrite Eq in Hp1. by simplify_eq.
Qed.

Lemma fdalloc_owns k0 k d f rest k' r :
  frame k0 k → my_data k = Done d → finv (kfile k) (f :: files (Proc.ofile d) ++ rest) →
  fdalloc k f = Done (k', r) → owns k0 k' rest.
Proof.
  intros Hfr Hd Hi H. unfold fdalloc in H. rewrite Hd in H. simpl in H.
  pose proof (free_fd_spec 0 (Proc.ofile d)) as Hf.
  destruct (free_fd 0 (Proc.ofile d)) as [fd|].
  - destruct Hf as (_ & Hfd & _). rewrite Nat.sub_0_r in Hfd.
    apply bind_Done_inv in H as (k1 & Hk & H). simplify_eq.
    apply (my_data_set k0) in Hk as (Hd' & Hs & Hfr'). eexists. split; [by apply Hfr'|].
    split; [exact Hd'|]. rewrite Hs. simpl.
    eapply finv_perm; [|exact Hi]. by rewrite (files_insert _ _ f Hfd).
  - apply bind_Done_inv in H as (s & Hs & H). simplify_eq. exists d. split; [done|]. split; [done|]. simpl.
    by eapply drop_inv.
Qed.

Lemma close_fd_owns k0 k fd rest k' : owns k0 k rest → close_fd k fd = Done k' → owns k0 k' rest.
Proof.
  intros (d & Hfr & Hd & Hi) H. unfold close_fd in H. rewrite Hd in H. simpl in H.
  apply bind_Done_inv in H as (o & Ho & H). apply index_inv in Ho as [_ Ho]. rewrite Nat2Z.id in Ho.
  apply bind_Done_inv in H as (k1 & Hk & H). apply (my_data_set k0) in Hk as (Hd' & Hs & Hfr').
  destruct o as [f|].
  - apply bind_Done_inv in H as (s & Hdr & H). simplify_eq. eexists. split; [by apply Hfr'|]. split; [exact Hd'|]. simpl.
    rewrite Hs in Hdr. eapply drop_inv; [|exact Hdr]. eapply finv_perm; [|exact Hi].
    by rewrite (files_delete _ _ f Ho).
  - simplify_eq. eexists. split; [by apply Hfr'|]. split; [exact Hd'|]. rewrite Hs. simpl. by rewrite files_none.
Qed.

Lemma arg_fd_in d n fd f : arg_fd d n = Done (Some (fd, f)) → f ∈ files (Proc.ofile d).
Proof.
  unfold arg_fd. intros H. apply bind_Done_inv in H as (x & _ & H). case_decide; [|done].
  destruct (Proc.ofile d !! Z.to_nat x) as [[g|]|] eqn:E; simplify_eq.
  rewrite (files_delete _ _ f E). left.
Qed.

Lemma owns_wld k0 k rest w : owns k0 k rest → owns k0 (set_world w k) rest.
Proof. intros (d & Hfr & Hd & Hi). exists d. split; [done|]. split; [done|]. by apply finv_wld. Qed.

(** A branch that leaves files and descriptors alone. *)
Ltac injection_ret := unfold ret, ret_opt in *; simplify_eq.
Ltac unchanged := injection_ret; eexists; split; [eassumption|]; split; [eassumption|simpl; eassumption].

Lemma stat_inv (s : File.state W) hs a addr s' r :
  finv s hs → vfile_stat s a addr = Done (s', r) → finv s' hs.
Proof.
  intros Hi H. unfold vfile_stat in H. apply bind_Done_inv in H as ([v c] & _ & H).
  destruct v; try (by simplify_eq);
    (apply bind_Done_inv in H as ([s1 i] & H1 & H); eapply run_inv, H; by eapply run_inv, H1).
Qed.

(** The handlers that work on descriptors. *)
Lemma sys_dup_owns k0 k rest k' r : owns k0 k rest → sys_dup k = Done (k', r) → owns k0 k' rest.
Proof.
  intros (d & Hfr & Hd & Hi) H. unfold sys_dup in H. rewrite Hd in H. simpl in H.
  apply bind_Done_inv in H as (o & Ho & H). destruct o as [[fd f]|]; [|unchanged].
  apply bind_Done_inv in H as ([s1 f1] & Hc & H). apply bind_Done_inv in H as ([k1 r1] & Hf & H).
  injection_ret. eapply (fdalloc_owns k0 (set_file s1 k) d f1); [exact Hfr|exact Hd| |exact Hf].
  simpl. eapply clone_inv; [exact Hi| |exact Hc].
  apply elem_of_app. left. by eapply arg_fd_in.
Qed.

Lemma sys_close_owns k0 k rest k' r : owns k0 k rest → sys_close k = Done (k', r) → owns k0 k' rest.
Proof.
  intros (d & Hfr & Hd & Hi) H. unfold sys_close in H. rewrite Hd in H. simpl in H.
  apply bind_Done_inv in H as (o & Ho & H). destruct o as [[fd f]|]; [|unchanged].
  apply bind_Done_inv in H as (k1 & Hc & H). injection_ret. eapply close_fd_owns; [|exact Hc]. unchanged.
Qed.

Lemma sys_read_owns k0 k rest k' r : owns k0 k rest → sys_read k = Done (k', r) → owns k0 k' rest.
Proof.
  intros (d & Hfr & Hd & Hi) H. unfold sys_read in H. rewrite Hd in H. simpl in H.
  apply bind_Done_inv in H as (a & _ & H). apply bind_Done_inv in H as (n & _ & H).
  apply bind_Done_inv in H as (o & Ho & H). destruct o as [[fd f]|]; [|unchanged].
  apply bind_Done_inv in H as ([s1 x] & Hr & H). injection_ret. exists d. split; [done|]. split; [done|]. simpl.
  by eapply file_read_inv.
Qed.

Lemma sys_write_owns k0 k rest k' r : owns k0 k rest → sys_write k = Done (k', r) → owns k0 k' rest.
Proof.
  intros (d & Hfr & Hd & Hi) H. unfold sys_write in H. rewrite Hd in H. simpl in H.
  apply bind_Done_inv in H as (a & _ & H). apply bind_Done_inv in H as (n & _ & H).
  apply bind_Done_inv in H as (o & Ho & H). destruct o as [[fd f]|]; [|unchanged].
  apply bind_Done_inv in H as ([s1 x] & Hr & H). injection_ret. exists d. split; [done|]. split; [done|]. simpl.
  by eapply file_write_inv.
Qed.

Lemma sys_open_owns k0 k rest k' r : owns k0 k rest → sys_open k = Done (k', r) → owns k0 k' rest.
Proof.
  intros (d & Hfr & Hd & Hi) H. unfold sys_open in H. rewrite Hd in H. simpl in H.
  apply bind_Done_inv in H as (m & _ & H). apply bind_Done_inv in H as (p & _ & H).
  destruct p as [path|]; [|unchanged].
  apply bind_Done_inv in H as (s1 & H1 & H). apply bind_Done_inv in H as ([s2 o] & H2 & H).
  apply bind_Done_inv in H as ([k3 fd] & H3 & H). apply bind_Done_inv in H as (s4 & H4 & H). injection_ret.
  apply (run__inv _ _ _ _ Hi) in H1. apply (alloc_inv _ _ _ _ _ _ H1) in H2.
  assert (Ho : owns k0 k3 rest).
  { destruct o as [f|]; simpl in H2; [|unchanged].
    by eapply (fdalloc_owns k0 (set_file s2 k) d f); [exact Hfr|exact Hd|exact H2|exact H3]. }
  destruct Ho as (d3 & Hfr3 & Hd3 & Hi3). exists d3. split; [done|]. split; [done|]. simpl. by eapply run__inv.
Qed.

Lemma sys_pipe_owns k0 k rest k' r : owns k0 k rest → sys_pipe k = Done (k', r) → owns k0 k' rest.
Proof.
  intros (d & Hfr & Hd & Hi) H. unfold sys_pipe in H. rewrite Hd in H. simpl in H.
  apply bind_Done_inv in H as (a & _ & H). apply bind_Done_inv in H as ([s1 o] & H1 & H).
  apply (pipe_inv _ _ _ _ Hi) in H1.
  destruct o as [[rf wf]|]; [|unchanged].
  apply bind_Done_inv in H as ([k2 r0] & H2 & H).
  assert (O2 : owns k0 k2 (wf :: rest)).
  { eapply (fdalloc_owns k0 (set_file s1 k) d rf); [exact Hfr|exact Hd| |exact H2]. simpl.
    eapply finv_perm; [|exact H1]. rewrite <- Permutation_middle. apply perm_swap. }
  destruct O2 as (d2 & Hfr2 & Hd2 & Hi2).
  assert (Hi2' : finv (kfile k2) (wf :: files (Proc.ofile d2) ++ rest))
    by (eapply finv_perm; [|exact Hi2]; by rewrite <- Permutation_middle).
  destruct r0 as [fd0|].
  2:{ apply bind_Done_inv in H as (s3 & H3 & H). injection_ret. exists d2. split; [done|]. split; [done|]. by eapply drop_inv. }
  apply bind_Done_inv in H as ([k3 r1] & H3 & H).
  assert (O3 : owns k0 k3 rest) by (eapply fdalloc_owns; [exact Hfr2|exact Hd2|exact Hi2'|exact H3]).
  destruct r1 as [fd1|].
  2:{ apply bind_Done_inv in H as (k4 & H4 & H). injection_ret. by eapply close_fd_owns. }
  apply bind_Done_inv in H as (d3 & _ & H). apply bind_Done_inv in H as (u & _ & H).
  apply bind_Done_inv in H as ([w4 c0] & _ & H). apply bind_Done_inv in H as ([w5 bad] & _ & H).
  assert (O5 : owns k0 (set_world w5 k3) rest) by by apply owns_wld.
  destruct bad; [|by injection_ret].
  apply bind_Done_inv in H as (k6 & H6 & H). apply bind_Done_inv in H as (k7 & H7 & H). injection_ret.
  eapply close_fd_owns; [|exact H7]. by eapply close_fd_owns.
Qed.
(** ** All processes *)
Abbreviation proc := (Proc.Proc U Trapframe File nat).
Abbreviation procs := (Proc.Procs U Trapframe File nat).

Definition pfiles (p : proc) : list File := files (Proc.ofile (Proc.data p)).
Definition files_of (l : list proc) : list File := l ≫= pfiles.
Definition dead (p : proc) : Prop :=
  Proc.state (Proc.inner p) = UNUSED ∨ Proc.state (Proc.inner p) = ZOMBIE.

(** The counts are right for the files of all processes, and slots that are
    free or dead hold none. *)
Record kinv k : Prop := {
  ki_counts : finv (kfile k) (files_of (Proc.pool (kprocs k)));
  ki_dead : ∀ p, p ∈ Proc.pool (kprocs k) → dead p → pfiles p = [];
}.

(** The calling process is one that runs. *)
Definition alive k : Prop := ∃ p, my_proc k = Done p ∧ ¬ dead p.

Lemma my_proc_lookup k p : my_proc k = Done p ↔ Proc.pool (kprocs k) !! kcur k = Some p.
Proof. unfold my_proc. destruct (Proc.pool (kprocs k) !! kcur k); split; intros; by simplify_eq. Qed.

Lemma files_of_split k p :
  my_proc k = Done p → files_of (Proc.pool (kprocs k)) ≡ₚ pfiles p ++ files_of (others k).
Proof.
  intros Hp%my_proc_lookup. unfold files_of, others.
  by rewrite (delete_Permutation _ _ _ Hp) at 1.
Qed.

Lemma kinv_owns k : kinv k → alive k → owns k k (files_of (others k)).
Proof.
  intros [Hc _] (p & Hp & _). exists (Proc.data p). split; [apply frame_refl|].
  split; [unfold my_data; by rewrite Hp|]. eapply finv_perm; [|exact Hc]. by apply files_of_split.
Qed.

Lemma owns_kinv k k' :
  kinv k → alive k → owns k k' (files_of (others k)) → kinv k'.
Proof.
  intros [_ Hd] (p & Hp & Hal) (d & (H1 & H2 & H3) & Hm & Hi).
  destruct (H3 p Hp) as (p' & Hp' & Hin). unfold my_data in Hm. rewrite Hp' in Hm. simplify_eq/=.
  split.
  - eapply finv_perm; [|exact Hi]. rewrite (files_of_split k' p' Hp'). by rewrite H2.
  - intros q Hq Hdq. apply my_proc_lookup in Hp' as Hl. rewrite (delete_Permutation _ _ _ Hl) in Hq.
    apply elem_of_cons in Hq as [->|Hq]; [unfold dead in *; by rewrite Hin in Hdq|].
    apply Hd; [|done]. apply my_proc_lookup in Hp as Hl0. rewrite (delete_Permutation _ _ _ Hl0).
    right. fold (others k). rewrite <- H2. unfold others. by rewrite H1 in Hq |- *.
Qed.

(** ** Operations of the process table that leave files alone *)
Definition same_files (p p' : proc) : Prop :=
  pfiles p' = pfiles p ∧ (dead p' → dead p ∨ pfiles p = []).
Definition quiet (ps ps' : procs) : Prop := Forall2 same_files (Proc.pool ps) (Proc.pool ps').

#[export] Instance same_files_preorder : PreOrder same_files.
Proof.
  split; [intros p; split; auto|]. intros p q r [E1 D1] [E2 D2]. split; [congruence|].
  intros Hr. destruct (D2 Hr) as [Hq|Hq]; [auto|right; congruence].
Qed.

Lemma same_files_inner (p p' : proc) :
  Proc.ofile (Proc.data p') = Proc.ofile (Proc.data p) → Proc.inner p' = Proc.inner p → same_files p p'.
Proof. intros Hf Hi. unfold same_files, pfiles, dead. rewrite Hf, Hi. auto. Qed.
#[export] Instance quiet_preorder : PreOrder quiet.
Proof. split; [intros ps; unfold quiet; reflexivity|]. intros x y z. unfold quiet. apply transitivity. Qed.

Lemma same_files_refl p : same_files p p.
Proof. reflexivity. Qed.
#[local] Hint Resolve same_files_refl : core.

Lemma quiet_upd ps c p p' :
  Proc.pool ps !! c = Some p → same_files p p' → quiet ps (Proc.upd ps c p').
Proof.
  intros Hc Hs. unfold quiet. simpl. apply Forall2_same_length_lookup_2; [by rewrite length_insert|].
  intros i x y Hx Hy. rewrite lookup_upd in Hy by (by eapply lookup_lt_Some).
  case_decide; by simplify_eq.
Qed.

Lemma quiet_files ps ps' : quiet ps ps' → files_of (Proc.pool ps') = files_of (Proc.pool ps).
Proof.
  unfold quiet, files_of. induction 1 as [|p p' l l' [E _] _ IH]; [done|]. cbn. unfold pfiles in *.
  by rewrite E, IH.
Qed.

Lemma kinv_quiet k ps : kinv k → quiet (kprocs k) ps → kinv (set_procs ps k).
Proof.
  intros [Hc Hd] Hq. split; simpl; [by rewrite (quiet_files _ _ Hq)|].
  intros p' [i Hi]%list_elem_of_lookup Hdd.
  destruct (Forall2_lookup_r _ _ _ _ _ Hq Hi) as (p & Hp & [E D]). rewrite E.
  destruct (D Hdd) as [Hp'|]; [|done]. apply Hd; [by eapply list_elem_of_lookup_2|done].
Qed.

Lemma quiet_wakeup cur chn ps : quiet ps (Proc.wakeup cur chn ps).
Proof.
  unfold quiet, Proc.wakeup. simpl. apply Forall2_same_length_lookup_2; [by rewrite length_imap|].
  intros i p q Hp Hq. rewrite list_lookup_imap, Hp in Hq. simplify_eq/=.
  unfold Proc.wake_one. destruct cur; [|done]. case_decide; [|done]. split; [done|].
  unfold dead. simpl. naive_solver.
Qed.

Lemma quiet_kill pd ps : quiet ps (Proc.kill pd ps).1.
Proof.
  unfold Proc.kill. assert (H : ∀ l l', Proc.kill_loop pd l = Some l' → Forall2 same_files l l').
  { induction l as [|p l IH]; intros l' H; simpl in H; [done|]. case_decide.
    - simplify_eq. constructor; [|reflexivity].
      split; [done|]. unfold dead. simpl. case_decide; simpl; naive_solver.
    - destruct (Proc.kill_loop pd l) as [l1|]; [|done]. simplify_eq. constructor; [done|]. by apply IH. }
  destruct (Proc.kill_loop pd (Proc.pool ps)) as [l|] eqn:E; simpl; [|reflexivity].
  unfold quiet. simpl. by apply H.
Qed.

Lemma quiet_sleep c chn ps : quiet ps (Proc.sleep_enter c chn ps).
Proof.
  unfold Proc.sleep_enter. destruct (Proc.pool ps !! c) as [p|] eqn:E; [|reflexivity].
  eapply quiet_upd; [done|]. split; [done|]. unfold dead. simpl. naive_solver.
Qed.

Lemma quiet_grow c n ps ps' r : Proc.grow_proc c n ps = Done (ps', r) → quiet ps ps'.
Proof.
  unfold Proc.grow_proc. intros H. destruct (Proc.pool ps !! c) as [p|] eqn:E; [|done].
  destruct (Proc.uvm (Proc.data p)); [|done].
  repeat case_decide; try (apply bind_Done_inv in H as (new & _ & H)); repeat case_match; simplify_eq;
    (eapply quiet_upd; [done|by apply same_files_inner]).
Qed.

Lemma quiet_wait_scan c addr hk l l' r :
  Proc.wait_scan c addr hk l = Done (l', r) → Forall2 same_files l l'.
Proof.
  revert hk l' r. induction l as [|p l IH]; intros hk l' r H; simpl in H; [by simplify_eq|].
  assert (Hrefl : Forall2 same_files l l) by reflexivity.
  repeat case_decide.
  - destruct (Proc.uvm (Proc.data p)); [|done]. destruct (uvm_copyout _ _ _); simplify_eq.
    + constructor; [|done]. split; [done|]. left. by right.
    + by constructor.
  - apply bind_Done_inv in H as ([l1 r1] & Hs & H). simplify_eq. constructor; [done|]. by eapply IH.
  - apply bind_Done_inv in H as ([l1 r1] & Hs & H). simplify_eq. constructor; [done|]. by eapply IH.
Qed.

Variable proc_addr : nat → Z.

Lemma quiet_wait c addr hk ps ps' r :
  Proc.wait_round proc_addr c addr hk ps = Done (ps', r) → quiet ps ps'.
Proof.
  unfold Proc.wait_round. intros H. apply bind_Done_inv in H as ([l x] & H1 & H).
  apply quiet_wait_scan in H1.
  assert (Hq : quiet ps (Proc.mkProcs l (Proc.nextid ps) (Proc.initproc ps))) by done.
  destruct x; [by simplify_eq|by simplify_eq|].
  destruct (l !! c); [|done]. case_match; simplify_eq; [done|].
  etrans; [exact Hq|apply quiet_sleep].
Qed.

Lemma quiet_reparent cur p ps : quiet ps (Proc.reparent proc_addr cur p ps).
Proof.
  unfold Proc.reparent. generalize (length (Proc.pool ps)). intros n. generalize 0%nat.
  revert ps. induction n as [|n IH]; intros ps j; simpl; [reflexivity|].
  etrans; [|apply IH]. destruct (Proc.pool ps !! j) as [q|] eqn:E; [|reflexivity].
  case_decide; [|reflexivity]. etrans; [|apply quiet_wakeup].
  eapply quiet_upd; [done|by apply same_files_inner].
Qed.

Variable fork_ret : Z.

Lemma alloc_proc_files ps ps1 r :
  Proc.alloc_proc fork_ret ps = (ps1, r) →
  match r with
  | None => quiet ps ps1
  | Some i => ∃ q x, Proc.pool ps !! i = Some q ∧ dead q ∧ Proc.pool ps1 = <[i := x]> (Proc.pool ps) ∧
                     pfiles x = pfiles q
  end.
Proof.
  unfold Proc.alloc_proc. destruct (Proc.pool ps) as [|p l] eqn:El; simpl.
  - intros [= <- <-]. unfold quiet. simpl. by rewrite El.
  - destruct (Proc.state (Proc.inner p)) eqn:Es;
      try (intros [= <- <-]; unfold quiet; simpl; rewrite El; reflexivity).
    assert (Hfree : ∀ inn, same_files p (Proc.free_proc (Proc.set_inner p inn))).
    { intros inn. split; [done|]. intros _. left. by left. }
    destruct new_trapframe as [tf|]; [destruct (Proc.proc_uvmcreate tf)|].
    all: intros [= <- <-]; try (unfold quiet; simpl; rewrite El; constructor; [apply Hfree|reflexivity]).
    eexists p, _. split; [done|]. split; [by left|]. split; done.
Qed.

Lemma fork_files c ps ps' r p :
  Proc.pool ps !! c = Some p → ¬ dead p → Proc.fork fork_ret c ps = Done (ps', r) →
  match r with
  | Err _ => quiet ps ps'
  | Ok _ => ∃ i q q', Proc.pool ps !! i = Some q ∧ dead q ∧ Proc.pool ps' = <[i := q']> (Proc.pool ps) ∧
                      pfiles q' = pfiles p ∧ ¬ dead q'
  end.
Proof.
  intros Hc Hal H. unfold Proc.fork, Proc.fork_setup in H. rewrite Hc in H.
  destruct (Proc.alloc_proc fork_ret ps) as [ps1 o] eqn:Ea. pose proof (alloc_proc_files _ _ _ Ea) as Hf.
  destruct o as [i|]; [|by simplify_eq/=]. destruct Hf as (q & x & Hq & Hdq & Hp1 & Hx).
  assert (Hlt : (i < length (Proc.pool ps))%nat) by by eapply lookup_lt_Some.
  rewrite Hp1 in H. rewrite list_lookup_insert_eq in H by done.
  destruct (Proc.uvm (Proc.data p)), (Proc.trapframe (Proc.data p)); try done.
  destruct (Proc.uvm (Proc.data x)); [|done].
  destruct (Proc.uvm_copy _ _ _); simpl in H.
  - rewrite Hp1, list_insert_insert_eq, list_lookup_insert_eq in H by done. simplify_eq.
    unfold Proc.fork_link, Proc.fork_start. simpl.
    rewrite Hp1, list_insert_insert_eq, list_lookup_insert_eq by done. simpl.
    rewrite Hp1, !list_insert_insert_eq, list_lookup_insert_eq by done. simpl. rewrite Hp1.
    rewrite !list_insert_insert_eq. eexists i, q, _. split; [done|]. split; [done|]. split; [done|].
    split; [done|]. unfold dead. simpl. naive_solver.
  - simplify_eq. unfold quiet. simpl. rewrite Hp1, list_insert_insert_eq.
    eapply (quiet_upd ps i q); [done|]. split; [done|]. by left.
Qed.

Lemma exit_files c st ps ps' p :
  Proc.pool ps !! c = Some p → Proc.exit proc_addr c st ps = Done ps' →
  ∃ p0 ps1, pfiles p0 = [] ∧ Proc.inner p0 = Proc.inner p ∧ Proc.pool ps1 = <[c := p0]> (Proc.pool ps) ∧
    quiet ps1 ps'.
Proof.
  intros Hc H. unfold Proc.exit in H. apply bind_Done_inv in H as (ps1 & H1 & H).
  unfold Proc.exit_close in H1. case_decide; [done|]. rewrite Hc in H1. injection H1 as <-.
  set (p0 := Proc.set_data p _) in H.
  assert (Hn : pfiles p0 = []).
  { apply files_replicate. }
  exists p0, (Proc.upd ps c p0). split; [done|]. split; [done|]. split; [done|].
  unfold Proc.exit_finish in H. set (ps1 := Proc.upd ps c p0) in *.
  pose proof (quiet_reparent (Some c) c ps1) as Q1. set (ps2 := Proc.reparent _ _ _ _) in *.
  destruct (Proc.pool ps2 !! c) as [p2|] eqn:E2; [|done]. destruct (Proc.parent p2) as [pp|]; [|done].
  pose proof (quiet_wakeup (Some c) (proc_addr pp) ps2) as Q2. set (ps3 := Proc.wakeup _ _ _) in *.
  destruct (Proc.pool ps3 !! c) as [p3|] eqn:E3; [|done]. simplify_eq.
  assert (Q3 : quiet ps1 ps3) by (etrans; [exact Q1|exact Q2]).
  etrans; [exact Q3|]. eapply quiet_upd; [done|]. split; [done|]. intros _. right.
  destruct (Forall2_lookup_r _ _ _ _ _ Q3 E3) as (x & Hx & [Ex _]). simpl in Hx.
  rewrite list_lookup_insert_eq in Hx by (by eapply lookup_lt_Some).
  injection Hx as <-. by rewrite Ex.
Qed.

Lemma clone_files_inv (s : File.state W) hs l s' :
  finv s hs → (∀ f, f ∈ files l → f ∈ hs) → clone_files s l = Done s' → finv s' (files l ++ hs).
Proof.
  revert s hs. induction l as [|[f|] l IH]; intros s hs Hi Hin H; simpl in H; [injection H as <-; exact Hi| |].
  - apply bind_Done_inv in H as ([s1 f1] & Hc & H).
    assert (f1 = f) as ->.
    { unfold file_clone in Hc. destruct (f_arc f); [|by simplify_eq].
      apply bind_Done_inv in Hc as (? & _ & Hc). by simplify_eq. }
    assert (Hf : f ∈ hs) by (apply Hin; left).
    pose proof (clone_inv _ _ _ _ _ Hi Hf Hc) as Hi1.
    eapply finv_perm; [|eapply IH; [exact Hi1| |exact H]].
    + simpl. by rewrite <- Permutation_middle.
    + intros g Hg. right. apply Hin. by right.
  - eapply IH; [exact Hi|exact Hin|exact H].
Qed.

Lemma drop_files_inv (s : File.state W) l rest s' :
  finv s (files l ++ rest) → drop_files s l = Done s' → finv s' rest.
Proof.
  revert s. induction l as [|[f|] l IH]; intros s Hi H; simpl in H; [injection H as <-; exact Hi| |by eapply IH].
  apply bind_Done_inv in H as (s1 & Hd & H). eapply IH; [|exact H].
  eapply (drop_inv s f (files l ++ rest)); [exact Hi|exact Hd].
Qed.

(** ** Every system call *)
Lemma kinv_file k s : kinv k → finv s (files_of (Proc.pool (kprocs k))) → kinv (set_file s k).
Proof. intros [_ Hd] Hs. by split. Qed.

Lemma kinv_world k w : kinv k → kinv (set_world w k).
Proof. intros [Hc Hd]. split; [by apply finv_wld|done]. Qed.

Lemma in_op_inv {A} k (f : W → outcome (W * A)) k' r : kinv k → in_op k f = Done (k', r) → kinv k'.
Proof.
  unfold in_op. intros Hk H. apply bind_Done_inv in H as (w1 & _ & H).
  apply bind_Done_inv in H as ([w2 x] & _ & H). apply bind_Done_inv in H as (w3 & _ & H).
  simplify_eq. by apply kinv_world.
Qed.

(** A change of the data of the calling process other than its files. *)
Lemma set_data_inv k d d' k' :
  kinv k → my_data k = Done d → Proc.ofile d' = Proc.ofile d → set_my_data k d' = Done k' → kinv k'.
Proof.
  unfold my_data, set_my_data. intros Hk Hd Hf H. apply bind_Done_inv in H as (p & Hp & H).
  rewrite Hp in Hd. injection Hd as Hd. injection H as <-. apply kinv_quiet; [done|].
  eapply (quiet_upd _ _ p); [by apply my_proc_lookup|]. apply same_files_inner; [|done]. simpl. congruence.
Qed.

Lemma sys_fork_inv k k' r : kinv k → alive k → sys_fork fork_ret k = Done (k', r) → kinv k'.
Proof.
  intros Hk (p & Hp & Hal) H. unfold sys_fork, my_data in H. rewrite Hp in H. simpl in H.
  apply bind_Done_inv in H as ([ps x] & Hf & H). apply my_proc_lookup in Hp as Hl.
  pose proof (fork_files _ _ _ _ _ Hl Hal Hf) as Hff.
  destruct x as [pid|]; [|injection_ret; by apply kinv_quiet].
  apply bind_Done_inv in H as (s1 & Hc & H). apply bind_Done_inv in H as (s2 & Hd & H). injection_ret.
  destruct Hff as (i & q & q' & Hq & Hdq & Hps & Hfq & Haq).
  assert (Hnil : pfiles q = []) by (apply (ki_dead _ Hk); [by eapply list_elem_of_lookup_2|done]).
  assert (Hi1 : finv s1 (pfiles p ++ files_of (Proc.pool (kprocs k)))).
  { eapply clone_files_inv; [apply Hk| |exact Hc]. intros f Hin.
    rewrite (files_of_split k p Hp). apply elem_of_app. by left. }
  assert (Hi2 : finv s2 (pfiles p ++ files_of (Proc.pool (kprocs k)))).
  { destruct (Proc.cwd (Proc.data p)); [by eapply run__inv|by simplify_eq]. }
  pose proof (lookup_lt_Some _ _ _ Hq) as Hlt.
  assert (Hq' : Proc.pool ps !! i = Some q') by (rewrite Hps; by apply list_lookup_insert_eq).
  assert (Hdel : delete i (Proc.pool ps) = delete i (Proc.pool (kprocs k)))
    by (rewrite Hps; apply delete_insert_same).
  split; simpl.
  - eapply finv_perm; [|exact Hi2]. unfold files_of.
    rewrite (delete_Permutation _ _ _ Hq'), (delete_Permutation _ _ _ Hq), Hdel. cbn.
    by rewrite Hnil, Hfq.
  - intros x Hx Hdx. rewrite (delete_Permutation _ _ _ Hq'), Hdel in Hx.
    apply elem_of_cons in Hx as [->|Hx]; [done|]. apply (ki_dead _ Hk); [|done].
    rewrite (delete_Permutation _ _ _ Hq). by right.
Qed.

Lemma sys_exit_inv k k' r : kinv k → sys_exit proc_addr k = Done (k', r) → kinv k'.
Proof.
  intros Hk H. unfold sys_exit in H. apply bind_Done_inv in H as (d & Hd & H).
  apply bind_Done_inv in H as (n & _ & H). case_decide; [done|].
  apply bind_Done_inv in H as (s1 & H1 & H). apply bind_Done_inv in H as (s2 & H2 & H).
  apply bind_Done_inv in H as (s3 & H3 & H). apply bind_Done_inv in H as (s4 & H4 & H).
  apply bind_Done_inv in H as (ps & H5 & H). simplify_eq.
  unfold my_data in Hd. apply bind_Done_inv in Hd as (p & Hp & Hd). simplify_eq.
  apply my_proc_lookup in Hp as Hl.
  destruct (exit_files _ _ _ _ _ Hl H5) as (p0 & ps1 & Hn & Hin & Hps & Hq).
  pose proof (lookup_lt_Some _ _ _ Hl) as Hlt.
  assert (Hi1 : finv s1 (files_of (others k))).
  { eapply drop_files_inv; [|exact H1]. eapply finv_perm; [|apply Hk]. by apply files_of_split. }
  assert (Hi4 : finv s4 (files_of (others k))).
  { eapply run__inv, H4. destruct (Proc.cwd (Proc.data p)).
    - eapply run__inv, H3. by eapply run__inv, H2.
    - simplify_eq. by eapply run__inv, H2. }
  assert (Hl1 : Proc.pool ps1 !! kcur k = Some p0) by (rewrite Hps; by apply list_lookup_insert_eq).
  assert (Hdel : delete (kcur k) (Proc.pool ps1) = others k) by (rewrite Hps; apply delete_insert_same).
  assert (Hk1 : kinv (set_procs ps1 (set_file s4 k))).
  { split; simpl.
    - eapply finv_perm; [|exact Hi4]. unfold files_of.
      rewrite (delete_Permutation _ _ _ Hl1), Hdel. cbn. by rewrite Hn.
    - intros x Hx Hdx. rewrite (delete_Permutation _ _ _ Hl1), Hdel in Hx.
      apply elem_of_cons in Hx as [->|Hx]; [done|]. apply (ki_dead _ Hk); [|done].
      rewrite (delete_Permutation _ _ _ Hl). by right. }
  exact (kinv_quiet _ _ Hk1 Hq).
Qed.

(** What [exec] may do to files: nothing. *)
Variables (ticks_at uargv_at : Z) (exec : kst W U → list Z → list (list Z) → outcome (kst W U * result Z unit)).
Hypothesis exec_inv : ∀ k path argv k' r, kinv k → alive k → exec k path argv = Done (k', r) → kinv k'.

(** The calls that work on paths only change the world. *)
Ltac path_call H :=
  let d := fresh "d" in let Hd := fresh "Hd" in let r := fresh "r" in
  apply bind_Done_inv in H as (d & Hd & H);
  apply bind_Done_inv in H as (r & _ & H); destruct r; [|by injection_ret].

Lemma sys_path_inv k k' r :
  kinv k →
  sys_link k = Done (k', r) ∨ sys_unlink k = Done (k', r) ∨ sys_mkdir k = Done (k', r) ∨
  sys_mknod k = Done (k', r) ∨ sys_chdir k = Done (k', r) → kinv k'.
Proof.
  intros Hk [H|[H|[H|[H|H]]]].
  - unfold sys_link in H. path_call H. apply bind_Done_inv in H as (x & _ & H). destruct x; [|by injection_ret].
    apply bind_Done_inv in H as ([k1 y] & H1 & H). injection_ret. by eapply in_op_inv.
  - unfold sys_unlink in H. path_call H. apply bind_Done_inv in H as ([k1 y] & H1 & H). injection_ret.
    by eapply in_op_inv.
  - unfold sys_mkdir in H. path_call H. apply bind_Done_inv in H as ([k1 y] & H1 & H). injection_ret.
    by eapply in_op_inv.
  - unfold sys_mknod in H. path_call H. apply bind_Done_inv in H as (mj & _ & H).
    apply bind_Done_inv in H as (mn & _ & H). apply bind_Done_inv in H as ([k1 y] & H1 & H). injection_ret.
    by eapply in_op_inv.
  - unfold sys_chdir in H. path_call H. apply bind_Done_inv in H as ([k1 y] & H1 & H).
    pose proof (in_op_inv _ _ _ _ Hk H1) as Hk1. destruct y as [ip|]; [|by injection_ret].
    apply bind_Done_inv in H as (k2 & H2 & H). injection_ret.
    assert (Hd1 : my_data k1 = Done d).
    { unfold in_op in H1. apply bind_Done_inv in H1 as (w1 & _ & H1).
      apply bind_Done_inv in H1 as ([w2 z] & _ & H1). apply bind_Done_inv in H1 as (w3 & _ & H1).
      by simplify_eq. }
    by eapply (set_data_inv k1 d (set_cwd d (Some ip))).
Qed.

Lemma sys_proc_inv k k' r :
  kinv k → alive k →
  sys_wait proc_addr false k = Done (k', r) ∨ sys_sbrk k = Done (k', r) ∨
  sys_sleep ticks_at k = Done (k', r) ∨ sys_kill k = Done (k', r) → kinv k'.
Proof.
  intros Hk Hal [H|[H|[H|H]]].
  - unfold sys_wait in H. apply bind_Done_inv in H as (d & _ & H). apply bind_Done_inv in H as (a & _ & H).
    apply bind_Done_inv in H as ([ps o] & H1 & H). apply quiet_wait in H1.
    destruct o; injection_ret; by apply kinv_quiet.
  - unfold sys_sbrk in H. apply bind_Done_inv in H as (d & _ & H). apply bind_Done_inv in H as (a & _ & H).
    apply bind_Done_inv in H as ([ps o] & H1 & H). apply quiet_grow in H1. injection_ret. by apply kinv_quiet.
  - unfold sys_sleep, sleep_round in H. apply bind_Done_inv in H as (d & _ & H).
    apply bind_Done_inv in H as (a & _ & H). apply bind_Done_inv in H as (e & _ & H).
    case_decide; [|by injection_ret]. apply bind_Done_inv in H as (p & _ & H).
    case_match; injection_ret; [done|]. apply kinv_quiet; [done|]. apply quiet_sleep.
  - unfold sys_kill in H. apply bind_Done_inv in H as (d & _ & H). apply bind_Done_inv in H as (a & _ & H).
    pose proof (quiet_kill a (kprocs k)) as Hq. destruct (Proc.kill a (kprocs k)). injection_ret.
    by apply kinv_quiet.
Qed.

Lemma sys_exec_inv k k' r :
  kinv k → alive k → sys_exec uargv_at exec k = Done (k', r) → kinv k'.
Proof.
  intros Hk Hal H. unfold sys_exec in H. path_call H. apply bind_Done_inv in H as (x & _ & H).
  apply bind_Done_inv in H as (y & _ & H). destruct y; [|by injection_ret].
  apply bind_Done_inv in H as (z & _ & H). destruct z; [|by injection_ret].
  apply bind_Done_inv in H as ([k1 o] & H1 & H). injection_ret. by eapply exec_inv.
Qed.

Lemma handler_inv k k' r h :
  kinv k → alive k → h ∈ fst <$> TABLE proc_addr fork_ret ticks_at uargv_at exec →
  h k = Done (k', r) → kinv k'.
Proof.
  intros Hk Hal Hin. unfold TABLE in Hin. cbn in Hin.
  assert (Ho : ∀ k1, owns k k1 (files_of (others k)) → kinv k1) by (intros; by eapply owns_kinv).
  pose proof (kinv_owns k Hk Hal) as Hown.
  repeat (apply elem_of_cons in Hin as [->|Hin]; [intros H|]); [..|by apply elem_of_nil in Hin].
  - done.
  - by eapply sys_fork_inv.
  - by eapply sys_exit_inv.
  - eapply sys_proc_inv; eauto.
  - eapply Ho, sys_pipe_owns; eauto.
  - eapply Ho, sys_read_owns; eauto.
  - eapply sys_proc_inv; eauto 10.
  - by eapply sys_exec_inv.
  - unfold sys_fstat in H. apply bind_Done_inv in H as (d & Hd & H). apply bind_Done_inv in H as (st & _ & H).
    apply bind_Done_inv in H as (o & _ & H). destruct o as [[fd f]|]; [|by injection_ret].
    apply bind_Done_inv in H as (a & _ & H). apply bind_Done_inv in H as ([s1 x] & H1 & H). injection_ret.
    apply kinv_file; [done|]. eapply stat_inv; [apply Hk|exact H1].
  - eapply sys_path_inv; eauto 10.
  - eapply Ho, sys_dup_owns; eauto.
  - unfold sys_getpid in H. apply bind_Done_inv in H as (p & _ & H). by injection_ret.
  - eapply sys_proc_inv; eauto 10.
  - eapply sys_proc_inv; eauto 10.
  - unfold sys_uptime in H. by injection_ret.
  - eapply Ho, sys_open_owns; eauto.
  - eapply Ho, sys_write_owns; eauto.
  - eapply sys_path_inv; eauto 10.
  - eapply sys_path_inv; eauto 10.
  - eapply sys_path_inv; eauto 10.
  - eapply sys_path_inv; eauto 10.
  - eapply Ho, sys_close_owns; eauto.
Qed.

Lemma set_result_inv k v k' : kinv k → set_result k v = Done k' → kinv k'.
Proof.
  intros Hk H. unfold set_result in H. apply bind_Done_inv in H as (d & Hd & H).
  apply bind_Done_inv in H as (tf & _ & H).
  eapply (set_data_inv k d _ k'); [done|done| |exact H]. done.
Qed.

Lemma syscall_inv k k' r :
  kinv k → alive k → syscall proc_addr fork_ret ticks_at uargv_at exec k = Done (k', r) → kinv k'.
Proof.
  intros Hk Hal H. unfold syscall in H. apply bind_Done_inv in H as (d & _ & H).
  apply bind_Done_inv in H as (tf & _ & H). destruct (from_usize (a7 tf)) eqn:E.
  22:{ apply bind_Done_inv in H as (k1 & H1 & H). simplify_eq. by eapply set_result_inv. }
  all: apply bind_Done_inv in H as (h & Hh & H); apply index_inv in Hh as [_ Hh];
    apply bind_Done_inv in H as ([k1 x] & H1 & H);
    apply (handler_inv k k1 x h.1) in H1 as Hk1; [|done|done|eapply list_elem_of_fmap_2, list_elem_of_lookup_2, Hh];
    (destruct x; [apply bind_Done_inv in H as (k2 & H2 & H); simplify_eq; by eapply set_result_inv|by simplify_eq..]).
Qed.

(** The system runs: processes make system calls, the scheduler and interrupts
    change states of processes but no files, the clock ticks, devices and the
    disk change the world. *)
Inductive kstep : kst W U → kst W U → Prop :=
  | ks_call k k' r : alive k → syscall proc_addr fork_ret ticks_at uargv_at exec k = Done (k', r) → kstep k k'
  | ks_switch k c : kstep k (mkK (kprocs k) c (kfile k) (kticks k))
  | ks_tick k t : kstep k (mkK (kprocs k) (kcur k) (kfile k) t)
  | ks_procs k ps : quiet (kprocs k) ps → kstep k (set_procs ps k)
  | ks_world k w : kstep k (set_world w k).

Lemma kstep_inv k k' : kstep k k' → kinv k → kinv k'.
Proof.
  intros Hs Hk. destruct Hs.
  - by eapply syscall_inv.
  - by destruct Hk.
  - by destruct Hk.
  - by apply kinv_quiet.
  - by apply kinv_world.
Qed.

(** The counts in every reachable state, for an [exec] that keeps them; the
    one of [exec.rs] does (see [ExecSpec]). *)
Lemma reachable_counts k k' :
  kinv k → rtc kstep k k' →
  (∀ a v c, heap (kfile k') !! a = Some (v, c) →
     c = 1 + refs a (files_of (Proc.pool (kprocs k'))) ∧ 2 ≤ c) ∧
  (∀ p f, p ∈ Proc.pool (kprocs k') → f ∈ pfiles p →
     ¬ dead p ∧ ∃ a, f_arc f = Some a ∧ is_Some (heap (kfile k') !! a)).
Proof.
  intros Hk Hr. assert (Hk' : kinv k') by (induction Hr; eauto using kstep_inv).
  destruct Hk' as [[H1 H2 H3 H4] Hd]. split.
  - intros a v c Ha. destruct (H1 a v c Ha) as (-> & ? & _). split; [done|lia].
  - intros p f Hp Hf. split.
    + intros Hdead. rewrite (Hd p Hp Hdead) in Hf. by apply elem_of_nil in Hf.
    + apply H4. unfold files_of. apply list_elem_of_bind. by exists p.
Qed.

(** ** Dispatch *)

(** The handler of a call, by name. *)
Definition handler (c : SysCalls) : kst W U → outcome (kst W U * sysres) :=
  match c with
  | Fork => sys_fork fork_ret | Exit => sys_exit proc_addr | Wait => sys_wait proc_addr false
  | Pipe_ => sys_pipe | Read => sys_read | Kill => sys_kill | Exec => sys_exec uargv_at exec
  | Fstat => sys_fstat | Chdir => sys_chdir | Dup => sys_dup | Getpid => sys_getpid | Sbrk => sys_sbrk
  | Sleep => sys_sleep ticks_at | Uptime => sys_uptime | Open => sys_open | Write => sys_write
  | Mknod => sys_mknod | Unlink => sys_unlink | Link => sys_link | Mkdir => sys_mkdir | Close => sys_close
  | Invalid => invalid
  end.

(** What the user sees in [a0]. *)
Definition answer (r : result Z unit) : Z := match r with Ok v => v | Err _ => minus_one end.

(** System calls are dispatched by number: for the numbers 1 to 21 the
    entry of the table is the handler of the call with that number, its result
    goes to [a0], and -1 for an error; every other number gives -1 and runs no
    handler.  The numbers and the calls are in bijection. *)
Theorem syscall_dispatch k d tf :
  my_data k = Done d → Proc.trapframe d = Some tf →
  syscall proc_addr fork_ret ticks_at uargv_at exec k =
    (if decide (1 ≤ a7 tf ≤ 21) then
       '(k1, r) ← handler (from_usize (a7 tf)) k;
       match r with
       | Ret r => k2 ← set_result k1 (answer r); Done (k2, Ret (Ok (answer r)))
       | _ => Done (k1, r)
       end
     else k1 ← set_result k minus_one; Done (k1, Ret (Ok minus_one))) ∧
  (∀ c, from_usize (discriminant c) = c) ∧
  (∀ n, 1 ≤ n ≤ 21 → discriminant (from_usize n) = n ∧ from_usize n ≠ Invalid).
Proof.
  intros Hd Htf. split; [|split].
  - unfold syscall. rewrite Hd. simpl. rewrite Htf. simpl. case_decide as Hn.
    + pose proof (discriminant_from_usize _ Hn) as Hdf.
      destruct (from_usize (a7 tf)) eqn:E; try reflexivity.
      simpl in Hdf. lia.
    + rewrite from_usize_invalid by lia. done.
  - apply from_usize_discriminant.
  - intros n Hn. pose proof (discriminant_from_usize n Hn) as Hdf. split; [done|].
    intros E. rewrite E in Hdf. simpl in Hdf. lia.
Qed.

(** ** Strings from user space *)
Lemma utf8_zeros n : utf8 (replicate n 0) = true.
Proof. by induction n. Qed.

Lemma trim_start_zeros n x : trim_start 0 (replicate n 0 ++ x) = trim_start 0 x.
Proof. by induction n. Qed.

Lemma reverse_zeros n : reverse (replicate n 0) = replicate n 0.
Proof. apply reverse_replicate. Qed.

Lemma trim_end_zeros x n :
  (∀ y, last x = Some y → y ≠ 0) → trim_end (x ++ replicate n 0) = x.
Proof.
  intros Hl. unfold trim_end. rewrite reverse_app, reverse_zeros, trim_start_zeros.
  destruct x as [|y x _] using rev_ind; [done|]. rewrite last_snoc in Hl.
  rewrite reverse_snoc. simpl. rewrite decide_False by (by apply Hl).
  by rewrite <- reverse_snoc, reverse_involutive.
Qed.

Lemma utf8_app_zeros x n : utf8 (x ++ replicate n 0) = utf8 x.
Proof.
  remember (length x) as m eqn:Hm. assert (Hle : (length x ≤ m)%nat) by lia. clear Hm. revert x Hle.
  induction m as [|m IH]; intros x Hle.
  { destruct x; [|simpl in *; lia]. apply utf8_zeros. }
  destruct x as [|a x]; [apply utf8_zeros|]. simpl in Hle. cbn [app utf8].
  destruct (decide (a ≤ 127)); [apply IH; lia|].
  destruct (decide (194 ≤ a ≤ 223)).
  { destruct x as [|b x]; [by destruct n|]. cbn [app]. simpl in Hle. by rewrite IH by lia. }
  destruct (decide (224 ≤ a ≤ 239)).
  { destruct x as [|b [|c x]]; cbn [app]; [by destruct n as [|[|n]]|destruct n; cbn; by rewrite ?andb_false_r|].
    simpl in Hle. by rewrite IH by lia. }
  destruct (decide (240 ≤ a ≤ 244)); [|done].
  destruct x as [|b [|c [|d x]]]; cbn [app];
    [by destruct n as [|[|[|n]]]|destruct n as [|[|n]]; cbn; by rewrite ?andb_false_r
    |destruct n; cbn; by rewrite ?andb_false_r|].
  simpl in Hle. by rewrite IH by lia.
Qed.

Lemma fetch_data_ok w d u a len :
  Proc.uvm d = Some u → a + Z.of_nat len ≤ Proc.sz d → Proc.sz d < usize_mod → (0 < len)%nat →
  fetch_data w d a len = u_copyin w u a len.
Proof.
  intros Hu Hs Hsz Hl. unfold fetch_data. rewrite decide_False by lia. rewrite checked_add_ok by lia. simpl.
  rewrite decide_False by lia. by rewrite Hu.
Qed.

Lemma le_val_word z : 0 ≤ z < usize_mod → le_val (le_bytes 8 z) = z.
Proof. intros Hz. apply le_val_bytes. change (256 ^ Z.of_nat 8) with usize_mod. lia. Qed.

(** A string crosses from user space unchanged: when the user's [&str] at
    the address in argument [n] lies in the process, points to [x] with length
    between 1 and 128, and [x] is UTF-8 that does not end in a zero byte, the
    kernel gets exactly [x].  The empty string and one longer than the path
    buffer are errors. *)
Theorem arg_str_roundtrip w d u n a ptr len x :
  arg d n = Done a → Proc.uvm d = Some u → 0 ≤ a → a + 16 ≤ Proc.sz d → Proc.sz d < usize_mod →
  u_copyin w u a 8 = Done (Ok (le_bytes 8 ptr)) → u_copyin w u (a + 8) 8 = Done (Ok (le_bytes 8 len)) →
  0 < ptr < usize_mod → 0 ≤ len < usize_mod →
  (0 < len ≤ Z.of_nat MAXPATH → u_copyin w u ptr (Z.to_nat len) = Done (Ok x) ∧ Z.of_nat (length x) = len ∧
     utf8 x = true ∧ ∀ y, last x = Some y → y ≠ 0) →
  arg_str w d n = Done (if decide (0 < len ≤ Z.of_nat MAXPATH) then Ok x else Err tt).
Proof.
  intros Ha Hu Hp Hs Hsz Hc1 Hc2 Hptr Hlen Hx. unfold arg_str, arg_addr. rewrite Ha. cbn [mbind outcome_bind].
  unfold fetch_str, fetch_slice. rewrite length_replicate.
  rewrite (fetch_data_ok w d u a 8), Hc1 by (done || lia). cbn [mbind outcome_bind].
  rewrite checked_add_ok by lia. cbn [mbind outcome_bind].
  rewrite (fetch_data_ok w d u (a + 8) 8), Hc2 by (done || lia). cbn [mbind outcome_bind].
  rewrite !le_val_word by lia. unfold MAXPATH in *.
  destruct (decide (0 < len ≤ Z.of_nat 128)) as [Hl|Hl].
  - rewrite decide_False by lia. rewrite Hu. cbn [mbind outcome_bind unwrap].
    destruct (Hx Hl) as (Hc3 & Hxl & Hu8 & Hlast). rewrite Nat.mul_1_r, Hc3. cbn [mbind outcome_bind].
    assert (Hb : splice (replicate 128 0) 0 x = x ++ replicate (128 - length x) 0).
    { unfold splice. rewrite drop_replicate. done. }
    rewrite Hb, utf8_app_zeros, Hu8, trim_end_zeros by done. done.
  - rewrite decide_True by lia. done.
Qed.

(** ** Calls that cannot work *)

(** [fstat] fails for every caller that follows its declared signature
    [(fd, st)]: the handler takes the descriptor from argument 1, where the
    address of the [Stat] is, and no address of a [Stat] is a descriptor. *)
Theorem sys_fstat_fails k d tf :
  my_data k = Done d → Proc.trapframe d = Some tf → length (Proc.ofile d) = Proc.NOFILE →
  Z.of_nat Proc.NOFILE ≤ a1 tf → sys_fstat k = Done (k, Ret (Err tt)).
Proof.
  intros Hd Htf Hl Ha. unfold sys_fstat, arg_addr, arg_fd, arg. rewrite Hd. simpl. rewrite Htf. simpl.
  rewrite decide_False by (rewrite Hl; lia). done.
Qed.

(** [exec] with arguments fails: when the array of arguments has a first
    element that is a string, its address on the kernel stack is looked up as
    an address of the process, which is smaller than that, and the call ends
    with an error before anything is loaded.  Without an element the array is
    rejected as well. *)
Theorem sys_exec_arguments_fail k d path a x :
  my_data k = Done d → Proc.sz d ≤ uargv_at →
  arg_str (world k) d 0 = Done (Ok path) → arg d 1 = Done a →
  fetch_slice (world k) d a 16 MAXARG = Done (Ok x) → (8 ≤ length x)%nat → le_val (take 8 x) ≠ 0 →
  sys_exec uargv_at exec k = Done (k, Ret (Err tt)).
Proof.
  intros Hd Hsz Hpath Ha Hx Hl Hne. unfold sys_exec. rewrite Hd. cbn [mbind outcome_bind].
  rewrite Hpath. cbn [mbind outcome_bind]. unfold arg_addr. rewrite Ha. cbn [mbind outcome_bind].
  rewrite Hx. cbn [mbind outcome_bind].
  change (seq 0 MAXARG) with (0%nat :: seq 1 31). cbn [fetch_args].
  assert (Hs : uarg_some (splice (replicate (16 * MAXARG) 0) 0 x) 0 = true).
  { unfold uarg_some, uarg, splice. apply negb_true_iff, Z.eqb_neq. generalize (replicate (16 * MAXARG) 0).
    intros z. rewrite take_0, Nat.mul_0_r, drop_0, take_take, app_nil_l.
    by rewrite take_app_le by (simpl; lia). }
  rewrite Hs. unfold fetch_str, fetch_slice, fetch_data.
  rewrite decide_True by lia. cbn [mbind outcome_bind]. done.
Qed.

Lemma fetch_slice_empty w d u a tsz n :
  Proc.uvm d = Some u → a + 16 ≤ Proc.sz d → Proc.sz d < usize_mod → 0 ≤ a →
  u_copyin w u (a + 8) 8 = Done (Ok (le_bytes 8 0)) →
  (∃ p, u_copyin w u a 8 = Done (Ok p)) → fetch_slice w d a tsz n = Done (Err tt).
Proof.
  intros Hu Hs Hsz Ha Hc (p & Hp). unfold fetch_slice.
  rewrite (fetch_data_ok w d u a 8), Hp by (done || lia). cbn [mbind outcome_bind].
  rewrite checked_add_ok by lia. cbn [mbind outcome_bind].
  rewrite (fetch_data_ok w d u (a + 8) 8), Hc by (done || lia). cbn [mbind outcome_bind].
  rewrite le_val_word by lia. rewrite decide_True by (right; by left). done.
Qed.
End spec.

(** ** Runs in a small world *)
Module Small.
#[global] Instance paths : PathWorld Z := {
  w_link w p q := Done (w, Ok tt);
  w_unlink w p := Done (w, Ok tt);
  w_dup w ip := Done w;
}.
(** User memory is a list of bytes. *)
#[global] Instance access : UserAccess Z (list Z) := {
  u_copyin w u a n :=
    Done (if decide (a + Z.of_nat n ≤ Z.of_nat (length u)) then Ok (take n (drop (Z.to_nat a) u)) else Err tt);
  u_copyout w u a x := Done (w, Ok tt);
}.
#[global] Instance memory : UserMemory (list Z) Trapframe := {
  new_trapframe := Some (mkTf 0 0 0 0 0 0 0 0 0 0);
  set_a0 := tf_set_a0;
  Proc.proc_uvmcreate tf := Some [];
  uvm_copy u u' n := Ok u;
  uvm_alloc u a b := (u, Some b);
  uvm_dealloc u a b := (u, b);
  uvm_copyout u a x := Ok u;
}.

(** One process in slot 1, with the string [ab] at address 32 and its [&str]
    at address 0; slot 0 is free. *)
Definition umem : list Z := le_bytes 8 32 ++ le_bytes 8 2 ++ replicate 16 7 ++ [97; 98].
Definition pdata (tf : Trapframe) (l : list (option File)) : Proc.ProcData (list Z) Trapframe File nat :=
  Proc.mkData 0 34 (Some umem) (Some tf) 0 0 "p" l (Some 3%nat).
Definition proc1 (tf : Trapframe) (l : list (option File)) : Proc.Proc (list Z) Trapframe File nat :=
  Proc.mkProc (Proc.mkInner RUNNING 0 false 0 5) (Some 1%nat) (pdata tf l).
Definition none16 : list (option File) := replicate Proc.NOFILE None.
Definition k0 (tf : Trapframe) : kst Z (list Z) :=
  mkK (Proc.mkProcs [Proc.proc_new 0; proc1 tf none16] 6 9) 1 Example.s0 0.

Definition no_exec (k : kst Z (list Z)) (p : list Z) (v : list (list Z)) : outcome (kst Z (list Z) * result Z unit) :=
  Done (k, Ok 0).
Definition call (k : kst Z (list Z)) : outcome (kst Z (list Z) * sysres) :=
  syscall (λ i, Z.of_nat i) 0 0 100000 no_exec k.

Definition tf_open : Trapframe := mkTf 0 2 0 0 0 0 0 15 0 0.
Definition k1 : kst Z (list Z) := (done_or (call (k0 tf_open)) (k0 tf_open, Block)).1.

Lemma kinv0 tf : kinv (k0 tf).
Proof.
  split; simpl.
  - apply boot_inv.
  - intros p Hp _. apply elem_of_cons in Hp as [->|Hp]; [done|].
    apply list_elem_of_singleton in Hp as ->. done.
Qed.
End Small.

Lemma syscall_dispatch_witness :
  Small.call (Small.k0 (mkTf 0 0 0 0 0 0 0 11 0 0)) = Done (Small.k0 (mkTf 5 0 0 0 0 0 0 11 0 0), Ret (Ok 5)).
Proof.
  unfold Small.call.
  rewrite (proj1 (syscall_dispatch (λ i, Z.of_nat i) 0 0 100000 Small.no_exec
    (Small.k0 (mkTf 0 0 0 0 0 0 0 11 0 0)) (Small.pdata (mkTf 0 0 0 0 0 0 0 11 0 0) Small.none16)
    (mkTf 0 0 0 0 0 0 0 11 0 0) eq_refl eq_refl)).
  vm_compute. reflexivity.
Defined.

Lemma arg_str_roundtrip_witness :
  arg_str 0 (Small.pdata Small.tf_open Small.none16) 0 = Done (Ok [97; 98]).
Proof.
  refine (arg_str_roundtrip 0 _ Small.umem 0 0 32 2 [97; 98] _ _ _ _ _ _ _ _ _ _);
    try reflexivity; try (vm_compute; split; congruence); try (vm_compute; congruence).
  intros _. split_and!; try reflexivity. intros y [= <-]. discriminate.
Defined.

Lemma sys_fstat_fails_witness :
  sys_fstat (Small.k0 (mkTf 0 4096 0 0 0 0 0 8 0 0)) = Done (Small.k0 (mkTf 0 4096 0 0 0 0 0 8 0 0), Ret (Err tt)).
Proof.
  refine (sys_fstat_fails (Small.k0 (mkTf 0 4096 0 0 0 0 0 8 0 0)) (Small.pdata (mkTf 0 4096 0 0 0 0 0 8 0 0) Small.none16)
            (mkTf 0 4096 0 0 0 0 0 8 0 0) eq_refl eq_refl eq_refl _).
  vm_compute. congruence.
Defined.

(** Path [ab] at address 0 as a [&str], the array of one argument at 16, whose
    element is again [ab]. *)
Definition exec_mem : list Z :=
  le_bytes 8 64 ++ le_bytes 8 2 ++ le_bytes 8 32 ++ le_bytes 8 1 ++ le_bytes 8 64 ++ le_bytes 8 2 ++
  replicate 16 7 ++ [97; 98].
Definition exec_data : Proc.ProcData (list Z) Trapframe File nat :=
  Proc.mkData 0 66 (Some exec_mem) (Some (mkTf 0 16 0 0 0 0 0 7 0 0)) 0 0 "p" Small.none16 None.
Definition exec_k : kst Z (list Z) :=
  mkK (Proc.mkProcs [Proc.mkProc (Proc.mkInner RUNNING 0 false 0 5) None exec_data] 6 9) 0 Example.s0 0.

Lemma sys_exec_arguments_fail_witness :
  sys_exec 100000 Small.no_exec exec_k = Done (exec_k, Ret (Err tt)).
Proof.
  refine (sys_exec_arguments_fail 100000 Small.no_exec exec_k exec_data [97; 98] 16
            (le_bytes 8 64 ++ le_bytes 8 2) eq_refl _ _ eq_refl _ _ _).
  - vm_compute. congruence.
  - vm_compute. reflexivity.
  - vm_compute. reflexivity.
  - vm_compute. repeat constructor.
  - vm_compute. congruence.
Defined.
