(* ===== verification/Usys.v ===== *)
(** * The system call stubs for user programs ([gen_usys] of [syscall.rs])

    On the host, [syscall.rs] generates the Rust source of the stubs that user
    programs call, from the signatures of [TABLE].  The string functions of
    the standard library that the generator uses come first. *)

From Stdlib Require Import Ascii String.
From S2P Require Import Prelude Fs Vm File FileSpec Proc Syscall SyscallSpec.

Open Scope Z_scope.
Open Scope string_scope.

(** ** Strings *)
Definition chr (n : nat) : string := String (ascii_of_nat n) EmptyString.
Definition nl : string := chr 10.
Definition dq : string := chr 34.   (* a double quote *)

Definition contains (p s : string) : bool := match String.index 0 p s with Some _ => true | None => false end.
Definition starts_with (p s : string) : bool := String.prefix p s.
Definition skip (n : nat) (s : string) : string := substring n (String.length s - n) s.
Definition strip_prefix (p s : string) : option string :=
  if String.prefix p s then Some (skip (String.length p) s) else None.
Definition strip_suffix (p s : string) : option string :=
  let k := (String.length s - String.length p)%nat in
  if (String.length p <=? String.length s)%nat && (skip k s =? p)%string then Some (substring 0 k s) else None.

(** [split] on one character. *)
Fixpoint split (c : ascii) (s : string) : list string :=
  match s with
  | EmptyString => [EmptyString]
  | String x s =>
      match split c s with
      | [] => []
      | w :: ws => if (x =? c)%char then EmptyString :: w :: ws else String x w :: ws
      end
  end.

Fixpoint trim_start (s : string) : string :=
  match s with
  | String x r => if (x =? " ")%char then trim_start r else s
  | EmptyString => EmptyString
  end.
Fixpoint trim_end (s : string) : string :=
  match s with
  | String x r => match trim_end r with
                  | EmptyString => if (x =? " ")%char then EmptyString else String x EmptyString
                  | r => String x r
                  end
  | EmptyString => EmptyString
  end.
Definition trim (s : string) : string := trim_end (trim_start s).

Definition split_once (p s : string) : option (string * string) :=
  match String.index 0 p s with
  | Some k => Some (substring 0 k s, skip (k + String.length p) s)
  | None => None
  end.

Definition lower (c : ascii) : ascii :=
  let n := nat_of_ascii c in
  if ((65 <=? n) && (n <=? 90))%nat then ascii_of_nat (n + 32) else c.
Fixpoint to_lowercase (s : string) : string :=
  match s with String c s => String (lower c) (to_lowercase s) | EmptyString => EmptyString end.

(** Decimal digits of a number below 100, as [{}] prints it. *)
Definition digit (n : nat) : string := chr (48 + n).
Definition dec (n : nat) : string :=
  if (n <? 10)%nat then digit n else digit (n / 10) +:+ digit (n mod 10).

Fixpoint spaces (n : nat) : string := match n with O => "" | S n => " " +:+ spaces n end.

(** ** The generator *)

(** [format!("{:?}", self)] *)
Definition debug (c : SysCalls) : string :=
  match c with
  | Fork => "Fork" | Exit => "Exit" | Wait => "Wait" | Pipe_ => "Pipe" | Read => "Read" | Kill => "Kill"
  | Exec => "Exec" | Fstat => "Fstat" | Chdir => "Chdir" | Dup => "Dup" | Getpid => "Getpid"
  | Sbrk => "Sbrk" | Sleep => "Sleep" | Uptime => "Uptime" | Open => "Open" | Write => "Write"
  | Mknod => "Mknod" | Unlink => "Unlink" | Link => "Link" | Mkdir => "Mkdir" | Close => "Close"
  | Invalid => "Invalid"
  end.

Definition fn_name (c : SysCalls) : string := to_lowercase (debug c).

Section gen.
(** The signatures, the second components of [TABLE]. *)
Variable sigs : list string.

Definition sig (c : SysCalls) : string := nth (Z.to_nat (discriminant c)) sigs "".

Definition into_enum_iter : list SysCalls := (λ i, from_usize (Z.of_nat i)) <$> seq 0 22.

Definition signature (c : SysCalls) : string := "fn " +:+ fn_name c +:+ sig c.

(** [None] for the unwraps of a signature that ends in neither way. *)
Definition args (c : SysCalls) : option (list (string * string)) :=
  s ← (if contains ") -> isize" (sig c) then strip_suffix ") -> isize" (sig c)
       else strip_suffix ") -> !" (sig c));
  s ← strip_prefix "(" s;
  Some (omap (λ w, split_once ": " (trim w)) (split "," s)).

(** The line of one argument, which goes to register [a<i>]. *)
Definition arg_line (i : nat) (a : string * string) : string :=
  let '(x, t) := a in
  let reg := spaces 12 +:+ "in(" +:+ dq +:+ "a" +:+ dec i +:+ dq +:+ ") " in
  if contains "&str" t || contains "&[" t || contains "&mut [" t then
    reg +:+ "&" +:+ x +:+ " as *const _ as usize," +:+ nl
  else if negb (contains "]" t) && contains "&mut " t then
    reg +:+ x +:+ " as *mut _ as usize," +:+ nl
  else if negb (contains "]" t) && contains "&" t then
    reg +:+ x +:+ " as *const _ as usize," +:+ nl
  else reg +:+ x +:+ "," +:+ nl.

Definition part1 (c : SysCalls) : string :=
  nl +:+ "pub " +:+ signature c +:+ " {" +:+ nl +:+ "    let _ret: isize;" +:+ nl +:+ "    unsafe {" +:+ nl
  +:+ "        asm!(" +:+ nl +:+ "            " +:+ dq +:+ "ecall" +:+ dq +:+ "," +:+ nl.
Definition part2 (l : list (string * string)) : list string := imap arg_line l.
Definition part3 (c : SysCalls) : string :=
  spaces 12 +:+ "in(" +:+ dq +:+ "a7" +:+ dq +:+ ") " +:+ dec (Z.to_nat (discriminant c)) +:+ "," +:+ nl
  +:+ "            lateout(" +:+ dq +:+ "a0" +:+ dq +:+ ") _ret," +:+ nl +:+ "        );" +:+ nl
  +:+ "    }" +:+ nl.
Definition part4 (c : SysCalls) : string :=
  spaces 4 +:+ (if contains ") -> isize" (sig c) then "_ret" else "unreachable!()") +:+ nl +:+ "}".

Definition gen_usys (c : SysCalls) : option string :=
  l ← args c;
  Some (String.concat "" ([part1 c] ++ part2 l ++ [part3 c; part4 c])).

(** The file that [build.rs] writes. *)
Definition usys_rs : option string :=
  stubs ← mapM gen_usys (drop 1 into_enum_iter);
  Some (String.concat "" (["// Created by build.rs" +:+ nl +:+ "use crate::stat::*;" +:+ nl +:+
                           "use core::arch::asm;" +:+ nl +:+ nl] ++ stubs)).
End gen.

(** ** The stubs of octox *)
Definition no_calls : list string :=
  snd <$> TABLE (W := Z) (U := list Z) (λ i, Z.of_nat i) 0 0 0 Small.no_exec.

(** The generator makes a stub for each of the 21 calls and for no other
    number: the stub loads the arguments of the signature into a0, a1, ... in
    their order and the number of the call into a7, by which the kernel selects
    the handler of the same name; only the stub of [exit] does not return. *)
Theorem usys_stubs c :
  (gen_usys no_calls c = None ↔ c = Invalid) ∧
  (c ≠ Invalid →
     from_usize (discriminant c) = c ∧ c ∈ into_enum_iter ∧
     ∃ l, args no_calls c = Some l ∧
       gen_usys no_calls c = Some (String.concat "" ([part1 no_calls c] ++ part2 l ++ [part3 c; part4 no_calls c])) ∧
       starts_with (nl +:+ "pub fn " +:+ fn_name c +:+ "(") (part1 no_calls c) = true ∧
       starts_with (spaces 12 +:+ "in(" +:+ dq +:+ "a7" +:+ dq +:+ ") " +:+ dec (Z.to_nat (discriminant c)) +:+ ",")
         (part3 c) = true ∧
       Forall (λ x, starts_with (spaces 12 +:+ "in(" +:+ dq +:+ "a" +:+ dec x.1 +:+ dq +:+ ") ") x.2 = true)
         (imap pair (part2 l)) ∧
       (contains "unreachable" (part4 no_calls c) = true ↔ c = Exit)).
Proof.
  split.
  - destruct c; split; intros H; (done || discriminate H).
  - intros Hc. split; [apply from_usize_discriminant|]. split.
    + destruct c; try done; apply (bool_decide_unpack _); vm_compute; exact I.
    + destruct c; [..|done]; eexists; (split; [vm_compute; reflexivity|]); (split; [reflexivity|]);
        (split; [vm_compute; reflexivity|]); (split; [vm_compute; reflexivity|]);
        (split; [vm_compute; repeat constructor|]); (split; intros H; [done || discriminate H|done || discriminate H]).
Qed.

(** A process that has an open file as descriptor 0 and calls [read] with
    [a0 = 0], [a1 = 16] and [n] left in [a2]. *)
Definition reading (n : Z) : kst Z (list Z) :=
  mkK (Proc.mkProcs [Small.proc1 (mkTf 0 16 n 0 0 0 0 5 0 0) (Some Example.f1 :: replicate 15 None)] 6 9) 0
    Example.s1 0.

Lemma tiny_read n :
  0 ≤ n < u32_mod → ∃ s, file_read Example.s1 Example.f1 (User 16) n = Done (s, Ok n).
Proof.
  intros Hn. unfold file_read. simpl. unfold vfile_read, arc.
  change (heap Example.s1 !! 0%nat) with (Some (VInode 0 7, 2)). cbn [mbind outcome_bind].
  unfold fnod_read, run. simpl. unfold as_u32. rewrite Z.mod_small by lia.
  rewrite checked_add32_ok by lia. cbn [mbind outcome_bind]. by eexists.
Qed.

(** The stub of [read] does not pass what the handler reads: it loads the
    address of its slice reference into a1 and nothing into a2, while the
    handler takes a1 for the address of the buffer and a2 for the number of
    bytes; what is left in a2 decides the result. *)
Theorem usys_read_mismatch :
  length <$> args no_calls Read = Some 2%nat ∧
  (part2 <$> args no_calls Read) ≫= (.!! 1%nat) =
    Some (spaces 12 +:+ "in(" +:+ dq +:+ "a1" +:+ dq +:+ ") &buf as *const _ as usize," +:+ nl) ∧
  ∀ n, 0 ≤ n < u32_mod → ∃ k, Small.call (reading n) = Done (k, Ret (Ok n)).
Proof.
  split; [reflexivity|]. split; [reflexivity|]. intros n Hn.
  destruct (tiny_read n Hn) as (s & Hs).
  unfold Small.call, syscall. simpl. unfold sys_read, arg_fd. simpl. rewrite Hs. simpl.
  eexists. reflexivity.
Qed.

Lemma usys_stubs_witness :
  from_usize (discriminant Write) = Write.
Proof.
  refine (proj1 (proj2 (usys_stubs Write) _)). discriminate.
Defined.

Lemma usys_read_mismatch_witness : ∃ k, Small.call (reading 100) = Done (k, Ret (Ok 100)).
Proof. apply (proj2 (proj2 usys_read_mismatch)). vm_compute. split; congruence. Defined.

(** The build does not fail, and the file has the stubs of all calls, each once. *)
Lemma usys_rs_complete :
  is_Some (usys_rs no_calls) ∧ NoDup (drop 1 into_enum_iter) ∧ ∀ c, c ∈ drop 1 into_enum_iter ↔ c ≠ Invalid.
Proof.
  split; [vm_compute; by eexists|]. split; [apply (bool_decide_unpack _); vm_compute; exact I|].
  intros c. split; [|intros Hc; destruct c; try done; apply (bool_decide_unpack _); vm_compute; exact I].
  intros Hin ->. revert Hin. apply (bool_decide_unpack (Invalid ∉ drop 1 into_enum_iter)). vm_compute. exact I.
Qed.
