(* ===== verification/Exec.v ===== *)
(** * [exec.rs] and [elf.rs]

    An ELF header and program headers are decoded from the bytes of the file,
    the segments are loaded into a new address space, the arguments are pushed
    on a new stack, and the process changes over to the new image.

    [ExecWorld] is what [exec] asks of page tables and inodes; the calling
    process and its files are the state [kst] of the system calls. *)

From S2P Require Import Prelude Fs Vm File Proc Syscall.

Open Scope Z_scope.

(** ** ELF headers ([elf.rs]) *)
Definition EI_MAG0 : nat := 0.
Definition EI_MAG1 : nat := 1.
Definition EI_MAG2 : nat := 2.
Definition EI_MAG3 : nat := 3.
Definition ELFMAG0 : Z := 127.
Definition ELFMAG1 : Z := 69.
Definition ELFMAG2 : Z := 76.
Definition ELFMAG3 : Z := 70.
Definition PT_LOAD : Z := 1.

Record ElfHdr := mkElf {
  e_ident : list Z;
  e_type : Z; e_cpu : Z; e_version : Z; e_entry : Z; e_phoff : Z; e_shoff : Z; e_flags : Z;
  e_ehsize : Z; e_phsize : Z; e_phnum : Z; e_shsize : Z; e_shnum : Z; e_shname : Z;
}.

Record ProgHdr := mkProg {
  p_type : Z; p_flags : Z; p_offset : Z; p_vaddr : Z; p_paddr : Z; p_fsize : Z; p_msize : Z; p_align : Z;
}.

(** [repr(C, packed)]: the fields follow each other. *)
Definition SIZEOF_ELFHDR : Z := 16 + 2 + 2 + 4 + 8 + 8 + 8 + 4 + 6 * 2.
Definition SIZEOF_PROGHDR : Z := 4 + 4 + 6 * 8.

Definition field (x : list Z) (off n : nat) : Z := le_val (take n (drop off x)).

Definition decode_elf (x : list Z) : ElfHdr :=
  mkElf (take 16 x) (field x 16 2) (field x 18 2) (field x 20 4) (field x 24 8) (field x 32 8)
    (field x 40 8) (field x 48 4) (field x 52 2) (field x 54 2) (field x 56 2) (field x 58 2)
    (field x 60 2) (field x 62 2).

Definition decode_prog (x : list Z) : ProgHdr :=
  mkProg (field x 0 4) (field x 4 4) (field x 8 8) (field x 16 8) (field x 24 8) (field x 32 8)
    (field x 40 8) (field x 48 8).

Definition magic_ok (h : ElfHdr) : bool :=
  bool_decide (e_ident h !! EI_MAG0 = Some ELFMAG0) && bool_decide (e_ident h !! EI_MAG1 = Some ELFMAG1) &&
  bool_decide (e_ident h !! EI_MAG2 = Some ELFMAG2) && bool_decide (e_ident h !! EI_MAG3 = Some ELFMAG3).

(** ** Loading *)
Definition flags2perm (flags : Z) : Z :=
  let perm := 0 in
  let perm := if negb (Z.land flags 1 =? 0) then PTE_X else perm in
  if negb (Z.land flags 2 =? 0) then Z.lor perm PTE_W else perm.

Class ExecWorld (W U : Type) := {
  x_read : W → nat → Z → Z → outcome (W * result (list Z) unit);   (* into a kernel variable *)
  x_read_at : W → nat → Z → Z → Z → outcome (W * result Z unit);   (* to a physical address *)
  x_walkaddr : W → U → Z → outcome (option Z);
  x_create : W → Trapframe → outcome (W * option U);               (* [proc_uvmcreate] *)
  x_alloc : W → U → Z → Z → Z → outcome (W * option Z);
  x_clear : W → U → Z → outcome W;
  x_free : W → U → Z → outcome W;                                  (* [proc_uvmfree] *)
}.

Section exec.
Context {W U : Type} `{!FileWorld W, !UserAccess W U, !ExecWorld W U}.

(** [Ok(n) == r] *)
Definition result_is (n : Z) (r : result Z unit) : bool :=
  match r with Ok m => m =? n | Err _ => false end.

(** The loop of [loadseg], [k] pages left. *)
Fixpoint loadseg_loop (k : nat) (w : W) (u : U) (va : Z) (ip : nat) (offset sz i : Z)
    : outcome (W * result unit unit) :=
  if decide (i < sz) then
    match k with
    | O => Panic "out of fuel"
    | S k =>
        a ← checked_add va i;
        r ← x_walkaddr w u a;
        match r with
        | None => Panic "loadseg: address should exsits"
        | Some pa =>
            let n := if decide (sz - i < PGSIZE) then sz - i else PGSIZE in
            o ← checked_add offset i;
            '(w1, r) ← x_read_at w ip pa (as_u32 o) n;
            if result_is n r then i1 ← checked_add i PGSIZE; loadseg_loop k w1 u va ip offset sz i1
            else Done (w1, Err tt)
        end
    end
  else Done (w, Ok tt).

Definition loadseg (w : W) (u : U) (va : Z) (ip : nat) (offset sz : Z) : outcome (W * result unit unit) :=
  if is_aligned va then loadseg_loop (Z.to_nat (sz / PGSIZE + 1)) w u va ip offset sz 0
  else Panic "loadseg(): va must be aligned.".

(** The loop over the program headers, [k] of them left; the size reached so
    far is part of every result.  A header that is skipped does not advance
    [off]. *)
Fixpoint load_loop (k : nat) (w : W) (u : U) (ip : nat) (off sz : Z) : outcome (W * Z * result unit unit) :=
  match k with
  | O => Done (w, sz, Ok tt)
  | S k =>
      '(w1, r) ← x_read w ip (as_u32 off) SIZEOF_PROGHDR;
      match r with
      | Err _ => Done (w1, sz, Err tt)
      | Ok x =>
          if decide (Z.of_nat (length x) ≠ SIZEOF_PROGHDR) then Done (w1, sz, Err tt)
          else
            let ph := decode_prog x in
            if decide (p_type ph ≠ PT_LOAD ∨ p_fsize ph = 0) then load_loop k w1 u ip off sz
            else if decide (p_msize ph < p_fsize ph) then Done (w1, sz, Err tt)
            else
              e ← checked_add (p_vaddr ph) (p_msize ph);
              if decide (e < p_msize ph) then Done (w1, sz, Err tt)
              else if decide (p_vaddr ph `mod` PGSIZE ≠ 0) then Done (w1, sz, Err tt)
              else
                '(w2, r) ← x_alloc w1 u sz e (flags2perm (p_flags ph));
                match r with
                | None => Done (w2, sz, Err tt)
                | Some sz1 =>
                    '(w3, r) ← loadseg w2 u (p_vaddr ph) ip (p_offset ph) (p_fsize ph);
                    match r with
                    | Err _ => Done (w3, sz1, Err tt)
                    | Ok _ => off1 ← checked_add off SIZEOF_PROGHDR; load_loop k w3 u ip off1 sz1
                    end
                end
      end
  end.

(** The closure [load] after [namei]: the header, the new page table if there
    is one, and the size. *)
Definition load_image (w : W) (tf : Trapframe) (ip : nat) : outcome (W * option U * Z * result ElfHdr unit) :=
  '(w1, _) ← w_lock w ip;
  '(w2, r) ← x_read w1 ip 0 SIZEOF_ELFHDR;
  match r with
  | Err _ => Done (w2, None, 0, Err tt)
  | Ok x =>
      if decide (Z.of_nat (length x) ≠ SIZEOF_ELFHDR) then Done (w2, None, 0, Err tt)
      else
        let elf := decode_elf x in
        if magic_ok elf then
          '(w3, o) ← x_create w2 tf;
          match o with
          | None => Done (w3, None, 0, Err tt)
          | Some u =>
              '(w4, sz, r) ← load_loop (Z.to_nat (e_phnum elf)) w3 u ip (e_phoff elf) 0;
              Done (w4, Some u, sz, match r with Ok _ => Ok elf | Err _ => Err tt end)
          end
        else Done (w2, None, 0, Err tt)
  end.

(** The transaction around it; the inode is dropped at its end. *)
Definition exec_load (w : W) (tf : Trapframe) (path : list Z) : outcome (W * option U * Z * result ElfHdr unit) :=
  w1 ← w_begin_op w;
  '(w2, r) ← w_namei w1 path;
  '(w4, u, sz, r) ← match r with
                    | None => Done (w2, None, 0, Err tt)
                    | Some ip =>
                        '(w3, u, sz, r) ← load_image w2 tf ip;
                        w4 ← w_put w3 ip;
                        Done (w4, u, sz, r)
                    end;
  w5 ← w_end_op w4;
  Done (w5, u, sz, r).

(** ** The stack *)

(** [sp -= n; sp -= sp % 16] *)
Definition push_down (sp n : Z) : outcome Z :=
  s ← checked_sub sp n;
  Done (s - s `mod` 16).

(** A block of bytes pushed: the new stack pointer, or an error below
    [stackbase]. *)
Definition push (w : W) (u : U) (stackbase sp n : Z) (x : list Z) : outcome (W * result Z unit) :=
  sp1 ← push_down sp n;
  if decide (sp1 < stackbase) then Done (w, Err tt)
  else
    '(w1, r) ← u_copyout w u sp1 x;
    Done (w1, match r with Ok _ => Ok sp1 | Err _ => Err tt end).

(** The strings: the pairs of address and length for [ustack]. *)
Fixpoint push_args (w : W) (u : U) (stackbase sp : Z) (args : list (list Z))
    : outcome (W * result (Z * list (Z * Z)) unit) :=
  match args with
  | [] => Done (w, Ok (sp, []))
  | x :: args =>
      '(w1, r) ← push w u stackbase sp (Z.of_nat (length x)) x;
      match r with
      | Err _ => Done (w1, Err tt)
      | Ok sp1 =>
          '(w2, r) ← push_args w1 u stackbase sp1 args;
          Done (w2, match r with
                    | Ok (sp2, l) => Ok (sp2, (sp1, Z.of_nat (length x)) :: l)
                    | Err _ => Err tt
                    end)
      end
  end.

Definition words (l : list (Z * Z)) : list Z := l ≫= λ p, le_bytes 8 p.1 ++ le_bytes 8 p.2.

(** The strings, the array of [&str], and the [&[&str]].  [argc] counts one
    more element than there are arguments; [ustack] has room for [MAXARG]. *)
Definition push_stack (w : W) (u : U) (stackbase sp : Z) (argv : list (list Z)) : outcome (W * result Z unit) :=
  '(w1, r) ← push_args w u stackbase sp argv;
  match r with
  | Err _ => Done (w1, Err tt)
  | Ok (sp1, l) =>
      let argc := Z.of_nat (length argv) + 1 in
      sp2 ← push_down sp1 (argc * 2 * 8);
      if decide (sp2 < stackbase) then Done (w1, Err tt)
      else if decide (Z.of_nat (MAXARG * 2) < argc * 2) then Panic "range end index out of range"
      else
        '(w2, r) ← u_copyout w1 u sp2 (words (l ++ [(0, 0)]));
        match r with
        | Err _ => Done (w2, Err tt)
        | Ok _ => push w2 u stackbase sp2 16 (words [(sp2, argc)])
        end
  end.

(** The second closure up to the commit: the stack pointer and the new size. *)
Definition exec_stack (w : W) (u : U) (sz : Z) (argv : list (list Z)) : outcome (W * Z * result Z unit) :=
  sz ← pgroundup sz;
  top ← checked_add sz (2 * PGSIZE);
  '(w1, r) ← x_alloc w u sz top PTE_W;
  match r with
  | None => Done (w1, sz, Err tt)
  | Some sz1 =>
      guard ← checked_sub sz1 (2 * PGSIZE);
      w2 ← x_clear w1 u guard;
      stackbase ← checked_sub sz1 PGSIZE;
      '(w3, r) ← push_stack w2 u stackbase sz1 argv;
      Done (w3, sz1, r)
  end.

Fixpoint string_of_bytes (l : list Z) : string :=
  match l with
  | [] => ""
  | b :: l => String (Ascii.ascii_of_nat (Z.to_nat b)) (string_of_bytes l)
  end.

Definition tf_start (tf : Trapframe) (entry sp : Z) : Trapframe :=
  mkTf (a0 tf) (a1 tf) (a2 tf) (a3 tf) (a4 tf) (a5 tf) (a6 tf) (a7 tf) entry sp.

(** The error exit: the new page table, if any, is freed. *)
Definition exec_fail (k : kst W U) (w : W) (u : option U) (sz : Z) : outcome (kst W U * result Z unit) :=
  match u with
  | Some u => w1 ← x_free w u sz; Done (set_world w1 k, Err tt)
  | None => Done (set_world w k, Err tt)
  end.

Definition exec (k : kst W U) (path : list Z) (argv : list (list Z)) : outcome (kst W U * result Z unit) :=
  d ← my_data k;
  tf ← unwrap (Proc.trapframe d);
  '(w1, uo, sz, r) ← exec_load (world k) tf path;
  match r, uo with
  | Ok elf, Some u =>
      '(w2, sz1, r) ← exec_stack w1 u sz argv;
      match r with
      | Err _ => exec_fail k w2 (Some u) sz1
      | Ok sp =>
          let nm := match file_name path with Some f => string_of_bytes f | None => Proc.name d end in
          old ← unwrap (Proc.uvm d);
          k1 ← set_my_data (set_world w2 k)
                 (Proc.mkData (Proc.kstack d) sz1 (Some u) (Some (tf_start tf (e_entry elf) sp))
                    (Proc.ctx_ra d) (Proc.ctx_sp d) nm (Proc.ofile d) (Proc.cwd d));
          w3 ← x_free (world k1) old (Proc.sz d);
          Done (set_world w3 k1, Ok sp)
      end
  | _, _ => exec_fail k w1 uo sz
  end.
End exec.
