(* ===== verification/ExecSpec.v ===== *)
(** * [exec]: all or nothing, the image it loads and the stack it builds

    [UserLaws] is what [exec] needs to know of user memory: a copy that
    succeeds stores the bytes and nothing else.  The page tables of [Vm]
    provide it ([vm_laws]). *)

From S2P Require Import Prelude Fs Vm VmSpec VmCopy File FileSpec Proc Syscall SyscallSpec Exec.

Open Scope Z_scope.

Class UserLaws (W U : Type) `{!UserAccess W U} := {
  u_ok : W → U → Prop;
  u_view : W → U → Z → option Z;
  copyout_law : ∀ w u a x w', u_ok w u → 0 ≤ a < usize_mod →
    u_copyout w u a x = Done (w', Ok tt) →
    u_ok w' u ∧ ∀ c, u_view w' u c = written a x c (u_view w u c);
}.

(** ** Memory that holds bytes *)
Definition holds (v : Z → option Z) (a : Z) (x : list Z) : Prop :=
  ∀ i y, x !! i = Some y → v (a + Z.of_nat i) = Some y.

Lemma holds_written v v' a x :
  (∀ c, v' c = written a x c (v c)) → holds v' a x.
Proof.
  intros Hv i y Hy. rewrite Hv. unfold written. apply lookup_lt_Some in Hy as Hl.
  rewrite decide_True by lia. rewrite <-Hy. f_equal. lia.
Qed.

Lemma holds_frame v v' a x :
  (∀ c, a ≤ c < a + Z.of_nat (length x) → v' c = v c) → holds v a x → holds v' a x.
Proof.
  intros Hv Hx i y Hy. apply lookup_lt_Some in Hy as Hl. rewrite Hv by lia. by apply Hx.
Qed.

Lemma holds_app v a x y : holds v a (x ++ y) ↔ holds v a x ∧ holds v (a + Z.of_nat (length x)) y.
Proof.
  unfold holds. split.
  - intros H. split; intros i z Hz.
    + apply H. by apply lookup_app_l_Some.
    + rewrite <-(H (length x + i)%nat z); [f_equal; lia|].
      rewrite lookup_app_r by lia. rewrite <-Hz. f_equal. lia.
  - intros [Hx Hy] i z Hz. apply lookup_app_Some in Hz as [Hz|[Hl Hz]]; [by apply Hx|].
    rewrite <-(Hy _ _ Hz). f_equal. lia.
Qed.

Lemma holds_get v a x : holds v a x → get v a (length x) = Ok x.
Proof. apply get_view. Qed.

(** ** What [main(args: &[&str])] finds

    A word, a string slice and a slice of string slices, read from memory. *)
Definition bytes_at (v : Z → option Z) (a : Z) (n : nat) : option (list Z) :=
  match get v a n with Ok x => Some x | Err _ => None end.
Definition word_at (v : Z → option Z) (a : Z) : option Z := le_val <$> bytes_at v a 8.
Definition str_at (v : Z → option Z) (a : Z) : option (list Z) :=
  p ← word_at v a; n ← word_at v (a + 8); bytes_at v p (Z.to_nat n).
Fixpoint strs_at (v : Z → option Z) (a : Z) (n : nat) : option (list (list Z)) :=
  match n with
  | O => Some []
  | S n => x ← str_at v a; r ← strs_at v (a + 16) n; Some (x :: r)
  end.
Definition args_at (v : Z → option Z) (a : Z) : option (list (list Z)) :=
  p ← word_at v a; n ← word_at v (a + 8); strs_at v p (Z.to_nat n).

Lemma word_at_holds v a z : 0 ≤ z < usize_mod → holds v a (le_bytes 8 z) → word_at v a = Some z.
Proof.
  intros Hz Hh. unfold word_at, bytes_at.
  pose proof (holds_get _ _ _ Hh) as Hg. rewrite length_le_bytes in Hg. rewrite Hg. cbn [fmap option_fmap option_map].
  by rewrite le_val_word.
Qed.

Lemma pair_at_holds v a p n :
  0 ≤ p < usize_mod → 0 ≤ n < usize_mod → holds v a (words [(p, n)]) →
  word_at v a = Some p ∧ word_at v (a + 8) = Some n.
Proof.
  intros Hp Hn Hh. unfold words in Hh. cbn [mbind list_bind fst snd] in Hh. rewrite app_nil_r in Hh.
  apply holds_app in Hh as [H1 H2]. rewrite length_le_bytes in H2.
  split; by apply word_at_holds.
Qed.

Lemma args_at_ext v v' a : (∀ c, v' c = v c) → args_at v' a = args_at v a.
Proof.
  intros Hv. assert (Hb : ∀ a n, bytes_at v' a n = bytes_at v a n).
  { intros b n. unfold bytes_at. replace (get v' b n) with (get v b n); [done|]. revert b.
    induction n as [|n IH]; intros b; cbn [get]; [done|]. by rewrite Hv, IH. }
  assert (Hw : ∀ a, word_at v' a = word_at v a) by (intros b; unfold word_at; by rewrite Hb).
  assert (Hs : ∀ a, str_at v' a = str_at v a).
  { intros b. unfold str_at. rewrite !Hw. destruct (word_at v b); [|done]. cbn. destruct (word_at v (b + 8)); [|done]. apply Hb. }
  assert (Hn : ∀ n a, strs_at v' a n = strs_at v a n).
  { induction n as [|n IH]; intros b; cbn [strs_at]; [done|]. by rewrite Hs, IH. }
  unfold args_at. rewrite !Hw. destruct (word_at v a); [|done]. cbn. destruct (word_at v (a + 8)); [|done]. apply Hn.
Qed.

(** A pair of [ustack] that describes a string in memory. *)
Definition describes (v : Z → option Z) (p : Z * Z) (x : list Z) : Prop :=
  0 ≤ p.1 < usize_mod ∧ p.2 = Z.of_nat (length x) ∧ p.2 < usize_mod ∧ holds v p.1 x.

Lemma words_cons p l : words (p :: l) = words [p] ++ words l.
Proof. unfold words. cbn [mbind list_bind]. by rewrite app_nil_r. Qed.

Lemma length_words l : length (words l) = (16 * length l)%nat.
Proof.
  induction l as [|p l IH]; [done|]. rewrite words_cons, length_app, IH. unfold words.
  cbn [mbind list_bind]. rewrite !length_app, !length_le_bytes. simpl. lia.
Qed.

Lemma strs_at_holds v l xs : ∀ a,
  Forall2 (describes v) l xs → holds v a (words l) → strs_at v a (length l) = Some xs.
Proof.
  intros a Hd. revert a. induction Hd as [|[p n] x l xs (Hp & Hn & Hn' & Hx) Hd IH]; intros a Hh; [done|].
  rewrite words_cons in Hh. apply holds_app in Hh as [H1 H2]. rewrite length_words in H2.
  simpl in Hn. subst n. cbn [length strs_at]. unfold str_at.
  destruct (pair_at_holds v a p (Z.of_nat (length x))) as [-> ->]; [done|simpl in *; lia|done|].
  cbn [mbind option_bind]. rewrite Nat2Z.id. unfold bytes_at. rewrite (holds_get v p x Hx).
  cbn [mbind option_bind]. by rewrite (IH (a + 16)).
Qed.

(** ** The stack *)
Section stack.
Context {W U : Type} `{!UserAccess W U, !UserLaws W U}.
Implicit Types (w : W) (u : U).

Definition same_outside w w' u (lo hi : Z) : Prop :=
  ∀ c, c < lo ∨ hi ≤ c → u_view w' u c = u_view w u c.

Lemma push_down_spec sp n s : push_down sp n = Done s → 0 ≤ n → s `mod` 16 = 0 ∧ sp - n - 16 < s ≤ sp - n.
Proof.
  unfold push_down, checked_sub. intros H Hn. case_decide as Hs; [|done]. simplify_eq/=. zdm.
Qed.

Lemma push_block_spec w u sb sp x w' sp' :
  push w u sb sp (Z.of_nat (length x)) x = Done (w', Ok sp') →
  u_ok w u → 0 ≤ sb → sp < usize_mod →
  u_ok w' u ∧ sp' `mod` 16 = 0 ∧ sb ≤ sp' ∧ sp' + Z.of_nat (length x) ≤ sp ∧
  holds (u_view w' u) sp' x ∧ same_outside w w' u sp' (sp' + Z.of_nat (length x)).
Proof.
  unfold push. intros H Hok Hsb Hsp. apply bind_Done_inv in H as (s & Hs & H).
  apply push_down_spec in Hs as [Hal Hs]; [|lia]. case_decide as Hlo; [by simplify_eq|].
  apply bind_Done_inv in H as ([w1 r] & Hc & H). destruct r as [[]|]; simplify_eq.
  destruct (copyout_law w u sp' x w' Hok ltac:(lia) Hc) as [Hok' Hv].
  split_and!; [done|done|lia|lia|by eapply holds_written|].
  intros c Hc0. rewrite Hv. unfold written. by rewrite decide_False by lia.
Qed.

Lemma push_args_spec args : ∀ w u sb sp w' sp' l,
  push_args w u sb sp args = Done (w', Ok (sp', l)) →
  u_ok w u → 0 ≤ sb ≤ sp → sp < usize_mod →
  u_ok w' u ∧ sb ≤ sp' ≤ sp ∧ same_outside w w' u sp' sp ∧
  Forall2 (λ p x, describes (u_view w' u) p x ∧ sp' ≤ p.1 ∧ p.1 + p.2 ≤ sp) l args.
Proof.
  induction args as [|x args IH]; intros w u sb sp w' sp' l H Hok Hsb Hsp.
  - simpl in H. simplify_eq. split_and!; [done|lia|lia|by intros c _|done].
  - cbn [push_args] in H. apply bind_Done_inv in H as ([w1 r1] & H1 & H).
    destruct r1 as [sp1|]; [|done]. apply bind_Done_inv in H as ([w2 r2] & H2 & H).
    destruct r2 as [[sp2 l2]|]; [|done]. simplify_eq.
    apply push_block_spec in H1 as (Hok1 & _ & Hlo & Hhi & Hh & Hs1); [|done|lia|done].
    destruct (IH _ _ _ _ _ _ _ H2 Hok1 ltac:(lia) ltac:(lia)) as (Hok2 & Hr & Hs2 & Hf).
    split_and!; [done|lia|lia| |].
    + intros c Hc. rewrite Hs2, Hs1 by lia. done.
    + constructor.
      * unfold describes. simpl. split_and!; try lia. eapply holds_frame; [|exact Hh].
        intros c Hc. apply Hs2. lia.
      * eapply Forall2_impl; [exact Hf|]. simpl. intros p y (? & ? & ?). split_and!; [done|lia|lia].
Qed.

Lemma push_stack_spec w u stackbase sp argv w' sp' :
  u_ok w u → 0 ≤ stackbase ≤ sp → sp < usize_mod →
  push_stack w u stackbase sp argv = Done (w', Ok sp') →
  args_at (u_view w' u) sp' = Some (argv ++ [[]]) ∧ (length argv < MAXARG)%nat ∧
  sp' `mod` 16 = 0 ∧ stackbase ≤ sp' < sp ∧ same_outside w w' u stackbase sp.
Proof.
  intros Hok Hsb Hsp H. unfold push_stack in H. apply bind_Done_inv in H as ([w1 r1] & H1 & H).
  destruct r1 as [[sp1 l]|]; [|done].
  apply push_args_spec in H1 as (Hok1 & Hsp1 & Hs1 & Hf); [|done..].
  apply Forall2_length in Hf as Hlen.
  apply bind_Done_inv in H as (sp2 & Hp2 & H). apply push_down_spec in Hp2 as [Hal2 Hp2]; [|lia].
  case_decide as Hlo; [done|]. case_decide as Hmax; [done|].
  apply bind_Done_inv in H as ([w2 r2] & H2 & H). destruct r2 as [[]|]; [|done].
  destruct (copyout_law w1 u sp2 _ w2 Hok1 ltac:(lia) H2) as [Hok2 Hv2]. pose proof (holds_written _ _ _ _ Hv2) as Hh2.
  assert (Hlw : Z.of_nat (length (words (l ++ [(0, 0)]))) = (Z.of_nat (length argv) + 1) * 2 * 8)
    by (rewrite length_words, length_app; simpl; lia).
  assert (Hs2 : same_outside w1 w2 u sp2 sp1).
  { intros c Hc. rewrite Hv2. unfold written. by rewrite decide_False by lia. }
  apply (push_block_spec _ _ _ _ (words [(sp2, Z.of_nat (length argv) + 1)])) in H
    as (Hok3 & Hal3 & Hlo3 & Hhi3 & Hh3 & Hs3); [|done|lia|lia].
  rewrite length_words in Hhi3, Hs3. simpl length in Hhi3, Hs3.
  assert (Hmax' : Z.of_nat (length argv) < Z.of_nat MAXARG) by lia.
  split_and!; [|lia|done|lia|lia|].
  2: { intros c Hc. rewrite Hs3, Hs2, Hs1 by lia. done. }
  unfold args_at. 
  destruct (pair_at_holds (u_view w' u) sp' sp2 (Z.of_nat (length argv) + 1)) as [-> ->];
    [lia|change MAXARG with 32%nat in *; lia|done|].
  cbn [mbind option_bind].
  replace (Z.to_nat (Z.of_nat (length argv) + 1)) with (length (l ++ [(0, 0)])) by (rewrite length_app; simpl; lia).
  apply strs_at_holds.
  - apply Forall2_app.
    + eapply Forall2_impl; [exact Hf|]. intros p x ((? & Hn & ? & Hx) & Hp & Hq). split_and!; try lia.
      eapply holds_frame; [|exact Hx]. intros c Hc. rewrite Hs3, Hs2 by lia. done.
    + repeat constructor; simpl; try lia. intros i y Hy. by rewrite lookup_nil in Hy.
  - eapply holds_frame; [|exact Hh2]. intros c Hc. apply Hs3. lia.
Qed.
(** C16. The stack that [exec] builds is read back as the arguments: where
    [main] finds its [&[&str]], a slice of length [argc], memory holds the
    arguments in order (followed by one empty string, since [argc] counts one
    element too many); the stack pointer is 16-byte aligned and everything
    written lies between the base of the stack and its top.  A call that
    succeeds has fewer than MAXARG arguments: with all MAXARG present it never
    succeeds. *)
Theorem exec_args_roundtrip w u stackbase sp argv w' sp' :
  u_ok w u → 0 ≤ stackbase ≤ sp → sp < usize_mod →
  push_stack w u stackbase sp argv = Done (w', Ok sp') →
  args_at (u_view w' u) sp' = Some (argv ++ [[]]) ∧ (length argv < MAXARG)%nat ∧
  sp' `mod` 16 = 0 ∧ stackbase ≤ sp' < sp ∧ same_outside w w' u stackbase sp.
Proof. apply push_stack_spec. Qed.
End stack.

(** ** The image *)

(** [n] bytes of a file from [o] on. *)
Definition file_range (file : Z → Z) (o n : Z) : list Z := (λ i, file (o + i)) <$> seqZ 0 n.

(** A read of an inode to the physical page behind a user page, at an offset
    in the file where a block starts, changes that page only, and to the bytes
    of the file.  ([read] slices a block wrongly at other offsets, see
    [FsSpec.dirlookup_third_entry_panics].)  [ExecFs] derives this law from [read]. *)
Class LoadLaws (W U : Type) `{!UserAccess W U, !UserLaws W U, !ExecWorld W U} (file : nat → Z → Z) := {
  walk_law : ∀ w u a, u_ok w u → 0 ≤ a → a `mod` PGSIZE = 0 → is_Some (u_view w u a) →
    ∃ pa, x_walkaddr w u a = Done (Some pa) ∧
      ∀ ip o n, 0 ≤ o < u32_mod → o `mod` 1024 = 0 → 0 ≤ n ≤ PGSIZE →
        ∃ w' r, x_read_at w ip pa o n = Done (w', r) ∧
          (r = Ok n → u_ok w' u ∧ ∀ c, u_view w' u c = written a (file_range (file ip) o n) c (u_view w u c));
}.

Section load.
Context {W U : Type} `{!UserAccess W U, !UserLaws W U, !ExecWorld W U}.
Context (file : nat → Z → Z) `{!LoadLaws W U file}.
Implicit Types (w : W) (u : U).

Lemma length_file_range f o n : length (file_range f o n) = Z.to_nat n.
Proof. unfold file_range. by rewrite length_fmap, length_seqZ. Qed.

Lemma file_range_lookup f o n i : 0 ≤ i < n → file_range f o n !! Z.to_nat i = Some (f (o + i)).
Proof.
  intros Hi. unfold file_range. rewrite list_lookup_fmap, lookup_seqZ_lt by lia. simpl. f_equal. f_equal. lia.
Qed.

Lemma written_file f a o n c old : 0 ≤ n →
  written a (file_range f o n) c old = if decide (a ≤ c < a + n) then Some (f (o + (c - a))) else old.
Proof.
  intros Hn. unfold written. rewrite length_file_range. destruct (decide (a ≤ c < a + n)).
  - rewrite decide_True by lia. by apply file_range_lookup; lia.
  - by rewrite decide_False by lia.
Qed.

Lemma loadseg_loop_spec k : ∀ w u va ip offset sz i,
  u_ok w u → 0 ≤ va → va `mod` PGSIZE = 0 → 0 ≤ i → i `mod` PGSIZE = 0 → va + sz + PGSIZE < usize_mod →
  0 ≤ offset → offset `mod` 1024 = 0 → offset + sz ≤ u32_mod → sz < Z.of_nat k * PGSIZE + i →
  (∀ c, va ≤ c < va + sz → is_Some (u_view w u c)) →
  ∃ w' r, loadseg_loop k w u va ip offset sz i = Done (w', r) ∧
    (r = Ok tt → u_ok w' u ∧
       ∀ c, u_view w' u c = if decide (va + i ≤ c < va + sz) then Some (file ip (offset + (c - va))) else u_view w u c).
Proof.
  induction k as [|k IH]; intros w u va ip offset sz i Hok Hva Hal Hi Hial Hmax Hoff Hoal Hofm Hk Hmap;
    cbn [loadseg_loop]; (destruct (decide (i < sz)) as [Hlt|Hge];
      [|exists w, (Ok tt); split; [done|]; intros _; split; [done|]; intros c; by rewrite decide_False by lia]);
    [lia|].
  unfold PGSIZE in *. rewrite (checked_add_ok va i) by lia. cbn [mbind outcome_bind].
  destruct (walk_law (file:=file) w u (va + i)) as (pa & -> & Hread);
    [done|lia|unfold PGSIZE; zdm|apply Hmap; lia|]. cbn [mbind outcome_bind].
  rewrite (checked_add_ok offset i) by lia. cbn [mbind outcome_bind]. unfold as_u32. rewrite Z.mod_small by lia.
  set (n := if decide (sz - i < 4096) then sz - i else 4096).
  assert (Hn : 0 < n ≤ 4096 ∧ (n = sz - i ∨ n = 4096 ∧ i + 4096 ≤ sz)) by (unfold n; case_decide; lia).
  destruct (Hread ip (offset + i) n) as (w1 & r1 & -> & Hr1); [lia|zdm|unfold PGSIZE; lia|]. cbn [mbind outcome_bind].
  unfold result_is. destruct r1 as [n1|e]; [|by exists w1, (Err tt)].
  destruct (Z.eqb_spec n1 n) as [->|Hne]; [|by exists w1, (Err tt)].
  destruct (Hr1 eq_refl) as [Hok1 Hv1]. rewrite checked_add_ok by lia. cbn [mbind outcome_bind].
  assert (Hv : ∀ c, u_view w1 u c = if decide (va + i ≤ c < va + i + n) then Some (file ip (offset + (c - va))) else u_view w u c).
  { intros c. rewrite Hv1, written_file by lia. case_decide; [|done]. f_equal. f_equal. lia. }
  destruct (IH w1 u va ip offset sz (i + 4096)) as (w' & r & Hrun & Hpost); try done; try lia; [zdm| |].
  { intros c Hc. rewrite Hv. case_decide; [eauto|by apply Hmap]. }
  exists w', r. split; [done|]. intros Hr. destruct (Hpost Hr) as [Hok' Hv']. split; [done|].
  intros c. rewrite Hv', Hv. repeat case_decide; try done; lia.
Qed.

Lemma loadseg_exact w u va ip offset sz
  (Hok : u_ok w u) (Hva : 0 ≤ va) (Hal : va `mod` PGSIZE = 0) (Hsz : 0 ≤ sz)
  (Hmax : va + sz + PGSIZE < usize_mod) (Hoff : 0 ≤ offset) (Hoal : offset `mod` 1024 = 0) (Hofm : offset + sz ≤ u32_mod)
  (Hmap : ∀ c, va ≤ c < va + sz → is_Some (u_view w u c)) :
  ∃ w' r, loadseg w u va ip offset sz = Done (w', r) ∧
    (r = Ok tt → get (u_view w' u) va (Z.to_nat sz) = Ok (file_range (file ip) offset sz) ∧
       ∀ c, c < va ∨ va + sz ≤ c → u_view w' u c = u_view w u c).
Proof.
  destruct (loadseg_loop_spec (Z.to_nat (sz / PGSIZE + 1)) w u va ip offset sz 0) as (w' & r & Hrun & Hpost);
    try done; try lia; [unfold PGSIZE in *; zdm|].
  exists w', r. unfold loadseg, is_aligned. change Vm.PGSIZE with PGSIZE. rewrite Hal. split; [done|]. intros Hr.
  destruct (Hpost Hr) as [_ Hv]. split; [|intros c Hc; rewrite Hv; by rewrite decide_False by lia].
  rewrite <-(length_file_range (file ip) offset sz). apply get_view. intros i y Hy.
  apply lookup_lt_Some in Hy as Hl. rewrite length_file_range in Hl. rewrite Hv, decide_True by lia.
  rewrite <-Hy, <-(Nat2Z.id i), file_range_lookup by lia. do 2 f_equal. lia.
Qed.
(** C17. [loadseg] loads the segment, for a segment that starts at a block
    boundary of the file: with its pages mapped it never panics, and when it returns [Ok] the user memory from [va] on holds exactly the [sz]
    bytes of the file from [offset] on, across any number of pages and with a
    last page that is only partly filled, and no other byte of user memory
    has changed. *)
Theorem loadseg_image w u va ip offset sz
  (Hok : u_ok w u) (Hva : 0 ≤ va) (Hal : va `mod` PGSIZE = 0) (Hsz : 0 ≤ sz)
  (Hmax : va + sz + PGSIZE < usize_mod) (Hoff : 0 ≤ offset) (Hoal : offset `mod` 1024 = 0) (Hofm : offset + sz ≤ u32_mod)
  (Hmap : ∀ c, va ≤ c < va + sz → is_Some (u_view w u c)) :
  ∃ w' r, loadseg w u va ip offset sz = Done (w', r) ∧
    (r = Ok tt → get (u_view w' u) va (Z.to_nat sz) = Ok (file_range (file ip) offset sz) ∧
       ∀ c, c < va ∨ va + sz ≤ c → u_view w' u c = u_view w u c).
Proof. by apply loadseg_exact. Qed.
End load.

(** ** Address spaces

    A world holds the address spaces of all processes; [u_ok] tells which exist,
    and [u_view] what they hold.  [apart w w' o]: no address space but [o] is
    made, freed or changed from [w] to [w']. *)
Section apart.
Context {W U : Type} `{!UserAccess W U, !UserLaws W U}.

Definition apart (w w' : W) (o : option U) : Prop :=
  ∀ v, Some v ≠ o → (u_ok w' v ↔ u_ok w v) ∧ (u_ok w v → ∀ c, u_view w' v c = u_view w v c).

Lemma apart_refl w o : apart w w o.
Proof. by intros v _. Qed.

Lemma apart_trans w1 w2 w3 o : apart w1 w2 o → apart w2 w3 o → apart w1 w3 o.
Proof.
  intros H1 H2 v Hv. destruct (H1 v Hv) as [A1 B1]. destruct (H2 v Hv) as [A2 B2].
  split; [by rewrite A2|]. intros Hok c. rewrite B2, B1; [done|done|by apply A1].
Qed.

Lemma apart_weaken w w' o : apart w w' None → apart w w' o.
Proof. intros H v _. by apply H. Qed.
End apart.

(** What calls that return do to address spaces.  [sound] is the invariant of
    the world (address spaces do not share pages).  Calls on files leave all of
    them alone; a call on one leaves the others alone. *)
Class SpaceLaws (W U : Type) `{!FileWorld W, !UserAccess W U, !UserLaws W U, !ExecWorld W U} := {
  sound : W → Prop;
  sp_begin w w' : sound w → w_begin_op w = Done w' → sound w' ∧ apart w w' None;
  sp_end w w' : sound w → w_end_op w = Done w' → sound w' ∧ apart w w' None;
  sp_namei w p w' r : sound w → w_namei w p = Done (w', r) → sound w' ∧ apart w w' None;
  sp_lock w ip w' r : sound w → w_lock w ip = Done (w', r) → sound w' ∧ apart w w' None;
  sp_put w ip w' : sound w → w_put w ip = Done w' → sound w' ∧ apart w w' None;
  sp_read w ip o n w' r : sound w → x_read w ip o n = Done (w', r) → sound w' ∧ apart w w' None;
  sp_create w tf w' o : sound w → x_create w tf = Done (w', o) →
    sound w' ∧ apart w w' o ∧ ∀ u, o = Some u → ¬ u_ok w u ∧ u_ok w' u;
  sp_alloc w u a b perm w' r : sound w → u_ok w u → x_alloc w u a b perm = Done (w', r) →
    sound w' ∧ apart w w' (Some u) ∧ u_ok w' u ∧ ∀ s, r = Some s → s = Z.max a b;
  sp_clear w u a w' : sound w → u_ok w u → x_clear w u a = Done w' →
    sound w' ∧ apart w w' (Some u) ∧ u_ok w' u;
  sp_load w u a pa ip o n w' r : sound w → u_ok w u → x_walkaddr w u a = Done (Some pa) →
    x_read_at w ip pa o n = Done (w', r) → sound w' ∧ apart w w' (Some u) ∧ u_ok w' u;
  sp_copyout w u a x w' r : sound w → u_ok w u → u_copyout w u a x = Done (w', r) →
    sound w' ∧ apart w w' (Some u) ∧ u_ok w' u;
  sp_free w u sz w' : sound w → u_ok w u → x_free w u sz = Done w' →
    sound w' ∧ apart w w' (Some u) ∧ ¬ u_ok w' u;
}.

Section spaces.
Context {W U : Type} `{!FileWorld W, !UserAccess W U, !UserLaws W U, !ExecWorld W U, !SpaceLaws W U}.
Implicit Types (w : W) (u : U).

(** Only [u] has changed, and it still exists. *)
Definition moved w w' u : Prop := sound w' ∧ apart w w' (Some u) ∧ u_ok w' u.
(** No address space has changed. *)
Definition still w w' : Prop := sound w' ∧ apart w w' None.

Lemma still_moved w w' u : still w w' → u_ok w u → moved w w' u.
Proof. intros [S A] Hu. split_and!; [done|by apply apart_weaken|]. by apply A. Qed.

Lemma moved_trans w1 w2 w3 u : moved w1 w2 u → moved w2 w3 u → moved w1 w3 u.
Proof. intros (_ & A1 & _) (S & A2 & U2). split_and!; [done|by eapply apart_trans|done]. Qed.

Lemma still_trans w1 w2 w3 : still w1 w2 → still w2 w3 → still w1 w3.
Proof. intros (_ & A1) (S & A2). split; [done|by eapply apart_trans]. Qed.

Lemma still_refl w : sound w → still w w.
Proof. split; [done|apply apart_refl]. Qed.

Lemma moved_refl w u : sound w → u_ok w u → moved w w u.
Proof. intros. split_and!; [done|apply apart_refl|done]. Qed.

Lemma loadseg_moved w u va ip offset sz w' r :
  sound w → u_ok w u → loadseg w u va ip offset sz = Done (w', r) → moved w w' u.
Proof.
  unfold loadseg. destruct (is_aligned va); [|done]. generalize (Z.to_nat (sz / PGSIZE + 1)) 0.
  intros k. revert w. induction k as [|k IH]; intros w i Hs Hu; cbn [loadseg_loop];
    (destruct (decide (i < sz)); [|intros [= <- <-]; by apply moved_refl]); [done|].
  intros H. apply bind_Done_inv in H as (a & _ & H). apply bind_Done_inv in H as (po & Hw & H). destruct po as [pa|]; [|done].
  apply bind_Done_inv in H as (o & _ & H). apply bind_Done_inv in H as ([w1 r1] & Hr & H).
  pose proof (sp_load _ _ _ _ _ _ _ _ _ Hs Hu Hw Hr) as M. destruct (result_is _ r1); [|by simplify_eq].
  apply bind_Done_inv in H as (i1 & _ & H). eapply moved_trans; [exact M|]. eapply IH; [apply M|apply M|done].
Qed.

Lemma load_loop_moved k w u ip off sz w' sz' r :
  sound w → u_ok w u → load_loop k w u ip off sz = Done (w', sz', r) → moved w w' u.
Proof.
  revert w off sz. induction k as [|k IH]; intros w off sz Hs Hu; cbn [load_loop];
    [intros [= <- <- <-]; by apply moved_refl|]. intros H.
  apply bind_Done_inv in H as ([w1 r1] & E1 & H).
  pose proof (still_moved _ _ _ (sp_read _ _ _ _ _ _ Hs E1) Hu) as M1. destruct r1 as [x|]; [|by simplify_eq].
  case_decide; [by simplify_eq|]. case_decide; [eapply moved_trans; [exact M1|]; eapply IH; [apply M1|apply M1|done]|].
  case_decide; [by simplify_eq|]. apply bind_Done_inv in H as (e & _ & H).
  case_decide; [by simplify_eq|]. case_decide; [by simplify_eq|]. apply bind_Done_inv in H as ([w2 r2] & E2 & H).
  destruct (sp_alloc _ _ _ _ _ _ _ (proj1 M1) (proj2 (proj2 M1)) E2) as (S2 & A2 & U2 & _).
  assert (M2 : moved w w2 u) by (eapply moved_trans; [exact M1|by split_and!]). destruct r2 as [sz1|]; [|by simplify_eq].
  apply bind_Done_inv in H as ([w3 r3] & E3 & H). apply loadseg_moved in E3; [|done|done].
  assert (M3 : moved w w3 u) by (by eapply moved_trans). destruct r3; [|by simplify_eq].
  apply bind_Done_inv in H as (off1 & _ & H). eapply moved_trans; [exact M3|]. eapply IH; [apply M3|apply M3|done].
Qed.

(** Loading an image: no address space, or a new one, has been made; on
    success there is a new one and the header is the one at the start of the
    file. *)
Definition made w w' (uo : option U) : Prop :=
  sound w' ∧ apart w w' uo ∧ ∀ u, uo = Some u → ¬ u_ok w u ∧ u_ok w' u.
Definition header_of (ip : nat) (elf : ElfHdr) : Prop :=
  magic_ok elf = true ∧ ∃ w w' x, x_read w ip 0 SIZEOF_ELFHDR = Done (w', Ok x) ∧ elf = decode_elf x.

Lemma still_made w1 w2 w3 uo : still w1 w2 → made w2 w3 uo → made w1 w3 uo.
Proof.
  intros [_ A1] (S & A2 & Hu). split_and!; [done|eapply apart_trans; [by apply apart_weaken|done]|].
  intros u [Hn Hy]%Hu. split; [|done]. intros Hok. apply Hn. by apply A1.
Qed.

Lemma made_still w1 w2 w3 uo : made w1 w2 uo → still w2 w3 → made w1 w3 uo.
Proof.
  intros (_ & A1 & Hu) [S A2]. split_and!; [done|eapply apart_trans; [done|by apply apart_weaken]|].
  intros u [Hn Hy]%Hu. split; [done|]. by apply A2.
Qed.

Lemma made_none w1 w2 : still w1 w2 → made w1 w2 None.
Proof. intros [S A]. by split_and!. Qed.

Lemma made_moved w1 w2 w3 u : made w1 w2 (Some u) → moved w2 w3 u → made w1 w3 (Some u).
Proof.
  intros (_ & A1 & Hu) (S & A2 & U3). split_and!; [done|by eapply apart_trans|]. intros u' [= <-].
  split; [|done]. by apply Hu.
Qed.

Lemma load_image_made w tf ip w' uo sz r :
  sound w → load_image w tf ip = Done (w', uo, sz, r) →
  made w w' uo ∧ ∀ elf, r = Ok elf → header_of ip elf ∧ ∃ u, uo = Some u.
Proof.
  intros Hs H. unfold load_image in H. apply bind_Done_inv in H as ([w1 i] & E1 & H).
  pose proof (sp_lock _ _ _ _ Hs E1) as S1. apply bind_Done_inv in H as ([w2 r2] & E2 & H).
  pose proof (still_trans _ _ _ S1 (sp_read _ _ _ _ _ _ (proj1 S1) E2)) as S2.
  destruct r2 as [x|]; [|simplify_eq; split; [by apply made_none|done]].
  case_decide; [simplify_eq; split; [by apply made_none|done]|].
  destruct (magic_ok (decode_elf x)) eqn:Em; [|simplify_eq; split; [by apply made_none|done]].
  apply bind_Done_inv in H as ([w3 o] & E3 & H). pose proof (sp_create _ _ _ _ (proj1 S2) E3) as M3.
  pose proof (still_made _ _ _ _ S2 M3) as M. destruct o as [u|]; [|simplify_eq; split; [exact M|done]].
  apply bind_Done_inv in H as ([[w4 sz4] r4] & E4 & H).
  apply load_loop_moved in E4; [|apply M|by apply M]. simplify_eq. split; [by eapply made_moved|].
  intros elf Helf. split; [|eauto]. destruct r4; [|done]. simplify_eq. split; [done|]. by exists w1, w2, x.
Qed.

Lemma exec_load_made w tf path w' uo sz r :
  sound w → exec_load w tf path = Done (w', uo, sz, r) →
  made w w' uo ∧ ∀ elf, r = Ok elf → (∃ ip, header_of ip elf) ∧ ∃ u, uo = Some u.
Proof.
  intros Hs H. unfold exec_load in H. apply bind_Done_inv in H as (w1 & E1 & H).
  pose proof (sp_begin _ _ Hs E1) as S1. apply bind_Done_inv in H as ([w2 r2] & E2 & H).
  pose proof (still_trans _ _ _ S1 (sp_namei _ _ _ _ (proj1 S1) E2)) as S2.
  apply bind_Done_inv in H as ([[[w4 u4] sz4] r4] & E4 & H). apply bind_Done_inv in H as (w5 & E5 & H). simplify_eq.
  assert (M : made w w4 uo ∧ ∀ elf, r = Ok elf → (∃ ip, header_of ip elf) ∧ ∃ u, uo = Some u).
  { destruct r2 as [ip|]; [|simplify_eq; split; [by apply made_none|done]].
    apply bind_Done_inv in E4 as ([[[w3 u3] sz3] r3] & E3 & E4). apply bind_Done_inv in E4 as (w4' & E4 & Heq). simplify_eq.
    apply load_image_made in E3 as [M3 Hr]; [|apply S2]. split.
    - eapply made_still; [by eapply still_made|]. eapply sp_put; [apply M3|done].
    - intros elf [? ?]%Hr. eauto. }
  destruct M as [M Hr]. split; [|done]. eapply made_still; [exact M|]. eapply sp_end; [apply M|done].
Qed.

Lemma copyout_moved w u a x w' r : sound w → u_ok w u → u_copyout w u a x = Done (w', r) → moved w w' u.
Proof. apply sp_copyout. Qed.

Lemma push_moved w u sb sp n x w' r :
  sound w → u_ok w u → push w u sb sp n x = Done (w', r) → moved w w' u.
Proof.
  intros Hs Hu H. unfold push in H. apply bind_Done_inv in H as (sp1 & _ & H).
  case_decide; [simplify_eq; by apply moved_refl|]. apply bind_Done_inv in H as ([w1 r1] & E1 & H). simplify_eq.
  by eapply copyout_moved.
Qed.

Lemma push_args_moved args : ∀ w u sb sp w' r,
  sound w → u_ok w u → push_args w u sb sp args = Done (w', r) → moved w w' u.
Proof.
  induction args as [|x args IH]; intros w u sb sp w' r Hs Hu H; cbn [push_args] in H.
  { simplify_eq. by apply moved_refl. }
  apply bind_Done_inv in H as ([w1 r1] & E1 & H). apply push_moved in E1 as M1; [|done|done].
  destruct r1 as [sp1|]; [|by simplify_eq]. apply bind_Done_inv in H as ([w2 r2] & E2 & H). simplify_eq.
  eapply moved_trans; [exact M1|]. eapply IH; [apply M1|apply M1|done].
Qed.

Lemma push_stack_moved w u sb sp argv w' r :
  sound w → u_ok w u → push_stack w u sb sp argv = Done (w', r) → moved w w' u.
Proof.
  intros Hs Hu H. unfold push_stack in H. apply bind_Done_inv in H as ([w1 r1] & E1 & H).
  apply push_args_moved in E1 as M1; [|done|done]. destruct r1 as [[sp1 l]|]; [|by simplify_eq].
  apply bind_Done_inv in H as (sp2 & _ & H). case_decide; [by simplify_eq|]. case_decide; [done|].
  apply bind_Done_inv in H as ([w2 r2] & E2 & H). apply copyout_moved in E2 as M2; [|apply M1..].
  assert (M : moved w w2 u) by (by eapply moved_trans). destruct r2 as [[]|]; [|by simplify_eq].
  eapply moved_trans; [exact M|]. eapply push_moved; [apply M|apply M|done].
Qed.

(** The stack: on success the arguments can be read back from it. *)
Lemma exec_stack_moved w u sz argv w' sz' r :
  sound w → u_ok w u → exec_stack w u sz argv = Done (w', sz', r) →
  moved w w' u ∧ ∀ sp, r = Ok sp →
    args_at (u_view w' u) sp = Some (argv ++ [[]]) ∧ sp `mod` 16 = 0 ∧ sz' - PGSIZE ≤ sp < sz'.
Proof.
  intros Hs Hu H. unfold exec_stack in H. apply bind_Done_inv in H as (sz0 & _ & H).
  apply bind_Done_inv in H as (top & Htop & H). apply bind_Done_inv in H as ([w1 r1] & E1 & H).
  destruct (sp_alloc _ _ _ _ _ _ _ Hs Hu E1) as (S1 & A1 & U1 & Hmax).
  assert (M1 : moved w w1 u) by (by split_and!). destruct r1 as [sz1|]; [|by simplify_eq].
  specialize (Hmax sz1 eq_refl). apply bind_Done_inv in H as (g & _ & H). apply bind_Done_inv in H as (w2 & E2 & H).
  pose proof (sp_clear _ _ _ _ S1 U1 E2) as M2. apply bind_Done_inv in H as (sb & Hsb & H).
  apply bind_Done_inv in H as ([w3 r3] & E3 & H). simplify_eq.
  assert (M12 : moved w w2 u) by (by eapply moved_trans).
  split; [eapply moved_trans; [exact M12|]; eapply push_stack_moved; [apply M12|apply M12|done]|].
  intros sp ->. unfold checked_sub, checked_add, PGSIZE in *. do 2 (case_decide; [|done]). simplify_eq.
  apply push_stack_spec in E3 as (Ha & _ & Hal & Hr & _); [|apply M12|lia|lia]. done.
Qed.
End spaces.

(** ** The whole call *)
Section whole.
Context {W U : Type} `{!FileWorld W, !PathWorld W, !UserAccess W U, !UserMemory U Trapframe, !ExecWorld W U}.
Implicit Types k : kst W U.

(** Nothing but the world has changed. *)
Definition only_world k k' : Prop := ∃ w, k' = set_world w k.

Lemma exec_fail_world k w uo sz k' r :
  exec_fail k w uo sz = Done (k', r) → only_world k k' ∧ r = Err tt.
Proof.
  unfold exec_fail. destruct uo; intros H; [apply bind_Done_inv in H as (w1 & _ & H)|]; simplify_eq; split; unfold only_world; eauto.
Qed.

(** The data of the process after the change of image. *)
Definition new_image (d : Proc.ProcData U Trapframe File nat) (path : list Z) (u : U) (tf : Trapframe)
    (entry sz sp : Z) : Proc.ProcData U Trapframe File nat :=
  Proc.mkData (Proc.kstack d) sz (Some u) (Some (tf_start tf entry sp)) (Proc.ctx_ra d) (Proc.ctx_sp d)
    (match file_name path with Some f => string_of_bytes f | None => Proc.name d end)
    (Proc.ofile d) (Proc.cwd d).

Lemma exec_cases k path argv k' r d :
  my_data k = Done d → exec k path argv = Done (k', r) →
  match r with
  | Err _ => only_world k k'
  | Ok sp => ∃ w u tf elf sz, Proc.trapframe d = Some tf ∧
      (∃ w1 sz0 w2, exec_load (world k) tf path = Done (w1, Some u, sz0, Ok elf) ∧
         exec_stack w1 u sz0 argv = Done (w2, sz, Ok sp)) ∧
      ∃ k1, set_my_data k (new_image d path u tf (e_entry elf) sz sp) = Done k1 ∧ k' = set_world w k1
  end.
Proof.
  intros Hd H. unfold exec in H. rewrite Hd in H. cbn [mbind outcome_bind] in H.
  apply bind_Done_inv in H as (tf & Htf & H). apply bind_Done_inv in H as ([[[w1 uo] sz] r1] & Hl & H).
  destruct r1 as [elf|]; [|by apply exec_fail_world in H as [? ->]].
  destruct uo as [u|]; [|by apply exec_fail_world in H as [? ->]].
  apply bind_Done_inv in H as ([[w2 sz1] r2] & Hs & H).
  destruct r2 as [sp|]; [|by apply exec_fail_world in H as [? ->]].
  apply bind_Done_inv in H as (old & _ & H). apply bind_Done_inv in H as (k1 & Hk1 & H).
  apply bind_Done_inv in H as (w3 & _ & H). simplify_eq.
  unfold set_my_data in Hk1. apply bind_Done_inv in Hk1 as (p & Hp & Hk1). simplify_eq.
  exists w3, u, tf, elf, sz1. split_and!; [unfold unwrap in Htf; destruct (Proc.trapframe d); by simplify_eq| |].
  - by exists w1, sz, w2.
  - unfold set_my_data. change (my_proc (set_world w2 k)) with (my_proc k) in Hp. rewrite Hp.
    eexists. split; [cbn [mbind outcome_bind]; reflexivity|done].
Qed.

Lemma exec_keeps_files k path argv k' r : kinv k → exec k path argv = Done (k', r) → kinv k'.
Proof.
  intros Hk H. destruct (my_data k) as [d|e|a] eqn:Hd; [|unfold exec in H; by rewrite Hd in H..].
  pose proof (exec_cases _ _ _ _ _ _ Hd H) as Hc. destruct r as [sp|].
  - destruct Hc as (w & u & tf & elf & sz & _ & _ & k1 & Hs & ->). apply kinv_world.
    eapply set_data_inv; [done|exact Hd| |exact Hs]. done.
  - destruct Hc as [w ->]. by apply kinv_world.
Qed.

(** C7. Descriptors are counted across the whole system: in every state that
    system calls of any processes lead to, fork, exec and exit included, the
    number of pointers to an open [VFile] is one for its slot of the file table
    plus one for every descriptor of every process that refers to it, and
    processes that have ended hold no files. *)
Theorem system_file_counts proc_addr fork_ret ticks_at uargv_at k k' :
  kinv k → rtc (kstep proc_addr fork_ret ticks_at uargv_at exec) k k' →
  (∀ a v c, heap (kfile k') !! a = Some (v, c) →
     c = 1 + refs a (files_of (Proc.pool (kprocs k'))) ∧ 2 ≤ c) ∧
  (∀ p f, p ∈ Proc.pool (kprocs k') → f ∈ pfiles p →
     ¬ dead p ∧ ∃ a, f_arc f = Some a ∧ is_Some (heap (kfile k') !! a)).
Proof.
  apply reachable_counts. intros k0 path argv k1 r Hk _ H. by eapply exec_keeps_files.
Qed.
End whole.

(** ** All or nothing *)
Section atomic.
Context {W U : Type} `{!FileWorld W, !PathWorld W, !UserAccess W U, !UserMemory U Trapframe, !ExecWorld W U}.
Context `{!UserLaws W U, !SpaceLaws W U, !EqDecision U}.
Implicit Types k : kst W U.

Lemma exec_fail_spaces k w0 w uo sz k' r :
  made w0 w uo → exec_fail k w uo sz = Done (k', r) →
  r = Err tt ∧ ∃ w', k' = set_world w' k ∧ sound w' ∧ apart w0 w' None.
Proof.
  intros (S & A & Hu) H. unfold exec_fail in H. destruct uo as [u|]; [|simplify_eq; split; [done|by exists w]].
  apply bind_Done_inv in H as (w1 & H1 & H). simplify_eq. destruct (Hu u eq_refl) as [Hn Hy].
  destruct (sp_free _ _ _ _ S Hy H1) as (S1 & A1 & F1). split; [done|]. exists w1. split_and!; [done|done|]. intros v _.
  pose proof (apart_trans _ _ _ _ A A1 v) as Hv. destruct (decide (v = u)) as [->|Hne]; [tauto|].
  apply Hv. congruence.
Qed.

(** The new address space and the old one, which has been freed. *)
Definition replaced (w w' : W) (old u : U) : Prop :=
  ¬ u_ok w u ∧ u_ok w' u ∧ ¬ u_ok w' old ∧
  ∀ v, v ≠ u → v ≠ old → (u_ok w' v ↔ u_ok w v) ∧ (u_ok w v → ∀ c, u_view w' v c = u_view w v c).

Lemma free_old w w2 w3 old u sz :
  made w w2 (Some u) → u_ok w old → x_free w2 old sz = Done w3 →
  sound w3 ∧ replaced w w3 old u ∧ ∀ c, u_view w3 u c = u_view w2 u c.
Proof.
  intros (S2 & A2 & Hu2) Hold H. destruct (Hu2 u eq_refl) as [Hn Hy]. assert (Hne : old ≠ u) by (by intros ->).
  assert (Hok2 : u_ok w2 old) by (by apply (A2 old); [congruence|]).
  destruct (sp_free _ _ _ _ S2 Hok2 H) as (S3 & A3 & F3). destruct (A3 u) as [Hu3 Hv3]; [congruence|].
  split_and!; [done| |by apply Hv3]. split_and!; [done|by apply Hu3|done|]. intros v Hv1 Hv2.
  destruct (A2 v) as [B1 B2]; [congruence|]. destruct (A3 v) as [B3 B4]; [congruence|].
  split; [by rewrite B3|]. intros Hok c. rewrite B4, B2; [done|done|by apply B1].
Qed.

Lemma exec_spaces k path argv k' r d old
  (Hd : my_data k = Done d) (Hold : Proc.uvm d = Some old) (Hok : u_ok (world k) old) (Hs : sound (world k))
  (Hrun : exec k path argv = Done (k', r)) :
  sound (world k') ∧
  match r with
  | Err _ => only_world k k' ∧ apart (world k) (world k') None
  | Ok sp => ∃ u tf elf sz ip k1, Proc.trapframe d = Some tf ∧ header_of ip elf ∧
      set_my_data k (new_image d path u tf (e_entry elf) sz sp) = Done k1 ∧ k' = set_world (world k') k1 ∧
      replaced (world k) (world k') old u ∧
      args_at (u_view (world k') u) sp = Some (argv ++ [[]]) ∧ sp `mod` 16 = 0 ∧ sz - PGSIZE ≤ sp < sz
  end.
Proof.
  unfold exec in Hrun. rewrite Hd in Hrun. cbn [mbind outcome_bind] in Hrun.
  apply bind_Done_inv in Hrun as (tf & Htf & H). apply bind_Done_inv in H as ([[[w1 uo] sz] r1] & Hl & H).
  apply exec_load_made in Hl as [M1 Hr1]; [|done].
  assert (Hfail : ∀ w uo sz, made (world k) w uo → exec_fail k w uo sz = Done (k', r) →
    sound (world k') ∧ r = Err tt ∧ only_world k k' ∧ apart (world k) (world k') None).
  { intros w vo z M Hf. destruct (exec_fail_spaces _ _ _ _ _ _ _ M Hf) as (-> & w' & -> & S & A).
    split_and!; try done. by exists w'. }
  destruct r1 as [elf|]; [|by destruct (Hfail _ _ _ M1 H) as (? & -> & ?)].
  destruct uo as [u|]; [|by destruct (Hfail _ _ _ M1 H) as (? & -> & ?)].
  destruct (Hr1 elf eq_refl) as [[ip Hip] _]. destruct (proj2 (proj2 M1) u eq_refl) as [Hn1 Hy1].
  apply bind_Done_inv in H as ([[w2 sz1] r2] & Hst & H). apply exec_stack_moved in Hst as [M2 Hargs]; [|apply M1|done].
  assert (M : made (world k) w2 (Some u)) by (by eapply made_moved).
  destruct r2 as [sp|]; [|by destruct (Hfail _ _ _ M H) as (? & -> & ?)].
  destruct (Hargs sp eq_refl) as (Ha & Hal & Hsp). rewrite Hold in H. cbn [unwrap mbind outcome_bind] in H.
  apply bind_Done_inv in H as (k1 & Hk1 & H). apply bind_Done_inv in H as (w3 & H3 & H). simplify_eq.
  unfold set_my_data in Hk1. apply bind_Done_inv in Hk1 as (p & Hp & Hk1). simplify_eq.
  destruct (free_old _ _ _ _ _ _ M Hok H3) as (S3 & R3 & V3). split; [exact S3|].
  exists u, tf, elf, sz1, ip, (set_procs (Proc.upd (kprocs k) (kcur k) (Proc.set_data p (new_image d path u tf (e_entry elf) sz1 sp))) k).
  split_and!; try done.
  - unfold unwrap in Htf. by destruct (Proc.trapframe d); simplify_eq.
  - unfold set_my_data. change (my_proc (set_world w2 k)) with (my_proc k) in Hp. rewrite Hp.
    cbn [mbind outcome_bind]. reflexivity.
  - rewrite <-Ha. apply args_at_ext. exact V3.
  - lia.
  - lia.
Qed.

End atomic.

(** ** ELF headers *)

(** The fields of a packed structure, as pairs of width and value. *)
Definition packed (l : list (nat * Z)) : list Z := l ≫= λ p, le_bytes p.1 p.2.
Definition in_width (p : nat * Z) : Prop := 0 ≤ p.2 < 256 ^ Z.of_nat p.1.

Definition elf_fields (h : ElfHdr) : list (nat * Z) :=
  [(2, e_type h); (2, e_cpu h); (4, e_version h); (8, e_entry h); (8, e_phoff h); (8, e_shoff h); (4, e_flags h);
   (2, e_ehsize h); (2, e_phsize h); (2, e_phnum h); (2, e_shsize h); (2, e_shnum h); (2, e_shname h)]%nat.
Definition prog_fields (p : ProgHdr) : list (nat * Z) :=
  [(4, p_type p); (4, p_flags p); (8, p_offset p); (8, p_vaddr p); (8, p_paddr p); (8, p_fsize p);
   (8, p_msize p); (8, p_align p)]%nat.

Lemma field_packed pre l n z off :
  off = length pre → in_width (n, z) → field (pre ++ packed ((n, z) :: l)) off n = z.
Proof.
  intros -> Hz. unfold field, packed. cbn [mbind list_bind fst snd].
  rewrite drop_app_length, take_app_length'; [by apply le_val_bytes|by rewrite length_le_bytes].
Qed.

Lemma packed_cons pre p l : pre ++ packed (p :: l) = (pre ++ le_bytes p.1 p.2) ++ packed l.
Proof. unfold packed. cbn [mbind list_bind]. by rewrite app_assoc. Qed.

(** Reads off the fields one after the other. *)
Ltac read_fields :=
  lazymatch goal with
  | |- field (?pre ++ packed (_ :: _)) ?off ?n = _ =>
      first [ apply field_packed; [rewrite ?length_app, ?length_le_bytes; simpl; lia | assumption]
            | rewrite packed_cons; read_fields ]
  end.

(** The offsets at which [exec] reads ELF headers are those of the packed
    layout: a header written field after field, each little-endian at its own
    width, is read back unchanged, and its size is the 64 and 56 bytes that
    [exec] asks of the file. *)
Theorem elf_roundtrip h p :
  length (e_ident h) = 16%nat → Forall in_width (elf_fields h) → Forall in_width (prog_fields p) →
  decode_elf (e_ident h ++ packed (elf_fields h)) = h ∧
  decode_prog (packed (prog_fields p)) = p ∧
  Z.of_nat (length (e_ident h ++ packed (elf_fields h))) = SIZEOF_ELFHDR ∧
  Z.of_nat (length (packed (prog_fields p))) = SIZEOF_PROGHDR.
Proof.
  intros Hid He Hp. unfold elf_fields in He. unfold prog_fields in Hp.
  repeat match goal with H : Forall _ (_ :: _) |- _ => apply Forall_cons in H as [? H] end.
  split_and!.
  - unfold decode_elf. destruct h as [h0 h1 h2 h3 h4 h5 h6 h7 h8 h9 h10 h11 h12 h13]. cbn [e_ident] in Hid. unfold elf_fields. cbn [e_type e_cpu e_version e_entry e_phoff
      e_shoff e_flags e_ehsize e_phsize e_phnum e_shsize e_shnum e_shname].
    f_equal; [by rewrite take_app_length'|read_fields..].
  - unfold decode_prog. destruct p as [q0 q1 q2 q3 q4 q5 q6 q7]. unfold prog_fields. cbn [p_type p_flags p_offset p_vaddr p_paddr
      p_fsize p_msize p_align]. rewrite <-(app_nil_l (packed _)). f_equal; read_fields.
  - by rewrite length_app, Hid.
  - done.
Qed.

(** ** Headers that are skipped *)
Section skipped.
Context {W U : Type} `{!UserAccess W U, !ExecWorld W U}.

(** A program header that is not of type PT_LOAD, or is empty, hides all the
    headers behind it: the loop does not advance past it, so every remaining
    round reads the same header again, and loading ends successfully with the
    size reached before it. *)
Theorem exec_skipped_header n (w : W) (u : U) ip off sz x :
  (∀ w, ∃ w', x_read w ip (as_u32 off) SIZEOF_PROGHDR = Done (w', Ok x)) →
  Z.of_nat (length x) = SIZEOF_PROGHDR → p_type (decode_prog x) ≠ PT_LOAD ∨ p_fsize (decode_prog x) = 0 →
  ∃ w', load_loop n w u ip off sz = Done (w', sz, Ok tt).
Proof.
  intros Hr Hl Hskip. revert w. induction n as [|n IH]; intros w; [by exists w|]. cbn [load_loop].
  destruct (Hr w) as (w1 & ->). cbn [mbind outcome_bind]. rewrite decide_False by lia.
  rewrite decide_True by done. apply IH.
Qed.
End skipped.

(** ** Page tables provide user memory *)
Module VmWorld.
#[global] Instance vm_access : UserAccess vmem Z := {
  u_copyin m root a n := either_copyin m root (User a) n;
  u_copyout m root a x := either_copyout m root (User a) x;
}.

#[global] Program Instance vm_laws : UserLaws vmem Z := {
  u_ok m root := pt_ok m root ∧ user_sep m root;
  u_view m root := user_byte m root;
}.
Next Obligation.
  intros m root a x m' [Hok Hsep] Ha H. change (copyout (S (length x)) m root a x = Done (m', Ok tt)) in H.
  destruct (copyout_view (S (length x)) m root a x Hok Hsep Ha ltac:(lia))
    as (m1 & r & n & Hrun & _ & Hok' & Hsep' & _ & _ & Hv & Hr).
  rewrite H in Hrun. simplify_eq. split; [done|]. intros c. by rewrite Hv, take_ge.
Qed.

(** A file of a block and 6 bytes. *)
Definition prog : list Z := replicate 1024 0 ++ [10; 11; 12; 13; 14; 15].
Definition prog_byte (ip : nat) (i : Z) : Z := prog !!! Z.to_nat i.
Definition read_prog (o n : Z) : list Z := take (Z.to_nat n) (drop (Z.to_nat o) prog).

#[global] Instance vm_exec : ExecWorld vmem Z := {
  x_read m ip o n := Done (m, Ok (read_prog o n));
  x_read_at m ip pa o n :=
    let x := read_prog o n in
    Done (mkMem (tables m) (write_bytes (bytes m) pa x) (avail m), Ok (Z.of_nat (length x)));
  x_walkaddr := walkaddr;
  x_create m tf := Done (m, None);
  x_alloc := Vm.alloc;
  x_clear := Vm.clear;
  x_free := Vm.proc_uvmfree;
}.

Lemma read_prog_range ip o n :
  0 ≤ o → 0 ≤ n → Z.of_nat (length (read_prog o n)) = n → read_prog o n = file_range (prog_byte ip) o n.
Proof.
  intros Ho Hn Hl. apply list_eq_same_length with (n := Z.to_nat n); [by rewrite length_file_range|lia|].
  intros i y z Hi Hy Hz. rewrite <-(Nat2Z.id i), file_range_lookup in Hz by lia. simplify_eq.
  unfold read_prog in Hy. rewrite lookup_take_lt, lookup_drop in Hy by lia. unfold prog_byte.
  replace (Z.to_nat (o + Z.of_nat i)) with (Z.to_nat o + i)%nat by lia. symmetry. by apply list_lookup_total_correct.
Qed.

#[global] Program Instance vm_load : LoadLaws vmem Z prog_byte.
Next Obligation.
  intros m root a [Hok Hsep] Ha Hal [b Hb]. cbn in *. unfold user_byte, uaddr in Hb. rewrite decide_True in Hb by done.
  assert (Hpage : a / 4096 * 4096 = a) by (unfold PGSIZE in Hal; zdm). rewrite Hpage in Hb.
  destruct (walkaddr m root a) as [[pa|]|e|f] eqn:Hw; try done. exists pa. split; [done|].
  intros ip o n Ho _ Hn. do 2 eexists. split; [done|]. intros Hr. injection Hr as Hlen.
  assert (Hx : read_prog o n = file_range (prog_byte ip) o n) by (apply read_prog_range; lia). rewrite Hx.
  pose proof (put_run (uaddr m root) (file_range (prog_byte ip) o n) [] (bytes m) a pa) as Hput.
  rewrite app_nil_r in Hput. cbn [put] in Hput. rewrite length_file_range in Hput.
  assert (Hua : ∀ i, 0 ≤ i < Z.of_nat (Z.to_nat n) → uaddr m root (a + i) = Some (pa + i)).
  { assert (Hm : a `mod` 4096 = 0) by done. unfold PGSIZE in *. intros i Hi.
    rewrite (uaddr_page m root a pa i) by (rewrite ?Hpage, ?Hm; done || lia). f_equal. lia. }
  destruct (put_user_view _ _ _ _ _ _ Hsep (Hput Hua)) as (Hsep' & k & _ & Hv & Hk).
  split; [split; [by apply (pt_ok_tables m)|done]|]. intros c. by rewrite Hv, take_ge by lia.
Qed.
End VmWorld.

(** ** Witnesses *)
Lemma exec_args_roundtrip_witness :
  ∃ m' sp', push_stack demo_mapped 8192 0 4096 [[97; 98]; [99]] = Done (m', Ok sp') ∧
    args_at (user_byte m' 8192) sp' = Some [[97; 98]; [99]; []] ∧ sp' = 4000.
Proof.
  destruct (push_stack demo_mapped 8192 0 4096 [[97; 98]; [99]]) as [[m' [sp'|]]| |] eqn:E;
    [|vm_compute in E; discriminate E..].
  exists m', sp'. split; [done|]. split.
  - refine (proj1 (exec_args_roundtrip demo_mapped 8192 0 4096 [[97; 98]; [99]] m' sp' _ _ _ E)); [|lia|lia].
    split; [apply demo_mapped_ok|apply demo_user_sep].
  - vm_compute in E. by injection E.
Defined.

Lemma loadseg_image_witness :
  ∃ m', loadseg demo_mapped 8192 0 5 1024 4 = Done (m', Ok tt) ∧ get (user_byte m' 8192) 0 4 = Ok [10; 11; 12; 13].
Proof.
  destruct (loadseg_image VmWorld.prog_byte demo_mapped 8192 0 5 1024 4) as (m' & r & Hrun & Hpost).
  - split; [apply demo_mapped_ok|apply demo_user_sep].
  - lia.
  - reflexivity.
  - lia.
  - reflexivity.
  - lia.
  - reflexivity.
  - lia.
  - intros c Hc. assert (c = 0 ∨ c = 1 ∨ c = 2 ∨ c = 3) as [->|[->|[->| ->]]] by lia; vm_compute; eauto.
  - exists m'. assert (r = Ok tt) as -> by (vm_compute in Hrun; by injection Hrun).
    split; [exact Hrun|]. exact (proj1 (Hpost eq_refl)).
Defined.

Lemma elf_roundtrip_witness :
  let h := mkElf (127 :: 69 :: 76 :: 70 :: replicate 12 0) 2 243 1 4096 64 0 5 64 56 1 0 0 0 in
  let p := mkProg 1 5 4096 0 0 100 200 4096 in
  decode_elf (e_ident h ++ packed (elf_fields h)) = h ∧ decode_prog (packed (prog_fields p)) = p ∧
  magic_ok h = true.
Proof.
  intros h p. destruct (elf_roundtrip h p) as (H1 & H2 & _).
  - reflexivity.
  - repeat constructor; vm_compute; congruence.
  - repeat constructor; vm_compute; congruence.
  - split; [exact H1|]. split; [exact H2|reflexivity].
Defined.

(** A world in which every file is the same ELF file with one segment of 4
    bytes, and an address space is a map from addresses to bytes. *)
Module Tiny.
Abbreviation spaces := (gmap nat (gmap Z Z)).

Definition elf_file : list Z :=
  [127; 69; 76; 70] ++ replicate 12 0 ++
  packed (elf_fields (mkElf [] 2 243 1 16 64 0 5 64 56 1 0 0 0)) ++
  packed (prog_fields (mkProg 1 5 120 0 0 4 8 4096)) ++ [1; 2; 3; 4].

Fixpoint put_bytes (m : gmap Z Z) (a : Z) (x : list Z) : gmap Z Z :=
  match x with [] => m | y :: x => <[a := y]> (put_bytes m (a + 1) x) end.

Definition new_space (w : spaces) : nat := map_fold (λ u _ n, Nat.max (S u) n) 0%nat w.

#[global] Instance files : FileWorld spaces := {
  w_begin_op w := Done w;
  w_end_op w := Done w;
  w_namei w p := Done (w, Some 7%nat);
  w_create w p t mj mn := Done (w, Some 7%nat);
  w_lock w ip := Done (w, mkI 1 7 true TFile MNull 0 1 100 []);
  w_trunc w ip := Done w;
  w_put w ip := Done w;
  w_read w ip dst off n := Done (w, Ok n);
  w_write w ip src off n := Done (w, Ok n);
  w_dev_read w d dst n := Done (w, Ok n);
  w_dev_write w d src n := Done (w, Ok n);
  w_channel w := (w, 0%nat);
  w_recv w ch dst n := Done (w, Ok n);
  w_send w ch src n := Done (w, Ok n);
  w_copyout w dst x := Done (w, Ok tt);
}.
#[global] Instance paths : PathWorld spaces := {
  w_link w p q := Done (w, Ok tt);
  w_unlink w p := Done (w, Ok tt);
  w_dup w ip := Done w;
}.
#[global] Instance access : UserAccess spaces nat := {
  u_copyin w u a n := Done (Err tt);
  u_copyout w u a x :=
    match w !! u with Some m => Done (<[u := put_bytes m a x]> w, Ok tt) | None => Done (w, Err tt) end;
}.
#[global] Instance memory : UserMemory nat Trapframe := {
  new_trapframe := None;
  set_a0 := tf_set_a0;
  Proc.proc_uvmcreate tf := None;
  uvm_copy u u' n := Err tt;
  uvm_alloc u a b := (u, None);
  uvm_dealloc u a b := (u, b);
  uvm_copyout u a x := Err tt;
}.
#[global] Instance image : ExecWorld spaces nat := {
  x_read w ip o n := Done (w, Ok (take (Z.to_nat n) (drop (Z.to_nat o) elf_file)));
  x_read_at w ip pa o n := Done (w, Ok n);
  x_walkaddr w u a := Done (Some 0);
  x_create w tf := Done (<[new_space w := ∅]> w, Some (new_space w));
  x_alloc w u a b perm := Done (w, Some (Z.max a b));
  x_clear w u a := Done w;
  x_free w u sz := Done (delete u w);
}.

Lemma put_bytes_lookup x : ∀ m a c, put_bytes m a x !! c = written a x c (m !! c).
Proof.
  unfold written. induction x as [|y x IH]; intros m a c; cbn [put_bytes length]; [by rewrite decide_False by lia|].
  destruct (decide (c = a)) as [->|Hne].
  - rewrite lookup_insert_eq, decide_True by lia. by rewrite Z.sub_diag.
  - rewrite lookup_insert_ne by done. rewrite IH. destruct (decide (a + 1 ≤ c < a + 1 + Z.of_nat (length x))).
    + rewrite decide_True by lia. replace (Z.to_nat (c - a)) with (S (Z.to_nat (c - (a + 1)))) by lia. done.
    + by rewrite decide_False by lia.
Qed.

#[global] Program Instance laws : UserLaws spaces nat := {
  u_ok w u := is_Some (w !! u);
  u_view w u c := m ← w !! u; m !! c;
}.
Next Obligation.
  intros w u a x w' [m Hm] _ H. cbn in *. rewrite Hm in H. simplify_eq. rewrite lookup_insert_eq. split; [done|].
  intros c. rewrite Hm. cbn. apply put_bytes_lookup.
Qed.

Lemma new_space_fresh w : w !! new_space w = None.
Proof.
  assert (H : ∀ u m, w !! u = Some m → (u < new_space w)%nat).
  { unfold new_space. apply (map_fold_weak_ind (λ n w, ∀ u m, w !! u = Some m → (u < n)%nat)); [done|].
    intros i m w' n Hi IH u m' Hu. apply lookup_insert_Some in Hu as [[-> _]|[_ Hu]]; [lia|]. apply IH in Hu. lia. }
  destruct (w !! new_space w) eqn:E; [|done]. apply H in E. lia.
Qed.

#[global] Program Instance spaces_laws : SpaceLaws spaces nat := { sound _ := True }.
Solve Obligations with (intros; cbn in *; simplify_eq; (split_and!; (done || apply apart_refl || congruence || auto))).
Next Obligation.
  intros w tf w' o _ H. cbn in H. simplify_eq. split_and!; [done| |].
  - intros v Hv. cbn. rewrite lookup_insert_ne by congruence. done.
  - intros u [= <-]. cbn. rewrite lookup_insert_eq, new_space_fresh. split; [by intros [? ?]|done].
Qed.
Next Obligation.
  intros w u a x w' r _ [m Hm] H. cbn in *. rewrite Hm in H. simplify_eq. split_and!; [done| |by rewrite lookup_insert_eq].
  intros v Hv. cbn. rewrite lookup_insert_ne by congruence. done.
Qed.
Next Obligation.
  intros w u sz w' _ _ H. cbn in *. simplify_eq. split_and!; [done| |rewrite lookup_delete_eq; by intros [? ?]].
  intros v Hv. cbn. rewrite lookup_delete_ne by congruence. done.
Qed.

(** One process, whose address space is 0, and the address space of another. *)
Definition tf0 : Trapframe := mkTf 0 2 0 0 0 0 0 15 0 0.
Definition pdata : Proc.ProcData nat Trapframe File nat :=
  Proc.mkData 0 34 (Some 0%nat) (Some tf0) 0 0 "p" (replicate Proc.NOFILE None) (Some 3%nat).
Definition k0 : kst spaces nat :=
  mkK (Proc.mkProcs [Proc.proc_new 0; Proc.mkProc (Proc.mkInner RUNNING 0 false 0 5) (Some 1%nat) pdata] 6 9) 1
    (boot {[ 0%nat := {[ 0 := 1 ]}; 1%nat := {[ 0 := 2 ]} ]} devsw_new) 0.
Definition exec0 : outcome (kst spaces nat * result Z unit) := exec k0 [47; 97] [[97]].
End Tiny.


(** A world without programs. *)
#[local] Instance no_image : ExecWorld Z (list Z) := {
  x_read w ip o n := Done (w, Err tt);
  x_read_at w ip pa o n := Done (w, Err tt);
  x_walkaddr w u a := Done None;
  x_create w tf := Done (w, None);
  x_alloc w u a b perm := Done (w, None);
  x_clear w u a := Done w;
  x_free w u sz := Done w;
}.

Lemma system_file_counts_witness :
  let k' := Small.k1 in
  kinv (Small.k0 Small.tf_open) ∧ 2 = 1 + refs 0 (files_of (Proc.pool (kprocs k'))).
Proof.
  split; [apply Small.kinv0|].
  refine (proj1 (proj1 (system_file_counts (λ i, Z.of_nat i) 0 0 100000
    (Small.k0 Small.tf_open) Small.k1 (Small.kinv0 _) _) 0%nat (VInode 0 7) 2 _)).
  - apply rtc_once. eapply ks_call with (r := Ret (Ok 0)); [|vm_compute; reflexivity].
    eexists. split; [reflexivity|]. intros [H|H]; discriminate H.
  - vm_compute. reflexivity.
Defined.

Lemma exec_skipped_header_witness :
  let x := packed (prog_fields (mkProg 6 4 64 64 64 56 56 8)) in
  let rd := Build_ExecWorld Z (list Z) (λ w _ _ _, Done (w, Ok x)) (λ w _ _ _ n, Done (w, Ok n)) (λ _ _ _, Done None)
              (λ w _, Done (w, None)) (λ w _ _ _ _, Done (w, None)) (λ w _ _, Done w) (λ w _ _, Done w) in
  ∃ w', @load_loop Z (list Z) rd 3 0 [] 7 64 0 = Done (w', 0, Ok tt).
Proof.
  intros x rd. refine (@exec_skipped_header Z (list Z) rd 3 0 [] 7 64 0 x _ _ _).
  - intros w. exists w. reflexivity.
  - reflexivity.
  - left. vm_compute. congruence.
Defined.
