(* ===== verification/ExecFs.v ===== *)
(** * Loading a program from the file system

    [ExecSpec] states [loadseg_image] against the law [LoadLaws]: what a read
    of an inode to a physical page does.  Here [read] of [Fs] and the page tables
    of [Vm] together keep that law: the world is a file system, the inodes that
    the kernel has locked, and memory, and a read puts the pieces that [read]
    copies out into memory. *)

From S2P Require Import Prelude Fs FsSpec Vm VmSpec VmCopy File Proc Syscall Exec ExecSpec.

Open Scope Z_scope.

(** [either_copyout] to a physical address, for every piece. *)
Definition store_pieces (b : gmap Z Z) (out : list (Z * list Z)) : gmap Z Z :=
  foldl (λ b p, write_bytes b p.1 p.2) b out.

Lemma store_contig out : ∀ b a e p,
  contig a e out → store_pieces b out !! p = if decide (a ≤ p < e) then out_byte out p else b !! p.
Proof.
  induction out as [|[d c] r IH]; intros b a e p; cbn [contig out_byte].
  - intros ->. by rewrite decide_False by lia.
  - intros [-> Hc]. change (store_pieces b ((a, c) :: r)) with (store_pieces (write_bytes b a c) r).
    assert (He : a + Z.of_nat (length c) ≤ e).
    { clear IH. revert Hc. generalize (a + Z.of_nat (length c)). induction r as [|[d' c'] r IHr]; intros x; cbn [contig]; [lia|].
      intros [_ Hx%IHr]. lia. }
    rewrite (IH _ _ _ p Hc), write_bytes_lookup. repeat case_decide; try done; lia.
Qed.

Record fsmem := mkW { w_fs : fs; w_inode : nat → IData; w_mem : vmem }.

Section world.
(** The file system and the inodes when loading starts. *)
Variables (sb : SuperBlock) (s0 : fs) (inode0 : nat → IData).

Definition set_mem (w : fsmem) (m : vmem) : fsmem := mkW (w_fs w) (w_inode w) m.

#[export] Instance fs_access : UserAccess fsmem Z := {
  u_copyin w root a n := either_copyin (w_mem w) root (User a) n;
  u_copyout w root a x := '(m, r) ← either_copyout (w_mem w) root (User a) x; Done (set_mem w m, r);
}.

(** Every page of a process lies in the machine's memory, and the files have
    all their blocks. *)
Definition pages_low (m : vmem) (root : Z) : Prop :=
  ∀ a p, uaddr m root a = Some p → p + PGSIZE < usize_mod.
Definition files_ok : Prop :=
  full_blocks s0 ∧ ∀ ip, isize (inode0 ip) < u32_mod ∧
    ∀ p, 0 ≤ p < isize (inode0 ip) → block_of s0 (inode0 ip) (p / 1024) ≠ None.

Definition fs_ok (w : fsmem) (root : Z) : Prop :=
  pt_ok (w_mem w) root ∧ user_sep (w_mem w) root ∧ pages_low (w_mem w) root ∧
  w_fs w = s0 ∧ (∀ ip, w_inode w ip = inode0 ip) ∧ files_ok.

#[export] Program Instance fs_laws : UserLaws fsmem Z := {
  u_ok := fs_ok;
  u_view w root := user_byte (w_mem w) root;
}.
Next Obligation.
  intros w root a x w' (Hok & Hsep & Hlow & Hrest) Ha H. cbn in H. apply bind_Done_inv in H as ([m r] & H & Heq). simplify_eq.
  change (copyout (S (length x)) (w_mem w) root a x = Done (m, Ok tt)) in H.
  destruct (copyout_view (S (length x)) (w_mem w) root a x Hok Hsep Ha ltac:(lia))
    as (m1 & r & n & Hrun & _ & Hok' & Hsep' & Htab & _ & Hv & Hr).
  rewrite H in Hrun. simplify_eq. split; [|intros c; by rewrite Hv, take_ge].
  split_and!; try done; [|apply Hrest..]. intros c pa Hw. apply (Hlow c). by rewrite (uaddr_tables _ m1).
Qed.

#[export] Instance fs_exec : ExecWorld fsmem Z := {
  x_read w ip o n :=
    '(s, i, out, r) ← Fs.read sb (λ _ _, true) (w_fs w) (w_inode w ip) 0 o n;
    Done (mkW s (λ j, if decide (j = ip) then i else w_inode w j) (w_mem w),
      match r with Ok _ => Ok (concat out.*2) | Err _ => Err tt end);
  x_read_at w ip pa o n :=
    '(s, i, out, r) ← Fs.read sb (λ _ _, true) (w_fs w) (w_inode w ip) pa o n;
    Done (mkW s (λ j, if decide (j = ip) then i else w_inode w j)
            (mkMem (tables (w_mem w)) (store_pieces (bytes (w_mem w)) out) (avail (w_mem w))),
      match r with Ok k => Ok k | Err _ => Err tt end);
  x_walkaddr w := walkaddr (w_mem w);
  x_create w tf := Done (w, None);
  x_alloc w u a b perm := '(m, r) ← Vm.alloc (w_mem w) u a b perm; Done (set_mem w m, r);
  x_clear w u a := m ← Vm.clear (w_mem w) u a; Done (set_mem w m);
  x_free w u sz := m ← Vm.proc_uvmfree (w_mem w) u sz; Done (set_mem w m);
}.

Definition fs_file (ip : nat) (p : Z) : Z := default 0 (file_byte s0 (inode0 ip) p).

(** A page written with the bytes of the file. *)
Lemma store_range b out pa ip o n :
  0 ≤ n → contig pa (pa + n) out → (∀ j, 0 ≤ j < n → out_byte out (pa + j) = file_byte s0 (inode0 ip) (o + j)) →
  (∀ j, 0 ≤ j < n → is_Some (file_byte s0 (inode0 ip) (o + j))) →
  store_pieces b out = write_bytes b pa (file_range (fs_file ip) o n).
Proof.
  intros Hn Hc Hb Hs. apply map_eq. intros p. rewrite (store_contig _ _ _ _ p Hc), write_bytes_lookup, length_file_range.
  rewrite Z2Nat.id by done. case_decide as Hp; [|done]. rewrite file_range_lookup by lia. unfold fs_file.
  specialize (Hb (p - pa) ltac:(lia)). specialize (Hs (p - pa) ltac:(lia)). replace (pa + (p - pa)) with p in Hb by lia.
  rewrite Hb. by destruct Hs as [y ->].
Qed.

Lemma file_byte_some s i p :
  full_blocks s → 0 ≤ p → block_of s i (p / 1024) ≠ None → is_Some (file_byte s i p).
Proof.
  intros Hs Hp Hb. unfold file_byte. destruct (block_of s i (p / 1024)) as [a|]; [|done].
  apply lookup_lt_is_Some. rewrite Hs. zdm.
Qed.

(** The law of [loadseg], from [read] and the page tables. *)
#[export] Program Instance fs_load : LoadLaws fsmem Z fs_file.
Next Obligation.
  intros w root a (Hok & Hsep & Hlow & Hfs & Hino & Hfull & Hfiles) Ha Hal [b Hb]. cbn in *.
  unfold user_byte, uaddr in Hb. rewrite decide_True in Hb by done.
  assert (Hpage : a / 4096 * 4096 = a) by (unfold PGSIZE in Hal; zdm). rewrite Hpage in Hb.
  destruct (walkaddr (w_mem w) root a) as [[pa|]|e|f] eqn:Hw; try done. exists pa. split; [done|].
  intros ip o n Ho Hoal Hn. assert (Hpa : pa + PGSIZE < usize_mod).
  { apply (Hlow a). unfold uaddr. rewrite decide_True, Hpage, Hw by done. f_equal. unfold PGSIZE in Hal. zdm. }
  rewrite Hfs, Hino. destruct (Hfiles ip) as [Hsz Hmap].
  assert (Hsame : ∀ i j, i = inode0 ip → (if decide (j = ip) then i else w_inode w j) = inode0 j).
  { intros i j ->. case_decide; [by subst|apply Hino]. }
  destruct (decide (isize (inode0 ip) < o)) as [Hlt|Hge].
  { unfold Fs.read. rewrite decide_True by done. cbn. do 2 eexists. split; [done|]. done. }
  destruct (read_pieces sb (λ _ _, true) s0 (inode0 ip) pa o n) as (out & -> & Hcon & Hout); try done;
    [lia|lia|unfold PGSIZE in *; lia|unfold PGSIZE in *; lia|intros p Hp; apply Hmap; lia|].
  cbn [mbind outcome_bind]. do 2 eexists. split; [done|]. intros [= Hk]. rewrite Hk in Hcon, Hout.
  assert (Hx : store_pieces (bytes (w_mem w)) out = write_bytes (bytes (w_mem w)) pa (file_range (fs_file ip) o n)).
  { eapply store_range; [lia|done|done|]. intros j Hj. apply file_byte_some; [done|lia|]. apply Hmap. lia. }
  rewrite Hx. pose proof (put_run (uaddr (w_mem w) root) (file_range (fs_file ip) o n) [] (bytes (w_mem w)) a pa) as Hput.
  rewrite app_nil_r in Hput. cbn [put] in Hput. rewrite length_file_range in Hput.
  assert (Hua : ∀ i, 0 ≤ i < Z.of_nat (Z.to_nat n) → uaddr (w_mem w) root (a + i) = Some (pa + i)).
  { assert (Hm : a `mod` 4096 = 0) by done. unfold PGSIZE in *. intros i Hi.
    rewrite (uaddr_page (w_mem w) root a pa i) by (rewrite ?Hpage, ?Hm; done || lia). f_equal. lia. }
  destruct (put_user_view _ _ _ _ _ _ Hsep (Hput Hua)) as (Hsep' & k & _ & Hv & Hkk).
  split; [|intros c; by rewrite Hv, take_ge by lia]. split_and!; try done.
  - by apply (pt_ok_tables (w_mem w)).
  - intros c pc Hc. apply (Hlow c). by rewrite (uaddr_tables _ (mkMem (tables (w_mem w)) (write_bytes (bytes (w_mem w)) pa
      (file_range (fs_file ip) o n)) (avail (w_mem w)))).
  - intros j. by apply Hsame.
Qed.

(** Loading from the disk: [loadseg] of [exec.rs] on the page tables of [vm.rs]
    with [read] of [fs.rs], a segment at a block boundary of the file.  It
    returns, and on success user memory holds the bytes of the file. *)
Theorem loadseg_file w root va ip offset sz
  (Hok : fs_ok w root) (Hva : 0 ≤ va) (Hal : va `mod` PGSIZE = 0) (Hsz : 0 ≤ sz)
  (Hmax : va + sz + PGSIZE < usize_mod) (Hoff : 0 ≤ offset) (Hoal : offset `mod` 1024 = 0) (Hofm : offset + sz ≤ u32_mod)
  (Hmap : ∀ c, va ≤ c < va + sz → is_Some (user_byte (w_mem w) root c)) :
  ∃ w' r, loadseg w root va ip offset sz = Done (w', r) ∧
    (r = Ok tt → get (user_byte (w_mem w') root) va (Z.to_nat sz) = Ok (file_range (fs_file ip) offset sz)).
Proof.
  destruct (loadseg_exact fs_file w root va ip offset sz) as (w' & r & Hrun & Hr); [done..|].
  exists w', r. split; [done|]. intros Hok'. by apply Hr.
Qed.
End world.

(** A file of two blocks, its second block with the bytes 5. *)
Definition disk_fs : fs := mkFs (λ b, replicate 1024 (if decide (b = 101) then 5 else 0)) demo_log (replicate NINODE None).
Definition disk_world : fsmem := mkW disk_fs (λ _, demo_inode) demo_mapped.

Lemma disk_world_ok : fs_ok disk_fs (λ _, demo_inode) disk_world 8192.
Proof.
  split_and!; [apply demo_mapped_ok|apply demo_user_sep| |done|done|].
  - intros a p [Ha ->]%demo_user_page. unfold PGSIZE. lia.
  - split; [intros b; apply length_replicate|]. intros _. split; [done|]. change (isize demo_inode) with 2048.
    intros p Hp. assert (p / 1024 = 0 ∨ p / 1024 = 1) as [-> | ->] by zdm; vm_compute; congruence.
Qed.

Lemma loadseg_file_witness :
  ∃ w', @loadseg fsmem Z (fs_exec demo_sb) disk_world 8192 0 5 1024 4 = Done (w', Ok tt) ∧
    get (user_byte (w_mem w') 8192) 0 4 = Ok [5; 5; 5; 5].
Proof.
  destruct (loadseg_file demo_sb disk_fs (λ _, demo_inode) disk_world 8192 0 5 1024 4) as (w' & r & Hrun & Hr).
  - exact disk_world_ok.
  - lia.
  - reflexivity.
  - lia.
  - reflexivity.
  - lia.
  - reflexivity.
  - lia.
  - intros c Hc. assert (c = 0 ∨ c = 1 ∨ c = 2 ∨ c = 3) as [->|[->|[->| ->]]] by lia; vm_compute; eauto.
  - assert (Hok : match @loadseg fsmem Z (fs_exec demo_sb) disk_world 8192 0 5 1024 4 with Done (_, r) => Some r | _ => None end = Some (Ok tt))
      by (vm_compute; reflexivity).
    rewrite Hrun in Hok. injection Hok as ->. exists w'. split; [exact Hrun|].
    etransitivity; [exact (Hr eq_refl)|]. vm_compute. reflexivity.
Defined.
