(* ===== verification/Boot.v ===== *)
(** * Boot: [main.rs], the first process of [proc.rs] and its code

    [main] is the list of its calls on each hart; the harts interleave, and a
    hart other than 0 waits for [STARTED].  [user_init] sets up the first slot
    of the process table with the page of instructions [INITCODE], whose
    machine code is decoded and run here until it traps. *)

From S2P Require Import Prelude Proc Vm.

Open Scope Z_scope.

(** ** [main] *)
Inductive call :=
  | ConsoleInit | Println (s : string) | KallocInit | Kinit | Kinithart | ProcInit | TrapInithart
  | PlicInit | PlicInithart | BioInit | VirtioInit | StoreStarted | WaitStarted | Scheduler.

#[export] Instance call_eq_dec : EqDecision call.
Proof. solve_decision. Defined.

Definition main (cpuid : nat) : list call :=
  if decide (cpuid = 0%nat) then
    [ConsoleInit; Println ""; Println "octox kernel is booting"; Println ""; KallocInit; Kinit; Kinithart;
     ProcInit; TrapInithart; PlicInit; PlicInithart; BioInit; VirtioInit; StoreStarted; Scheduler]
  else [WaitStarted; Println "hart {} starting"; Kinithart; TrapInithart; PlicInithart; Scheduler].

(** What each hart still has to call, the flag, and the calls made, the last first. *)
Record boot := mkBoot { todo : list (list call); STARTED : bool; made : list (nat * call) }.

Definition power_on (n : nat) : boot := mkBoot (main <$> seq 0 n) false [].

(** The next call of hart [k] returns.  The loop on [STARTED] ends when it is
    set; [scheduler] does not return. *)
Definition advance (k : nat) (b : boot) : option boot :=
  match todo b !! k with
  | Some (c :: rest) =>
      let b' := mkBoot (<[k := rest]> (todo b)) (STARTED b) ((k, c) :: made b) in
      match c with
      | WaitStarted => if STARTED b then Some b' else None
      | StoreStarted => Some (mkBoot (todo b') true (made b'))
      | Scheduler => None
      | _ => Some b'
      end
  | _ => None
  end.

(** ** The first process *)

Section first.
Context {U T F I : Type}.

(** [proc::init] *)
Definition proc_init (ps : Procs U T F I) : Procs U T F I :=
  mkProcs (imap (λ i p, set_data p (mkData (Vm.kstack (Z.of_nat i)) (sz (data p)) (uvm (data p)) (trapframe (data p))
                   (ctx_ra (data p)) (ctx_sp (data p)) (name (data p)) (ofile (data p)) (cwd (data p))))
             (pool ps)) (nextid ps) (initproc ps).

End first.

(** [fork_ret]: what it does, with the flag [FIRST]. *)
Inductive ret_action := DropLock | FsInit | UsertrapRet.
Definition fork_ret_acts (FIRST : bool) : bool * list ret_action :=
  (false, DropLock :: (if FIRST then [FsInit] else []) ++ [UsertrapRet]).

(** ** The machine code of the first process *)
Inductive rv :=
  | Auipc (rd imm : Z) | Addi (rd rs imm : Z) | Jal (rd off : Z) | Ecall | Illegal.

Definition field (w lo n : Z) : Z := Z.land (Z.shiftr w lo) (Z.ones n).
Definition sext (v n : Z) : Z := if Z.testbit v (n - 1) then v - 2 ^ n else v.

Definition decode (w : Z) : rv :=
  let op := field w 0 7 in
  if decide (op = 23) then Auipc (field w 7 5) (sext (Z.shiftl (field w 12 20) 12) 32)
  else if decide (op = 19 ∧ field w 12 3 = 0) then Addi (field w 7 5) (field w 15 5) (sext (field w 20 12) 12)
  else if decide (op = 111) then
    Jal (field w 7 5)
      (sext (Z.lor (Z.lor (Z.shiftl (field w 31 1) 20) (Z.shiftl (field w 12 8) 12))
                   (Z.lor (Z.shiftl (field w 20 1) 11) (Z.shiftl (field w 21 10) 1))) 21)
  else if decide (w = 115) then Ecall else Illegal.

Record user := mkUser { upc : Z; ureg : gmap Z Z }.
Definition ur (u : user) (r : Z) : Z := if decide (r = 0) then 0 else default 0 (ureg u !! r).
Definition setr (u : user) (r v npc : Z) : user := mkUser npc (<[r := wrap64 v]> (ureg u)).

(** The 32-bit word at [a] of the page. *)
Definition word32 (page : list Z) (a : Z) : Z := le_val (take 4 (drop (Z.to_nat a) page)).

(** One instruction; [None] at a trap. *)
Definition ustep (page : list Z) (u : user) : option user :=
  match decode (word32 page (upc u)) with
  | Auipc rd imm => Some (setr u rd (upc u + imm) (upc u + 4))
  | Addi rd rs imm => Some (setr u rd (ur u rs + imm) (upc u + 4))
  | Jal rd off => Some (setr u rd (upc u + 4) (upc u + off))
  | Ecall | Illegal => None
  end.

(** Run to the next trap. *)
Fixpoint to_trap (fuel : nat) (page : list Z) (u : user) : option user :=
  match fuel with
  | O => None
  | S k => match ustep page u with Some u' => to_trap k page u' | None => Some u end
  end.

(** The call at a trap: number and first two arguments. *)
Definition ucall (page : list Z) (u : user) : option (Z * Z * Z) :=
  match decode (word32 page (upc u)) with Ecall => Some (ur u 17, ur u 10, ur u 11) | _ => None end.

(** The return of a call with the result [v]. *)
Definition ureturn (u : user) (v : Z) : user := setr u 10 v (upc u + 4).

(** The calls of the program when the kernel returns the values [vs]. *)
Fixpoint calls (fuel : nat) (page : list Z) (u : user) (vs : list Z) : list (Z * Z * Z) :=
  match to_trap fuel page u with
  | None => []
  | Some u' =>
      match ucall page u' with
      | None => []
      | Some c => c :: match vs with [] => [] | v :: vs => calls fuel page (ureturn u' v) vs end
      end
  end.

Definition init_page : list Z := INITCODE ++ replicate (4096 - 52) 0.
Definition init_user : user := mkUser 0 ∅.
