(* ===== verification/BootSpec.v ===== *)
(** * Correctness of boot

    The order of the calls of [main] over all harts, that every hart comes to
    the scheduler, what the scheduler finds, the first process and the calls
    its machine code makes. *)

From S2P Require Import Prelude Proc ProcSpec Vm VmSpec VmCopy Spinlock.
From S2P Require Import Sched SchedSpec File FileSpec Syscall SyscallSpec Boot.

Open Scope Z_scope.

(** ** The order of the calls *)

(** What must have been called, and by which hart, before [c] on hart [k]. *)
Definition needs (k : nat) (c : call) : list (nat * call) :=
  match c with
  | Println _ => [(0%nat, ConsoleInit)]
  | Kinit | ProcInit | BioInit => [(0%nat, KallocInit)]
  | Kinithart => [(0%nat, Kinit)]
  | TrapInithart => [(k, Kinithart)]
  | PlicInithart => [(0%nat, PlicInit); (k, TrapInithart)]
  | VirtioInit => [(0%nat, KallocInit); (0%nat, Kinithart); (0%nat, PlicInit)]
  | StoreStarted => [(0%nat, VirtioInit); (0%nat, PlicInithart)]
  | Scheduler => [(k, Kinithart); (k, TrapInithart); (k, PlicInithart); (0%nat, ProcInit); (0%nat, BioInit);
                  (0%nat, VirtioInit)]
  | _ => []
  end.

Inductive bstep (b : boot) : boot → Prop :=
  | bstep_at k b' : advance k b = Some b' → bstep b b'.

Record binv (n : nat) (b : boot) : Prop := {
  bi_todo : ∀ k, (k < n)%nat → ∃ dn rest, todo b !! k = Some rest ∧ main k = dn ++ rest ∧
      (∀ c, c ∈ dn → (k, c) ∈ made b) ∧ (k ≠ 0%nat → dn ≠ [] → STARTED b = true) ∧
      (Scheduler ∉ dn) ∧ (StoreStarted ∈ dn → STARTED b = true);
  bi_len : length (todo b) = n;
  bi_flag : STARTED b = true → ∀ c, c ∈ main 0 → c ≠ Scheduler → (0%nat, c) ∈ made b;
  bi_order : ∀ l1 k c l2, made b = l1 ++ (k, c) :: l2 → ∀ p, p ∈ needs k c → p ∈ l2;
}.

(** The needs of a call are among the calls before it, on its hart or on hart 0. *)
Lemma main_zero_needs i c p :
  main 0 !! i = Some c → p ∈ needs 0 c → p.1 = 0%nat ∧ p.2 ∈ take i (main 0).
Proof.
  assert (H : Forall (λ i, ∀ c, main 0 !! i = Some c → Forall (λ p, p.1 = 0%nat ∧ p.2 ∈ take i (main 0)) (needs 0 c)) (seq 0 15)).
  { repeat (constructor; [intros ? [= <-]; apply (bool_decide_unpack _); by vm_compute|]). constructor. }
  intros Hi Hp. rewrite Forall_forall in H.
  assert (Hlt : (i < 15)%nat) by (by apply lookup_lt_Some in Hi).
  specialize (H i). rewrite elem_of_seq in H. specialize (H ltac:(lia) c Hi). rewrite Forall_forall in H. by apply H.
Qed.

Lemma main_other k :
  k ≠ 0%nat → main k = [WaitStarted; Println "hart {} starting"; Kinithart; TrapInithart; PlicInithart; Scheduler].
Proof. intros Hk. unfold main. by rewrite decide_False. Qed.

Lemma main_other_needs k i c p :
  k ≠ 0%nat → main k !! i = Some c → p ∈ needs k c →
  (p.1 = 0%nat ∧ p.2 ∈ main 0 ∧ p.2 ≠ Scheduler ∧ (0 < i)%nat) ∨ (p.1 = k ∧ p.2 ∈ take i (main k)).
Proof.
  intros Hk. rewrite (main_other k Hk). intros Hi Hp.
  assert (Hlt : (i < 6)%nat) by (by apply lookup_lt_Some in Hi).
  assert (i = 0 ∨ i = 1 ∨ i = 2 ∨ i = 3 ∨ i = 4 ∨ i = 5)%nat as Hcases by lia.
  destruct Hcases as [->|[->|[->|[->|[->| ->]]]]]; injection Hi as <-; cbn [needs] in Hp; cbn [take].
  all: repeat (apply elem_of_cons in Hp as [->|Hp]; [cbn [fst snd];
    first [right; split; [reflexivity|apply (bool_decide_unpack _); by vm_compute]
          |left; split_and!; [reflexivity|apply (bool_decide_unpack _); by vm_compute|discriminate|lia]]|]).
  all: by apply not_elem_of_nil in Hp.
Qed.

Lemma binv_power_on n : binv n (power_on n).
Proof.
  split; cbn; [|by rewrite length_fmap, length_seq|done|].
  - intros k Hk. exists [], (main k). split_and!; [|done|intros c Hc; by apply not_elem_of_nil in Hc|done|apply not_elem_of_nil|intros H; by apply not_elem_of_nil in H].
    rewrite list_lookup_fmap, lookup_seq_lt by done. done.
  - intros l1 k c l2 H. by destruct l1.
Qed.

(** The call that comes next has its needs. *)
Lemma next_needs n b k dn c rest p :
  binv n b → (k < n)%nat → (0 < n)%nat → todo b !! k = Some (c :: rest) → main k = dn ++ c :: rest →
  (∀ c, c ∈ dn → (k, c) ∈ made b) → (k ≠ 0%nat → dn ≠ [] → STARTED b = true) →
  p ∈ needs k c → p ∈ made b.
Proof.
  intros Hb Hk Hn Ht Hm Hdn Hst Hp.
  assert (Hi : main k !! length dn = Some c) by (rewrite Hm; apply list_lookup_middle; done).
  assert (Htk : take (length dn) (main k) = dn) by (rewrite Hm; by rewrite take_app_length).
  destruct p as [q d]. destruct (decide (k = 0%nat)) as [->|Hk0].
  - destruct (main_zero_needs _ _ _ Hi Hp) as [Hq Hd]. cbn in Hq, Hd. subst q. rewrite Htk in Hd. by apply Hdn.
  - destruct (main_other_needs _ _ _ _ Hk0 Hi Hp) as [(Hq & Hd & Hs & Hpos)|[Hq Hd]]; cbn in Hq, Hd; subst q.
    + apply (bi_flag _ _ Hb); [|done|done]. apply Hst; [done|]. intros ->. cbn in Hpos. lia.
    + rewrite Htk in Hd. by apply Hdn.
Qed.

Lemma main_zero_flag dn rest c :
  main 0 = dn ++ StoreStarted :: rest → c ∈ main 0 → c ≠ Scheduler → c = StoreStarted ∨ c ∈ dn.
Proof.
  intros Hm Hc Hs.
  assert (Hl : length dn = 13%nat).
  { assert (Hi : main 0 !! length dn = Some StoreStarted) by (rewrite Hm; apply list_lookup_middle; done).
    assert (Hlt : (length dn < 15)%nat) by (by apply lookup_lt_Some in Hi).
    revert Hi Hlt. generalize (length dn) as m. clear.
    intros m Hi Hlt. do 15 (destruct m as [|m]; [first [reflexivity|discriminate Hi]|]). lia. }
  assert (Htk : take 13 (main 0) = dn) by (rewrite <-Hl, Hm; by rewrite take_app_length).
  rewrite <-Htk. clear -Hc Hs. revert Hc. unfold main. rewrite decide_True by done. cbn [take]. set_solver.
Qed.

Lemma binv_step n b b' : (0 < n)%nat → binv n b → bstep b b' → binv n b'.
Proof.
  intros Hn Hb [k b1 Ha]. unfold advance in Ha. destruct (todo b !! k) as [[|c rest]|] eqn:Ht; [done| |done].
  assert (Hk : (k < n)%nat) by (rewrite <-(bi_len _ _ Hb); by eapply lookup_lt_Some).
  destruct (bi_todo _ _ Hb k Hk) as (dn & rest' & Ht' & Hm & Hdn & Hst & Hsc & Hss). rewrite Ht in Ht'. injection Ht' as <-.
  pose proof (λ p, next_needs n b k dn c rest p Hb Hk Hn Ht Hm Hdn Hst) as Hneed.
  assert (Hgen : ∀ f, c ≠ Scheduler → (c = StoreStarted → f = true) → (STARTED b = true → f = true) → (k ≠ 0%nat → f = true) →
    (f = true → ∀ c0, c0 ∈ main 0 → c0 ≠ Scheduler → (0%nat, c0) ∈ (k, c) :: made b) →
    binv n (mkBoot (<[k := rest]> (todo b)) f ((k, c) :: made b))).
  { intros f Hcs Hcst Hf Hf0 Hflag. split; cbn; [|by rewrite length_insert, (bi_len _ _ Hb)|exact Hflag|].
    - intros l Hl. rewrite lookup_upd by (rewrite (bi_len _ _ Hb); done).
      destruct (decide (l = k)) as [->|Hne].
      + exists (dn ++ [c]), rest. split_and!; [done|by rewrite <-app_assoc| |by intros; apply Hf0|set_solver|set_solver].
        intros d Hd. apply elem_of_app in Hd as [Hd|Hd]; [right; by apply Hdn|].
        apply list_elem_of_singleton in Hd as ->. left.
      + destruct (bi_todo _ _ Hb l Hl) as (dl & rl & Hrl & Hml & Hdl & Hsl & Hcl & Htl).
        exists dl, rl. split_and!; [done|done| |by intros; apply Hf, Hsl|done|by intros; apply Hf, Htl]. intros d Hd. right. by apply Hdl.
    - intros l1 q d l2 Heq. destruct l1 as [|x l1]; cbn in Heq; simplify_eq; [exact Hneed|].
      by apply (bi_order _ _ Hb l1 q d l2). }
  assert (Hkeep : STARTED b = true → ∀ c0, c0 ∈ main 0 → c0 ≠ Scheduler → (0%nat, c0) ∈ (k, c) :: made b).
  { intros Hs c0 Hc0 Hne. right. by apply (bi_flag _ _ Hb). }
  assert (Hwait : k ≠ 0%nat → c ≠ WaitStarted → STARTED b = true).
  { intros Hk0 Hc. apply Hst; [done|]. intros ->. rewrite main_other in Hm by done. by injection Hm. }
  destruct c; simplify_eq; try (apply Hgen; [done|done|done|by intros; apply Hwait|exact Hkeep]).
  - apply Hgen; [done..|]. intros _ c0 Hc0 Hne. destruct (decide (k = 0%nat)) as [->|Hk0].
    + destruct (main_zero_flag dn rest c0 Hm Hc0 Hne) as [->|Hd]; [left|right; by apply Hdn].
    + apply Hkeep; [|done|done]. by apply Hwait.
  - destruct (STARTED b) eqn:Hs; simplify_eq. apply Hgen; [done..|exact Hkeep].
Qed.

Lemma binv_reach n b : (0 < n)%nat → rtc bstep (power_on n) b → binv n b.
Proof.
  intros Hn Hr. pose proof (binv_power_on n) as Hb. revert Hb.
  induction Hr as [|b b1 b2 Hs _ IH]; [done|]. intros Hb. apply IH. by eapply binv_step.
Qed.

(** ** Every hart gets to the scheduler *)

(** Hart [k] runs the rest of its calls, if it need not wait. *)
Lemma run_hart k pre : ∀ b,
  Scheduler ∉ pre → (STARTED b = true ∨ WaitStarted ∉ pre) → todo b !! k = Some (pre ++ [Scheduler]) →
  ∃ b', rtc bstep b b' ∧ todo b' = <[k := [Scheduler]]> (todo b) ∧
        (STARTED b = true ∨ StoreStarted ∈ pre → STARTED b' = true).
Proof.
  induction pre as [|c pre IH]; intros b Hs Hw Ht.
  - exists b. split_and!; [apply rtc_refl|by rewrite list_insert_id|]. intros [?|H]; [done|by apply not_elem_of_nil in H].
  - apply not_elem_of_cons in Hs as [Hc Hs].
    set (b1 := mkBoot (<[k := pre ++ [Scheduler]]> (todo b)) (STARTED b || bool_decide (c = StoreStarted)) ((k, c) :: made b)).
    assert (Hstep : bstep b b1).
    { apply (bstep_at _ k). unfold advance. rewrite Ht. cbn [app]. unfold b1. destruct c; cbn; rewrite ?orb_false_r, ?orb_true_r; try done.
      destruct Hw as [->|Hw]; [done|]. exfalso. apply Hw. left. }
    destruct (IH b1) as (b' & Hr & Ht' & Hst').
    + done.
    + cbn. destruct Hw as [->|Hw]; [by left|right]. intros H. apply Hw. by right.
    + cbn. apply list_lookup_insert_eq. by eapply lookup_lt_Some.
    + exists b'. split_and!; [by eapply rtc_l|rewrite Ht'; cbn; by rewrite list_insert_insert_eq|].
      intros H. apply Hst'. cbn. destruct H as [->|H]; [by left|]. apply elem_of_cons in H as [<-|H]; [left|by right].
      by rewrite bool_decide_true, orb_true_r.
Qed.

Lemma main_split k : ∃ pre, main k = pre ++ [Scheduler] ∧ (Scheduler ∉ pre) ∧
  (k = 0%nat → (WaitStarted ∉ pre) ∧ StoreStarted ∈ pre).
Proof.
  destruct (decide (k = 0%nat)) as [->|Hk].
  - exists (take 14 (main 0)). split; [done|]. split; [apply (bool_decide_unpack _); by vm_compute|].
    intros _. split; apply (bool_decide_unpack _); by vm_compute.
  - rewrite main_other by done. exists [WaitStarted; Println "hart {} starting"; Kinithart; TrapInithart; PlicInithart].
    split_and!; [done|apply (bool_decide_unpack _); by vm_compute|done].
Qed.

(** What is left for a hart ends with the scheduler. *)
Lemma todo_split n b k :
  binv n b → (k < n)%nat → ∃ pre, todo b !! k = Some (pre ++ [Scheduler]) ∧ (Scheduler ∉ pre) ∧
    (k = 0%nat → (WaitStarted ∉ pre) ∧ (STARTED b = true ∨ StoreStarted ∈ pre)).
Proof.
  intros Hb Hk. destruct (bi_todo _ _ Hb k Hk) as (dn & rest & Ht & Hm & _ & _ & Hsc & Hss).
  destruct (main_split k) as (pre & Hp & Hps & Hp0). rewrite Hp in Hm.
  destruct (decide (rest = [])) as [->|Hne].
  - rewrite app_nil_r in Hm. destruct Hsc. rewrite <-Hm. set_solver.
  - destruct (exists_last Hne) as (r & x & ->). rewrite app_assoc in Hm. apply app_inj_2 in Hm as [-> Hx]; [|done].
    injection Hx as <-. exists r. split_and!; [done|set_solver|]. intros ->. destruct (Hp0 eq_refl) as [Hw Hst].
    split; [set_solver|]. apply elem_of_app in Hst as [Hst|Hst]; [left; by apply Hss|by right].
Qed.

Lemma run_all n b m :
  binv n b → (0 < m ≤ n)%nat →
  ∃ b', rtc bstep b b' ∧ STARTED b' = true ∧ (∀ k, (k < m)%nat → todo b' !! k = Some [Scheduler]) ∧
        (∀ k, (m ≤ k)%nat → todo b' !! k = todo b !! k).
Proof.
  intros Hb. induction m as [|m IH]; intros Hm; [lia|]. destruct (decide (m = 0%nat)) as [->|Hm0].
  - destruct (todo_split n b 0 Hb) as (pre & Ht & Hs & H0); [lia|]. destruct (H0 eq_refl) as [Hw Hst].
    destruct (run_hart 0 pre b Hs (or_intror Hw) Ht) as (b' & Hr & Ht' & Hst').
    exists b'. split_and!; [done|by apply Hst'| |]; intros k Hk; rewrite Ht'.
    + replace k with 0%nat by lia. apply list_lookup_insert_eq. by eapply lookup_lt_Some.
    + apply list_lookup_insert_ne. lia.
  - destruct IH as (b1 & Hr1 & Hst1 & Hdone & Hrest); [lia|].
    destruct (todo_split n b m Hb) as (pre & Ht & Hs & _); [lia|].
    destruct (run_hart m pre b1 Hs (or_introl Hst1)) as (b' & Hr & Ht' & Hst'); [by rewrite Hrest|].
    exists b'. split_and!; [by eapply rtc_trans|apply Hst'; by left| |]; intros k Hk; rewrite Ht'.
    + destruct (decide (k = m)) as [->|Hne].
      * apply list_lookup_insert_eq. apply (lookup_lt_Some _ _ (pre ++ [Scheduler])). by rewrite Hrest.
      * rewrite list_lookup_insert_ne by done. apply Hdone. lia.
    + rewrite list_lookup_insert_ne by lia. apply Hrest. lia.
Qed.

(** C27. Boot order.  However the harts interleave: when a call of [main] has
    returned, the calls it relies on had returned before it, on hart 0 or on
    its own hart (no hart turns paging on before the kernel page table exists,
    none asks for device interrupts before the controller and its trap vector
    are set up); a hart that has come to the scheduler finds the process
    table, buffer cache and disk ready; and from every reachable state all
    harts can get to the scheduler. *)
Theorem boot_order n b :
  (0 < n)%nat → rtc bstep (power_on n) b →
  (∀ l1 k c l2, made b = l1 ++ (k, c) :: l2 → ∀ p, p ∈ needs k c → p ∈ l2) ∧
  (∀ k, todo b !! k = Some [Scheduler] → ∀ p, p ∈ needs k Scheduler → p ∈ made b) ∧
  (∃ b', rtc bstep b b' ∧ ∀ k, (k < n)%nat → todo b' !! k = Some [Scheduler]).
Proof.
  intros Hn Hr. pose proof (binv_reach n b Hn Hr) as Hb. split_and!.
  - apply (bi_order _ _ Hb).
  - intros k Ht p Hp. assert (Hk : (k < n)%nat) by (rewrite <-(bi_len _ _ Hb); by eapply lookup_lt_Some).
    destruct (bi_todo _ _ Hb k Hk) as (dn & rest & Ht' & Hm & Hdn & Hst & _). rewrite Ht in Ht'. injection Ht' as <-.
    by eapply next_needs.
  - destruct (run_all n b n Hb) as (b' & Hr' & _ & Hall & _); [lia|]. by exists b'.
Qed.

Lemma boot_order_witness :
  ∃ b', rtc bstep (power_on 3) b' ∧ ∀ k, (k < 3)%nat → todo b' !! k = Some [Scheduler].
Proof. destruct (boot_order 3 (power_on 3)) as (_ & _ & H); [lia|apply rtc_refl|exact H]. Defined.

(** ** What the scheduler finds *)

(** A hart in the scheduler's loop, with no process. *)
Definition scanning (p : pc) : bool :=
  match p with SLoop | SAt _ | SSpin _ | SGot _ | Crashed _ => true | _ => false end.

Definition nothing_to_run (s : sys) : Prop :=
  (∀ k c, cores s !! k = Some c → scanning (at_ c) = true) ∧
  (∀ i x, slots s !! i = Some x → st x ≠ RUNNABLE).

Lemma idle_go s k c : nothing_to_run s → scanning (at_ c) = true → nothing_to_run (go s k c).
Proof.
  intros [H1 H2] Hc. split; [|exact H2]. intros l d. cbn. destruct (decide (l = k)) as [->|Hne].
  - destruct (decide (k < length (cores s))%nat) as [Hk|Hk]; [rewrite list_lookup_insert_eq by done; by intros [= <-]|].
    rewrite list_insert_ge by lia. intros Hd. by apply (H1 k).
  - rewrite list_lookup_insert_ne by done. apply H1.
Qed.

Lemma idle_put s i x : nothing_to_run s → st x ≠ RUNNABLE → nothing_to_run (put_slot s i x).
Proof.
  intros [H1 H2] Hx. split; [exact H1|]. intros j y. cbn. destruct (decide (j = i)) as [->|Hne].
  - destruct (decide (i < length (slots s))%nat) as [Hi|Hi]; [rewrite list_lookup_insert_eq by done; by intros [= <-]|].
    rewrite list_insert_ge by lia. intros Hd. by apply (H2 i).
  - rewrite list_lookup_insert_ne by done. apply H2.
Qed.

Lemma idle_next s k ch s' : nothing_to_run s → next s k ch = Some s' → nothing_to_run s'.
Proof.
  intros Hi Hn. pose proof Hi as [H1 H2]. unfold next in Hn. destruct (cores s !! k) as [c|] eqn:Hc; [|done].
  pose proof (H1 _ _ Hc) as Hsc. destruct (at_ c) eqn:Hat; try discriminate Hsc; destruct ch; try discriminate Hn.
  - injection Hn as <-. by apply idle_go.
  - destruct (slots s !! i) as [x|] eqn:Hx; injection Hn as <-; apply idle_go; try done.
    unfold jump. cbn [at_]. by destruct (holding (lk x) k).
  - destruct (slots s !! i) as [x|] eqn:Hx; [|done]. cbn in Hn. unfold lock_try in Hn.
    destruct (lk x); [done|]. injection Hn as <-. apply idle_put; [by apply idle_go|exact (H2 i x Hx)].
  - destruct (slots s !! i) as [x|] eqn:Hx; [|done]. cbn in Hn. rewrite decide_False in Hn by (by apply (H2 i)).
    injection Hn as <-. unfold unlock. destruct (mutex_unlock _ _ _) as [[kc1 m]|e|a]; [|by apply idle_go|done].
    apply idle_put; [by apply idle_go|exact (H2 i x Hx)].
Qed.

(** After [main] there is nothing to run.  [main] never calls [user_init],
    so the harts enter the scheduler with every slot [UNUSED]; then no hart
    ever runs a process. *)
Theorem boot_without_process n m s :
  rtc step (sys_boot n (replicate m UNUSED)) s → ∀ k i, ¬ reads own s k (Some i).
Proof.
  intros Hr.
  assert (Hi : nothing_to_run (sys_boot n (replicate m UNUSED))).
  { split; cbn.
    - intros k c Hk. by apply lookup_replicate in Hk as [-> _].
    - intros i x Hx. rewrite list_lookup_fmap in Hx. destruct (replicate m UNUSED !! i) as [y|] eqn:Hy; [|done].
      apply lookup_replicate in Hy as [-> _]. by injection Hx as <-. }
  assert (Hs : nothing_to_run s).
  { revert Hi. induction Hr as [|s s1 s2 [k ch s1' Hn] _ IH]; [done|]. intros Hi. apply IH. by eapply idle_next. }
  intros k i (c & Hc & Ho). destruct Hs as [H1 _]. pose proof (H1 _ _ Hc). by destruct (at_ c).
Qed.

(** ** The first process *)
Section first.
Context {U T F I : Type} `{!UserMemory U T, !FirstProcess U T I}.

(** [user_init] prepares the first process.  When the first slot is free
    and there is memory, it returns with that slot runnable under the next
    process id: its thread starts in [fork_ret] on its kernel stack, its user
    part at address 0 with the stack pointer at the end of the one page that
    holds [INITCODE]; the slot is the init process, the scheduler can take it,
    no other slot changes, and a second call panics. *)
Theorem user_init_first fork_ret (ps : Procs U T F I) p0 rest tf u u1 :
  pool ps = p0 :: rest → Proc.state (inner p0) = UNUSED → new_trapframe = Some tf →
  Proc.proc_uvmcreate tf = Some u → u_init u INITCODE = Done u1 →
  ∃ ps' p, user_init fork_ret false ps = Done ps' ∧
    pool ps' = p :: rest ∧ initproc ps' = 0%nat ∧ nextid ps' = nextid ps + 1 ∧
    Proc.state (inner p) = RUNNABLE ∧ pid (inner p) = nextid ps ∧
    ctx_ra (data p) = fork_ret ∧ ctx_sp (data p) = Proc.kstack (data p0) + 4096 ∧
    sz (data p) = 4096 ∧ uvm (data p) = Some u1 ∧ trapframe (data p) = Some (tf_begin tf 0 4096) ∧
    cwd (data p) = root_dir ∧ is_Some (sched_pick 0 ps') ∧
    user_init fork_ret true ps' = Panic "called `Option::unwrap()` on a `None` value".
Proof.
  intros Hp Hst Htf Hu Hui. unfold user_init, alloc_proc. rewrite Hp. unfold Proc.alloc_loop. rewrite Hst, Htf, Hu.
  cbn. rewrite Hui. cbn. eexists _, _. split; [reflexivity|]. cbn. split_and!; try reflexivity.
  unfold sched_pick. cbn. by eexists.
Qed.
End first.

(** ** The code of the first process *)
Lemma init_code :
  decode (word32 init_page 24) = Addi 17 0 2 ∧ decode (word32 init_page 28) = Ecall ∧
  decode (word32 init_page 32) = Jal 1 (-8).
Proof. split_and!; vm_compute; reflexivity. Qed.

Lemma ur_setr u r v pc q : r ≠ 0 → ur (setr u r v pc) q = if decide (q = r) then wrap64 v else ur u q.
Proof.
  intros Hr. unfold ur, setr. cbn. destruct (decide (q = r)) as [->|Hne].
  - rewrite decide_False by done. by rewrite lookup_insert_eq.
  - by rewrite lookup_insert_ne.
Qed.

(** From the instruction that loads the number of [exit] the next trap is an [exit]. *)
Lemma exit_trap fuel u :
  (3 ≤ fuel)%nat → upc u = 24 →
  ∃ u', to_trap fuel init_page u = Some u' ∧ upc u' = 28 ∧ ur u' 17 = 2 ∧ ur u' 10 = ur u 10 ∧ ur u' 11 = ur u 11.
Proof.
  intros Hf Hpc. destruct init_code as (H1 & H2 & _). destruct fuel as [|[|fuel]]; [lia|lia|].
  cbn [to_trap]. unfold ustep at 1. rewrite Hpc, H1. unfold ustep at 1. cbn [upc setr]. rewrite ?Hpc. change (24 + 4) with 28. rewrite H2.
  eexists. split; [reflexivity|]. cbn [upc setr]. by rewrite !ur_setr by lia.
Qed.

Lemma exit_again fuel u :
  (4 ≤ fuel)%nat → upc u = 32 →
  ∃ u', to_trap fuel init_page u = Some u' ∧ upc u' = 28 ∧ ur u' 17 = 2 ∧ ur u' 10 = ur u 10 ∧ ur u' 11 = ur u 11.
Proof.
  intros Hf Hpc. destruct init_code as (_ & _ & H3). destruct fuel as [|fuel]; [lia|].
  cbn [to_trap]. unfold ustep at 1. rewrite Hpc, H3.
  destruct (exit_trap fuel (setr u 1 (upc u + 4) (upc u + -8))) as (u' & Hr & ? & ? & Ha & Hb); [lia|cbn; lia|].
  exists u'. rewrite Hpc in Hr. split; [exact Hr|]. by rewrite !ur_setr in Ha, Hb by lia.
Qed.

Lemma exit_calls vs : ∀ u v,
  ur u 11 = 43 → upc u = 20 ∨ upc u = 28 →
  calls 10 init_page (ureturn u v) vs = (2, wrap64 v, 43) :: ((λ v, (2, wrap64 v, 43)) <$> vs).
Proof.
  induction vs as [|w vs IH]; intros u v Ha Hpc.
  all: assert (Ht : ∃ u', to_trap 10 init_page (ureturn u v) = Some u' ∧ upc u' = 28 ∧ ur u' 17 = 2 ∧
      ur u' 10 = wrap64 v ∧ ur u' 11 = 43) by
    (destruct Hpc as [Hpc|Hpc];
     [destruct (exit_trap 10 (ureturn u v)) as (u' & H1 & H2 & H3 & H4 & H5)
     |destruct (exit_again 10 (ureturn u v)) as (u' & H1 & H2 & H3 & H4 & H5)];
     try (cbn; lia); exists u'; unfold ureturn in H4, H5; rewrite ur_setr in H4, H5 by lia;
     rewrite decide_True in H4 by done; rewrite decide_False in H5 by lia; split_and!; congruence).
  all: destruct Ht as (u' & Hr & Hp & H17 & H10 & H11); cbn [calls]; rewrite Hr; unfold ucall; rewrite Hp;
    destruct init_code as (_ & -> & _); rewrite H17, H10, H11; try done.
  rewrite IH; [done|done|by right].
Qed.

(** What the machine code of the first process does.  Run from address 0
    with cleared registers it calls [exec] with the addresses 36 and 43; the
    string at 36 is the path of init, the words at 43 and 51 are its address
    and a null pointer; when [exec] comes back, whatever it and the later
    calls return, every further call is [exit]. *)
Theorem initcode_calls vs :
  calls 10 init_page init_user vs =
    (discriminant Exec, 36, 43) :: ((λ v, (discriminant Exit, wrap64 v, 43)) <$> vs) ∧
  take 6 (drop 36 init_page) = [47; 105; 110; 105; 116; 0] ∧
  le_val (take 8 (drop 43 init_page)) = 36 ∧ le_val (take 8 (drop 51 init_page)) = 0.
Proof.
  split; [|split_and!; vm_compute; reflexivity].
  destruct (to_trap 10 init_page init_user) as [u|] eqn:Hu; [|vm_compute in Hu; discriminate Hu].
  assert (Hpc : upc u = 20 ∧ ur u 11 = 43 ∧ ucall init_page u = Some (7, 36, 43)).
  { vm_compute in Hu. injection Hu as <-. vm_compute. done. }
  destruct Hpc as (Hpc & H11 & Hc). destruct vs as [|v vs]; cbn [calls]; rewrite Hu, Hc; [done|].
  f_equal. rewrite exit_calls; [done|done|by left].
Qed.

(** [exec] of the first process fails.  Its machine code passes the address
    of a string that ends with a zero byte; the kernel reads a pair of an
    address and a length there, finds the length 0, and [exec] returns an
    error for every program and every argument list. *)
Theorem initcode_exec_fails {W U : Type} `{!FileWorld W, !PathWorld W, !UserAccess W U, !UserMemory U Trapframe}
    uargv_at exec (k : kst W U) d tf u :
  my_data k = Done d → trapframe d = Some tf → a0 tf = 36 → sz d = 4096 → uvm d = Some u →
  (∀ a n, 0 ≤ a → a + Z.of_nat n ≤ 4096 →
     u_copyin (world k) u a n = Done (Ok (take n (drop (Z.to_nat a) init_page)))) →
  sys_exec uargv_at exec k = Done (k, Ret (Err tt)).
Proof.
  intros Hd Htf Ha0 Hsz Hu Hin. unfold sys_exec. rewrite Hd. cbn [mbind outcome_bind].
  unfold arg_str, arg_addr, arg. rewrite Htf. cbn [unwrap mbind outcome_bind]. rewrite Ha0.
  unfold fetch_str, fetch_slice.
  assert (Hf : ∀ a, 0 ≤ a → a + 8 ≤ 4096 →
    fetch_data (world k) d a 8 = Done (Ok (take 8 (drop (Z.to_nat a) init_page)))).
  { intros a H0 H1. unfold fetch_data. rewrite Hsz, Hu. rewrite decide_False by lia.
    rewrite checked_add_ok by lia. cbn [mbind outcome_bind]. rewrite decide_False by lia. cbn. apply Hin; lia. }
  rewrite (Hf 36) by lia. cbn [mbind outcome_bind]. rewrite (checked_add_ok 36 8) by lia. cbn [mbind outcome_bind].
  rewrite (Hf (36 + 8)) by lia. cbn [mbind outcome_bind].
  replace (le_val (take 8 (drop (Z.to_nat (36 + 8)) init_page))) with 0 by (vm_compute; reflexivity).
  rewrite decide_True by (right; by left). done.
Qed.

(** The page that [Uvm::init] makes of [INITCODE], read back by [copyin]. *)
Lemma get_page ub page : length page = 4096%nat →
  (∀ a, 0 ≤ a < 4096 → ub a = Some (default 0 (page !! Z.to_nat a))) →
  ∀ n a, 0 ≤ a → a + Z.of_nat n ≤ 4096 → get ub a n = Ok (take n (drop (Z.to_nat a) page)).
Proof.
  intros Hl Hub n. induction n as [|n IH]; intros a Ha Hn; [done|]. cbn [get].
  rewrite Hub, IH by lia.
  destruct (page !! Z.to_nat a) as [x|] eqn:Hx; [|apply lookup_ge_None in Hx; lia].
  rewrite (drop_S _ _ _ Hx). by replace (Z.to_nat (a + 1)) with (S (Z.to_nat a)) by lia.
Qed.

Lemma init_page_lookup i : default 0 (INITCODE !! i) = default 0 (init_page !! i).
Proof.
  unfold init_page. destruct (decide (i < 52)%nat) as [Hi|Hi]; [by rewrite lookup_app_l|].
  rewrite lookup_app_r by (cbn; lia). rewrite lookup_ge_None_2 by (cbn; lia).
  destruct (replicate _ 0 !! (i - length INITCODE)%nat) eqn:E; [by apply lookup_replicate in E as [-> _]|done].
Qed.

(** [uvm_init] and [copyin] satisfy what [initcode_exec_fails] asks of user memory. *)
Theorem init_page_copyin m root mem r a n :
  pt_wf m root → avail m = mem :: r → mem + 12288 ≤ usize_mod → unmapped m root 0 1 →
  0 ≤ a → a + Z.of_nat n ≤ 4096 →
  (∃ m', uvm_init m root INITCODE = Done m' ∧
     either_copyin m' root (User a) n = Done (Ok (take n (drop (Z.to_nat a) init_page)))) ∨
  uvm_init m root INITCODE = Panic "called `Result::unwrap()` on an `Err` value".
Proof.
  intros Hwf Hav Hmem Hun Ha Hn.
  destruct (uvm_init_image m root INITCODE mem r Hwf Hav Hmem Hun) as [(m' & Hi & [Hok _] & Hb)|Hp]; [cbn; lia| |by right].
  left. exists m'. split; [done|]. change (either_copyin m' root (User a) n) with (copyin (S n) m' root a n).
  rewrite copyin_get by (done || lia). f_equal. apply get_page; [|intros b Hb'|done|done].
  - unfold init_page. by rewrite length_app, length_replicate.
  - by rewrite Hb, init_page_lookup.
Qed.

(** ** Concrete cases *)
Definition init_data : Proc.ProcData (list Z) Trapframe File nat :=
  Proc.mkData 0 4096 (Some init_page) (Some (mkTf 36 43 0 0 0 0 0 7 20 4096)) 0 0 "initcode" Small.none16 None.
Definition init_k : kst Z (list Z) :=
  mkK (Proc.mkProcs [Proc.mkProc (Proc.mkInner RUNNING 0 false 0 0) None init_data] 1 0) 0 Example.s0 0.

Lemma initcode_exec_fails_witness : sys_exec 100000 Small.no_exec init_k = Done (init_k, Ret (Err tt)).
Proof.
  refine (initcode_exec_fails 100000 Small.no_exec init_k init_data (mkTf 36 43 0 0 0 0 0 7 20 4096) init_page
            eq_refl eq_refl eq_refl eq_refl eq_refl _).
  intros a n Ha Hn. cbn [u_copyin Small.access]. rewrite decide_True; [done|].
  unfold init_page. rewrite length_app, length_replicate. cbn [length INITCODE]. lia.
Defined.

#[local] Instance small_first : FirstProcess (list Z) Trapframe nat := {
  u_init u x := Done (x ++ replicate (4096 - length x) 0);
  tf_begin tf pc sp := mkTf (a0 tf) (a1 tf) (a2 tf) (a3 tf) (a4 tf) (a5 tf) (a6 tf) (a7 tf) pc sp;
  root_dir := Some 1%nat;
}.

Lemma user_init_first_witness :
  ∃ ps' p, user_init (F := File) 77 false (boot_table [4096; 8192]) = Done ps' ∧ pool ps' !! 0%nat = Some p ∧
    ctx_ra (data p) = 77 ∧ sz (data p) = 4096.
Proof.
  destruct (user_init_first (F := File) 77 (boot_table [4096; 8192]) (proc_new 4096) [proc_new 8192]
              (mkTf 0 0 0 0 0 0 0 0 0 0) [] init_page) as (ps' & p & H1 & H2 & _ & _ & _ & _ & H7 & _ & H9 & _); try reflexivity.
  exists ps', p. rewrite H2. split_and!; done.
Defined.

(** ** Kernel stacks *)

(** The stacks that [proc::init] hands out lie below the trampoline, and
    between two of them there are unmapped pages. *)
Theorem kernel_stacks_apart {U T F I : Type} (ps : Procs U T F I) i j p q :
  pool (proc_init ps) !! i = Some p → pool (proc_init ps) !! j = Some q → (i < j)%nat →
  Proc.kstack (data q) + 4 * Vm.PGSIZE + Vm.PGSIZE ≤ Proc.kstack (data p) ∧
  Proc.kstack (data p) + 5 * Vm.PGSIZE ≤ TRAMPOLINE.
Proof.
  cbn. rewrite !list_lookup_imap. intros Hp Hq Hij.
  destruct (pool ps !! i); [|done]. destruct (pool ps !! j); [|done]. cbn in *. simplify_eq. cbn.
  unfold Vm.kstack, Vm.PGSIZE. lia.
Qed.
