(* ===== verification/Mkfs.v ===== *)
(** * The image builder ([mkfs/main.rs])

    The image is the list of its sectors.  Input and output of the host
    succeed; [die] and the assertions end the program, here as [Panic].
    [aligned] tells whether the compiler placed the byte buffers at addresses
    that are aligned for a [DInode] and a [SuperBlock]. *)

From S2P Require Import Prelude Log Fs.

Open Scope Z_scope.

Definition FSSIZE : Z := 1000.
Definition NINODES : Z := 200.
Definition NBITMAP : Z := FSSIZE / (1024 * 8) + 1.
Definition NINODEBLOCKS : Z := NINODES / IPB + 1.
Definition NLOG : Z := LOGSIZE.
Definition NMETA : Z := 2 + NLOG + NINODEBLOCKS + NBITMAP.
Definition NBLOCKS : Z := FSSIZE - NMETA.

Definition ZEROS : list Z := replicate 1024 0.

Record FsImg := mkImg { sb : SuperBlock; img : list (list Z); freeinode : Z; freeblock : Z }.

Definition set_img (f : FsImg) (x : list (list Z)) : FsImg := mkImg (sb f) x (freeinode f) (freeblock f).
Definition take_block (f : FsImg) : FsImg := mkImg (sb f) (img f) (freeinode f) (freeblock f + 1).

(** [FsImg::new]: the file is truncated. *)
Definition img_new (sb : SuperBlock) : FsImg := mkImg sb [] 1 NMETA.

(** ** Sectors *)

(** A write behind the end of the file leaves zeros in between. *)
Definition wsect (f : FsImg) (sec : Z) (buf : list Z) : outcome FsImg :=
  if decide (length buf = 1024%nat) then
    let x := img f ++ replicate (S (Z.to_nat sec) - length (img f)) ZEROS in
    Done (set_img f (<[Z.to_nat sec := buf]> x))
  else Panic "write".

(** [read] of fewer bytes than a sector, at the end of the file. *)
Definition rsect (f : FsImg) (sec : Z) : outcome (list Z) :=
  match img f !! Z.to_nat sec with
  | Some buf => if decide (length buf = 1024%nat) then Done buf else Panic "read"
  | None => Panic "read"
  end.

(** ** Inodes *)
Record DInode := mkD { d_type : Z; d_major : Z; d_minor : Z; d_nlink : Z; d_size : Z; d_addrs : list Z }.

Definition dinode_default : DInode := mkD 0 0 0 0 0 (replicate 13 0).
Definition put_dinode (d : DInode) : list Z :=
  le_bytes 2 (d_type d) ++ le_bytes 2 (d_major d) ++ le_bytes 2 (d_minor d) ++ le_bytes 2 (d_nlink d) ++
  le_bytes 4 (d_size d) ++ encode_words (d_addrs d).
Definition get_dinode (x : list Z) : DInode :=
  mkD (le_val (take 2 x)) (le_val (take 2 (drop 2 x))) (le_val (take 2 (drop 4 x))) (le_val (take 2 (drop 6 x)))
    (le_val (take 4 (drop 8 x))) (decode_words 13 (drop 12 x)).

Section builder.
Variable aligned : bool.

Definition assert_aligned : outcome unit := if aligned then Done tt else Panic "Data was not aligned".

Definition winode (f : FsImg) (inum : Z) (ip : DInode) : outcome FsImg :=
  bn ← iblock (sb f) inum;
  buf ← rsect f bn;
  _ ← assert_aligned;
  wsect f bn (splice buf (dinode_off inum) (put_dinode ip)).

Definition rinode (f : FsImg) (inum : Z) : outcome DInode :=
  bn ← iblock (sb f) inum;
  buf ← rsect f bn;
  _ ← assert_aligned;
  Done (get_dinode (take (Z.to_nat SIZEOF_DINODE) (drop (dinode_off inum) buf))).

Definition ialloc (f : FsImg) (t : IType) : outcome (FsImg * Z) :=
  let inum := as_u32 (freeinode f) in
  let f1 := mkImg (sb f) (img f) (freeinode f + 1) (freeblock f) in
  f2 ← winode f1 inum (mkD (itype_code t) 0 0 1 0 (replicate 13 0));
  Done (f2, inum).

(** ** The bitmap *)
Fixpoint set_bits (k : nat) (i : Z) (buf : list Z) : list Z :=
  match k with
  | O => buf
  | S k =>
      let j := Z.to_nat (i / 8) in
      set_bits k (i + 1)
        (match buf !! j with
         | Some elem => <[j := Z.lor elem (Z.shiftl 1 (i `mod` 8))]> buf
         | None => buf
         end)
  end.

Definition mkfs_balloc (f : FsImg) (used : Z) : outcome FsImg :=
  if decide (used < 1024 * 8) then wsect f (bmapstart (sb f)) (set_bits (Z.to_nat used) 0 ZEROS)
  else Panic "assertion failed: used < BSIZE * 8".

(** ** Appending to a file *)

(** The sector of block [fbn] of the file, allocated if it has none. *)
Definition sector_of (f : FsImg) (din : DInode) (fbn : Z) : outcome (FsImg * DInode * Z) :=
  let set_addr din i v :=
    mkD (d_type din) (d_major din) (d_minor din) (d_nlink din) (d_size din) (<[i := v]> (d_addrs din)) in
  if decide (fbn < NDIRECT) then
    a ← index (d_addrs din) fbn;
    if decide (a = 0) then
      let x := as_u32 (freeblock f) in Done (take_block f, set_addr din (Z.to_nat fbn) x, x)
    else Done (f, din, a)
  else
    a ← index (d_addrs din) NDIRECT;
    let '(f1, din1, ia) :=
      if decide (a = 0) then
        let x := as_u32 (freeblock f) in (take_block f, set_addr din (Z.to_nat NDIRECT) x, x)
      else (f, din, a) in
    buf ← rsect f1 ia;
    let indirect := decode_words 256 buf in
    e ← index indirect (fbn - NDIRECT);
    if decide (e = 0) then
      let x := as_u32 (freeblock f1) in
      f2 ← wsect (take_block f1) ia (encode_words (<[Z.to_nat (fbn - NDIRECT) := x]> indirect));
      Done (f2, din1, x)
    else Done (f1, din1, e).

(** [while n > 0], [data] the bytes left; a round takes at least one. *)
Fixpoint iappend_loop (k : nat) (f : FsImg) (din : DInode) (data : list Z) (off : Z) : outcome (FsImg * DInode * Z) :=
  match data, k with
  | [], _ => Done (f, din, off)
  | _, O => Panic "out of fuel"
  | _, S k =>
      let fbn := off / 1024 in
      if decide (fbn < MAXFILE) then
        '(f1, din1, x) ← sector_of f din fbn;
        let n1 := Z.min (Z.of_nat (length data)) ((fbn + 1) * 1024 - off) in
        buf ← rsect f1 x;
        f2 ← wsect f1 x (splice buf (Z.to_nat (off - fbn * 1024)) (take (Z.to_nat n1) data));
        iappend_loop k f2 din1 (drop (Z.to_nat n1) data) (off + n1)
      else Panic "assertion failed: fbn < MAXFILE"
  end.

Definition iappend (f : FsImg) (inum : Z) (data : list Z) : outcome FsImg :=
  din ← rinode f inum;
  '(f1, din1, off) ← iappend_loop (length data) f din data (d_size din);
  winode f1 inum (mkD (d_type din1) (d_major din1) (d_minor din1) (d_nlink din1) (as_u32 off) (d_addrs din1)).

(** ** The program *)
Definition super : SuperBlock :=
  mkSB FSMAGIC FSSIZE NBLOCKS NINODES NLOG 2 (2 + NLOG) (2 + NLOG + NINODEBLOCKS).
Definition encode_super (s : SuperBlock) : list Z :=
  encode_words [magic s; sb_size s; nblocks s; ninodes s; nlog s; logstart s; inodestart s; bmapstart s].

(** [mkfs_as_bytes(&name)] with [name] a [&str]: the bytes of the reference,
    an address and a length. *)
Definition str_ref_bytes (addr : Z) (name : list Z) : list Z :=
  le_bytes 8 addr ++ le_bytes 8 (Z.of_nat (length name)).

(** [dst[..n].copy_from_slice(src)] *)
Definition copy_prefix (dst : list Z) (n : nat) (src : list Z) : outcome (list Z) :=
  if decide (n ≤ length dst)%nat then
    if decide (length src = n) then Done (src ++ drop n dst)
    else Panic "source slice length does not match destination slice length"
  else Panic "range end index out of range".

(** A directory entry for [name], which lives at [addr], appended to the root. *)
Definition add_entry (f : FsImg) (root addr : Z) (name : list Z) (inum : Z) : outcome FsImg :=
  n ← copy_prefix (replicate 14 0) (length name) (str_ref_bytes addr name);
  iappend f root (le_bytes 2 (inum `mod` 65536) ++ n).

(** [while fd.read(&mut buf)? > 0]: [buf] keeps its old bytes behind the new
    ones, and all of it is appended. *)
Fixpoint copy_file (k : nat) (f : FsImg) (inum : Z) (buf content : list Z) : outcome (FsImg * list Z) :=
  match content, k with
  | [], _ => Done (f, buf)
  | _, O => Panic "out of fuel"
  | _, S k =>
      let buf := splice buf 0 (take 1024 content) in
      f1 ← iappend f inum buf;
      copy_file k f1 inum buf (drop 1024 content)
  end.

(** The files of the command line that exist: name, its address, contents. *)
Fixpoint add_files (f : FsImg) (root : Z) (buf : list Z) (files : list (list Z * Z * list Z)) : outcome FsImg :=
  match files with
  | [] => Done f
  | (name, addr, content) :: files =>
      let shortname := trim_start 95 name in
      if decide (length shortname < 14)%nat then
        '(f1, inum) ← ialloc f TFile;
        f2 ← add_entry f1 root addr shortname inum;
        '(f3, buf) ← copy_file (length content) f2 inum buf content;
        add_files f3 root buf files
      else Panic "assertion failed: shortname.len() < 14"
  end.

Fixpoint zero_all (k : nat) (sec : Z) (f : FsImg) : outcome FsImg :=
  match k with
  | O => Done f
  | S k => f1 ← wsect f sec ZEROS; zero_all k (sec + 1) f1
  end.

(** The image up to the directory entries, and the buffer. *)
Definition mkfs_format : outcome (FsImg * list Z * Z) :=
  f ← zero_all (Z.to_nat FSSIZE) 0 (img_new super);
  _ ← assert_aligned;
  let buf := splice ZEROS 0 (encode_super super) in
  f1 ← wsect f 1 buf;
  '(f2, root) ← ialloc f1 TDir;
  if decide (root = ROOTINO) then Done (f2, buf, root) else Panic "assertion failed: rootino == ROOTINO".

(** [dot] and [dotdot] are the addresses of the two names. *)
Definition mkfs_main (dot dotdot : Z) (files : list (list Z * Z * list Z)) : outcome FsImg :=
  '(f, buf, root) ← mkfs_format;
  f ← add_entry f root dot DOT root;
  f ← add_entry f root dotdot DOTDOT root;
  f ← add_files f root buf files;
  din ← rinode f root;
  let off := (d_size din / 1024 + 1) * 1024 in
  f ← winode f root (mkD (d_type din) (d_major din) (d_minor din) (d_nlink din) (as_u32 off) (d_addrs din));
  mkfs_balloc f (freeblock f).
End builder.
