(* ===== verification/MkfsSpec.v ===== *)
(** * The image builder and the kernel agree on the disk

    [kernel_fs] is the file system as the kernel finds it when the image is its
    disk.  What the builder writes with its own inode type, bitmap and loops is
    read here with the definitions of the kernel. *)

From S2P Require Import Prelude Log LogSpec Fs FsSpec Mkfs.

Open Scope Z_scope.

Definition sector (f : FsImg) (b : Z) : list Z := default ZEROS (img f !! Z.to_nat b).
Definition kernel_fs (f : FsImg) : fs :=
  mkFs (sector f) (mkLog 2 NLOG 1 0 false (mkHead 0 (replicate 30 0))) (replicate NINODE None).
Definition kernel_inode (dev num : Z) (d : DInode) : IData :=
  mkI dev num true (itype_of (d_type d)) (major_of (d_major d)) (d_minor d) (d_nlink d) (d_size d) (d_addrs d).

(** ** Sectors *)
Definition full_img (f : FsImg) : Prop := Forall (λ s, length s = 1024%nat) (img f).
Definition on_disk (f : FsImg) (b : Z) : Prop := 0 ≤ b < Z.of_nat (length (img f)).

Lemma rsect_ok f b : full_img f → on_disk f b → rsect f b = Done (sector f b) ∧ length (sector f b) = 1024%nat.
Proof.
  intros Hf Hb. unfold rsect, sector, on_disk in *.
  destruct (lookup_lt_is_Some_2 (img f) (Z.to_nat b)) as (x & Hx); [lia|]. rewrite Hx. simpl.
  pose proof (proj1 (Forall_lookup _ _) Hf _ _ Hx) as Hl. simpl in Hl. by rewrite decide_True.
Qed.

Lemma wsect_ok f b x : full_img f → on_disk f b → length x = 1024%nat →
  ∃ f', wsect f b x = Done f' ∧ full_img f' ∧ sb f' = sb f ∧ freeinode f' = freeinode f ∧
    freeblock f' = freeblock f ∧ length (img f') = length (img f) ∧
    ∀ c, 0 ≤ c → sector f' c = if decide (c = b) then x else sector f c.
Proof.
  intros Hf Hb Hx. unfold wsect, on_disk in *. rewrite decide_True by done.
  replace (S (Z.to_nat b) - length (img f))%nat with 0%nat by lia. simpl. rewrite app_nil_r.
  eexists. split; [done|]. unfold full_img, sector. simpl. rewrite length_insert.
  split_and!; try done; [by apply Forall_insert|]. intros c Hc. rewrite lookup_upd by lia.
  destruct (decide (c = b)) as [->|Hne].
  - by rewrite decide_True by lia.
  - by rewrite decide_False by lia.
Qed.

(** ** Inodes *)
Definition d_ok (d : DInode) : Prop :=
  0 ≤ d_type d < 65536 ∧ 0 ≤ d_major d < 65536 ∧ 0 ≤ d_minor d < 65536 ∧ 0 ≤ d_nlink d < 65536 ∧
  0 ≤ d_size d < u32_mod ∧ length (d_addrs d) = 13%nat ∧ Forall word_ok (d_addrs d).

Lemma get_put_dinode d : d_ok d → get_dinode (put_dinode d) = d ∧ length (put_dinode d) = 64%nat.
Proof.
  intros (Ht & Hma & Hmi & Hn & Hs & Hl & Hw). split.
  - unfold get_dinode, put_dinode. rewrite <-Hl. drop_fields.
    rewrite !take_le by (simpl; lia). destruct d. simpl in *. f_equal.
    rewrite <-(app_nil_r (encode_words _)). by apply decode_encode_words.
  - unfold put_dinode. by rewrite !length_app, !length_le_bytes, length_encode_words, Hl.
Qed.

Lemma decode_get_dinode dev num x : decode_dinode dev num x = kernel_inode dev num (get_dinode x).
Proof. done. Qed.

(** The inode table fits: the block of the inode is on the disk. *)
Definition inode_on_disk (f : FsImg) (num : Z) : Prop :=
  0 ≤ num ∧ 0 ≤ inodestart (sb f) ∧ num / IPB + inodestart (sb f) < u32_mod ∧
  on_disk f (num / IPB + inodestart (sb f)).

Lemma rinode_ok f num :
  full_img f → inode_on_disk f num →
  rinode true f num =
    Done (get_dinode (take 64 (drop (dinode_off num) (sector f (num / IPB + inodestart (sb f)))))).
Proof.
  intros Hf (H0 & H1 & H2 & H3). unfold rinode, iblock. rewrite checked_add32_ok by done. cbn [mbind outcome_bind].
  destruct (rsect_ok f _ Hf H3) as [-> _]. done.
Qed.

Lemma winode_ok f num d :
  full_img f → inode_on_disk f num → d_ok d →
  ∃ f', winode true f num d = Done f' ∧ full_img f' ∧ sb f' = sb f ∧ freeinode f' = freeinode f ∧
    freeblock f' = freeblock f ∧ length (img f') = length (img f) ∧
    ∀ c, 0 ≤ c → sector f' c = if decide (c = num / IPB + inodestart (sb f)) then
      splice (sector f c) (dinode_off num) (put_dinode d) else sector f c.
Proof.
  intros Hf (H0 & H1 & H2 & H3) Hd. unfold winode, iblock. rewrite checked_add32_ok by done. cbn [mbind outcome_bind].
  destruct (rsect_ok f _ Hf H3) as [-> Hl]. cbn [mbind outcome_bind assert_aligned].
  destruct (get_put_dinode d Hd) as [_ Hl2]. pose proof (dinode_off_range num H0).
  destruct (wsect_ok f (num / IPB + inodestart (sb f))
    (splice (sector f (num / IPB + inodestart (sb f))) (dinode_off num) (put_dinode d)))
    as (f' & Hw & Hf' & Hsb & Hfi & Hfb & Hlen & Hs); [done|done|by rewrite length_splice; lia|].
  exists f'. split_and!; try done. intros c Hc. rewrite Hs by done. by case_decide as E; [rewrite <-E|].
Qed.

Lemma inode_apart f f' num num' d :
  inode_on_disk f num → 0 ≤ num' → num' ≠ num → length (put_dinode d) = 64%nat →
  (∀ c, 0 ≤ c → length (sector f c) = 1024%nat) →
  (∀ c, 0 ≤ c → sector f' c = if decide (c = num / IPB + inodestart (sb f)) then
      splice (sector f c) (dinode_off num) (put_dinode d) else sector f c) →
  let b := num' / IPB + inodestart (sb f) in
  take 64 (drop (dinode_off num') (sector f' b)) = take 64 (drop (dinode_off num') (sector f b)).
Proof.
  intros (H0 & H1 & _) H0' Hne Hl Hfull Hs b.
  assert (0 ≤ num' / IPB) by (apply Z.div_pos; [lia|done]). rewrite Hs by lia. case_decide as Eb; [|done].
  pose proof (dinode_off_range num H0).
  apply splice_other; [rewrite Hl, Hfull; lia|]. rewrite Hl.
  destruct (dinode_off_apart num num') as [?|?]; [lia|lia|unfold b in Eb; lia|done|lia|lia].
Qed.

Lemma sector_length f c : full_img f → length (sector f c) = 1024%nat.
Proof.
  intros Hf. unfold sector. destruct (img f !! Z.to_nat c) as [x|] eqn:E; [|done].
  exact (proj1 (Forall_lookup _ _) Hf _ _ E).
Qed.

(** What was stored is read back. *)
Lemma winode_read f num d f' :
  full_img f → inode_on_disk f num → d_ok d → winode true f num d = Done f' →
  rinode true f' num = Done d ∧
  take 64 (drop (dinode_off num) (sector f' (num / IPB + inodestart (sb f)))) = put_dinode d ∧
  sb f' = sb f ∧ full_img f' ∧ (∀ n, inode_on_disk f n → inode_on_disk f' n).
Proof.
  intros Hf Hnum Hd Hrun. destruct (winode_ok f num d Hf Hnum Hd) as (f1 & Hw & Hf' & Hsb & _ & _ & Hlen & Hs).
  rewrite Hrun in Hw. injection Hw as <-.
  destruct (get_put_dinode d Hd) as [Hgp Hl]. pose proof Hnum as (H0 & H1 & H2 & H3).
  pose proof (dinode_off_range num H0).
  assert (Hon : ∀ n, inode_on_disk f n → inode_on_disk f' n)
    by (intros n; unfold inode_on_disk, on_disk; by rewrite Hsb, Hlen).
  assert (Hread : take 64 (drop (dinode_off num) (sector f' (num / IPB + inodestart (sb f)))) = put_dinode d).
  { unfold on_disk in H3. rewrite Hs, decide_True by lia. apply splice_same; [|done].
    rewrite Hl, sector_length by done. lia. }
  split_and!; try done. rewrite rinode_ok by auto. by rewrite Hsb, Hread, Hgp.
Qed.

(** The builder and the kernel agree on inodes: an inode that [winode] of
    the builder stored is what the builder's [rinode] and the kernel's lock of
    the inode read, field for field, although the two have different types for
    it; and no other inode of the image has changed. *)
Theorem mkfs_inode_kernel f num d
  (Hf : full_img f) (Hnum : inode_on_disk f num) (Hd : d_ok d) (Ht : itype_of (d_type d) ≠ TNone) :
  ∃ f', winode true f num d = Done f' ∧ full_img f' ∧ rinode true f' num = Done d ∧
    (∀ dev c, ivalid c = false → ilock (sb f) (kernel_fs f') dev num c = Done (kernel_inode dev num d)) ∧
    (∀ num', inode_on_disk f num' → num' ≠ num → rinode true f' num' = rinode true f num').
Proof.
  destruct (winode_ok f num d Hf Hnum Hd) as (f' & Hw & _ & _ & _ & _ & _ & Hs).
  destruct (winode_read f num d f' Hf Hnum Hd Hw) as (Hr & Hread & Hsb & Hf' & Hon).
  destruct (get_put_dinode d Hd) as [Hgp Hl]. exists f'. split_and!; [done|done|done| |].
  - intros dev c Hc. unfold ilock. rewrite Hc. unfold iblock. rewrite checked_add32_ok by apply Hnum.
    cbn [mbind outcome_bind blocks kernel_fs]. change (Z.to_nat SIZEOF_DINODE) with 64%nat.
    rewrite decode_get_dinode, Hread, Hgp. by rewrite decide_False.
  - intros num' Hn' Hne. rewrite !rinode_ok by auto. rewrite Hsb. do 2 f_equal.
    apply (inode_apart f f' num num' d); try done; [apply Hn'|]. intros. by apply sector_length.
Qed.

(** ** The bitmap *)
Definition bit (buf : list Z) (i : Z) : bool := Z.testbit (default 0 (buf !! Z.to_nat (i / 8))) (i `mod` 8).

Lemma set_bits_spec k : ∀ i buf, 0 ≤ i → i + Z.of_nat k ≤ 8 * Z.of_nat (length buf) →
  length (set_bits k i buf) = length buf ∧
  ∀ j, 0 ≤ j < 8 * Z.of_nat (length buf) →
    bit (set_bits k i buf) j = bool_decide (i ≤ j < i + Z.of_nat k) || bit buf j.
Proof.
  induction k as [|k IH]; intros i buf Hi Hk; cbn [set_bits].
  - split; [done|]. intros j Hj. by rewrite bool_decide_false by lia.
  - assert (Hlt : (Z.to_nat (i / 8) < length buf)%nat) by zdm.
    destruct (lookup_lt_is_Some_2 buf _ Hlt) as (x & Hx). rewrite Hx.
    destruct (IH (i + 1) (<[Z.to_nat (i / 8) := Z.lor x (Z.shiftl 1 (i `mod` 8))]> buf)) as [Hl Hb];
      [lia|rewrite length_insert; lia|]. rewrite length_insert in Hl, Hb. split; [done|].
    intros j Hj. rewrite Hb by done.
    assert (Hbit : bit (<[Z.to_nat (i / 8) := Z.lor x (Z.shiftl 1 (i `mod` 8))]> buf) j = bool_decide (i = j) || bit buf j).
    { unfold bit. rewrite lookup_upd by done. case_decide as E; cbn [from_option id].
      - assert (j / 8 = i / 8) by zdm. rewrite E, Hx. cbn [from_option id].
        rewrite testbit_lor_set by zdm. rewrite orb_comm. f_equal.
        apply bool_decide_ext. zdm.
      - rewrite (bool_decide_false (i = j)) by (intros ->; done). done. }
    rewrite Hbit. destruct (decide (i = j)) as [->|Hne].
    + rewrite (bool_decide_true (j = j)) by done. rewrite (bool_decide_true (_ ≤ _ < j + Z.of_nat (S k))) by lia. by rewrite orb_true_r.
    + rewrite (bool_decide_false (i = j)) by done. simpl. f_equal. apply bool_decide_ext. lia.
Qed.

(** The free map: [balloc] of the builder with [used] blocks writes a block
    in which exactly the bits of the blocks below [used] are set, where the
    kernel's superblock says the map is, and changes no other sector. *)
Theorem mkfs_bitmap f used
  (Hf : full_img f) (Hb : on_disk f (bmapstart (sb f))) (Hu : 0 ≤ used < 8192) :
  ∃ f', mkfs_balloc f used = Done f' ∧ full_img f' ∧
    (∀ b, 0 ≤ b < 8192 → bit (blocks (kernel_fs f') (bmapstart (sb f))) b = bool_decide (b < used)) ∧
    ∀ c, 0 ≤ c → c ≠ bmapstart (sb f) → sector f' c = sector f c.
Proof.
  destruct (set_bits_spec (Z.to_nat used) 0 ZEROS) as [Hl Hbits]; [lia|unfold ZEROS; rewrite length_replicate; lia|].
  destruct (wsect_ok f (bmapstart (sb f)) (set_bits (Z.to_nat used) 0 ZEROS)) as (f' & Hw & Hf' & _ & _ & _ & _ & Hs);
    [done|done|by rewrite Hl|].
  exists f'. unfold mkfs_balloc. rewrite decide_True by lia. split_and!; [done|done| |].
  - intros b Hb0. cbn [blocks kernel_fs]. unfold on_disk in Hb. rewrite Hs, decide_True by lia.
    rewrite Hbits by (unfold ZEROS; rewrite length_replicate; lia).
    assert (bit ZEROS b = false) as ->.
    { unfold bit, ZEROS. destruct (replicate 1024 0 !! Z.to_nat (b / 8)) as [z|] eqn:E; simpl.
      - apply lookup_replicate in E as [-> _]. apply Z.testbit_0_l.
      - apply Z.testbit_0_l. }
    rewrite orb_false_r. apply bool_decide_ext. lia.
  - intros c Hc Hne. by rewrite Hs, decide_False.
Qed.

(** ** Words of the indirect block *)
Lemma decode_words_lookup k : ∀ x (j : nat), (j < k)%nat → decode_words k x !! j = Some (get_word x (Z.of_nat j)).
Proof.
  induction k as [|k IH]; intros x j Hj; [lia|]. cbn [decode_words]. destruct j as [|j]; [done|].
  cbn [lookup list_lookup]. rewrite IH by lia. unfold get_word. rewrite drop_drop. do 4 f_equal. lia.
Qed.

Lemma get_word_encode ws j w : ws !! j = Some w → word_ok w → get_word (encode_words ws) (Z.of_nat j) = w.
Proof.
  revert j. induction ws as [|v ws IH]; intros j Hj Hw; [done|]. unfold encode_words. cbn [mbind list_bind].
  fold (encode_words ws). unfold get_word. destruct j as [|j].
  - injection Hj as ->. change (drop (Z.to_nat (4 * Z.of_nat 0))) with (@drop Z 0). rewrite drop_0. apply take_le. unfold word_ok in Hw. simpl. lia.
  - replace (Z.to_nat (4 * Z.of_nat (S j))) with (4 + Z.to_nat (4 * Z.of_nat j))%nat by lia.
    rewrite drop_le. by apply IH.
Qed.

Lemma get_word_zeros j : 0 ≤ j < 256 → get_word ZEROS j = 0.
Proof.
  intros Hj. unfold get_word, ZEROS. rewrite drop_replicate, take_replicate.
  replace (Nat.min 4 (1024 - Z.to_nat (4 * j))) with 4%nat by lia. done.
Qed.

(** ** A file of the image *)
Definition block_at (f : FsImg) (d : DInode) (bn : Z) : option Z :=
  block_of (kernel_fs f) (kernel_inode 1 0 d) bn.
Definition byte_at (f : FsImg) (d : DInode) (i : Z) : option Z :=
  match block_at f d (i / 1024) with Some b => sector f b !! Z.to_nat (i `mod` 1024) | None => None end.

Definition ind (d : DInode) : Z := default 0 (d_addrs d !! 12%nat).
Definition ineed (d : DInode) : Z := if decide (ind d = 0) then 1 else 0.

(** The blocks of the file are its own, taken from those below [freeblock];
    the sectors from there on are still zero. *)
Record file_ok (f : FsImg) (d : DInode) : Prop := {
  fo_full : full_img f;
  fo_size : Z.of_nat (length (img f)) < u32_mod;
  fo_addrs : length (d_addrs d) = 13%nat;
  fo_word : Forall word_ok (d_addrs d);
  fo_ind : ind d ≠ 0 → NMETA ≤ ind d < freeblock f ∧ ∀ j, 0 ≤ j < 256 → word_ok (get_word (sector f (ind d)) j);
  fo_used : ∀ bn b, 0 ≤ bn → block_at f d bn = Some b → NMETA ≤ b < freeblock f ∧ b ≠ ind d;
  fo_inj : ∀ bn bn' b, 0 ≤ bn → 0 ≤ bn' → block_at f d bn = Some b → block_at f d bn' = Some b → bn = bn';
  fo_fresh : ∀ c, freeblock f ≤ c → sector f c = ZEROS;
  fo_free : NMETA ≤ freeblock f;
}.

Definition own (f : FsImg) (d : DInode) (c : Z) : Prop := (c = ind d ∧ ind d ≠ 0) ∨ ∃ bn, 0 ≤ bn ∧ block_at f d bn = Some c.

Lemma block_at_direct f d bn : bn < 12 →
  block_at f d bn = match d_addrs d !! Z.to_nat bn with Some a => if decide (a = 0) then None else Some a | None => None end.
Proof. intros H. unfold block_at, block_of. by rewrite decide_True by (unfold NDIRECT; lia). Qed.

Lemma block_at_indirect f d bn : 12 ≤ bn < 268 →
  block_at f d bn = if decide (ind d = 0) then None else
    if decide (get_word (sector f (ind d)) (bn - 12) = 0) then None else Some (get_word (sector f (ind d)) (bn - 12)).
Proof.
  intros H. unfold block_at, block_of. rewrite decide_False, decide_True by (unfold MAXFILE, NDIRECT; change NINDIRECT with 256; lia).
  unfold ind. cbn [addrs kernel_inode blocks kernel_fs]. change (Z.to_nat NDIRECT) with 12%nat.
  by destruct (d_addrs d !! 12%nat).
Qed.

Lemma block_at_high f d bn : 268 ≤ bn → block_at f d bn = None.
Proof.
  intros H. unfold block_at, block_of. by rewrite !decide_False by (unfold MAXFILE, NDIRECT; change NINDIRECT with 256; lia).
Qed.

(** What a step that gives a block to the file promises. *)
Record grown (f f1 : FsImg) (d d1 : DInode) : Prop := {
  gr_ok : file_ok f1 d1;
  gr_keep : ∀ bn b, 0 ≤ bn → block_at f d bn = Some b → block_at f1 d1 bn = Some b;
  gr_len : length (img f1) = length (img f);
  gr_rest : sb f1 = sb f ∧ freeinode f1 = freeinode f;
  gr_meta : d_type d1 = d_type d ∧ d_major d1 = d_major d ∧ d_minor d1 = d_minor d ∧ d_nlink d1 = d_nlink d ∧ d_size d1 = d_size d;
  gr_frame : ∀ c, 0 ≤ c < freeblock f → ¬ own f d c → sector f1 c = sector f c;
  gr_own : ∀ c, own f1 d1 c → own f d c ∨ freeblock f ≤ c;
  gr_mono : freeblock f ≤ freeblock f1;
}.

(** The data blocks have kept their contents. *)
Definition same_data (f f1 : FsImg) (d : DInode) : Prop :=
  ∀ bn b, 0 ≤ bn → block_at f d bn = Some b → sector f1 b = sector f b.

Definition with_addr (d : DInode) (i : nat) (v : Z) : DInode :=
  mkD (d_type d) (d_major d) (d_minor d) (d_nlink d) (d_size d) (<[i := v]> (d_addrs d)).

Lemma NMETA_val : NMETA = 46.
Proof. done. Qed.

Lemma grown_refl f d : file_ok f d → grown f f d d.
Proof. intros H. split; auto; lia. Qed.

Lemma grown_one f f1 d d1 bn :
  file_ok f d → full_img f1 → length (img f1) = length (img f) → freeblock f1 = freeblock f + 1 →
  sb f1 = sb f → freeinode f1 = freeinode f →
  d_type d1 = d_type d ∧ d_major d1 = d_major d ∧ d_minor d1 = d_minor d ∧ d_nlink d1 = d_nlink d ∧ d_size d1 = d_size d →
  length (d_addrs d1) = 13%nat → Forall word_ok (d_addrs d1) → ind d1 = ind d →
  0 ≤ bn → block_at f d bn = None →
  (∀ c, 0 ≤ c → block_at f1 d1 c = if decide (c = bn) then Some (freeblock f) else block_at f d c) →
  (∀ c, 0 ≤ c → c ≠ ind d ∨ ind d = 0 → sector f1 c = sector f c) →
  (ind d ≠ 0 → ∀ j, 0 ≤ j < 256 → word_ok (get_word (sector f1 (ind d)) j)) →
  grown f f1 d d1 ∧ same_data f f1 d.
Proof.
  intros [Ofull Osize Oaddr Oword Oind Oused Oinj Ofresh Ofree] Hfull Hlen Hfb Hsb Hfi Hmeta Ha Hw Hind Hbn Hnone Hb Hsec Hiw.
  rewrite NMETA_val in *.
  assert (Hused : ∀ c b, 0 ≤ c → block_at f1 d1 c = Some b → NMETA ≤ b < freeblock f1 ∧ b ≠ ind d1).
  { intros c b Hc Hcb. rewrite Hb in Hcb by done. rewrite NMETA_val, Hfb, Hind. case_decide.
    - simplify_eq. split; [lia|]. intros E. destruct (decide (ind d = 0)) as [|Hz]; [lia|]. destruct (Oind Hz). lia.
    - destruct (Oused c b Hc Hcb). split; [lia|done]. }
  split; [|intros c b Hc Hcb; destruct (Oused c b Hc Hcb); apply Hsec; [lia|auto]].
  split; [split| | | | | | |].
  - done.
  - by rewrite Hlen.
  - done.
  - done.
  - rewrite Hind, Hfb, NMETA_val. intros Hz. destruct (Oind Hz). split; [lia|auto].
  - done.
  - intros c c' b Hc Hc'. rewrite !Hb by done. repeat case_decide; subst; intros E E'; try done; simplify_eq.
    + destruct (Oused _ _ Hc' E'). lia.
    + destruct (Oused _ _ Hc E). lia.
    + by apply (Oinj c c' b).
  - intros c Hc. rewrite Hfb in Hc. rewrite Hsec; [apply Ofresh; lia|lia|].
    destruct (decide (ind d = 0)) as [|Hz]; [auto|]. destruct (Oind Hz). lia.
  - rewrite NMETA_val, Hfb. lia.
  - intros c b Hc Hcb. rewrite Hb by done. case_decide; [congruence|done].
  - done.
  - done.
  - done.
  - intros c Hc Hno. apply Hsec; [lia|]. destruct (decide (ind d = 0)); [auto|]. left. intros ->. apply Hno. by left.
  - intros c [[-> Hz]|(c0 & Hc0 & E)].
    + left. left. by rewrite Hind in *.
    + rewrite Hb in E by done. case_decide; [simplify_eq; right; lia|]. left. right. eauto.
  - lia.
Qed.

Lemma fill_direct f d bn :
  file_ok f d → 0 ≤ bn < 12 → d_addrs d !! Z.to_nat bn = Some 0 → freeblock f < Z.of_nat (length (img f)) →
  let d1 := with_addr d (Z.to_nat bn) (freeblock f) in
  grown f (take_block f) d d1 ∧ block_at (take_block f) d1 bn = Some (freeblock f) ∧ ind d1 = ind d.
Proof.
  intros Hok Hbn H0 Hfree d1. pose proof Hok as [Ofull Osize Oaddr Oword Oind Oused Oinj Ofresh Ofree].
  rewrite NMETA_val in *.
  assert (Hind : ind d1 = ind d) by (unfold ind, d1, with_addr; simpl; by rewrite list_lookup_insert_ne by lia).
  assert (Hb : ∀ c, 0 ≤ c → block_at (take_block f) d1 c = if decide (c = bn) then Some (freeblock f) else block_at f d c).
  { intros c Hc. destruct (decide (c < 12)).
    - rewrite !block_at_direct by done. unfold d1, with_addr. cbn [d_addrs]. rewrite lookup_upd by lia.
      destruct (decide (c = bn)) as [->|Hne].
      + rewrite decide_True by done. by rewrite decide_False by lia.
      + by rewrite decide_False by lia.
    - rewrite (decide_False (P := c = bn)) by lia. destruct (decide (c < 268)).
      + rewrite !block_at_indirect by lia. by rewrite Hind.
      + by rewrite !block_at_high by lia. }
  split_and!; [|by rewrite Hb, decide_True by lia|done].
  apply (grown_one _ _ _ _ bn); try done; try lia.
  - unfold d1. simpl. by rewrite length_insert.
  - unfold d1. simpl. apply Forall_insert; [done|]. unfold word_ok. lia.
  - rewrite block_at_direct by lia. by rewrite H0.
  - intros Hz. apply (Oind Hz).
Qed.

Lemma fill_ind f d :
  file_ok f d → ind d = 0 → freeblock f < Z.of_nat (length (img f)) →
  let d1 := with_addr d 12 (freeblock f) in
  grown f (take_block f) d d1 ∧ ind d1 = freeblock f.
Proof.
  intros Hok H0 Hfree d1. pose proof Hok as [Ofull Osize Oaddr Oword Oind Oused Oinj Ofresh Ofree].
  rewrite NMETA_val in *.
  assert (Hind : ind d1 = freeblock f).
  { unfold ind, d1, with_addr. simpl. by rewrite list_lookup_insert_eq by lia. }
  assert (Hb : ∀ c, 0 ≤ c → block_at (take_block f) d1 c = block_at f d c).
  { intros c Hc. destruct (decide (c < 12)).
    - rewrite !block_at_direct by done. unfold d1, with_addr. cbn [d_addrs]. by rewrite list_lookup_insert_ne by lia.
    - destruct (decide (c < 268)); [|by rewrite !block_at_high by lia].
      rewrite !block_at_indirect by lia. rewrite Hind, H0. rewrite (decide_True (P := 0 = 0)) by done.
      rewrite decide_False by lia. change (sector (take_block f)) with (sector f).
      rewrite Ofresh by lia. rewrite get_word_zeros by lia. by rewrite decide_True. }
  split; [|done]. split; [split| | | | | | |]; change (sector (take_block f)) with (sector f); cbn [take_block freeblock img].
  - done.
  - done.
  - unfold d1. simpl. by rewrite length_insert.
  - unfold d1. simpl. apply Forall_insert; [done|]. unfold word_ok. lia.
  - intros _. rewrite Hind, NMETA_val. split; [lia|]. intros j Hj. rewrite Ofresh by lia.
    rewrite get_word_zeros by done. unfold word_ok. lia.
  - intros c b Hc Hcb. rewrite Hb in Hcb by done. destruct (Oused c b Hc Hcb). rewrite NMETA_val, Hind. lia.
  - intros c c' b Hc Hc'. rewrite !Hb by done. by apply Oinj.
  - intros c Hc. apply Ofresh. lia.
  - rewrite NMETA_val. lia.
  - intros c b Hc Hcb. by rewrite Hb.
  - done.
  - done.
  - done.
  - done.
  - intros c [[-> _]|(c0 & Hc0 & E)]; [right; lia|]. left. right. exists c0. by rewrite Hb in E.
  - lia.
Qed.

Lemma fill_entry f d bn :
  file_ok f d → ind d ≠ 0 → 12 ≤ bn < 268 → get_word (sector f (ind d)) (bn - 12) = 0 →
  freeblock f < Z.of_nat (length (img f)) →
  ∃ f2, wsect (take_block f) (ind d)
      (encode_words (<[Z.to_nat (bn - 12) := freeblock f]> (decode_words 256 (sector f (ind d))))) = Done f2 ∧
    grown f f2 d d ∧ same_data f f2 d ∧ block_at f2 d bn = Some (freeblock f) ∧ freeblock f2 = freeblock f + 1.
Proof.
  intros Hok Hz Hbn H0 Hfree. pose proof Hok as [Ofull Osize Oaddr Oword Oind Oused Oinj Ofresh Ofree].
  rewrite NMETA_val in *. destruct (Oind Hz) as [Hrange Hwords].
  set (ws := <[Z.to_nat (bn - 12) := freeblock f]> (decode_words 256 (sector f (ind d)))).
  assert (Hlw : length ws = 256%nat) by (unfold ws; by rewrite length_insert, length_decode_words).
  destruct (wsect_ok (take_block f) (ind d) (encode_words ws)) as (f2 & Hw & Hf2 & Hsb & Hfi & Hfb & Hlen & Hs);
    [done|unfold on_disk; simpl; lia|by rewrite length_encode_words, Hlw|].
  change (sector (take_block f)) with (sector f) in Hs. cbn [take_block freeblock sb img freeinode] in *.
  assert (Hgw : ∀ j, 0 ≤ j < 256 → get_word (sector f2 (ind d)) j =
            if decide (j = bn - 12) then freeblock f else get_word (sector f (ind d)) j).
  { intros j Hj. rewrite Hs, decide_True by lia. rewrite <-(Z2Nat.id j) at 1 by lia.
    assert (Hl : ws !! Z.to_nat j = Some (if decide (j = bn - 12) then freeblock f else get_word (sector f (ind d)) j)).
    { unfold ws. rewrite lookup_upd by (rewrite length_decode_words; lia).
      destruct (decide (j = bn - 12)) as [->|]; [by rewrite decide_True|]. rewrite decide_False by lia.
      rewrite decode_words_lookup by lia. by rewrite Z2Nat.id by lia. }
    rewrite (get_word_encode _ _ _ Hl); [done|]. case_decide; [unfold word_ok; lia|by apply Hwords]. }
  assert (Hnone : block_at f d bn = None)
    by (rewrite block_at_indirect by done; rewrite H0; by repeat case_decide).
  assert (Hb : ∀ c, 0 ≤ c → block_at f2 d c = if decide (c = bn) then Some (freeblock f) else block_at f d c).
  { intros c Hc. destruct (decide (c < 12)).
    - rewrite !block_at_direct by done. by rewrite (decide_False (P := c = bn)) by lia.
    - destruct (decide (c < 268)).
      + rewrite !block_at_indirect by lia. rewrite Hgw by lia. rewrite !(decide_False (P := ind d = 0)) by done.
        destruct (decide (c = bn)) as [->|].
        * rewrite !(decide_True (P := bn - 12 = bn - 12)) by done. by rewrite decide_False by lia.
        * by rewrite !(decide_False (P := c - 12 = bn - 12)) by lia.
      + rewrite !block_at_high by lia. by rewrite decide_False by lia. }
  exists f2. rewrite Hb, decide_True by lia. split; [done|].
  enough (grown f f2 d d ∧ same_data f f2 d) as [? ?] by done.
  apply (grown_one _ _ _ _ bn); try done; try lia.
  - intros c Hc Hne. rewrite Hs by done. rewrite decide_False; [done|]. intros ->. tauto.
  - intros _ j Hj. rewrite Hgw by done. case_decide; [unfold word_ok; lia|by apply Hwords].
Qed.

Lemma grown_trans f1 f2 f3 d1 d2 d3 : grown f1 f2 d1 d2 → grown f2 f3 d2 d3 → grown f1 f3 d1 d3.
Proof.
  intros [A1 A2 A4 A5 A6 A7 A8 A9] [B1 B2 B4 B5 B6 B7 B8 B9]. split; try done.
  - auto.
  - congruence.
  - intuition congruence.
  - intuition congruence.
  - intros c Hc Hno. rewrite B7, A7; [done|done|done|lia|]. intros Ho. destruct (A8 c Ho); [done|lia].
  - intros c Hc. destruct (B8 c Hc) as [Hc'|]; [apply A8 in Hc' as [?|?]; [auto|right; lia]|right; lia].
  - lia.
Qed.

(** The sector for block [bn]: the file owns it, and nothing was lost. *)
Lemma sector_of_ok f d bn :
  file_ok f d → 0 ≤ bn < 268 → freeblock f + ineed d < Z.of_nat (length (img f)) →
  ∃ f1 d1 x, sector_of f d bn = Done (f1, d1, x) ∧ grown f f1 d d1 ∧ same_data f f1 d ∧ block_at f1 d1 bn = Some x ∧
    freeblock f1 + ineed d1 ≤ freeblock f + ineed d + 1.
Proof.
  intros Hok Hbn Hroom. pose proof (fo_addrs _ _ Hok) as Ha. pose proof (fo_size _ _ Hok) as Hsz.
  pose proof (fo_free _ _ Hok) as Hfree. rewrite NMETA_val in Hfree.
  assert (Hneed : 0 ≤ ineed d ≤ 1) by (unfold ineed; case_decide; lia).
  assert (Hu32 : as_u32 (freeblock f) = freeblock f) by (unfold as_u32; rewrite Z.mod_small; lia).
  unfold sector_of. change NDIRECT with 12. destruct (decide (bn < 12)) as [Hlt|Hge].
  - destruct (lookup_lt_is_Some_2 (d_addrs d) (Z.to_nat bn)) as (a & Hl); [lia|].
    rewrite (index_ok _ _ a) by (done || lia). cbn [mbind outcome_bind]. destruct (decide (a = 0)) as [->|Hne].
    + rewrite Hu32. destruct (fill_direct f d bn Hok ltac:(lia) Hl ltac:(lia)) as (Hg & Hb & Hi).
      eexists _, _, _. split; [done|]. split; [exact Hg|]. split; [done|]. split; [exact Hb|].
      unfold ineed. fold (with_addr d (Z.to_nat bn) (freeblock f)). rewrite Hi. simpl. lia.
    + exists f, d, a. split_and!; [done|by apply grown_refl|done| |lia].
      rewrite block_at_direct by done. by rewrite Hl, decide_False.
  - destruct (lookup_lt_is_Some_2 (d_addrs d) 12) as (a & Hl); [lia|].
    assert (Hi : ind d = a) by (unfold ind; by rewrite Hl).
    rewrite (index_ok _ 12 a) by (done || lia). cbn [mbind outcome_bind].
    (* with the indirect block in place *)
    assert (Hind : ∀ f1 d1, file_ok f1 d1 → ind d1 ≠ 0 → freeblock f1 < Z.of_nat (length (img f1)) →
      ∃ f2 x, (buf ← rsect f1 (ind d1);
        e ← index (decode_words 256 buf) (bn - 12);
        if decide (e = 0) then
          f2 ← wsect (take_block f1) (ind d1)
                 (encode_words (<[Z.to_nat (bn - 12) := as_u32 (freeblock f1)]> (decode_words 256 buf)));
          Done (f2, d1, as_u32 (freeblock f1))
        else Done (f1, d1, e)) = Done (f2, d1, x) ∧
        grown f1 f2 d1 d1 ∧ same_data f1 f2 d1 ∧ block_at f2 d1 bn = Some x ∧ freeblock f2 ≤ freeblock f1 + 1).
    { intros f1 d1 Hok1 Hz1 Hf1. destruct (fo_ind _ _ Hok1 Hz1) as [Hr1 _]. rewrite NMETA_val in Hr1.
      pose proof (fo_size _ _ Hok1) as Hsz1.
      destruct (rsect_ok f1 (ind d1)) as [-> _]; [apply Hok1|unfold on_disk; lia|]. cbn [mbind outcome_bind].
      rewrite (index_ok _ _ (get_word (sector f1 (ind d1)) (bn - 12)));
        [|lia|rewrite decode_words_lookup by lia; by rewrite Z2Nat.id by lia].
      cbn [mbind outcome_bind]. case_decide as He.
      - assert (as_u32 (freeblock f1) = freeblock f1) as -> by (unfold as_u32; rewrite Z.mod_small; lia).
        destruct (fill_entry f1 d1 bn Hok1 Hz1 ltac:(lia) He Hf1) as (f2 & -> & Hg & Hsd & Hb & Hfb).
        cbn [mbind outcome_bind]. exists f2, (freeblock f1). split_and!; [done|done|done|done|lia].
      - eexists f1, _. split_and!; [done|by apply grown_refl|done| |lia].
        rewrite block_at_indirect by lia. by rewrite !decide_False. }
    case_decide as Ea.
    + subst a. rewrite Hu32. fold (with_addr d (Z.to_nat 12) (freeblock f)). change (Z.to_nat 12) with 12%nat.
      destruct (fill_ind f d Hok Ea ltac:(lia)) as (Hg1 & Hi1).
      assert (Hn : ineed d = 1) by (unfold ineed; by rewrite decide_True).
      cbn beta iota zeta. destruct (Hind _ _ (gr_ok _ _ _ _ Hg1)) as (f2 & x & Hrun & Hg2 & Hsd & Hb & Hf2);
        [rewrite Hi1; lia|cbn [take_block freeblock img]; lia|].
      rewrite Hi1 in Hrun. exists f2, (with_addr d 12 (freeblock f)), x.
      split_and!; [exact Hrun|by eapply grown_trans| |done|].
      { intros c b Hc Hcb. apply (Hsd c b Hc). by apply (gr_keep _ _ _ _ Hg1). }
      assert (ineed (with_addr d 12 (freeblock f)) = 0) by (unfold ineed; by rewrite decide_False by (rewrite Hi1; lia)).
      cbn [take_block freeblock] in Hf2. lia.
    + cbn beta iota zeta. destruct (Hind f d Hok ltac:(by rewrite Hi) ltac:(lia)) as (f2 & x & Hrun & Hg2 & Hsd & Hb & Hf2).
      rewrite Hi in Hrun. exists f2, d, x. split_and!; [exact Hrun|done|done|done|lia].
Qed.

(** New contents for a data block of the file. *)
Lemma store_data f d bn x y :
  file_ok f d → 0 ≤ bn → block_at f d bn = Some x → freeblock f ≤ Z.of_nat (length (img f)) → length y = 1024%nat →
  ∃ f1, wsect f x y = Done f1 ∧ grown f f1 d d ∧ freeblock f1 = freeblock f ∧
    (∀ c, 0 ≤ c → block_at f1 d c = block_at f d c) ∧
    ∀ c, 0 ≤ c → sector f1 c = if decide (c = x) then y else sector f c.
Proof.
  intros Hok Hbn Hx Hroom Hy. pose proof Hok as [Ofull Osize Oaddr Oword Oind Oused Oinj Ofresh Ofree].
  rewrite NMETA_val in *. destruct (Oused _ _ Hbn Hx) as [Hr Hxi].
  destruct (wsect_ok f x y) as (f1 & Hw & Hf1 & Hsb & Hfi & Hfb & Hlen & Hs); [done|unfold on_disk; lia|done|].
  assert (Hi : ind d ≠ 0 → sector f1 (ind d) = sector f (ind d)).
  { intros Hz. destruct (Oind Hz). by rewrite Hs, decide_False by (done || lia). }
  assert (Hb : ∀ c, 0 ≤ c → block_at f1 d c = block_at f d c).
  { intros c Hc. destruct (decide (c < 12)); [by rewrite !block_at_direct|].
    destruct (decide (c < 268)); [|by rewrite !block_at_high by lia].
    rewrite !block_at_indirect by lia. case_decide as Hz; [done|]. by rewrite Hi. }
  exists f1. split_and!; try done. split; [split| | | | | | |]; rewrite ?Hfb; try done.
  - lia.
  - intros Hz. rewrite Hi by done. by apply Oind.
  - intros c b Hc. rewrite Hb by done. by apply Oused.
  - intros c c' b Hc Hc'. rewrite !Hb by done. by apply Oinj.
  - intros c Hc. rewrite Hs, decide_False by lia. by apply Ofresh.
  - intros c b Hc. by rewrite Hb.
  - intros c Hc Hno. rewrite Hs by lia. rewrite decide_False; [done|]. intros ->. apply Hno. right. eauto.
  - intros c [?|(c0 & Hc0 & E)]; [by left; left|]. left. right. exists c0. by rewrite Hb in E.
Qed.

(** The blocks touched by [len] bytes from [off] on. *)
Definition touched (off len : Z) : Z := if decide (len = 0) then 0 else (off + len + 1023) / 1024 - off / 1024.

(** The bytes of the file after [x] was stored at [off]. *)
Definition stored (f f' : FsImg) (d d' : DInode) (off : Z) (x : list Z) : Prop :=
  (∀ i, off ≤ i < off + Z.of_nat (length x) → byte_at f' d' i = x !! Z.to_nat (i - off)) ∧
  (∀ i v, 0 ≤ i → ¬ (off ≤ i < off + Z.of_nat (length x)) → byte_at f d i = Some v → byte_at f' d' i = Some v).

Lemma stored_app f f1 f2 d d1 d2 off x y :
  0 ≤ off → stored f f1 d d1 off x → stored f1 f2 d1 d2 (off + Z.of_nat (length x)) y → stored f f2 d d2 off (x ++ y).
Proof.
  intros Hoff [A1 A2] [B1 B2]. split; rewrite length_app, Nat2Z.inj_add.
  - intros i Hi. destruct (decide (i < off + Z.of_nat (length x))).
    + rewrite lookup_app_l by lia. destruct (lookup_lt_is_Some_2 x (Z.to_nat (i - off))) as (v & Hv); [lia|].
      rewrite Hv. apply B2; [lia|lia|]. by rewrite A1 by lia.
    + rewrite B1 by lia. rewrite lookup_app_r by lia. f_equal. lia.
  - intros i v Hi Hn Hv. apply B2; [done|lia|]. apply A2; [done|lia|done].
Qed.

(** One round: the part of the data that fits in the block of [off]. *)
Lemma round_ok f d off x :
  file_ok f d → 0 ≤ off → off / 1024 < 268 → (0 < length x)%nat →
  off + Z.of_nat (length x) ≤ (off / 1024 + 1) * 1024 →
  freeblock f + ineed d < Z.of_nat (length (img f)) →
  ∃ f1 d1 s f2, sector_of f d (off / 1024) = Done (f1, d1, s) ∧
    rsect f1 s = Done (sector f1 s) ∧
    wsect f1 s (splice (sector f1 s) (Z.to_nat (off - off / 1024 * 1024)) x) = Done f2 ∧
    grown f f2 d d1 ∧ freeblock f2 + ineed d1 ≤ freeblock f + ineed d + 1 ∧ stored f f2 d d1 off x.
Proof.
  intros Hok Hoff Hmax Hx Hfit Hroom. set (bn := off / 1024) in *.
  assert (Hbn : 0 ≤ bn) by (apply Z.div_pos; lia).
  destruct (sector_of_ok f d bn Hok ltac:(lia) Hroom) as (f1 & d1 & s & Hrun & Hg1 & Hsd & Hb & Hfb1).
  pose proof (gr_ok _ _ _ _ Hg1) as Hok1. destruct (fo_used _ _ Hok1 _ _ Hbn Hb) as [Hs Hsi]. rewrite NMETA_val in Hs.
  assert (Hneed : 0 ≤ ineed d1 ≤ 1) by (unfold ineed; case_decide; lia).
  pose proof (gr_len _ _ _ _ Hg1) as Hlen1.
  destruct (rsect_ok f1 s) as [Hrd Hl]; [apply Hok1|unfold on_disk; lia|].
  assert (Hoffb : off = bn * 1024 + off `mod` 1024 ∧ 0 ≤ off `mod` 1024 < 1024) by (unfold bn; zdm).
  set (o := Z.to_nat (off - bn * 1024)).
  assert (Ho : (o + length x ≤ length (sector f1 s))%nat) by (rewrite Hl; unfold o; lia).
  destruct (store_data f1 d1 bn s (splice (sector f1 s) o x)) as (f2 & Hw & Hg2 & Hfb2 & Hba & Hsec);
    [done|done|done|lia|by rewrite length_splice|].
  exists f1, d1, s, f2. split_and!; [done|done|done|by eapply grown_trans|lia|split].
  - intros i Hi. assert (Hib : i / 1024 = bn) by (unfold bn; zdm).
    unfold byte_at. rewrite Hib, Hba, Hb by done. rewrite Hsec, decide_True by lia.
    replace (Z.to_nat (i `mod` 1024)) with (o + Z.to_nat (i - off))%nat by (unfold o, bn in *; zdm).
    unfold splice. rewrite lookup_app_r by (rewrite length_take; lia). rewrite length_take, Nat.min_l by lia.
    rewrite lookup_app_l by lia. f_equal. lia.
  - intros i v Hi Hn Hv. unfold byte_at in *.
    assert (Hi0 : 0 ≤ i / 1024) by (apply Z.div_pos; lia).
    destruct (block_at f d (i / 1024)) as [c|] eqn:Ec; [|done].
    pose proof (gr_keep _ _ _ _ Hg1 _ _ Hi0 Ec) as Ec1. rewrite Hba, Ec1 by done.
    destruct (fo_used _ _ Hok1 _ _ Hi0 Ec1) as [Hcr _]. rewrite NMETA_val in Hcr. rewrite Hsec by lia.
    rewrite <-(Hsd _ _ Hi0 Ec) in Hv. case_decide as Ecs; [|done]. subst c.
    assert (Hib : i / 1024 = bn) by (by apply (fo_inj _ _ Hok1 _ _ s)).
    assert (Him : i = bn * 1024 + i `mod` 1024 ∧ 0 ≤ i `mod` 1024 < 1024) by (rewrite <-Hib; zdm).
    unfold splice. destruct (decide (i < off)).
    + rewrite lookup_app_l by (rewrite length_take; unfold o; lia). by rewrite lookup_take_lt by (unfold o; lia).
    + rewrite app_assoc, lookup_app_r by (rewrite length_app, length_take; unfold o; lia).
      rewrite length_app, length_take, Nat.min_l by lia. rewrite lookup_drop, <-Hv. f_equal. unfold o. lia.
Qed.

Lemma iappend_loop_S k f d data off : data ≠ [] →
  iappend_loop (S k) f d data off =
    let fbn := off / 1024 in
    if decide (fbn < MAXFILE) then
      '(f1, din1, x) ← sector_of f d fbn;
      let n1 := Z.min (Z.of_nat (length data)) ((fbn + 1) * 1024 - off) in
      buf ← rsect f1 x;
      f2 ← wsect f1 x (splice buf (Z.to_nat (off - fbn * 1024)) (take (Z.to_nat n1) data));
      iappend_loop k f2 din1 (drop (Z.to_nat n1) data) (off + n1)
    else Panic "assertion failed: fbn < MAXFILE".
Proof. by destruct data. Qed.

Lemma iappend_loop_ok k : ∀ f d data off,
  file_ok f d → (length data ≤ k)%nat → 0 ≤ off → off + Z.of_nat (length data) ≤ 268 * 1024 →
  freeblock f + ineed d + touched off (Z.of_nat (length data)) ≤ Z.of_nat (length (img f)) →
  ∃ f' d', iappend_loop k f d data off = Done (f', d', off + Z.of_nat (length data)) ∧
    grown f f' d d' ∧ stored f f' d d' off data.
Proof.
  induction k as [|k IH]; intros f d data off Hok Hk Hoff Hmax Hroom.
  { destruct data; [|simpl in Hk; lia]. exists f, d. cbn. rewrite Z.add_0_r.
    split_and!; [done|by apply grown_refl|split; [simpl; lia|auto]]. }
  destruct data as [|c data].
  { exists f, d. cbn. rewrite Z.add_0_r. split_and!; [done|by apply grown_refl|split; [simpl; lia|auto]]. }
  remember (c :: data) as s eqn:Es. assert (Hlen : (0 < length s)%nat) by (subst; simpl; lia).
  rewrite iappend_loop_S by (by subst). cbn zeta. change MAXFILE with 268. unfold touched in *.
  rewrite decide_False in Hroom by lia. rewrite decide_True by zdm. set (n1 := Z.min (Z.of_nat (length s)) ((off / 1024 + 1) * 1024 - off)).
  assert (Hn1 : 0 < n1 ≤ Z.of_nat (length s) ∧ off + n1 ≤ (off / 1024 + 1) * 1024) by (unfold n1; zdm).
  assert (Hlt : length (take (Z.to_nat n1) s) = Z.to_nat n1) by (rewrite length_take; lia).
  destruct (round_ok f d off (take (Z.to_nat n1) s)) as (f1 & d1 & x & f2 & -> & Hr & Hw & Hg & Hfb & Hst);
    [done|done|zdm|lia|rewrite Hlt; lia|zdm|].
  cbn [mbind outcome_bind]. rewrite Hr. cbn [mbind outcome_bind]. rewrite Hw. cbn [mbind outcome_bind].
  assert (Hls : length (drop (Z.to_nat n1) s) = (length s - Z.to_nat n1)%nat) by (by rewrite length_drop).
  pose proof (gr_len _ _ _ _ Hg) as Hl2.
  destruct (IH f2 d1 (drop (Z.to_nat n1) s) (off + n1)) as (f' & d' & -> & Hg' & Hst').
  - apply Hg.
  - rewrite Hls. lia.
  - lia.
  - rewrite Hls. lia.
  - rewrite Hls, Hl2. replace (Z.of_nat (length s - Z.to_nat n1)) with (Z.of_nat (length s) - n1) by lia.
    case_decide.
    + zdm.
    + assert (off + n1 = (off / 1024 + 1) * 1024) by (unfold n1 in *; lia). zdm.
  - exists f', d'. split_and!; [f_equal; f_equal; lia|by eapply grown_trans|].
    rewrite <-(take_drop (Z.to_nat n1) s). eapply stored_app; [done|exact Hst|]. rewrite Hlt. by replace (off + Z.of_nat (Z.to_nat n1)) with (off + n1) by lia.
Qed.

(** A file lives above the metadata: sectors below NMETA do not matter to it. *)
Lemma file_meta f f' d d' :
  file_ok f d → full_img f' → length (img f') = length (img f) → freeblock f' = freeblock f →
  d_addrs d' = d_addrs d → (∀ c, NMETA ≤ c → sector f' c = sector f c) →
  file_ok f' d' ∧ (∀ i, 0 ≤ i → byte_at f' d' i = byte_at f d i) ∧ (∀ c, own f' d' c → own f d c).
Proof.
  intros [Ofull Osize Oaddr Oword Oind Oused Oinj Ofresh Ofree] Hf' Hlen Hfb Ha Hs.
  assert (Hi : ind d' = ind d) by (unfold ind; by rewrite Ha).
  assert (Hb : ∀ c, 0 ≤ c → block_at f' d' c = block_at f d c).
  { intros c Hc. destruct (decide (c < 12)); [by rewrite !block_at_direct, Ha|].
    destruct (decide (c < 268)); [|by rewrite !block_at_high by lia].
    rewrite !block_at_indirect by lia. rewrite Hi. case_decide as Hz; [done|]. destruct (Oind Hz).
    by rewrite Hs by lia. }
  split_and!.
  - split; rewrite ?Ha, ?Hi, ?Hlen, ?Hfb; try done.
    + intros Hz. destruct (Oind Hz) as [? Hw]. split; [done|]. by rewrite Hs by lia.
    + intros c b Hc. rewrite Hb by done. by apply Oused.
    + intros c c' b Hc Hc'. rewrite !Hb by done. by apply Oinj.
    + intros c Hc. rewrite Hs by lia. by apply Ofresh.
  - intros i Hi0. unfold byte_at. assert (0 ≤ i / 1024) by (apply Z.div_pos; lia). rewrite Hb by done.
    destruct (block_at f d (i / 1024)) as [b|] eqn:E; [|done]. apply Oused in E as [? _]; [|done]. by rewrite Hs by lia.
  - intros c [[-> Hz]|(c0 & Hc0 & E)]; [left; by rewrite Hi in *|]. right. exists c0. by rewrite Hb in E.
Qed.

(** C24. [iappend] appends: given room in the image and within the largest file
    size, it returns, and in the file that the inode then describes, found
    through the block map of the kernel with its direct and indirect blocks,
    the old bytes are followed by exactly the new ones and the size has grown
    by their number.  The file still owns its blocks alone, and apart from
    them, the inode's block and blocks that were free, no sector of the image
    has changed. *)
Theorem mkfs_append f num d data
  (Hok : file_ok f d) (Hd : d_ok d) (Hnum : inode_on_disk f num)
  (Hmeta : num / IPB + inodestart (sb f) < NMETA) (Hr : rinode true f num = Done d)
  (Hmax : d_size d + Z.of_nat (length data) ≤ 268 * 1024)
  (Hroom : freeblock f + ineed d + touched (d_size d) (Z.of_nat (length data)) ≤ Z.of_nat (length (img f))) :
  ∃ f' d', iappend true f num data = Done f' ∧ rinode true f' num = Done d' ∧ file_ok f' d' ∧
    d_size d' = d_size d + Z.of_nat (length data) ∧
    (∀ i, d_size d ≤ i < d_size d' → byte_at f' d' i = data !! Z.to_nat (i - d_size d)) ∧
    (∀ i v, 0 ≤ i < d_size d → byte_at f d i = Some v → byte_at f' d' i = Some v) ∧
    (∀ c, 0 ≤ c < freeblock f → ¬ own f d c → c ≠ num / IPB + inodestart (sb f) → sector f' c = sector f c).
Proof.
  pose proof Hd as (Ht & Hma & Hmi & Hn & Hs & Hl & Hw).
  destruct (iappend_loop_ok (length data) f d data (d_size d)) as (f1 & d1 & Hrun & Hg & Hst1 & Hst2); try done; try lia.
  destruct (gr_meta _ _ _ _ Hg) as (E1 & E2 & E3 & E4 & E5). destruct (gr_rest _ _ _ _ Hg) as [Hsb _].
  pose proof (gr_ok _ _ _ _ Hg) as Hok1. pose proof (gr_len _ _ _ _ Hg) as Hlen1.
  set (d2 := mkD (d_type d1) (d_major d1) (d_minor d1) (d_nlink d1) (as_u32 (d_size d + Z.of_nat (length data))) (d_addrs d1)).
  assert (Hu : as_u32 (d_size d + Z.of_nat (length data)) = d_size d + Z.of_nat (length data))
    by (unfold as_u32; apply Z.mod_small; lia).
  assert (Hd2 : d_ok d2).
  { unfold d_ok, d2. cbn. rewrite E1, E2, E3, E4, Hu. split_and!; try done; try lia; apply Hok1. }
  assert (Hnum1 : inode_on_disk f1 num) by (unfold inode_on_disk, on_disk in *; by rewrite Hsb, Hlen1).
  destruct (winode_ok f1 num d2) as (f2 & Hwi & Hf2 & Hsb2 & _ & Hfb2 & Hlen2 & Hsec); [apply Hok1|done|done|].
  destruct (winode_read f1 num d2 f2) as (Hrd & _); [apply Hok1|done|done|done|].
  rewrite Hsb in Hsec.
  destruct (file_meta f1 f2 d1 d2 Hok1) as (Hok2 & Hby & _); [done|done|done|done| |].
  { intros c Hc. rewrite NMETA_val in *. rewrite Hsec by lia. by rewrite decide_False by lia. }
  exists f2, d2. unfold iappend. rewrite Hr. cbn [mbind outcome_bind]. rewrite Hrun. cbn [mbind outcome_bind].
  split_and!; [exact Hwi|done|done|exact Hu| | |].
  - intros i Hi. cbn [d2 d_size] in Hi. rewrite Hu in Hi. rewrite Hby by lia. apply Hst1. lia.
  - intros i v Hi Hv. rewrite Hby by lia. apply Hst2; [lia|lia|done].
  - intros c Hc Hno Hne. rewrite Hsec, decide_False by (done || lia). by apply (gr_frame _ _ _ _ Hg).
Qed.

(** ** The whole program *)
Lemma zero_all_ok k : ∀ f, zero_all k (Z.of_nat (length (img f))) f = Done (set_img f (img f ++ replicate k ZEROS)).
Proof.
  induction k as [|k IH]; intros f; [destruct f; cbn; by rewrite app_nil_r|]. cbn [zero_all].
  unfold wsect. rewrite decide_True by done. rewrite Nat2Z.id.
  replace (S (length (img f)) - length (img f))%nat with 1%nat by lia. cbn [replicate mbind outcome_bind].
  rewrite insert_app_r_alt, Nat.sub_diag by lia. cbn [insert list_insert].
  specialize (IH (set_img f (img f ++ [ZEROS]))). cbn [img set_img] in IH.
  rewrite length_app, Nat2Z.inj_add in IH. cbn [length] in IH.
  change (Z.of_nat 1) with 1 in IH. rewrite IH. by rewrite <-app_assoc.
Qed.

Definition root_inode : DInode := mkD 1 0 0 1 0 (replicate 13 0).

Lemma root_inode_ok : d_ok root_inode.
Proof. unfold d_ok, root_inode. cbn [d_type d_major d_minor d_nlink d_size d_addrs]. split_and!; try lia; [done|].
  apply Forall_replicate. unfold word_ok. lia. Qed.

(** The image with the superblock and an empty root directory. *)
Lemma image_formatted :
  ∃ f buf, mkfs_format true = Done (f, buf, ROOTINO) ∧ full_img f ∧ length (img f) = 1000%nat ∧ sb f = super ∧
    freeblock f = NMETA ∧ freeinode f = 2 ∧ decode_super (sector f 1) = super ∧
    rinode true f ROOTINO = Done root_inode ∧ ∀ c, NMETA ≤ c → sector f c = ZEROS.
Proof.
  unfold mkfs_format. pose proof (zero_all_ok (Z.to_nat FSSIZE) (img_new super)) as Hz.
  cbn [img_new img length app] in Hz. change (Z.of_nat 0) with 0 in Hz. rewrite Hz. cbn [mbind outcome_bind assert_aligned].
  set (f0 := set_img (img_new super) (replicate (Z.to_nat FSSIZE) ZEROS)).
  assert (Hf0 : full_img f0) by (apply Forall_replicate; done).
  assert (Hl0 : length (img f0) = 1000%nat) by (cbn [f0 set_img img]; by rewrite length_replicate).
  assert (Hs0 : ∀ c, sector f0 c = ZEROS).
  { intros c. unfold sector. destruct (img f0 !! Z.to_nat c) as [x|] eqn:E; [|done].
    cbn [f0 set_img img] in E. by apply lookup_replicate in E as [-> _]. }
  set (buf := splice ZEROS 0 (encode_super super)).
  assert (Hbuf : length buf = 1024%nat) by (unfold buf; rewrite length_splice; [done|]; unfold encode_super; rewrite length_encode_words; cbn; lia).
  destruct (wsect_ok f0 1 buf) as (f1 & -> & Hf1 & Hsb1 & Hfi1 & Hfb1 & Hl1 & Hs1); [done|unfold on_disk; lia|done|].
  cbn [mbind outcome_bind]. unfold ialloc. rewrite Hfi1. change (as_u32 (freeinode f0)) with ROOTINO.
  set (f2 := mkImg (sb f1) (img f1) (freeinode f0 + 1) (freeblock f1)).
  change (mkD (itype_code TDir) 0 0 1 0 (replicate 13 0)) with root_inode. assert (Hn : inode_on_disk f2 ROOTINO).
  { unfold inode_on_disk, on_disk, f2. cbn [sb img]. rewrite Hsb1, Hl1, Hl0. split_and!; vm_compute; congruence. }
  destruct (winode_ok f2 ROOTINO root_inode) as (f3 & Hw & Hf3 & Hsb3 & Hfi3 & Hfb3 & Hl3 & Hs3);
    [done|done|apply root_inode_ok|].
  destruct (winode_read f2 ROOTINO root_inode f3) as (Hr & _); [done|done|apply root_inode_ok|done|].
  rewrite Hw. cbn [mbind outcome_bind]. rewrite decide_True by done.
  assert (Hb : ROOTINO / IPB + inodestart (sb f2) = 32) by (cbn [f2 sb]; by rewrite Hsb1).
  rewrite Hb in Hs3. change (sector f2) with (sector f1) in Hs3.
  exists f3, buf. split_and!.
  - reflexivity.
  - exact Hf3.
  - rewrite Hl3. cbn [f2 img]. congruence.
  - rewrite Hsb3. exact Hsb1.
  - rewrite Hfb3. exact Hfb1.
  - rewrite Hfi3. reflexivity.
  - rewrite Hs3, decide_False, Hs1, decide_True by lia. vm_compute. reflexivity.
  - exact Hr.
  - intros c Hc. rewrite NMETA_val in Hc. rewrite Hs3, decide_False, Hs1, decide_False by lia. apply Hs0.
Qed.

Lemma root_file f : full_img f → length (img f) = 1000%nat → freeblock f = NMETA →
  (∀ c, NMETA ≤ c → sector f c = ZEROS) → file_ok f root_inode.
Proof.
  intros Hf Hl Hfb Hs.
  assert (Hb : ∀ bn, 0 ≤ bn → block_at f root_inode bn = None).
  { intros bn Hbn. destruct (decide (bn < 12)).
    - rewrite block_at_direct by done. cbn [root_inode d_addrs].
      destruct (replicate 13 0 !! Z.to_nat bn) as [v|] eqn:E; [|done]. by apply lookup_replicate in E as [-> _].
    - destruct (decide (bn < 268)); [|by apply block_at_high; lia]. by rewrite block_at_indirect by lia. }
  split; try done; try lia.
  - apply root_inode_ok.
  - intros bn b Hbn. by rewrite Hb.
  - intros bn bn' b Hbn _. by rewrite Hb.
  - by rewrite Hfb.
Qed.

(** What the builder has written before it adds directory entries is what
    the kernel expects: the image has FSSIZE sectors, the kernel decodes from
    sector 1 the superblock that was meant, with log, inodes, bitmap and data
    one behind the other, and finds an empty root directory as inode 1 whose
    file satisfies the invariant under which [iappend] is correct.  But the
    kernel stops on this very image: its check of the magic number is the
    wrong way round. *)
Theorem mkfs_image :
  ∃ f buf, mkfs_format true = Done (f, buf, ROOTINO) ∧ Z.of_nat (length (img f)) = FSSIZE ∧
    decode_super (blocks (kernel_fs f) 1) = super ∧
    logstart super + nlog super = inodestart super ∧ inodestart super + NINODES / IPB < bmapstart super ∧
    bmapstart super + NBITMAP = NMETA ∧ freeblock f = NMETA ∧
    rinode true f ROOTINO = Done root_inode ∧ file_ok f root_inode ∧
    fs_init (kernel_fs f) = Panic "invalid file system".
Proof.
  destruct image_formatted as (f & buf & Hrun & Hf & Hl & Hsb & Hfb & Hfi & Hdec & Hr & Hs).
  exists f, buf. split_and!; [exact Hrun|by rewrite Hl|exact Hdec|reflexivity|reflexivity|reflexivity|exact Hfb|exact Hr| |].
  - by apply root_file.
  - unfold fs_init. cbn [blocks kernel_fs]. rewrite Hdec. done.
Qed.

(** The builder never finishes: it passes [&"."] to [mkfs_as_bytes], which
    then yields the 16 bytes of the reference and not the one byte of the
    string, and copying them to a slice of length 1 panics.  The image is left
    without directory entries and without its free map. *)
Theorem mkfs_main_panics dot dotdot files :
  mkfs_main true dot dotdot files = Panic "source slice length does not match destination slice length".
Proof. destruct image_formatted as (f & buf & Hrun & _). unfold mkfs_main. by rewrite Hrun. Qed.

(** ** Witnesses *)
Lemma mkfs_append_witness :
  ∃ f buf f' d', mkfs_format true = Done (f, buf, ROOTINO) ∧
    iappend true f ROOTINO [1; 2; 3] = Done f' ∧ d_size d' = 3 ∧ byte_at f' d' 2 = Some 3.
Proof.
  destruct image_formatted as (f & buf & Hrun & Hf & Hl & Hsb & Hfb & Hfi & Hdec & Hr & Hs).
  assert (Hn : inode_on_disk f ROOTINO).
  { unfold inode_on_disk, on_disk. rewrite Hsb, Hl. split_and!; vm_compute; congruence. }
  assert (Hm : ROOTINO / IPB + inodestart (sb f) < NMETA) by (rewrite Hsb; reflexivity).
  assert (Hroom : freeblock f + ineed root_inode + touched 0 3 ≤ Z.of_nat (length (img f))).
  { rewrite Hfb, Hl. vm_compute. congruence. }
  destruct (mkfs_append f ROOTINO root_inode [1; 2; 3] (root_file f Hf Hl Hfb Hs) root_inode_ok Hn Hm Hr ltac:(vm_compute; congruence) Hroom)
    as (f' & d' & Hrun' & _ & _ & Hsz & Hnew & _).
  exists f, buf, f', d'. split; [exact Hrun|]. split; [exact Hrun'|]. split; [exact Hsz|].
  rewrite (Hnew 2); [reflexivity|]. rewrite Hsz. split; [discriminate|reflexivity].
Defined.
